(* ===== verification/_CoqProject ===== *)
-Q . S2P
Prelude.v
Prog.v
Traces.v
Rely.v
Externals.v
Rfc4648.v
JsonText.v
Models.v
Errors.v
ClaimId.v
Record.v
Plaintext.v
CodecProperties.v
Backend.v
Vault.v
VaultSpec.v
Calls.v
Escrow.v
VaultTheorems.v
Samples.v
Concurrent.v
Deposits.v
VaultProperties.v
ConcurrentProperties.v
RecordTypes.v
Fs.v
LocalFile.v
LocalBackend.v
LocalProperties.v
LocalCritical.v
LocalConcurrent.v
LocalConcurrentProperties.v
VaultOnFile.v
VaultOnFileProperties.v
Durability.v
DurabilityProperties.v
Sqlite.v
AnyBackend.v
SqliteModel.v
StorageProperties.v
Auth.v
Rpc.v
OpenRpc.v
Net.v
Server.v
ServerModel.v
RpcProperties.v
OpenRpcProperties.v
ServerProperties.v
Cleanup.v
Tests.v
CleanupProperties.v
TestsProperties.v
Config.v
ComponentTests.v
Main.v
MainProperties.v
