(* ===== verification/Prelude.v ===== *)
(** * A model of tari_vault, and the theorems that make it correct

    tari_vault keeps Merkle proofs encrypted until somebody presents their claim
    token: a record id and an AES-256-GCM key in one base64url string.  A proof
    is stored with [vault_storeProof], delivered once by [vault_retrieveProof]
    or dropped by [vault_deleteProof]; records carry an optional expiry, and a
    background task sweeps the expired ones.  The parts and how they interact
    (paths are under src/src/):

<<
      main.rs      reads the configuration (config.rs), opens a store, sweeps
        |          once, starts the cleanup task and the server, and shuts
        |          both down in order
        |-- rpc/   the JSON-RPC methods behind auth.rs, over plain HTTP on a
        |    |     loopback address or over TLS
        |-- vault/cleanup.rs   calls cleanup() of the shared vault periodically
        v    v
      vault/proof_vault.rs     encrypts, decrypts, checks expiry
        |                      (domain/: tokens, records, plaintext proofs)
        v
      storage/backend.rs       the trait; mod.rs dispatches to one of
        |-- storage/local_file.rs   one JSON file, process mutex, file lock
        |-- storage/sqlite.rs       one table behind a mutex
>>

    ** Style of the model

    An asynchronous function is a tree of effects (Prog.v, [prog]): it returns,
    it panics, or performs one atomic effect and continues.  One tree is run
    alone ([run]), cut short by a crash after any number of effects
    ([run_for]), or interleaved with others ([pool_run]).  Errors are values of
    [result], a panic is [Panic], an effect that would wait for ever is
    [Blocked].  Strings are the bytes of their UTF-8 encoding; fixed arrays are
    vectors; machine integers are [Z] with their bounds and the checked or
    saturating conversions of the source.  Times are nanoseconds since the epoch.

    ** Interfaces

    Third-party crates are type classes of functions, with a second class of
    their documented laws that theorems take as hypotheses.  Every interface
    with laws has an instance that computes, so the hypotheses can hold together
    and every witness is evaluated:

    - Externals.v: [Base64], [UuidFmt], [AesGcm], [Chrono], [SerdeJson],
      [Subtle], [Http].  Instances: Rfc4648.v (the base64 of RFC 4648),
      JsonText.v (the JSON of RFC 8259), Models.v (the others; the cipher and
      the date texts are stand-ins with the same laws).
    - Sqlite.v: [Sqlite], the engine, with the meaning of the pragmas, the
      migrations and the four statements as laws.  Instance: SqliteModel.v.
    - Server.v: [JsonRpsee] (how a request body reaches a method and its answer
      leaves, each under a limit), [Tls], [PathFmt].  Instances: ServerModel.v.
    - Cleanup.v: [Ticker], tokio's interval.  Instance: [skip_ticker].
    - Config.v: [ConfigCrate], [PathText].  Instances: MainProperties.v,
      [ConfigSample].

    Inside the program, [StorageBackend] with [BackendLaws] (Backend.v) is what
    the vault's theorems assume of a store; LocalBackend.v, Sqlite.v and
    AnyBackend.v discharge it.  [ProofVault] (Vault.v) is what the cleanup task
    and the JSON-RPC methods call, and [VaultRpcServer] (Rpc.v) the trait they
    implement.

    ** The files

    - Prelude.v: bytes, results, machine integers, strings, maps, automation.
    - Prog.v: effect trees, their executions and the logic [wpc] of programs
      that may crash anywhere; protocols of effects ([obeys]).  Traces.v: what
      a program has become along its part of an interleaving ([leads]), and
      sequences of steps on an abstract state ([serial]).  Rely.v:
      rely-guarantee triples for programs that run interleaved.
    - Errors.v (error.rs), ClaimId.v (domain/claim_id.rs), Record.v
      (domain/record.rs, and the document [DiskState] of local_file.rs),
      Plaintext.v (domain/proof.rs): the data.
    - Backend.v (storage/backend.rs): the trait, its contract against a map from
      ids to records, and [MapStore], the reference store of the witnesses.
    - Vault.v (vault/proof_vault.rs): [store_proof], [retrieve_proof],
      [delete_proof], [cleanup] over clock, randomness, storage and log.
    - VaultSpec.v, Calls.v: each method's specification on every branch; Escrow.v:
      the abstract service; VaultTheorems.v: sequences of calls; Concurrent.v:
      interleaved calls and their histories; RecordTypes.v: what is stored.
    - Fs.v: the operating system of the file store (tree, modes, mutexes,
      advisory locks, failures by the number of the effect); LocalFile.v:
      storage/local_file.rs over it; LocalBackend.v: opening the store, and the
      instance of the contract.  LocalCritical.v, LocalConcurrent.v: its
      operations run concurrently, each taking place when the file lock is
      released; the labels of what took place are a parameter.
    - VaultOnFile.v: the vault over the file store, every storage call of Vault.v
      replaced by its operation of LocalFile.v ([on_file]), so that calls
      interleave at system calls; labelled with the vault's events, the proof of
      LocalConcurrent.v gives histories of Concurrent.v.
    - Deposits.v: the record a call writes, and one no call names, in histories of
      calls.  Durability.v: the processes are killed at any system call and
      others open the same file ([lives]).
    - Sqlite.v (storage/sqlite.rs), AnyBackend.v (storage/mod.rs).
    - Auth.v (auth.rs), Rpc.v (rpc/api.rs, rpc/discovery.rs and the handlers of
      rpc/server.rs), OpenRpc.v (openrpc.json, the document rpc/discovery.rs
      embeds, with the tests on it), Net.v ([SocketAddr], of the standard
      library), Server.v (the rest of rpc/server.rs).
    - Cleanup.v (vault/cleanup.rs): the task as a state machine; a schedule is a
      list of [Action]s (polls, time, cancellation, calls of others).
    - Config.v (config.rs), Main.v (main.rs).
    - Tests.v, ComponentTests.v: the unit tests of the crate, as programs; a test
      panics where an assertion fails.
    - Samples.v: concrete inputs.  The files named ...Properties.v, and
      RecordTypes.v, hold the properties C1 to C40 and their witnesses.

    ** What the theorems show

    - VaultProperties.v: runs of calls on the vault, over any store that meets
      the contract and whatever fails, are runs of an escrow of deposits (C1);
      each call's answer and effect on every branch (C3, C14); a stored proof is
      retrievable, once (C4, [consumed_once]); a wrong key consumes nothing (C24); panics
      (C25); where plaintext and key can flow (C26, C27); the instant of expiry
      and lifetimes out of range ([expiry_boundary],
      [store_panics_on_long_lifetime]).
    - VaultOnFileProperties.v: concurrent calls over one vault file, interleaved
      at every system call by threads and processes, are calls interleaved at
      storage operations, in one history that respects real time (C2): no call succeeds on a record that began after one
      had succeeded (C7), one deletion succeeds ([delete_once_on_file]), and no
      call waits for ever (C8).
    - DurabilityProperties.v: at every moment the vault file holds the records of
      some history, so kills lose nothing that was acknowledged: a stored proof
      is handed out by whoever opens the file next (C5), and one that was
      consumed stays so (C9).
    - ConcurrentProperties.v: the same for any store whose operations are single
      steps: C16, C17; but two overlapping retrievals can both be handed the
      proof (C18).  RecordTypes.v: every record is well formed (C15).
    - CodecProperties.v: tokens and the vault file decode to what was encoded
      (C28, C29).
    - LocalProperties.v: a crash leaves the old or the new records (C10); every
      operation returns, releases its locks and meets the contract (C11); opening
      and permissions (C30, C31); two flaws: a process that opens a missing file
      can erase what another has stored (C40), and [failed_insert_persists].
    - LocalConcurrentProperties.v: operations on one file, interleaved at every
      step by threads and processes, are linearizable: one order of the operations
      has, at every moment of the run, a prefix with all that returned and nothing
      that had not begun (C12); and they never deadlock ([local_ops_complete]).
    - StorageProperties.v: the SQLite store meets the contract (C13), opening it
      ([sqlite_open_keeps_records]), its order of far dates
      ([sqlite_sweep_drops_far_future]); the two stores answer alike
      ([backends_agree]).
    - RpcProperties.v, OpenRpcProperties.v and ServerProperties.v: the methods are
      the vault's calls with errors mapped (C19, C39), and what they answer is
      what the API document announces, with the exceptions named (C20);
      authentication (C21); no plain HTTP beyond loopback unless asked for (C22);
      a proof's way through two HTTP requests, and what becomes of one whose answer
      exceeds the limit on responses (C6).
    - CleanupProperties.v: the task survives, stops when told to, keeps its pace,
      sweeps when due, and what a sweep leaves (C32 to C36).
    - MainProperties.v: the life of the process (C23), the precedence of settings
      (C37) and their defaults.
    - TestsProperties.v: the unit tests pass on every store that does not fail
      (C38), those of the task for every length of their sleeps; what is assumed of
      the clock and of fresh identifiers is in the statement.

    ** Fuel and bounds

    [prog] is inductive: programs return without fuel.  [parse] of JsonText.v
    runs on twice the length of its text; [jsize_bound] shows that this exceeds
    what any printed value needs, and [parse_print] that the value is found.
    [calm depth] of Cleanup.v bounds the effects of a sweep; [cleanup_calm] shows
    that [StandardVault::cleanup] has at most two, so that a cancelled task has
    stopped after five polls: two of the sweep, its log line, the poll that ends
    it and the one that sees the cancellation.  Sizes and lifetimes are bounded
    where the code bounds them: [u64], [i64::MAX / 1000] seconds, [u32]
    saturation of the body limit.

    ** Not modelled

    - lib.rs and the mod.rs files of domain, rpc and vault only declare and
      re-export; tests/ drives a server over sockets and checks what is proved of
      the methods here; Makefile and scripts build.
    - The text of openrpc.json is a parameter of the discovery method; OpenRpc.v
      has the document as a value, and theorems about both assume that the text
      parses to it.  Of a schema, [pattern] and numeric bounds are not
      interpreted.
    - The unit tests start from a store in an empty directory, as their helpers
      make it; a test ends where it panics.
    - Sockets, TLS sessions and the framing of JSON-RPC are the interfaces of
      Server.v; parsing of command-line options, tracing's set-up and signals are
      effects or inputs of Main.v, and the crate config's file formats stay
      inside [ConfigCrate].
    - Zeroizing is modelled as the value left behind ([claim_zeroize]); copies a
      compiler may leave in memory are not.
    - When several fields of a configuration are wrong at once, which of them the
      error names is left to the order the model reads them in.  The values of a
      source are strings, integers and booleans: nulls, floats, tables in place of
      a scalar, and a scalar in place of a section are not represented.
    - [Path::exists] answers false also when the system cannot tell; here the test
      is exact, so the theorems on opening a store (C5, C9, C30) are about systems
      that can.  The system's failure to remove a temporary file is modelled, and
      ignored as the source ignores it.
    - A poll of the cleanup task runs to the next effect, tokio's to the next one
      that is not ready; only the number of polls in C33 depends on it.  Setting up
      the log always succeeds, and waiting for the server to stop always ends.
    - A lock of the file store is that of its path: the theorems on concurrent
      operations ask that the vault file is not named [.lock] itself.  Opening a
      store takes no lock (C40), so they start from a file that exists.
    - A kill leaves the files as the system calls made so far left them; a machine
      that stops before its file system wrote them out is not modelled, and
      [write_atomic] does not wait for that.
    - Log lines of concurrent calls over the file store are effects without a
      state: nothing reads them.
    - SQLite's own concurrency is the engine's; the store's mutex makes its
      operations single steps.  The cleanup task interleaved with calls is modelled
      at the storage interface (Cleanup.v), not at system calls; its sweep is the
      call [RCleanup] of VaultOnFile.v. *)
From Stdlib Require Export ZArith Lia.
From Stdlib Require Strings.Byte.
From stdpp Require Export base tactics list option gmap strings vector.

#[global] Open Scope Z_scope.

(** ** Bytes *)

#[global] Instance byte_eq_dec : EqDecision Byte.byte := Byte.byte_eq_dec.

#[global] Program Instance byte_countable : Countable Byte.byte :=
  inj_countable' Ascii.ascii_of_byte Ascii.byte_of_ascii _.
Next Obligation. apply Ascii.byte_of_ascii_of_byte. Qed.

(** [Vec<u8>] and slices are lists, a fixed array [[u8; n]] a vector. *)
Abbreviation byte := Byte.byte.
Abbreviation bytes := (list Byte.byte).
Abbreviation array n := (vec Byte.byte n).

Definition zero_byte : byte := Byte.x00.

(** [let mut a = [0u8; n]; a.copy_from_slice(src)].  [copy_from_slice] panics
    unless [src] has length [n]; the callers have checked it. *)
Definition copy_from_slice (n : nat) (src : bytes) : array n :=
  fun_to_vec (fun i : fin n => nth (fin_to_nat i) src zero_byte).

#[global] Arguments copy_from_slice : simpl never.

Lemma vec_to_list_copy n (src : bytes) :
  length src = n -> vec_to_list (copy_from_slice n src) = src.
Proof.
  intros <-. induction src as [|b src IH]; [done|].
  unfold copy_from_slice in *. cbn. f_equal. apply IH.
Qed.

Lemma copy_vec_to_list {n} (a : array n) : copy_from_slice n (vec_to_list a) = a.
Proof. apply vec_to_list_inj2, vec_to_list_copy, length_vec_to_list. Qed.

(** Keys of maps, encoded by a function that computes. *)
#[global] Program Instance array_countable n : Countable (array n) :=
  inj_countable vec_to_list (fun l => Some (copy_from_slice n l)) _.
Next Obligation. intros n a. cbn. f_equal. apply copy_vec_to_list. Qed.

(** ** Results *)

Inductive result (A E : Type) : Type :=
| Ok (a : A)
| Err (e : E).
Arguments Ok {A E} a.
Arguments Err {A E} e.

#[global] Instance result_eq_dec `{EqDecision A, EqDecision E} : EqDecision (result A E).
Proof. solve_decision. Defined.

Definition map_err {A E F} (f : E -> F) (r : result A E) : result A F :=
  match r with Ok a => Ok a | Err e => Err (f e) end.

Definition result_map {A B E} (f : A -> B) (r : result A E) : result B E :=
  match r with Ok a => Ok (f a) | Err e => Err e end.

Definition is_ok {A E} (r : result A E) : bool :=
  match r with Ok _ => true | Err _ => false end.

(** The [?] operator on a pure [Result]. *)
Definition try_r {A B E} (r : result A E) (k : A -> result B E) : result B E :=
  match r with Ok a => k a | Err e => Err e end.

Lemma try_r_Ok {A B E} (r : result A E) (k : A -> result B E) b :
  try_r r k = Ok b <-> exists a, r = Ok a /\ k a = Ok b.
Proof. destruct r as [a|e]; cbn; [naive_solver|]. split; [done|]. by intros (? & ? & ?). Qed.

Lemma result_map_Ok {A B E} (f : A -> B) (r : result A E) b :
  result_map f r = Ok b <-> exists a, r = Ok a /\ f a = b.
Proof. destruct r as [a|e]; cbn; [naive_solver|]. split; [done|]. by intros (? & ? & ?). Qed.

Lemma map_err_Ok {A E F} (f : E -> F) (r : result A E) a :
  map_err f r = Ok a <-> r = Ok a.
Proof. by destruct r; cbn; naive_solver. Qed.

Definition ok_or {A E} (o : option A) (e : E) : result A E :=
  match o with Some a => Ok a | None => Err e end.

(** ** Machine integers *)

Definition u64_max : Z := 2 ^ 64 - 1.
Definition i64_max : Z := 2 ^ 63 - 1.
Definition u32_max : Z := 2 ^ 32 - 1.

Definition is_u64 (z : Z) : Prop := 0 <= z <= u64_max.

(** [i64::try_from] on a [u64]. *)
Definition i64_try_from (z : Z) : option Z := if z <=? i64_max then Some z else None.

Lemma i64_try_from_Some z n : i64_try_from z = Some n -> n = z.
Proof. unfold i64_try_from. destruct (z <=? i64_max); congruence. Qed.

(** [usize::saturating_add] on a 64-bit target. *)
Definition usize_saturating_add (a b : Z) : Z := Z.min (a + b) u64_max.

(** [u32::try_from] on a [usize]. *)
Definition u32_try_from (z : Z) : option Z := if z <=? u32_max then Some z else None.

(** ** Strings as the bytes of their UTF-8 encoding *)

Definition as_bytes (s : string) : bytes := String.list_byte_of_string s.
Definition of_bytes (b : bytes) : string := String.string_of_list_byte b.

Lemma as_bytes_of_bytes b : as_bytes (of_bytes b) = b.
Proof. apply String.list_byte_of_string_of_list_byte. Qed.

Lemma of_bytes_as_bytes s : of_bytes (as_bytes s) = s.
Proof. apply String.string_of_list_byte_of_string. Qed.

#[global] Instance as_bytes_inj : Inj (=) (=) as_bytes.
Proof. intros s t H. by rewrite <- (of_bytes_as_bytes s), H, of_bytes_as_bytes. Qed.

#[global] Instance of_bytes_inj : Inj (=) (=) of_bytes.
Proof. intros s t H. by rewrite <- (as_bytes_of_bytes s), H, as_bytes_of_bytes. Qed.

Lemma length_list_ascii_of_string s : length (String.list_ascii_of_string s) = String.length s.
Proof. induction s; cbn; congruence. Qed.

Lemma length_as_bytes s : length (as_bytes s) = String.length s.
Proof.
  unfold as_bytes, String.list_byte_of_string. rewrite length_map. apply length_list_ascii_of_string.
Qed.

Lemma as_bytes_app s t : as_bytes (s +:+ t) = as_bytes s ++ as_bytes t.
Proof.
  unfold as_bytes, String.list_byte_of_string. induction s as [|a s IH]; [done|].
  change (String a s +:+ t) with (String a (s +:+ t)). cbn. by rewrite IH.
Qed.

(** ** Lists *)

Lemma take_app_exact {A} (l k : list A) n : length l = n -> take n (l ++ k) = l.
Proof. intros <-. apply take_app_length. Qed.

Lemma drop_app_exact {A} (l k : list A) n : length l = n -> drop n (l ++ k) = k.
Proof. intros <-. apply drop_app_length. Qed.

(** The first element with a property. *)
Lemma first_split {A} (P : A -> Prop) `{forall x, Decision (P x)} (l : list A) :
  Exists P l -> exists l1 x l2, l = l1 ++ x :: l2 /\ Forall (fun y => ~ P y) l1 /\ P x.
Proof.
  induction l as [|y l IH]; [by intros ?%Exists_nil|]. intros Hl. destruct (decide (P y)) as [Hy|Hy].
  - by exists [], y, l.
  - apply Exists_cons in Hl as [?|Hl]; [done|]. destruct (IH Hl) as (l1 & x & l2 & -> & Hl1 & Hx).
    exists (y :: l1), x, l2. split_and!; [done|by constructor|done].
Qed.

(** ** Maps under an injective renaming of their keys *)

Section Kmap.
Context `{Countable K1, Countable K2} {A : Type} (f : K1 -> K2) `{!Inj (=) (=) f}.
Implicit Types (m : gmap K1 A).

Lemma size_kmap m : size (kmap f m : gmap K2 A) = size m.
Proof. by rewrite <- !length_map_to_list, (map_to_list_kmap f), length_fmap. Qed.

Lemma filter_kmap (P : A -> Prop) `{forall a, Decision (P a)} m :
  filter (fun kr => P kr.2) (kmap f m : gmap K2 A) = kmap f (filter (fun kr => P kr.2) m).
Proof.
  apply map_eq. intros k. apply option_eq. intros r.
  rewrite map_lookup_filter_Some, !lookup_kmap_Some by apply _. split.
  - intros [(i & -> & Hi) Hr]. exists i. by rewrite map_lookup_filter_Some.
  - intros (i & -> & [Hi Hr]%map_lookup_filter_Some). eauto.
Qed.

Lemma map_Forall_kmap (P : A -> Prop) m :
  map_Forall (fun _ r => P r) m -> map_Forall (fun _ r => P r) (kmap f m : gmap K2 A).
Proof. intros Hm k r Hk. apply lookup_kmap_Some in Hk as (i & _ & Hi); [|done]. by eapply Hm. Qed.
End Kmap.

(** ** Automation *)

Create HintDb vault discriminated.
Create Rewrite HintDb vault_rw.
#[export] Hint Rewrite as_bytes_of_bytes of_bytes_as_bytes length_as_bytes : vault_rw.

(** Case analysis on the scrutinee of the first match of the goal, keeping the
    equation. *)
Ltac case_goal :=
  match goal with
  | |- context [match ?x with _ => _ end] =>
      lazymatch x with
      | context [match _ with _ => _ end] => fail
      | _ => let E := fresh "E" in destruct x eqn:E
      end
  end.

(** Splits the conjunctions and existentials of the context. *)
Ltac inv_all :=
  repeat match goal with
  | H : _ /\ _ |- _ => destruct H
  | H : exists _, _ |- _ => destruct H
  | H : is_Some _ |- _ => destruct H
  end; simplify_eq.
