(* ===== verification/Prog.v ===== *)
(** Programs with effects: the trees that model the crate's asynchronous
    functions, their execution alone, cut short by a crash, and interleaved. *)
From S2P Require Export Prelude.

(** ** Programs

    An asynchronous function of the crate is a finite tree: it returns, it
    panics, or it performs one effect of the signature [E] and continues with
    its answer.  Every effect is one atomic step, so the same tree is executed
    on its own ([run]), cut after any number of effects ([run_for]), and
    interleaved with other trees ([pool_run]). *)
Inductive prog (E : Type -> Type) (A : Type) : Type :=
| Ret (a : A)
| Panic
| Vis {X : Type} (e : E X) (k : X -> prog E A).
Arguments Ret {E A} a.
Arguments Panic {E A}.
Arguments Vis {E A X} e k.

#[global] Instance prog_ret E : MRet (prog E) := fun A a => Ret a.
#[global] Instance prog_bind E : MBind (prog E) :=
  fun A B f => fix bind p :=
    match p with
    | Ret a => f a
    | Panic => Panic
    | Vis e k => Vis e (fun x => bind (k x))
    end.

#[global] Instance prog_fmap E : FMap (prog E) :=
  fun A B f p => p ≫= fun a => Ret (f a).

Definition trigger {E X} (e : E X) : prog E X := Vis e Ret.

(** The [?] operator inside an asynchronous function. *)
Definition try_p {E A B Er} (p : prog E (result A Er))
    (k : A -> prog E (result B Er)) : prog E (result B Er) :=
  p ≫= fun r => match r with Ok a => k a | Err e => Ret (Err e) end.

(** [.await.map_err(f)] on the result of an asynchronous call. *)
Definition map_err_p {E A Er Er'} (f : Er -> Er') (p : prog E (result A Er)) :
  prog E (result A Er') := map_err f <$> p.

Declare Scope prog_scope.
Delimit Scope prog_scope with prog.
Notation "x '<-?' p ; k" := (try_p p (fun x => k))
  (at level 20, p at level 100, k at level 200, right associativity) : prog_scope.
#[global] Open Scope prog_scope.

(** *** Guards and blocking tasks *)

(** A guard's [Drop]: [rel] runs when [p] ends, by return or by unwinding. *)
Fixpoint on_exit {E A} (rel : prog E unit) (p : prog E A) : prog E A :=
  match p with
  | Ret a => rel ≫= fun _ => Ret a
  | Panic => rel ≫= fun _ => Panic
  | Vis e k => Vis e (fun x => on_exit rel (k x))
  end.

(** [spawn_blocking(f).await]: a panic of the task becomes a [JoinError]. *)
Fixpoint spawn_blocking {E A} (p : prog E A) : prog E (result A string) :=
  match p with
  | Ret a => Ret (Ok a)
  | Panic => Ret (Err "task panicked")
  | Vis e k => Vis e (fun x => spawn_blocking (k x))
  end.

(** *** Running a program alone *)

(** A handler answers one effect in a state, or blocks on it. *)
Definition handler (E : Type -> Type) (W : Type) : Type :=
  forall X, E X -> W -> option (X * W).

Inductive outcome (A : Type) : Type :=
| Done (a : A)
| Panicked
| Blocked.
Arguments Done {A} a.
Arguments Panicked {A}.
Arguments Blocked {A}.

Section Run.
Context {E : Type -> Type} {W : Type} (h : handler E W).

Fixpoint run {A} (p : prog E A) (w : W) : outcome A * W :=
  match p with
  | Ret a => (Done a, w)
  | Panic => (Panicked, w)
  | Vis e k =>
      match h _ e w with
      | Some (x, w') => run (k x) w'
      | None => (Blocked, w)
      end
  end.

(** The state left behind when the process is killed after [n] effects. *)
Fixpoint run_for {A} (n : nat) (p : prog E A) (w : W) : W :=
  match n, p with
  | S n', Vis e k =>
      match h _ e w with
      | Some (x, w') => run_for n' (k x) w'
      | None => w
      end
  | _, _ => w
  end.

Lemma run_bind {A B} (p : prog E A) (f : A -> prog E B) w :
  run (p ≫= f) w =
  match run p w with
  | (Done a, w') => run (f a) w'
  | (Panicked, w') => (Panicked, w')
  | (Blocked, w') => (Blocked, w')
  end.
Proof.
  revert w. induction p as [a| |X e k IH]; intros w; cbn; try done.
  destruct (h X e w) as [[x w']|]; [apply IH | done].
Qed.

Lemma run_fmap {A B} (g : A -> B) (p : prog E A) w :
  run (g <$> p) w =
  match run p w with
  | (Done a, w') => (Done (g a), w')
  | (Panicked, w') => (Panicked, w')
  | (Blocked, w') => (Blocked, w')
  end.
Proof. unfold fmap, prog_fmap. rewrite run_bind. by destruct (run p w) as [[] ?]. Qed.

Lemma run_try {A B Er} (p : prog E (result A Er)) (k : A -> prog E (result B Er)) w :
  run (try_p p k) w =
  match run p w with
  | (Done (Ok a), w') => run (k a) w'
  | (Done (Err e), w') => (Done (Err e), w')
  | (Panicked, w') => (Panicked, w')
  | (Blocked, w') => (Blocked, w')
  end.
Proof.
  unfold try_p. rewrite run_bind. by destruct (run p w) as [[[]| |] ?].
Qed.
End Run.

(** ** Triples for programs that may be cut short

    [wpc P p Q w]: run from [w], the program [p] never blocks and never panics,
    it ends with an answer and a state in [Q], and at every point of the run,
    the two ends included, the state satisfies [P]. *)
Section Wpc.
Context {E : Type -> Type} {W : Type} (h : handler E W).
Implicit Types (w : W).

Fixpoint wpc {A} (P : W -> Prop) (p : prog E A) (Q : A -> W -> Prop) (w : W) : Prop :=
  P w /\
  match p with
  | Ret a => Q a w
  | Panic => False
  | Vis e k =>
      match h _ e w with
      | Some (x, w') => wpc P (k x) Q w'
      | None => False
      end
  end.

Lemma wpc_inv {A} P (p : prog E A) Q w : wpc P p Q w -> P w.
Proof. by destruct p; intros []. Qed.

Lemma wpc_mono {A} (P P' : W -> Prop) (p : prog E A) (Q Q' : A -> W -> Prop) w :
  wpc P p Q w -> (forall w, P w -> P' w) -> (forall a w, P w -> Q a w -> Q' a w) ->
  wpc P' p Q' w.
Proof.
  intros Hp HP HQ. revert w Hp. induction p as [a| |X e k IH]; intros w; cbn; intros [Hw Hp].
  - auto.
  - done.
  - split; [auto|]. destruct (h X e w) as [[x w']|]; [by apply IH|done].
Qed.

Lemma wpc_bind {A B} P (p : prog E A) (f : A -> prog E B) Q w :
  wpc P p (fun a w' => wpc P (f a) Q w') w -> wpc P (p ≫= f) Q w.
Proof.
  revert w. induction p as [a| |X e k IH]; intros w; cbn; intros [Hw Hp]; [done..|].
  split; [done|]. destruct (h X e w) as [[x w']|]; [by apply IH|done].
Qed.

Lemma wpc_try {A B Er} P (p : prog E (result A Er)) (f : A -> prog E (result B Er)) Q w :
  wpc P p (fun r w' => match r with
                       | Ok a => wpc P (f a) Q w'
                       | Err e => P w' -> Q (Err e) w'
                       end) w ->
  wpc P (try_p p f) Q w.
Proof.
  intros Hp. apply wpc_bind.
  revert w Hp. induction p as [r| |X e k IH]; intros w; cbn; intros [Hw Hp].
  - destruct r as [a|e]; cbn; auto.
  - done.
  - split; [done|]. destruct (h X e w) as [[x w']|]; [by apply IH|done].
Qed.

Lemma wpc_on_exit {A} P rel (p : prog E A) Q w :
  wpc P p (fun a w' => wpc P rel (fun _ w'' => Q a w'') w') w -> wpc P (on_exit rel p) Q w.
Proof.
  revert w. induction p as [a| |X e k IH]; intros w; cbn; intros [Hw Hp].
  - apply wpc_bind. by eapply wpc_mono; [exact Hp|..].
  - done.
  - split; [done|]. destruct (h X e w) as [[x w']|]; [by apply IH|done].
Qed.

Lemma wpc_spawn {A} P (p : prog E A) Q w :
  wpc P p (fun a w' => Q (Ok a) w') w -> wpc P (spawn_blocking p) Q w.
Proof.
  revert w. induction p as [a| |X e k IH]; intros w; cbn; intros [Hw Hp]; [done..|].
  split; [done|]. destruct (h X e w) as [[x w']|]; [by apply IH|done].
Qed.

(** What the triple gives of the two executions. *)
Lemma wpc_run {A} P (p : prog E A) Q w :
  wpc P p Q w -> exists a w', run h p w = (Done a, w') /\ P w' /\ Q a w'.
Proof.
  revert w. induction p as [a| |X e k IH]; intros w; cbn; intros [Hw Hp]; [eauto|done|].
  destruct (h X e w) as [[x w']|]; [by apply IH|done].
Qed.

Lemma wpc_run_for {A} P (p : prog E A) Q w n : wpc P p Q w -> P (run_for h n p w).
Proof.
  revert w n. induction p as [a| |X e k IH]; intros w [|n]; cbn; intros [Hw Hp]; try done.
  destruct (h X e w) as [[x w']|]; [by apply IH|done].
Qed.
End Wpc.

(** ** Interleavings

    What one thread did, of a sequence of steps tagged with their thread. *)
Definition thread_trace {L} (i : nat) (tr : list (nat * L)) : list L :=
  (filter (fun x => x.1 = i) tr).*2.
#[global] Arguments thread_trace : simpl never.

(** *** Pools

    Several programs run against one state, one effect at a time, in any order;
    the trace records each effect with its answer and its thread. *)
Section Pool.
Context {E : Type -> Type}.

(** An effect and the answer it got. *)
Inductive event : Type :=
| Ev {X : Type} (e : E X) (x : X).

(** [completes p tr a]: along the answers of [tr], and no others, [p] returns
    [a]. *)
Fixpoint completes {A} (p : prog E A) (tr : list event) (a : A) : Prop :=
  match p, tr with
  | Ret b, [] => a = b
  | Vis e k, ev :: tr' => exists x, ev = Ev e x /\ completes (k x) tr' a
  | _, _ => False
  end.

Lemma completes_bind {A B} (p : prog E A) (f : A -> prog E B) tr b :
  completes (p ≫= f) tr b -> exists a tr1 tr2,
    tr = tr1 ++ tr2 /\ completes p tr1 a /\ completes (f a) tr2 b.
Proof.
  revert tr. induction p as [a| |X e k IH]; intros tr; cbn.
  - intros Hf. by exists a, [], tr.
  - done.
  - destruct tr as [|ev tr]; [done|]. intros (x & -> & Hk).
    destruct (IH x tr Hk) as (a & tr1 & tr2 & -> & H1 & H2).
    exists a, (Ev e x :: tr1), tr2. split_and!; [done|by exists x|done].
Qed.

Context {W : Type} (h : handler E W).

(** The answers of a trace are the handler's. *)
Inductive accepted : W -> list event -> W -> Prop :=
| acc_nil w : accepted w [] w
| acc_cons {X} (e : E X) x w w1 tr w2 :
    h X e w = Some (x, w1) -> accepted w1 tr w2 -> accepted w (Ev e x :: tr) w2.

Lemma accepted_app w1 tr1 w2 tr2 w3 :
  accepted w1 tr1 w2 -> accepted w2 tr2 w3 -> accepted w1 (tr1 ++ tr2) w3.
Proof. induction 1; cbn; [done|]. intros. econstructor; eauto. Qed.

Context {A : Type}.
Implicit Types (ps : list (prog E A)).

Inductive pool_run : list (prog E A) -> W -> list (nat * event) -> list (prog E A) -> W -> Prop :=
| pool_nil ps w : pool_run ps w [] ps w
| pool_cons ps w i {X} (e : E X) k x w1 tr ps2 w2 :
    ps !! i = Some (Vis e k) -> h X e w = Some (x, w1) ->
    pool_run (<[i := k x]> ps) w1 tr ps2 w2 ->
    pool_run ps w ((i, Ev e x) :: tr) ps2 w2.

(** A schedule, executed: a thread that has ended or is blocked loses its
    turn. *)
Definition turn (i : nat) (c : list (prog E A) * W) : list (prog E A) * W :=
  match lookup (A := prog E A) i c.1 with
  | Some (Vis e k) =>
      match h _ e c.2 with
      | Some (x, w') => (<[i := k x]> c.1, w')
      | None => c
      end
  | _ => c
  end.

Definition exec (sched : list nat) (c : list (prog E A) * W) : list (prog E A) * W :=
  foldl (fun c i => turn i c) c sched.

Lemma turn_step i ps w {X} (e : E X) k x w' :
  ps !! i = Some (Vis e k) -> h X e w = Some (x, w') ->
  turn i (ps, w) = (<[i := k x]> ps, w').
Proof. intros Hi He. unfold turn; cbn [fst snd]. by rewrite Hi, He. Qed.

Lemma turn_ended i ps w a : ps !! i = Some (Ret a) -> turn i (ps, w) = (ps, w).
Proof. intros Hi. unfold turn; cbn [fst snd]. by rewrite Hi. Qed.

Lemma exec_pool_run sched ps w :
  exists tr, pool_run ps w tr (exec sched (ps, w)).1 (exec sched (ps, w)).2.
Proof.
  revert ps w. induction sched as [|i sched IH]; intros ps w; cbn; [eexists; constructor|].
  unfold turn at 2 4; cbn. destruct (ps !! i) as [[a| |X e k]|] eqn:Hi; try apply IH.
  destruct (h X e w) as [[x w']|] eqn:He; [|apply IH].
  destruct (IH (<[i := k x]> ps) w') as [tr Htr]. eexists. by econstructor.
Qed.

Lemma pool_run_app ps w tr1 ps1 w1 tr2 ps2 w2 :
  pool_run ps w tr1 ps1 w1 -> pool_run ps1 w1 tr2 ps2 w2 -> pool_run ps w (tr1 ++ tr2) ps2 w2.
Proof. induction 1; cbn; [done|]. intros. econstructor; eauto. Qed.

Lemma exec_cut sched1 sched2 ps w :
  exists tr1 tr2,
    pool_run ps w tr1 (exec sched1 (ps, w)).1 (exec sched1 (ps, w)).2 /\
    pool_run ps w (tr1 ++ tr2) (exec (sched1 ++ sched2) (ps, w)).1 (exec (sched1 ++ sched2) (ps, w)).2.
Proof.
  destruct (exec_pool_run sched1 ps w) as [tr1 H1].
  destruct (exec_pool_run sched2 (exec sched1 (ps, w)).1 (exec sched1 (ps, w)).2) as [tr2 H2].
  exists tr1, tr2. split; [done|]. rewrite <- surjective_pairing in H2.
  replace (exec (sched1 ++ sched2) (ps, w)) with (exec sched2 (exec sched1 (ps, w)))
    by (unfold exec; by rewrite foldl_app).
  by eapply pool_run_app.
Qed.

Lemma pool_run_accepted ps w tr ps' w' : pool_run ps w tr ps' w' -> accepted w tr.*2 w'.
Proof. induction 1; cbn; [constructor|]. by econstructor. Qed.

Lemma pool_run_length ps w tr ps' w' : pool_run ps w tr ps' w' -> length ps' = length ps.
Proof. induction 1; [done|]. by rewrite IHpool_run, length_insert. Qed.

(** A run is determined by the threads of its steps. *)
Lemma pool_run_exec ps w tr ps' w' : pool_run ps w tr ps' w' -> exec tr.*1 (ps, w) = (ps', w').
Proof.
  induction 1 as [|ps w i X e k x w1 tr ps2 w2 Hi He _ IH]; [done|].
  cbn [fmap list_fmap fst exec foldl]. by rewrite (turn_step _ _ _ _ _ _ _ Hi He).
Qed.

Lemma pool_run_fun ps w tr ps1 w1 ps2 w2 :
  pool_run ps w tr ps1 w1 -> pool_run ps w tr ps2 w2 -> ps1 = ps2 /\ w1 = w2.
Proof. intros H1%pool_run_exec H2%pool_run_exec. rewrite H1 in H2. by simplify_eq. Qed.

(** One program, run while the others wait. *)
Lemma pool_run_alone ps w i (p : prog E A) a w' :
  ps !! i = Some p -> run h p w = (Done a, w') ->
  exists tr, pool_run ps w tr (<[i := Ret a]> ps) w'.
Proof.
  revert ps w. induction p as [b| |X e k IH]; intros ps w Hi Hr; cbn in Hr.
  - simplify_eq. exists []. rewrite list_insert_id by done. constructor.
  - done.
  - destruct (h X e w) as [[x w1]|] eqn:He; [|done].
    destruct (IH x (<[i := k x]> ps) w1) as [tr Htr]; [|done|].
    { apply list_lookup_insert_eq. by eapply lookup_lt_Some. }
    rewrite list_insert_insert_eq in Htr. exists ((i, Ev e x) :: tr). by econstructor.
Qed.

(** A thread that has returned has completed along its own events. *)
Lemma pool_run_completes ps w tr ps' w' i p a :
  pool_run ps w tr ps' w' -> ps !! i = Some p -> ps' !! i = Some (Ret a) ->
  completes p (thread_trace i tr) a.
Proof.
  intros Hrun. revert p. induction Hrun as [ps w|ps w j X e k x w1 tr ps2 w2 Hj He Hrun IH];
    intros p Hp Ha; unfold thread_trace.
  - rewrite Hp in Ha. by simplify_eq.
  - rewrite filter_cons; cbn. case_decide as Hji; cbn.
    + subst j. rewrite Hp in Hj. simplify_eq. cbn. exists x. split; [done|].
      apply IH; [|done]. apply list_lookup_insert_eq. by eapply lookup_lt_Some.
    + apply IH; [|done]. by rewrite list_lookup_insert_ne.
Qed.
End Pool.
Arguments event E : clear implicits.

(** ** Programs whose effects stay within bounds

    [within G P p]: as long as the answers satisfy [G], every effect of [p]
    satisfies [P]. *)
Fixpoint within {E A} (G : forall X, E X -> X -> Prop) (P : forall X, E X -> Prop)
    (p : prog E A) : Prop :=
  match p with
  | Vis e k => P _ e /\ forall x, G _ e x -> within G P (k x)
  | _ => True
  end.

Lemma within_bind {E A B} G P (p : prog E A) (f : A -> prog E B) :
  within G P p -> (forall a, within G P (f a)) -> within G P (p ≫= f).
Proof.
  intros Hp Hf. induction p as [a| |X e k IH]; cbn in *; [done..|].
  destruct Hp as [He Hk]. split; [done|]. intros x Hx. by apply IH, Hk.
Qed.

Lemma within_mono {E A} (G : forall X, E X -> X -> Prop) (P P' : forall X, E X -> Prop) (p : prog E A) :
  (forall X e, P X e -> P' X e) -> within G P p -> within G P' p.
Proof. intros HP. induction p as [a| |X e k IH]; cbn; [done..|]. intros [He Hk]. auto. Qed.

Lemma pool_run_within {E W A} (h : handler E W) (J : W -> Prop) G P (ps : list (prog E A)) w tr ps' w' :
  (forall X (e : E X) x w w', J w -> P X e -> h X e w = Some (x, w') -> J w' /\ G X e x) ->
  J w -> Forall (within G P) ps -> pool_run h ps w tr ps' w' ->
  Forall (fun iev => match iev.2 with Ev e _ => P _ e end) tr /\ Forall (within G P) ps' /\ J w'.
Proof.
  intros Hh Hw Hps Hrun. induction Hrun as [|ps w i X e k x w1 tr ps2 w2 Hi He Hrun IH]; [done|].
  pose proof (Forall_lookup_1 _ _ _ _ Hps Hi) as [HP Hk].
  destruct (Hh _ _ _ _ _ Hw HP He) as [Hw1 Hx].
  destruct (IH Hw1 ltac:(apply Forall_insert; [done|by apply Hk])) as (? & ? & ?).
  split_and!; [by constructor|done|done].
Qed.

(** ** Programs that follow a protocol

    [obeys delta final q p]: whatever the answers, every effect of [p] is one
    the automaton [delta] allows in its state, from [q] on, and the answer of
    [p] is one [final] allows in the state it ends in. *)
Fixpoint obeys {E A Q} (delta : Q -> forall X, E X -> X -> option Q) (final : Q -> A -> Prop)
    (q : Q) (p : prog E A) {struct p} : Prop :=
  match p with
  | Ret a => final q a
  | Panic => False
  | Vis e k => forall x, match delta q _ e x with
                         | Some q' => obeys delta final q' (k x)
                         | None => False
                         end
  end.

(** The run of the automaton along a trace. *)
Fixpoint automaton {E Q} (delta : Q -> forall X, E X -> X -> option Q) (q : Q)
    (tr : list (event E)) : option Q :=
  match tr with
  | [] => Some q
  | Ev e x :: tr' => q' ← delta q _ e x; automaton delta q' tr'
  end.

Lemma obeys_trace {E A Q} (delta : Q -> forall X, E X -> X -> option Q) final q (p : prog E A) tr a :
  obeys delta final q p -> completes p tr a ->
  exists q', automaton delta q tr = Some q' /\ final q' a.
Proof.
  revert q tr. induction p as [b| |X e k IH]; intros q tr Ho Hc; cbn in *.
  - destruct tr; [|done]. subst. by exists q.
  - done.
  - destruct tr as [|ev tr]; [done|]. destruct Hc as (x & -> & Hc). specialize (Ho x). cbn.
    destruct (delta q X e x) as [q'|]; [|done]. cbn. by apply IH with x.
Qed.

Lemma obeys_bind {E A B Q} (delta : Q -> forall X, E X -> X -> option Q) (mid : Q -> A -> Prop) final q
    (p : prog E A) (f : A -> prog E B) :
  obeys delta mid q p -> (forall q' a, mid q' a -> obeys delta final q' (f a)) ->
  obeys delta final q (p ≫= f).
Proof.
  intros Hp Hf. revert q Hp. induction p as [a| |X e k IH]; intros q; cbn; [auto|done|].
  intros Hk x. specialize (Hk x). destruct (delta q X e x) as [q'|]; [|done]. by apply IH.
Qed.
