(* ===== verification/Traces.v ===== *)
(** Traces: what a program has become along its part of an interleaving, and
    sequences of steps on an abstract state. *)
From S2P Require Export Prog.

(** ** The steps of one thread *)

Section Threads.
Context {L : Type}.
Implicit Types (tr : list (nat * L)) (l : L).

Lemma thread_trace_app i tr1 tr2 :
  thread_trace i (tr1 ++ tr2) = thread_trace i tr1 ++ thread_trace i tr2.
Proof. unfold thread_trace. by rewrite filter_app, fmap_app. Qed.

Lemma thread_trace_one i l : thread_trace i [(i, l)] = [l].
Proof. unfold thread_trace. by rewrite filter_cons_True. Qed.

Lemma thread_trace_none i tr : Forall (fun x => x.1 <> i) tr -> thread_trace i tr = [].
Proof.
  intros Hl. unfold thread_trace. induction Hl as [|x l Hx _ IH]; [done|]. by rewrite filter_cons_False.
Qed.

Lemma thread_trace_other i j l : i <> j -> thread_trace j [(i, l)] = [].
Proof. intros Hne. apply thread_trace_none. by constructor. Qed.

Lemma elem_of_thread_trace i tr l : l ∈ thread_trace i tr <-> (i, l) ∈ tr.
Proof.
  unfold thread_trace. rewrite list_elem_of_fmap. split.
  - intros ([j k] & -> & [Hj Hin]%list_elem_of_filter). cbn in *. by subst.
  - intros Hin. exists (i, l). split; [done|]. by apply list_elem_of_filter.
Qed.

Lemma thread_trace_in i tr l : l ∈ thread_trace i tr -> l ∈ tr.*2.
Proof. intros Hl%elem_of_thread_trace. apply list_elem_of_fmap. by exists (i, l). Qed.

Lemma thread_trace_nonempty i tr : i ∈ tr.*1 -> thread_trace i tr <> [].
Proof.
  intros ([j l] & -> & Hin)%list_elem_of_fmap Hn. apply elem_of_thread_trace in Hin. cbn in Hn.
  rewrite Hn in Hin. by apply elem_of_nil in Hin.
Qed.
End Threads.

(** ** Sequences of steps

    [step i s l s']: the step of thread [i] with the label [l] takes the abstract
    state [s] to [s']. *)
Section Serial.
Context {S L : Type} (step : nat -> S -> L -> S -> Prop).

Fixpoint serial (s : S) (log : list (nat * L)) (s' : S) : Prop :=
  match log with
  | [] => s' = s
  | (i, l) :: log => exists s1, step i s l s1 /\ serial s1 log s'
  end.

Lemma serial_snoc s log s1 i l s2 :
  serial s log s1 -> step i s1 l s2 -> serial s (log ++ [(i, l)]) s2.
Proof.
  intros Hs Hl. revert s Hs. induction log as [|[j k] log IH]; intros s; cbn.
  - intros ->. by exists s2.
  - intros (s3 & ? & Hs). exists s3. auto.
Qed.

Lemma serial_app s log1 log2 s' :
  serial s (log1 ++ log2) s' <-> exists s1, serial s log1 s1 /\ serial s1 log2 s'.
Proof.
  revert s. induction log1 as [|[i l] log1 IH]; intros s; cbn; [naive_solver|].
  setoid_rewrite IH. naive_solver.
Qed.
End Serial.

(** ** What a program becomes

    [leads p tr p']: after the effects and answers of [tr], [p'] is left of [p]. *)
Section Leads.
Context {E : Type -> Type} {A : Type}.
Implicit Types (p : prog E A) (tr : list (event E)).

Fixpoint leads p tr p' {struct tr} : Prop :=
  match tr with
  | [] => p' = p
  | ev :: tr' =>
      match p with
      | Vis e k => exists x, ev = Ev e x /\ leads (k x) tr' p'
      | _ => False
      end
  end.

Lemma leads_snoc p tr {X} (e : E X) k x : leads p tr (Vis e k) -> leads p (tr ++ [Ev e x]) (k x).
Proof.
  revert p. induction tr as [|ev tr IH]; intros p; cbn.
  - intros <-. by exists x.
  - destruct p as [a| |Y f g]; [done..|]. intros (y & -> & Hl). exists y. auto.
Qed.

Lemma leads_app p tr1 tr2 p' :
  leads p (tr1 ++ tr2) p' <-> exists q, leads p tr1 q /\ leads q tr2 p'.
Proof.
  revert p. induction tr1 as [|ev tr1 IH]; intros p; cbn; [naive_solver|].
  destruct p as [a| |X e k]; [naive_solver..|]. split.
  - intros (x & -> & (q & H1 & H2)%IH). exists q. eauto.
  - intros (q & (x & -> & H1) & H2). exists x. rewrite IH. eauto.
Qed.

Lemma completes_leads p tr a : completes p tr a <-> leads p tr (Ret a).
Proof.
  revert p. induction tr as [|ev tr IH]; intros p; cbn; destruct p as [b| |X e k]; cbn; try naive_solver.
Qed.

(** Effects within bounds stay so. *)
Lemma leads_within G P p tr p' :
  within G P p -> Forall (fun ev : event E => match ev with Ev e x => G _ e x end) tr ->
  leads p tr p' ->
  Forall (fun ev : event E => match ev with Ev e _ => P _ e end) tr /\ within G P p'.
Proof.
  revert p. induction tr as [|ev tr IH]; intros p Hp HG Hl; cbn in Hl; [by subst|].
  destruct p as [a| |X e k]; [done..|]. destruct Hl as (x & -> & Hl), Hp as [He Hk].
  apply Forall_cons in HG as [Hx HG]. destruct (IH (k x) (Hk x Hx) HG Hl) as [? ?].
  split; [by constructor|done].
Qed.

(** [panics_only G P p]: as long as the answers satisfy [G], [p] panics only if
    [P] holds. *)
Fixpoint panics_only (G : forall X, E X -> X -> Prop) (P : Prop) (p : prog E A) : Prop :=
  match p with
  | Ret _ => True
  | Panic => P
  | Vis e k => forall x, G _ e x -> panics_only G P (k x)
  end.

Lemma leads_panic G P p tr :
  panics_only G P p -> Forall (fun ev : event E => match ev with Ev e x => G _ e x end) tr ->
  leads p tr Panic -> P.
Proof.
  revert p. induction tr as [|ev tr IH]; intros p Hp HG Hl; cbn in Hl; [by subst|].
  destruct p as [a| |X e k]; [done..|]. destruct Hl as (x & -> & Hl).
  apply Forall_cons in HG as [Hx HG]. exact (IH (k x) (Hp x Hx) HG Hl).
Qed.
End Leads.

Lemma panics_only_bind {E A B} G P (p : prog E A) (f : A -> prog E B) :
  panics_only G P p -> (forall a, panics_only G P (f a)) -> panics_only G P (p ≫= f).
Proof.
  intros Hp Hf. induction p as [a| |X e k IH]; cbn in *; [done..|].
  intros x Hx. by apply IH, Hp.
Qed.

(** Only scheduled threads step. *)
Lemma exec_trace {E W A} (h : handler E W) sched (ps : list (prog E A)) w :
  exists tr, pool_run h ps w tr (exec h sched (ps, w)).1 (exec h sched (ps, w)).2 /\
    forall i, i ∉ sched -> thread_trace i tr = [].
Proof.
  revert ps w. induction sched as [|i sched IH]; intros ps w.
  { exists []. split; [constructor|done]. }
  assert (Hstay : exists tr, pool_run h ps w tr (exec h sched (ps, w)).1 (exec h sched (ps, w)).2 /\
            forall j, j ∉ i :: sched -> thread_trace j tr = []).
  { destruct (IH ps w) as (tr & Hrun & Hn). exists tr. split; [done|].
    intros j [_ Hj]%not_elem_of_cons. by apply Hn. }
  cbn. unfold turn at 2 4; cbn. destruct (ps !! i) as [[a| |X e k]|] eqn:Hi; try done.
  destruct (h X e w) as [[x w']|] eqn:He; [|done].
  destruct (IH (<[i := k x]> ps) w') as (tr & Hrun & Hn). exists ((i, Ev e x) :: tr).
  split; [by econstructor|]. intros j [Hj ?]%not_elem_of_cons.
  change ((i, Ev e x) :: tr) with ([(i, Ev e x)] ++ tr).
  rewrite thread_trace_app, thread_trace_other, Hn by done. done.
Qed.
