(* ===== verification/Rely.v ===== *)
(** Rely-guarantee reasoning for programs that run interleaved: triples that
    hold whatever the other threads do within their guarantee, and the rule for
    a pool of threads. *)
From S2P Require Export Prog.

(** ** Triples

    The state is that of the handler with a ghost state next to it, which every
    step may update.  [rg R G B D p Q v]: run from [v] among threads whose steps
    stay in [R], every step of [p] is in [G], where it waits the state is in [B],
    it panics only in [D], and it returns only with an answer and a state
    in [Q]. *)
Section Triples.
Context {E : Type -> Type} {W Gh : Type} (h : handler E W).
Abbreviation V := (W * Gh)%type.
Context (R G : V -> V -> Prop) (B D : V -> Prop) `{!PreOrder R}.
Implicit Types (v : V).

Fixpoint rg {A} (p : prog E A) (Q : A -> V -> Prop) v {struct p} : Prop :=
  forall v', R v v' ->
  match p with
  | Ret a => Q a v'
  | Panic => D v'
  | Vis e k =>
      match h _ e v'.1 with
      | Some (x, w) => exists g, G v' (w, g) /\ rg (k x) Q (w, g)
      | None => B v'
      end
  end.

Lemma rg_stable {A} (p : prog E A) Q v v' : R v v' -> rg p Q v -> rg p Q v'.
Proof. intros Hv. destruct p; cbn; intros Hp v'' Hv'; exact (Hp v'' (transitivity Hv Hv')). Qed.

Lemma rg_mono {A} (p : prog E A) (Q Q' : A -> V -> Prop) v :
  rg p Q v -> (forall a v', Q a v' -> Q' a v') -> rg p Q' v.
Proof.
  intros Hp HQ. revert v Hp. induction p as [a| |X e k IH]; intros v; cbn; intros Hp v' Hv.
  - by apply HQ, Hp.
  - by eapply Hp.
  - specialize (Hp v' Hv). destruct (h X e v'.1) as [[x w]|]; [|done].
    destruct Hp as (g & HG & Hk). exists g. split; [done|]. by apply IH.
Qed.

Lemma rg_bind {A C} (p : prog E A) (f : A -> prog E C) Q v :
  rg p (fun a v' => rg (f a) Q v') v -> rg (p ≫= f) Q v.
Proof.
  revert v. induction p as [a| |X e k IH]; intros v Hp.
  - apply Hp. reflexivity.
  - cbn in *. intros v' Hv. by eapply Hp.
  - cbn in *. intros v' Hv. specialize (Hp v' Hv). destruct (h X e v'.1) as [[x w]|]; [|done].
    destruct Hp as (g & HG & Hk). exists g. split; [done|]. by apply IH.
Qed.

Lemma rg_try {A C Er} (p : prog E (result A Er)) (f : A -> prog E (result C Er)) Q v :
  (forall e v1 v2, R v1 v2 -> Q (Err e) v1 -> Q (Err e) v2) ->
  rg p (fun r v' => match r with Ok a => rg (f a) Q v' | Err e => Q (Err e) v' end) v ->
  rg (try_p p f) Q v.
Proof.
  intros HQ Hp. apply rg_bind. eapply rg_mono; [exact Hp|]. intros [a|e] v'; [done|].
  intros He v'' Hv. by eapply HQ.
Qed.

Lemma rg_fmap {A C} (g : A -> C) (p : prog E A) Q v :
  (forall a v1 v2, R v1 v2 -> Q (g a) v1 -> Q (g a) v2) ->
  rg p (fun a => Q (g a)) v -> rg (g <$> p) Q v.
Proof.
  intros HQ Hp. apply rg_bind. eapply rg_mono; [exact Hp|]. intros a v' Ha v'' Hv. by eapply HQ.
Qed.

Lemma rg_on_exit {A} rel (p : prog E A) Q v :
  (forall v, ~ D v) ->
  (forall a v1 v2, R v1 v2 -> Q a v1 -> Q a v2) ->
  rg p (fun a v' => rg rel (fun _ => Q a) v') v -> rg (on_exit rel p) Q v.
Proof.
  intros HD HQ. revert v. induction p as [a| |X e k IH]; intros v Hp; cbn [on_exit].
  - apply rg_bind. eapply rg_mono; [apply Hp; reflexivity|]. cbn. intros _ v' Ha v'' Hv. by eapply HQ.
  - destruct (HD v). apply Hp. reflexivity.
  - cbn in *. intros v' Hv. specialize (Hp v' Hv). destruct (h X e v'.1) as [[x w]|]; [|done].
    destruct Hp as (g & HG & Hk). exists g. split; [done|]. by apply IH.
Qed.

Lemma rg_spawn {A} (p : prog E A) Q v :
  (forall v, ~ D v) -> rg p (fun a => Q (Ok a)) v -> rg (spawn_blocking p) Q v.
Proof.
  intros HD. revert v. induction p as [a| |X e k IH]; intros v; cbn; intros Hp v' Hv.
  - by apply Hp.
  - destruct (HD v'). by apply Hp.
  - specialize (Hp v' Hv). destruct (h X e v'.1) as [[x w]|]; [|done].
    destruct Hp as (g & HG & Hk). exists g. split; [done|]. by apply IH.
Qed.

(** One effect. *)
Lemma rg_trigger {X} (e : E X) Q v :
  (forall x v1 v2, R v1 v2 -> Q x v1 -> Q x v2) ->
  (forall v', R v v' ->
   match h _ e v'.1 with
   | Some (x, w) => exists g, G v' (w, g) /\ Q x (w, g)
   | None => B v'
   end) ->
  rg (trigger e) Q v.
Proof.
  intros HQ He v' Hv. specialize (He v' Hv). destruct (h X e v'.1) as [[x w]|]; [|done].
  destruct He as (g & HG & Hx). exists g. split; [done|]. intros v'' Hv'. by eapply HQ.
Qed.
End Triples.

(** A program that never panics may be run where panics are expected. *)
Lemma rg_panics {E W Gh A} (h : handler E W) (R G : W * Gh -> W * Gh -> Prop) B (D D' : W * Gh -> Prop)
    (p : prog E A) Q v :
  (forall v, D v -> D' v) -> rg h R G B D p Q v -> rg h R G B D' p Q v.
Proof.
  intros HD. revert v. induction p as [a| |X e k IH]; intros v; cbn; intros Hp v' Hv.
  - by apply Hp.
  - exact (HD _ (Hp v' Hv)).
  - specialize (Hp v' Hv). destruct (h X e v'.1) as [[x w]|]; [|done].
    destruct Hp as (g & HG & Hk). exists g. split; [done|]. by apply IH.
Qed.

(** ** Effects of a larger signature *)
Fixpoint translate {E F A} (f : forall X, E X -> F X) (p : prog E A) : prog F A :=
  match p with
  | Ret a => Ret a
  | Panic => Panic
  | Vis e k => Vis (f _ e) (fun x => translate f (k x))
  end.

Lemma rg_translate {E F W Gh A} (h : handler E W) (h' : handler F W) (f : forall X, E X -> F X)
    (R G : W * Gh -> W * Gh -> Prop) B D (p : prog E A) Q v :
  (forall X e w, h' X (f X e) w = h X e w) -> rg h R G B D p Q v -> rg h' R G B D (translate f p) Q v.
Proof.
  intros Hh. revert v. induction p as [a| |X e k IH]; intros v; cbn; intros Hp v' Hv; [auto..|].
  rewrite Hh. specialize (Hp v' Hv). destruct (h X e v'.1) as [[x w]|]; [|done].
  destruct Hp as (g & HG & Hk). exists g. split; [done|]. by apply IH.
Qed.

(** ** Pools *)

Section Pools.
Context {E : Type -> Type} {W Gh : Type} (h : handler E W) {A : Type}.
Abbreviation V := (W * Gh)%type.
Context (R G : nat -> V -> V -> Prop) (B D : nat -> V -> Prop) (Q : nat -> A -> V -> Prop).
Context `{!forall i, PreOrder (R i)}.
Context (G_R : forall i j v v', i <> j -> G i v v' -> R j v v').
Implicit Types (ps : list (prog E A)) (v : V).

(** A path of the ghost state next to a run: the thread of each step. *)
Inductive gpath : V -> list nat -> V -> Prop :=
| gpath_nil v : gpath v [] v
| gpath_cons i v v1 v2 l : G i v v1 -> gpath v1 l v2 -> gpath v (i :: l) v2.

Definition pool_ok ps v : Prop :=
  forall i p, ps !! i = Some p -> rg h (R i) (G i) (B i) (D i) p (Q i) v.

Lemma pool_ok_step ps w g i {X} (e : E X) k x w' :
  pool_ok ps (w, g) -> ps !! i = Some (Vis e k) -> h X e w = Some (x, w') ->
  exists g', G i (w, g) (w', g') /\ pool_ok (<[i := k x]> ps) (w', g').
Proof.
  intros Hps Hi He. pose proof (Hps i _ Hi (w, g) (reflexivity _)) as Hp. cbn in Hp.
  rewrite He in Hp. destruct Hp as (g' & HG & Hk). exists g'. split; [done|].
  intros j q Hj. destruct (decide (i = j)) as [<-|Hne].
  - rewrite list_lookup_insert_eq in Hj by (by eapply lookup_lt_Some). by simplify_eq.
  - rewrite list_lookup_insert_ne in Hj by done. assert (HR : R j (w, g) (w', g')) by by eapply G_R.
    apply (rg_stable _ _ _ _ _ _ _ _ _ HR). by apply Hps.
Qed.

Lemma pool_ok_run ps w tr ps' w' g :
  pool_run h ps w tr ps' w' -> pool_ok ps (w, g) ->
  exists g', gpath (w, g) tr.*1 (w', g') /\ pool_ok ps' (w', g').
Proof.
  intros Hrun. revert g. induction Hrun as [|ps w i X e k x w1 tr ps2 w2 Hi He Hrun IH]; intros g Hps.
  - exists g. split; [constructor|done].
  - destruct (pool_ok_step _ _ _ _ _ _ _ _ Hps Hi He) as (g1 & HG & Hps1).
    destruct (IH g1 Hps1) as (g' & Hpath & Hps'). exists g'. split; [by econstructor|done].
Qed.

(** At every cut of the run the ghost path passes through a state of the pool:
    one ghost path goes with the whole run. *)
Lemma pool_ok_cuts ps w tr ps' w' g :
  pool_run h ps w tr ps' w' -> pool_ok ps (w, g) ->
  exists g', forall tr1 tr2 ps1 w1, tr = tr1 ++ tr2 -> pool_run h ps w tr1 ps1 w1 ->
    exists g1, gpath (w, g) tr1.*1 (w1, g1) /\ pool_ok ps1 (w1, g1) /\
      gpath (w1, g1) tr2.*1 (w', g').
Proof.
  intros Hrun Hps.
  enough (exists g', gpath (w, g) tr.*1 (w', g') /\ forall tr1 tr2, tr = tr1 ++ tr2 ->
    exists ps1 w1 g1, pool_run h ps w tr1 ps1 w1 /\ gpath (w, g) tr1.*1 (w1, g1) /\
      pool_ok ps1 (w1, g1) /\ gpath (w1, g1) tr2.*1 (w', g')) as (g' & _ & Hcut).
  { exists g'. intros tr1 tr2 ps1 w1 Htr Hrun1.
    destruct (Hcut tr1 tr2 Htr) as (ps2 & w2 & g1 & Hrun2 & Hrest).
    destruct (pool_run_fun _ _ _ _ _ _ _ _ Hrun1 Hrun2) as [-> ->]. by exists g1. }
  revert g Hps. induction Hrun as [ps w|ps w i X e k x w1 tr ps2 w2 Hi He Hrun IH]; intros g Hps.
  { exists g. split; [constructor|]. intros tr1 tr2 Htr. symmetry in Htr.
    apply app_nil in Htr as [-> ->]. exists ps, w, g. split_and!; by try constructor. }
  destruct (pool_ok_step _ _ _ _ _ _ _ _ Hps Hi He) as (g1 & HG & Hps1).
  destruct (IH g1 Hps1) as (g' & Hpath & Hcut). exists g'. split; [by econstructor|].
  intros [|ev tr1] tr2 Htr; cbn in Htr; simplify_eq.
  - exists ps, w, g. split_and!; [constructor|constructor|done|by econstructor].
  - destruct (Hcut tr1 tr2 eq_refl) as (ps3 & w3 & g3 & Hrun3 & Hp3 & Hok3 & Hp3').
    exists ps3, w3, g3. split_and!; [by econstructor|by econstructor|done|done].
Qed.

Lemma pool_ok_ret ps v i a : pool_ok ps v -> ps !! i = Some (Ret a) -> Q i a v.
Proof. intros Hps Hi. exact (Hps i _ Hi v (reflexivity _)). Qed.

Lemma pool_ok_panic ps v i : pool_ok ps v -> ps !! i = Some Panic -> D i v.
Proof. intros Hps Hi. exact (Hps i _ Hi v (reflexivity _)). Qed.

Lemma pool_ok_blocked ps v i {X} (e : E X) k :
  pool_ok ps v -> ps !! i = Some (Vis e k) -> h X e v.1 = None -> B i v.
Proof.
  intros Hps Hi He. pose proof (Hps i _ Hi v (reflexivity _)) as Hp. cbn in Hp. by rewrite He in Hp.
Qed.
End Pools.

(** ** Every schedule ends

    Programs are finite trees, so a pool cannot run for ever. *)
Section Termination.
Context {E : Type -> Type} {A : Type}.

Definition subtree (q p : prog E A) : Prop :=
  match p with Vis e k => exists x, q = k x | _ => False end.

Lemma subtree_wf : well_founded subtree.
Proof.
  intros p. induction p as [a| |X e k IH]; constructor; intros q Hq; cbn in Hq; [done..|].
  destruct Hq as [x ->]. apply IH.
Qed.

(** One component of the pool is replaced by a subtree. *)
Definition pool_sub (ps' ps : list (prog E A)) : Prop :=
  exists i p q, ps !! i = Some p /\ subtree q p /\ ps' = <[i := q]> ps.

Lemma pool_sub_wf : well_founded pool_sub.
Proof.
  intros ps. induction ps as [|p ps IH].
  { constructor. intros ps' (i & p & q & Hi & _). done. }
  revert ps IH. induction p as [p IHp] using (well_founded_induction subtree_wf).
  intros ps Hps. induction Hps as [ps Hps IHps]. constructor.
  intros ps' (i & p' & q & Hi & Hq & ->). destruct i as [|i]; cbn in *.
  - simplify_eq. by apply IHp; [|constructor].
  - apply IHps. by exists i, p', q.
Qed.

(** Every thread has come to its end. *)
Definition ended (ps : list (prog E A)) : Prop := Forall (fun p => p = Panic \/ exists a, p = Ret a) ps.

Definition running (p : prog E A) : Prop := p <> Panic /\ forall a, p <> Ret a.

Lemma ended_or ps : ended ps \/ exists j p, ps !! j = Some p /\ running p.
Proof.
  induction ps as [|p ps [IH|(j & q & Hj & Hq)]]; [by left; constructor| |].
  - destruct p as [a| |X e k].
    + left. constructor; eauto.
    + left. constructor; eauto.
    + right. by exists O, (Vis e k).
  - right. by exists (S j), q.
Qed.

(** A pool that can always take a step can run until every thread has
    ended. *)
Lemma pool_completes {W} (h : handler E W) (I : list (prog E A) -> W -> Prop) ps w :
  (forall ps w i X (e : E X) k x w', I ps w -> ps !! i = Some (Vis e k) -> h X e w = Some (x, w') ->
     I (<[i := k x]> ps) w') ->
  (forall ps w, I ps w -> ended ps \/
     exists i X (e : E X) k x w', ps !! i = Some (Vis e k) /\ h X e w = Some (x, w')) ->
  I ps w ->
  exists tr ps' w', pool_run h ps w tr ps' w' /\ ended ps' /\ I ps' w'.
Proof.
  intros Hpres Hlive. revert w. induction ps as [ps IH] using (well_founded_induction pool_sub_wf).
  intros w HI. destruct (Hlive ps w HI) as [Hd|(i & X & e & k & x & w' & Hi & He)].
  - exists [], ps, w. split; [constructor|done].
  - destruct (IH (<[i := k x]> ps)) with w' as (tr & ps' & w2 & Hrun & Hd & HI').
    + exists i, (Vis e k), (k x). split_and!; [done|by exists x|done].
    + by eapply Hpres.
    + exists ((i, Ev e x) :: tr), ps', w2. split; [by econstructor|done].
Qed.
End Termination.
