(* ===== verification/Externals.v ===== *)
(** The crates the program calls, as interfaces: each class lists the functions
    the code uses, and its [...Laws] class the documented behaviour the proofs
    rely on.  Nothing here models code of the repository; [Models.v] gives one
    executable instance of every class, which the witnesses compute with. *)
From S2P Require Export Prelude.

(** ** base64: the engines [URL_SAFE_NO_PAD] and [STANDARD] *)

Class Base64 := {
  url_safe_no_pad_encode : bytes -> string;
  url_safe_no_pad_decode : string -> option bytes;
  standard_encode : bytes -> string;
  standard_decode : string -> option bytes;
}.

(** RFC 4648: decoding inverts encoding; an unpadded encoding of [n] bytes has
    [ceil (8 n / 6)] characters; the engines reject non-canonical input
    (trailing bits must be zero), so encoding inverts a successful decoding. *)
Class Base64Laws `{Base64} : Prop := {
  url_decode_encode b : url_safe_no_pad_decode (url_safe_no_pad_encode b) = Some b;
  url_encode_decode s b :
    url_safe_no_pad_decode s = Some b -> url_safe_no_pad_encode b = s;
  url_encode_length b :
    Z.of_nat (String.length (url_safe_no_pad_encode b)) = (8 * Z.of_nat (length b) + 5) / 6;
  std_decode_encode b : standard_decode (standard_encode b) = Some b;
}.

(** ** uuid: the two textual forms of a 16-byte identifier *)

Class UuidFmt := {
  uuid_hyphenated : array 16 -> string;
  uuid_simple : array 16 -> string;
}.

Class UuidFmtLaws `{UuidFmt} : Prop := {
  #[global] uuid_hyphenated_inj :: Inj (=) (=) uuid_hyphenated;
  #[global] uuid_simple_inj :: Inj (=) (=) uuid_simple;
}.

(** ** aes-gcm: [Aes256Gcm] under a 32-byte key and a 12-byte nonce *)

Class AesGcm := {
  aead_encrypt : array 32 -> array 12 -> bytes -> option bytes;
  aead_decrypt : array 32 -> array 12 -> bytes -> option bytes;
  (** the longest plaintext the cipher accepts, [P_MAX] *)
  aead_p_max : Z;
}.

(** NIST SP 800-38D: authenticated decryption returns the plaintext of a
    ciphertext it accepts, and accepts exactly the outputs of encryption under
    the same key and nonce (the tag is recomputed and compared). *)
Class AesGcmLaws `{AesGcm} : Prop := {
  aead_encrypt_total k n p :
    Z.of_nat (length p) <= aead_p_max -> is_Some (aead_encrypt k n p);
  aead_decrypt_iff k n c p :
    aead_decrypt k n c = Some p <-> aead_encrypt k n p = Some c;
}.

(** ** chrono: [DateTime<Utc>] as nanoseconds since the Unix epoch

    [None] of [duration_seconds] and [datetime_add] is the documented panic. *)
Class Chrono := {
  datetime_min : Z;
  datetime_max : Z;
  duration_seconds : Z -> option Z;
  datetime_add : Z -> Z -> option Z;
  to_rfc3339 : Z -> string;
  parse_from_rfc3339 : string -> result Z string;
  (** the serde text form of a [DateTime<Utc>] *)
  datetime_to_serde : Z -> string;
  datetime_of_serde : string -> option Z;
}.

Definition nanos_per_sec : Z := 1000000000.

(** The instants RFC 3339 can write with its four-digit year:
    0000-01-01T00:00:00Z to 9999-12-31T23:59:59.999999999Z. *)
Definition rfc3339_min : Z := -62167219200 * nanos_per_sec.
Definition rfc3339_max : Z := 253402300800 * nanos_per_sec - 1.
Definition in_rfc3339 (t : Z) : Prop := rfc3339_min <= t <= rfc3339_max.

(** The order SQLite's BINARY collation gives two TEXT values: bytewise. *)
Definition text_le (s t : string) : bool := String.leb s t.

(** [TimeDelta::seconds] panics outside [i64::MAX / 1000] seconds, [DateTime +
    TimeDelta] outside the representable range; RFC 3339 texts of instants in
    the four-digit years parse back and, always written in UTC with the offset
    [+00:00], sort as the instants do. *)
Class ChronoLaws `{Chrono} : Prop := {
  datetime_range : datetime_min <= rfc3339_min /\ rfc3339_max <= datetime_max;
  duration_seconds_spec s :
    duration_seconds s =
    if (- (i64_max / 1000) <=? s) && (s <=? i64_max / 1000)
    then Some (s * nanos_per_sec) else None;
  datetime_add_spec t d :
    datetime_min <= t <= datetime_max ->
    datetime_add t d =
    if (datetime_min <=? t + d) && (t + d <=? datetime_max) then Some (t + d) else None;
  parse_to_rfc3339 t : in_rfc3339 t -> parse_from_rfc3339 (to_rfc3339 t) = Ok t;
  to_rfc3339_le t u :
    in_rfc3339 t -> in_rfc3339 u -> text_le (to_rfc3339 t) (to_rfc3339 u) = (t <=? u);
  serde_datetime t :
    datetime_min <= t <= datetime_max -> datetime_of_serde (datetime_to_serde t) = Some t;
}.

(** ** serde_json: JSON documents and their text

    A document keeps the members of an object in the order of the text, and a
    number as its literal. *)
#[warnings="-register-all"]
Inductive json : Type :=
| JNull
| JBool (b : bool)
| JNumber (lit : string)
| JString (s : string)
| JArray (l : list json)
| JObject (members : list (string * json)).

(** [from_document] is the streaming deserializer a derived [Deserialize]
    consumes; [from_slice_value] deserializes into a [serde_json::Value], whose
    objects are maps (keys sorted, the last duplicate wins) and whose numbers
    are [u64], [i64] or [f64]. *)
Class SerdeJson := {
  to_vec : json -> result bytes string;
  to_vec_pretty : json -> result bytes string;
  value_to_string : json -> string;
  from_document : bytes -> result json string;
  from_slice_value : bytes -> result json string;
  (** the documents a [Value] represents without loss: numbers that survive the
      conversion, object keys sorted and distinct *)
  is_value : json -> Prop;
}.

(** Documents without numbers. *)
#[warnings="-register-all"]
Inductive plain_json : json -> Prop :=
| plain_null : plain_json JNull
| plain_bool b : plain_json (JBool b)
| plain_string s : plain_json (JString s)
| plain_array l : Forall plain_json l -> plain_json (JArray l)
| plain_object ms : Forall (fun m => plain_json m.2) ms -> plain_json (JObject ms).

Class SerdeJsonLaws `{SerdeJson} : Prop := {
  to_vec_total v : is_value v -> is_ok (to_vec v) = true;
  from_slice_to_vec v b : is_value v -> to_vec v = Ok b -> from_slice_value b = Ok v;
  to_string_to_vec v b : to_vec v = Ok b -> value_to_string v = of_bytes b;
  to_vec_pretty_total d : plain_json d -> is_ok (to_vec_pretty d) = true;
  from_document_to_vec_pretty d b :
    plain_json d -> to_vec_pretty d = Ok b -> from_document b = Ok d;
}.

(** ** subtle: [ConstantTimeEq] on byte slices *)

Class Subtle := { ct_eq : bytes -> bytes -> bool }.

Class SubtleLaws `{Subtle} : Prop := {
  ct_eq_spec a b : ct_eq a b = true <-> a = b;
}.

(** ** http: header values *)

Class Http := {
  (** [HeaderValue::to_str] *)
  header_to_str : bytes -> option string;
}.

(** A character [to_str] accepts: visible ASCII, the space or a tab. *)
Definition visible_ascii (b : byte) : bool :=
  let n := Z.of_N (Byte.to_N b) in ((32 <=? n) && (n <? 127)) || (n =? 9).

Class HttpLaws `{Http} : Prop := {
  header_to_str_spec b :
    header_to_str b = if forallb visible_ascii b then Some (of_bytes b) else None;
}.
