(* ===== verification/Rfc4648.v ===== *)
(** An executable base64 codec after RFC 4648, sections 4 and 5: the instance of
    the [Base64] interface the witnesses compute with. *)
From Stdlib Require Import Ascii.
From S2P Require Export Externals.

Definition b2z (b : byte) : Z := Z.of_N (Byte.to_N b).
Definition z2b (z : Z) : byte := default zero_byte (Byte.of_N (Z.to_N z)).

Lemma b2z_range b : 0 <= b2z b < 256.
Proof. unfold b2z. pose proof (Byte.to_N_bounded b). lia. Qed.

Lemma z2b_b2z b : z2b (b2z b) = b.
Proof. unfold z2b, b2z. by rewrite N2Z.id, Byte.of_to_N. Qed.

Lemma b2z_z2b z : 0 <= z < 256 -> b2z (z2b z) = z.
Proof.
  intros Hz. unfold z2b, b2z. destruct (Byte.of_N (Z.to_N z)) as [b|] eqn:Hb; cbn.
  - apply Byte.to_of_N in Hb. lia.
  - apply Byte.of_N_None_iff in Hb. lia.
Qed.

#[global] Opaque b2z z2b.

Ltac div_lia := Z.to_euclidean_division_equations; lia.

(** ** Sextets *)

(** The two alphabets differ in the last two digits. *)
Definition digits (last2 : string) : string :=
  "ABCDEFGHIJKLMNOPQRSTUVWXYZabcdefghijklmnopqrstuvwxyz0123456789" +:+ last2.

Section Codec.
Context (enc : Z -> Ascii.ascii) (dec : Ascii.ascii -> option Z).
Context (dec_enc : forall d, 0 <= d < 64 -> dec (enc d) = Some d).
Context (enc_dec : forall c d, dec c = Some d -> 0 <= d < 64 /\ enc d = c).

Fixpoint encode_groups (l : bytes) : list Ascii.ascii :=
  match l with
  | a :: b :: c :: l' =>
      let n := b2z a * 65536 + b2z b * 256 + b2z c in
      enc (n / 262144) :: enc (n / 4096 mod 64) :: enc (n / 64 mod 64) :: enc (n mod 64)
        :: encode_groups l'
  | [a; b] =>
      let n := b2z a * 1024 + b2z b * 4 in
      [enc (n / 4096); enc (n / 64 mod 64); enc (n mod 64)]
  | [a] => let n := b2z a * 16 in [enc (n / 64); enc (n mod 64)]
  | [] => []
  end.

Fixpoint decode_groups (l : list Ascii.ascii) : option bytes :=
  match l with
  | c1 :: c2 :: c3 :: c4 :: l' =>
      d1 ← dec c1; d2 ← dec c2; d3 ← dec c3; d4 ← dec c4;
      let n := d1 * 262144 + d2 * 4096 + d3 * 64 + d4 in
      r ← decode_groups l';
      Some (z2b (n / 65536) :: z2b (n / 256 mod 256) :: z2b (n mod 256) :: r)
  | [c1; c2; c3] =>
      d1 ← dec c1; d2 ← dec c2; d3 ← dec c3;
      let n := d1 * 4096 + d2 * 64 + d3 in
      if n mod 4 =? 0 then Some [z2b (n / 1024); z2b (n / 4 mod 256)] else None
  | [c1; c2] =>
      d1 ← dec c1; d2 ← dec c2;
      let n := d1 * 64 + d2 in
      if n mod 16 =? 0 then Some [z2b (n / 16)] else None
  | [] => Some []
  | _ => None
  end.

Lemma z2b_eq z b : z = b2z b -> z2b z = b.
Proof. intros ->. apply z2b_b2z. Qed.

Lemma decode_encode_groups l : decode_groups (encode_groups l) = Some l.
Proof.
  induction l as [l IH] using (well_founded_induction (Wf_nat.well_founded_ltof _ length)).
  unfold Wf_nat.ltof in IH.
  destruct l as [|a [|b [|c l]]]; [done|..]; cbn [encode_groups decode_groups].
  - pose proof (b2z_range a). rewrite !dec_enc by div_lia. cbn.
    case_match eqn:E; [|div_lia]. by rewrite (z2b_eq _ a) by div_lia.
  - pose proof (b2z_range a). pose proof (b2z_range b). rewrite !dec_enc by div_lia. cbn.
    case_match eqn:E; [|div_lia].
    by rewrite (z2b_eq _ a), (z2b_eq _ b) by div_lia.
  - pose proof (b2z_range a). pose proof (b2z_range b). pose proof (b2z_range c).
    rewrite !dec_enc by div_lia. cbn. rewrite IH by (cbn; lia). cbn.
    by rewrite (z2b_eq _ a), (z2b_eq _ b), (z2b_eq _ c) by div_lia.
Qed.

Lemma encode_decode_groups s l : decode_groups s = Some l -> encode_groups l = s.
Proof.
  revert l. induction s as [s IH]
    using (well_founded_induction (Wf_nat.well_founded_ltof _ length)).
  unfold Wf_nat.ltof in IH. intros l.
  destruct s as [|c1 [|c2 [|c3 [|c4 s]]]]; cbn [decode_groups]; intros Hl; simplify_option_eq;
    [done|..];
    repeat match goal with H : dec _ = Some _ |- _ => apply enc_dec in H as [? <-] end;
    repeat case_match; simplify_eq/=; cbn [encode_groups].
  - rewrite !b2z_z2b by div_lia. f_equal; [|f_equal]; f_equal; div_lia.
  - rewrite !b2z_z2b by div_lia. f_equal; [|f_equal; [|f_equal]]; f_equal; div_lia.
  - rewrite !b2z_z2b by div_lia. erewrite IH by (eauto; cbn; lia).
    f_equal; [|f_equal; [|f_equal; [|f_equal]]]; f_equal; div_lia.
Qed.

Lemma length_encode_groups l :
  Z.of_nat (length (encode_groups l)) = (8 * Z.of_nat (length l) + 5) / 6.
Proof.
  induction l as [l IH] using (well_founded_induction (Wf_nat.well_founded_ltof _ length)).
  unfold Wf_nat.ltof in IH.
  destruct l as [|a [|b [|c l]]]; [done..|]. cbn [encode_groups length].
  specialize (IH l ltac:(cbn; lia)). div_lia.
Qed.
End Codec.

(** ** The two engines *)

Definition enc_digit (alphabet : string) (d : Z) : Ascii.ascii :=
  default Ascii.zero (String.get (Z.to_nat d) alphabet).

Fixpoint index_of (c : Ascii.ascii) (s : string) : option Z :=
  match s with
  | EmptyString => None
  | String c' s' =>
      if Ascii.eqb c c' then Some 0 else option_map (Z.add 1) (index_of c s')
  end.

Definition URL_SAFE : string := digits "-_".
Definition STANDARD : string := digits "+/".

Lemma forall_below (P : Z -> bool) (n : nat) :
  forallb P (Z.of_nat <$> seq 0 n) = true -> forall d, 0 <= d < Z.of_nat n -> P d = true.
Proof.
  intros Hf d Hd. rewrite forallb_forall in Hf. apply Hf.
  apply in_map_iff. exists (Z.to_nat d). split; [lia|]. apply in_seq. lia.
Qed.

Lemma index_of_spec c s d :
  index_of c s = Some d -> 0 <= d < Z.of_nat (String.length s) /\ enc_digit s d = c.
Proof.
  revert d. induction s as [|c' s IH]; intros d; cbn; [done|].
  destruct (Ascii.eqb_spec c c') as [->|Hne].
  - intros [= <-]. split; [lia|done].
  - destruct (index_of c s) as [e|]; cbn; [|done]. intros [= <-].
    destruct (IH e eq_refl) as [? <-]. split; [lia|].
    unfold enc_digit. by replace (Z.to_nat (1 + e)) with (S (Z.to_nat e)) by lia.
Qed.

Lemma dec_enc_digit s :
  forallb (fun d => bool_decide (index_of (enc_digit s d) s = Some d)) (Z.of_nat <$> seq 0 64)
    = true ->
  forall d, 0 <= d < 64 -> index_of (enc_digit s d) s = Some d.
Proof.
  intros Hs d Hd. pose proof (forall_below _ 64 Hs d Hd) as H.
  by apply bool_decide_eq_true in H.
Qed.

Lemma url_dec_enc d : 0 <= d < 64 -> index_of (enc_digit URL_SAFE d) URL_SAFE = Some d.
Proof. apply dec_enc_digit. by vm_compute. Qed.

Lemma std_dec_enc d : 0 <= d < 64 -> index_of (enc_digit STANDARD d) STANDARD = Some d.
Proof. apply dec_enc_digit. by vm_compute. Qed.

Definition encode_with (alphabet : string) (b : bytes) : list Ascii.ascii :=
  encode_groups (enc_digit alphabet) b.

Definition decode_with (alphabet : string) (l : list Ascii.ascii) : option bytes :=
  decode_groups (fun c => index_of c alphabet) l.

Definition pad : Ascii.ascii := "="%char.

Definition padding (n : nat) : list Ascii.ascii :=
  replicate ((4 - n mod 4) mod 4) pad.

Fixpoint unpad (l : list Ascii.ascii) : list Ascii.ascii :=
  match l with
  | [] => []
  | c :: l' => if Ascii.eqb c pad then [] else c :: unpad l'
  end.

(** The padded decoder: the text without its padding must decode, and the
    padding must be the one of that length. *)
Definition decode_padded (alphabet : string) (l : list Ascii.ascii) : option bytes :=
  let body := unpad l in
  if decide (l = body ++ padding (length body)) then decode_with alphabet body else None.

Lemma unpad_app l k :
  Forall (fun c => Ascii.eqb c pad = false) l -> unpad (l ++ replicate k pad) = l.
Proof.
  induction 1 as [|c l Hc Hl IH]; cbn; [by destruct k|]. by rewrite Hc, IH.
Qed.

Lemma std_digit_not_pad d : 0 <= d < 64 -> Ascii.eqb (enc_digit STANDARD d) pad = false.
Proof.
  intros Hd. apply negb_true_iff.
  apply (forall_below (fun d => negb (Ascii.eqb (enc_digit STANDARD d) pad)) 64);
    [by vm_compute|done].
Qed.

Lemma encode_std_no_pad l :
  Forall (fun c => Ascii.eqb c pad = false) (encode_with STANDARD l).
Proof.
  unfold encode_with.
  induction l as [l IH] using (well_founded_induction (Wf_nat.well_founded_ltof _ length)).
  unfold Wf_nat.ltof in IH. destruct l as [|a [|b [|c l]]]; cbn [encode_groups].
  - constructor.
  - pose proof (b2z_range a). repeat constructor; apply std_digit_not_pad; div_lia.
  - pose proof (b2z_range a). pose proof (b2z_range b).
    repeat constructor; apply std_digit_not_pad; div_lia.
  - pose proof (b2z_range a). pose proof (b2z_range b). pose proof (b2z_range c).
    repeat (constructor; [apply std_digit_not_pad; div_lia|]). apply IH. cbn. lia.
Qed.

#[global] Instance rfc4648 : Base64 := {|
  url_safe_no_pad_encode b := String.string_of_list_ascii (encode_with URL_SAFE b);
  url_safe_no_pad_decode s := decode_with URL_SAFE (String.list_ascii_of_string s);
  standard_encode b :=
    let l := encode_with STANDARD b in String.string_of_list_ascii (l ++ padding (length l));
  standard_decode s := decode_padded STANDARD (String.list_ascii_of_string s);
|}.

Lemma length_string_of_list_ascii l :
  String.length (String.string_of_list_ascii l) = length l.
Proof. induction l; cbn; congruence. Qed.

#[global] Instance rfc4648_laws : Base64Laws.
Proof.
  split; cbn.
  - intros b. rewrite String.list_ascii_of_string_of_list_ascii.
    apply decode_encode_groups, url_dec_enc.
  - intros s b Hb.
    unfold encode_with. erewrite encode_decode_groups; [|..|exact Hb].
    + apply String.string_of_list_ascii_of_string.
    + intros c d Hd. by apply (index_of_spec c URL_SAFE).
  - intros b. rewrite length_string_of_list_ascii. apply length_encode_groups.
  - intros b. rewrite String.list_ascii_of_string_of_list_ascii.
    unfold decode_padded. set (l := encode_with STANDARD b).
    unfold padding at 1 2. rewrite unpad_app by apply encode_std_no_pad.
    rewrite decide_True by done. apply decode_encode_groups, std_dec_enc.
Qed.

Example base64_hello : standard_encode (as_bytes "hello") = "aGVsbG8=".
Proof. by vm_compute. Qed.
