(* ===== verification/JsonText.v ===== *)
(** An executable JSON printer and parser after RFC 8259 (compact form, ASCII
    escapes): the instance of the [SerdeJson] interface the witnesses compute
    with. *)
From Stdlib Require Import Ascii.
From S2P Require Export Externals.

Local Open Scope char_scope.
Local Abbreviation chars := (list ascii).

Definition quote : ascii := "034".
Definition backslash : ascii := "092".

(** ** Printing *)

Definition hex_digit (n : nat) : ascii :=
  default "0" (String.get n "0123456789abcdef").

Definition hex_value (c : ascii) : option nat :=
  String.index 0 (String c EmptyString) "0123456789abcdef".

Definition escape_char (c : ascii) : chars :=
  if Ascii.eqb c quote then [backslash; quote]
  else if Ascii.eqb c backslash then [backslash; backslash]
  else
    let n := nat_of_ascii c in
    if (n <? 32)%nat
    then [backslash; "u"; "0"; "0"; hex_digit (n / 16); hex_digit (n mod 16)]
    else [c].

Definition print_string (s : string) : chars :=
  quote :: concat (escape_char <$> String.list_ascii_of_string s) ++ [quote].

Definition join (l : list chars) : chars :=
  match l with
  | [] => []
  | x :: l' => x ++ concat ((fun y => "," :: y) <$> l')
  end.

Fixpoint print (v : json) : chars :=
  match v with
  | JNull => ["n"; "u"; "l"; "l"]
  | JBool true => ["t"; "r"; "u"; "e"]
  | JBool false => ["f"; "a"; "l"; "s"; "e"]
  | JNumber lit => String.list_ascii_of_string lit
  | JString s => print_string s
  | JArray l => "[" :: join (print <$> l) ++ ["]"]
  | JObject ms =>
      "{" :: join ((fun m => print_string m.1 ++ ":" :: print m.2) <$> ms) ++ ["}"]
  end.

(** ** Parsing *)

Fixpoint parse_string (l : chars) : option (chars * chars) :=
  match l with
  | [] => None
  | c :: r =>
      if Ascii.eqb c quote then Some ([], r)
      else if Ascii.eqb c backslash then
        match r with
        | "u" :: "0" :: "0" :: h1 :: h2 :: r' =>
            n1 ← hex_value h1; n2 ← hex_value h2;
            '(s, rest) ← parse_string r';
            Some (ascii_of_nat (n1 * 16 + n2) :: s, rest)
        | e :: r' =>
            if Ascii.eqb e quote || Ascii.eqb e backslash
            then '(s, rest) ← parse_string r'; Some (e :: s, rest)
            else None
        | [] => None
        end
      else '(s, rest) ← parse_string r; Some (c :: s, rest)
  end.

Definition is_num_char (c : ascii) : bool :=
  match String.index 0 (String c EmptyString) "0123456789+-.eE" with
  | Some _ => true | None => false
  end.

Fixpoint span (P : ascii -> bool) (l : chars) : chars * chars :=
  match l with
  | c :: r => if P c then let (a, b) := span P r in (c :: a, b) else ([], l)
  | [] => ([], [])
  end.

Fixpoint parse_value (fuel : nat) (l : chars) {struct fuel} : option (json * chars) :=
  match fuel with
  | O => None
  | S f =>
      match l with
      | "n" :: "u" :: "l" :: "l" :: r => Some (JNull, r)
      | "t" :: "r" :: "u" :: "e" :: r => Some (JBool true, r)
      | "f" :: "a" :: "l" :: "s" :: "e" :: r => Some (JBool false, r)
      | "[" :: "]" :: r => Some (JArray [], r)
      | "[" :: r => '(vs, r) ← parse_elems f r; Some (JArray vs, r)
      | "{" :: "}" :: r => Some (JObject [], r)
      | "{" :: r => '(ms, r) ← parse_members f r; Some (JObject ms, r)
      | "034" :: r => '(s, r) ← parse_string r; Some (JString (String.string_of_list_ascii s), r)
      | _ =>
          match span is_num_char l with
          | ([], _) => None
          | (n, r) => Some (JNumber (String.string_of_list_ascii n), r)
          end
      end
  end
with parse_elems (fuel : nat) (l : chars) {struct fuel} : option (list json * chars) :=
  match fuel with
  | O => None
  | S f =>
      '(v, r) ← parse_value f l;
      match r with
      | "]" :: r => Some ([v], r)
      | "," :: r => '(vs, r) ← parse_elems f r; Some (v :: vs, r)
      | _ => None
      end
  end
with parse_members (fuel : nat) (l : chars) {struct fuel} :
    option (list (string * json) * chars) :=
  match fuel with
  | O => None
  | S f =>
      match l with
      | "034" :: r =>
          '(k, r) ← parse_string r;
          match r with
          | ":" :: r =>
              '(v, r) ← parse_value f r;
              let k := String.string_of_list_ascii k in
              match r with
              | "}" :: r => Some ([(k, v)], r)
              | "," :: r => '(ms, r) ← parse_members f r; Some ((k, v) :: ms, r)
              | _ => None
              end
          | _ => None
          end
      | _ => None
      end
  end.

Definition parse (l : chars) : option json :=
  match parse_value (2 * length l) l with
  | Some (v, []) => Some v
  | _ => None
  end.

(** ** Round trip *)

(** The documents the printer can write: a number literal is one. *)
#[warnings="-register-all"]
Inductive printable : json -> Prop :=
| pr_null : printable JNull
| pr_bool b : printable (JBool b)
| pr_number lit :
    lit <> EmptyString -> forallb is_num_char (String.list_ascii_of_string lit) = true ->
    printable (JNumber lit)
| pr_string s : printable (JString s)
| pr_array l : Forall printable l -> printable (JArray l)
| pr_object ms : Forall (fun m => printable m.2) ms -> printable (JObject ms).

Lemma parse_escape c r :
  parse_string (escape_char c ++ r) =
  ('(s, rest) ← parse_string r; Some (c :: s, rest)).
Proof. by destruct c as [[] [] [] [] [] [] [] []]. Qed.

Lemma parse_print_string s r :
  parse_string (concat (escape_char <$> s) ++ quote :: r) = Some (s, r).
Proof.
  induction s as [|c s IH]; [done|]. cbn [fmap list_fmap concat].
  by rewrite <- (assoc_L (++)), parse_escape, IH.
Qed.

Fixpoint jsize (v : json) : nat :=
  match v with
  | JArray l => S (sum_list_with (fun v => S (jsize v)) l)
  | JObject ms => S (sum_list_with (fun m => S (jsize m.2)) ms)
  | _ => 1
  end.

(** What may follow a value: nothing that could extend a number. *)
Definition safe (r : chars) : Prop :=
  match r with [] => True | c :: _ => is_num_char c = false end.

#[global] Arguments join : simpl never.
#[global] Arguments print_string : simpl never.

Lemma join_one x : join [x] = x.
Proof. apply app_nil_r. Qed.

Lemma join_cons x y l : join (x :: y :: l) = x ++ "," :: join (y :: l).
Proof. done. Qed.

Lemma span_app l r :
  forallb is_num_char l = true -> safe r -> span is_num_char (l ++ r) = (l, r).
Proof.
  intros Hl Hr. induction l as [|c l IH]; cbn in *.
  - destruct r as [|c r]; [done|]. cbn in *. by rewrite Hr.
  - apply andb_true_iff in Hl as [-> Hl]. by rewrite IH.
Qed.

(** A number does not start like any other value, nor like a closing bracket. *)
Lemma parse_number f c l r :
  forallb is_num_char (c :: l) = true -> safe r ->
  parse_value (S f) ((c :: l) ++ r) =
    Some (JNumber (String.string_of_list_ascii (c :: l)), r).
Proof.
  intros Hn Hr. pose proof (span_app (c :: l) r Hn Hr) as Hs. cbn in Hn.
  apply andb_true_iff in Hn as [Hc _].
  destruct c as [[] [] [] [] [] [] [] []]; try discriminate Hc;
    cbn [app parse_value]; cbn [app] in Hs; by rewrite Hs.
Qed.

Lemma print_head v : printable v -> exists c t, print v = c :: t /\ c <> "]".
Proof.
  destruct 1 as [|[]|lit Hne Hn|s|l|ms]; cbn; eauto.
  destruct lit as [|c lit]; [done|]. cbn in *. exists c. eexists. split; [done|].
  apply andb_true_iff in Hn as [Hn _]. by intros ->.
Qed.

Lemma parse_open_bracket f c t :
  c <> "]" ->
  parse_value (S f) ("[" :: c :: t) =
    ('(vs, r) ← parse_elems f (c :: t); Some (JArray vs, r)).
Proof. intros Hc. by destruct c as [[] [] [] [] [] [] [] []]. Qed.

Section RoundTrip.
Definition value_ok f := forall v r,
  printable v -> (jsize v <= f)%nat -> safe r -> parse_value f (print v ++ r) = Some (v, r).
Definition elems_ok f := forall v l r,
  Forall printable (v :: l) -> (sum_list_with (fun v => S (jsize v)) (v :: l) <= f)%nat ->
  parse_elems f (join (print <$> v :: l) ++ "]" :: r) = Some (v :: l, r).
Definition members_ok f := forall m ms r,
  Forall (fun m => printable m.2) (m :: ms) ->
  (sum_list_with (fun m => S (jsize m.2)) (m :: ms) <= f)%nat ->
  parse_members f (join ((fun m => print_string m.1 ++ ":" :: print m.2) <$> m :: ms)
                   ++ "}" :: r) = Some (m :: ms, r).

Lemma elems_step f : value_ok f -> elems_ok f -> elems_ok (S f).
Proof.
  intros Hv He v l r Hl Hs. apply Forall_cons in Hl as [Hpv Hl]. cbn in Hs.
  destruct l as [|v' l].
  - cbn [fmap list_fmap]. rewrite join_one. cbn [parse_elems].
    by rewrite Hv by (done || lia).
  - rewrite !fmap_cons, join_cons, <- (assoc_L (++)). cbn [parse_elems app].
    rewrite Hv by (done || lia). cbn.
    specialize (He v' l r Hl ltac:(cbn in *; lia)). rewrite fmap_cons in He. by rewrite He.
Qed.

Lemma members_step f : value_ok f -> members_ok f -> members_ok (S f).
Proof.
  intros Hv He [k v] ms r Hl Hs. apply Forall_cons in Hl as [Hpv Hl]. cbn in Hs, Hpv.
  assert (Hk : forall t, parse_string (concat (escape_char <$> String.list_ascii_of_string k)
    ++ quote :: t) = Some (String.list_ascii_of_string k, t)) by (intros; apply parse_print_string).
  destruct ms as [|m' ms].
  - cbn [fmap list_fmap fst snd]. rewrite join_one. unfold print_string.
    cbn [app parse_members quote]. rewrite <- !(assoc_L (++)). cbn [app].
    rewrite Hk. cbn. rewrite Hv by (done || lia). cbn.
    by rewrite String.string_of_list_ascii_of_string.
  - rewrite !fmap_cons, join_cons. cbn [fst snd]. unfold print_string at 1.
    cbn [app parse_members quote]. rewrite <- !(assoc_L (++)). cbn [app].
    rewrite Hk. cbn. rewrite Hv by (done || lia). cbn.
    specialize (He m' ms r Hl ltac:(cbn in *; lia)). rewrite fmap_cons in He.
    rewrite He. cbn.
    by rewrite String.string_of_list_ascii_of_string.
Qed.

Lemma value_step f : elems_ok f -> members_ok f -> value_ok (S f).
Proof.
  intros He Hm v r Hp Hs Hr. destruct Hp as [|[]|lit Hne Hn|s|l Hl|ms Hms]; try done.
  - cbn [print]. destruct lit as [|c lit]; [done|]. cbn [String.list_ascii_of_string] in *.
    rewrite parse_number by done. cbn.
    by rewrite String.string_of_list_ascii_of_string.
  - cbn [print]. unfold print_string. cbn [app]. rewrite <- (assoc_L (++)).
    cbn [app parse_value quote]. rewrite parse_print_string. cbn.
    by rewrite String.string_of_list_ascii_of_string.
  - cbn [print app]. rewrite <- (assoc_L (++)). cbn [app].
    destruct l as [|v l]; [done|]. specialize (He v l r Hl ltac:(cbn in *; lia)).
    destruct (print_head v) as (c & t & Hc & Hne); [by inv Hl|].
    assert (exists t', join (print <$> v :: l) ++ "]" :: r = c :: t') as [t' Ht].
    { destruct l; cbn [fmap list_fmap]; rewrite ?join_one, ?join_cons, Hc; cbn; eauto. }
    rewrite Ht in *. rewrite parse_open_bracket by done. by rewrite He.
  - cbn [print app]. rewrite <- (assoc_L (++)). cbn [app].
    destruct ms as [|m ms]; [done|]. specialize (Hm m ms r Hms ltac:(cbn in *; lia)).
    assert (exists t', join ((fun m => print_string m.1 ++ ":" :: print m.2) <$> m :: ms)
      ++ "}" :: r = quote :: t') as [t' Ht].
    { destruct ms; cbn [fmap list_fmap]; rewrite ?join_one, ?join_cons;
        unfold print_string; cbn; eauto. }
    rewrite Ht in *. change (parse_value (S f) ("{" :: quote :: t')) with
      ('(ms, r) ← parse_members f (quote :: t'); Some (JObject ms, r)). by rewrite Hm.
Qed.

Lemma parse_print_all f : value_ok f /\ elems_ok f /\ members_ok f.
Proof.
  induction f as [|f (Hv & He & Hm)].
  - split; [|split].
    + intros v r Hp Hs. destruct v; cbn in Hs; lia.
    + intros v l r Hp Hs. cbn in Hs. lia.
    + intros m ms r Hp Hs. cbn in Hs. lia.
  - auto using value_step, elems_step, members_step.
Qed.
End RoundTrip.

(** The fuel of [parse]: twice the length of the text. *)
Lemma jsize_bound n v :
  (jsize v <= n)%nat -> printable v -> (S (jsize v) <= 2 * length (print v))%nat.
Proof.
  revert v. induction n as [|n IH]; intros v Hn Hp; [destruct v; cbn in Hn; lia|].
  destruct Hp as [|[]|lit Hne Hl|s|l Hl|ms Hms]; cbn [print jsize] in *.
  - cbn. lia.
  - cbn. lia.
  - cbn. lia.
  - destruct lit; [done|]. cbn. lia.
  - unfold print_string. cbn. rewrite length_app. cbn. lia.
  - cbn [length]. rewrite length_app. cbn [length].
    enough (sum_list_with (fun v => S (jsize v)) l <= 2 * length (join (print <$> l)))%nat by lia.
    induction l as [|v l IHl]; [cbn; lia|]. apply Forall_cons in Hl as [Hv Hl].
    cbn [sum_list_with] in *. specialize (IH v ltac:(lia) Hv).
    specialize (IHl ltac:(lia) Hl).
    destruct l; cbn [fmap list_fmap] in *; rewrite ?join_one, ?join_cons, ?length_app;
      cbn [length sum_list_with] in *; lia.
  - cbn [length]. rewrite length_app. cbn [length].
    set (pm := fun m : string * json => print_string m.1 ++ ":" :: print m.2).
    enough (sum_list_with (fun m : string * json => S (jsize m.2)) ms <=
            2 * length (join (pm <$> ms)))%nat by lia.
    induction ms as [|m ms IHl]; [cbn; lia|]. apply Forall_cons in Hms as [Hv Hl].
    cbn [sum_list_with] in *. specialize (IH m.2 ltac:(lia) Hv).
    specialize (IHl ltac:(lia) Hl).
    assert (S (jsize m.2) <= 2 * length (pm m))%nat
      by (unfold pm; rewrite length_app; cbn [length]; lia).
    destruct ms; cbn [fmap list_fmap] in *; rewrite ?join_one, ?join_cons, ?length_app;
      cbn [length sum_list_with] in *; lia.
Qed.

Lemma parse_print v : printable v -> parse (print v) = Some v.
Proof.
  intros Hp. unfold parse. rewrite <- (app_nil_r (print v)) at 2.
  pose proof (jsize_bound _ v (le_n _) Hp).
  by rewrite (proj1 (parse_print_all _) v []) by (done || lia).
Qed.

Lemma plain_printable n v : (jsize v <= n)%nat -> plain_json v -> printable v.
Proof.
  revert v. induction n as [|n IH]; intros v Hn Hp; [destruct v; cbn in Hn; lia|].
  destruct Hp as [| | |l Hl|ms Hms]; constructor; cbn [jsize] in Hn.
  - induction Hl as [|v l Hv Hl IHl]; constructor; cbn in *; [apply IH|apply IHl]; auto; lia.
  - induction Hms as [|m ms Hv Hl IHl]; constructor; cbn in *; [apply IH|apply IHl]; auto; lia.
Qed.

(** ** The instance *)

Definition json_bytes (v : json) : bytes := byte_of_ascii <$> print v.

Definition json_of_bytes (b : bytes) : result json string :=
  ok_or (parse (ascii_of_byte <$> b)) "expected value"%string.

Lemma json_of_json_bytes v : printable v -> json_of_bytes (json_bytes v) = Ok v.
Proof.
  intros Hv. unfold json_of_bytes, json_bytes. rewrite <- list_fmap_compose.
  assert (Hid : forall l : chars, (ascii_of_byte ∘ byte_of_ascii) <$> l = l :> chars).
  { intros l. induction l as [|c l IH]; cbn; [done|].
    by rewrite IH, ascii_of_byte_of_ascii. }
  by rewrite Hid, parse_print.
Qed.

#[global] Instance json_text : SerdeJson := {|
  to_vec v := Ok (json_bytes v);
  to_vec_pretty v := Ok (json_bytes v);
  value_to_string v := of_bytes (json_bytes v);
  from_document := json_of_bytes;
  from_slice_value := json_of_bytes;
  is_value := printable;
|}.

#[global] Instance json_text_laws : SerdeJsonLaws.
Proof.
  split; cbn; try done.
  - intros v b Hv [= <-]. by apply json_of_json_bytes.
  - by intros v b [= <-].
  - intros v b Hv [= <-]. eapply json_of_json_bytes, plain_printable; eauto.
Qed.
