(* ===== verification/Models.v ===== *)
(** One executable instance of every interface of Externals.v, with its laws:
    the hypotheses of the development can hold together, and the witnesses can
    be computed.  base64 and JSON are the real formats (Rfc4648.v, JsonText.v),
    the hexadecimal forms of a UUID too; the cipher and the date texts are
    stand-ins with the same laws. *)
From Stdlib Require Import Ascii.
From S2P Require Export Rfc4648 JsonText.

(** ** Hexadecimal UUIDs *)

Definition hex_hi (b : byte) : ascii := hex_digit (nat_of_ascii (ascii_of_byte b) / 16).
Definition hex_lo (b : byte) : ascii := hex_digit (nat_of_ascii (ascii_of_byte b) mod 16).

#[global] Arguments hex_hi : simpl never.
#[global] Arguments hex_lo : simpl never.

Definition of_hex (c d : ascii) : option byte :=
  m ← hex_value c; n ← hex_value d; Some (byte_of_ascii (ascii_of_nat (m * 16 + n))).

Lemma of_to_hex b : of_hex (hex_hi b) (hex_lo b) = Some b.
Proof. by destruct b. Qed.

Fixpoint hex (l : bytes) : list ascii :=
  match l with [] => [] | b :: l' => hex_hi b :: hex_lo b :: hex l' end.

Lemma length_hex l : length (hex l) = (2 * length l)%nat.
Proof. induction l; cbn in *; lia. Qed.

#[global] Instance hex_inj : Inj (=) (=) hex.
Proof.
  intros l. induction l as [|a l IH]; intros [|b k]; try done; cbn.
  intros [= H1 H2 H3]. f_equal; [|by apply IH].
  pose proof (of_to_hex a) as Ha. pose proof (of_to_hex b) as Hb. congruence.
Qed.

Definition hyphens (l : bytes) : list ascii :=
  hex (take 4 l) ++ "-"%char :: hex (take 2 (drop 4 l)) ++ "-"%char ::
  hex (take 2 (drop 6 l)) ++ "-"%char :: hex (take 2 (drop 8 l)) ++ "-"%char ::
  hex (drop 10 l).

#[global] Instance hex_uuid : UuidFmt := {|
  uuid_simple u := String.string_of_list_ascii (hex (vec_to_list u));
  uuid_hyphenated u := String.string_of_list_ascii (hyphens (vec_to_list u));
|}.

#[global] Instance string_of_list_ascii_inj : Inj (=) (=) String.string_of_list_ascii.
Proof.
  intros l k H. rewrite <- (String.list_ascii_of_string_of_list_ascii l), H.
  apply String.list_ascii_of_string_of_list_ascii.
Qed.

Lemma hyphens_inj l k : length l = 16%nat -> length k = 16%nat -> hyphens l = hyphens k -> l = k.
Proof.
  intros Hl Hk H. unfold hyphens in H.
  repeat (apply app_inj_1 in H as [?%(inj hex) [= H]];
          [|by rewrite !length_hex, !length_take, ?length_drop, ?Hl, ?Hk]).
  apply (inj hex) in H.
  rewrite <- (take_drop 4 l), <- (take_drop 4 k). f_equal; [done|].
  rewrite <- (take_drop 2 (drop 4 l)), <- (take_drop 2 (drop 4 k)). f_equal; [done|].
  rewrite !drop_drop. rewrite <- (take_drop 2 (drop _ l)), <- (take_drop 2 (drop _ k)).
  f_equal; [done|]. rewrite !drop_drop.
  rewrite <- (take_drop 2 (drop _ l)), <- (take_drop 2 (drop _ k)). f_equal; [done|].
  by rewrite !drop_drop.
Qed.

#[global] Instance hex_uuid_laws : UuidFmtLaws.
Proof.
  split; intros u v H; cbn in H; apply (inj String.string_of_list_ascii) in H.
  - apply hyphens_inj in H; [|apply length_vec_to_list..]. by apply vec_to_list_inj2.
  - apply (inj hex) in H. by apply vec_to_list_inj2.
Qed.

(** ** A stand-in cipher: a mask by the key and a checksum *)

Definition mask (key : bytes) (p : bytes) : bytes :=
  imap (fun i b => z2b ((b2z b + b2z (nth (i mod 32) key zero_byte)) mod 256)) p.

Definition unmask (key : bytes) (c : bytes) : bytes :=
  imap (fun i b => z2b ((b2z b - b2z (nth (i mod 32) key zero_byte)) mod 256)) c.

Definition checksum (l : bytes) : byte :=
  z2b (foldr (fun b acc => (b2z b + 3 * acc) mod 256) 7 l).

Lemma unmask_mask key p : unmask key (mask key p) = p.
Proof.
  unfold unmask, mask. apply list_eq. intros i. rewrite !list_lookup_imap.
  destruct (p !! i) as [b|]; [|done]. cbn. f_equal.
  set (k := nth _ key zero_byte). pose proof (b2z_range b). pose proof (b2z_range k).
  rewrite b2z_z2b by (apply Z.mod_pos_bound; lia).
  rewrite <- (z2b_b2z b) at 2. f_equal. div_lia.
Qed.

Definition toy_encrypt (k : array 32) (n : array 12) (p : bytes) : option bytes :=
  Some (checksum (vec_to_list k ++ vec_to_list n ++ p) :: mask (vec_to_list k) p).

Definition toy_decrypt (k : array 32) (n : array 12) (c : bytes) : option bytes :=
  match c with
  | t :: body =>
      let p := unmask (vec_to_list k) body in
      if decide (toy_encrypt k n p = Some c) then Some p else None
  | [] => None
  end.

#[global] Instance toy_cipher : AesGcm := {|
  aead_encrypt := toy_encrypt;
  aead_decrypt := toy_decrypt;
  aead_p_max := 2 ^ 36;
|}.

#[global] Instance toy_cipher_laws : AesGcmLaws.
Proof.
  split; [done|]. intros k n c p; cbn. unfold toy_decrypt. split.
  - destruct c as [|t body]; [done|]. case_decide; [|done]. congruence.
  - intros Hc. unfold toy_encrypt in *. simplify_eq. rewrite unmask_mask.
    by rewrite decide_True.
Qed.

(** ** Stand-in date texts: fixed-width decimal counts of nanoseconds

    An instant past the year 9999 starts with a plus sign, as chrono writes
    it. *)
Fixpoint decimal (w : nat) (z : Z) : string :=
  match w with
  | O => EmptyString
  | S w' => String (ascii_of_N (48 + Z.to_N (z / 10 ^ Z.of_nat w' mod 10)))
                   (decimal w' z)
  end.

Fixpoint undecimal (s : string) (acc : Z) : option Z :=
  match s with
  | EmptyString => Some acc
  | String c s' =>
      let d := Z.of_N (N_of_ascii c) - 48 in
      if (0 <=? d) && (d <=? 9) then undecimal s' (acc * 10 + d) else None
  end.

Lemma decimal_digit z w :
  let d := z / 10 ^ Z.of_nat w mod 10 in
  0 <= d < 10 /\ N_of_ascii (ascii_of_N (48 + Z.to_N d)) = (48 + Z.to_N d)%N.
Proof.
  cbn zeta. pose proof (Z.mod_pos_bound (z / 10 ^ Z.of_nat w) 10). split; [lia|].
  apply N_ascii_embedding. lia.
Qed.

Lemma pow10_S w : 10 ^ Z.of_nat (S w) = 10 * 10 ^ Z.of_nat w.
Proof. rewrite Nat2Z.inj_succ, Z.pow_succ_r; lia. Qed.

Lemma mod_pow10 z w :
  z mod 10 ^ Z.of_nat (S w) = z / 10 ^ Z.of_nat w mod 10 * 10 ^ Z.of_nat w + z mod 10 ^ Z.of_nat w.
Proof.
  pose proof (Z.pow_pos_nonneg 10 (Z.of_nat w)). rewrite pow10_S, Z.mul_comm.
  rewrite Z.rem_mul_r by lia. lia.
Qed.

Lemma undecimal_decimal w z acc :
  undecimal (decimal w z) acc = Some (acc * 10 ^ Z.of_nat w + z mod 10 ^ Z.of_nat w).
Proof.
  revert acc. induction w as [|w IH]; intros acc; [cbn; f_equal; rewrite Z.mod_1_r; lia|].
  cbn [decimal undecimal]. destruct (decimal_digit z w) as [Hd ->].
  set (d := z / _ mod 10) in *. replace (Z.of_N (48 + Z.to_N d) - 48) with d by lia.
  destruct (Z.leb_spec 0 d), (Z.leb_spec d 9); cbn; try lia.
  rewrite IH, mod_pow10. f_equal. rewrite pow10_S. unfold d. lia.
Qed.

Lemma decimal_compare w a b :
  String.compare (decimal w a) (decimal w b) =
  Z.compare (a mod 10 ^ Z.of_nat w) (b mod 10 ^ Z.of_nat w).
Proof.
  induction w as [|w IH]; [by rewrite !Z.mod_1_r|].
  cbn [decimal String.compare]. unfold Ascii.compare.
  destruct (decimal_digit a w) as [Ha ->], (decimal_digit b w) as [Hb ->].
  rewrite !mod_pow10, IH. pose proof (Z.pow_pos_nonneg 10 (Z.of_nat w)).
  pose proof (Z.mod_pos_bound a (10 ^ Z.of_nat w)). pose proof (Z.mod_pos_bound b (10 ^ Z.of_nat w)).
  set (P := 10 ^ Z.of_nat w) in *. set (x := a / P mod 10) in *. set (y := b / P mod 10) in *.
  destruct (N.compare_spec (48 + Z.to_N x) (48 + Z.to_N y)) as [He|Hl|Hg]; symmetry.
  - replace y with x by lia. destruct (Z.compare_spec (a mod P) (b mod P));
      [apply Z.compare_eq_iff|apply Z.compare_lt_iff|apply Z.compare_gt_iff]; lia.
  - apply Z.compare_lt_iff. nia.
  - apply Z.compare_gt_iff. nia.
Qed.

#[global] Arguments decimal : simpl never.
#[global] Arguments undecimal : simpl never.

Definition chrono_max : Z := 8210266876799 * nanos_per_sec + 999999999.
Definition chrono_min : Z := -8334601228800 * nanos_per_sec.

#[global] Instance decimal_chrono : Chrono := {|
  datetime_min := chrono_min;
  datetime_max := chrono_max;
  duration_seconds s :=
    if (- (i64_max / 1000) <=? s) && (s <=? i64_max / 1000)
    then Some (s * nanos_per_sec) else None;
  datetime_add t d :=
    if (chrono_min <=? t + d) && (t + d <=? chrono_max) then Some (t + d) else None;
  to_rfc3339 t :=
    if t <=? rfc3339_max then decimal 21 (t - rfc3339_min)
    else String "+" (decimal 23 (t - rfc3339_min));
  parse_from_rfc3339 s :=
    match undecimal s 0 with
    | Some n => Ok (n + rfc3339_min)
    | None => Err "premature end of input"%string
    end;
  datetime_to_serde t := decimal 23 (t - chrono_min);
  datetime_of_serde s := option_map (Z.add chrono_min) (undecimal s 0);
|}.

#[global] Instance decimal_chrono_laws : ChronoLaws.
Proof.
  split; cbn; try done.
  - intros t [? ?]. rewrite (proj2 (Z.leb_le _ _)) by done. rewrite undecimal_decimal.
    rewrite Z.mod_small; [f_equal; lia|]. unfold rfc3339_min, rfc3339_max, nanos_per_sec in *. lia.
  - intros t u [? ?] [? ?]. rewrite !(proj2 (Z.leb_le _ _)) by done.
    unfold text_le, String.leb. rewrite decimal_compare, !Z.mod_small
      by (unfold rfc3339_min, rfc3339_max, nanos_per_sec in *; lia).
    rewrite Z.leb_compare.
    assert ((t - rfc3339_min ?= u - rfc3339_min) = (t ?= u)) as ->; [|done].
    destruct (Z.compare_spec t u);
      [apply Z.compare_eq_iff|apply Z.compare_lt_iff|apply Z.compare_gt_iff]; lia.
  - intros t [? ?]. rewrite undecimal_decimal. cbn. f_equal. rewrite Z.mod_small; [lia|].
    unfold chrono_min, chrono_max, nanos_per_sec in *. lia.
Qed.

#[global] Instance list_subtle : Subtle := {| ct_eq a b := bool_decide (a = b) |}.

#[global] Instance list_subtle_laws : SubtleLaws.
Proof. split. intros a b. apply bool_decide_eq_true. Qed.

#[global] Instance ascii_http : Http := {|
  header_to_str b := if forallb visible_ascii b then Some (of_bytes b) else None
|}.

#[global] Instance ascii_http_laws : HttpLaws.
Proof. by split. Qed.
