(* ===== verification/Errors.v ===== *)
(** src/error.rs: the error types, their messages and their JSON-RPC codes. *)
From S2P Require Export Prelude.

(** [StorageError]; the wrapped [std::io::Error] and [serde_json::Error] are
    their messages. *)
Inductive StorageError : Type :=
| Io (msg : string)
| Json (msg : string)
| NotFound.

#[global] Instance StorageError_eq_dec : EqDecision StorageError.
Proof. solve_decision. Defined.

Inductive VaultError : Type :=
| ProofNotFound
| ProofExpired
| DecryptionFailed
| InvalidClaimId
| InvalidParameter (msg : string)
| Storage (e : StorageError)
| Serialization (msg : string).

#[global] Instance VaultError_eq_dec : EqDecision VaultError.
Proof. solve_decision. Defined.

(** The [Display] texts of the [#[error("...")]] attributes. *)
Definition storage_error_display (e : StorageError) : string :=
  match e with
  | Io m => "I/O error: " +:+ m
  | Json m => "JSON error: " +:+ m
  | NotFound => "Record not found"
  end.

Definition vault_error_display (e : VaultError) : string :=
  match e with
  | ProofNotFound => "Proof not found"
  | ProofExpired => "Proof has expired"
  | DecryptionFailed => "Decryption failed"
  | InvalidClaimId => "Invalid claim ID format"
  | InvalidParameter m => "Invalid parameter: " +:+ m
  | Storage s => "Storage error: " +:+ storage_error_display s
  | Serialization m => "Serialization error: " +:+ m
  end.

(** [VaultError::rpc_code] *)
Definition rpc_code (e : VaultError) : Z :=
  match e with
  | ProofNotFound => -32001
  | ProofExpired => -32002
  | InvalidClaimId => -32003
  | DecryptionFailed => -32004
  | InvalidParameter _ => -32006
  | Storage _ | Serialization _ => -32005
  end.

(** The code and the message of an error determine the error, up to the two
    internal kinds that share a code on purpose. *)
Lemma rpc_code_eq_cases e f :
  rpc_code e = rpc_code f ->
  e = f \/
  (exists m n, e = InvalidParameter m /\ f = InvalidParameter n) \/
  (rpc_code e = -32005 /\ rpc_code f = -32005).
Proof. destruct e, f; cbn; intros; try lia; eauto 10. Qed.
