(* ===== verification/ClaimId.v ===== *)
(** src/domain/claim_id.rs: the claim token, [record_id || encryption_key] in
    base64url. *)
From S2P Require Export Errors Externals.

Definition RECORD_ID_LEN : nat := 16.
Definition ENCRYPTION_KEY_LEN : nat := 32.
Definition CLAIM_ID_BYTES : nat := RECORD_ID_LEN + ENCRYPTION_KEY_LEN.

#[global] Arguments RECORD_ID_LEN : simpl never.
#[global] Arguments ENCRYPTION_KEY_LEN : simpl never.
#[global] Arguments CLAIM_ID_BYTES : simpl never.

Record ClaimId : Type := MkClaimId {
  record_id : array 16;
  encryption_key : array 32;
}.

#[global] Instance ClaimId_eq_dec : EqDecision ClaimId.
Proof. solve_decision. Defined.

Section ClaimId.
Context `{Base64, UuidFmt}.

(** [ClaimId::new]; the fresh [Uuid::new_v4] is passed in. *)
Definition claim_new (uuid : array 16) (key : array 32) : ClaimId :=
  {| record_id := uuid; encryption_key := key |}.

(** The 48-byte buffer [encode] fills. *)
Definition claim_bytes (c : ClaimId) : bytes :=
  vec_to_list (record_id c) ++ vec_to_list (encryption_key c).

(** [ClaimId::encode] *)
Definition claim_encode (c : ClaimId) : string := url_safe_no_pad_encode (claim_bytes c).

(** [ClaimId::decode] *)
Definition claim_decode (s : string) : result ClaimId VaultError :=
  try_r (ok_or (url_safe_no_pad_decode s) InvalidClaimId) (fun bs =>
  if negb (length bs =? CLAIM_ID_BYTES)%nat then Err InvalidClaimId
  else Ok {| record_id := copy_from_slice RECORD_ID_LEN (take RECORD_ID_LEN bs);
             encryption_key := copy_from_slice ENCRYPTION_KEY_LEN (drop RECORD_ID_LEN bs) |}).

(** [ClaimId::record_id_hex] *)
Definition record_id_hex (c : ClaimId) : string := uuid_simple (record_id c).

(** The [Debug] implementation: a struct with the key redacted. *)
Definition claim_debug (c : ClaimId) : list (string * string) :=
  [("record_id", record_id_hex c); ("encryption_key", "<redacted>")].

(** [Zeroize for ClaimId]: both arrays overwritten with zeros. *)
Definition claim_zeroize (_ : ClaimId) : ClaimId :=
  {| record_id := vreplicate RECORD_ID_LEN zero_byte;
     encryption_key := vreplicate ENCRYPTION_KEY_LEN zero_byte |}.
End ClaimId.

(** ** Lemmas *)

Lemma length_claim_bytes c : length (claim_bytes c) = CLAIM_ID_BYTES.
Proof. unfold claim_bytes. by rewrite length_app, !length_vec_to_list. Qed.

(** The length check of [decode] is what makes both [copy_from_slice] safe. *)
Lemma decode_slices (bs : bytes) :
  length bs = CLAIM_ID_BYTES ->
  length (take RECORD_ID_LEN bs) = RECORD_ID_LEN /\
  length (drop RECORD_ID_LEN bs) = ENCRYPTION_KEY_LEN.
Proof. unfold CLAIM_ID_BYTES. rewrite length_take, length_drop. lia. Qed.

Section Lemmas.
Context `{Base64Laws}.

Lemma decode_ok_iff s c :
  claim_decode s = Ok c <-> url_safe_no_pad_decode s = Some (claim_bytes c).
Proof.
  unfold claim_decode, try_r. destruct (url_safe_no_pad_decode s) as [bs|]; cbn; [|done].
  destruct (Nat.eqb_spec (length bs) CLAIM_ID_BYTES) as [Hl|Hl]; cbn.
  - apply decode_slices in Hl as [Ht Hd]. split.
    + intros [= <-]. unfold claim_bytes; cbn [record_id encryption_key].
      by rewrite !vec_to_list_copy, take_drop.
    + intros [= ->]. destruct c as [i k]. unfold claim_bytes; cbn.
      rewrite take_app_exact, drop_app_exact by apply length_vec_to_list.
      by rewrite !copy_vec_to_list.
  - split; [done|]. intros [= ->]. by destruct Hl; apply length_claim_bytes.
Qed.

Lemma decode_encode c : claim_decode (claim_encode c) = Ok c.
Proof. apply decode_ok_iff, url_decode_encode. Qed.

Lemma encode_decode s c : claim_decode s = Ok c -> claim_encode c = s.
Proof. intros Hd%decode_ok_iff. by apply url_encode_decode. Qed.

Lemma decode_err s e : claim_decode s = Err e -> e = InvalidClaimId.
Proof.
  unfold claim_decode, try_r. destruct (url_safe_no_pad_decode s); cbn; [|congruence].
  case_match; congruence.
Qed.

Lemma encode_length c : String.length (claim_encode c) = 64%nat.
Proof.
  apply Nat2Z.inj. unfold claim_encode. by rewrite url_encode_length, length_claim_bytes.
Qed.

#[global] Instance encode_inj : Inj (=) (=) claim_encode.
Proof.
  intros c d He. pose proof (decode_encode c) as Hc.
  rewrite He, decode_encode in Hc. congruence.
Qed.
End Lemmas.

#[export] Hint Rewrite @decode_encode using typeclasses eauto : vault_rw.
