(* ===== verification/Record.v ===== *)
(** src/domain/record.rs: the stored record, its expiry test and the JSON form
    its serde attributes define, and the [DiskState] map of
    src/storage/local_file.rs as a JSON document. *)
From stdpp Require Export sorting.
From S2P Require Export Errors Externals.

Record EncryptedRecord : Type := MkEncrypted {
  nonce : bytes;
  ciphertext : bytes;
}.

Record StoredRecord : Type := MkStored {
  encrypted : EncryptedRecord;
  stored_at : Z;
  expires_at : option Z;
}.

#[global] Instance EncryptedRecord_eq_dec : EqDecision EncryptedRecord.
Proof. solve_decision. Defined.
#[global] Instance StoredRecord_eq_dec : EqDecision StoredRecord.
Proof. solve_decision. Defined.

(** [StoredRecord::is_expired], for the instant [now] the clock returns. *)
Definition is_expired_at (now : Z) (r : StoredRecord) : bool :=
  from_option (fun t => t <? now) false (expires_at r).

(** The filter of both [delete_expired] implementations: what a sweep keeps. *)
Definition live_at (now : Z) (r : StoredRecord) : bool :=
  from_option (fun t => now <? t) true (expires_at r).

(** A record whose instants chrono can represent. *)
Definition record_times (P : Z -> Prop) (r : StoredRecord) : Prop :=
  P (stored_at r) /\ from_option P True (expires_at r).

Lemma record_times_impl (P Q : Z -> Prop) r :
  (forall t, P t -> Q t) -> record_times P r -> record_times Q r.
Proof. intros HPQ [? Ht]. split; [auto|]. destruct (expires_at r); cbn in *; auto. Qed.

(** What expired is swept; what is swept has expired or expires now. *)
Lemma live_not_expired now r : live_at now r = true -> is_expired_at now r = false.
Proof. unfold live_at, is_expired_at. destruct (expires_at r); cbn; lia. Qed.

Lemma not_live_iff now r :
  live_at now r = false <-> exists t, expires_at r = Some t /\ t <= now.
Proof.
  unfold live_at. destruct (expires_at r) as [t|]; cbn; split; intros H; inv_all; try lia.
  exists t. split; [done|lia].
Qed.

Section Serde.
Context `{Base64, Chrono}.

(** The [base64_field] helper module. *)
Definition base64_serialize (b : bytes) : json := JString (standard_encode b).

Definition base64_deserialize (j : json) : result bytes string :=
  match j with
  | JString s => ok_or (standard_decode s) "invalid base64"
  | _ => Err "expected a string"
  end.

Definition datetime_serialize (t : Z) : json := JString (datetime_to_serde t).

Definition datetime_deserialize (j : json) : result Z string :=
  match j with
  | JString s => ok_or (datetime_of_serde s) "invalid datetime"
  | _ => Err "expected a datetime string"
  end.

(** [#[derive(Serialize)]] with [#[serde(flatten)]] on [encrypted]: one object
    with the members in declaration order. *)
Definition record_to_json (r : StoredRecord) : json :=
  JObject [("nonce", base64_serialize (nonce (encrypted r)));
           ("ciphertext", base64_serialize (ciphertext (encrypted r)));
           ("stored_at", datetime_serialize (stored_at r));
           ("expires_at", from_option datetime_serialize JNull (expires_at r))].

(** The value of field [f]: absent, present once, or an error when repeated. *)
Definition member (f : string) (ms : list (string * json)) : result (option json) string :=
  match filter (fun m => m.1 = f) ms with
  | [] => Ok None
  | [m] => Ok (Some m.2)
  | _ => Err "duplicate field"
  end.

Definition required (o : option json) : result json string := ok_or o "missing field".

(** [#[derive(Deserialize)]]: unknown members are ignored and a missing
    [Option] field is [None]. *)
Definition record_of_json (j : json) : result StoredRecord string :=
  match j with
  | JObject ms =>
      try_r (member "nonce" ms) (fun n => try_r (required n) (fun n =>
      try_r (base64_deserialize n) (fun n =>
      try_r (member "ciphertext" ms) (fun c => try_r (required c) (fun c =>
      try_r (base64_deserialize c) (fun c =>
      try_r (member "stored_at" ms) (fun s => try_r (required s) (fun s =>
      try_r (datetime_deserialize s) (fun s =>
      try_r (member "expires_at" ms) (fun e =>
      try_r (match e with
             | None | Some JNull => Ok None
             | Some j => result_map Some (datetime_deserialize j)
             end) (fun e =>
      Ok {| encrypted := {| nonce := n; ciphertext := c |};
            stored_at := s; expires_at := e |})))))))))))
  | _ => Err "expected an object"
  end.

(** [BTreeMap<String, StoredRecord>] as a document: the members in key order. *)
Definition disk_to_json (m : gmap string StoredRecord) : json :=
  JObject (prod_map id record_to_json <$>
           merge_sort (fun a b => String.le a.1 b.1) (map_to_list m)).

(** Members are inserted in the order of the text, a later one replacing an
    earlier one with the same key. *)
Fixpoint disk_of_members (ms : list (string * json)) (m : gmap string StoredRecord) :
  result (gmap string StoredRecord) string :=
  match ms with
  | [] => Ok m
  | (k, j) :: ms' => try_r (record_of_json j) (fun r => disk_of_members ms' (<[k := r]> m))
  end.

Definition disk_of_json (j : json) : result (gmap string StoredRecord) string :=
  match j with
  | JObject ms => disk_of_members ms ∅
  | _ => Err "expected an object"
  end.
End Serde.

(** ** Round trips *)

Section Lemmas.
Context `{Base64Laws, ChronoLaws}.

Definition representable (t : Z) : Prop := datetime_min <= t <= datetime_max.

Lemma in_rfc3339_representable t : in_rfc3339 t -> representable t.
Proof. destruct datetime_range. unfold in_rfc3339, representable. lia. Qed.

Lemma base64_roundtrip b : base64_deserialize (base64_serialize b) = Ok b.
Proof. cbn. by rewrite std_decode_encode. Qed.

Lemma datetime_roundtrip t :
  representable t -> datetime_deserialize (datetime_serialize t) = Ok t.
Proof. intros Ht. cbn. by rewrite serde_datetime. Qed.

Lemma record_json_roundtrip r :
  record_times representable r -> record_of_json (record_to_json r) = Ok r.
Proof.
  intros [Hs He]. destruct r as [[n c] s e]; cbn [stored_at expires_at] in *.
  unfold record_of_json, record_to_json; cbn [encrypted nonce ciphertext stored_at expires_at].
  set (ms := [_; _; _; _]).
  change (member "nonce" ms) with (@Ok (option json) string (Some (base64_serialize n))).
  change (member "ciphertext" ms) with (@Ok (option json) string (Some (base64_serialize c))).
  change (member "stored_at" ms) with (@Ok (option json) string (Some (datetime_serialize s))).
  change (member "expires_at" ms) with
    (@Ok (option json) string (Some (from_option datetime_serialize JNull e))).
  cbn [try_r required ok_or].
  rewrite !base64_roundtrip, datetime_roundtrip by done. cbn [try_r].
  destruct e as [t|]; [|done]. cbn [from_option] in *.
  rewrite datetime_roundtrip by done. done.
Qed.

Lemma record_to_json_plain r : plain_json (record_to_json r).
Proof.
  constructor. repeat (apply Forall_cons; split); cbn; try constructor.
  destruct (expires_at r); constructor.
Qed.

Lemma disk_to_json_plain m : plain_json (disk_to_json m).
Proof.
  constructor. apply Forall_fmap, Forall_forall.
  intros [k r] _. apply record_to_json_plain.
Qed.

Lemma disk_of_members_fmap (l : list (string * StoredRecord)) (m : gmap string StoredRecord) :
  Forall (fun kr => record_times representable kr.2) l ->
  disk_of_members (prod_map id record_to_json <$> l) m =
  Ok (foldl (fun m kr => <[kr.1 := kr.2]> m) m l).
Proof.
  intros Hl. revert m. induction Hl as [|[k r] l Hr Hl IH]; intros m; [done|].
  cbn [prod_map fmap list_fmap fst snd disk_of_members id].
  unfold prod_map; cbn [fst snd]. unfold id at 1.
  rewrite record_json_roundtrip by done. cbn. apply IH.
Qed.

Lemma foldl_insert_list_to_map (l : list (string * StoredRecord))
    (m : gmap string StoredRecord) :
  NoDup l.*1 -> foldl (fun m kr => <[kr.1 := kr.2]> m) m l = list_to_map l ∪ m.
Proof.
  revert m. induction l as [|[k r] l IH]; intros m Hnd; cbn in *.
  - by rewrite (left_id_L ∅ (∪)).
  - apply NoDup_cons in Hnd as [Hk Hnd]. rewrite IH by done.
    rewrite <- insert_union_l, <- insert_union_r; [done|].
    by apply not_elem_of_list_to_map_1.
Qed.

Lemma disk_json_roundtrip (m : gmap string StoredRecord) :
  map_Forall (fun _ r => record_times representable r) m ->
  disk_of_json (disk_to_json m) = Ok m.
Proof.
  intros Hm. unfold disk_of_json, disk_to_json.
  set (l := merge_sort _ _).
  assert (Hp : l ≡ₚ map_to_list m) by apply merge_sort_Permutation.
  rewrite disk_of_members_fmap.
  - rewrite foldl_insert_list_to_map.
    + rewrite (right_id_L ∅ (∪)). f_equal.
      rewrite (list_to_map_proper _ (map_to_list m)); [apply list_to_map_to_list| |done].
      rewrite Hp. apply NoDup_fst_map_to_list.
    + rewrite Hp. apply NoDup_fst_map_to_list.
  - rewrite Hp. apply Forall_forall. intros [k r] Hin%elem_of_map_to_list.
    apply (Hm k r Hin).
Qed.
End Lemmas.
