(* ===== verification/Plaintext.v ===== *)
(** src/domain/proof.rs: the container of a plaintext proof. *)
From S2P Require Export Errors Externals.

Record PlaintextProof : Type := MkProof { proof_data : bytes }.

#[global] Instance PlaintextProof_eq_dec : EqDecision PlaintextProof.
Proof. solve_decision. Defined.

(** [Zeroize] of a [Vec<u8>]: every byte overwritten, then the vector cleared. *)
Definition vec_zeroize (_ : bytes) : bytes := [].

Section PlaintextProof.
Context `{SerdeJson}.

(** [PlaintextProof::from_bytes] *)
Definition proof_from_bytes (b : bytes) : PlaintextProof := {| proof_data := b |}.

(** [PlaintextProof::from_json] *)
Definition proof_from_json (v : json) : result PlaintextProof VaultError :=
  result_map proof_from_bytes (map_err Serialization (to_vec v)).

(** [PlaintextProof::as_bytes] *)
Definition proof_as_bytes (p : PlaintextProof) : bytes := proof_data p.

(** [PlaintextProof::into_json]: the parse, and the buffer left behind. *)
Definition into_json (p : PlaintextProof) : result json VaultError * PlaintextProof :=
  let result := map_err Serialization (from_slice_value (proof_data p)) in
  (result, {| proof_data := vec_zeroize (proof_data p) |}).

(** The redacted [Debug]. *)
Definition proof_debug (_ : PlaintextProof) : string := "PlaintextProof(<redacted>)".

Lemma proof_json_roundtrip `{!SerdeJsonLaws} v :
  is_value v ->
  exists p, proof_from_json v = Ok p /\
    into_json p = (Ok v, {| proof_data := [] |}).
Proof.
  intros Hv. pose proof (to_vec_total v Hv) as Ht. unfold proof_from_json.
  destruct (to_vec v) as [b|] eqn:Hb; [|done]. eexists. split; [done|].
  unfold into_json; cbn. by rewrite (from_slice_to_vec v b).
Qed.
End PlaintextProof.
