(* ===== verification/CodecProperties.v ===== *)
(** The properties of the encodings: claim tokens, and the document the file
    store keeps its records in; with their witnesses. *)
From S2P Require Export ClaimId Record Plaintext Models.

Section Properties.
Context `{Base64Laws, ChronoLaws, SerdeJsonLaws}.

(** C28: a claim token is the text of exactly one claim: encoding gives 64
    characters that decode to the claim, every text that decodes is the
    encoding of what it decodes to, and every other text, of whatever length
    and alphabet, is refused with the invalid-claim error. *)
Theorem claim_token_exact s :
  (forall c, s = claim_encode c -> String.length s = 64%nat /\ claim_decode s = Ok c) /\
  (forall c, claim_decode s = Ok c -> s = claim_encode c) /\
  ((forall c, s <> claim_encode c) -> claim_decode s = Err InvalidClaimId).
Proof.
  split_and!.
  - intros c ->. split; [apply encode_length|apply ClaimId.decode_encode].
  - intros c Hc. symmetry. by apply encode_decode.
  - intros Hs. destruct (claim_decode s) as [c|e] eqn:Hc.
    + by destruct (Hs c); symmetry; apply encode_decode.
    + f_equal. by eapply decode_err.
Qed.

(** C29: the vault file round trips: whatever records it holds, with instants
    chrono can represent, writing them succeeds and reading the bytes back
    gives the same map, whatever bytes their keys, nonces and ciphertexts
    are. *)
Theorem disk_file_roundtrip (m : gmap string StoredRecord) :
  map_Forall (fun _ r => record_times representable r) m ->
  exists b, to_vec_pretty (disk_to_json m) = Ok b /\
    try_r (from_document b) disk_of_json = Ok m.
Proof.
  intros Hm. pose proof (disk_to_json_plain m) as Hp. pose proof (to_vec_pretty_total _ Hp) as Ht.
  destruct (to_vec_pretty _) as [b|e] eqn:Hb; [|done]. exists b. split; [done|].
  rewrite (from_document_to_vec_pretty _ b Hp Hb). by apply disk_json_roundtrip.
Qed.

End Properties.

(** ** Witnesses *)

Module CodecSample.
Definition record : StoredRecord :=
  MkStored (MkEncrypted [Byte.x00; Byte.xff] (as_bytes "text")) 0 (Some (3600 * nanos_per_sec)).
Definition state : gmap string StoredRecord := <["k" := record]> (<[EmptyString := record]> ∅).
End CodecSample.

Lemma claim_token_exact_witness :
  claim_decode "not a token" = Err InvalidClaimId /\ claim_decode EmptyString = Err InvalidClaimId.
Proof.
  split; [apply (claim_token_exact "not a token")|apply (claim_token_exact EmptyString)];
    intros c Hc; pose proof (encode_length c) as Hl; rewrite <- Hc in Hl; discriminate Hl.
Defined.

Lemma disk_file_roundtrip_witness :
  exists b, to_vec_pretty (disk_to_json CodecSample.state) = Ok b /\
    try_r (from_document b) disk_of_json = Ok CodecSample.state.
Proof.
  apply disk_file_roundtrip. unfold CodecSample.state.
  repeat apply map_Forall_insert_2; [..|apply map_Forall_empty];
    (split; [split; by vm_compute|split; by vm_compute]).
Defined.
