(* ===== verification/Backend.v ===== *)
(** src/storage/backend.rs: the [StorageBackend] trait as a class of state
    transformers, and its contract against an abstract map from record ids to
    records.  The client (Vault.v) is proved against [BackendLaws]; the files
    LocalFile.v, Sqlite.v and AnyBackend.v discharge it. *)
From S2P Require Export Record.

Abbreviation RecordId := (array 16).
Abbreviation Records := (gmap RecordId StoredRecord).

(** The trait.  [&self] with interior mutability is the state [S] passed
    through; [delete_expired] reads the clock itself, its reading is the
    argument. *)
Class StorageBackend (S : Type) := {
  sb_insert : RecordId -> StoredRecord -> S -> result unit StorageError * S;
  sb_fetch : RecordId -> S -> result StoredRecord StorageError * S;
  sb_delete : RecordId -> S -> result bool StorageError * S;
  sb_delete_expired : Z -> S -> result nat StorageError * S;
}.

(** What a sweep at [now] keeps. *)
Definition sweep (now : Z) (m : Records) : Records :=
  filter (fun kr => live_at now kr.2 = true) m.

(** ** The contract: answers and state changes on the abstract map

    A successful answer describes the change exactly.  An operation that fails
    reports it with an error other than [NotFound] and has either done nothing
    or done its whole change (the failure came after the write). *)
Definition insert_post (id : RecordId) (r : StoredRecord) (m : Records) (res : result unit StorageError) (m' : Records) : Prop :=
  match res with
  | Ok _ => m' = <[id := r]> m
  | Err e => e <> NotFound /\ (m' = m \/ m' = <[id := r]> m)
  end.

Definition fetch_post (id : RecordId) (m : Records) (res : result StoredRecord StorageError) (m' : Records) : Prop :=
  m' = m /\
  match res with
  | Ok r => m !! id = Some r
  | Err NotFound => m !! id = None
  | Err _ => True
  end.

Definition delete_post (id : RecordId) (m : Records) (res : result bool StorageError) (m' : Records) : Prop :=
  match res with
  | Ok b => b = bool_decide (is_Some (m !! id)) /\ m' = delete id m
  | Err e => e <> NotFound /\ (m' = m \/ m' = delete id m)
  end.

Definition sweep_post (now : Z) (m : Records) (res : result nat StorageError) (m' : Records) : Prop :=
  match res with
  | Ok n => m' = sweep now m /\ n = (size m - size (sweep now m))%nat
  | Err e => e <> NotFound /\ (m' = m \/ m' = sweep now m)
  end.

(** [sb_rep s m]: the state [s] is sound and holds the records [m].
    [sb_time t]: the backend can store and compare the instant [t].
    [sb_healthy s]: no input/output failure lies ahead. *)
Class BackendLaws (S : Type) `{StorageBackend S} := {
  sb_rep : S -> Records -> Prop;
  sb_time : Z -> Prop;
  sb_healthy : S -> Prop;
  sb_insert_law id r s m :
    sb_rep s m -> record_times sb_time r ->
    exists m', sb_rep (sb_insert id r s).2 m' /\
      insert_post id r m (sb_insert id r s).1 m';
  sb_fetch_law id s m :
    sb_rep s m ->
    exists m', sb_rep (sb_fetch id s).2 m' /\ fetch_post id m (sb_fetch id s).1 m';
  sb_delete_law id s m :
    sb_rep s m ->
    exists m', sb_rep (sb_delete id s).2 m' /\ delete_post id m (sb_delete id s).1 m';
  sb_sweep_law now s m :
    sb_rep s m -> sb_time now ->
    exists m', sb_rep (sb_delete_expired now s).2 m' /\
      sweep_post now m (sb_delete_expired now s).1 m';
  sb_insert_healthy id r s m :
    sb_rep s m -> sb_healthy s -> record_times sb_time r ->
    is_ok (sb_insert id r s).1 = true /\ sb_healthy (sb_insert id r s).2;
  sb_fetch_healthy id s m :
    sb_rep s m -> sb_healthy s ->
    is_ok (sb_fetch id s).1 = bool_decide (is_Some (m !! id)) /\
    (m !! id = None -> (sb_fetch id s).1 = Err NotFound) /\
    sb_healthy (sb_fetch id s).2;
  sb_delete_healthy id s m :
    sb_rep s m -> sb_healthy s ->
    is_ok (sb_delete id s).1 = true /\ sb_healthy (sb_delete id s).2;
  sb_sweep_healthy now s m :
    sb_rep s m -> sb_healthy s -> sb_time now ->
    is_ok (sb_delete_expired now s).1 = true /\ sb_healthy (sb_delete_expired now s).2;
}.

(** ** The reference backend

    The abstract map itself, never failing: the contract can be met, and every
    other backend refines this one. *)
Record MapStore : Type := MkMapStore { map_records : Records }.

#[global] Instance map_backend : StorageBackend MapStore := {|
  sb_insert id r s := (Ok tt, MkMapStore (<[id := r]> (map_records s)));
  sb_fetch id s := (ok_or (map_records s !! id) NotFound, s);
  sb_delete id s :=
    (Ok (bool_decide (is_Some (map_records s !! id))), MkMapStore (delete id (map_records s)));
  sb_delete_expired now s :=
    let m' := sweep now (map_records s) in
    (Ok (size (map_records s) - size m')%nat, MkMapStore m');
|}.

#[global] Program Instance map_backend_laws : BackendLaws MapStore := {|
  sb_rep s m := map_records s = m;
  sb_time _ := True;
  sb_healthy _ := True;
|}.
Next Obligation. cbn. intros id r s m <- _. eauto. Qed.
Next Obligation.
  cbn. intros id s m <-. eexists. split; [done|].
  split; [done|]. by destruct (map_records s !! id) eqn:E.
Qed.
Next Obligation. cbn. intros id s m <-. eauto. Qed.
Next Obligation. cbn. intros now s m <- _. eauto. Qed.
Next Obligation. done. Qed.
Next Obligation.
  cbn. intros id s m <- _. destruct (map_records s !! id) eqn:E; cbn; split_and!; try done.
Qed.
Next Obligation. done. Qed.
Next Obligation. done. Qed.

(** ** Lemmas on sweeps *)

Lemma lookup_sweep (now : Z) (m : Records) (id : RecordId) r :
  sweep now m !! id = Some r <-> m !! id = Some r /\ live_at now r = true.
Proof. unfold sweep. by rewrite map_lookup_filter_Some. Qed.

Lemma lookup_sweep_None (now : Z) (m : Records) (id : RecordId) :
  sweep now m !! id = None <->
  m !! id = None \/ exists r, m !! id = Some r /\ live_at now r = false.
Proof.
  unfold sweep. rewrite map_lookup_filter_None. cbn. split.
  - intros [?|Hf]; [by left|]. destruct (m !! id) as [r|] eqn:E; [right|by left].
    exists r. split; [done|]. by apply not_true_is_false, Hf.
  - intros [?|(r & Hr & Hl)]; [by left|right]. intros r' Hr'. congruence.
Qed.

Lemma size_sweep_le (now : Z) (m : Records) : (size (sweep now m) <= size m)%nat.
Proof. apply map_subseteq_size, map_filter_subseteq. Qed.

(** ** One operation as data *)

Inductive DiskCall : Type :=
| DInsert (id : RecordId) (r : StoredRecord)
| DFetch (id : RecordId)
| DDelete (id : RecordId)
| DDeleteExpired.

Inductive DiskReply : Type :=
| InsertReply (r : result unit StorageError)
| FetchReply (r : result StoredRecord StorageError)
| RemoveReply (r : result bool StorageError)
| SweepReply (r : result nat StorageError).

(** What the call does to the records, when it does anything. *)
Definition disk_effect (now : Z) (c : DiskCall) (m : Records) : Records :=
  match c with
  | DInsert id r => <[id := r]> m
  | DFetch _ => m
  | DDelete id => delete id m
  | DDeleteExpired => sweep now m
  end.

Definition disk_post (now : Z) (c : DiskCall) (m : Records) (a : DiskReply) (m' : Records) : Prop :=
  match c, a with
  | DInsert id r, InsertReply x => insert_post id r m x m'
  | DFetch id, FetchReply x => fetch_post id m x m'
  | DDelete id, RemoveReply x => delete_post id m x m'
  | DDeleteExpired, SweepReply x => sweep_post now m x m'
  | _, _ => False
  end.

(** The answers of a store that meets no failure. *)
Definition disk_fine (c : DiskCall) (m : Records) (a : DiskReply) : Prop :=
  match c, a with
  | DInsert _ _, InsertReply x => is_ok x = true
  | DFetch id, FetchReply x => x = ok_or (m !! id) NotFound
  | DDelete _, RemoveReply x => is_ok x = true
  | DDeleteExpired, SweepReply x => is_ok x = true
  | _, _ => False
  end.

(** The instants of the call are ones the backend stores. *)
Definition disk_ok (P : Z -> Prop) (c : DiskCall) : Prop :=
  match c with DInsert _ r => record_times P r | _ => True end.

(** Any backend serves calls as data. *)
Definition backend_serve {S : Type} `{StorageBackend S} (now : Z) (c : DiskCall) (s : S) : DiskReply * S :=
  match c with
  | DInsert id r => let (a, s) := sb_insert id r s in (InsertReply a, s)
  | DFetch id => let (a, s) := sb_fetch id s in (FetchReply a, s)
  | DDelete id => let (a, s) := sb_delete id s in (RemoveReply a, s)
  | DDeleteExpired => let (a, s) := sb_delete_expired now s in (SweepReply a, s)
  end.

(** What a backend that meets no failure answers. *)
Definition disk_answer (now : Z) (c : DiskCall) (m : Records) : DiskReply :=
  match c with
  | DInsert _ _ => InsertReply (Ok tt)
  | DFetch id => FetchReply (ok_or (m !! id) NotFound)
  | DDelete id => RemoveReply (Ok (bool_decide (is_Some (m !! id))))
  | DDeleteExpired => SweepReply (Ok (size m - size (sweep now m))%nat)
  end.

Section HealthyCalls.
Context {S : Type} `{BackendLaws S}.
Implicit Types (s : S) (m : Records) (id : RecordId).

Lemma fetch_healthy_cases id s m :
  sb_rep s m -> sb_healthy s ->
  exists s', sb_rep s' m /\ sb_healthy s' /\ sb_fetch id s = (ok_or (m !! id) NotFound, s').
Proof.
  intros Hm Hh. destruct (sb_fetch_law id s m Hm) as (m' & Hm' & -> & Hr).
  destruct (sb_fetch_healthy id s m Hm Hh) as (Hok & Hnf & Hh').
  destruct (sb_fetch id s) as [[r|e] s']; cbn in *; exists s'; split_and!; try done.
  - by rewrite Hr.
  - destruct (m !! id) as [r|]; [done|]. cbn. f_equal. by apply Hnf.
Qed.

Lemma delete_healthy_cases id s m :
  sb_rep s m -> sb_healthy s ->
  exists s', sb_rep s' (delete id m) /\ sb_healthy s' /\
    sb_delete id s = (Ok (bool_decide (is_Some (m !! id))), s').
Proof.
  intros Hm Hh. destruct (sb_delete_law id s m Hm) as (m' & Hm' & Hp).
  destruct (sb_delete_healthy id s m Hm Hh) as [Hok Hh'].
  destruct (sb_delete id s) as [[b|e] s']; cbn in *; [|done].
  destruct Hp as [-> ->]. by exists s'.
Qed.

Lemma insert_healthy_cases id r s m :
  sb_rep s m -> sb_healthy s -> record_times sb_time r ->
  exists s', sb_rep s' (<[id := r]> m) /\ sb_healthy s' /\ sb_insert id r s = (Ok tt, s').
Proof.
  intros Hm Hh Ht. destruct (sb_insert_law id r s m Hm Ht) as (m' & Hm' & Hp).
  destruct (sb_insert_healthy id r s m Hm Hh Ht) as [Hok Hh'].
  destruct (sb_insert id r s) as [[[]|e] s']; cbn in *; [|done]. subst. by exists s'.
Qed.

Lemma sweep_healthy_cases now s m :
  sb_rep s m -> sb_healthy s -> sb_time now ->
  exists s', sb_rep s' (sweep now m) /\ sb_healthy s' /\
    sb_delete_expired now s = (Ok (size m - size (sweep now m))%nat, s').
Proof.
  intros Hm Hh Ht. destruct (sb_sweep_law now s m Hm Ht) as (m' & Hm' & Hp).
  destruct (sb_sweep_healthy now s m Hm Hh Ht) as [Hok Hh'].
  destruct (sb_delete_expired now s) as [[n|e] s']; cbn in *; [|done].
  destruct Hp as [-> ->]. by exists s'.
Qed.

Lemma backend_serve_healthy now c s m :
  sb_rep s m -> sb_healthy s -> sb_time now -> disk_ok sb_time c ->
  exists s', sb_rep s' (disk_effect now c m) /\ sb_healthy s' /\
    backend_serve now c s = (disk_answer now c m, s').
Proof.
  intros Hm Hh Ht Hc. destruct c as [id r|id|id|]; cbn.
  - destruct (insert_healthy_cases id r s m Hm Hh Hc) as (s' & ? & ? & ->). by exists s'.
  - destruct (fetch_healthy_cases id s m Hm Hh) as (s' & ? & ? & ->). by exists s'.
  - destruct (delete_healthy_cases id s m Hm Hh) as (s' & ? & ? & ->). by exists s'.
  - destruct (sweep_healthy_cases now s m Hm Hh Ht) as (s' & ? & ? & ->). by exists s'.
Qed.

(** Under failures. *)
Lemma backend_serve_post now c s m :
  sb_rep s m -> sb_time now -> disk_ok sb_time c ->
  exists m', sb_rep (backend_serve now c s).2 m' /\ disk_post now c m (backend_serve now c s).1 m'.
Proof.
  intros Hm Ht Hc. destruct c as [id r|id|id|]; cbn.
  - pose proof (sb_insert_law id r s m Hm Hc). by destruct (sb_insert id r s).
  - pose proof (sb_fetch_law id s m Hm). by destruct (sb_fetch id s).
  - pose proof (sb_delete_law id s m Hm). by destruct (sb_delete id s).
  - pose proof (sb_sweep_law now s m Hm Ht). by destruct (sb_delete_expired now s).
Qed.
End HealthyCalls.

(** Calls one after the other, each with its reading of the clock. *)
Fixpoint backend_serve_all {S : Type} `{StorageBackend S} (cs : list (Z * DiskCall)) (s : S) :
  list DiskReply * S :=
  match cs with
  | [] => ([], s)
  | (now, c) :: cs =>
      let (a, s1) := backend_serve now c s in
      let (rs, s2) := backend_serve_all cs s1 in (a :: rs, s2)
  end.
