(* ===== verification/Vault.v ===== *)
(** src/vault/proof_vault.rs: [StandardVault] as programs over the effects it
    performs (clock, randomness, storage, log), and their execution against a
    storage backend. *)
From stdpp Require Export pretty.
From S2P Require Export Prog ClaimId Plaintext Backend.

(** ** Effects *)

Inductive Level : Type := Debug | Info | Warn.

(** One [tracing] event: level, target, message. *)
Record LogLine : Type := MkLog { log_level : Level; log_target : string; log_msg : string }.

#[global] Instance Level_eq_dec : EqDecision Level.
Proof. solve_decision. Defined.
#[global] Instance LogLine_eq_dec : EqDecision LogLine.
Proof. solve_decision. Defined.

Inductive vaultE : Type -> Type :=
| UtcNow : vaultE Z
| GenerateKey : vaultE (array 32)
| GenerateNonce : vaultE (array 12)
| NewV4 : vaultE RecordId
| StInsert (id : RecordId) (r : StoredRecord) : vaultE (result unit StorageError)
| StFetch (id : RecordId) : vaultE (result StoredRecord StorageError)
| StDelete (id : RecordId) : vaultE (result bool StorageError)
| StDeleteExpired : vaultE (result nat StorageError)
| Log (l : LogLine) : vaultE unit.

(** ** The [ProofVault] trait *)

Class ProofVault (V : Type) := {
  pv_store_proof : V -> PlaintextProof -> option Z -> prog vaultE (result string VaultError);
  pv_retrieve_proof : V -> string -> prog vaultE (result PlaintextProof VaultError);
  pv_cleanup : V -> prog vaultE (result nat VaultError);
  pv_delete_proof : V -> string -> prog vaultE (result unit VaultError);
}.

#[global] Hint Mode ProofVault ! : typeclass_instances.

(** [StandardVault<B>]: its [storage] is the store of the world it runs in. *)
Inductive StandardVault : Type := MkStandardVault.

(** [Arc<V>] *)
Inductive Arc (V : Type) : Type := MkArc (inner : V).
Arguments MkArc {V} inner.

Section StandardVault.
Context `{Base64, UuidFmt, AesGcm, Chrono}.

Definition vault_log (lvl : Level) (msg : string) : prog vaultE unit :=
  trigger (Log (MkLog lvl "tari_vault::vault" msg)).

(** [StoredRecord::is_expired]: the clock is read only when there is an
    expiry. *)
Definition is_expired (r : StoredRecord) : prog vaultE bool :=
  match expires_at r with
  | Some _ => now ← trigger UtcNow; Ret (is_expired_at now r)
  | None => Ret (is_expired_at 0 r)
  end.

(** [Nonce::from_slice]: panics unless the slice has twelve bytes. *)
Definition nonce_from_slice (b : bytes) : prog vaultE (array 12) :=
  if (length b =? 12)%nat then Ret (copy_from_slice 12 b) else Panic.

(** The [expires_at] of [store_proof]. *)
Definition expiry (expires_in_secs : option Z) : prog vaultE (result (option Z) VaultError) :=
  match expires_in_secs with
  | None => Ret (Ok None)
  | Some s =>
      match i64_try_from s with
      | None => Ret (Err (InvalidParameter "expires_in_secs value is too large"))
      | Some secs =>
          now ← trigger UtcNow;
          match duration_seconds secs with
          | None => Panic
          | Some d =>
              match datetime_add now d with
              | None => Panic
              | Some t => Ret (Ok (Some t))
              end
          end
      end
  end.

Definition store_proof (proof : PlaintextProof) (expires_in_secs : option Z) :
  prog vaultE (result string VaultError) :=
  if bool_decide (expires_in_secs = Some 0) then
    Ret (Err (InvalidParameter "expires_in_secs must be greater than zero"))
  else
    generated_key ← trigger GenerateKey;
    nonce ← trigger GenerateNonce;
    ciphertext <-? Ret (ok_or (aead_encrypt generated_key nonce (proof_as_bytes proof))
                          DecryptionFailed);
    uuid ← trigger NewV4;
    let claim_id := claim_new uuid generated_key in
    let record_id := record_id claim_id in
    expires_at <-? expiry expires_in_secs;
    stored_at ← trigger UtcNow;
    let stored := {| encrypted := {| nonce := vec_to_list nonce; ciphertext := ciphertext |};
                     stored_at := stored_at; expires_at := expires_at |} in
    _ <-? map_err_p Storage (trigger (StInsert record_id stored));
    let encoded := claim_encode claim_id in
    _ ← vault_log Info ("Proof stored; record_id=" +:+ uuid_simple record_id);
    Ret (Ok encoded).

(** The [map_err] of [fetch]. *)
Definition fetch_error (e : StorageError) : VaultError :=
  match e with NotFound => ProofNotFound | other => Storage other end.

(** The expired branch of [retrieve_proof] and [delete_proof]: a best-effort
    delete whose failure is only logged, then the warning. *)
Definition reject_expired {A} (id : RecordId) (what : string) :
  prog vaultE (result A VaultError) :=
  deleted ← trigger (StDelete id);
  _ ← match deleted with
      | Err e => vault_log Warn ("Failed to delete expired record " +:+ uuid_simple id +:+
                                 "; storage error: " +:+ storage_error_display e)
      | Ok _ => Ret tt
      end;
  _ ← vault_log Warn (what +:+ "; record_id=" +:+ uuid_simple id);
  Ret (Err ProofExpired).

Definition retrieve_proof (claim_id_str : string) :
  prog vaultE (result PlaintextProof VaultError) :=
  claim_id <-? Ret (claim_decode claim_id_str);
  let record_id := record_id claim_id in
  stored <-? map_err_p fetch_error (trigger (StFetch record_id));
  expired ← is_expired stored;
  if (expired : bool) then reject_expired record_id "Expired proof access attempt"
  else if negb (length (nonce (encrypted stored)) =? 12)%nat then Ret (Err DecryptionFailed)
  else
    nonce ← nonce_from_slice (nonce (encrypted stored));
    plaintext <-? Ret (ok_or (aead_decrypt (encryption_key claim_id) nonce
                                (ciphertext (encrypted stored))) DecryptionFailed);
    _ <-? map_err_p Storage (trigger (StDelete record_id));
    _ ← vault_log Info ("Proof retrieved and consumed; record_id=" +:+ uuid_simple record_id);
    Ret (Ok (proof_from_bytes plaintext)).

Definition cleanup : prog vaultE (result nat VaultError) :=
  removed <-? map_err_p Storage (trigger StDeleteExpired);
  _ ← (if (0 <? removed)%nat
       then vault_log Info ("Cleanup sweep removed " +:+ pretty removed +:+ " expired proof(s)")
       else Ret tt);
  Ret (Ok removed).

Definition delete_proof (claim_id_str : string) : prog vaultE (result unit VaultError) :=
  claim_id <-? Ret (claim_decode claim_id_str);
  let record_id := record_id claim_id in
  stored <-? map_err_p fetch_error (trigger (StFetch record_id));
  expired ← is_expired stored;
  if (expired : bool) then reject_expired record_id "Delete attempt on expired proof"
  else
    deleted <-? map_err_p Storage (trigger (StDelete record_id));
    if negb deleted then Ret (Err ProofNotFound)
    else
      _ ← vault_log Info ("Proof explicitly deleted by holder; record_id=" +:+
                          uuid_simple record_id);
      Ret (Ok tt).

#[global] Instance standard_vault : ProofVault StandardVault := {|
  pv_store_proof _ := store_proof;
  pv_retrieve_proof _ := retrieve_proof;
  pv_cleanup _ := cleanup;
  pv_delete_proof _ := delete_proof;
|}.

(** [impl ProofVault for Arc<V>]: every method forwards. *)
#[global] Instance arc_vault `{ProofVault V} : ProofVault (Arc V) := {|
  pv_store_proof '(MkArc v) := pv_store_proof v;
  pv_retrieve_proof '(MkArc v) := pv_retrieve_proof v;
  pv_cleanup '(MkArc v) := pv_cleanup v;
  pv_delete_proof '(MkArc v) := pv_delete_proof v;
|}.
End StandardVault.

#[global] Arguments reject_expired : simpl never.
#[global] Arguments is_expired : simpl never.

(** ** Worlds *)

(** What the environment answers at each tick: the wall clock (it need not be
    monotone), the operating system's randomness and [Uuid::new_v4]. *)
Record Env : Type := MkEnv {
  env_clock : nat -> Z;
  env_key : nat -> array 32;
  env_nonce : nat -> array 12;
  env_uuid : nat -> RecordId;
}.

(** One tick per effect; the backend's state; the log, newest line last. *)
Record World (S : Type) : Type := MkWorld {
  w_tick : nat;
  w_store : S;
  w_log : list LogLine;
}.
Arguments MkWorld {S}.
Arguments w_tick {S}.
Arguments w_store {S}.
Arguments w_log {S}.

Section Handler.
Context {S : Type} `{StorageBackend S} (env : Env).

Definition tick (w : World S) : World S :=
  MkWorld (Datatypes.S (w_tick w)) (w_store w) (w_log w).

Definition with_store {A} (a : A * S) (w : World S) : A * World S :=
  (a.1, MkWorld (Datatypes.S (w_tick w)) a.2 (w_log w)).

Definition handle : handler vaultE (World S) := fun X e w =>
  match e in vaultE X return option (X * World S) with
  | UtcNow => Some (env_clock env (w_tick w), tick w)
  | GenerateKey => Some (env_key env (w_tick w), tick w)
  | GenerateNonce => Some (env_nonce env (w_tick w), tick w)
  | NewV4 => Some (env_uuid env (w_tick w), tick w)
  | StInsert id r => Some (with_store (sb_insert id r (w_store w)) w)
  | StFetch id => Some (with_store (sb_fetch id (w_store w)) w)
  | StDelete id => Some (with_store (sb_delete id (w_store w)) w)
  | StDeleteExpired =>
      Some (with_store (sb_delete_expired (env_clock env (w_tick w)) (w_store w)) w)
  | Log l => Some (tt, MkWorld (Datatypes.S (w_tick w)) (w_store w) (w_log w ++ [l]))
  end.
End Handler.

(** No effect of the vault blocks. *)
Lemma handle_total {S} `{StorageBackend S} env {X} (e : vaultE X) (w : World S) :
  exists x w', handle env X e w = Some (x, w').
Proof. destruct e; cbn; eauto. Qed.

(** Effects only move the tick forward. *)
Lemma run_tick {S} `{StorageBackend S} env {A} (p : prog vaultE A) (w : World S) :
  (w_tick w <= w_tick (run (handle env) p w).2)%nat.
Proof.
  revert w. induction p as [a| |X e k IH]; intros w; cbn; try lia.
  destruct e; cbn; (etrans; [|apply IH]); cbn; lia.
Qed.
