(* ===== verification/VaultSpec.v ===== *)
(** What one call on a [StandardVault] does, against any backend that meets the
    contract of Backend.v: every branch of every method, storage failures
    included, as a relation between the records before and after. *)
From S2P Require Export Vault.

(** ** Specifications *)

Section Specs.
Context `{Base64, UuidFmt, AesGcm, Chrono}.

(** The instant [expires_at] of a proof stored at [now] with TTL [e]; [None]
    when chrono cannot represent it. *)
Definition expiry_instant (now : Z) (e : option Z) : option (option Z) :=
  match e with
  | None => Some None
  | Some s =>
      d ← duration_seconds s;
      t ← datetime_add now d;
      Some (Some t)
  end.

(** The record [store_proof p e], begun at tick [n] of [env], writes: sealed
    under the key of [n] with the nonce of [n+1]. *)
Definition sealed_record (env : Env) (n : nat) (p : PlaintextProof) (e : option Z)
    (r : StoredRecord) : Prop :=
  exists ct exp,
    aead_encrypt (env_key env n) (env_nonce env (1 + n)) (proof_data p) = Some ct /\
    expiry_instant (env_clock env (3 + n)) e = Some exp /\
    r = {| encrypted := {| nonce := vec_to_list (env_nonce env (1 + n)); ciphertext := ct |};
           stored_at := env_clock env (match e with Some _ => 4 + n | None => 3 + n end);
           expires_at := exp |}.

(** [store_proof p e] begun at tick [n] of [env]: the record id is the UUID of
    [n+2], and the clock is read from [n+3] on. *)
Definition store_post (env : Env) (n : nat) (p : PlaintextProof) (e : option Z) (m : Records)
    (o : outcome (result string VaultError)) (m' : Records) : Prop :=
  let id := env_uuid env (2 + n) in
  match o with
  | Done (Ok tok) =>
      e <> Some 0 /\ tok = claim_encode (claim_new id (env_key env n)) /\
      exists r, sealed_record env n p e r /\ m' = <[id := r]> m
  | Done (Err (InvalidParameter _)) =>
      (e = Some 0 \/ exists s, e = Some s /\ i64_max < s) /\ m' = m
  | Done (Err DecryptionFailed) =>
      e <> Some 0 /\ m' = m /\
      aead_encrypt (env_key env n) (env_nonce env (1 + n)) (proof_data p) = None
  | Done (Err (Storage err)) =>
      e <> Some 0 /\ err <> NotFound /\
      exists r, sealed_record env n p e r /\ (m' = m \/ m' = <[id := r]> m)
  | Panicked => exists s,
      e = Some s /\ s <= i64_max /\
      expiry_instant (env_clock env (3 + n)) e = None /\ m' = m
  | _ => False
  end.

(** [retrieve_proof tok] on the records [m] when the clock shows [now]. *)
Definition retrieve_post (now : Z) (tok : string) (m : Records)
    (o : outcome (result PlaintextProof VaultError)) (m' : Records) : Prop :=
  match o with
  | Done (Ok p) => exists c r,
      claim_decode tok = Ok c /\ m !! record_id c = Some r /\
      is_expired_at now r = false /\ length (nonce (encrypted r)) = 12%nat /\
      aead_decrypt (encryption_key c) (copy_from_slice 12 (nonce (encrypted r)))
        (ciphertext (encrypted r)) = Some (proof_data p) /\
      m' = delete (record_id c) m
  | Done (Err InvalidClaimId) => claim_decode tok = Err InvalidClaimId /\ m' = m
  | Done (Err ProofNotFound) => exists c,
      claim_decode tok = Ok c /\ m !! record_id c = None /\ m' = m
  | Done (Err ProofExpired) => exists c r,
      claim_decode tok = Ok c /\ m !! record_id c = Some r /\
      is_expired_at now r = true /\ (m' = m \/ m' = delete (record_id c) m)
  | Done (Err DecryptionFailed) => exists c r,
      claim_decode tok = Ok c /\ m !! record_id c = Some r /\
      is_expired_at now r = false /\
      (length (nonce (encrypted r)) <> 12%nat \/
       aead_decrypt (encryption_key c) (copy_from_slice 12 (nonce (encrypted r)))
         (ciphertext (encrypted r)) = None) /\
      m' = m
  | Done (Err (Storage e)) => exists c,
      claim_decode tok = Ok c /\ e <> NotFound /\
      (m' = m \/ m' = delete (record_id c) m)
  | _ => False
  end.

Definition delete_proof_post (now : Z) (tok : string) (m : Records)
    (o : outcome (result unit VaultError)) (m' : Records) : Prop :=
  match o with
  | Done (Ok _) => exists c r,
      claim_decode tok = Ok c /\ m !! record_id c = Some r /\
      is_expired_at now r = false /\ m' = delete (record_id c) m
  | Done (Err InvalidClaimId) => claim_decode tok = Err InvalidClaimId /\ m' = m
  | Done (Err ProofNotFound) => exists c,
      claim_decode tok = Ok c /\ m !! record_id c = None /\ m' = m
  | Done (Err ProofExpired) => exists c r,
      claim_decode tok = Ok c /\ m !! record_id c = Some r /\
      is_expired_at now r = true /\ (m' = m \/ m' = delete (record_id c) m)
  | Done (Err (Storage e)) => exists c,
      claim_decode tok = Ok c /\ e <> NotFound /\
      (m' = m \/ m' = delete (record_id c) m)
  | _ => False
  end.

Definition cleanup_post (now : Z) (m : Records)
    (o : outcome (result nat VaultError)) (m' : Records) : Prop :=
  match o with
  | Done (Ok n) => m' = sweep now m /\ n = (size m - size (sweep now m))%nat
  | Done (Err (Storage e)) => e <> NotFound /\ (m' = m \/ m' = sweep now m)
  | _ => False
  end.

(** *** What each method answers when the storage does not fail *)

Definition store_answer (env : Env) (n : nat) (p : PlaintextProof) (e : option Z) (m : Records) :
  outcome (result string VaultError) * Records :=
  let key := env_key env n in
  let non := env_nonce env (1 + n) in
  let uuid := env_uuid env (2 + n) in
  if bool_decide (e = Some 0) then
    (Done (Err (InvalidParameter "expires_in_secs must be greater than zero")), m)
  else
    match aead_encrypt key non (proof_data p) with
    | None => (Done (Err DecryptionFailed), m)
    | Some ct =>
        if i64_max <? default 0 e then
          (Done (Err (InvalidParameter "expires_in_secs value is too large")), m)
        else
          match expiry_instant (env_clock env (3 + n)) e with
          | None => (Panicked, m)
          | Some exp =>
              (Done (Ok (claim_encode (MkClaimId uuid key))),
               <[uuid := MkStored (MkEncrypted (vec_to_list non) ct)
                           (env_clock env (match e with Some _ => 4 + n | None => 3 + n end)%nat) exp]> m)
          end
    end.

Definition retrieve_answer (now : Z) (tok : string) (m : Records) :
  outcome (result PlaintextProof VaultError) * Records :=
  match claim_decode tok with
  | Err _ => (Done (Err InvalidClaimId), m)
  | Ok (MkClaimId id key) =>
      match m !! id with
      | None => (Done (Err ProofNotFound), m)
      | Some (MkStored (MkEncrypted non ct) _ _ as r) =>
          if is_expired_at now r then (Done (Err ProofExpired), delete id m)
          else if bool_decide (length non <> 12%nat) then (Done (Err DecryptionFailed), m)
          else match aead_decrypt key (copy_from_slice 12 non) ct with
               | None => (Done (Err DecryptionFailed), m)
               | Some p => (Done (Ok (MkProof p)), delete id m)
               end
      end
  end.

Definition delete_answer (now : Z) (tok : string) (m : Records) :
  outcome (result unit VaultError) * Records :=
  match claim_decode tok with
  | Err _ => (Done (Err InvalidClaimId), m)
  | Ok (MkClaimId id _) =>
      match m !! id with
      | None => (Done (Err ProofNotFound), m)
      | Some r =>
          (Done (if is_expired_at now r then Err ProofExpired else Ok tt), delete id m)
      end
  end.

Definition cleanup_answer (now : Z) (m : Records) :
  outcome (result nat VaultError) * Records :=
  (Done (Ok (size m - size (sweep now m))%nat), sweep now m).
End Specs.

#[global] Arguments expiry_instant : simpl never.
#[global] Arguments is_expired_at : simpl never.

(** ** The methods meet them *)

Section Correct.
Context `{Base64Laws, UuidFmt, AesGcm, Chrono} {S : Type} `{BackendLaws S} (env : Env).
Implicit Types (w : World S) (m : Records).

(** Abbreviations for a run of a vault program. *)
Definition runs {A} (p : prog vaultE A) (w : World S) : outcome A * World S :=
  run (handle env) p w.

Ltac use_law law :=
  let m' := fresh "m'" in let Hr := fresh "Hrep" in let Hp := fresh "Hpost" in
  let Q := fresh "Q" in
  pose proof law as Q;
  match type of Q with
  | exists _, sb_rep ?a.2 _ /\ _ =>
      let s := fresh "s" in let r := fresh "r" in
      destruct a as [r s]; cbn [fst snd] in Q; destruct Q as (m' & Hr & Hp)
  end.

(** The times of the record [store_proof] builds are ones the backend can
    store. *)
Definition store_times_ok (n : nat) (e : option Z) : Prop :=
  sb_time (env_clock env (match e with Some _ => 4 + n | None => 3 + n end)) /\
  forall t, expiry_instant (env_clock env (3 + n)) e = Some (Some t) -> sb_time t.

Ltac finish :=
  eexists; split; [eassumption|]; cbn; first [by eauto 15 | naive_solver].

(** The expiry computation returns, refuses or panics, and touches nothing. *)
Lemma run_expiry {A} e (f : option Z -> prog vaultE (result A VaultError)) w :
  run (handle env) (try_p (expiry e) f) w =
  match e with
  | None => run (handle env) (f None) w
  | Some s =>
      if s <=? i64_max then
        match expiry_instant (env_clock env (w_tick w)) e with
        | Some x => run (handle env) (f x) (tick w)
        | None => (Panicked, tick w)
        end
      else (Done (Err (InvalidParameter "expires_in_secs value is too large")), w)
  end.
Proof.
  unfold expiry, i64_try_from. destruct e as [s|]; [|done].
  destruct (s <=? i64_max); [|done]. unfold expiry_instant; cbn.
  destruct (duration_seconds s) as [d|]; [|done]. cbn.
  by destruct (datetime_add _ d).
Qed.

(** The expiry test: one clock reading at most, no other effect. *)
Lemma run_is_expired {A} r (f : bool -> prog vaultE A) w :
  run (handle env) (is_expired r ≫= f) w =
  run (handle env) (f (is_expired_at (env_clock env (w_tick w)) r))
    (MkWorld (match expires_at r with Some _ => Datatypes.S (w_tick w) | None => w_tick w end)
       (w_store w) (w_log w)).
Proof.
  unfold is_expired. destruct (expires_at r) as [t|] eqn:He; cbn; [done|].
  unfold is_expired_at; rewrite He; cbn. by destruct w.
Qed.

Ltac step_expiry := rewrite run_is_expired; cbn.

(** The expired branch: it answers [ProofExpired] whether or not the record
    could be deleted. *)
Lemma run_reject_expired {A} id what w m :
  sb_rep (w_store w) m ->
  exists w' m', run (handle env) (reject_expired (A := A) id what) w =
      (Done (Err ProofExpired), w') /\
    sb_rep (w_store w') m' /\ (m' = m \/ m' = delete id m).
Proof.
  intros Hm. unfold reject_expired; cbn.
  use_law (sb_delete_law id (w_store w) m Hm).
  destruct r as [b|e]; cbn in *; destruct Hpost; eauto 10.
Qed.

Ltac step_reject :=
  match goal with
  | |- context [run _ (reject_expired (A := ?A) ?id ?what) ?w] =>
      edestruct (run_reject_expired (A := A) id what w) as (? & ? & -> & ? & ?); [eassumption|]
  end.

Lemma run_retrieve w m tok :
  sb_rep (w_store w) m ->
  let '(o, w') := runs (retrieve_proof tok) w in
  exists m', sb_rep (w_store w') m' /\
    retrieve_post (env_clock env (Datatypes.S (w_tick w))) tok m o m'.
Proof.
  intros Hm. unfold runs, retrieve_proof.
  destruct (claim_decode tok) as [c|e] eqn:Hc; cbn.
  2:{ pose proof (decode_err _ _ Hc) as ->. eauto. }
  use_law (sb_fetch_law (record_id c) (w_store w) m Hm).
  destruct r as [r|[]]; cbn; destruct Hpost as [-> Hr];
    try (exists m; split; [done|]; eexists; by eauto).
  step_expiry.
  destruct (is_expired_at _ r) eqn:Hexp.
  { step_reject. finish. }
  destruct (Nat.eqb_spec (length (nonce (encrypted r))) 12) as [Hn|Hn]; cbn; [|finish].
  unfold nonce_from_slice. rewrite (proj2 (Nat.eqb_eq _ _) Hn); cbn.
  destruct (aead_decrypt _ _ _) as [p|] eqn:Hp; cbn; [|finish].
  use_law (sb_delete_law (record_id c) s m Hrep).
  destruct r0 as [b|e]; cbn in *; destruct Hpost; finish.
Qed.

(** The write at the end of [store_proof], under either form of the expiry. *)
Ltac step_insert :=
  match goal with
  | |- context [sb_insert ?id ?r ?s] =>
      let Ht := fresh "Ht" in
      assert (record_times sb_time r) as Ht;
      [split; [done|cbn] | use_law (sb_insert_law id r s _ ltac:(eassumption) Ht)]
  end.

Ltac finish_store :=
  eexists; split; [eassumption|]; cbn; split_and!; try done; try naive_solver;
  eexists; (split; [do 2 eexists; eauto|naive_solver]).

Lemma run_store w m p e :
  sb_rep (w_store w) m -> store_times_ok (w_tick w) e ->
  let '(o, w') := runs (store_proof p e) w in
  exists m', sb_rep (w_store w') m' /\ store_post env (w_tick w) p e m o m'.
Proof.
  intros Hm [Hst Hexp]. unfold runs, store_proof.
  case_bool_decide as He; [cbn; eauto 10|].
  cbn. destruct (aead_encrypt _ _ _) as [ct|] eqn:Hct; cbn; [|finish].
  rewrite run_expiry; cbn. destruct e as [s|].
  - destruct (Z.leb_spec s i64_max) as [Hs|Hs]; [|finish].
    destruct (expiry_instant _ (Some s)) as [x|] eqn:Hx; [|finish].
    cbn in *. step_insert; [destruct x; cbn; naive_solver|].
    destruct r as [[]|err]; cbn in *; finish_store.
  - cbn in *. step_insert; [done|]. destruct r as [[]|err]; cbn in *; finish_store.
Qed.

Lemma run_delete_proof w m tok :
  sb_rep (w_store w) m ->
  let '(o, w') := runs (delete_proof tok) w in
  exists m', sb_rep (w_store w') m' /\
    delete_proof_post (env_clock env (Datatypes.S (w_tick w))) tok m o m'.
Proof.
  intros Hm. unfold runs, delete_proof.
  destruct (claim_decode tok) as [c|e] eqn:Hc; cbn.
  2:{ pose proof (decode_err _ _ Hc) as ->. eauto. }
  use_law (sb_fetch_law (record_id c) (w_store w) m Hm).
  destruct r as [r|[]]; cbn; destruct Hpost as [-> Hr];
    try (exists m; split; [done|]; eexists; by eauto).
  step_expiry.
  destruct (is_expired_at _ r) eqn:Hexp.
  { step_reject. finish. }
  cbn. use_law (sb_delete_law (record_id c) s m Hrep).
  destruct r0 as [b|e]; cbn in *; destruct Hpost as [Hb Hm']; [|finish].
  rewrite Hr in Hb. cbn in Hb. subst b. cbn. finish.
Qed.

Lemma run_cleanup w m :
  sb_rep (w_store w) m -> sb_time (env_clock env (w_tick w)) ->
  let '(o, w') := runs cleanup w in
  exists m', sb_rep (w_store w') m' /\
    cleanup_post (env_clock env (w_tick w)) m o m'.
Proof.
  intros Hm Ht. unfold runs, cleanup; cbn.
  use_law (sb_sweep_law (env_clock env (w_tick w)) (w_store w) m Hm Ht).
  destruct r as [n|e]; cbn in *; [|finish].
  destruct n; cbn; finish.
Qed.

(** ** Without storage failures

    On a healthy backend every operation succeeds, and every call answers
    exactly what its specification computes from the records. *)

(** The run of [p] ends with the answer [a] and the records [m]. *)
Definition gives {A} (p : prog vaultE A) (w : World S) (am : outcome A * Records) : Prop :=
  exists w', runs p w = (am.1, w') /\ sb_rep (w_store w') am.2 /\ sb_healthy (w_store w').

Lemma exact_reject_expired {A} id what w m :
  sb_rep (w_store w) m -> sb_healthy (w_store w) ->
  gives (reject_expired (A := A) id what) w (Done (Err ProofExpired), delete id m).
Proof.
  intros Hm Hh. unfold gives, runs, reject_expired; cbn.
  destruct (delete_healthy_cases id _ m Hm Hh) as (s' & ? & ? & ->); cbn. by eexists.
Qed.

Lemma exact_retrieve w m tok :
  sb_rep (w_store w) m -> sb_healthy (w_store w) ->
  gives (retrieve_proof tok) w (retrieve_answer (env_clock env (1 + w_tick w)) tok m).
Proof.
  intros Hm Hh. unfold gives, runs, retrieve_proof, retrieve_answer.
  destruct (claim_decode tok) as [[id key]|e] eqn:Hc; cbn;
    [|pose proof (decode_err _ _ Hc) as ->; by eexists].
  destruct (fetch_healthy_cases id _ m Hm Hh) as (s & Hm1 & Hh1 & ->); cbn.
  destruct (m !! id) as [r|] eqn:Hr; cbn; [|by eexists]. destruct r as [[non ct] st exp].
  step_expiry. destruct (is_expired_at _ _).
  { by apply exact_reject_expired. }
  unfold nonce_from_slice. destruct (Nat.eqb_spec (length non) 12) as [Hn|Hn]; cbn.
  2:{ rewrite bool_decide_true by done. by eexists. }
  rewrite bool_decide_false by (by intros []).
  destruct (aead_decrypt _ _ _) as [p|]; cbn; [|by eexists].
  destruct (delete_healthy_cases id s m Hm1 Hh1) as (s' & ? & ? & ->); cbn. by eexists.
Qed.

Lemma exact_delete w m tok :
  sb_rep (w_store w) m -> sb_healthy (w_store w) ->
  gives (delete_proof tok) w (delete_answer (env_clock env (1 + w_tick w)) tok m).
Proof.
  intros Hm Hh. unfold gives, runs, delete_proof, delete_answer.
  destruct (claim_decode tok) as [[id key]|e] eqn:Hc; cbn;
    [|pose proof (decode_err _ _ Hc) as ->; by eexists].
  destruct (fetch_healthy_cases id _ m Hm Hh) as (s & Hm1 & Hh1 & ->); cbn.
  destruct (m !! id) as [r|] eqn:Hr; cbn; [|by eexists].
  step_expiry. destruct (is_expired_at _ _).
  { by apply exact_reject_expired. }
  cbn. destruct (delete_healthy_cases id s m Hm1 Hh1) as (s' & ? & ? & ->); cbn.
  rewrite bool_decide_true by (rewrite Hr; eauto). by eexists.
Qed.

Lemma exact_cleanup w m :
  sb_rep (w_store w) m -> sb_healthy (w_store w) -> sb_time (env_clock env (w_tick w)) ->
  gives cleanup w (cleanup_answer (env_clock env (w_tick w)) m).
Proof.
  intros Hm Hh Ht. unfold gives, runs, cleanup, cleanup_answer; cbn.
  destruct (sweep_healthy_cases (env_clock env (w_tick w)) _ m Hm Hh Ht)
    as (s & Hm1 & Hh1 & ->); cbn.
  case_match; cbn; by eexists.
Qed.

Lemma exact_store w m p e :
  sb_rep (w_store w) m -> sb_healthy (w_store w) -> store_times_ok (w_tick w) e ->
  gives (store_proof p e) w (store_answer env (w_tick w) p e m).
Proof.
  intros Hm Hh [Hst Hexp]. unfold gives, runs, store_proof, store_answer.
  case_bool_decide as He; [by eexists|]. cbn.
  destruct (aead_encrypt _ _ _) as [ct|]; cbn; [|by eexists]. rewrite run_expiry; cbn.
  destruct e as [s|]; cbn in *.
  - destruct (Z.leb_spec s i64_max), (Z.ltb_spec i64_max s); try lia; [|by eexists].
    destruct (expiry_instant _ _) as [x|] eqn:Hx; [|by eexists].
    edestruct insert_healthy_cases as (s' & ? & ? & ->); [done..| |cbn; by eexists].
    split; [done|]. destruct x; cbn; naive_solver.
  - edestruct insert_healthy_cases as (s' & ? & ? & ->); [done..|split; done|cbn; by eexists].
Qed.
End Correct.
