(* ===== verification/Calls.v ===== *)
(** Calls on a [StandardVault] as data, run one after the other, and the
    specification of one call: the cases of VaultSpec.v under one roof. *)
From S2P Require Export VaultSpec.

(** ** Calls and replies *)

Inductive Request : Type :=
| RStore (p : PlaintextProof) (expires_in_secs : option Z)
| RRetrieve (tok : string)
| RDelete (tok : string)
| RCleanup.

Inductive Reply : Type :=
| StoreReply (o : outcome (result string VaultError))
| RetrieveReply (o : outcome (result PlaintextProof VaultError))
| DeleteReply (o : outcome (result unit VaultError))
| CleanupReply (o : outcome (result nat VaultError)).

Section Serve.
Context `{Base64, UuidFmt, AesGcm, Chrono} {S : Type} `{StorageBackend S} (env : Env).

(** One call, run to completion. *)
Definition serve (q : Request) (w : World S) : Reply * World S :=
  match q with
  | RStore p e => let (o, w') := run (handle env) (store_proof p e) w in (StoreReply o, w')
  | RRetrieve t => let (o, w') := run (handle env) (retrieve_proof t) w in (RetrieveReply o, w')
  | RDelete t => let (o, w') := run (handle env) (delete_proof t) w in (DeleteReply o, w')
  | RCleanup => let (o, w') := run (handle env) cleanup w in (CleanupReply o, w')
  end.

(** Calls one after the other. *)
Fixpoint serve_all (qs : list Request) (w : World S) : list Reply * World S :=
  match qs with
  | [] => ([], w)
  | q :: qs' =>
      let (a, w1) := serve q w in
      let (rs, w2) := serve_all qs' w1 in (a :: rs, w2)
  end.

Lemma serve_tick q w : (w_tick w <= w_tick (serve q w).2)%nat.
Proof.
  destruct q as [p e|t|t|]; cbn [serve];
    match goal with
    | |- context [run ?h ?p w] =>
        pose proof (run_tick env p w) as Ht; by destruct (run h p w)
    end.
Qed.

Lemma serve_all_tick qs w : (w_tick w <= w_tick (serve_all qs w).2)%nat.
Proof.
  revert w. induction qs as [|q qs IH]; intros w; cbn; [done|].
  pose proof (serve_tick q w). destruct (serve q w) as [a w1]; cbn in *.
  specialize (IH w1). destruct (serve_all qs w1) as [rs w2]; cbn in *. lia.
Qed.
End Serve.

(** ** The specification of a call *)

Section CallSpec.
Context `{Base64Laws, UuidFmt, AesGcm, Chrono} {S : Type} `{BackendLaws S} (env : Env).
Implicit Types (w : World S) (m : Records).

(** A call begun at tick [n]. *)
Definition call_post (n : nat) (q : Request) (m : Records) (a : Reply) (m' : Records) : Prop :=
  match q, a with
  | RStore p e, StoreReply o => store_post env n p e m o m'
  | RRetrieve tok, RetrieveReply o => retrieve_post (env_clock env (1 + n)) tok m o m'
  | RDelete tok, DeleteReply o => delete_proof_post (env_clock env (1 + n)) tok m o m'
  | RCleanup, CleanupReply o => cleanup_post (env_clock env n) m o m'
  | _, _ => False
  end.

(** The instants a call may write are ones the backend stores. *)
Definition call_ok (q : Request) : Prop :=
  match q with
  | RStore _ e => forall n t,
      expiry_instant (env_clock env n) e = Some (Some t) -> sb_time t
  | _ => True
  end.

Lemma serve_post q w m :
  (forall n, sb_time (env_clock env n)) -> sb_rep (w_store w) m -> call_ok q ->
  exists m', sb_rep (w_store (serve env q w).2) m' /\
    call_post (w_tick w) q m (serve env q w).1 m' /\
    (w_tick w <= w_tick (serve env q w).2)%nat.
Proof.
  intros Hclock Hm Hq.
  assert (Htick : forall A (p : prog vaultE A), (w_tick w <= w_tick (run (handle env) p w).2)%nat)
    by (intros; apply run_tick).
  destruct q as [p e|tok|tok|]; cbn [serve call_ok] in *.
  - pose proof (run_store env w m p e Hm ltac:(split; [done|by apply Hq])) as Hrun.
    specialize (Htick _ (store_proof p e)). unfold runs in Hrun.
    destruct (run _ _ w) as [o w']. destruct Hrun as (m' & ? & ?). by exists m'.
  - pose proof (run_retrieve env w m tok Hm) as Hrun.
    specialize (Htick _ (retrieve_proof tok)). unfold runs in Hrun.
    destruct (run _ _ w) as [o w']. destruct Hrun as (m' & ? & ?). by exists m'.
  - pose proof (run_delete_proof env w m tok Hm) as Hrun.
    specialize (Htick _ (delete_proof tok)). unfold runs in Hrun.
    destruct (run _ _ w) as [o w']. destruct Hrun as (m' & ? & ?). by exists m'.
  - pose proof (run_cleanup env w m Hm (Hclock _)) as Hrun.
    specialize (Htick _ cleanup). unfold runs in Hrun.
    destruct (run _ _ w) as [o w']. destruct Hrun as (m' & ? & ?). by exists m'.
Qed.

(** *** Without storage failures: the reply and the records, computed *)
Definition call_answer (n : nat) (q : Request) (m : Records) : Reply * Records :=
  match q with
  | RStore p e => prod_map StoreReply id (store_answer env n p e m)
  | RRetrieve tok => prod_map RetrieveReply id (retrieve_answer (env_clock env (1 + n)) tok m)
  | RDelete tok => prod_map DeleteReply id (delete_answer (env_clock env (1 + n)) tok m)
  | RCleanup => prod_map CleanupReply id (cleanup_answer (env_clock env n) m)
  end.

Lemma serve_answer q w m :
  (forall n, sb_time (env_clock env n)) -> sb_rep (w_store w) m ->
  sb_healthy (w_store w) -> call_ok q ->
  (serve env q w).1 = (call_answer (w_tick w) q m).1 /\
  sb_rep (w_store (serve env q w).2) (call_answer (w_tick w) q m).2 /\
  sb_healthy (w_store (serve env q w).2).
Proof.
  intros Hclock Hm Hh Hq. destruct q as [p e|tok|tok|]; cbn [serve call_ok call_answer] in *.
  - destruct (exact_store env w m p e Hm Hh ltac:(split; [done|by apply Hq])) as (w' & Hr & ? & ?).
    unfold runs in Hr. by rewrite Hr.
  - destruct (exact_retrieve env w m tok Hm Hh) as (w' & Hr & ? & ?).
    unfold runs in Hr. by rewrite Hr.
  - destruct (exact_delete env w m tok Hm Hh) as (w' & Hr & ? & ?).
    unfold runs in Hr. by rewrite Hr.
  - destruct (exact_cleanup env w m Hm Hh (Hclock _)) as (w' & Hr & ? & ?).
    unfold runs in Hr. by rewrite Hr.
Qed.
End CallSpec.
