(* ===== verification/Escrow.v ===== *)
(** The abstract service a vault provides, an escrow of deposits, as a
    transition relation, and the theorem that sequences of calls on a
    [StandardVault] are runs of the escrow. *)
From S2P Require Export Calls Models.

(** ** The escrow *)

Record Deposit : Type := MkDeposit {
  dep_key : array 32;
  dep_nonce : array 12;
  dep_proof : bytes;
  dep_expires : option Z;
}.

Abbreviation Escrow := (gmap RecordId Deposit).

Definition lapsed (now : Z) (d : Deposit) : bool :=
  from_option (fun t => t <? now) false (dep_expires d).

Definition current (now : Z) (d : Deposit) : bool :=
  from_option (fun t => now <? t) true (dep_expires d).

Section Escrow.
Context `{Base64, UuidFmt, AesGcm, Chrono}.

(** A key other than the deposit's that its sealed form nevertheless opens
    under: a forgery of the cipher's authentication tag. *)
Definition forged (d : Deposit) (key : array 32) (p : bytes) : Prop :=
  key <> dep_key d /\
  exists ct, aead_encrypt (dep_key d) (dep_nonce d) (dep_proof d) = Some ct /\
    aead_decrypt key (dep_nonce d) ct = Some p.

(** What the escrow may answer to a call made when the clock shows [now]. *)
Inductive escrow_step (now : Z) (esc : Escrow) : Request -> Reply -> Escrow -> Prop :=
| es_deposit id key non p e exp :
    e <> Some 0 -> expiry_instant now e = Some exp ->
    escrow_step now esc (RStore p e) (StoreReply (Done (Ok (claim_encode (claim_new id key)))))
      (<[id := MkDeposit key non (proof_data p) exp]> esc)
| es_deposit_refused p e err :
    (match err with
     | InvalidParameter _ => e = Some 0 \/ exists s, e = Some s /\ i64_max < s
     | DecryptionFailed => exists key non, aead_encrypt key non (proof_data p) = None
     | Storage _ => True
     | _ => False
     end) ->
    escrow_step now esc (RStore p e) (StoreReply (Done (Err err))) esc
| es_deposit_unacknowledged id key non p e exp f :
    escrow_step now esc (RStore p e) (StoreReply (Done (Err (Storage f))))
      (<[id := MkDeposit key non (proof_data p) exp]> esc)
| es_deposit_panic p s :
    s <= i64_max -> expiry_instant now (Some s) = None ->
    escrow_step now esc (RStore p (Some s)) (StoreReply Panicked) esc
| es_retrieve tok c d :
    claim_decode tok = Ok c -> esc !! record_id c = Some d ->
    lapsed now d = false -> encryption_key c = dep_key d ->
    escrow_step now esc (RRetrieve tok) (RetrieveReply (Done (Ok (MkProof (dep_proof d)))))
      (delete (record_id c) esc)
| es_retrieve_forged tok c d p :
    claim_decode tok = Ok c -> esc !! record_id c = Some d ->
    lapsed now d = false -> forged d (encryption_key c) p ->
    escrow_step now esc (RRetrieve tok) (RetrieveReply (Done (Ok (MkProof p))))
      (delete (record_id c) esc)
| es_retrieve_wrong_key tok c d :
    claim_decode tok = Ok c -> esc !! record_id c = Some d ->
    lapsed now d = false -> encryption_key c <> dep_key d ->
    escrow_step now esc (RRetrieve tok) (RetrieveReply (Done (Err DecryptionFailed))) esc
| es_delete tok c d :
    claim_decode tok = Ok c -> esc !! record_id c = Some d -> lapsed now d = false ->
    escrow_step now esc (RDelete tok) (DeleteReply (Done (Ok tt))) (delete (record_id c) esc)
| es_malformed tok q a :
    claim_decode tok = Err InvalidClaimId ->
    (q = RRetrieve tok /\ a = RetrieveReply (Done (Err InvalidClaimId)) \/
     q = RDelete tok /\ a = DeleteReply (Done (Err InvalidClaimId))) ->
    escrow_step now esc q a esc
| es_absent tok c q a :
    claim_decode tok = Ok c -> esc !! record_id c = None ->
    (q = RRetrieve tok /\ a = RetrieveReply (Done (Err ProofNotFound)) \/
     q = RDelete tok /\ a = DeleteReply (Done (Err ProofNotFound))) ->
    escrow_step now esc q a esc
| es_lapsed tok c d q a esc' :
    claim_decode tok = Ok c -> esc !! record_id c = Some d -> lapsed now d = true ->
    (q = RRetrieve tok /\ a = RetrieveReply (Done (Err ProofExpired)) \/
     q = RDelete tok /\ a = DeleteReply (Done (Err ProofExpired))) ->
    (esc' = esc \/ esc' = delete (record_id c) esc) ->
    escrow_step now esc q a esc'
| es_io tok c f q a esc' :
    claim_decode tok = Ok c ->
    (q = RRetrieve tok /\ a = RetrieveReply (Done (Err (Storage f))) \/
     q = RDelete tok /\ a = DeleteReply (Done (Err (Storage f)))) ->
    (esc' = esc \/ esc' = delete (record_id c) esc) ->
    escrow_step now esc q a esc'
| es_sweep n :
    let esc' := filter (fun kd => current now kd.2 = true) esc in
    n = (size esc - size esc')%nat ->
    escrow_step now esc RCleanup (CleanupReply (Done (Ok n))) esc'
| es_sweep_io f esc' :
    (esc' = esc \/ esc' = filter (fun kd => current now kd.2 = true) esc) ->
    escrow_step now esc RCleanup (CleanupReply (Done (Err (Storage f)))) esc'.
End Escrow.

(** ** Refinement *)

Section Refinement.
Context `{Base64Laws, UuidFmt, AesGcmLaws, Chrono} {S : Type} `{BackendLaws S} (env : Env).
Implicit Types (w : World S) (m : Records) (esc : Escrow).

(** A record is the sealed form of a deposit. *)
Definition sealed (d : Deposit) (r : StoredRecord) : Prop :=
  nonce (encrypted r) = vec_to_list (dep_nonce d) /\
  aead_encrypt (dep_key d) (dep_nonce d) (dep_proof d) = Some (ciphertext (encrypted r)) /\
  expires_at r = dep_expires d.

(** The records of the store are the sealed forms of the deposits. *)
Definition represents (esc : Escrow) (m : Records) : Prop := map_Forall2 (fun _ => sealed) esc m.

Definition refines (esc : Escrow) (w : World S) : Prop :=
  exists m, sb_rep (w_store w) m /\ represents esc m.

Lemma represents_lookup esc m id r :
  represents esc m -> m !! id = Some r -> exists d, esc !! id = Some d /\ sealed d r.
Proof.
  intros Hr Hm. specialize (Hr id). rewrite Hm in Hr.
  inversion Hr; subst; eauto.
Qed.

Lemma represents_None esc m id : represents esc m -> m !! id = None -> esc !! id = None.
Proof. intros Hr Hm. specialize (Hr id). rewrite Hm in Hr. by inversion Hr. Qed.

Lemma represents_delete esc m id :
  represents esc m -> represents (delete id esc) (delete id m).
Proof. apply map_Forall2_delete. Qed.

Lemma represents_insert esc m id d r :
  represents esc m -> sealed d r -> represents (<[id := d]> esc) (<[id := r]> m).
Proof. intros. by apply map_Forall2_insert_2. Qed.

Lemma represents_sweep now esc m :
  represents esc m ->
  represents (filter (fun kd => current now kd.2 = true) esc) (sweep now m).
Proof.
  intros Hr id. specialize (Hr id). unfold sweep.
  rewrite !map_lookup_filter. destruct Hr as [d r (? & ? & He)|]; cbn; [|constructor].
  unfold live_at, current. rewrite He.
  destruct (from_option _ _ _); cbn; by constructor.
Qed.

Lemma sealed_lapsed now d r : sealed d r -> is_expired_at now r = lapsed now d.
Proof. intros (_ & _ & He). unfold is_expired_at, lapsed. by rewrite He. Qed.

Lemma sealed_nonce d r : sealed d r -> copy_from_slice 12 (nonce (encrypted r)) = dep_nonce d.
Proof. intros (-> & _ & _). apply copy_vec_to_list. Qed.

Lemma sealed_nonce_length d r : sealed d r -> length (nonce (encrypted r)) = 12%nat.
Proof. intros (-> & _ & _). apply length_vec_to_list. Qed.

(** What opening a sealed record under a key gives. *)
Lemma sealed_open d r key p :
  sealed d r ->
  aead_decrypt key (copy_from_slice 12 (nonce (encrypted r))) (ciphertext (encrypted r)) = Some p ->
  key = dep_key d /\ p = dep_proof d \/ forged d key p.
Proof.
  intros Hs Hp. rewrite (sealed_nonce _ _ Hs) in Hp. destruct Hs as (_ & Hct & _).
  destruct (decide (key = dep_key d)) as [->|Hne].
  - left. apply aead_decrypt_iff in Hct. split; congruence.
  - right. split; [done|]. eauto.
Qed.

Lemma sealed_not_open d r key :
  sealed d r ->
  aead_decrypt key (copy_from_slice 12 (nonce (encrypted r))) (ciphertext (encrypted r)) = None ->
  key <> dep_key d.
Proof.
  intros Hs Hp ->. rewrite (sealed_nonce _ _ Hs) in Hp. destruct Hs as (_ & Hct & _).
  apply aead_decrypt_iff in Hct. congruence.
Qed.

Ltac deposit_of Hr :=
  match goal with
  | Hm : ?m !! _ = Some ?r |- _ =>
      let d := fresh "d" in let Hd := fresh "Hd" in let Hs := fresh "Hs" in
      destruct (represents_lookup _ _ _ _ Hr Hm) as (d & Hd & Hs)
  end.

Lemma refine_retrieve now tok esc m o m' :
  represents esc m -> retrieve_post now tok m o m' ->
  exists esc', represents esc' m' /\
    escrow_step now esc (RRetrieve tok) (RetrieveReply o) esc'.
Proof.
  intros Hr Hp. destruct o as [[[p]|[]]| |]; cbn in Hp; try done; inv_all.
  - deposit_of Hr. rewrite (sealed_lapsed _ _ _ Hs) in *.
    exists (delete (record_id x) esc). split; [by apply represents_delete|].
    destruct (sealed_open d x0 (encryption_key x) p) as [[? ->]|?]; try done.
    + by eapply es_retrieve.
    + by eapply es_retrieve_forged.
  - eexists. split; [done|]. eapply es_absent; eauto using represents_None.
  - deposit_of Hr. rewrite (sealed_lapsed _ _ _ Hs) in *.
    destruct_or?; subst; eexists; (split; [by eauto using represents_delete|]);
      eapply es_lapsed; eauto.
  - deposit_of Hr. rewrite (sealed_lapsed _ _ _ Hs) in *. eexists. split; [done|].
    eapply es_retrieve_wrong_key; eauto.
    destruct_or?; [|by eapply sealed_not_open].
    exfalso. eauto using sealed_nonce_length.
  - eexists. split; [done|]. eapply es_malformed; eauto.
  - destruct_or?; subst; eexists; (split; [by eauto using represents_delete|]);
      eapply es_io; eauto.
Qed.

Lemma refine_delete now tok esc m o m' :
  represents esc m -> delete_proof_post now tok m o m' ->
  exists esc', represents esc' m' /\
    escrow_step now esc (RDelete tok) (DeleteReply o) esc'.
Proof.
  intros Hr Hp. destruct o as [[[]|[]]| |]; cbn in Hp; try done; inv_all.
  - deposit_of Hr. rewrite (sealed_lapsed _ _ _ Hs) in *.
    eexists. split; [by apply represents_delete|]. by eapply es_delete.
  - eexists. split; [done|]. eapply es_absent; eauto using represents_None.
  - deposit_of Hr. rewrite (sealed_lapsed _ _ _ Hs) in *.
    destruct_or?; subst; eexists; (split; [by eauto using represents_delete|]);
      eapply es_lapsed; eauto.
  - eexists. split; [done|]. eapply es_malformed; eauto.
  - destruct_or?; subst; eexists; (split; [by eauto using represents_delete|]);
      eapply es_io; eauto.
Qed.

Lemma represents_size esc m : represents esc m -> size esc = size m.
Proof.
  intros Hr%map_Forall2_dom_L. rewrite <- !(size_dom (D := gset RecordId)). by rewrite Hr.
Qed.

Lemma refine_cleanup now esc m o m' :
  represents esc m -> cleanup_post now m o m' ->
  exists esc', represents esc' m' /\ escrow_step now esc RCleanup (CleanupReply o) esc'.
Proof.
  intros Hr Hp. pose proof (represents_sweep now _ _ Hr) as Hs.
  destruct o as [[n|[]]| |]; cbn in Hp; try done; inv_all.
  - eexists. split; [done|].
    rewrite <- (represents_size _ _ Hr), <- (represents_size _ _ Hs). by apply es_sweep.
  - destruct_or?; subst; eexists; (split; [done|]); apply es_sweep_io; auto.
Qed.

Lemma sealed_record_deposit n p e r :
  sealed_record env n p e r ->
  exists exp, expiry_instant (env_clock env (3 + n)) e = Some exp /\
    sealed (MkDeposit (env_key env n) (env_nonce env (1 + n)) (proof_data p) exp) r.
Proof. intros (ct & exp & Hct & Hexp & ->). exists exp. by split. Qed.

Ltac sealed_deposit :=
  match goal with
  | H : sealed_record _ _ _ _ _ |- _ =>
      let exp := fresh "exp" in let Hexp := fresh "Hexp" in let Hs := fresh "Hs" in
      destruct (sealed_record_deposit _ _ _ _ H) as (exp & Hexp & Hs)
  end.

Lemma refine_store n p e esc m o m' :
  represents esc m -> store_post env n p e m o m' ->
  exists esc', represents esc' m' /\
    escrow_step (env_clock env (3 + n)) esc (RStore p e) (StoreReply o) esc'.
Proof.
  intros Hr Hp. destruct o as [[tok|[]]| |]; cbn in Hp; try done; inv_all.
  - sealed_deposit.
    eexists. split; [by eapply represents_insert|]. by econstructor.
  - eexists. split; [done|]. apply es_deposit_refused. eauto.
  - eexists. split; [done|]. by apply es_deposit_refused.
  - sealed_deposit.
    destruct_or?; subst.
    + eexists. split; [done|]. by apply es_deposit_refused.
    + eexists. split; [by eapply represents_insert|]. econstructor.
  - eexists. split; [done|]. by econstructor.
Qed.

Inductive escrow_run : Escrow -> list Request -> list Reply -> Escrow -> Prop :=
| er_nil esc : escrow_run esc [] [] esc
| er_cons n esc q a esc1 qs rs esc2 :
    escrow_step (env_clock env n) esc q a esc1 -> escrow_run esc1 qs rs esc2 ->
    escrow_run esc (q :: qs) (a :: rs) esc2.

Lemma refine_call n q esc m a m' :
  represents esc m -> call_post env n q m a m' ->
  exists k esc', represents esc' m' /\ escrow_step (env_clock env k) esc q a esc'.
Proof.
  intros Hr Hp. destruct q, a; try done; eexists.
  - by eapply refine_store.
  - by eapply refine_retrieve.
  - by eapply refine_delete.
  - by eapply refine_cleanup.
Qed.

Lemma serve_refines q w esc :
  (forall n, sb_time (env_clock env n)) -> refines esc w -> call_ok env q ->
  exists n esc', escrow_step (env_clock env n) esc q (serve env q w).1 esc' /\
    refines esc' (serve env q w).2.
Proof.
  intros Hclock (m & Hm & Hr) Hq.
  destruct (serve_post env q w m Hclock Hm Hq) as (m' & Hm' & Hp & _).
  destruct (refine_call _ _ _ _ _ _ Hr Hp) as (n & esc' & ? & ?).
  exists n, esc'. split; [done|]. by exists m'.
Qed.

Lemma serve_all_refines qs w esc :
  (forall n, sb_time (env_clock env n)) -> refines esc w -> Forall (call_ok env) qs ->
  exists esc', escrow_run esc qs (serve_all env qs w).1 esc' /\
    refines esc' (serve_all env qs w).2.
Proof.
  intros Hclock. revert w esc. induction qs as [|q qs IH]; intros w esc Hr Hqs; cbn.
  { eexists. split; [constructor|done]. }
  apply Forall_cons in Hqs as [Hq Hqs].
  destruct (serve_refines q w esc Hclock Hr Hq) as (n & esc1 & Hstep & Hr1).
  destruct (serve env q w) as [a w1]; cbn in *.
  destruct (IH w1 esc1 Hr1 Hqs) as (esc2 & Hrun & Hr2).
  destruct (serve_all env qs w1) as [rs w2]; cbn in *.
  exists esc2. split; [by econstructor|done].
Qed.
End Refinement.
