(* ===== verification/VaultTheorems.v ===== *)
(** Properties of the vault over sequences of calls: a stored proof stays
    retrievable, is delivered once, and failed calls change nothing they should
    not. *)
From S2P Require Export Escrow.

(** [names q id]: the call presents a token for the record [id]. *)
Definition names `{Base64} (q : Request) (id : RecordId) : bool :=
  match q with
  | RRetrieve tok | RDelete tok =>
      match claim_decode tok with
      | Ok c => bool_decide (record_id c = id)
      | Err _ => false
      end
  | _ => false
  end.

(** A call that handed out or discarded a proof. *)
Definition succeeded (a : Reply) : bool :=
  match a with
  | RetrieveReply (Done (Ok _)) | DeleteReply (Done (Ok _)) => true
  | _ => false
  end.

Section Sequences.
Context `{Base64Laws, UuidFmt, AesGcmLaws, Chrono} {S : Type} `{BackendLaws S} (env : Env).
Context (clock_ok : forall n, sb_time (env_clock env n)).
Implicit Types (w : World S) (m : Records) (id : RecordId).

(** The UUIDs generated from tick [n] on differ from [id]. *)
Definition fresh_from (n : nat) (id : RecordId) : Prop :=
  forall k, (n <= k)%nat -> env_uuid env k <> id.

Lemma fresh_from_mono n k id : (n <= k)%nat -> fresh_from n id -> fresh_from k id.
Proof. unfold fresh_from. intros ? Hf j Hj. apply Hf. lia. Qed.

Ltac frame Hn :=
  inv_all;
  try match goal with
    | Hc : claim_decode _ = Ok ?c |- _ =>
        unfold names in Hn; rewrite Hc in Hn; apply bool_decide_eq_false in Hn
    end;
  destruct_or?; subst; rewrite ?lookup_delete_ne, ?lookup_insert_ne by done; done.

Lemma retrieve_frame now tok m o m' id :
  retrieve_post now tok m o m' -> names (RRetrieve tok) id = false -> m' !! id = m !! id.
Proof. intros Hp Hn. destruct o as [[p|[]]| |]; cbn in Hp; try done; frame Hn. Qed.

Lemma delete_frame now tok m o m' id :
  delete_proof_post now tok m o m' -> names (RDelete tok) id = false -> m' !! id = m !! id.
Proof. intros Hp Hn. destruct o as [[p|[]]| |]; cbn in Hp; try done; frame Hn. Qed.

Lemma store_frame n p e m o m' id :
  store_post env n p e m o m' -> env_uuid env (2 + n) <> id -> m' !! id = m !! id.
Proof. intros Hp Hn. destruct o as [[t|[]]| |]; cbn in Hp; try done; frame Hn. Qed.

Lemma cleanup_frame now m o m' id :
  cleanup_post now m o m' -> (forall r, m !! id = Some r -> live_at now r = true) ->
  m' !! id = m !! id.
Proof.
  intros Hp Hl. assert (Hs : sweep now m !! id = m !! id).
  { apply option_eq. intros r. rewrite lookup_sweep. naive_solver. }
  destruct o as [[n|[]]| |]; cbn in Hp; try done; inv_all; [done|].
  by destruct_or?; subst.
Qed.

(** A call that leaves the record of [id] as it is, in every run that ends by
    tick [N]. *)
Definition spares (N : nat) (q : Request) (m : Records) (id : RecordId) : Prop :=
  names q id = false /\
  (q = RCleanup -> forall n r, (n <= N)%nat -> m !! id = Some r ->
     live_at (env_clock env n) r = true).

Lemma call_frame N n q m a m' id :
  call_post env n q m a m' -> fresh_from n id -> (n <= N)%nat -> spares N q m id ->
  m' !! id = m !! id.
Proof.
  intros Hp Hf HN [Hn Hlive]. destruct q, a; try done; cbn [call_post] in Hp.
  - eapply store_frame; [done|]. apply Hf. lia.
  - by eapply retrieve_frame.
  - by eapply delete_frame.
  - eapply cleanup_frame; [done|]. intros r. by apply Hlive.
Qed.

Lemma serve_all_keeps N qs w m id :
  sb_rep (w_store w) m -> Forall (call_ok env) qs -> fresh_from (w_tick w) id ->
  (w_tick (serve_all env qs w).2 <= N)%nat ->
  Forall (fun q => spares N q m id) qs ->
  exists m', sb_rep (w_store (serve_all env qs w).2) m' /\ m' !! id = m !! id /\
    (w_tick w <= w_tick (serve_all env qs w).2)%nat.
Proof.
  revert w m. induction qs as [|q qs IH]; intros w m Hm Hq Hf HN Hs; cbn in *; [eauto|].
  apply Forall_cons in Hq as [Hq Hqs]. apply Forall_cons in Hs as [Hs Hss].
  destruct (serve_post env q w m clock_ok Hm Hq) as (m1 & Hm1 & Hp & Ht1).
  pose proof (serve_all_tick env qs (serve env q w).2) as Htick.
  destruct (serve env q w) as [a w1]; cbn in *.
  destruct (serve_all env qs w1) as [rs w2] eqn:Hrun; cbn in *.
  assert (Hl1 : m1 !! id = m !! id) by (eapply (call_frame N); eauto; lia).
  destruct (IH w1 m1 Hm1 Hqs) as (m2 & Hm2 & Hl2 & Ht2); rewrite ?Hrun; cbn.
  - by eapply fresh_from_mono.
  - done.
  - eapply Forall_impl; [exact Hss|]. intros q' [? Hlive]. split; [done|].
    intros Hq' n r. rewrite Hl1. by apply Hlive.
  - rewrite Hrun in *. exists m2. split_and!; [done|cbn in *; congruence|lia].
Qed.

Ltac same_claim :=
  repeat match goal with
  | H1 : claim_decode ?t = Ok ?c, H2 : claim_decode ?t = ?r |- _ =>
      lazymatch r with
      | Ok c => fail
      | _ => rewrite H1 in H2; simplify_eq
      end
  end.

Ltac clash :=
  match goal with
  | A : _ = Some _, B : _ = None |- _ => discriminate (eq_trans (eq_sym A) B)
  end.

(** A call on a record that is not there: it stays away and nobody is handed
    anything, even when the storage fails. *)
Lemma call_absent n q m a m' id :
  call_post env n q m a m' -> fresh_from n id -> m !! id = None ->
  m' !! id = None /\ (names q id = true -> succeeded a = false).
Proof.
  intros Hp Hf Hm. destruct q as [p e|tok|tok|], a as [o|o|o|o]; try done; cbn [call_post] in Hp.
  - split; [|done]. rewrite <- Hm. eapply store_frame; [done|]. apply Hf. lia.
  - destruct (names (RRetrieve tok) id) eqn:Hn.
    + unfold names in Hn. destruct (claim_decode tok) as [c|] eqn:Hc; [|done].
      apply bool_decide_eq_true in Hn as <-.
      destruct o as [[?|[]]| |]; cbn in Hp |- *; inv_all; same_claim; try clash;
        destruct_or?; subst; by rewrite ?lookup_delete_eq.
    + split; [|done]. rewrite <- Hm. by eapply retrieve_frame.
  - destruct (names (RDelete tok) id) eqn:Hn.
    + unfold names in Hn. destruct (claim_decode tok) as [c|] eqn:Hc; [|done].
      apply bool_decide_eq_true in Hn as <-.
      destruct o as [[?|[]]| |]; cbn in Hp |- *; inv_all; same_claim; try clash;
        destruct_or?; subst; by rewrite ?lookup_delete_eq.
    + split; [|done]. rewrite <- Hm. by eapply delete_frame.
  - split; [|done].
    destruct o as [[?|[]]| |]; cbn in Hp |- *; inv_all; try done;
      destruct_or?; subst; try done; apply lookup_sweep_None; by left.
Qed.

Lemma serve_all_absent qs w m id :
  sb_rep (w_store w) m -> Forall (call_ok env) qs -> fresh_from (w_tick w) id ->
  m !! id = None ->
  Forall2 (fun q a => names q id = true -> succeeded a = false) qs (serve_all env qs w).1.
Proof.
  revert w m. induction qs as [|q qs IH]; intros w m Hm Hq Hf Hn; cbn in *; [constructor|].
  apply Forall_cons in Hq as [Hq Hqs].
  destruct (serve_post env q w m clock_ok Hm Hq) as (m1 & Hm1 & Hp & Ht1).
  destruct (call_absent _ _ _ _ _ _ Hp Hf Hn) as [Hn1 Ha].
  destruct (serve env q w) as [a w1]; cbn in *.
  specialize (IH w1 m1 Hm1 Hqs ltac:(by eapply fresh_from_mono) Hn1).
  destruct (serve_all env qs w1) as [rs w2]; cbn in *. by constructor.
Qed.

(** A call that succeeds on the record of [id] leaves it gone. *)
Lemma success_consumes n q m a m' id :
  call_post env n q m a m' -> names q id = true -> succeeded a = true -> m' !! id = None.
Proof.
  intros Hp Hn Ha.
  destruct q as [p e|tok|tok|], a as [o|o|o|o]; try done;
    unfold names in Hn; destruct o as [[?|?]| |]; try done; cbn in Hp; inv_all;
    match goal with Hc : claim_decode _ = Ok _ |- _ => rewrite Hc in Hn end;
    apply bool_decide_eq_true in Hn as <-; apply lookup_delete_eq.
Qed.

(** The token of a sealed record opens it. *)
Lemma retrieve_answer_sealed n id p e r now m :
  sealed_record env n p e r -> m !! id = Some r -> is_expired_at now r = false ->
  retrieve_answer now (claim_encode (claim_new id (env_key env n))) m =
  (Done (Ok p), delete id m).
Proof.
  intros (ct & exp & Hct & He & ->) Hl Hexp. unfold retrieve_answer.
  rewrite ClaimId.decode_encode. cbn [claim_new]. rewrite Hl, Hexp.
  rewrite bool_decide_false by (rewrite length_vec_to_list; by intros []).
  rewrite copy_vec_to_list. apply aead_decrypt_iff in Hct. rewrite Hct. by destruct p.
Qed.

(** Retrieving the sealed form of a deposit is opening it under the token's
    key. *)
Lemma retrieve_answer_open id key d r now m :
  m !! id = Some r -> sealed d r -> is_expired_at now r = false ->
  retrieve_answer now (claim_encode (claim_new id key)) m =
  match aead_decrypt key (dep_nonce d) (ciphertext (encrypted r)) with
  | Some p => (Done (Ok (MkProof p)), delete id m)
  | None => (Done (Err DecryptionFailed), m)
  end.
Proof.
  intros Hl Hs Hexp. unfold retrieve_answer. rewrite ClaimId.decode_encode. cbn [claim_new].
  rewrite Hl, Hexp. pose proof (sealed_nonce _ _ Hs) as Hn.
  pose proof (sealed_nonce_length _ _ Hs) as Hlen.
  destruct r as [[non ct] st exp]; cbn in *. rewrite Hn.
  by rewrite bool_decide_false by (by intros []).
Qed.

Lemma sealed_decrypt d r :
  sealed d r -> aead_decrypt (dep_key d) (dep_nonce d) (ciphertext (encrypted r)) =
  Some (dep_proof d).
Proof. intros (_ & Hct & _). by apply aead_decrypt_iff. Qed.

Lemma sealed_forged d r key p :
  sealed d r -> key <> dep_key d ->
  aead_decrypt key (dep_nonce d) (ciphertext (encrypted r)) = Some p -> forged d key p.
Proof. intros (_ & Hct & _) Hne Hd. split; [done|]. eauto. Qed.

Lemma retrieve_answer_absent id key now m :
  m !! id = None ->
  retrieve_answer now (claim_encode (claim_new id key)) m = (Done (Err ProofNotFound), m).
Proof. intros Hl. unfold retrieve_answer. rewrite ClaimId.decode_encode. cbn. by rewrite Hl. Qed.

(** A record whose expiry every clock reading up to tick [N] precedes. *)
Definition live_until (N : nat) (r : StoredRecord) : Prop :=
  forall t n, expires_at r = Some t -> (n <= N)%nat -> env_clock env n < t.

Lemma live_until_live N n r :
  live_until N r -> (n <= N)%nat ->
  live_at (env_clock env n) r = true /\ is_expired_at (env_clock env n) r = false.
Proof.
  intros Hl Hn. unfold live_at, is_expired_at. destruct (expires_at r) as [t|] eqn:He; [|done].
  specialize (Hl t n He Hn). cbn. lia.
Qed.
End Sequences.
