(* ===== verification/Samples.v ===== *)
(** Concrete inputs for the witnesses: an environment, a proof, its tokens, and
    the reference backend before and after the proof is stored. *)
From S2P Require Export VaultTheorems.

Module Sample.
Definition id1 : RecordId := vreplicate 16 Byte.x01.
Definition id2 : RecordId := vreplicate 16 Byte.x02.
Definition key1 : array 32 := vreplicate 32 Byte.x2a.
Definition key2 : array 32 := vreplicate 32 Byte.x2b.

(** The clock advances by a nanosecond per effect from 2023-11-14T22:13:20Z;
    the first call to [store_proof] draws [id1], later ones [id2]. *)
Definition env : Env := {|
  env_clock n := 1700000000 * nanos_per_sec + Z.of_nat n;
  env_key _ := key1;
  env_nonce _ := vreplicate 12 Byte.x07;
  env_uuid n := if (n =? 2)%nat then id1 else id2;
|}.

Definition proof : PlaintextProof := MkProof (as_bytes "attestation").
Definition world : World MapStore := MkWorld 0 (MkMapStore ∅) [].
Definition token : string := claim_encode (claim_new id1 key1).
Definition wrong_token : string := claim_encode (claim_new id1 key2).

(** The world after one proof with a lifetime of an hour was stored. *)
Definition stored_world : World MapStore := (serve env (RStore proof (Some 3600)) world).2.
Definition stored_records : Records := map_records (w_store stored_world).

Definition sample_record : StoredRecord :=
  default (MkStored (MkEncrypted [] []) 0 None) (stored_records !! id1).

Definition sample_deposit : Deposit :=
  MkDeposit key1 (env_nonce env 1) (proof_data proof) (expires_at sample_record).

(** Two keys the stand-in cipher's checksum does not tell apart. *)
Definition key3 : array 32 := vinsert 0%fin Byte.x2d (vinsert 1%fin Byte.x29 key1).
Definition env3 : Env := MkEnv (env_clock env) (fun _ => key3) (env_nonce env) (env_uuid env).

(** A clock that stands still at the expiry of the sample record. *)
Definition frozen_env : Env :=
  MkEnv (fun _ => 1700003600 * nanos_per_sec + 3) (env_key env) (env_nonce env) (env_uuid env).

Lemma fresh n : (2 < n)%nat -> fresh_from env n id1.
Proof.
  intros Hn k Hk. cbn. destruct (Nat.eqb_spec k 2); [lia|].
  by apply (bool_decide_unpack _).
Qed.

Lemma sample_times : forall n, sb_time (S := MapStore) (env_clock env n).
Proof. done. Defined.

Lemma sample_calls_ok qs : Forall (call_ok (S := MapStore) env) qs.
Proof. apply Forall_forall. by intros [] _. Defined.

Lemma sample_rep : sb_rep (w_store world) ∅.
Proof. done. Defined.

Lemma stored_rep : sb_rep (w_store stored_world) stored_records.
Proof. done. Defined.

Lemma sample_refines : refines ∅ world.
Proof. exists ∅. split; [done|]. apply map_Forall2_empty. Defined.
End Sample.
