(* ===== verification/Concurrent.v ===== *)
(** Calls on one vault running concurrently, interleaved at every effect: what
    the storage guarantees across interleavings, and what it does not. *)
From S2P Require Export Traces VaultTheorems.

(** ** Calls as threads *)

Section Threads.
Context `{Base64, UuidFmt, AesGcm, Chrono}.

Definition call_prog (q : Request) : prog vaultE Reply :=
  match q with
  | RStore p e => (fun r => StoreReply (Done r)) <$> store_proof p e
  | RRetrieve tok => (fun r => RetrieveReply (Done r)) <$> retrieve_proof tok
  | RDelete tok => (fun r => DeleteReply (Done r)) <$> delete_proof tok
  | RCleanup => (fun r => CleanupReply (Done r)) <$> cleanup
  end.
End Threads.

(** ** Tactics for programs effect by effect

    Walks a program to its ends. *)
Ltac walk :=
  repeat first
    [ done
    | progress cbn
    | split; [done|]
    | progress intros
    | match goal with
      | |- context [match ?x with _ => _ end] => destruct x
      end ].

(** Consumes the next effect of a completed program. *)
Ltac next H :=
  let ev := fresh "ev" in let tr := fresh "tr" in let x := fresh "x" in
  cbn in H;
  match type of H with
  | completes _ ?t _ => idtac
  | match ?t with [] => _ | _ => _ end => destruct t as [|ev tr]; [done|]; destruct H as (x & -> & H)
  end.

(** A completed [Ret] that did not return this answer. *)
Ltac ends H :=
  cbn in H; match type of H with match ?t with [] => _ | _ => _ end => by destruct t end.

(** ** Events on a record *)

(** A deletion of [id] that reports it was there. *)
Definition deletes (id : RecordId) (ev : event vaultE) : bool :=
  match ev with
  | Ev e x =>
      match e in vaultE X return X -> bool with
      | StDelete i => fun x => match x with Ok b => b && bool_decide (i = id) | Err _ => false end
      | _ => fun _ => false
      end x
  end.

(** A deletion of [id] that did not fail. *)
Definition clears (id : RecordId) (ev : event vaultE) : bool :=
  match ev with
  | Ev e x =>
      match e in vaultE X return X -> bool with
      | StDelete i => fun x => match x with Ok _ => bool_decide (i = id) | Err _ => false end
      | _ => fun _ => false
      end x
  end.

(** A fetch of [id] that found it. *)
Definition finds (id : RecordId) (ev : event vaultE) : bool :=
  match ev with
  | Ev e x =>
      match e in vaultE X return X -> bool with
      | StFetch i => fun x => match x with Ok _ => bool_decide (i = id) | Err _ => false end
      | _ => fun _ => false
      end x
  end.

(** ** Histories

    The effects of calls on the records, as the storage contract has them, when
    the clock shows [clocks]. *)
Definition vault_step (clocks : Z -> Prop) (m : Records) (ev : event vaultE) (m' : Records) : Prop :=
  match ev with
  | Ev e x =>
      match e in vaultE X return X -> Prop with
      | StInsert id r => fun x => insert_post id r m x m'
      | StFetch id => fun x => fetch_post id m x m'
      | StDelete id => fun x => delete_post id m x m'
      | StDeleteExpired => fun x => exists now, clocks now /\ sweep_post now m x m'
      | _ => fun _ => m' = m
      end x
  end.

(** The effects of several threads, in order, take the records [m] to [m']. *)
Abbreviation history clocks := (serial (fun _ => vault_step clocks)).

(** [clocks] is what the clock may show, [time_ok] the instants a store keeps,
    [avoid] the record ids no new record gets. *)
Section Discipline.
Context `{Base64Laws, UuidFmt, AesGcmLaws, Chrono}.
Context (clocks time_ok : Z -> Prop) (clock_ok : forall t, clocks t -> time_ok t).
Context (avoid : RecordId -> Prop).
Implicit Types (m : Records).

(** The instants a call may write are ones the store keeps. *)
Definition call_times (q : Request) : Prop :=
  match q with
  | RStore _ e => forall now t,
      clocks now -> expiry_instant now e = Some (Some t) -> time_ok t
  | _ => True
  end.

(** Answers of the environment: its clock, and UUIDs not to avoid. *)
Definition fair_answer : forall X, vaultE X -> X -> Prop := fun X e =>
  match e in vaultE X return X -> Prop with
  | UtcNow => fun t => clocks t
  | NewV4 => fun u => ~ avoid u
  | _ => fun _ => True
  end.

(** Effects that write only storable instants, under other ids. *)
Definition spares_id : forall X, vaultE X -> Prop := fun X e =>
  match e with
  | StInsert i r => ~ avoid i /\ record_times time_ok r
  | _ => True
  end.

Definition disciplined {A} (p : prog vaultE A) : Prop := within fair_answer spares_id p.

Lemma expiry_disciplined {A} e (f : option Z -> prog vaultE (result A VaultError)) :
  (forall x, (forall t, x = Some t -> exists now, clocks now /\ expiry_instant now e = Some (Some t)) ->
     disciplined (f x)) ->
  disciplined (try_p (expiry e) f).
Proof.
  intros Hf. unfold expiry. destruct e as [s|]; cbn; [|by apply Hf].
  destruct (i64_try_from s) as [secs|] eqn:Hs; cbn; [|done].
  apply i64_try_from_Some in Hs as ->.
  split; [done|]. intros now Hnow.
  destruct (duration_seconds s) as [d|] eqn:Hd; cbn; [|done].
  destruct (datetime_add _ d) as [t|] eqn:Ht; cbn; [|done].
  apply Hf. intros ? [= <-]. exists now. unfold expiry_instant. rewrite Hd; cbn. by rewrite Ht.
Qed.

Lemma store_disciplined p e : call_times (RStore p e) -> disciplined (store_proof p e).
Proof.
  intros Hok. unfold store_proof. case_bool_decide; [done|]. cbn.
  split; [done|]. intros key _. split; [done|]. intros non _.
  destruct (aead_encrypt _ _ _) as [ct|]; cbn; [|done].
  split; [done|]. intros uuid Huuid. apply expiry_disciplined. intros x Hx. cbn.
  split; [done|]. intros now Hnow. split.
  - split; [done|]. split; cbn; [by apply clock_ok|]. destruct x as [t|]; cbn; [|done].
    destruct (Hx t eq_refl) as (k & Hk & He). by eapply Hok.
  - intros [[]|err] _; cbn; done.
Qed.

(** The other calls write no record. *)
Definition no_insert : forall X, vaultE X -> Prop := fun X e =>
  match e with StInsert _ _ => False | _ => True end.

Abbreviation only_reads := (within fair_answer no_insert).

Lemma reject_reads {A} i what : only_reads (reject_expired (A := A) i what).
Proof. unfold reject_expired. walk. Qed.

Lemma is_expired_reads r : only_reads (is_expired r).
Proof. unfold is_expired. walk. Qed.

Lemma retrieve_reads tok : only_reads (retrieve_proof tok).
Proof.
  unfold retrieve_proof. destruct (claim_decode tok) as [c|]; cbn; [|done].
  split; [done|]. intros [r|e] _; cbn; [|done]. apply within_bind; [apply is_expired_reads|].
  intros []; [apply reject_reads|]. unfold nonce_from_slice. walk.
Qed.

Lemma delete_reads tok : only_reads (delete_proof tok).
Proof.
  unfold delete_proof. destruct (claim_decode tok) as [c|]; cbn; [|done].
  split; [done|]. intros [r|e] _; cbn; [|done]. apply within_bind; [apply is_expired_reads|].
  intros []; [apply reject_reads|]. walk.
Qed.

Lemma cleanup_reads : only_reads cleanup.
Proof. unfold cleanup. walk. Qed.

(** So a call keeps to effects of a kind when [store_proof] does. *)
Lemma call_within (P : forall X, vaultE X -> Prop) q :
  (forall X e, no_insert X e -> P X e) ->
  (forall p e, q = RStore p e -> within fair_answer P (store_proof p e)) ->
  within fair_answer P (call_prog q).
Proof.
  intros HP Hs. destruct q as [p e|tok|tok|]; (apply within_bind; [|done]).
  - by apply Hs.
  - by eapply within_mono, retrieve_reads.
  - by eapply within_mono, delete_reads.
  - by eapply within_mono, cleanup_reads.
Qed.

Lemma call_disciplined q : call_times q -> disciplined (call_prog q).
Proof.
  intros Hq. apply call_within.
  - by intros X [].
  - intros p e ->. by apply store_disciplined.
Qed.

Lemma calls_disciplined qs : Forall call_times qs -> Forall disciplined (call_prog <$> qs).
Proof. intros Hqs. apply Forall_fmap. eapply Forall_impl; [exact Hqs|]. apply call_disciplined. Qed.

(** *** Panics

    A call panics only on a lifetime that takes the expiry out of range. *)
Definition out_of_range (q : Request) : Prop :=
  match q with
  | RStore _ (Some s) => exists now, clocks now /\ expiry_instant now (Some s) = None
  | _ => False
  end.

Abbreviation panics_if := (panics_only fair_answer).

Ltac stroll :=
  repeat first
    [ done
    | progress cbn
    | progress intros
    | match goal with
      | |- context [match ?x with _ => _ end] => destruct x eqn:?
      end ].

Lemma store_panics p e : panics_if (out_of_range (RStore p e)) (store_proof p e).
Proof.
  unfold store_proof. case_bool_decide; [done|]. cbn. intros key _ non _.
  destruct (aead_encrypt _ _ _) as [ct|]; cbn; [|done]. intros uuid _.
  unfold expiry. destruct e as [s|]; cbn; [|by intros ? _ [[]|err] _].
  destruct (i64_try_from s) as [secs|] eqn:Hs; cbn; [|done].
  apply i64_try_from_Some in Hs as ->.
  intros now Hnow. destruct (duration_seconds s) as [d|] eqn:Hd; cbn.
  - destruct (datetime_add now d) as [t|] eqn:Ht; cbn; [by intros ? _ [[]|err] _|].
    exists now. split; [done|]. unfold expiry_instant. rewrite Hd; cbn. by rewrite Ht.
  - exists now. split; [done|]. unfold expiry_instant. by rewrite Hd.
Qed.

Lemma reject_panics {A} P i what : panics_if P (reject_expired (A := A) i what).
Proof. unfold reject_expired. stroll. Qed.

Lemma is_expired_panics P r : panics_if P (is_expired r).
Proof. unfold is_expired. stroll. Qed.

Lemma retrieve_panics tok : panics_if False (retrieve_proof tok).
Proof.
  unfold retrieve_proof. destruct (claim_decode tok) as [c|]; cbn; [|done].
  intros [r|e] _; cbn; [|done]. apply panics_only_bind; [apply is_expired_panics|].
  intros []; [apply reject_panics|]. unfold nonce_from_slice. destruct (_ =? _)%nat; stroll.
Qed.

Lemma delete_panics tok : panics_if False (delete_proof tok).
Proof.
  unfold delete_proof. destruct (claim_decode tok) as [c|]; cbn; [|done].
  intros [r|e] _; cbn; [|done]. apply panics_only_bind; [apply is_expired_panics|].
  intros []; [apply reject_panics|]. stroll.
Qed.

Lemma call_panics q : panics_if (out_of_range q) (call_prog q).
Proof.
  destruct q; apply panics_only_bind; try done.
  - apply store_panics.
  - apply retrieve_panics.
  - apply delete_panics.
  - unfold cleanup. stroll.
Qed.

(** *** A record along a history *)

Definition spares_event (ev : event vaultE) : Prop :=
  match ev with Ev e _ => spares_id _ e end.

Lemma deletes_clears id ev : deletes id ev = true -> clears id ev = true.
Proof. destruct ev as [X e x]. destruct e; try done. cbn. destruct x; [|done]. intros ?%andb_prop. naive_solver. Qed.

Lemma step_record id ev m m1 :
  avoid id -> vault_step clocks m ev m1 -> spares_event ev ->
  (deletes id ev = true -> is_Some (m !! id)) /\
  (clears id ev = true -> m1 !! id = None) /\
  (m !! id = None -> m1 !! id = None /\ finds id ev = false).
Proof.
  intros Hid. destruct ev as [X e x].
  destruct e as [| | | |i r|i|i| |l]; cbn; intros Hp Hs; try by subst.
  - destruct Hs as [Hi Ht]. assert (i <> id) by congruence.
    split_and!; [done..|]. intros Hn. split; [|done]. unfold insert_post in Hp.
    case_match; [|destruct Hp as [_ [->| ->]]]; subst; rewrite ?lookup_insert_ne; done.
  - destruct Hp as [-> Hr]. split_and!; [done..|]. intros Hn. split; [done|].
    case_match; [|done]. apply bool_decide_eq_false. intros ->. congruence.
  - unfold delete_post in Hp. destruct x as [b|err].
    + destruct Hp as [-> ->]. split_and!.
      * intros [Hb Hi]%andb_prop. apply bool_decide_eq_true in Hb, Hi. by subst.
      * intros Hi%bool_decide_eq_true. subst. apply lookup_delete_eq.
      * intros Hn. split; [|done]. apply lookup_delete_None. by right.
    + split_and!; [done..|]. intros Hn. split; [|done].
      destruct Hp as [_ [->| ->]]; [done|]. apply lookup_delete_None. by right.
  - destruct Hp as (now & _ & Hp). split_and!; [done..|]. intros Hn. split; [|done].
    assert (sweep now m !! id = None) by (apply lookup_sweep_None; by left).
    unfold sweep_post in Hp. case_match; [destruct Hp as [-> _]|destruct Hp as [_ [->| ->]]]; done.
Qed.

Definition deletions (id : RecordId) (tr : list (event vaultE)) : list (event vaultE) :=
  filter (fun ev => deletes id ev = true) tr.

Lemma history_record id m tr m' :
  avoid id -> history clocks m tr m' -> Forall spares_event tr.*2 ->
  (length (deletions id tr.*2) <= 1)%nat /\
  (m !! id = None -> m' !! id = None /\ deletions id tr.*2 = [] /\
     Forall (fun ev => finds id ev = false) tr.*2) /\
  (Exists (fun ev => clears id ev = true) tr.*2 -> m' !! id = None).
Proof.
  intros Hid. revert m. induction tr as [|[i ev] tr IH]; intros m; rewrite ?fmap_cons; cbn [serial snd].
  { intros -> _. split_and!; [cbn; lia|done|by intros ?%Exists_nil]. }
  intros (m1 & Hstep & Hser) [Hs Hsp]%Forall_cons.
  destruct (step_record id ev m m1 Hid Hstep Hs) as (Hdel & Hclr & Habs).
  destruct (IH m1 Hser Hsp) as (Hlen & Habs2 & Hclr2). split_and!.
  - unfold deletions in *. rewrite filter_cons. case_decide as Hd; [|done].
    apply deletes_clears, Hclr, Habs2 in Hd as (_ & -> & _). cbn; lia.
  - intros Hn. destruct (Habs Hn) as [Hn1 Hf]. destruct (Habs2 Hn1) as (? & Hnil & ?).
    split_and!; [done| |by constructor].
    unfold deletions in *. rewrite filter_cons_False; [done|]. intros Hd%Hdel. rewrite Hn in Hd. by destruct Hd.
  - intros [Hc|Hc]%Exists_cons; [|by apply Hclr2]. by apply Habs2, Hclr.
Qed.
End Discipline.

(** *** Pools of calls on a backend have histories *)

Section Pools.
Context `{Base64Laws, UuidFmt, AesGcmLaws, Chrono} {S : Type} `{BackendLaws S} (env : Env).
Context (clock_ok : forall n, sb_time (env_clock env n)).
Implicit Types (w : World S) (m : Records).

Definition env_clocks (t : Z) : Prop := exists n, t = env_clock env n.

Lemma env_clocks_ok t : env_clocks t -> sb_time t.
Proof. intros [n ->]. apply clock_ok. Qed.

Lemma call_ok_times q : call_ok env q -> call_times env_clocks sb_time q.
Proof. destruct q; try done. cbn. intros Hq now t [n ->]. apply Hq. Qed.

Lemma calls_ok_disciplined avoid qs :
  Forall (call_ok env) qs -> Forall (disciplined env_clocks sb_time avoid) (call_prog <$> qs).
Proof.
  intros Hqs. apply (calls_disciplined _ _ env_clocks_ok). eapply Forall_impl; [exact Hqs|].
  intros q. apply call_ok_times.
Qed.

Lemma handle_step avoid {X} (e : vaultE X) x w w1 m :
  handle env X e w = Some (x, w1) -> spares_id sb_time avoid X e -> sb_rep (w_store w) m ->
  exists m1, sb_rep (w_store w1) m1 /\ vault_step env_clocks m (Ev e x) m1.
Proof.
  destruct e as [| | | |i r|i|i| |l]; cbn; intros Hx Hs Hm; injection Hx as <- <-; cbn;
    try (by exists m).
  - destruct Hs as [Hi Ht]. by apply sb_insert_law.
  - by apply sb_fetch_law.
  - by apply sb_delete_law.
  - destruct (sb_sweep_law (env_clock env (w_tick w)) _ m Hm (clock_ok _)) as (m1 & Hm1 & Hp).
    exists m1. split; [done|]. eexists. split; [by eexists|done].
Qed.

Lemma accepted_history avoid w (tr : list (nat * event vaultE)) w' m :
  accepted (handle env) w tr.*2 w' -> Forall (spares_event sb_time avoid) tr.*2 ->
  sb_rep (w_store w) m ->
  exists m', sb_rep (w_store w') m' /\ history env_clocks m tr m'.
Proof.
  revert w m. induction tr as [|[i ev] tr IH]; intros w m Hacc Hsp Hm.
  { inversion Hacc. subst. by exists m. }
  cbn in Hacc. inversion Hacc as [|X e x w0 w1 tr0 w2 Hx Hacc']; subst.
  apply Forall_cons in Hsp as [Hs Hsp].
  destruct (handle_step avoid e x w w1 m Hx Hs Hm) as (m1 & Hm1 & Hstep).
  destruct (IH w1 m1 Hacc' Hsp Hm1) as (m' & ? & ?). exists m'. split; [done|]. by exists m1.
Qed.

Lemma handle_fair id X (e : vaultE X) x w w' :
  fresh_from env (w_tick w) id -> spares_id sb_time (eq id) X e -> handle env X e w = Some (x, w') ->
  fresh_from env (w_tick w') id /\ fair_answer env_clocks (eq id) X e x.
Proof.
  intros Hf Hs Hx.
  destruct e; cbn in *; injection Hx as <- <-; cbn;
    (split; [eapply fresh_from_mono; [|exact Hf]; cbn; lia|]); try done; [by eexists|].
  intros Hu. by eapply Hf.
Qed.

(** A run of calls on a backend, as a history. *)
Lemma pool_history {A} id (ps : list (prog vaultE A)) w tr ps' w' m :
  pool_run (handle env) ps w tr ps' w' ->
  Forall (disciplined env_clocks sb_time (eq id)) ps ->
  fresh_from env (w_tick w) id -> sb_rep (w_store w) m ->
  Forall (disciplined env_clocks sb_time (eq id)) ps' /\ fresh_from env (w_tick w') id /\
  Forall (spares_event sb_time (eq id)) tr.*2 /\
  exists m', sb_rep (w_store w') m' /\ history env_clocks m tr m'.
Proof.
  intros Hrun Hps Hf Hm.
  destruct (pool_run_within (handle env) (fun w => fresh_from env (w_tick w) id)
              (fair_answer env_clocks (eq id)) (spares_id sb_time (eq id)) ps w tr ps' w'
              (handle_fair id) Hf Hps Hrun) as (Htr & Hps' & Hf').
  assert (Hsp : Forall (spares_event sb_time (eq id)) tr.*2).
  { apply Forall_fmap. eapply Forall_impl; [exact Htr|]. by intros [i [X e x]]. }
  split_and!; [done..|]. apply pool_run_accepted in Hrun. by eapply accepted_history.
Qed.
End Pools.

(** ** What a successful call has done *)

Section Successes.
Context `{Base64Laws, UuidFmt, AesGcm, Chrono}.

Lemma completes_fmap {A B} (g : A -> B) (p : prog vaultE A) tr b :
  completes (g <$> p) tr b -> exists a, completes p tr a /\ b = g a.
Proof.
  intros (a & tr1 & tr2 & -> & Hp & Hr)%completes_bind. destruct tr2; [|done].
  exists a. by rewrite app_nil_r.
Qed.

Lemma reject_fails {A} i what tr (a : A) :
  ~ completes (reject_expired (A := A) i what) tr (Ok a).
Proof.
  unfold reject_expired. intros Hc. next Hc. destruct x; [|next Hc]; next Hc; ends Hc.
Qed.

Lemma is_expired_no_events {A} r (f : bool -> prog vaultE A) tr a :
  completes (is_expired r ≫= f) tr a -> exists b tr1 tr2,
    tr = tr1 ++ tr2 /\ completes (f b) tr2 a.
Proof. intros (b & tr1 & tr2 & -> & _ & Hf)%completes_bind. by exists b, tr1, tr2. Qed.

Lemma retrieve_events tok tr p :
  completes (retrieve_proof tok) tr (Ok p) -> exists c,
    claim_decode tok = Ok c /\
    Exists (fun ev => finds (record_id c) ev = true) tr /\
    Exists (fun ev => clears (record_id c) ev = true) tr.
Proof.
  unfold retrieve_proof. destruct (claim_decode tok) as [c|e]; [|intros Hc; ends Hc].
  intros Hc. exists c. split; [done|]. next Hc. destruct x as [r|e]; [|ends Hc].
  split; [apply Exists_cons; left; cbn; by apply bool_decide_eq_true|]. apply Exists_cons; right.
  apply is_expired_no_events in Hc as (b & tr1 & tr2 & -> & Hc).
  apply Exists_app; right. destruct b; [by apply reject_fails in Hc|].
  unfold nonce_from_slice in Hc. destruct (Nat.eqb _ 12); cbn in Hc; [|ends Hc].
  destruct (aead_decrypt _ _ _); cbn in Hc; [|ends Hc]. next Hc.
  apply Exists_cons; left. destruct x as [b|e]; [|ends Hc]. cbn. by apply bool_decide_eq_true.
Qed.

Lemma delete_events tok tr :
  completes (delete_proof tok) tr (Ok tt) -> exists c,
    claim_decode tok = Ok c /\
    Exists (fun ev => finds (record_id c) ev = true) tr /\
    Exists (fun ev => deletes (record_id c) ev = true) tr.
Proof.
  unfold delete_proof. destruct (claim_decode tok) as [c|e]; [|intros Hc; ends Hc].
  intros Hc. exists c. split; [done|]. next Hc. destruct x as [r|e]; [|ends Hc].
  split; [apply Exists_cons; left; cbn; by apply bool_decide_eq_true|]. apply Exists_cons; right.
  apply is_expired_no_events in Hc as (b & tr1 & tr2 & -> & Hc).
  apply Exists_app; right. destruct b; [by apply reject_fails in Hc|]. next Hc.
  apply Exists_cons; left. destruct x as [[]|e]; [|ends Hc..]. cbn.
  by apply bool_decide_eq_true.
Qed.

(** A call naming [id] that succeeded found the record and cleared it. *)
Lemma success_events q tr a id :
  completes (call_prog q) tr a -> names q id = true -> succeeded a = true ->
  Exists (fun ev => finds id ev = true) tr /\ Exists (fun ev => clears id ev = true) tr /\
  (forall tok, q = RDelete tok -> Exists (fun ev => deletes id ev = true) tr).
Proof.
  intros Hc Hn Ha. destruct q as [| tok|tok|]; try done;
    apply completes_fmap in Hc as (r & Hc & ->); destruct r as [v|e]; try done;
    unfold names in Hn.
  - apply retrieve_events in Hc as (c & Hd & ? & ?). rewrite Hd in Hn.
    apply bool_decide_eq_true in Hn as <-. split_and!; [done..|]. by intros ? [=].
  - destruct v. apply delete_events in Hc as (c & Hd & ? & He). rewrite Hd in Hn.
    apply bool_decide_eq_true in Hn as <-. split_and!; [done| |done].
    eapply Exists_impl; [exact He|]. intros ev. apply deletes_clears.
Qed.
End Successes.

(** *** Threads and the trace *)

Lemma Exists_thread (P : event vaultE -> Prop) i (tr : list (nat * event vaultE)) :
  Exists P (thread_trace i tr) -> exists ev, (i, ev) ∈ tr /\ P ev.
Proof.
  intros (ev & Hin & HP)%Exists_exists. exists ev. split; [|done].
  apply list_elem_of_fmap in Hin as ([j ev'] & -> & Hin%list_elem_of_filter). by destruct Hin as [<- ?].
Qed.

Lemma Exists_trace (P : event vaultE -> Prop) i (tr : list (nat * event vaultE)) :
  Exists P (thread_trace i tr) -> Exists P tr.*2.
Proof.
  intros (ev & Hin & HP)%Exists_thread. apply Exists_exists. exists ev. split; [|done].
  by apply list_elem_of_fmap; exists (i, ev).
Qed.

(** Events of two threads are two events. *)
Lemma two_threads (P : event vaultE -> Prop) `{forall ev, Decision (P ev)} i j tr :
  i <> j -> Exists P (thread_trace i tr) -> Exists P (thread_trace j tr) ->
  (2 <= length (filter P tr.*2))%nat.
Proof.
  intros Hij (e1 & H1 & HP1)%Exists_thread (e2 & H2 & HP2)%Exists_thread.
  assert (Hlen : length (filter P tr.*2) = length (filter (fun iev => P iev.2) tr)).
  { clear. induction tr as [|[k ev] tr IH]; [done|]. rewrite fmap_cons, !filter_cons; cbn.
    case_decide; cbn; by rewrite IH. }
  rewrite Hlen. assert (Hi1 : (i, e1) ∈ filter (fun iev => P iev.2) tr)
    by (by apply list_elem_of_filter).
  assert (Hi2 : (j, e2) ∈ filter (fun iev => P iev.2) tr) by (by apply list_elem_of_filter).
  destruct (filter _ tr) as [|x [|y l]]; cbn; [by apply elem_of_nil in Hi1| |lia].
  apply list_elem_of_singleton in Hi1, Hi2. congruence.
Qed.

(** *** Successes in histories *)

Section Successful.
Context `{Base64Laws, UuidFmt, AesGcmLaws, Chrono}.
Context (clocks time_ok : Z -> Prop) (id : RecordId).
Abbreviation spares_all tr := (Forall (spares_event time_ok (eq id)) (tr : list (nat * event vaultE)).*2).

(** At most one deletion of [id] succeeds. *)
Lemma history_delete_once m tr m' i j t1 t2 :
  history clocks m tr m' -> spares_all tr -> i <> j ->
  names (RDelete t1) id = true -> names (RDelete t2) id = true ->
  completes (call_prog (RDelete t1)) (thread_trace i tr) (DeleteReply (Done (Ok tt))) ->
  completes (call_prog (RDelete t2)) (thread_trace j tr) (DeleteReply (Done (Ok tt))) -> False.
Proof.
  intros Hh Hsp Hij Hn1 Hn2 H1' H2'.
  destruct (history_record clocks time_ok (eq id) id m tr m' eq_refl Hh Hsp) as (Hlen & _).
  apply (success_events _ _ _ id) in H1' as (_ & _ & Hd1); [|done..].
  apply (success_events _ _ _ id) in H2' as (_ & _ & Hd2); [|done..].
  pose proof (two_threads _ i j tr Hij (Hd1 _ eq_refl) (Hd2 _ eq_refl)).
  unfold deletions in Hlen. lia.
Qed.

(** After a call on [id] has succeeded, none succeeds that had not begun. *)
Lemma history_late m tr1 m1 tr2 m2 i j q1 q2 a1 a2 :
  history clocks m tr1 m1 -> history clocks m1 tr2 m2 -> spares_all tr1 -> spares_all tr2 ->
  names q1 id = true -> names q2 id = true ->
  completes (call_prog q1) (thread_trace i tr1) a1 -> succeeded a1 = true ->
  completes (call_prog q2) (thread_trace j tr2) a2 -> succeeded a2 = false.
Proof.
  intros Hh1 Hh2 Hs1 Hs2 Hn1 Hn2 Hc1 Ha1 Hc2.
  destruct (success_events _ _ _ id Hc1 Hn1 Ha1) as (_ & He1 & _).
  destruct (history_record clocks time_ok (eq id) id m tr1 m1 eq_refl Hh1 Hs1) as (_ & _ & Hclr).
  specialize (Hclr (Exists_trace _ _ _ He1)).
  destruct (history_record clocks time_ok (eq id) id m1 tr2 m2 eq_refl Hh2 Hs2) as (_ & Habs & _).
  destruct (Habs Hclr) as (_ & _ & Hfinds).
  destruct (succeeded a2) eqn:Ha2; [|done].
  destruct (success_events _ _ _ id Hc2 Hn2 Ha2) as (He2 & _).
  apply Exists_trace, Exists_exists in He2 as (ev & Hin & Hev).
  rewrite Forall_forall in Hfinds. by rewrite (Hfinds _ Hin) in Hev.
Qed.
End Successful.

(** *** A retrieval that will succeed, as a thread *)

Section Retrieval.
Context `{Base64Laws, UuidFmt, AesGcmLaws, Chrono}.

(** What is left of a retrieval of [id] once it has decrypted the proof. *)
Definition consume (id : RecordId) (p : bytes) : prog vaultE Reply :=
  (fun r => RetrieveReply (Done r)) <$>
  (_ <-? map_err_p Storage (trigger (StDelete id));
   _ ← vault_log Info ("Proof retrieved and consumed; record_id=" +:+ uuid_simple id);
   Ret (Ok (MkProof p))).

Lemma retrieve_thread id d r :
  sealed d r -> exists k,
    call_prog (RRetrieve (claim_encode (claim_new id (dep_key d)))) = Vis (StFetch id) k /\
    match expires_at r with
    | Some _ => exists k', k (Ok r) = Vis UtcNow k' /\
        forall now, is_expired_at now r = false -> k' now = consume id (dep_proof d)
    | None => k (Ok r) = consume id (dep_proof d)
    end.
Proof.
  intros Hs. cbn [call_prog]. unfold retrieve_proof. rewrite ClaimId.decode_encode.
  pose proof (sealed_nonce _ _ Hs) as Hn. pose proof (sealed_nonce_length _ _ Hs) as Hlen.
  pose proof (sealed_decrypt _ _ Hs) as Hd. eexists. split; [reflexivity|]. cbn.
  unfold is_expired. destruct (expires_at r) as [t|] eqn:Ht; cbn.
  - eexists. split; [reflexivity|]. intros now Hx. cbn. rewrite Hx; cbn.
    unfold nonce_from_slice. rewrite Hlen; cbn. by rewrite Hn, Hd.
  - unfold is_expired_at; rewrite Ht; cbn. unfold nonce_from_slice. rewrite Hlen; cbn.
    by rewrite Hn, Hd.
Qed.
End Retrieval.
