(* ===== verification/Deposits.v ===== *)
(** What a call leaves in its events: the one record a [store_proof] writes, and
    what becomes of a record no call names. *)
From S2P Require Export Concurrent.

(** ** The record a call writes *)

(** The record id an event writes, and the one it drew. *)
Definition written_id (ev : event vaultE) : option RecordId :=
  match ev with Ev e _ => match e with StInsert i _ => Some i | _ => None end end.

Definition drawn_id (ev : event vaultE) : option RecordId :=
  match ev with
  | Ev e x => match e in vaultE X return X -> option RecordId with NewV4 => Some | _ => fun _ => None end x
  end.

Section Writes.
Context `{Base64, UuidFmt, AesGcm, Chrono}.

(** Takes the next event of a trace of a program, if there is one. *)
Ltac more Hl :=
  match type of Hl with
  | leads _ ?t _ =>
      let ev := fresh "ev" in let tr := fresh "tr" in let x := fresh "x" in
      destruct t as [|ev tr]; cbn in Hl;
      [cbn; split; [lia|set_solver]|first [by destruct Hl|destruct Hl as (x & -> & Hl)]]
  end.

(** A [store_proof] writes at most one record, under the id it drew. *)
Lemma store_writes pr e ls q :
  leads (call_prog (RStore pr e)) ls q ->
  (length (omap written_id ls) <= 1)%nat /\
  forall id, id ∈ omap written_id ls -> id ∈ omap drawn_id ls.
Proof.
  cbn [call_prog]. unfold store_proof. intros Hl. case_bool_decide; [more Hl|].
  more Hl. more Hl. destruct (aead_encrypt _ _ _) as [ct|]; [|more Hl].
  more Hl. unfold expiry in Hl. destruct e as [s|].
  - destruct (i64_try_from s) as [secs|]; [|more Hl]. more Hl.
    destruct (duration_seconds secs) as [d|]; [|more Hl].
    destruct (datetime_add _ d) as [t|]; [|more Hl].
    do 2 more Hl. destruct x4; [more Hl|]; more Hl.
  - do 2 more Hl. destruct x3; [more Hl|]; more Hl.
Qed.

(** The other calls write none. *)
Lemma no_insert_writes (ls : list (event vaultE)) :
  Forall (fun ev : event vaultE => match ev with Ev e _ => no_insert _ e end) ls ->
  omap written_id ls = [].
Proof. induction 1 as [|[X e x] ls Hx _ IH]; [done|]. cbn. by destruct e. Qed.

Lemma call_writes q ls q' :
  leads (call_prog q) ls q' ->
  (length (omap written_id ls) <= 1)%nat /\
  forall id, id ∈ omap written_id ls -> id ∈ omap drawn_id ls.
Proof.
  set (any := fun _ : Z => True). set (none := fun _ : RecordId => False).
  assert (Hreads : within (fair_answer any none) no_insert (call_prog q) ->
            leads (call_prog q) ls q' -> omap written_id ls = []).
  { intros Hw Hl. apply no_insert_writes. eapply leads_within; [exact Hw| |exact Hl].
    apply Forall_forall. intros [X e x] _. destruct e; try done. by intros []. }
  destruct q as [pr e|tok|tok|]; [apply store_writes|..]; intros Hl;
    (rewrite Hreads; [split; [cbn; lia|set_solver]| |done]); (apply within_bind; [|done]).
  - apply retrieve_reads.
  - apply delete_reads.
  - apply cleanup_reads.
Qed.

(** The events of a trace written out. *)
Ltac among := repeat first [by left|right].

(** The answer of a completed [Ret]. *)
Ltac returns H :=
  cbn in H; match type of H with match ?t with [] => _ | _ => _ end => destruct t; [|done] end;
  simplify_eq.

(** What a [store_proof] that answered [tok] has done: it drew the id [tok]
    names, sealed the proof under the key [tok] carries, and wrote the record. *)
Lemma store_events pr e tok ls :
  completes (call_prog (RStore pr e)) ls (StoreReply (Done (Ok tok))) ->
  exists id d r,
    tok = claim_encode (claim_new id (dep_key d)) /\ dep_proof d = proof_data pr /\ sealed d r /\
    Ev NewV4 id ∈ ls /\ Ev (StInsert id r) (Ok tt) ∈ ls /\
    match e with
    | Some _ => exists now, Ev UtcNow now ∈ ls /\ expiry_instant now e = Some (dep_expires d)
    | None => dep_expires d = None
    end.
Proof.
  intros (res & Hc & Hres)%completes_fmap. simplify_eq. unfold store_proof in Hc.
  case_bool_decide; [ends Hc|]. next Hc. next Hc.
  destruct (aead_encrypt x x0 (proof_as_bytes pr)) as [ct|] eqn:Hct; [|ends Hc]. next Hc.
  unfold expiry in Hc. destruct e as [s|].
  - destruct (i64_try_from s) as [secs|] eqn:Hs; [|ends Hc]. next Hc.
    apply i64_try_from_Some in Hs as ->.
    destruct (duration_seconds s) as [du|] eqn:Hdu; [|done].
    destruct (datetime_add _ du) as [t|] eqn:Ht; [|done].
    next Hc. next Hc. destruct x4 as [[]|err]; [|ends Hc]. next Hc.
    returns Hc.
    exists x1, (MkDeposit x x0 (proof_data pr) (Some t)),
      (MkStored (MkEncrypted (vec_to_list x0) ct) x3 (Some t)). cbn [dep_key dep_proof dep_expires].
    do 2 (split; [done|]). split; [by split_and!|]. do 2 (split; [among|]).
    exists x2. split; [among|]. unfold expiry_instant. rewrite Hdu; cbn. by rewrite Ht.
  - next Hc. next Hc. destruct x3 as [[]|err]; [|ends Hc]. next Hc.
    returns Hc.
    exists x1, (MkDeposit x x0 (proof_data pr) None),
      (MkStored (MkEncrypted (vec_to_list x0) ct) x2 None). cbn [dep_key dep_proof dep_expires].
    do 2 (split; [done|]). split; [by split_and!|]. by do 2 (split; [among|]).
Qed.
End Writes.

(** ** A record no call names *)

Section Leaves.
Context `{Base64Laws, UuidFmt, AesGcmLaws, Chrono} (id : RecordId).
Abbreviation any_answer := (fun (X : Type) (_ : vaultE X) (_ : X) => True).

(** Effects that do not delete the record. *)
Definition leaves_id : forall X, vaultE X -> Prop := fun X e =>
  match e with StDelete i => i <> id | _ => True end.

Definition leaves_event (ev : event vaultE) : Prop := match ev with Ev e _ => leaves_id _ e end.

Abbreviation leaving := (within any_answer leaves_id).

Lemma store_leaves pr e : leaving (store_proof pr e).
Proof.
  unfold store_proof. case_bool_decide; [done|]. split; [done|]. intros key _.
  split; [done|]. intros non _. cbn.
  destruct (aead_encrypt key non _) as [ct|]; cbn; [|done]. split; [done|]. intros u _.
  unfold expiry. destruct e as [s|]; [|walk].
  destruct (i64_try_from s) as [secs|]; cbn; [|done]. split; [done|]. intros now _.
  destruct (duration_seconds secs) as [d|]; cbn; [|done].
  destruct (datetime_add now d) as [t|]; walk.
Qed.

Lemma reject_leaves {A} i what : i <> id -> leaving (reject_expired (A := A) i what).
Proof. intros Hi. unfold reject_expired. walk. Qed.

Lemma expired_leaves {A} r (f : bool -> prog vaultE A) :
  (forall b, leaving (f b)) -> leaving (is_expired r ≫= f).
Proof. intros Hf. apply within_bind; [|done]. unfold is_expired. walk. Qed.

Lemma call_leaves q : names q id = false -> leaving (call_prog q).
Proof.
  unfold names. intros Hn. destruct q as [pr e|tok|tok|]; (apply within_bind; [|done]).
  - apply store_leaves.
  - unfold retrieve_proof. destruct (claim_decode tok) as [c|]; cbn; [|done].
    apply bool_decide_eq_false in Hn. split; [done|]. intros [r|e] _; cbn; [|done].
    apply expired_leaves. intros []; [by apply reject_leaves|]. unfold nonce_from_slice. walk.
  - unfold delete_proof. destruct (claim_decode tok) as [c|]; cbn; [|done].
    apply bool_decide_eq_false in Hn. split; [done|]. intros [r|e] _; cbn; [|done].
    apply expired_leaves. intros []; [by apply reject_leaves|]. walk.
  - unfold cleanup. walk.
Qed.

Lemma leads_leaves q ls q' :
  names q id = false -> leads (call_prog q) ls q' -> Forall leaves_event ls.
Proof.
  intros Hn Hl. eapply leads_within; [by apply call_leaves| |exact Hl].
  apply Forall_forall. by intros [X e x].
Qed.

Lemma spares_unwritten time_ok ev : spares_event time_ok (eq id) ev -> written_id ev <> Some id.
Proof. destruct ev as [X e x]. destruct e; try done. cbn. intros [Hi _]. congruence. Qed.

(** A record that stays live, and that no event deletes or overwrites, stays. *)
Lemma history_keeps clocks m h m' r :
  history clocks m h m' -> m !! id = Some r -> (forall now, clocks now -> live_at now r = true) ->
  Forall leaves_event h.*2 -> Forall (fun ev => written_id ev <> Some id) h.*2 ->
  m' !! id = Some r.
Proof.
  intros Hh Hm Hlive Hd Hw. revert m Hh Hm. induction h as [|[i [X e x]] h IH]; intros m.
  { by intros ->. }
  rewrite fmap_cons in Hd, Hw. apply Forall_cons in Hd as [Hd Hds], Hw as [Hw Hws].
  intros (m1 & Hstep & Hser) Hm. apply (IH Hds Hws m1 Hser). clear IH Hser.
  destruct e as [| | | |j s|j|j| |l]; cbn in Hstep, Hd, Hw; try by subst.
  - unfold insert_post in Hstep. destruct x; [|destruct Hstep as [_ [->| ->]]]; subst;
      rewrite ?lookup_insert_ne by congruence; done.
  - by destruct Hstep as [-> _].
  - destruct x; [destruct Hstep as [_ ->]|destruct Hstep as [_ [->| ->]]];
      rewrite ?lookup_delete_ne by congruence; done.
  - destruct Hstep as (now & Hnow & Hp).
    assert (Hs : sweep now m !! id = Some r) by (apply lookup_sweep; auto).
    unfold sweep_post in Hp. destruct x; [destruct Hp as [-> _]|destruct Hp as [_ [->| ->]]]; done.
Qed.

(** *** A record of one thread

    When the id is drawn once in a history of calls, nothing writes the record
    after the call that drew it did. *)
Lemma written_once (h1 h2 : list (nat * event vaultE)) k r x :
  let h := h1 ++ (k, Ev (StInsert id r) x) :: h2 in
  (forall j ev, (j, ev) ∈ h -> exists q q', leads (call_prog q) (thread_trace j h) q') ->
  (length (filter (fun ev => drawn_id ev = Some id) h.*2) <= 1)%nat ->
  Forall (fun ev => written_id ev <> Some id) h2.*2.
Proof.
  intros h Hcalls Honce. apply Forall_fmap, Forall_forall. intros [j ev] Hin. cbn. intros Hw.
  assert (Hj : (j, ev) ∈ h) by (apply elem_of_app; right; by right).
  assert (Hk : (k, Ev (StInsert id r) x) ∈ h) by (apply elem_of_app; right; by left).
  assert (Hdrawn : forall i e, (i, e) ∈ h -> written_id e = Some id ->
            Exists (fun ev => drawn_id ev = Some id) (thread_trace i h)).
  { intros i e Hi He. destruct (Hcalls i e Hi) as (q & q' & Hl).
    destruct (call_writes _ _ _ Hl) as [_ Hd]. apply Exists_exists.
    destruct (proj1 (list_elem_of_omap drawn_id _ id)
                (Hd id (proj2 (list_elem_of_omap written_id _ id)
                   (ex_intro _ e (conj (proj2 (elem_of_thread_trace i h e) Hi) He))))) as (ev' & ? & ?).
    by exists ev'. }
  destruct (decide (k = j)) as [<-|Hne].
  - destruct (Hcalls k _ Hk) as (q & q' & Hl). destruct (call_writes _ _ _ Hl) as [Hle _].
    unfold h in Hle. change ((k, Ev (StInsert id r) x) :: h2) with ([(k, Ev (StInsert id r) x)] ++ h2) in Hle.
    rewrite !thread_trace_app, thread_trace_one, !omap_app, !length_app in Hle. cbn in Hle.
    assert (Hid : id ∈ omap written_id (thread_trace k h2)).
    { apply list_elem_of_omap. exists ev. split; [by apply elem_of_thread_trace|done]. }
    destruct (omap written_id (thread_trace k h2)); [by apply elem_of_nil in Hid|]. cbn in Hle. lia.
  - pose proof (two_threads (fun ev => drawn_id ev = Some id) k j h Hne
                  (Hdrawn k _ Hk eq_refl) (Hdrawn j ev Hj Hw)). lia.
Qed.

(** *** A call that succeeded

    Its first event found the record. *)
Lemma success_first q tr a :
  completes (call_prog q) tr a -> names q id = true -> succeeded a = true ->
  exists ev tr', tr = ev :: tr' /\ finds id ev = true.
Proof.
  intros Hc Hn Ha. destruct q as [| tok|tok|]; try done;
    apply completes_fmap in Hc as (res & Hc & ->); destruct res as [v|e]; try done;
    unfold names in Hn; unfold retrieve_proof, delete_proof in Hc;
    (destruct (claim_decode tok) as [c|e]; [|done]); next Hc; (destruct x as [r|e]; [|ends Hc]);
    by eexists _, _.
Qed.

Lemma unwritten_spares ev :
  written_id ev <> Some id -> spares_event (fun _ => True) (eq id) ev.
Proof.
  destruct ev as [X e x]. destruct e as [| | | |i r|i|i| |l]; try done. cbn. intros Hi.
  split; [congruence|]. split; [done|]. by destruct (expires_at r).
Qed.

(** A record that is not there, and is written at most once in a history, is
    gone after a call on it has succeeded, and was written in the history. *)
Lemma history_consumed clocks m h m' i q a :
  history clocks m h m' -> m !! id = None ->
  (forall j ev, (j, ev) ∈ h -> exists q q', leads (call_prog q) (thread_trace j h) q') ->
  (length (filter (fun ev => drawn_id ev = Some id) h.*2) <= 1)%nat ->
  completes (call_prog q) (thread_trace i h) a -> names q id = true -> succeeded a = true ->
  m' !! id = None /\ Exists (fun ev => drawn_id ev = Some id) h.*2.
Proof.
  intros Hh Hm Hcalls Honce Hc Hn Ha.
  destruct (success_first q _ a Hc Hn Ha) as (ev & tr & Hfirst & Hfind).
  destruct (success_events q _ a id Hc Hn Ha) as (_ & Hclr & _).
  set (writes := fun x : nat * event vaultE => written_id x.2 = Some id).
  destruct (decide (Exists writes h)) as [Hw|Hw].
  2:{ exfalso. apply not_Exists_Forall in Hw; [|apply _].
      destruct (history_record clocks (fun _ => True) (eq id) id m h m' eq_refl Hh) as (_ & Habs & _).
      { apply Forall_fmap. eapply Forall_impl; [exact Hw|]. intros [j e]. apply unwritten_spares. }
      destruct (Habs Hm) as (_ & _ & Hf). rewrite Forall_forall in Hf.
      assert (Hin : ev ∈ h.*2) by (apply (thread_trace_in i); rewrite Hfirst; by left).
      by rewrite (Hf _ Hin) in Hfind. }
  destruct (first_split writes h Hw) as (h1 & [k e] & h2 & -> & Hh1 & He).
  assert (exists r x, e = Ev (StInsert id r) x) as (r & x & ->).
  { destruct e as [X e x]. unfold writes in He. destruct e; try done. cbn in He. simplify_eq. eauto. }
  clear He Hw. pose proof Hh as (m1 & Hs1 & m2 & _ & Hs2)%serial_app.
  destruct (history_record clocks (fun _ => True) (eq id) id m h1 m1 eq_refl Hs1) as (_ & Habs & _).
  { apply Forall_fmap. eapply Forall_impl; [exact Hh1|]. intros [j e]. apply unwritten_spares. }
  destruct (Habs Hm) as (_ & _ & Hf).
  assert (Hti : thread_trace i (h1 ++ (k, Ev (StInsert id r) x) :: h2) = thread_trace i h2).
  { change ((k, Ev (StInsert id r) x) :: h2) with ([(k, Ev (StInsert id r) x)] ++ h2) in *.
    rewrite !thread_trace_app in Hfirst |- *.
    destruct (thread_trace i h1) as [|ev' l] eqn:Hl1; cbn [app] in Hfirst |- *.
    - destruct (decide (k = i)) as [->|Hne]; [|by rewrite thread_trace_other].
      rewrite thread_trace_one in Hfirst. injection Hfirst as <- _. done.
    - simplify_eq/=. rewrite Forall_forall in Hf. rewrite Hf in Hfind; [done|].
      apply (thread_trace_in i). rewrite Hl1. by left. }
  rewrite Hti in Hclr. split.
  - destruct (history_record clocks (fun _ => True) (eq id) id m2 h2 m' eq_refl Hs2) as (_ & _ & Hrec).
    { eapply Forall_impl; [by eapply written_once|]. apply unwritten_spares. }
    apply Hrec. by eapply Exists_trace.
  - destruct (Hcalls k (Ev (StInsert id r) x)) as (q2 & q' & Hl); [apply elem_of_app; right; by left|].
    destruct (call_writes _ _ _ Hl) as [_ Hd].
    assert (Hid : id ∈ omap drawn_id (thread_trace k (h1 ++ (k, Ev (StInsert id r) x) :: h2))).
    { apply Hd, list_elem_of_omap. exists (Ev (StInsert id r) x). split; [|done]. apply elem_of_thread_trace, elem_of_app.
      right. by left. }
    apply list_elem_of_omap in Hid as (ev' & Hin & Hev'). eapply Exists_trace, Exists_exists. eauto.
Qed.
End Leaves.
