(* ===== verification/VaultProperties.v ===== *)
(** The properties of [StandardVault], for any backend that meets the contract
    of Backend.v, with their witnesses on the reference backend. *)
From S2P Require Export Samples.

Section Properties.
Context `{Base64Laws, UuidFmt, AesGcmLaws, Chrono} {S : Type} `{BackendLaws S} (env : Env).

(** C1: every sequence of calls on the vault, over any conforming backend and
    with storage failures at any point, is a run of the abstract escrow:
    deposits are returned under their own key before they lapse, withdrawn by
    the retrieval that returns them, and dropped by a sweep once lapsed. *)
Theorem vault_refines_escrow qs (w : World S) esc :
  (forall n, sb_time (env_clock env n)) -> refines esc w -> Forall (call_ok env) qs ->
  exists esc', escrow_run env esc qs (serve_all env qs w).1 esc' /\
    refines esc' (serve_all env qs w).2.
Proof. intros. by apply serve_all_refines. Qed.

(** C3: while the storage does not fail, each call answers and changes the
    records exactly as its specification computes, on every branch: malformed
    token, absent record, expired record, wrong key, refused lifetime. *)
Theorem call_answers q (w : World S) m :
  (forall n, sb_time (env_clock env n)) -> sb_rep (w_store w) m ->
  sb_healthy (w_store w) -> call_ok env q ->
  (serve env q w).1 = (call_answer env (w_tick w) q m).1 /\
  sb_rep (w_store (serve env q w).2) (call_answer env (w_tick w) q m).2 /\
  sb_healthy (w_store (serve env q w).2).
Proof. intros. by apply serve_answer. Qed.

(** C14: with storage failures anywhere, each call still meets its
    specification: it never blocks, a failed call has changed the records
    either not at all or as it would have on success, and a retrieval that
    answers a proof has deleted its record. *)
Theorem call_meets_spec q (w : World S) m :
  (forall n, sb_time (env_clock env n)) -> sb_rep (w_store w) m -> call_ok env q ->
  exists m', sb_rep (w_store (serve env q w).2) m' /\
    call_post env (w_tick w) q m (serve env q w).1 m'.
Proof.
  intros Hc Hm Hq. destruct (serve_post env q w m Hc Hm Hq) as (m' & ? & ? & _). by exists m'.
Qed.

(** C4: a stored proof survives every later call that does not present a
    token for its record, sweeps included while it has not expired; the
    64-character token then retrieves exactly the proof, once. *)
Theorem stored_proof_retrievable (w w1 : World S) p e tok qs m :
  let id := env_uuid env (2 + w_tick w) in
  let w2 := (serve_all env qs w1).2 in
  (forall n, sb_time (env_clock env n)) -> sb_rep (w_store w) m ->
  Forall (call_ok env) (RStore p e :: qs) ->
  serve env (RStore p e) w = (StoreReply (Done (Ok tok)), w1) ->
  fresh_from env (w_tick w1) id ->
  Forall (fun q => names q id = false) qs ->
  (forall t n, expiry_instant (env_clock env (3 + w_tick w)) e = Some (Some t) ->
     (n <= 1 + w_tick w2)%nat -> env_clock env n < t) ->
  sb_healthy (w_store w2) ->
  String.length tok = 64%nat /\
  exists w3, serve env (RRetrieve tok) w2 = (RetrieveReply (Done (Ok p)), w3) /\
    (serve env (RRetrieve tok) w3).1 = RetrieveReply (Done (Err ProofNotFound)).
Proof.
  cbn zeta. intros Hclock Hm [Hq Hqs]%Forall_cons Hst Hf Hn Hexp Hh.
  destruct (serve_post env _ w m Hclock Hm Hq) as (m1 & Hm1 & Hp & _).
  rewrite Hst in Hm1, Hp. cbn in Hm1, Hp. destruct Hp as (_ & -> & r & Hr & ->).
  set (id := env_uuid env _) in *. set (w2 := (serve_all env qs w1).2) in *.
  assert (Hlive : live_until env (1 + w_tick w2) r).
  { destruct Hr as (ct & exp & _ & He & ->). intros t n; cbn. intros ->. by apply Hexp. }
  destruct (serve_all_keeps env Hclock (1 + w_tick w2) qs w1 _ id Hm1 Hqs Hf)
    as (m2 & Hm2 & Hl & _); [unfold w2; lia| |].
  { eapply Forall_impl; [exact Hn|]. intros q' Hq'. split; [done|]. intros _ n r' Hle.
    rewrite lookup_insert_eq. intros [= <-]. by eapply live_until_live. }
  rewrite lookup_insert_eq in Hl. split; [apply encode_length|].
  set (tok := claim_encode _) in *.
  destruct (serve_answer env (RRetrieve tok) w2 m2 Hclock Hm2 Hh I) as (Ha & Hm3 & Hh3).
  pose proof (retrieve_answer_sealed env _ id _ _ _ (env_clock env (1 + w_tick w2)) m2 Hr Hl
    ltac:(by eapply live_until_live)) as Hans. fold tok in Hans.
  cbn [call_answer] in Ha, Hm3. rewrite Hans in Ha, Hm3.
  destruct (serve env (RRetrieve tok) w2) as [a w3] eqn:Hs3. cbn in Ha, Hm3, Hh3. subst a.
  exists w3. split; [done|].
  destruct (serve_answer env (RRetrieve tok) w3 _ Hclock Hm3 Hh3 I) as (-> & _).
  cbn [call_answer]. unfold tok. by rewrite retrieve_answer_absent by apply lookup_delete_eq.
Qed.

(** A proof is handed out or discarded at most once by calls made one after
    the other: once a retrieval or deletion of a record succeeded, no later
    call presenting any token for it succeeds, whatever calls come in between
    and whatever storage failures they meet. *)
Theorem consumed_once q qs (w : World S) m id :
  (forall n, sb_time (env_clock env n)) -> sb_rep (w_store w) m ->
  Forall (call_ok env) (q :: qs) -> names q id = true ->
  succeeded (serve env q w).1 = true -> fresh_from env (w_tick w) id ->
  Forall2 (fun q' a => names q' id = true -> succeeded a = false)
    qs (serve_all env qs (serve env q w).2).1.
Proof.
  intros Hclock Hm [Hq Hqs]%Forall_cons Hn Ha Hf.
  destruct (serve_post env q w m Hclock Hm Hq) as (m1 & Hm1 & Hp & Ht).
  eapply serve_all_absent; [done..|by eapply fresh_from_mono|].
  by eapply success_consumes.
Qed.

(** C25: the only call that can panic is a store whose lifetime fits an [i64]
    but whose expiry chrono cannot represent; the panic leaves the records as
    they were. *)
Theorem only_store_panics q (w : World S) m :
  (forall n, sb_time (env_clock env n)) -> sb_rep (w_store w) m -> call_ok env q ->
  match (serve env q w).1 with
  | StoreReply Panicked => exists p s,
      q = RStore p (Some s) /\ s <= i64_max /\
      expiry_instant (env_clock env (3 + w_tick w)) (Some s) = None /\
      sb_rep (w_store (serve env q w).2) m
  | RetrieveReply Panicked | DeleteReply Panicked | CleanupReply Panicked => False
  | StoreReply Blocked | RetrieveReply Blocked | DeleteReply Blocked
  | CleanupReply Blocked => False
  | _ => True
  end.
Proof.
  intros Hc Hm Hq. destruct (serve_post env q w m Hc Hm Hq) as (m' & Hm' & Hp & _).
  destruct (serve env q w) as [a w']; cbn in *.
  destruct q as [p e|t|t|], a as [o|o|o|o]; try done; destruct o as [r| |]; cbn in Hp; try done.
  destruct Hp as (s & -> & ? & ? & ->). eauto 10.
Qed.

(** A lifetime of more than [i64::MAX / 1000] seconds that still fits an
    [i64] makes [store_proof] panic instead of answering
    [InvalidParameter]. *)
Theorem store_panics_on_long_lifetime `{!ChronoLaws} p s (w : World S) :
  Z.of_nat (length (proof_data p)) <= aead_p_max ->
  i64_max / 1000 < s <= i64_max ->
  (serve env (RStore p (Some s)) w).1 = StoreReply Panicked.
Proof.
  intros Hp Hs. cbn [serve]. unfold store_proof.
  rewrite bool_decide_false.
  2:{ intros [= ->]. unfold i64_max in Hs. by destruct Hs. }
  cbn. unfold proof_as_bytes.
  destruct (aead_encrypt_total (env_key env (w_tick w))
              (env_nonce env (Datatypes.S (w_tick w))) _ Hp) as [ct ->]. cbn.
  unfold expiry, i64_try_from. rewrite (proj2 (Z.leb_le s _)) by lia. cbn.
  rewrite duration_seconds_spec.
  rewrite (proj2 (Z.leb_gt s (i64_max / 1000))) by lia.
  by rewrite andb_false_r.
Qed.

(** C24: a retrieval under a key other than the record's fails to decrypt and
    consumes nothing: the holder of the right token still retrieves the
    proof. *)
Theorem wrong_key_keeps_record (w w1 : World S) m id key d r :
  sb_rep (w_store w) m -> sb_healthy (w_store w) ->
  m !! id = Some r -> sealed d r -> live_until env (1 + w_tick w1) r ->
  key <> dep_key d -> (forall p, ~ forged d key p) ->
  w1 = (serve env (RRetrieve (claim_encode (claim_new id key))) w).2 ->
  (serve env (RRetrieve (claim_encode (claim_new id key))) w).1 =
    RetrieveReply (Done (Err DecryptionFailed)) /\
  (serve env (RRetrieve (claim_encode (claim_new id (dep_key d)))) w1).1 =
    RetrieveReply (Done (Ok (MkProof (dep_proof d)))).
Proof.
  intros Hm Hh Hr Hs Hlive Hkey Hforge ->.
  set (tok := claim_encode (claim_new id key)) in *.
  assert (Hans : retrieve_answer (env_clock env (1 + w_tick w)) tok m =
                 (Done (Err DecryptionFailed), m)).
  { unfold tok. rewrite (retrieve_answer_open _ _ _ _ _ _ Hr Hs).
    - destruct (aead_decrypt _ _ _) as [p|] eqn:Hd; [|done].
      destruct (Hforge p). by eapply sealed_forged.
    - eapply live_until_live; [exact Hlive|]. pose proof (serve_tick env (RRetrieve tok) w).
      unfold tok in *. lia. }
  destruct (exact_retrieve env w m tok Hm Hh) as (w' & Hrun & Hm' & Hh').
  unfold runs in Hrun. rewrite Hans in Hrun, Hm'. cbn [serve] in *. rewrite Hrun in *.
  split; [done|]. cbn [fst snd] in Hm', Hlive |- *.
  destruct (exact_retrieve env w' m (claim_encode (claim_new id (dep_key d))) Hm' Hh')
    as (w2 & Hrun2 & _).
  unfold runs in Hrun2. rewrite Hrun2.
  rewrite (retrieve_answer_open _ _ _ _ _ _ Hr Hs) by (by eapply live_until_live).
  by rewrite (sealed_decrypt _ _ Hs).
Qed.

(** [delete_proof] depends on a token only through its record id: two
    tokens for one record under different keys have the same effect, so no
    knowledge of the key is needed to delete a proof. *)
Theorem delete_ignores_key t1 t2 c1 c2 (w : World S) :
  claim_decode t1 = Ok c1 -> claim_decode t2 = Ok c2 -> record_id c1 = record_id c2 ->
  serve env (RDelete t1) w = serve env (RDelete t2) w.
Proof. intros H1' H2' Hid. cbn [serve]. unfold delete_proof. by rewrite H1', H2'; cbn; rewrite Hid. Qed.

(** C26: the key and the plaintext of a stored proof reach the storage and the
    log only through the ciphertext: runs that draw different keys for
    different proofs but encrypt to the same ciphertext leave the same store
    and the same log. *)
Theorem store_confines_key (env' : Env) p p' e (w : World S) :
  env_clock env' = env_clock env -> env_nonce env' = env_nonce env ->
  env_uuid env' = env_uuid env ->
  aead_encrypt (env_key env' (w_tick w)) (env_nonce env (1 + w_tick w)) (proof_data p') =
  aead_encrypt (env_key env (w_tick w)) (env_nonce env (1 + w_tick w)) (proof_data p) ->
  (serve env' (RStore p' e) w).2 = (serve env (RStore p e) w).2.
Proof.
  destruct env' as [clk k non uuid]; cbn. intros -> -> -> Hct. unfold store_proof.
  case_bool_decide; [done|]. cbn.
  change (proof_data p') with (proof_as_bytes p') in Hct.
  change (proof_data p) with (proof_as_bytes p) in Hct. rewrite Hct.
  destruct (aead_encrypt _ _ (proof_as_bytes p)) as [ct|]; [|done]. cbn. rewrite !run_expiry; cbn.
  destruct e as [s|].
  - destruct (s <=? i64_max); [|done].
    destruct (expiry_instant _ _) as [x|]; [|done]. cbn.
    by destruct (sb_insert _ _ _) as [[]].
  - cbn. by destruct (sb_insert _ _ _) as [[]].
Qed.

(** C27: a retrieval uses the key only to decrypt: two tokens for one record
    that both open it, or both fail to, leave the same store and the same
    log, whatever the keys and the plaintexts. *)
Theorem retrieve_confines_key t1 t2 c1 c2 (w : World S) :
  claim_decode t1 = Ok c1 -> claim_decode t2 = Ok c2 -> record_id c1 = record_id c2 ->
  (forall r, (sb_fetch (record_id c1) (w_store w)).1 = Ok r ->
     let n := copy_from_slice 12 (nonce (encrypted r)) in
     is_Some (aead_decrypt (encryption_key c1) n (ciphertext (encrypted r))) <->
     is_Some (aead_decrypt (encryption_key c2) n (ciphertext (encrypted r)))) ->
  (serve env (RRetrieve t1) w).2 = (serve env (RRetrieve t2) w).2.
Proof.
  intros H1' H2' Hid Hk. cbn [serve]. unfold retrieve_proof. rewrite H1', H2'; cbn. rewrite Hid in *.
  destruct (sb_fetch _ _) as [[r|e] s]; cbn in Hk |- *; [|by destruct e].
  specialize (Hk r eq_refl).
  rewrite !run_is_expired. destruct (is_expired_at _ r); [done|].
  unfold nonce_from_slice. destruct (Nat.eqb _ 12); cbn; [|done].
  destruct (aead_decrypt (encryption_key c1) _ _) as [p1|],
    (aead_decrypt (encryption_key c2) _ _) as [p2|]; cbn; try done.
  - by destruct (sb_delete _ _) as [[]].
  - by destruct (proj1 Hk) as [? [=]].
  - by destruct (proj2 Hk) as [? [=]].
Qed.

(** At the very instant of its expiry a record is not expired, and can be
    retrieved and deleted, yet a sweep at that instant removes it: the expiry
    test is strict, the sweep's is not. *)
Theorem expiry_boundary (id : RecordId) (key : array 32) (w : World S) m r t :
  let tok := claim_encode (claim_new id key) in
  sb_rep (w_store w) m -> sb_healthy (w_store w) -> sb_time t ->
  m !! id = Some r -> expires_at r = Some t ->
  env_clock env (w_tick w) = t -> env_clock env (1 + w_tick w) = t ->
  (serve env (RRetrieve tok) w).1 <> RetrieveReply (Done (Err ProofExpired)) /\
  (serve env (RDelete tok) w).1 = DeleteReply (Done (Ok tt)) /\
  exists m', sb_rep (w_store (serve env RCleanup w).2) m' /\ m' !! id = None.
Proof.
  cbn zeta. intros Hm Hh Htime Hl Ht Hc0 Hc1. set (tok := claim_encode _).
  assert (is_expired_at t r = false) as Hexp
    by (unfold is_expired_at; rewrite Ht; cbn; by apply Z.ltb_irrefl).
  destruct (exact_retrieve env w m tok Hm Hh) as (wr & Hr & _).
  destruct (exact_delete env w m tok Hm Hh) as (wd & Hd & _).
  destruct (exact_cleanup env w m Hm Hh ltac:(by rewrite Hc0)) as (wc & Hcl & Hmc & _).
  unfold runs in *. cbn [serve]. rewrite Hr, Hd, Hcl, Hc1. cbn [fst snd].
  unfold delete_answer, retrieve_answer, tok. rewrite ClaimId.decode_encode. cbn [claim_new].
  rewrite Hl, Hexp. split_and!.
  - destruct r as [[non ct] st exp].
    case_bool_decide; [done|]. by destruct (aead_decrypt _ _ _).
  - done.
  - eexists. split; [exact Hmc|]. rewrite Hc0. apply lookup_sweep_None. right. exists r.
    split; [done|]. apply not_live_iff. exists t. split; [done|]. lia.
Qed.
End Properties.

(** ** Witnesses *)

Section Witnesses.
Import Sample.

Lemma vault_refines_escrow_witness :
  exists esc', escrow_run env ∅ [RStore proof (Some 3600); RRetrieve token]
      (serve_all env [RStore proof (Some 3600); RRetrieve token] world).1 esc' /\
    refines esc' (serve_all env [RStore proof (Some 3600); RRetrieve token] world).2.
Proof.
  apply vault_refines_escrow;
    [apply sample_times | apply sample_refines | apply sample_calls_ok].
Defined.

Lemma call_answers_witness :
  (serve env (RRetrieve wrong_token) stored_world).1 =
  RetrieveReply (Done (Err DecryptionFailed)).
Proof.
  destruct (call_answers env (RRetrieve wrong_token) stored_world stored_records
              sample_times stored_rep I I) as (Ha & _).
  rewrite Ha. by vm_compute.
Defined.

Lemma call_meets_spec_witness :
  exists m', call_post env 0 (RDelete token) ∅
    (serve env (RDelete token) world).1 m'.
Proof.
  destruct (call_meets_spec env (RDelete token) world ∅ sample_times sample_rep I)
    as (m' & _ & Hp).
  exists m'. exact Hp.
Defined.

Lemma stored_proof_retrievable_witness :
  exists w3,
    serve env (RRetrieve token)
      (serve_all env [RCleanup; RRetrieve "AAAA"] stored_world).2 =
      (RetrieveReply (Done (Ok proof)), w3) /\
    (serve env (RRetrieve token) w3).1 = RetrieveReply (Done (Err ProofNotFound)).
Proof.
  apply (stored_proof_retrievable env world stored_world proof (Some 3600) token
           [RCleanup; RRetrieve "AAAA"] ∅).
  - apply sample_times.
  - apply sample_rep.
  - apply sample_calls_ok.
  - by vm_compute.
  - apply fresh. by apply (bool_decide_unpack _).
  - repeat constructor; by vm_compute.
  - intros t n Ht Hn. cbn in Hn.
    assert (t = 1700003600 * nanos_per_sec + 3) as -> by (vm_compute in Ht; by simplify_eq).
    cbn. unfold nanos_per_sec.
    assert (w_tick (serve_all env [RCleanup; RRetrieve "AAAA"] stored_world).2 = 8%nat)
      as Htick by by vm_compute. cbn in Htick. lia.
  - done.
Defined.

Lemma consumed_once_witness :
  Forall2 (fun q' a => names q' id1 = true -> succeeded a = false)
    [RStore proof None; RDelete token]
    (serve_all env [RStore proof None; RDelete token]
       (serve env (RRetrieve token) stored_world).2).1.
Proof.
  apply (consumed_once env (RRetrieve token) _ stored_world stored_records id1).
  - apply sample_times.
  - apply stored_rep.
  - apply sample_calls_ok.
  - by vm_compute.
  - by vm_compute.
  - apply fresh. by apply (bool_decide_unpack _).
Defined.

Lemma only_store_panics_witness :
  match (serve env (RStore proof (Some i64_max)) world).1 with
  | StoreReply Panicked => exists p s,
      RStore proof (Some i64_max) = RStore p (Some s) /\ s <= i64_max /\
      expiry_instant (env_clock env 3) (Some s) = None /\
      sb_rep (w_store (serve env (RStore proof (Some i64_max)) world).2) ∅
  | RetrieveReply Panicked | DeleteReply Panicked | CleanupReply Panicked => False
  | StoreReply Blocked | RetrieveReply Blocked | DeleteReply Blocked
  | CleanupReply Blocked => False
  | _ => True
  end.
Proof. apply (only_store_panics env (RStore proof (Some i64_max)) world ∅ sample_times sample_rep
                (fun _ _ _ => I)). Defined.

Lemma store_panics_on_long_lifetime_witness :
  (serve env (RStore proof (Some (i64_max / 1000 + 1))) world).1 = StoreReply Panicked.
Proof. apply (store_panics_on_long_lifetime env proof); vm_compute; by try split. Defined.

Lemma wrong_key_keeps_record_witness :
  (serve env (RRetrieve wrong_token) stored_world).1 =
    RetrieveReply (Done (Err DecryptionFailed)) /\
  (serve env (RRetrieve token) (serve env (RRetrieve wrong_token) stored_world).2).1 =
    RetrieveReply (Done (Ok (MkProof (proof_data proof)))).
Proof.
  apply (wrong_key_keeps_record env stored_world
           (serve env (RRetrieve wrong_token) stored_world).2 stored_records
           id1 key2 sample_deposit sample_record).
  - apply stored_rep.
  - done.
  - by vm_compute.
  - by vm_compute.
  - intros t n Ht Hn. vm_compute in Ht. simplify_eq. vm_compute in Hn. cbn.
    unfold nanos_per_sec. lia.
  - by apply (bool_decide_unpack _).
  - intros p (_ & ct & Hct & Hp). vm_compute in Hct. by simplify_eq.
  - done.
Defined.

Lemma delete_ignores_key_witness :
  serve env (RDelete token) stored_world = serve env (RDelete wrong_token) stored_world.
Proof.
  apply (delete_ignores_key env _ _ (MkClaimId id1 key1) (MkClaimId id1 key2));
    by vm_compute.
Defined.

Lemma store_confines_key_witness :
  key3 <> key1 /\
  (serve env3 (RStore (MkProof []) None) world).2 = (serve env (RStore (MkProof []) None) world).2.
Proof.
  split; [by apply (bool_decide_unpack _)|].
  apply (store_confines_key env env3); done.
Defined.

Lemma retrieve_confines_key_witness :
  (serve env (RRetrieve token) stored_world).2 =
  (serve env (RRetrieve (claim_encode (claim_new id1 key3))) stored_world).2.
Proof.
  apply (retrieve_confines_key env _ _ (MkClaimId id1 key1) (MkClaimId id1 key3)).
  - by vm_compute.
  - by vm_compute.
  - done.
  - intros r Hr. vm_compute in Hr. injection Hr as <-. by split; intros _; vm_compute; eexists.
Defined.

Lemma expiry_boundary_witness :
  (serve frozen_env (RRetrieve token) stored_world).1 <>
    RetrieveReply (Done (Err ProofExpired)) /\
  (serve frozen_env (RDelete token) stored_world).1 = DeleteReply (Done (Ok tt)) /\
  exists m', sb_rep (w_store (serve frozen_env RCleanup stored_world).2) m' /\ m' !! id1 = None.
Proof.
  apply (expiry_boundary frozen_env id1 key1 stored_world stored_records sample_record
           (1700003600 * nanos_per_sec + 3)); try done; by vm_compute.
Defined.
End Witnesses.
