(* ===== verification/ConcurrentProperties.v ===== *)
(** The properties of concurrent calls on one vault, with their witnesses. *)
From S2P Require Export Concurrent Samples.

(** ** Schedules for the witnesses *)

Module Schedules.
Import Sample.

Definition two_deletes : list Request := [RDelete token; RDelete wrong_token].
Definition round_robin : list nat := [0; 1; 0; 1; 0; 1; 0; 1; 0; 1]%nat.
Definition deletes_end : list (prog vaultE Reply) :=
  (exec (handle env) round_robin (call_prog <$> two_deletes, stored_world)).1.

(** A retrieval runs to its end, then a deletion. *)
Definition first_end : list (prog vaultE Reply) * World MapStore :=
  exec (handle env) [0; 0; 0; 0]%nat (call_prog <$> [RRetrieve token], stored_world).
Definition second_end : list (prog vaultE Reply) * World MapStore :=
  exec (handle env) [1; 1; 1; 1]%nat (first_end.1 ++ (call_prog <$> [RDelete token]), first_end.2).

End Schedules.

(** ** Properties *)

Section Properties.
Context `{Base64Laws, UuidFmt, AesGcmLaws, Chrono} {S : Type} `{BackendLaws S} (env : Env).

(** C17: however the effects of concurrent calls interleave, and whatever storage
    failures they meet, at most one [delete_proof] of a record answers
    [Ok(())]. *)
Theorem concurrent_delete_once qs (w w' : World S) m tr ps id i j t1 t2 :
  (forall n, sb_time (env_clock env n)) -> sb_rep (w_store w) m ->
  Forall (call_ok env) qs -> fresh_from env (w_tick w) id ->
  pool_run (handle env) (call_prog <$> qs) w tr ps w' ->
  i <> j -> qs !! i = Some (RDelete t1) -> qs !! j = Some (RDelete t2) ->
  names (RDelete t1) id = true -> names (RDelete t2) id = true ->
  ~ (ps !! i = Some (Ret (DeleteReply (Done (Ok tt)))) /\
     ps !! j = Some (Ret (DeleteReply (Done (Ok tt))))).
Proof.
  intros Hclock Hm Hqs Hf Hrun Hij Hi Hj Hn1 Hn2 [Hri Hrj].
  destruct (pool_history env Hclock id _ _ _ _ _ m Hrun (calls_ok_disciplined env Hclock _ qs Hqs) Hf Hm)
    as (_ & _ & Hsp & m' & _ & Hh).
  assert (Hdel : forall k t, qs !! k = Some (RDelete t) ->
            ps !! k = Some (Ret (DeleteReply (Done (Ok tt)))) ->
            completes (call_prog (RDelete t)) (thread_trace k tr) (DeleteReply (Done (Ok tt)))).
  { intros k t Hk. apply (pool_run_completes _ _ _ _ _ _ k _ _ Hrun). by rewrite list_lookup_fmap, Hk. }
  exact (history_delete_once (env_clocks env) sb_time id m tr m' i j t1 t2 Hh Hsp Hij Hn1 Hn2
           (Hdel _ _ Hi Hri) (Hdel _ _ Hj Hrj)).
Qed.

(** C16: a record is gone for every call that starts after a call on it has
    succeeded: once some retrieval or deletion of [id] returned successfully,
    no call on [id] started from then on succeeds, even while calls that
    started earlier are still running and storage operations fail. *)
Theorem late_calls_fail qs1 qs2 (w w1 w2 : World S) m tr1 tr2 ps1 ps2 id i j q1 q2 a1 a2 :
  (forall n, sb_time (env_clock env n)) -> sb_rep (w_store w) m ->
  Forall (call_ok env) (qs1 ++ qs2) -> fresh_from env (w_tick w) id ->
  pool_run (handle env) (call_prog <$> qs1) w tr1 ps1 w1 ->
  qs1 !! i = Some q1 -> names q1 id = true -> ps1 !! i = Some (Ret a1) -> succeeded a1 = true ->
  pool_run (handle env) (ps1 ++ (call_prog <$> qs2)) w1 tr2 ps2 w2 ->
  qs2 !! j = Some q2 -> names q2 id = true -> ps2 !! (length ps1 + j)%nat = Some (Ret a2) ->
  succeeded a2 = false.
Proof.
  intros Hclock Hm [Hq1 Hq2]%Forall_app Hf Hrun1 Hi Hn1 Hr1 Ha1 Hrun2 Hj Hn2 Hr2.
  destruct (pool_history env Hclock id _ _ _ _ _ m Hrun1
              (calls_ok_disciplined env Hclock _ qs1 Hq1) Hf Hm)
    as (Hps1 & Hf1 & Hsp1 & m1 & Hm1 & Hh1).
  destruct (pool_history env Hclock id _ _ _ _ _ m1 Hrun2) as (_ & _ & Hsp2 & m2 & _ & Hh2); [|done..|].
  { apply Forall_app. split; [done|]. by apply (calls_ok_disciplined env Hclock). }
  apply (pool_run_completes _ _ _ _ _ _ i (call_prog q1) _ Hrun1) in Hr1;
    [|by rewrite list_lookup_fmap, Hi].
  apply (pool_run_completes _ _ _ _ _ _ _ (call_prog q2) _ Hrun2) in Hr2.
  2:{ rewrite lookup_app_r by lia. rewrite Nat.add_sub_swap, Nat.sub_diag by lia. cbn.
      by rewrite list_lookup_fmap, Hj. }
  by eapply (history_late (env_clocks env) sb_time id m tr1 m1 tr2 m2 i _ q1 q2 a1 a2).
Qed.

(** C18: two overlapping retrievals of one record can both be answered with the
    proof: the fetch and the deletion of [retrieve_proof] are two storage
    operations, and the answer of the deletion, which tells whether the record
    was still there, is dropped. *)
Theorem retrieval_race (w : World S) m id d r :
  let q := RRetrieve (claim_encode (claim_new id (dep_key d))) in
  let ok := Ret (RetrieveReply (Done (Ok (MkProof (dep_proof d))))) in
  sb_rep (w_store w) m -> sb_healthy (w_store w) -> m !! id = Some r -> sealed d r ->
  live_until env (4 + w_tick w) r ->
  (exec (handle env) [0; 1; 0; 1; 0; 1; 0; 1]%nat ([call_prog q; call_prog q], w)).1 = [ok; ok].
Proof.
  cbn zeta. intros Hm Hh Hr Hs Hlive.
  destruct (retrieve_thread id d r Hs) as (k & -> & Hk).
  destruct (fetch_healthy_cases id _ m Hm Hh) as (s1 & Hm1 & Hh1 & Hf1).
  destruct (fetch_healthy_cases id s1 m Hm1 Hh1) as (s2 & Hm2 & Hh2 & Hf2).
  destruct (delete_healthy_cases id s2 m Hm2 Hh2) as (s3 & Hm3 & Hh3 & Hf3).
  destruct (delete_healthy_cases id s3 _ Hm3 Hh3) as (s4 & Hm4 & Hh4 & Hf4).
  rewrite Hr in Hf1, Hf2. cbn [ok_or] in Hf1, Hf2. unfold exec; cbn [foldl].
  erewrite (turn_step _ 0); [|reflexivity|cbn; rewrite Hf1; reflexivity].
  erewrite (turn_step _ 1); [|reflexivity|cbn; rewrite Hf2; reflexivity].
  cbn [insert list_insert with_store fst snd w_tick w_log tick].
  destruct (expires_at r) as [t|].
  - destruct Hk as (k' & -> & Hk').
    erewrite (turn_step _ 0); [|reflexivity..]. erewrite (turn_step _ 1); [|reflexivity..].
    cbn [insert list_insert tick w_tick w_store w_log].
    rewrite !Hk' by (apply (live_until_live env (4 + w_tick w)); [done|lia]).
    erewrite (turn_step _ 0); [|reflexivity|cbn; rewrite Hf3; reflexivity].
    erewrite (turn_step _ 1); [|reflexivity|cbn; rewrite Hf4; reflexivity].
    by do 2 (erewrite turn_step; [|reflexivity..]).
  - rewrite Hk.
    erewrite (turn_step _ 0); [|reflexivity|cbn; rewrite Hf3; reflexivity].
    erewrite (turn_step _ 1); [|reflexivity|cbn; rewrite Hf4; reflexivity].
    do 2 (erewrite turn_step; [|reflexivity..]).
    by do 2 (erewrite turn_ended; [|reflexivity]).
Qed.
End Properties.

(** ** Witnesses *)

Section Witnesses.
Import Sample Schedules.

Lemma concurrent_delete_once_witness :
  ~ (deletes_end !! 0%nat = Some (Ret (DeleteReply (Done (Ok tt)))) /\
     deletes_end !! 1%nat = Some (Ret (DeleteReply (Done (Ok tt))))).
Proof.
  destruct (exec_pool_run (handle env) round_robin (call_prog <$> two_deletes) stored_world)
    as [tr Hrun].
  apply (concurrent_delete_once env two_deletes stored_world
           (exec (handle env) round_robin (call_prog <$> two_deletes, stored_world)).2
           stored_records tr deletes_end
           id1 0 1 token wrong_token).
  - apply sample_times.
  - apply stored_rep.
  - apply sample_calls_ok.
  - apply fresh. by apply (bool_decide_unpack _).
  - exact Hrun.
  - done.
  - done.
  - done.
  - by vm_compute.
  - by vm_compute.
Defined.

Lemma late_calls_fail_witness :
  second_end.1 !! 1%nat = Some (Ret (DeleteReply (Done (Err ProofNotFound)))) /\
  succeeded (DeleteReply (Done (Err ProofNotFound))) = false.
Proof.
  split; [by vm_compute|].
  destruct (exec_pool_run (handle env) [0; 0; 0; 0]%nat (call_prog <$> [RRetrieve token])
              stored_world) as [tr1 Hrun1].
  destruct (exec_pool_run (handle env) [1; 1; 1; 1]%nat
              (first_end.1 ++ (call_prog <$> [RDelete token])) first_end.2) as [tr2 Hrun2].
  apply (late_calls_fail env [RRetrieve token] [RDelete token] stored_world first_end.2
           second_end.2 stored_records tr1 tr2 first_end.1 second_end.1 id1 0 0
           (RRetrieve token) (RDelete token) (RetrieveReply (Done (Ok proof)))).
  - apply sample_times.
  - apply stored_rep.
  - apply sample_calls_ok.
  - apply fresh. by apply (bool_decide_unpack _).
  - exact Hrun1.
  - done.
  - by vm_compute.
  - by vm_compute.
  - done.
  - exact Hrun2.
  - done.
  - by vm_compute.
  - by vm_compute.
Defined.

Lemma retrieval_race_witness :
  (exec (handle env) [0; 1; 0; 1; 0; 1; 0; 1]%nat
     ([call_prog (RRetrieve token); call_prog (RRetrieve token)], stored_world)).1 =
  [Ret (RetrieveReply (Done (Ok proof))); Ret (RetrieveReply (Done (Ok proof)))].
Proof.
  apply (retrieval_race env stored_world stored_records id1 sample_deposit sample_record).
  - apply stored_rep.
  - done.
  - by vm_compute.
  - by vm_compute.
  - intros t n Ht Hn. vm_compute in Ht. simplify_eq. vm_compute in Hn. cbn.
    unfold nanos_per_sec. lia.
Defined.
End Witnesses.
