(* ===== verification/RecordTypes.v ===== *)
(** What the records a vault writes look like, whatever calls run and however they
    interleave: sealed proofs with a twelve-byte nonce, stamped by the clock. *)
From S2P Require Export Concurrent Samples.

Section Typed.
Context `{Base64Laws, UuidFmt, AesGcmLaws, ChronoLaws} (clocks : Z -> Prop).
Context (clock_ok : forall t, clocks t -> datetime_min <= t <= datetime_max).

(** A sealed proof, its nonce of twelve bytes. *)
Definition sealed_payload (x : EncryptedRecord) : Prop :=
  exists key non proof,
    nonce x = vec_to_list (non : array 12) /\ aead_encrypt key non proof = Some (ciphertext x).

(** An expiry: a reading of the clock and a lifetime of whole seconds. *)
Definition typed_expiry (t : Z) : Prop :=
  exists now s, clocks now /\ 0 < s <= i64_max / 1000 /\ t = now + s * nanos_per_sec.

Record typed_record (r : StoredRecord) : Prop := MkTyped {
  typed_payload : sealed_payload (encrypted r);
  typed_stored_at : clocks (stored_at r);
  typed_expires_at : from_option typed_expiry True (expires_at r);
}.

(** A lifetime is a [u64]. *)
Definition u64_lifetime (q : Request) : Prop :=
  match q with RStore _ (Some s) => 0 <= s | _ => True end.

Definition writes_typed : forall X, vaultE X -> Prop := fun X e =>
  match e with StInsert _ r => typed_record r | _ => True end.

Abbreviation fair := (fair_answer clocks (fun _ => False)).

Lemma expiry_instant_typed now s t :
  clocks now -> 0 < s -> expiry_instant now (Some s) = Some (Some t) -> typed_expiry t.
Proof.
  intros Hnow Hs Ht. unfold expiry_instant in Ht. rewrite duration_seconds_spec in Ht.
  destruct (_ && _) eqn:Hb; cbn in Ht; [|done]. apply andb_prop in Hb as [_ Hb%Z.leb_le].
  rewrite (datetime_add_spec now) in Ht by by apply clock_ok.
  destruct (_ && _); cbn in Ht; [|done]. simplify_eq. by exists now, s.
Qed.

Lemma expiry_typed {A} e (f : option Z -> prog vaultE (result A VaultError)) :
  from_option (fun s => 0 < s) True e ->
  (forall x, from_option typed_expiry True x -> within fair writes_typed (f x)) ->
  within fair writes_typed (try_p (expiry e) f).
Proof.
  intros He Hf. unfold expiry. destruct e as [s|]; cbn; [|by apply Hf].
  destruct (i64_try_from s) as [secs|] eqn:Hs; cbn; [|done].
  apply i64_try_from_Some in Hs as ->.
  split; [done|]. intros now Hnow.
  destruct (duration_seconds s) as [d|] eqn:Hd; cbn; [|done].
  destruct (datetime_add _ d) as [t|] eqn:Ht; cbn; [|done].
  apply Hf. cbn. apply (expiry_instant_typed now s); [done..|].
  unfold expiry_instant. rewrite Hd; cbn. by rewrite Ht.
Qed.

Lemma store_typed p e : u64_lifetime (RStore p e) -> within fair writes_typed (store_proof p e).
Proof.
  intros Hu. unfold store_proof. case_bool_decide as Hz; [done|]. cbn.
  split; [done|]. intros key _. split; [done|]. intros non _.
  destruct (aead_encrypt _ _ _) as [ct|] eqn:Hct; cbn; [|done].
  split; [done|]. intros uuid _. apply expiry_typed.
  { destruct e as [s|]; [|done]. cbn in *. assert (s <> 0) by congruence. lia. }
  intros x Hx. cbn. split; [done|]. intros now Hnow. split; [|by intros [[]|err] _].
  split; cbn; [by exists key, non, (proof_data p)|done|done].
Qed.

Lemma call_typed q : u64_lifetime q -> within fair writes_typed (call_prog q).
Proof.
  intros Hu. apply call_within.
  - by intros X [].
  - intros p e ->. by apply store_typed.
Qed.

(** Typed records stay typed. *)
Definition all_typed (m : Records) : Prop := map_Forall (fun _ r => typed_record r) m.

Lemma insert_typed id r m : typed_record r -> all_typed m -> all_typed (<[id := r]> m).
Proof. intros Hr Hm. by apply map_Forall_insert_2. Qed.

Lemma delete_typed id m : all_typed m -> all_typed (delete id m).
Proof. intros Hm. by apply map_Forall_delete. Qed.

Lemma sweep_typed now m : all_typed m -> all_typed (sweep now m).
Proof. intros Hm i r [Hr _]%lookup_sweep. by apply (Hm i). Qed.

Lemma step_typed m ev m' :
  vault_step clocks m ev m' -> match ev with Ev e _ => writes_typed _ e end ->
  all_typed m -> all_typed m'.
Proof.
  destruct ev as [X e x].
  destruct e as [| | | |id r|id|id| |l]; cbn; intros Hs Hw Hm; try by subst.
  - unfold insert_post in Hs. case_match; [|destruct Hs as [_ [-> | ->]]]; subst;
      by try apply insert_typed.
  - destruct Hs as [-> _]. done.
  - unfold delete_post in Hs. case_match; [destruct Hs as [_ ->]|destruct Hs as [_ [-> | ->]]];
      by try apply delete_typed.
  - destruct Hs as (now & _ & Hs). unfold sweep_post in Hs.
    case_match; [destruct Hs as [-> _]|destruct Hs as [_ [-> | ->]]]; by try apply sweep_typed.
Qed.

Lemma history_typed m (tr : list (nat * event vaultE)) m' :
  history clocks m tr m' ->
  Forall (fun iev => match iev.2 with Ev e _ => writes_typed _ e end) tr ->
  all_typed m -> all_typed m'.
Proof.
  revert m. induction tr as [|[i ev] tr IH]; intros m; cbn [serial].
  { by intros ->. }
  intros (m1 & Hs & Hh) [Hw Hws]%Forall_cons Hm. eapply IH; [exact Hh|done|].
  by eapply step_typed.
Qed.
End Typed.

Section Properties.
Context `{Base64Laws, UuidFmt, AesGcmLaws, ChronoLaws} {S : Type} `{BackendLaws S} (env : Env).

(** C15: the type of what a vault stores: on any backend, however any calls
    interleave and whatever fails, every record is a proof sealed by the cipher
    under a twelve-byte nonce, stored at a reading of the clock, and its expiry,
    if it has one, is a reading of the clock plus a positive whole number of
    seconds. *)
Theorem stored_records_typed qs (w w' : World S) m tr ps :
  (forall n, sb_time (env_clock env n)) ->
  (forall n, datetime_min <= env_clock env n <= datetime_max) ->
  Forall (fun q => call_ok env q /\ u64_lifetime q) qs ->
  sb_rep (w_store w) m -> all_typed (env_clocks env) m ->
  pool_run (handle env) (call_prog <$> qs) w tr ps w' ->
  exists m', sb_rep (w_store w') m' /\ all_typed (env_clocks env) m'.
Proof.
  intros Hclock Hrange Hqs Hm Ht Hrun.
  assert (Hfair : forall X (e : vaultE X) x w1 w2, True -> True -> handle env X e w1 = Some (x, w2) ->
            True /\ fair_answer (env_clocks env) (fun _ => False) X e x).
  { intros X e x w1 w2 _ _ He. split; [done|]. destruct e; try done; cbn in *; [|tauto].
    injection He as <- <-. by eexists. }
  assert (Hdis : Forall (disciplined (env_clocks env) sb_time (fun _ => False)) (call_prog <$> qs)).
  { apply (calls_ok_disciplined env Hclock). eapply Forall_impl; [exact Hqs|]. by intros q []. }
  assert (Hty : Forall (within (fair_answer (env_clocks env) (fun _ => False))
                          (writes_typed (env_clocks env))) (call_prog <$> qs)).
  { apply Forall_fmap. eapply Forall_impl; [exact Hqs|]. intros q [_ Hu].
    apply call_typed; [|done]. by intros t [n ->]. }
  destruct (pool_run_within (handle env) (fun _ => True) _ _ _ _ _ _ _
              (fun X e x w1 w2 _ _ He => Hfair X e x w1 w2 I I He) I Hdis Hrun) as (Hsp & _).
  destruct (pool_run_within (handle env) (fun _ => True) _ _ _ _ _ _ _
              (fun X e x w1 w2 _ _ He => Hfair X e x w1 w2 I I He) I Hty Hrun) as (Hws & _).
  destruct (accepted_history env Hclock (fun _ => False) w tr w' m
              (pool_run_accepted _ _ _ _ _ _ Hrun)) as (m' & Hm' & Hh); [|done|].
  { apply Forall_fmap. exact Hsp. }
  exists m'. split; [done|]. by eapply history_typed.
Qed.
End Properties.

Section Witnesses.
Import Sample.

Definition typed_calls : list Request := [RStore proof (Some 3600); RDelete token].
Definition typed_end : list (prog vaultE Reply) * World MapStore :=
  exec (handle frozen_env) [0; 0; 0; 1; 0; 0; 0; 0; 0; 1]%nat (call_prog <$> typed_calls, world).

Lemma stored_records_typed_witness :
  typed_end.1 !! 0%nat = Some (Ret (StoreReply (Done (Ok token)))) /\
  exists m, sb_rep (w_store typed_end.2) m /\ all_typed (env_clocks frozen_env) m.
Proof.
  split; [by vm_compute|].
  destruct (exec_pool_run (handle frozen_env) [0; 0; 0; 1; 0; 0; 0; 0; 0; 1]%nat
              (call_prog <$> typed_calls) world) as [tr Hrun].
  apply (stored_records_typed frozen_env typed_calls world typed_end.2 ∅ tr typed_end.1).
  - done.
  - intros n. unfold datetime_min, datetime_max; cbn.
    unfold chrono_min, chrono_max, nanos_per_sec. lia.
  - apply Forall_cons; split; [by split; [intros ? ?|]|]. apply Forall_cons; split; [by split|].
    apply Forall_nil_2.
  - done.
  - by intros ? ? ?.
  - exact Hrun.
Defined.
End Witnesses.
