(* ===== verification/Fs.v ===== *)
(** The parts of the Rust standard library and of the operating system that
    src/storage/local_file.rs uses: paths, a file system with permissions and
    advisory locks, mutexes, and the effects on them, each with the failures it
    can meet. *)
From Stdlib Require Import Ascii.
From stdpp Require Export pretty stringmap.
From S2P Require Export Prog.

(** ** Paths

    The components, innermost first; [[]] is the root or the empty path. *)
Abbreviation Path := (list string).

(** [Path::parent] *)
Definition path_parent (p : Path) : option Path :=
  match p with [] => None | _ :: dir => Some dir end.

(** The text before the last dot; [None] without a dot. *)
Fixpoint before_last_dot (s : string) : option string :=
  match s with
  | EmptyString => None
  | String c s' =>
      match before_last_dot s' with
      | Some b => Some (String c b)
      | None => if bool_decide (c = "."%char) then Some EmptyString else None
      end
  end.

(** [file_stem]: a name without a dot, or whose only dot leads, is all stem. *)
Definition file_stem (name : string) : string :=
  if bool_decide (name = "..") then name
  else match before_last_dot name with
       | None | Some EmptyString => name
       | Some stem => stem
       end.

(** [Path::with_extension], for a non-empty extension. *)
Definition with_extension (ext : string) (p : Path) : Path :=
  match p with
  | [] => []
  | name :: dir =>
      if bool_decide (name = "..") then p else (file_stem name +:+ "." +:+ ext) :: dir
  end.

(** ** The file system *)

Record FileData : Type := MkFile { f_data : list Byte.byte; f_mode : Z }.

Abbreviation Tree := (gmap Path (gmap string FileData)).

Definition file_at (t : Tree) (p : Path) : option FileData :=
  match p with
  | [] => None
  | name :: dir => d ← t !! dir; d !! name
  end.

Definition set_file (t : Tree) (p : Path) (f : FileData) : Tree :=
  match p with
  | [] => t
  | name :: dir => alter (fun d => <[name := f]> d) dir t
  end.

Definition remove_file (t : Tree) (p : Path) : Tree :=
  match p with
  | [] => t
  | name :: dir => alter (fun d => delete name d) dir t
  end.

(** [create_dir_all]: the directory and its ancestors. *)
Fixpoint make_dirs (p : Path) (t : Tree) : Tree :=
  let t' := match p with [] => t | _ :: dir => make_dirs dir t end in
  match t' !! p with Some _ => t' | None => <[p := ∅]> t' end.

(** A failure the operating system reports: its message, and how many bytes a
    failed write wrote. *)
Record Fault : Type := MkFault { fault_msg : string; fault_written : nat }.

Record FsState : Type := MkFs {
  fs_tree : Tree;
  (** advisory locks and mutexes that are held *)
  fs_flocks : gset Path;
  fs_mutexes : gset nat;
  fs_next_mutex : nat;
  (** what goes wrong, by the number of the effect *)
  fs_tick : nat;
  fs_faults : nat -> option Fault;
}.

Definition fs_set (st : FsState) (t : Tree) : FsState :=
  MkFs t (fs_flocks st) (fs_mutexes st) (fs_next_mutex st) (S (fs_tick st)) (fs_faults st).

Definition fs_lock (st : FsState) (l : gset Path) (m : gset nat) : FsState :=
  MkFs (fs_tree st) l m (fs_next_mutex st) (S (fs_tick st)) (fs_faults st).

(** ** Effects *)

Inductive fsE : Type -> Type :=
| ClockNow : fsE Z
| NewMutex : fsE nat
| MutexLock (m : nat) : fsE unit
| MutexUnlock (m : nat) : fsE unit
| PathExists (p : Path) : fsE bool
| CreateDirAll (p : Path) : fsE (result unit string)
| OpenCreate (p : Path) : fsE (result unit string)
| FlockExclusive (p : Path) : fsE (result unit string)
| FlockRelease (p : Path) : fsE unit
| ReadFile (p : Path) : fsE (result bytes string)
| NewTempIn (dir : Path) : fsE (result Path string)
| WriteAll (p : Path) (b : bytes) : fsE (result unit string)
| Flush (p : Path) : fsE (result unit string)
| Persist (tmp p : Path) : fsE (result unit string)
| RemoveTemp (p : Path) : fsE unit
| SetPermissions (p : Path) (mode : Z) : fsE (result unit string).

Definition no_such_file : string := "No such file or directory".

(** A temporary name the directory does not have yet. *)
Definition temp_name (d : gmap string FileData) : string := fresh_string ".tmp" d.

(** [tempfile] and [OpenOptions] create with these modes. *)
Definition mode_600 : Z := 384.
Definition mode_644 : Z := 420.

(** The effect of a fallible call on a tree, when the system lets it run. *)
Definition fallible {A : Type} (st : FsState) (failed : nat -> Tree)
    (ok : result A string * Tree) : result A string * FsState :=
  match fs_faults st (fs_tick st) with
  | Some f => (Err (fault_msg f), fs_set st (failed (fault_written f)))
  | None => (ok.1, fs_set st ok.2)
  end.

Definition read_ok (t : Tree) (p : Path) : result bytes string * Tree :=
  (match file_at t p with Some f => Ok (f_data f) | None => Err no_such_file end, t).

Definition open_ok (t : Tree) (p : Path) : result unit string * Tree :=
  match file_at t p with
  | Some _ => (Ok tt, t)
  | None =>
      match path_parent p with
      | Some dir =>
          match t !! dir with
          | Some _ => (Ok tt, set_file t p (MkFile [] mode_644))
          | None => (Err no_such_file, t)
          end
      | None => (Err "Is a directory", t)
      end
  end.

Definition temp_ok (t : Tree) (dir : Path) : result Path string * Tree :=
  match t !! dir with
  | Some d =>
      let p := temp_name d :: dir in (Ok p, set_file t p (MkFile [] mode_600))
  | None => (Err no_such_file, t)
  end.

Definition append_to (t : Tree) (p : Path) (b : bytes) : Tree :=
  match file_at t p with
  | Some f => set_file t p (MkFile (f_data f ++ b) (f_mode f))
  | None => t
  end.

Definition rename_ok (t : Tree) (src dst : Path) : result unit string * Tree :=
  match file_at t src with
  | Some f => (Ok tt, set_file (remove_file t src) dst f)
  | None => (Err no_such_file, t)
  end.

Definition chmod_ok (t : Tree) (p : Path) (mode : Z) : result unit string * Tree :=
  match file_at t p with
  | Some f => (Ok tt, set_file t p (MkFile (f_data f) mode))
  | None => (Err no_such_file, t)
  end.

(** [clock] is what [Utc::now] shows. *)
Definition fs_handle (clock : nat -> Z) : handler fsE FsState := fun X e st =>
  let t := fs_tree st in
  match e in fsE X return option (X * FsState) with
  | ClockNow => Some (clock (fs_tick st), fs_set st t)
  | NewMutex =>
      Some (fs_next_mutex st, MkFs t (fs_flocks st) (fs_mutexes st) (S (fs_next_mutex st))
                                (S (fs_tick st)) (fs_faults st))
  | MutexLock m =>
      if decide (m ∈ fs_mutexes st) then None
      else Some (tt, fs_lock st (fs_flocks st) ({[m]} ∪ fs_mutexes st))
  | MutexUnlock m => Some (tt, fs_lock st (fs_flocks st) (fs_mutexes st ∖ {[m]}))
  | PathExists p => Some (bool_decide (is_Some (file_at t p)), fs_set st t)
  | CreateDirAll p => Some (fallible st (fun _ => t) (Ok tt, make_dirs p t))
  | OpenCreate p => Some (fallible st (fun _ => t) (open_ok t p))
  | FlockExclusive p =>
      if decide (p ∈ fs_flocks st) then None
      else match fs_faults st (fs_tick st) with
           | Some f => Some (Err (fault_msg f), fs_set st t)
           | None => Some (Ok tt, fs_lock st ({[p]} ∪ fs_flocks st) (fs_mutexes st))
           end
  | FlockRelease p => Some (tt, fs_lock st (fs_flocks st ∖ {[p]}) (fs_mutexes st))
  | ReadFile p => Some (fallible st (fun _ => t) (read_ok t p))
  | NewTempIn dir => Some (fallible st (fun _ => t) (temp_ok t dir))
  | WriteAll p b => Some (fallible st (fun n => append_to t p (take n b)) (Ok tt, append_to t p b))
  | Flush p => Some (fallible st (fun _ => t) (Ok tt, t))
  | Persist tmp p => Some (fallible st (fun _ => t) (rename_ok t tmp p))
  | RemoveTemp p =>
      (* dropping the handle ignores the error: the file may stay *)
      Some (tt, fs_set st (match fs_faults st (fs_tick st) with Some _ => t | None => remove_file t p end))
  | SetPermissions p mode => Some (fallible st (fun _ => t) (chmod_ok t p mode))
  end.

(** ** Lemmas *)

Lemma file_at_set t p q f :
  file_at (set_file t p f) q =
  if decide (p = q /\ is_Some (path_parent p ≫= (t !!.))) then Some f else file_at t q.
Proof.
  destruct p as [|n d], q as [|n' d']; cbn; try (case_decide as Hd; [|done]; by destruct Hd).
  destruct (decide (d = d')) as [<-|Hne].
  - rewrite lookup_alter_eq. destruct (t !! d) as [x|] eqn:E; cbn.
    + case_decide as Hd.
      * destruct Hd as [[= ->] _]. by rewrite lookup_insert_eq.
      * rewrite lookup_insert_ne; [done|]. intros ->. apply Hd. split; [done|eauto].
    + case_decide as Hd; [|done]. by destruct Hd as [_ [? [=]]].
  - rewrite lookup_alter_ne by done. case_decide as Hd; [|done].
    destruct Hd as [[= -> ->] _]. done.
Qed.

Lemma file_at_remove t p q :
  file_at (remove_file t p) q = if decide (p = q) then None else file_at t q.
Proof.
  destruct p as [|n d], q as [|n' d']; cbn; try (by case_decide).
  destruct (decide (d = d')) as [<-|Hne].
  - rewrite lookup_alter_eq. destruct (t !! d) as [x|] eqn:E; cbn.
    + case_decide as Hd; simplify_eq; [by rewrite lookup_delete_eq|].
      rewrite lookup_delete_ne; [done|congruence].
    + by case_decide.
  - rewrite lookup_alter_ne by done. case_decide; congruence.
Qed.

Lemma file_at_parent t p f : file_at t p = Some f -> is_Some (path_parent p ≫= (t !!.)).
Proof. destruct p as [|n d]; [done|]. cbn. destruct (t !! d); cbn; eauto. done. Qed.

(** Writing a file keeps the directories. *)
Lemma dirs_set t p f d : is_Some (set_file t p f !! d) <-> is_Some (t !! d).
Proof.
  destruct p as [|n d']; [done|]. cbn. rewrite lookup_alter. case_decide; subst; [|done].
  by rewrite fmap_is_Some.
Qed.

Lemma dirs_remove t p d : is_Some (remove_file t p !! d) <-> is_Some (t !! d).
Proof.
  destruct p as [|n d']; [done|]. cbn. rewrite lookup_alter. case_decide; subst; [|done].
  by rewrite fmap_is_Some.
Qed.

Lemma temp_name_fresh t dir d : t !! dir = Some d -> file_at t (temp_name d :: dir) = None.
Proof. intros Hd. cbn. rewrite Hd. cbn. apply fresh_string_fresh. Qed.
