(* ===== verification/LocalFile.v ===== *)
(** src/storage/local_file.rs: the JSON file store, as programs over the file
    system of Fs.v; its operations never block and are atomic under failures and
    crashes, and it meets the contract of Backend.v. *)
From S2P Require Export Fs Backend.

Record LocalFileStore : Type := MkLocalFileStore { vault_path : Path; process_lock : nat }.

Abbreviation DiskState := (gmap string StoredRecord).

Section LocalFile.
Context `{Base64, UuidFmt, Chrono, SerdeJson}.

(** [?] on a [std::io::Result]. *)
Definition io {A : Type} (e : fsE (result A string)) : prog fsE (result A StorageError) :=
  map_err_p Io (trigger e).

(** [join_error] *)
Definition join_error (e : string) : StorageError := Io e.

(** [spawn_blocking(p).await.map_err(join_error)?] *)
Definition blocking {A : Type} (p : prog fsE (result A StorageError)) :
  prog fsE (result A StorageError) :=
  r ← spawn_blocking p;
  Ret (match r with Ok x => x | Err m => Err (join_error m) end).

(** The temporary file is removed, if the system lets it be, when it is dropped
    before it was persisted. *)
Definition drop_temp {A : Type} (tmp : Path) (p : prog fsE (result A StorageError)) :
  prog fsE (result A StorageError) :=
  r ← p;
  match r with
  | Ok a => Ret (Ok a)
  | Err e => _ ← trigger (RemoveTemp tmp); Ret (Err e)
  end.

(** [write_atomic] *)
Definition write_atomic (vault_path : Path) (state : DiskState) :
  prog fsE (result unit StorageError) :=
  parent <-? Ret (ok_or (path_parent vault_path) (Io "vault path has no parent"));
  temp <-? io (NewTempIn parent);
  _ <-? drop_temp temp (
    json <-? Ret (map_err Json (to_vec_pretty (disk_to_json state)));
    _ <-? io (WriteAll temp json);
    _ <-? io (Flush temp);
    io (Persist temp vault_path));
  io (SetPermissions vault_path mode_600).

(** [LocalFileStore::new] *)
Definition local_new (vault_path : Path) : prog fsE (result LocalFileStore StorageError) :=
  _ <-? match path_parent vault_path with
        | Some parent => io (CreateDirAll parent)
        | None => Ret (Ok tt)
        end;
  exists_ ← trigger (PathExists vault_path);
  _ <-? (if (exists_ : bool) then Ret (Ok tt) else write_atomic vault_path ∅);
  process_lock ← trigger NewMutex;
  Ret (Ok {| vault_path := vault_path; process_lock := process_lock |}).

Definition lock_path (vault_path : Path) : Path := with_extension "lock" vault_path.

Definition open_lock_file (vault_path : Path) : prog fsE (result unit StorageError) :=
  io (OpenCreate (lock_path vault_path)).

Definition read_state (vault_path : Path) : prog fsE (result DiskState StorageError) :=
  content <-? io (ReadFile vault_path);
  Ret (map_err Json (try_r (from_document content) disk_of_json)).

(** [let _guard = self.process_lock.lock().await] for the rest of the body. *)
Definition with_process_lock {A : Type} (s : LocalFileStore) (body : prog fsE A) : prog fsE A :=
  _ ← trigger (MutexLock (process_lock s));
  on_exit (trigger (MutexUnlock (process_lock s))) body.

(** [let mut file_lock = open_lock_file(..)?; let _guard = file_lock.write()?] *)
Definition with_file_lock {A : Type} (vault_path : Path) (body : prog fsE (result A StorageError)) :
  prog fsE (result A StorageError) :=
  _ <-? open_lock_file vault_path;
  _ <-? io (FlockExclusive (lock_path vault_path));
  on_exit (trigger (FlockRelease (lock_path vault_path))) body.

Definition local_insert (s : LocalFileStore) (record_id : RecordId) (record : StoredRecord) :
  prog fsE (result unit StorageError) :=
  with_process_lock s (
    let key := uuid_hyphenated record_id in
    blocking (with_file_lock (vault_path s) (
      state <-? read_state (vault_path s);
      write_atomic (vault_path s) (<[key := record]> state)))).

Definition local_fetch (s : LocalFileStore) (record_id : RecordId) :
  prog fsE (result StoredRecord StorageError) :=
  with_process_lock s (
    let key := uuid_hyphenated record_id in
    blocking (with_file_lock (vault_path s) (
      state <-? read_state (vault_path s);
      Ret (ok_or (state !! key) NotFound)))).

Definition local_delete (s : LocalFileStore) (record_id : RecordId) :
  prog fsE (result bool StorageError) :=
  with_process_lock s (
    let key := uuid_hyphenated record_id in
    blocking (with_file_lock (vault_path s) (
      state <-? read_state (vault_path s);
      let existed := bool_decide (is_Some (state !! key)) in
      let state := delete key state in
      _ <-? (if existed then write_atomic (vault_path s) state else Ret (Ok tt));
      Ret (Ok existed)))).

Definition local_delete_expired (s : LocalFileStore) : prog fsE (result nat StorageError) :=
  with_process_lock s (
    now ← trigger ClockNow;
    blocking (with_file_lock (vault_path s) (
      state <-? read_state (vault_path s);
      let before := size state in
      let state := filter (fun kr => live_at now kr.2 = true) state in
      let removed := (before - size state)%nat in
      _ <-? (if (0 <? removed)%nat then write_atomic (vault_path s) state else Ret (Ok tt));
      Ret (Ok removed)))).
End LocalFile.

(** ** What a file holds *)

Section Holds.
Context `{Base64, Chrono, SerdeJson}.

(** The file at [p] decodes to the map [D]. *)
Definition holds (t : Tree) (p : Path) (D : DiskState) : Prop :=
  exists f doc, file_at t p = Some f /\ from_document (f_data f) = Ok doc /\
    disk_of_json doc = Ok D.

(** ... and only its owner may read it. *)
Definition written (t : Tree) (p : Path) (D : DiskState) : Prop :=
  holds t p D /\ f_mode <$> file_at t p = Some mode_600.

(** The locks, mutexes and failures to come are those of [st0]. *)
Definition same_sync (st0 st : FsState) : Prop :=
  fs_flocks st = fs_flocks st0 /\ fs_mutexes st = fs_mutexes st0 /\
  fs_faults st = fs_faults st0 /\ (fs_tick st0 <= fs_tick st)%nat /\
  fs_next_mutex st = fs_next_mutex st0.

Definition same_dirs (t0 t : Tree) : Prop := forall d, is_Some (t !! d) <-> is_Some (t0 !! d).

(** Every file of [t0] other than [p] is in [t] as it was. *)
Definition keeps_others (p : Path) (t0 t : Tree) : Prop :=
  forall q f, q <> p -> file_at t0 q = Some f -> file_at t q = Some f.

(** Nothing fails from here on. *)
Definition no_faults (st : FsState) : Prop :=
  forall n, (fs_tick st <= n)%nat -> fs_faults st n = None.

(** During a write of [D] to [p] begun in [st0]. *)
Definition writing (p : Path) (D : DiskState) (st0 st : FsState) : Prop :=
  same_sync st0 st /\ same_dirs (fs_tree st0) (fs_tree st) /\
  keeps_others p (fs_tree st0) (fs_tree st) /\
  (file_at (fs_tree st) p = file_at (fs_tree st0) p \/ written (fs_tree st) p D).
End Holds.

(** ** The primitives *)

Section Primitives.
Context (clock : nat -> Z).
Implicit Types (st : FsState).

Lemma wpc_io {A : Type} P (e : fsE (result A string)) failed ok Q st :
  fs_handle clock _ e st = Some (fallible st failed ok) ->
  P st ->
  (forall f, let st' := fs_set st (failed (fault_written f)) in
     fs_faults st (fs_tick st) = Some f -> P st' /\ Q (Err (Io (fault_msg f))) st') ->
  (fs_faults st (fs_tick st) = None ->
     P (fs_set st ok.2) /\ Q (map_err Io ok.1) (fs_set st ok.2)) ->
  wpc (fs_handle clock) P (io e) Q st.
Proof.
  intros He HP Hf Hok. cbn. rewrite He. unfold fallible. split; [done|].
  destruct (fs_faults st (fs_tick st)) as [f|]; [by apply Hf|by apply Hok].
Qed.

Lemma wpc_flock P path Q st :
  path ∉ fs_flocks st -> P st ->
  (forall f, fs_faults st (fs_tick st) = Some f ->
     let st' := fs_set st (fs_tree st) in P st' /\ Q (Err (Io (fault_msg f))) st') ->
  (let st' := fs_lock st ({[path]} ∪ fs_flocks st) (fs_mutexes st) in P st' /\ Q (Ok tt) st') ->
  wpc (fs_handle clock) P (io (FlockExclusive path)) Q st.
Proof.
  intros Hfree HP Hf Hok. cbn. rewrite decide_False by done. split; [done|].
  destruct (fs_faults st (fs_tick st)) as [f|]; cbn; [by apply Hf|done].
Qed.

Lemma same_sync_refl st : same_sync st st.
Proof. done. Qed.

Lemma same_sync_trans st1 st2 st3 : same_sync st1 st2 -> same_sync st2 st3 -> same_sync st1 st3.
Proof. unfold same_sync. intuition (try congruence; lia). Qed.

Lemma same_sync_set st0 st t : same_sync st0 st -> same_sync st0 (fs_set st t).
Proof. unfold same_sync; cbn. intuition lia. Qed.

Lemma no_faults_now st : no_faults st -> fs_faults st (fs_tick st) = None.
Proof. intros Hn. by apply Hn. Qed.

Lemma no_faults_sync st st' : no_faults st -> same_sync st st' -> no_faults st'.
Proof.
  intros Hn (_ & _ & Hf & Ht & _) n Hle. rewrite Hf. apply Hn. lia.
Qed.
End Primitives.

(** No effect brings a failure about. *)
Lemma run_no_faults {A : Type} clock (q : prog fsE A) st :
  no_faults st -> no_faults (run (fs_handle clock) q st).2.
Proof.
  revert st. induction q as [a| |X e k IH]; intros st Hn; cbn; [done..|].
  destruct (fs_handle clock X e st) as [[x st']|] eqn:He; [|done]. apply IH.
  assert (fs_faults st' = fs_faults st /\ fs_tick st' = S (fs_tick st)) as [Hf Ht].
  { destruct e; cbn in He; unfold fallible in He; repeat case_match; by simplify_eq. }
  intros n Hle. rewrite Hf. apply Hn. lia.
Qed.

(** ** The temporary file *)

Section Staged.
Implicit Types (t : Tree) (p q tmp : Path).

(** [t'] is [t] with the temporary file [tmp] holding [b]. *)
Definition staged (t : Tree) (tmp : Path) (b : bytes) (t' : Tree) : Prop :=
  same_dirs t t' /\ (forall q, q <> tmp -> file_at t' q = file_at t q) /\
  file_at t' tmp = Some (MkFile b mode_600).

Lemma same_dirs_refl t : same_dirs t t.
Proof. by intros d. Qed.

Lemma same_dirs_trans t1 t2 t3 : same_dirs t1 t2 -> same_dirs t2 t3 -> same_dirs t1 t3.
Proof. intros H1 H2 d. etrans; [apply H2|apply H1]. Qed.

Lemma same_dirs_set t p f : same_dirs t (set_file t p f).
Proof. intros d. apply dirs_set. Qed.

Lemma same_dirs_remove t p : same_dirs t (remove_file t p).
Proof. intros d. apply dirs_remove. Qed.

Lemma same_dirs_parent t t' p :
  same_dirs t t' -> is_Some (path_parent p ≫= (t !!.)) -> is_Some (path_parent p ≫= (t' !!.)).
Proof. intros Hd. destruct (path_parent p); cbn; [apply Hd|done]. Qed.

Lemma staged_new t dir d :
  t !! dir = Some d -> staged t (temp_name d :: dir) [] (temp_ok t dir).2.
Proof.
  intros Hd. unfold temp_ok. rewrite Hd. split_and!.
  - apply same_dirs_set.
  - intros q Hq. cbn [snd]. rewrite file_at_set. case_decide as Hc; [|done]. destruct Hc. congruence.
  - cbn [snd]. rewrite file_at_set, decide_True; [done|]. split; [done|]. cbn. by rewrite Hd.
Qed.

Lemma staged_append t tmp b c t' :
  staged t tmp b t' -> staged t tmp (b ++ c) (append_to t' tmp c).
Proof.
  intros (Hd & Hq & Ht). unfold append_to. rewrite Ht; cbn. split_and!.
  - eapply same_dirs_trans; [done|]. apply same_dirs_set.
  - intros q Hne. rewrite file_at_set, decide_False; [by apply Hq|]. intros []; congruence.
  - rewrite file_at_set, decide_True; [done|]. split; [done|]. by eapply file_at_parent.
Qed.

Lemma staged_remove t tmp b t' :
  file_at t tmp = None -> staged t tmp b t' ->
  forall q, file_at (remove_file t' tmp) q = file_at t q.
Proof.
  intros Hn (_ & Hq & _) q. rewrite file_at_remove. case_decide as Hd; [by subst|].
  apply Hq. congruence.
Qed.

Lemma staged_rename t tmp b p t' :
  file_at t tmp = None -> tmp <> p -> is_Some (path_parent p ≫= (t !!.)) -> staged t tmp b t' ->
  (rename_ok t' tmp p).1 = Ok tt /\
  let t2 := (rename_ok t' tmp p).2 in
  same_dirs t t2 /\ (forall q, q <> p -> file_at t2 q = file_at t q) /\
  file_at t2 p = Some (MkFile b mode_600).
Proof.
  intros Hn Hne Hp Hs. pose proof (staged_remove _ _ _ _ Hn Hs) as Hrm.
  destruct Hs as (Hd & Hq & Ht). unfold rename_ok. rewrite Ht; cbn. split; [done|].
  assert (Hd' : same_dirs t (remove_file t' tmp))
    by (eapply same_dirs_trans; [done|apply same_dirs_remove]).
  split_and!.
  - eapply same_dirs_trans; [done|]. apply same_dirs_set.
  - intros q Hqp. rewrite file_at_set, decide_False by (intros []; congruence). apply Hrm.
  - rewrite file_at_set, decide_True; [done|]. split; [done|]. by eapply same_dirs_parent.
Qed.

Lemma chmod_file t p mode f :
  file_at t p = Some f ->
  (chmod_ok t p mode).1 = Ok tt /\
  let t2 := (chmod_ok t p mode).2 in
  same_dirs t t2 /\ (forall q, q <> p -> file_at t2 q = file_at t q) /\
  file_at t2 p = Some (MkFile (f_data f) mode).
Proof.
  intros Hf. unfold chmod_ok. rewrite Hf; cbn. split_and!; [done|apply same_dirs_set| |].
  - intros q Hq. rewrite file_at_set, decide_False; [done|]. intros []; congruence.
  - rewrite file_at_set, decide_True; [done|]. split; [done|]. by eapply file_at_parent.
Qed.
End Staged.

(** ** [write_atomic] *)

Section WriteAtomic.
Context `{Base64Laws, ChronoLaws, SerdeJsonLaws} (clock : nat -> Z).
Implicit Types (st : FsState) (p : Path) (D : DiskState).

(** The name [tempfile] picks is not that of the vault file. *)
Definition temp_apart (t : Tree) (p : Path) : Prop :=
  forall dir d, path_parent p = Some dir -> t !! dir = Some d -> temp_name d :: dir <> p.

(** What [write_atomic p D], begun in [st], leaves behind. *)
Definition wrote (p : Path) (D : DiskState) (st : FsState) (r : result unit StorageError)
    (st' : FsState) : Prop :=
  writing p D st st' /\
  match r with
  | Ok _ => written (fs_tree st') p D /\
      forall q, q <> p -> file_at (fs_tree st') q = file_at (fs_tree st) q
  | Err e => e <> NotFound
  end /\
  (no_faults st -> is_Some (path_parent p ≫= (fs_tree st !!.)) -> is_ok r = true).

Lemma temp_apart_file t p : is_Some (file_at t p) -> temp_apart t p.
Proof.
  intros [f Hf] dir d _ Hd <-. pose proof (temp_name_fresh t dir d Hd). congruence.
Qed.

Lemma writing_refl p D st : writing p D st st.
Proof. split_and!; [done|apply same_dirs_refl|by intros ?|by left]. Qed.

Lemma writing_staged p D st st' tmp b t' :
  file_at (fs_tree st) tmp = None -> tmp <> p -> same_sync st st' ->
  staged (fs_tree st) tmp b t' -> writing p D st (fs_set st' t').
Proof.
  intros Hn Hne Hs (Hd & Hq & Ht). split_and!; cbn.
  - by apply same_sync_set.
  - done.
  - intros q f Hqp Hf. rewrite Hq; [done|]. congruence.
  - left. by apply Hq.
Qed.

Lemma writing_undone p D st st' t' :
  same_sync st st' -> same_dirs (fs_tree st) t' ->
  (forall q, file_at t' q = file_at (fs_tree st) q) -> writing p D st (fs_set st' t').
Proof.
  intros Hs Hd Hq. split_and!; cbn; [by apply same_sync_set|done| |].
  - intros q f _. by rewrite Hq.
  - left. apply Hq.
Qed.

Lemma writing_done p D st st' t' :
  same_sync st st' -> same_dirs (fs_tree st) t' ->
  (forall q, q <> p -> file_at t' q = file_at (fs_tree st) q) -> written t' p D ->
  writing p D st (fs_set st' t').
Proof.
  intros Hs Hd Hq Hw. split_and!; cbn; [by apply same_sync_set|done| |by right].
  intros q f Hne Hf. by rewrite Hq.
Qed.

(** A file with the text of [D] holds [D]. *)
Lemma written_json t p D b :
  map_Forall (fun _ r => record_times representable r) D ->
  to_vec_pretty (disk_to_json D) = Ok b -> file_at t p = Some (MkFile b mode_600) ->
  written t p D.
Proof.
  intros HD Hb Hf. split; [|by rewrite Hf].
  exists (MkFile b mode_600), (disk_to_json D). split_and!; [done| |by apply disk_json_roundtrip].
  apply from_document_to_vec_pretty; [apply disk_to_json_plain|done].
Qed.

(** Cleaning up after a failure leaves the temporary file at most. *)
Lemma wpc_remove_temp p D st st' tmp b e :
  file_at (fs_tree st) tmp = None -> tmp <> p -> same_sync st st' ->
  staged (fs_tree st) tmp b (fs_tree st') -> writing p D st st' -> e <> NotFound ->
  (no_faults st -> False) ->
  wpc (fs_handle clock) (writing p D st)
    (trigger (RemoveTemp tmp) ≫= fun _ => Ret (Err e))
    (fun r st'' => r = Err e /\ wrote p D st r st'') st'.
Proof.
  intros Hn Hne Hs Hst Hw He Hnf. cbn. split; [done|].
  pose proof (staged_remove _ _ _ _ Hn Hst) as Hrm.
  assert (Hd : same_dirs (fs_tree st) (remove_file (fs_tree st') tmp)).
  { eapply same_dirs_trans; [apply Hst|apply same_dirs_remove]. }
  assert (Hend : writing p D st (fs_set st' (match fs_faults st' (fs_tick st') with
                                              | Some _ => fs_tree st'
                                              | None => remove_file (fs_tree st') tmp
                                              end))).
  { destruct (fs_faults st' (fs_tick st')); [by eapply writing_staged|by apply writing_undone]. }
  split; [done|]. split; [done|]. split_and!; [done|done|naive_solver].
Qed.

(** The part of [write_atomic] between creating the temporary file and renaming
    it into place. *)
Definition persisted p D st0 (r : result unit StorageError) st' : Prop :=
  same_sync st0 st' /\
  match r with
  | Ok _ => same_dirs (fs_tree st0) (fs_tree st') /\
      (forall q, q <> p -> file_at (fs_tree st') q = file_at (fs_tree st0) q) /\
      written (fs_tree st') p D
  | Err e => e <> NotFound /\ (no_faults st0 -> False)
  end.

Ltac io_step HP :=
  eapply wpc_io; [reflexivity|exact HP| |];
  [intros f; cbn zeta; intros ?|intros ?].

Lemma fault_not_healthy st0 st f :
  same_sync st0 st -> fs_faults st (fs_tick st) = Some f -> no_faults st0 -> False.
Proof.
  intros Hs Hf Hn. pose proof (no_faults_now _ (no_faults_sync _ _ Hn Hs)). congruence.
Qed.

Lemma wpc_temp_body p D st0 st tmp :
  map_Forall (fun _ r => record_times representable r) D ->
  file_at (fs_tree st0) tmp = None -> tmp <> p ->
  is_Some (path_parent p ≫= (fs_tree st0 !!.)) -> same_sync st0 st ->
  staged (fs_tree st0) tmp [] (fs_tree st) -> writing p D st0 st ->
  wpc (fs_handle clock) (writing p D st0)
    (json <-? Ret (map_err Json (to_vec_pretty (disk_to_json D)));
     _ <-? io (WriteAll tmp json);
     _ <-? io (Flush tmp);
     io (Persist tmp p))
    (fun r st' => persisted p D st0 r st' /\
       (is_ok r = false -> exists b, staged (fs_tree st0) tmp b (fs_tree st'))) st.
Proof.
  intros HD Hn Hne Hp Hs Hst Hw.
  pose proof (to_vec_pretty_total _ (disk_to_json_plain D)) as Htot.
  destruct (to_vec_pretty (disk_to_json D)) as [b|] eqn:Hb; [|done]. clear Htot.
  cbn [map_err]. unfold try_p at 1. cbn [mbind prog_bind].
  apply wpc_try. io_step Hw.
  { pose proof (staged_append _ _ _ (take (fault_written f) b) _ Hst) as Hst'.
    split; [by eapply writing_staged|]. intros _.
    split; [split; [by apply same_sync_set|]|intros _; by eexists].
    split; [done|]. by eapply fault_not_healthy. }
  pose proof (staged_append _ _ _ b _ Hst) as Hst1. rewrite app_nil_l in Hst1.
  cbn [fst snd map_err]. set (st1 := fs_set st _).
  assert (same_sync st0 st1) as Hs1 by by apply same_sync_set.
  assert (writing p D st0 st1) as Hw1 by by eapply writing_staged.
  split; [done|]. apply wpc_try. io_step Hw1.
  { split; [by eapply writing_staged|]. intros _.
    split; [split; [by apply same_sync_set|]|intros _; by eexists].
    split; [done|]. by eapply fault_not_healthy. }
  cbn [fst snd map_err]. set (st2 := fs_set st1 _).
  assert (same_sync st0 st2) as Hs2 by by apply same_sync_set.
  assert (writing p D st0 st2) as Hw2 by by eapply writing_staged.
  split; [done|]. io_step Hw2.
  { split; [by eapply writing_staged|].
    split; [split; [by apply same_sync_set|]|intros _; by eexists].
    split; [done|]. by eapply fault_not_healthy. }
  destruct (staged_rename _ _ _ _ (fs_tree st2) Hn Hne Hp Hst1) as (-> & Hd & Hq & Hf).
  assert (written (rename_ok (fs_tree st2) tmp p).2 p D) as Hwr by by eapply written_json.
  split; [by eapply writing_done|]. split; [|done]. split; [by apply same_sync_set|]. by split_and!.
Qed.

Lemma wpc_write_atomic p D st :
  map_Forall (fun _ r => record_times representable r) D -> temp_apart (fs_tree st) p ->
  wpc (fs_handle clock) (writing p D st) (write_atomic p D) (wrote p D st) st.
Proof.
  intros HD Hap. pose proof (writing_refl p D st) as Hw. unfold write_atomic.
  destruct (path_parent p) as [dir|] eqn:Hdir.
  2:{ cbn. split; [done|]. split_and!; [done|done|]. rewrite Hdir. by intros _ [? [=]]. }
  unfold try_p at 1. cbn [ok_or mbind prog_bind]. apply wpc_try. io_step Hw.
  { split; [by apply writing_undone|]. intros _.
    split_and!; [by apply writing_undone|done|].
    intros Hn. by destruct (fault_not_healthy st st f). }
  destruct (fs_tree st !! dir) as [d|] eqn:Hd.
  2:{ unfold temp_ok. rewrite Hd. cbn. split; [by apply writing_undone|]. intros _.
      split_and!; [by apply writing_undone|done|]. rewrite Hdir; cbn. rewrite Hd. by intros _ [? [=]]. }
  pose proof (staged_new _ _ _ Hd) as Hst. pose proof (temp_name_fresh _ _ _ Hd) as Hfresh.
  specialize (Hap _ _ Hdir Hd). set (tmp := temp_name d :: dir) in *.
  assert (Hok : (temp_ok (fs_tree st) dir).1 = Ok tmp) by by (unfold temp_ok; rewrite Hd).
  rewrite Hok. cbn [map_err]. set (st1 := fs_set st _).
  assert (same_sync st st1) as Hs1 by by apply same_sync_set.
  assert (writing p D st st1) as Hw1 by by eapply writing_staged.
  assert (Hpar : is_Some (path_parent p ≫= (fs_tree st !!.))) by (rewrite Hdir; cbn; eauto).
  split; [done|]. apply wpc_try, wpc_bind.
  eapply wpc_mono; [by apply (wpc_temp_body p D st st1 tmp)|done|].
  intros r st2 Hw2 [[Hs2 Hr] Herr]. destruct r as [[]|e]; cycle 1.
  { destruct Hr as [He Hnf], (Herr eq_refl) as [b Hst2].
    eapply wpc_mono; [by apply (wpc_remove_temp p D st st2 tmp b e)|done|].
    by intros r st3 _ [-> Hwrote]. }
  destruct Hr as (Hd2 & Hq2 & Hwr2). split; [done|].
  destruct (proj1 Hwr2) as (f2 & doc & Hf2 & Hdoc & HD2).
  io_step Hw2.
  { assert (writing p D st (fs_set st2 (fs_tree st2))) by by apply writing_done.
    split; [done|]. split_and!; [done|done|]. intros Hn _. by destruct (fault_not_healthy st st2 f). }
  destruct (chmod_file _ _ mode_600 _ Hf2) as (-> & Hd3 & Hq3 & Hf3).
  set (t3 := (chmod_ok _ p mode_600).2) in *.
  assert (written t3 p D) as Hwr3.
  { split; [|by rewrite Hf3]. by exists (MkFile (f_data f2) mode_600), doc. }
  assert (Hq : forall q, q <> p -> file_at t3 q = file_at (fs_tree st) q)
    by (intros q Hq; rewrite Hq3, Hq2; done).
  assert (writing p D st (fs_set st2 t3))
    by (apply writing_done; [done|by eapply same_dirs_trans|done|done]).
  split; [done|]. by split_and!.
Qed.
End WriteAtomic.

(** ** The locked operations *)

Section Locked.
Context `{Base64Laws, UuidFmtLaws, ChronoLaws, SerdeJsonLaws} (clock : nat -> Z).
Implicit Types (st : FsState) (p : Path) (D : DiskState).

(** At any moment of an operation that may replace the contents of [p] by [D],
    begun in [st0]: the file is intact or replaced as a whole. *)
Definition file_safe (p : Path) (D : DiskState) (st0 st : FsState) : Prop :=
  fs_faults st = fs_faults st0 /\ (fs_tick st0 <= fs_tick st)%nat /\
  same_dirs (fs_tree st0) (fs_tree st) /\ keeps_others p (fs_tree st0) (fs_tree st) /\
  (file_at (fs_tree st) p = file_at (fs_tree st0) p \/ written (fs_tree st) p D).

(** [st] is [st0] but for locks, and perhaps a fresh lock file. *)
Definition opened (p : Path) (st0 st : FsState) : Prop :=
  fs_faults st = fs_faults st0 /\ (fs_tick st0 <= fs_tick st)%nat /\
  same_dirs (fs_tree st0) (fs_tree st) /\ keeps_others p (fs_tree st0) (fs_tree st) /\
  file_at (fs_tree st) p = file_at (fs_tree st0) p.

Lemma opened_refl p st : opened p st st.
Proof. split_and!; [done..|apply same_dirs_refl|by intros ?|done]. Qed.

Lemma opened_safe p D st0 st : opened p st0 st -> file_safe p D st0 st.
Proof. intros (? & ? & ? & ? & ?). split_and!; auto. Qed.

Lemma opened_set p st0 st : opened p st0 st -> opened p st0 (fs_set st (fs_tree st)).
Proof. intros (? & ? & ? & ? & ?). split_and!; cbn; auto. Qed.

Lemma opened_lock p st0 st l m : opened p st0 st -> opened p st0 (fs_lock st l m).
Proof. intros (? & ? & ? & ? & ?). split_and!; cbn; auto. Qed.

Lemma safe_lock p D st0 st l m : file_safe p D st0 st -> file_safe p D st0 (fs_lock st l m).
Proof. intros (? & ? & ? & ? & ?). split_and!; cbn; auto. Qed.

Lemma opened_no_faults p st0 st : opened p st0 st -> no_faults st0 -> no_faults st.
Proof. intros (Hf & Ht & _) Hn n Hle. rewrite Hf. apply Hn. lia. Qed.

Lemma opened_faulty p st0 st f :
  opened p st0 st -> fs_faults st (fs_tick st) = Some f -> no_faults st0 -> False.
Proof.
  intros Ho Hf Hn. pose proof (no_faults_now _ (opened_no_faults _ _ _ Ho Hn)). congruence.
Qed.

Lemma opened_holds p st0 st D : opened p st0 st -> holds (fs_tree st0) p D -> holds (fs_tree st) p D.
Proof. intros (_ & _ & _ & _ & Hp) (f & doc & ? & ?). exists f, doc. by rewrite Hp. Qed.

Lemma opened_writing p D st0 st st' : opened p st0 st -> writing p D st st' -> file_safe p D st0 st'.
Proof.
  intros (Hf & Ht & Hd & Hk & Hp) ((_ & _ & Hf' & Ht' & _) & Hd' & Hk' & Hp'). split_and!.
  - congruence.
  - lia.
  - by eapply same_dirs_trans.
  - intros q f Hne Hq. apply Hk'; [done|]. by apply Hk.
  - destruct Hp' as [Hp'|]; [left; congruence|by right].
Qed.

(** Opening the lock file creates it at most, and cannot fail by itself next to
    a vault file. *)
Lemma lock_path_parent p : path_parent (lock_path p) = path_parent p.
Proof. destruct p as [|n d]; [done|]. unfold lock_path; cbn. by case_bool_decide. Qed.

Lemma open_lock_ok p t f :
  file_at t p = Some f ->
  (open_ok t (lock_path p)).1 = Ok tt /\
  let t' := (open_ok t (lock_path p)).2 in
  same_dirs t t' /\ keeps_others p t t' /\ file_at t' p = file_at t p.
Proof.
  intros Hf. unfold open_ok. destruct (file_at t (lock_path p)) as [g|] eqn:Hl; cbn.
  { split_and!; [done|apply same_dirs_refl|by intros ?|done]. }
  rewrite lock_path_parent. destruct (file_at_parent _ _ _ Hf) as [d Hd].
  destruct (path_parent p) as [dir|]; [|done]. cbn in Hd. rewrite Hd; cbn. split_and!; [done| | |].
  - apply same_dirs_set.
  - intros q g _ Hg. rewrite file_at_set, decide_False; [done|]. intros []; congruence.
  - rewrite file_at_set, decide_False; [done|]. intros []; congruence.
Qed.

Lemma opened_open p st0 st f :
  opened p st0 st -> file_at (fs_tree st) p = Some f ->
  opened p st0 (fs_set st (open_ok (fs_tree st) (lock_path p)).2).
Proof.
  intros (Hf & Ht & Hd & Hk & Hp) Hfile.
  destruct (open_lock_ok _ _ _ Hfile) as (_ & Hd' & Hk' & Hp'). split_and!; cbn; [done|lia| | |].
  - by eapply same_dirs_trans.
  - intros q g Hne Hq. apply Hk'; [done|]. by apply Hk.
  - congruence.
Qed.

(** *** The process lock *)
Lemma wpc_process_lock {A : Type} P s (body : prog fsE A) (Q : A -> FsState -> Prop) st :
  process_lock s ∉ fs_mutexes st -> P st -> (forall st l m, P st -> P (fs_lock st l m)) ->
  wpc (fs_handle clock) P body
    (fun a st' => fs_mutexes st' = {[process_lock s]} ∪ fs_mutexes st /\
       Q a (fs_lock st' (fs_flocks st') (fs_mutexes st)))
    (fs_lock st (fs_flocks st) ({[process_lock s]} ∪ fs_mutexes st)) ->
  wpc (fs_handle clock) P (with_process_lock s body) Q st.
Proof.
  intros Hfree HP Hstable Hb. unfold with_process_lock, trigger. cbn.
  rewrite decide_False by done. split; [done|].
  apply wpc_on_exit. eapply wpc_mono; [exact Hb|done|]. intros a st' HP' [Hm HQ]. cbn.
  rewrite Hm. replace (({[process_lock s]} ∪ fs_mutexes st) ∖ {[process_lock s]})
    with (fs_mutexes st) by set_solver.
  split; [done|]. split; [by apply Hstable|done].
Qed.

(** *** The file lock

    [F] relates the answer to the tree the operation leaves; the body is run on
    the map [D] the file holds. *)
Section FileLock.
Context {A : Type} (p : Path) (D D' : DiskState) (st0 : FsState).
Context (k : DiskState -> prog fsE (result A StorageError)).
Context (F : result A StorageError -> Tree -> Prop).

Definition early_ok : Prop := forall t e,
  e <> NotFound -> (no_faults st0 -> False) -> file_at t p = file_at (fs_tree st0) p -> F (Err e) t.

Definition ends_in (st : FsState) (r : result A StorageError) (st' : FsState) : Prop :=
  same_sync st st' /\ F r (fs_tree st').

Definition body_ok : Prop := forall st1,
  opened p st0 st1 -> wpc (fs_handle clock) (file_safe p D' st0) (k D) (ends_in st1) st1.

Lemma early_fault st st' f :
  early_ok -> opened p st0 st -> fs_faults st (fs_tick st) = Some f -> same_sync st' st ->
  let st2 := fs_set st (fs_tree st) in
  file_safe p D' st0 st2 /\ ends_in st' (Err (Io (fault_msg f))) st2.
Proof.
  intros He Ho Hf Hs. split; [by apply opened_safe, opened_set|]. split; [by apply same_sync_set|].
  apply He; [done|by eapply opened_faulty|]. apply Ho.
Qed.

Lemma wpc_read_state st :
  early_ok -> body_ok -> opened p st0 st -> holds (fs_tree st0) p D ->
  wpc (fs_handle clock) (file_safe p D' st0) (state <-? read_state p; k state) (ends_in st) st.
Proof.
  intros He Hb Ho Hh. destruct (opened_holds _ _ _ _ Ho Hh) as (f & doc & Hf & Hdoc & HD).
  unfold read_state. apply wpc_try, wpc_try.
  eapply wpc_io; [done|by apply opened_safe| |].
  { intros g; cbn zeta. intros Hg. destruct (early_fault st st g He Ho Hg (same_sync_refl st)). by split. }
  intros _. unfold read_ok. rewrite Hf. cbn [fst snd map_err].
  pose proof (opened_set _ _ _ Ho) as Ho'. split; [by apply opened_safe|].
  split; [by apply opened_safe|]. rewrite Hdoc; cbn [try_r]. rewrite HD; cbn [map_err].
  eapply wpc_mono; [by apply Hb|done|]. intros r st' _ [Hs HF]. split; [|done].
  eapply same_sync_trans; [|exact Hs]. by apply same_sync_set.
Qed.

Lemma wpc_file_lock st :
  early_ok -> body_ok -> opened p st0 st -> holds (fs_tree st0) p D ->
  lock_path p ∉ fs_flocks st ->
  wpc (fs_handle clock) (file_safe p D' st0)
    (blocking (with_file_lock p (state <-? read_state p; k state))) (ends_in st) st.
Proof.
  intros He Hb Ho Hh Hfree. unfold blocking, with_file_lock, open_lock_file.
  destruct (opened_holds _ _ _ _ Ho Hh) as (f & doc & Hf & _).
  apply wpc_bind, wpc_spawn, wpc_try.
  eapply wpc_io; [done|by apply opened_safe| |].
  { intros g; cbn zeta. intros Hg. destruct (early_fault st st g He Ho Hg (same_sync_refl st)).
    split; [done|]. intros _. by split. }
  intros _. pose proof (opened_open _ _ _ _ Ho Hf) as Ho1.
  destruct (open_lock_ok _ _ _ Hf) as (-> & _). cbn [map_err].
  set (st1 := fs_set st _) in *. split; [by apply opened_safe|].
  assert (Hs1 : same_sync st st1) by by apply same_sync_set.
  apply wpc_try, wpc_flock; [done|by apply opened_safe| |].
  { intros g Hg; cbn zeta. destruct (early_fault st1 st g He Ho1 Hg Hs1).
    split; [done|]. intros _. by split. }
  pose proof (opened_lock p st0 st1 ({[lock_path p]} ∪ fs_flocks st1) (fs_mutexes st1) Ho1) as Ho2.
  cbn zeta. split; [by apply opened_safe|].
  apply wpc_on_exit. eapply wpc_mono; [by apply wpc_read_state|done|].
  intros r st3 Hsafe [(Hl & Hm & Hft & Htk & Hnm) HF]. cbn -[fs_lock] in Hl, Hm, Hft, Htk, Hnm |- *.
  split; [done|]. split; [by apply safe_lock|]. split; [by apply safe_lock|].
  split; [|done]. unfold same_sync; cbn. rewrite Hl, Hm, Hft, Hnm. subst st1. cbn in Htk |- *.
  split_and!; [set_solver|done|done|lia|done].
Qed.
End FileLock.
End Locked.

(** ** The operations meet the contract *)

Section Operations.
Context `{Base64Laws, UuidFmtLaws, ChronoLaws, SerdeJsonLaws} (clock : nat -> Z).
Implicit Types (st : FsState) (p : Path) (D : DiskState) (m : Records) (id : RecordId).

Definition disk_of_records (m : Records) : DiskState := kmap uuid_hyphenated m.

Definition times_ok (m : Records) : Prop :=
  map_Forall (fun _ r => record_times representable r) m.

(** The vault file at [p] holds the records [m]. *)
Definition file_rep (p : Path) (t : Tree) (m : Records) : Prop :=
  holds t p (disk_of_records m) /\ times_ok m.

(** The answer [r] of an operation on the records [m], begun in [st0], and the
    tree it leaves: [post] relates the records; [fine] tells which answers are
    possible when nothing fails. *)
Definition answers {A : Type} (p : Path) (st0 : FsState) (post : result A StorageError -> Records -> Prop)
    (fine : result A StorageError -> Prop) (r : result A StorageError) (t : Tree) : Prop :=
  (exists m', file_rep p t m' /\ post r m') /\ (no_faults st0 -> fine r).

Lemma disk_times m :
  times_ok m -> map_Forall (fun _ r => record_times representable r) (disk_of_records m).
Proof. exact (map_Forall_kmap (K1 := RecordId) uuid_hyphenated (record_times representable) m). Qed.

Lemma disk_lookup m id : disk_of_records m !! uuid_hyphenated id = m !! id.
Proof. apply lookup_kmap, _. Qed.

Lemma disk_insert m id r :
  <[uuid_hyphenated id := r]> (disk_of_records m) = disk_of_records (<[id := r]> m).
Proof. symmetry. apply kmap_insert, _. Qed.

Lemma disk_delete m id :
  delete (uuid_hyphenated id) (disk_of_records m) = disk_of_records (delete id m).
Proof. symmetry. apply kmap_delete, _. Qed.

Lemma disk_sweep now m :
  filter (fun kr => live_at now kr.2 = true) (disk_of_records m) = disk_of_records (sweep now m).
Proof. exact (filter_kmap (K1 := RecordId) uuid_hyphenated (fun r => live_at now r = true) m). Qed.

Lemma disk_size m : size (disk_of_records m) = size m.
Proof. exact (size_kmap (K1 := RecordId) uuid_hyphenated m). Qed.

Lemma holds_same t t' p D : file_at t' p = file_at t p -> holds t p D -> holds t' p D.
Proof. intros Hp (f & doc & Hf & Hd). exists f, doc. by rewrite Hp. Qed.

Lemma times_insert m id r : times_ok m -> record_times representable r -> times_ok (<[id := r]> m).
Proof. intros. by apply map_Forall_insert_2. Qed.

Lemma times_delete m id : times_ok m -> times_ok (delete id m).
Proof. intros. by apply map_Forall_delete. Qed.

Lemma times_sweep now m : times_ok m -> times_ok (sweep now m).
Proof. intros Hm id r [Hr _]%lookup_sweep. by eapply Hm. Qed.

(** Writing the records [m'] in place of [m], in an operation begun in
    [st0]. *)
Lemma wpc_rewrite p m m' st0 st :
  opened p st0 st -> file_rep p (fs_tree st0) m -> times_ok m' ->
  wpc (fs_handle clock) (file_safe p (disk_of_records m') st0) (write_atomic p (disk_of_records m'))
    (fun r st' => same_sync st st' /\
       answers p st0 (fun r m1 => match r with
                                  | Ok _ => m1 = m'
                                  | Err e => e <> NotFound /\ (m1 = m \/ m1 = m')
                                  end) (fun r => is_ok r = true) r (fs_tree st')) st.
Proof.
  intros Ho [Hh Hm] Hm'. pose proof (opened_holds _ _ _ _ Ho Hh) as (f & doc & Hf & Hdoc).
  eapply wpc_mono.
  - apply wpc_write_atomic; [by apply disk_times|]. apply temp_apart_file. eauto.
  - intros st'. by apply opened_writing.
  - intros r st' _ (Hw & Hr & Hn). split; [apply Hw|]. split.
    + destruct r as [[]|e].
      * exists m'. split; [split; [apply Hr|done]|done].
      * destruct Hw as (_ & _ & _ & [Hsame|[Hwr _]]).
        -- exists m. split; [|by auto]. split; [|done]. eapply holds_same; [done|]. by exists f, doc.
        -- exists m'. split; [|by auto]. by split.
    + intros Hn0. apply Hn; [by eapply opened_no_faults|]. by eapply file_at_parent.
Qed.

(** Neither lock of the store is held. *)
Definition unlocked (s : LocalFileStore) (st : FsState) : Prop :=
  process_lock s ∉ fs_mutexes st /\ lock_path (vault_path s) ∉ fs_flocks st.

Definition op_body {A : Type} (s : LocalFileStore) (k : DiskState -> prog fsE (result A StorageError)) :
  prog fsE (result A StorageError) :=
  blocking (with_file_lock (vault_path s) (state <-? read_state (vault_path s); k state)).

(** A locked operation, possibly after reading the clock. *)
Lemma wpc_locked {A : Type} s D D' (k : DiskState -> prog fsE (result A StorageError)) F st :
  unlocked s st -> holds (fs_tree st) (vault_path s) D ->
  early_ok (vault_path s) st F -> body_ok clock (vault_path s) D D' st k F ->
  wpc (fs_handle clock) (file_safe (vault_path s) D' st) (with_process_lock s (op_body s k))
    (ends_in F st) st.
Proof.
  intros [Hm Hl] Hh He Hb. pose proof (opened_refl (vault_path s) st) as Ho.
  apply wpc_process_lock; [done|by apply opened_safe|intros; by apply safe_lock|].
  eapply wpc_mono; [apply (wpc_file_lock clock _ D D' st k F); try done;
                    by apply opened_lock|done|].
  intros r st' _ [(Hl' & Hm' & Hf & Ht & Hnm) HF]. cbn in *. split; [done|].
  split; [|done]. split_and!; cbn; try done. lia.
Qed.

Lemma wpc_locked_clock {A : Type} s D D' (k : Z -> DiskState -> prog fsE (result A StorageError)) F st :
  let now := clock (S (fs_tick st)) in
  unlocked s st -> holds (fs_tree st) (vault_path s) D ->
  early_ok (vault_path s) st F -> body_ok clock (vault_path s) D D' st (k now) F ->
  wpc (fs_handle clock) (file_safe (vault_path s) D' st)
    (with_process_lock s (now ← trigger ClockNow; op_body s (k now))) (ends_in F st) st.
Proof.
  cbn zeta. intros [Hm Hl] Hh He Hb. pose proof (opened_refl (vault_path s) st) as Ho.
  apply wpc_process_lock; [done|by apply opened_safe|intros; by apply safe_lock|].
  cbn [trigger mbind prog_bind wpc fs_handle]. split; [by apply opened_safe, opened_lock|].
  eapply wpc_mono; [apply (wpc_file_lock clock _ D D' st (k (clock (S (fs_tick st)))) F); try done;
                    by apply opened_set, opened_lock|done|].
  intros r st' _ [(Hl' & Hm' & Hf & Ht & Hnm) HF]. cbn in *. split; [done|].
  split; [|done]. split_and!; cbn; try done. lia.
Qed.

Lemma early_answers {A : Type} p st0 m post fine :
  file_rep p (fs_tree st0) m -> (forall e, e <> NotFound -> post (Err e) m) ->
  early_ok (A := A) p st0 (answers p st0 post fine).
Proof.
  intros [Hh Hm] Hpost t e He Hnf Hp. split; [|by intros ?].
  exists m. split; [|by apply Hpost]. split; [by eapply holds_same|done].
Qed.

Lemma answers_mono {A B : Type} p st0 (post : result A StorageError -> Records -> Prop)
    (post' : result B StorageError -> Records -> Prop) fine fine' r r' t :
  answers p st0 post fine r t -> (forall m, post r m -> post' r' m) -> (fine r -> fine' r') ->
  answers p st0 post' fine' r' t.
Proof. intros [(m' & ? & ?) Hf] Hp Hf'. split; [|by auto]. exists m'. auto. Qed.

Lemma opened_answers {A : Type} p st0 st m post fine (r : result A StorageError) :
  opened p st0 st -> file_rep p (fs_tree st0) m -> post r m -> fine r ->
  answers p st0 post fine r (fs_tree st).
Proof.
  intros Ho [Hh Hm] Hp Hf. split; [|done]. exists m. split; [|done].
  split; [by eapply opened_holds|done].
Qed.

(** *** What the operations do with the map they have read *)
Section Bodies.
Context (p : Path) (m : Records) (st0 : FsState) (Hrep : file_rep p (fs_tree st0) m).

Lemma insert_body id r :
  record_times representable r ->
  body_ok clock p (disk_of_records m) (disk_of_records (<[id := r]> m)) st0
    (fun state => write_atomic p (<[uuid_hyphenated id := r]> state))
    (answers p st0 (insert_post id r m) (fun a => is_ok a = true)).
Proof.
  intros Hr st1 Ho. rewrite disk_insert.
  eapply wpc_mono; [apply wpc_rewrite; [done|done|apply times_insert; [apply Hrep|done]]|done|].
  intros a st2 _ [Hs Ha]. by split.
Qed.

Lemma fetch_body id :
  body_ok clock p (disk_of_records m) (disk_of_records m) st0
    (fun state => Ret (ok_or (state !! uuid_hyphenated id) NotFound))
    (answers p st0 (fetch_post id m) (fun a => a = ok_or (m !! id) NotFound)).
Proof.
  intros st1 Ho. rewrite disk_lookup. cbn. split; [by apply opened_safe|].
  split; [done|]. eapply opened_answers; [done..| |done].
  split; [done|]. by destruct (m !! id).
Qed.

Lemma delete_body id :
  body_ok clock p (disk_of_records m) (disk_of_records (delete id m)) st0
    (fun state =>
       let existed := bool_decide (is_Some (state !! uuid_hyphenated id)) in
       let state := delete (uuid_hyphenated id) state in
       _ <-? (if existed then write_atomic p state else Ret (Ok tt));
       Ret (Ok existed))
    (answers p st0 (delete_post id m) (fun a => is_ok a = true)).
Proof.
  intros st1 Ho. cbn zeta. rewrite disk_lookup, disk_delete. case_bool_decide as Hid.
  - apply wpc_try. eapply wpc_mono.
    + apply wpc_rewrite; [done|done|apply times_delete, Hrep].
    + done.
    + intros a st2 Hsafe [Hs Ha]. destruct a as [[]|e]; cbn.
      * split; [done|]. split; [done|]. eapply answers_mono; [exact Ha| |done].
        intros m' ->. cbn. by rewrite bool_decide_true.
      * intros _. split; [done|]. by eapply answers_mono; [exact Ha|..].
  - cbn. split; [by apply opened_safe|]. split; [done|].
    eapply opened_answers; [done..| |done]. cbn. rewrite bool_decide_false by done.
    split; [done|]. symmetry. apply delete_id. by apply eq_None_not_Some.
Qed.

Lemma sweep_body now :
  body_ok clock p (disk_of_records m) (disk_of_records (sweep now m)) st0
    (fun state =>
       let before := size state in
       let state := filter (fun kr => live_at now kr.2 = true) state in
       let removed := (before - size state)%nat in
       _ <-? (if (0 <? removed)%nat then write_atomic p state else Ret (Ok tt));
       Ret (Ok removed))
    (answers p st0 (sweep_post now m) (fun a => is_ok a = true)).
Proof.
  intros st1 Ho. cbn zeta. rewrite disk_sweep, !disk_size.
  destruct (Nat.ltb_spec 0 (size m - size (sweep now m))) as [Hn|Hn].
  - apply wpc_try. eapply wpc_mono.
    + apply wpc_rewrite; [done|done|apply times_sweep, Hrep].
    + done.
    + intros a st2 Hsafe [Hs Ha]. destruct a as [[]|e]; cbn.
      * split; [done|]. split; [done|]. eapply answers_mono; [exact Ha| |done]. by intros m' ->.
      * intros _. split; [done|]. by eapply answers_mono; [exact Ha|..].
  - cbn. split; [by apply opened_safe|]. split; [done|].
    eapply opened_answers; [done..| |done]. cbn. split; [|done]. symmetry.
    apply map_subseteq_size_eq; [|lia]. apply map_filter_subseteq.
Qed.
End Bodies.

(** A failure before the body runs leaves the records alone. *)
Lemma insert_early id r m e : e <> NotFound -> insert_post id r m (Err e) m.
Proof. split; auto. Qed.

Lemma fetch_early id m e : e <> NotFound -> fetch_post id m (Err e) m.
Proof. split; [done|]. by destruct e. Qed.

Lemma delete_early id m e : e <> NotFound -> delete_post id m (Err e) m.
Proof. split; auto. Qed.

Lemma sweep_early now m e : e <> NotFound -> sweep_post now m (Err e) m.
Proof. split; auto. Qed.

(** *** The whole operations *)
Lemma local_insert_ok s id r m st :
  unlocked s st -> file_rep (vault_path s) (fs_tree st) m -> record_times representable r ->
  wpc (fs_handle clock) (file_safe (vault_path s) (disk_of_records (<[id := r]> m)) st)
    (local_insert s id r)
    (ends_in (answers (vault_path s) st (insert_post id r m) (fun a => is_ok a = true)) st) st.
Proof.
  intros Hl Hrep Hr. apply (wpc_locked s (disk_of_records m)); [done|apply Hrep| |].
  - by eapply early_answers, insert_early.
  - by apply insert_body.
Qed.

Lemma local_fetch_ok s id m st :
  unlocked s st -> file_rep (vault_path s) (fs_tree st) m ->
  wpc (fs_handle clock) (file_safe (vault_path s) (disk_of_records m) st)
    (local_fetch s id)
    (ends_in (answers (vault_path s) st (fetch_post id m)
       (fun a => a = ok_or (m !! id) NotFound)) st) st.
Proof.
  intros Hl Hrep. apply (wpc_locked s (disk_of_records m)); [done|apply Hrep| |].
  - by eapply early_answers, fetch_early.
  - by apply fetch_body.
Qed.

Lemma local_delete_ok s id m st :
  unlocked s st -> file_rep (vault_path s) (fs_tree st) m ->
  wpc (fs_handle clock) (file_safe (vault_path s) (disk_of_records (delete id m)) st)
    (local_delete s id)
    (ends_in (answers (vault_path s) st (delete_post id m) (fun a => is_ok a = true)) st) st.
Proof.
  intros Hl Hrep. apply (wpc_locked s (disk_of_records m)); [done|apply Hrep| |].
  - by eapply early_answers, delete_early.
  - by apply delete_body.
Qed.

Lemma local_delete_expired_ok s m st :
  let now := clock (S (fs_tick st)) in
  unlocked s st -> file_rep (vault_path s) (fs_tree st) m ->
  wpc (fs_handle clock) (file_safe (vault_path s) (disk_of_records (sweep now m)) st)
    (local_delete_expired s)
    (ends_in (answers (vault_path s) st (sweep_post now m) (fun a => is_ok a = true)) st) st.
Proof.
  cbn zeta. intros Hl Hrep. set (now := clock _).
  apply (wpc_locked_clock s (disk_of_records m)); [done|apply Hrep| |].
  - by eapply early_answers, sweep_early.
  - by apply sweep_body.
Qed.
End Operations.
