(* ===== verification/LocalBackend.v ===== *)
(** The JSON file store as a storage backend: opening it, and the contract of
    Backend.v for it. *)
From S2P Require Export LocalFile.

(** ** [LocalFileStore::new] *)

Lemma file_at_make_dirs t d q : file_at (make_dirs d t) q = file_at t q.
Proof.
  revert q. induction d as [|n d IH]; intros q; cbn.
  - destruct (t !! []) eqn:E; [done|]. destruct q as [|n' [|]]; cbn; try done.
    + by rewrite lookup_insert_eq, E; cbn; rewrite lookup_empty.
    + by rewrite lookup_insert_ne.
  - destruct (make_dirs d t !! (n :: d)) eqn:E; [done|]. rewrite <- IH.
    destruct q as [|n' d']; [done|]. cbn. destruct (decide (n :: d = d')) as [<-|Hne].
    + by rewrite lookup_insert_eq, E; cbn; rewrite lookup_empty.
    + by rewrite lookup_insert_ne.
Qed.

Lemma make_dirs_exists t d : make_dirs d t !! d = Some (default ∅ (t !! d)) .
Proof.
  assert (Hin : forall d, is_Some (make_dirs d t !! d)).
  { intros [|n d']; cbn; [destruct (t !! []) eqn:E; rewrite ?E; eauto|].
    - exists ∅. apply lookup_insert_eq.
    - destruct (make_dirs d' t !! (n :: d')) eqn:E; rewrite ?E; eauto.
      exists ∅. apply lookup_insert_eq. }
  destruct (Hin d) as [x Hx]. rewrite Hx. f_equal. apply map_eq. intros n.
  pose proof (file_at_make_dirs t d (n :: d)) as Hf. cbn in Hf. rewrite Hx in Hf. cbn in Hf.
  rewrite Hf. destruct (t !! d); cbn; [done|]. by rewrite lookup_empty.
Qed.

Section New.
Context `{Base64Laws, UuidFmtLaws, ChronoLaws, SerdeJsonLaws} (clock : nat -> Z).
Implicit Types (st : FsState) (p : Path).

(** While a store is opened: an existing vault file is never touched, a missing
    one appears as a whole. *)
Definition opening (p : Path) (st0 st : FsState) : Prop :=
  keeps_others p (fs_tree st0) (fs_tree st) /\
  (file_at (fs_tree st) p = file_at (fs_tree st0) p \/
   file_at (fs_tree st0) p = None /\ written (fs_tree st) p ∅).

Definition opened_as (p : Path) (st0 : FsState) (r : result LocalFileStore StorageError)
    (st : FsState) : Prop :=
  fs_flocks st = fs_flocks st0 /\ fs_mutexes st = fs_mutexes st0 /\
  match r with
  | Ok s => s = MkLocalFileStore p (fs_next_mutex st0) /\
      (file_at (fs_tree st0) p = None -> written (fs_tree st) p ∅) /\
      (is_Some (file_at (fs_tree st0) p) ->
         file_at (fs_tree st) p = file_at (fs_tree st0) p)
  | Err e => e <> NotFound
  end /\
  (no_faults st0 -> is_ok r = true).

Lemma opening_refl p st : opening p st st.
Proof. split; [by intros ?|by left]. Qed.

Lemma wpc_local_new p st :
  is_Some (path_parent p) ->
  (forall dir, path_parent p = Some dir -> file_at (fs_tree st) p = None ->
     temp_name (default ∅ (fs_tree st !! dir)) :: dir <> p) ->
  wpc (fs_handle clock) (opening p st) (local_new p) (opened_as p st) st.
Proof.
  intros [dir Hdir] Htmp. unfold local_new. rewrite Hdir. apply wpc_try.
  eapply wpc_io; [done|apply opening_refl| |].
  { intros f; cbn zeta. intros Hf. split; [by split; [intros ?|left]|]. intros _.
    split_and!; [done..|]. intros Hn. pose proof (no_faults_now _ Hn). congruence. }
  intros Hnf. cbn [fst snd map_err]. set (st1 := fs_set st _).
  assert (Hat : forall q, file_at (fs_tree st1) q = file_at (fs_tree st) q)
    by (intros; apply file_at_make_dirs).
  assert (Hop : forall st', fs_tree st' = fs_tree st1 -> opening p st st').
  { intros st' He. split; rewrite He; [intros q f _; by rewrite Hat|by left]. }
  assert (Hfaults : no_faults st -> forall st', fs_faults st' = fs_faults st ->
            (fs_tick st <= fs_tick st')%nat -> no_faults st').
  { intros Hn st' Hf Ht n Hle. rewrite Hf. apply Hn. lia. }
  split; [by apply Hop|]. apply wpc_bind. cbn [trigger wpc fs_handle].
  split; [by apply Hop|]. split; [by apply Hop|]. set (st2 := fs_set st1 (fs_tree st1)).
  case_bool_decide as Hex; rewrite Hat in Hex.
  - cbn. split; [by apply Hop|]. split; [by apply Hop|].
    split_and!; try done.
    intros Hn. rewrite Hn in Hex. by destruct Hex.
  - apply eq_None_not_Some in Hex.
    assert (Hwr : forall st', writing p ∅ st2 st' -> opening p st st').
    { intros st' (_ & _ & Hk & Hp). split.
      - intros q f Hne Hq. apply Hk; [done|]. cbn. by rewrite file_at_make_dirs.
      - destruct Hp as [Hp|Hw]; [left|right; by split]. rewrite Hp. apply Hat. }
    apply wpc_try. eapply wpc_mono; [|exact Hwr|].
    + apply wpc_write_atomic; [apply map_Forall_empty|].
      intros dir' d Hdir' Hd. rewrite Hdir in Hdir'. simplify_eq.
      change (make_dirs dir' (fs_tree st) !! dir' = Some d) in Hd.
      rewrite make_dirs_exists in Hd. simplify_eq. by apply Htmp.
    + intros r st' Hop' (Hw & Hr & Hok). pose proof Hw as ((Hl & Hm & Hf & Ht & Hnm) & _).
      assert (Hpar : is_Some (path_parent p ≫= (fs_tree st2 !!.))).
      { rewrite Hdir. change (is_Some (make_dirs dir (fs_tree st) !! dir)).
        rewrite make_dirs_exists. eauto. }
      destruct r as [[]|e]; cbn.
      * pose proof (Hwr _ Hw). destruct Hr as [Hr _]. split; [done|]. split; [done|]. rewrite Hnm.
        split_and!; try done. intros [? ?]. congruence.
      * intros _. split_and!; [done..|]. intros Hn. apply Hok; [|done].
        apply Hfaults; [done..|]. cbn. lia.
Qed.
End New.

(** ** The backend *)

Record LocalBackend : Type := MkLocalBackend { lb_store : LocalFileStore; lb_fs : FsState }.

Section Backend.
Context `{Base64, UuidFmt, Chrono, SerdeJson}.

(** An operation run on its own to its end.  It never panics or blocks (the laws
    below prove so); the last case only makes the function total. *)
Definition settle {A : Type} (s : LocalFileStore)
    (o : outcome (result A StorageError) * FsState) : result A StorageError * LocalBackend :=
  (match o.1 with Done r => r | _ => Err (Io "did not complete") end, MkLocalBackend s o.2).

Definition run_local {A : Type} (now : Z) (b : LocalBackend)
    (p : LocalFileStore -> prog fsE (result A StorageError)) :
  result A StorageError * LocalBackend :=
  settle (lb_store b) (run (fs_handle (fun _ => now)) (p (lb_store b)) (lb_fs b)).

#[global] Instance local_backend : StorageBackend LocalBackend := {|
  sb_insert id r b := run_local 0 b (fun s => local_insert s id r);
  sb_fetch id b := run_local 0 b (fun s => local_fetch s id);
  sb_delete id b := run_local 0 b (fun s => local_delete s id);
  sb_delete_expired now b := run_local now b local_delete_expired;
|}.
End Backend.

Section Laws.
Context `{Base64Laws, UuidFmtLaws, ChronoLaws, SerdeJsonLaws}.

Definition local_rep (b : LocalBackend) (m : Records) : Prop :=
  unlocked (lb_store b) (lb_fs b) /\
  file_rep (vault_path (lb_store b)) (fs_tree (lb_fs b)) m.

Lemma unlocked_sync s st st' : unlocked s st -> same_sync st st' -> unlocked s st'.
Proof. intros [Hm Hl] (Hl' & Hm' & _). split; congruence. Qed.

(** From a triple to a law. *)
Lemma run_local_law {A : Type} now b p D (post : result A StorageError -> Records -> Prop) fine :
  unlocked (lb_store b) (lb_fs b) ->
  wpc (fs_handle (fun _ => now)) (file_safe (vault_path (lb_store b)) D (lb_fs b)) (p (lb_store b))
    (ends_in (answers (vault_path (lb_store b)) (lb_fs b) post fine) (lb_fs b)) (lb_fs b) ->
  (exists m', local_rep (run_local now b p).2 m' /\ post (run_local now b p).1 m') /\
  (no_faults (lb_fs b) -> fine (run_local now b p).1 /\ no_faults (lb_fs (run_local now b p).2)).
Proof.
  intros Hl Hp. destruct (wpc_run _ _ _ _ _ Hp) as (r & st' & Hrun & _ & Hs & (m' & Hr & Hpost) & Hf).
  unfold run_local, settle. rewrite Hrun. cbn. split.
  - exists m'. split; [|done]. split; [|done]. by eapply unlocked_sync.
  - intros Hn. split; [by apply Hf|]. by eapply no_faults_sync.
Qed.

(** What both kinds of law say of one operation. *)
Definition meets {A : Type} (b : LocalBackend) (ab : result A StorageError * LocalBackend)
    (post : result A StorageError -> Records -> Prop) (fine : result A StorageError -> Prop) : Prop :=
  (exists m', local_rep ab.2 m' /\ post ab.1 m') /\
  (no_faults (lb_fs b) -> fine ab.1 /\ no_faults (lb_fs ab.2)).

Lemma insert_meets id r b m :
  local_rep b m -> record_times representable r ->
  meets b (sb_insert id r b) (insert_post id r m) (fun a => is_ok a = true).
Proof. intros [Hl Hm] Hr. eapply (run_local_law 0 b), local_insert_ok; done. Qed.

Lemma fetch_meets id b m :
  local_rep b m -> meets b (sb_fetch id b) (fetch_post id m) (fun a => a = ok_or (m !! id) NotFound).
Proof.
  intros [Hl Hm]. eapply (run_local_law 0 b (fun s => local_fetch s id)), local_fetch_ok; done.
Qed.

Lemma delete_meets id b m :
  local_rep b m -> meets b (sb_delete id b) (delete_post id m) (fun a => is_ok a = true).
Proof.
  intros [Hl Hm]. eapply (run_local_law 0 b (fun s => local_delete s id)), local_delete_ok; done.
Qed.

Lemma sweep_meets now b m :
  local_rep b m -> meets b (sb_delete_expired now b) (sweep_post now m) (fun a => is_ok a = true).
Proof.
  intros [Hl Hm].
  eapply (run_local_law now b local_delete_expired), (local_delete_expired_ok (fun _ => now)); done.
Qed.

#[global] Program Instance local_backend_laws : BackendLaws LocalBackend := {|
  sb_rep := local_rep;
  sb_time := representable;
  sb_healthy b := no_faults (lb_fs b);
|}.
Next Obligation. intros id r b m Hm Hr. by apply insert_meets. Qed.
Next Obligation. intros id b m Hm. by apply fetch_meets. Qed.
Next Obligation. intros id b m Hm. by apply delete_meets. Qed.
Next Obligation. intros now b m Hm _. by apply sweep_meets. Qed.
Next Obligation. intros id r b m Hm Hh Hr. by eapply insert_meets. Qed.
Next Obligation.
  intros id b m Hm Hh. destruct (fetch_meets id b m Hm) as [_ Hf].
  destruct (Hf Hh) as [-> Hn]. split_and!; [|by intros ->|done]. by destruct (m !! id).
Qed.
Next Obligation. intros id b m Hm Hh. by eapply delete_meets. Qed.
Next Obligation. intros now b m Hm Hh _. by eapply sweep_meets. Qed.
End Laws.
