(* ===== verification/LocalProperties.v ===== *)
(** The properties of the JSON file store, with their witnesses. *)
From S2P Require Export LocalBackend Samples.

(** ** One operation as a program *)

Section DiskCalls.
Context `{Base64, UuidFmt, Chrono, SerdeJson}.

Definition disk_prog (s : LocalFileStore) (c : DiskCall) : prog fsE DiskReply :=
  match c with
  | DInsert id r => InsertReply <$> local_insert s id r
  | DFetch id => FetchReply <$> local_fetch s id
  | DDelete id => RemoveReply <$> local_delete s id
  | DDeleteExpired => SweepReply <$> local_delete_expired s
  end.

End DiskCalls.

(** ** Concrete stores for the witnesses *)

Module LocalSample.
Definition clock : nat -> Z := fun n => 1700000000 * nanos_per_sec + Z.of_nat n.
Definition path : Path := ["vault.json"; "data"].

(** A file system with an empty directory, on which nothing fails. *)
Definition fs0 : FsState := MkFs (<[["data"] := ∅]> (<[[] := ∅]> ∅)) ∅ ∅ 0 0 (fun _ => None).

(** The same, where the [k]-th effect fails. *)
Definition fs_fail (k : nat) : FsState :=
  MkFs (fs_tree fs0) ∅ ∅ 0 0
    (fun n => if (n =? k)%nat then Some (MkFault "No space left on device" 3) else None).

Definition store : LocalFileStore := MkLocalFileStore path 0.
Definition opened : FsState := (run (fs_handle clock) (local_new path) fs0).2.
Definition opened_fail (k : nat) : FsState := (run (fs_handle clock) (local_new path) (fs_fail k)).2.

Definition record : StoredRecord :=
  MkStored (MkEncrypted (vec_to_list (Sample.id1)) (as_bytes "hello"))
    (1700000000 * nanos_per_sec) (Some (1700003600 * nanos_per_sec)).

Definition two_records : Records := <[Sample.id1 := record]> ∅.
Definition filled : FsState :=
  (run (fs_handle clock) (disk_prog store (DInsert Sample.id1 record)) opened).2.

End LocalSample.

Section Triples.
Context `{Base64Laws, UuidFmtLaws, ChronoLaws, SerdeJsonLaws} (clock : nat -> Z).

Lemma wpc_fmap {E W A B} (h : handler E W) P (g : A -> B) (p : prog E A) Q w :
  wpc h P p (fun a => Q (g a)) w -> wpc h P (g <$> p) Q w.
Proof.
  intros Hp. apply wpc_bind. eapply wpc_mono; [exact Hp|done|]. by intros a w' ? ?.
Qed.

(** Every operation, in one triple. *)
Lemma wpc_disk s c m st :
  let now := clock (S (fs_tick st)) in
  unlocked s st -> file_rep (vault_path s) (fs_tree st) m -> disk_ok representable c ->
  wpc (fs_handle clock) (file_safe (vault_path s) (disk_of_records (disk_effect now c m)) st)
    (disk_prog s c)
    (fun a st' => same_sync st st' /\
       (exists m', file_rep (vault_path s) (fs_tree st') m' /\ disk_post now c m a m') /\
       (no_faults st -> disk_fine c m a)) st.
Proof.
  cbn zeta. intros Hl Hm Hc. destruct c as [id r|id|id|]; apply wpc_fmap.
  - by apply local_insert_ok.
  - by apply local_fetch_ok.
  - by apply local_delete_ok.
  - by apply local_delete_expired_ok.
Qed.

Lemma times_effect now c m : times_ok m -> disk_ok representable c -> times_ok (disk_effect now c m).
Proof.
  intros Hm Hc. destruct c; cbn; [by apply times_insert|done|by apply times_delete|by apply times_sweep].
Qed.
End Triples.

Section Properties.
Context `{Base64Laws, UuidFmtLaws, ChronoLaws, SerdeJsonLaws} (clock : nat -> Z).
Implicit Types (st : FsState).

(** C11: every operation of the file store returns, whatever the failures: it
    never blocks on its own locks or panics, it releases both of them on every
    path, and it meets the storage contract on the map its file holds. *)
Theorem local_op_meets_contract s c m st :
  let now := clock (S (fs_tick st)) in
  unlocked s st -> file_rep (vault_path s) (fs_tree st) m -> disk_ok representable c ->
  exists a st', run (fs_handle clock) (disk_prog s c) st = (Done a, st') /\
    fs_flocks st' = fs_flocks st /\ fs_mutexes st' = fs_mutexes st /\
    (exists m', file_rep (vault_path s) (fs_tree st') m' /\ disk_post now c m a m') /\
    (no_faults st -> disk_fine c m a).
Proof.
  cbn zeta. intros Hl Hm Hc. pose proof (wpc_disk clock s c m st Hl Hm Hc) as Hw.
  apply wpc_run in Hw as (a & st' & Hrun & _ & (Hfl & Hmu & _) & Hm' & Hf). eauto 10.
Qed.

(** C10: a crash after any number of steps of any operation leaves a vault file
    that holds either the records before it or the records after it, and no
    other file that existed is touched. *)
Theorem local_crash_atomic s c m st n :
  let now := clock (S (fs_tick st)) in
  let t' := fs_tree (run_for (fs_handle clock) n (disk_prog s c) st) in
  unlocked s st -> file_rep (vault_path s) (fs_tree st) m -> disk_ok representable c ->
  (file_rep (vault_path s) t' m \/ file_rep (vault_path s) t' (disk_effect now c m)) /\
  keeps_others (vault_path s) (fs_tree st) t'.
Proof.
  cbn zeta. intros Hl Hm Hc.
  destruct (wpc_run_for _ _ _ _ _ n (wpc_disk clock s c m st Hl Hm Hc)) as (_ & _ & _ & Hk & Hp).
  split; [|done]. destruct Hm as [Hh Ht]. destruct Hp as [Hsame|[Hw _]].
  - left. split; [by eapply holds_same|done].
  - right. split; [done|]. by apply times_effect.
Qed.

(** C30: opening a store creates an empty one when the file is missing and keeps
    the records of one that exists; the opened store meets its invariant. *)
Theorem local_open p st :
  is_Some (path_parent p) -> lock_path p ∉ fs_flocks st ->
  (forall x, x ∈ fs_mutexes st -> (x < fs_next_mutex st)%nat) ->
  (forall dir, path_parent p = Some dir -> file_at (fs_tree st) p = None ->
     temp_name (default ∅ (fs_tree st !! dir)) :: dir <> p) ->
  exists r st', run (fs_handle clock) (local_new p) st = (Done r, st') /\
    match r with
    | Ok s =>
        (file_at (fs_tree st) p = None -> local_rep (MkLocalBackend s st') ∅) /\
        (forall m, file_rep p (fs_tree st) m -> local_rep (MkLocalBackend s st') m)
    | Err e => e <> NotFound
    end /\ (no_faults st -> is_ok r = true).
Proof.
  intros Hp Hl Hmu Htmp.
  destruct (wpc_run _ _ _ _ _ (wpc_local_new clock p st Hp Htmp))
    as (r & st' & Hrun & _ & Hfl & Hms & Hr & Hok).
  exists r, st'. split_and!; [done| |done]. destruct r as [s|e]; [|done].
  destruct Hr as (-> & Hnew & Hold).
  assert (unlocked (MkLocalFileStore p (fs_next_mutex st)) st').
  { split; cbn; [|by rewrite Hfl]. rewrite Hms. intros Hx%Hmu. lia. }
  split.
  - intros Hn. split; [done|]. split; [|apply map_Forall_empty]. cbn.
    unfold disk_of_records. rewrite kmap_empty. apply Hnew, Hn.
  - intros m [Hh Ht]. split; [done|]. split; [|done]. cbn.
    eapply holds_same; [|exact Hh]. apply Hold. destruct Hh as (f & _ & -> & _). eauto.
Qed.

(** C31: at every moment of every operation, and while a store is created, the
    vault file is readable and writable by its owner only. *)
Theorem vault_file_private s c m st n p st1 :
  let mode st := f_mode <$> file_at (fs_tree st) p in
  (p = vault_path s -> unlocked s st -> file_rep p (fs_tree st) m -> disk_ok representable c ->
   mode st = Some mode_600 ->
   mode (run_for (fs_handle clock) n (disk_prog s c) st) = Some mode_600) /\
  (is_Some (path_parent p) -> file_at (fs_tree st1) p = None ->
   (forall dir, path_parent p = Some dir ->
      temp_name (default ∅ (fs_tree st1 !! dir)) :: dir <> p) ->
   mode (run_for (fs_handle clock) n (local_new p) st1) ∈ [None; Some mode_600]).
Proof.
  cbn zeta. split.
  - intros -> Hl Hm Hc Hmode.
    destruct (wpc_run_for _ _ _ _ _ n (wpc_disk clock s c m st Hl Hm Hc)) as (_ & _ & _ & _ & Hp).
    destruct Hp as [->|[_ Hw]]; done.
  - intros Hp Hn Htmp.
    destruct (wpc_run_for _ _ _ _ _ n (wpc_local_new clock p st1 Hp ltac:(by intros ? ? _; apply Htmp)))
      as (_ & [->|[_ [_ ->]]]); [rewrite Hn|]; set_solver.
Qed.
End Properties.

(** ** Two processes open a store that does not exist yet *)

Section Race.
Context `{Base64Laws, UuidFmtLaws, ChronoLaws, SerdeJsonLaws} (clock : nat -> Z) (p : Path).
Implicit Types (st : FsState) (l : list (RecordId * StoredRecord)) (m : Records).

(** One only opens it; the other opens it and inserts records. *)
Definition opener : prog fsE bool := is_ok <$> local_new p.

Fixpoint insert_all (s : LocalFileStore) l : prog fsE bool :=
  match l with
  | [] => Ret true
  | (id, r) :: l =>
      a ← local_insert s id r;
      if is_ok a then insert_all s l else Ret false
  end.

Definition inserter l : prog fsE bool :=
  s ← local_new p;
  match s with Ok s => insert_all s l | Err _ => Ret false end.

Definition with_all l m : Records := foldl (fun m ir => <[ir.1 := ir.2]> m) m l.

(** What is left of opening once the file was found missing. *)
Definition creating : prog fsE bool :=
  is_ok <$> (_ <-? write_atomic p ∅;
             process_lock ← trigger NewMutex;
             Ret (Ok (MkLocalFileStore p process_lock) : result LocalFileStore StorageError)).

Definition same_locks st st' : Prop := fs_flocks st' = fs_flocks st /\ fs_mutexes st' = fs_mutexes st.

Lemma insert_all_ok s l m st :
  vault_path s = p -> unlocked s st -> file_rep p (fs_tree st) m -> no_faults st ->
  Forall (fun ir => record_times representable ir.2) l ->
  exists st', run (fs_handle clock) (insert_all s l) st = (Done true, st') /\
    file_rep p (fs_tree st') (with_all l m) /\ same_locks st st'.
Proof.
  intros Hs Hu Hm Hn Hl. revert m st Hu Hm Hn.
  induction Hl as [|[id r] l Hr Hl IH]; intros m st Hu Hm Hn; [by exists st|].
  rewrite <- Hs in Hm. destruct (wpc_run _ _ _ _ _ (local_insert_ok clock s id r m st Hu Hm Hr))
    as (a & st1 & Hrun & _ & Hsync & (m1 & Hm1 & Hpost) & Hok). specialize (Hok Hn).
  destruct a as [[]|e]; [|done]. cbn in Hpost. subst m1. rewrite Hs in Hm1.
  destruct (IH _ _ (unlocked_sync _ _ _ Hu Hsync) Hm1 (no_faults_sync _ _ Hn Hsync))
    as (st2 & Hrun2 & Hm2 & Hf2 & Hmu2). exists st2. cbn [insert_all]. rewrite run_bind, Hrun.
  split; [exact Hrun2|]. split; [exact Hm2|]. destruct Hsync as (? & ? & _). split; congruence.
Qed.

Lemma inserter_ok l st :
  is_Some (path_parent p) -> file_at (fs_tree st) p = None -> no_faults st ->
  lock_path p ∉ fs_flocks st -> (forall x, x ∈ fs_mutexes st -> (x < fs_next_mutex st)%nat) ->
  (forall dir, path_parent p = Some dir -> temp_name (default ∅ (fs_tree st !! dir)) :: dir <> p) ->
  Forall (fun ir => record_times representable ir.2) l ->
  exists st', run (fs_handle clock) (inserter l) st = (Done true, st') /\
    file_rep p (fs_tree st') (with_all l ∅) /\ same_locks st st'.
Proof.
  intros Hp Hmiss Hn Hl Hmu Htmp Hr.
  destruct (wpc_run _ _ _ _ _ (wpc_local_new clock p st Hp ltac:(auto)))
    as (s & st1 & Hrun & _ & Hfl & Hms & Hs & Hok). specialize (Hok Hn).
  destruct s as [s|e]; [|done]. destruct Hs as (-> & Hnew & _).
  pose proof (run_no_faults clock (local_new p) st Hn) as Hn1. rewrite Hrun in Hn1.
  destruct (insert_all_ok (MkLocalFileStore p (fs_next_mutex st)) l ∅ st1) as (st2 & Hrun2 & Hm2 & Hf2 & Hmu2);
    [done| | |exact Hn1|exact Hr|].
  - split; cbn; [|by rewrite Hfl]. rewrite Hms. intros Hx%Hmu. lia.
  - split; [|apply map_Forall_empty]. unfold disk_of_records. rewrite kmap_empty. apply Hnew, Hmiss.
  - exists st2. unfold inserter. rewrite run_bind, Hrun. split; [exact Hrun2|].
    split; [exact Hm2|]. split; congruence.
Qed.

Lemma creating_ok m st :
  file_rep p (fs_tree st) m -> no_faults st ->
  exists st', run (fs_handle clock) creating st = (Done true, st') /\
    file_rep p (fs_tree st') ∅ /\ same_locks st st'.
Proof.
  intros [(f & doc & Hf & _) _] Hn.
  destruct (wpc_run _ _ _ _ _ (wpc_write_atomic clock p ∅ st (map_Forall_empty _)
              (temp_apart_file _ _ (ex_intro _ f Hf)))) as (r & st1 & Hrun & _ & Hw & Hr & Hok).
  specialize (Hok Hn (file_at_parent _ _ _ Hf)). destruct r as [[]|e]; [|done].
  eexists. unfold creating. rewrite run_fmap, run_try, Hrun. split; [reflexivity|].
  split; [|by destruct Hw as ((? & ? & _) & _)]. split; [|apply map_Forall_empty].
  unfold disk_of_records. rewrite kmap_empty. apply Hr.
Qed.

(** Up to the test for the file. *)
Lemma opener_checks l dir st :
  path_parent p = Some dir -> file_at (fs_tree st) p = None -> no_faults st ->
  exists tr st', pool_run (fs_handle clock) [opener; inserter l] st tr [creating; inserter l] st' /\
    fs_tree st' = make_dirs dir (fs_tree st) /\ no_faults st' /\ same_locks st st' /\
    fs_next_mutex st' = fs_next_mutex st.
Proof.
  intros Hp Hmiss Hn. set (st1 := fs_set st (make_dirs dir (fs_tree st))).
  assert (Hcheck : bool_decide (is_Some (file_at (fs_tree st1) p)) = false).
  { apply bool_decide_eq_false. cbn. rewrite file_at_make_dirs, Hmiss. by intros []. }
  exists [(0%nat, Ev (CreateDirAll dir) (Ok tt)); (0%nat, Ev (PathExists p) false)],
    (fs_set st1 (fs_tree st1)). split.
  - eapply (pool_cons _ _ _ 0%nat).
    + cbn [lookup list_lookup]. unfold opener, local_new. rewrite Hp. reflexivity.
    + cbn. unfold fallible. rewrite (no_faults_now _ Hn). reflexivity.
    + eapply (pool_cons _ _ st1 0%nat); [reflexivity|cbn [fs_handle]; rewrite Hcheck; reflexivity|].
      apply pool_nil.
  - split; [done|]. split; [|done]. intros n Hle. apply Hn. cbn in Hle. lia.
Qed.

(** C40: two processes that open a store that does not exist yet can lose every
    record one of them stores: the test for the file and the write of the empty
    map are not under the file lock.  Whatever the path, the clock and the
    records, and although nothing fails, there is an interleaving in which the
    second process opens the store and inserts its records, every insertion being
    acknowledged and the file holding them all, and in which the first process,
    which does nothing but open the store, then succeeds and leaves it empty:
    every later fetch answers that the record was not found. *)
Theorem open_race_loses_record l st :
  is_Some (path_parent p) -> file_at (fs_tree st) p = None -> no_faults st ->
  lock_path p ∉ fs_flocks st -> (forall x, x ∈ fs_mutexes st -> (x < fs_next_mutex st)%nat) ->
  (forall dir, path_parent p = Some dir -> temp_name (default ∅ (fs_tree st !! dir)) :: dir <> p) ->
  Forall (fun ir => record_times representable ir.2) l ->
  exists tr1 tr2 rest st1 st2,
    pool_run (fs_handle clock) [opener; inserter l] st tr1 [rest; Ret true] st1 /\
    file_rep p (fs_tree st1) (with_all l ∅) /\
    pool_run (fs_handle clock) [rest; Ret true] st1 tr2 [Ret true; Ret true] st2 /\
    file_rep p (fs_tree st2) ∅ /\
    forall id mu, mu ∉ fs_mutexes st -> exists st3,
      run (fs_handle clock) (local_fetch (MkLocalFileStore p mu) id) st2 = (Done (Err NotFound), st3).
Proof.
  intros [dir Hp] Hmiss Hn Hl Hmu Htmp Hr.
  destruct (opener_checks l dir st Hp Hmiss Hn) as (tr0 & st0 & Hrun0 & Ht0 & Hn0 & [Hl0 Hm0] & Hx0).
  destruct (inserter_ok l st0) as (st1 & Hrun1 & Hm1 & Hl1 & Hmu1); [eauto| |done|by rewrite Hl0| | |done|].
  { by rewrite Ht0, file_at_make_dirs. }
  { by rewrite Hm0, Hx0. }
  { intros d Hd. rewrite Hp in Hd. simplify_eq. rewrite Ht0, make_dirs_exists. by apply Htmp. }
  pose proof (run_no_faults clock (inserter l) st0 Hn0) as Hn1. rewrite Hrun1 in Hn1.
  destruct (creating_ok _ st1 Hm1 Hn1) as (st2 & Hrun2 & Hm2 & Hl2 & Hmu2).
  pose proof (run_no_faults clock creating st1 Hn1) as Hn2. rewrite Hrun2 in Hn2.
  destruct (pool_run_alone (fs_handle clock) [creating; inserter l] st0 1 _ _ st1 eq_refl Hrun1) as [tr1 Hp1].
  destruct (pool_run_alone (fs_handle clock) [creating; Ret true] st1 0 _ _ st2 eq_refl Hrun2) as [tr2 Hp2].
  exists (tr0 ++ tr1), tr2, creating, st1, st2. split; [by eapply pool_run_app|].
  split; [done|]. split; [exact Hp2|]. split; [done|].
  intros id mu Hfree. assert (Hu : unlocked (MkLocalFileStore p mu) st2) by (split; cbn; congruence).
  destruct (wpc_run _ _ _ _ _ (local_fetch_ok clock (MkLocalFileStore p mu) id ∅ st2 Hu Hm2))
    as (a & st3 & Hrun3 & _ & _ & _ & Hfine). exists st3. rewrite Hrun3, (Hfine Hn2).
  by rewrite lookup_empty.
Qed.
End Race.

(** ** Witnesses and concrete runs *)

Section Witnesses.
Import LocalSample.

Lemma fs0_healthy : no_faults fs0.
Proof. by intros k _. Defined.

Lemma open_race_loses_record_witness :
  exists tr st', pool_run (fs_handle clock) [opener path; inserter path [(Sample.id1, record)]] fs0 tr
      [Ret true; Ret true] st' /\
    exists st3, run (fs_handle clock) (local_fetch (MkLocalFileStore path 0) Sample.id1) st' =
      (Done (Err NotFound), st3).
Proof.
  destruct (open_race_loses_record clock path [(Sample.id1, record)] fs0)
    as (tr1 & tr2 & rest & st1 & st2 & Hrun1 & _ & Hrun2 & _ & Hfetch).
  - by eexists.
  - by vm_compute.
  - apply fs0_healthy.
  - apply not_elem_of_empty.
  - intros x Hx. by apply elem_of_empty in Hx.
  - intros dir [= <-]. by vm_compute.
  - constructor; [by repeat split|constructor].
  - exists (tr1 ++ tr2), st2. split; [exact (pool_run_app _ _ _ _ _ _ _ _ _ Hrun1 Hrun2)|].
    apply (Hfetch Sample.id1 0%nat), not_elem_of_empty.
Defined.

(** An insertion whose last step, restricting the permissions, fails answers
    an error although the record is in the file. *)
Theorem failed_insert_persists :
  let '(o, st) := run (fs_handle clock) (local_insert store Sample.id1 record) (opened_fail 16) in
  o = Done (Err (Io "No space left on device")) /\
  (run (fs_handle clock) (local_fetch store Sample.id1) st).1 = Done (Ok record).
Proof. by vm_compute. Qed.

Lemma opened_rep : file_rep path (fs_tree opened) ∅.
Proof.
  split; [|apply map_Forall_empty]. unfold disk_of_records. rewrite kmap_empty.
  exists (MkFile (as_bytes "{}") mode_600), (JObject []). by split_and!; vm_compute.
Defined.

Lemma opened_unlocked : unlocked store opened.
Proof.
  split.
  - assert (fs_mutexes opened = ∅) as -> by by vm_compute. apply not_elem_of_empty.
  - assert (fs_flocks opened = ∅) as -> by by vm_compute. apply not_elem_of_empty.
Defined.

Lemma record_ok : record_times representable record.
Proof. by repeat split. Defined.

Lemma local_op_meets_contract_witness :
  exists a st', run (fs_handle clock) (disk_prog store (DInsert Sample.id1 record)) opened =
      (Done a, st') /\
    fs_flocks st' = fs_flocks opened /\ fs_mutexes st' = fs_mutexes opened /\
    (exists m', file_rep path (fs_tree st') m' /\
       disk_post (clock (S (fs_tick opened))) (DInsert Sample.id1 record) ∅ a m') /\
    (no_faults opened -> disk_fine (DInsert Sample.id1 record) ∅ a).
Proof.
  apply (local_op_meets_contract clock store (DInsert Sample.id1 record) ∅ opened).
  - apply opened_unlocked.
  - apply opened_rep.
  - apply record_ok.
Defined.

Lemma local_crash_atomic_witness :
  let t' := fs_tree (run_for (fs_handle clock) 6 (disk_prog store (DInsert Sample.id1 record)) opened) in
  (file_rep path t' ∅ \/ file_rep path t' (<[Sample.id1 := record]> ∅)) /\
  keeps_others path (fs_tree opened) t'.
Proof.
  apply (local_crash_atomic clock store (DInsert Sample.id1 record) ∅ opened 6).
  - apply opened_unlocked.
  - apply opened_rep.
  - apply record_ok.
Defined.

Lemma local_open_witness :
  exists r st', run (fs_handle clock) (local_new path) fs0 = (Done r, st') /\
    match r with
    | Ok s =>
        (file_at (fs_tree fs0) path = None -> local_rep (MkLocalBackend s st') ∅) /\
        (forall m, file_rep path (fs_tree fs0) m -> local_rep (MkLocalBackend s st') m)
    | Err e => e <> NotFound
    end /\ (no_faults fs0 -> is_ok r = true).
Proof.
  apply (local_open clock path fs0).
  - by eexists.
  - apply not_elem_of_empty.
  - intros x Hx. by apply elem_of_empty in Hx.
  - intros dir [= <-] _. by vm_compute.
Defined.

Lemma vault_file_private_witness :
  f_mode <$> file_at (fs_tree (run_for (fs_handle clock) 6
      (disk_prog store (DInsert Sample.id1 record)) opened)) path = Some mode_600 /\
  (f_mode <$> file_at (fs_tree (run_for (fs_handle clock) 4 (local_new path) fs0)) path) ∈
    [None; Some mode_600].
Proof.
  destruct (vault_file_private clock store (DInsert Sample.id1 record) ∅ opened 6 path fs0)
    as [Hop _].
  destruct (vault_file_private clock store (DFetch Sample.id1) ∅ opened 4 path fs0) as [_ Hnew].
  split.
  - apply Hop; [done|apply opened_unlocked|apply opened_rep|apply record_ok|by vm_compute].
  - apply Hnew; [by eexists|by vm_compute|]. intros dir [= <-]. by vm_compute.
Defined.
End Witnesses.
