(* ===== verification/LocalCritical.v ===== *)
(** The operations of the JSON file store under their file lock: programs over
    the files alone, whatever other threads do to the locks and the clock between
    two of their effects. *)
From S2P Require Export LocalBackend.

(** ** The effects under the file lock

    Between taking and releasing the file lock an operation only touches files:
    its effects depend on the tree and on whether they fail. *)
Definition tree_effect : forall X, fsE X -> Prop := fun X e =>
  match e with
  | ReadFile _ | NewTempIn _ | WriteAll _ _ | Flush _ | Persist _ _ | RemoveTemp _
  | SetPermissions _ _ => True
  | _ => False
  end.

Definition tree_answer {X : Type} (e : fsE X) (f : option Fault) (t : Tree) : option (X * Tree) :=
  match fs_handle (fun _ => 0) X e (MkFs t ∅ ∅ 0 0 (fun _ => f)) with
  | Some (x, st) => Some (x, fs_tree st)
  | None => None
  end.

(** An operation under the file lock, as a program over trees: [P] holds of the
    tree at every point, and [Q] at the end, whichever effects fail; none does
    when [healthy]. *)
Section TreePrograms.
Context (clock : nat -> Z) (healthy : Prop).

Fixpoint twp {A : Type} (P : Tree -> Prop) (p : prog fsE A) (Q : A -> Tree -> Prop) (t : Tree) {struct p} : Prop :=
  P t /\
  match p with
  | Ret a => Q a t
  | Panic => False
  | Vis e k =>
      tree_effect _ e /\
      forall f, (healthy -> f = None) ->
        exists x t', tree_answer e f t = Some (x, t') /\ twp P (k x) Q t'
  end.

Lemma tree_handle {X : Type} (e : fsE X) st :
  tree_effect X e ->
  exists x t', tree_answer e (fs_faults st (fs_tick st)) (fs_tree st) = Some (x, t') /\
    fs_handle clock X e st = Some (x, fs_set st t').
Proof.
  intros He. unfold tree_answer.
  destruct e; try done; cbn; unfold fallible; cbn;
    try (destruct (fs_faults st (fs_tick st)) as [f|]; cbn); by do 2 eexists.
Qed.

(** The file system with the tree [t] at effect [n], where [faults] fail. *)
Definition at_tick (t : Tree) (n : nat) (faults : nat -> option Fault) : FsState :=
  MkFs t ∅ ∅ 0 n faults.

(** The failures [hist] up to effect [n], then [f], then none. *)
Definition then_fails (n : nat) (hist : nat -> option Fault) (f : option Fault) (i : nat) :
  option Fault :=
  if (i <? n)%nat then hist i else if (i =? n)%nat then f else None.

Lemma then_fails_past n hist f i : (i < n)%nat -> then_fails n hist f i = hist i.
Proof. intros Hi. unfold then_fails. by rewrite (proj2 (Nat.ltb_lt _ _) Hi). Qed.

Lemma then_fails_now n hist f : then_fails n hist f n = f.
Proof. unfold then_fails. by rewrite Nat.ltb_irrefl, Nat.eqb_refl. Qed.

Lemma then_fails_calm t n hist : no_faults (at_tick t n (then_fails n hist None)).
Proof.
  intros i Hi. cbn in *. unfold then_fails. rewrite (proj2 (Nat.ltb_ge _ _) Hi).
  by destruct (i =? n)%nat.
Qed.

(** A triple that holds whatever fails from some effect on holds whatever the
    other threads do to the locks, the clock and the failures between two
    effects. *)
Lemma twp_of_wpc {A : Type} (p : prog fsE A) P Q n hist t :
  within (fun _ _ _ => True) tree_effect p ->
  (forall faults, (forall i, (i < n)%nat -> faults i = hist i) ->
     (healthy -> no_faults (at_tick t n faults)) ->
     wpc (fs_handle clock) (fun st => P (fs_tree st)) p (fun a st => Q a (fs_tree st))
       (at_tick t n faults)) ->
  twp P p Q t.
Proof.
  revert n hist t. induction p as [a| |X e k IH]; intros n hist t Hp Hw;
    pose proof (Hw (then_fails n hist None) (then_fails_past n hist None)
                  (fun _ => then_fails_calm t n hist)) as Hnow; [done..|].
  destruct Hp as [He Hk]. split; [by destruct Hnow|]. split; [done|]. clear Hnow.
  intros f Hf. set (hist' := then_fails n hist f).
  destruct (tree_handle e (at_tick t n hist') He) as (x & t' & Hx & _). cbn in Hx.
  unfold hist' in Hx. rewrite then_fails_now in Hx.
  exists x, t'. split; [done|]. apply (IH x (S n) hist'); [by apply Hk|].
  intros faults Hh Hnf.
  assert (Hn : faults n = f) by (rewrite Hh by lia; apply then_fails_now).
  destruct (Hw faults) as [_ Hv].
  - intros i Hi. rewrite Hh by lia. by apply then_fails_past.
  - intros Hc i Hi. cbn in *. destruct (decide (i = n)) as [->|]; [rewrite Hn; by apply Hf|].
    apply Hnf; [done|cbn; lia].
  - destruct (tree_handle e (at_tick t n faults) He) as (x' & t'' & Hx' & Hh').
    cbn in Hx'. rewrite Hn, Hx in Hx'. simplify_eq. rewrite Hh' in Hv. exact Hv.
Qed.
End TreePrograms.

(** *** The operations, under the file lock *)

Section Bodies.
Context `{Base64Laws, UuidFmtLaws, ChronoLaws, SerdeJsonLaws} (clock : nat -> Z) (healthy : Prop).
Implicit Types (t : Tree) (p : Path) (m : Records).

Abbreviation on_tree := (within (fun _ _ _ => True) tree_effect).

Lemma on_tree_io {A : Type} (e : fsE (result A string)) : tree_effect _ e -> on_tree (io e).
Proof. intros He. by split. Qed.

Lemma on_tree_try {A B Er : Type} (q : prog fsE (result A Er)) (f : A -> prog fsE (result B Er)) :
  on_tree q -> (forall a, on_tree (f a)) -> on_tree (try_p q f).
Proof. intros Hq Hf. apply within_bind; [done|]. by intros [a|e]; cbn. Qed.

Lemma write_atomic_on_tree p D : on_tree (write_atomic p D).
Proof.
  unfold write_atomic. apply on_tree_try; [by destruct (path_parent p)|]. intros parent.
  apply on_tree_try; [by apply on_tree_io|]. intros temp.
  apply on_tree_try; [|intros _; by apply on_tree_io].
  apply within_bind; [|intros [a|e]; by cbn].
  apply on_tree_try; [by destruct (to_vec_pretty _)|]. intros json.
  apply on_tree_try; [by apply on_tree_io|]. intros _.
  apply on_tree_try; [by apply on_tree_io|]. intros _. by apply on_tree_io.
Qed.

(** The files of [t] are still there. *)
Definition keeps_files (t t' : Tree) : Prop :=
  forall q, is_Some (file_at t q) -> is_Some (file_at t' q).

Lemma safe_keeps_files p D st0 st :
  is_Some (file_at (fs_tree st0) p) -> file_safe p D st0 st ->
  keeps_files (fs_tree st0) (fs_tree st).
Proof.
  intros Hp (_ & _ & _ & Hk & Hf) q [f Hq]. destruct (decide (q = p)) as [->|Hne].
  - destruct Hf as [->|[(g & _ & -> & _) _]]; [done|eauto].
  - exists f. by apply Hk.
Qed.

(** While records [m] are being replaced by [m']: no file of [t] is gone, and the
    vault file holds the ones or the others. *)
Definition torn (p : Path) (m m' : Records) (t t' : Tree) : Prop :=
  keeps_files t t' /\ (file_rep p t' m \/ file_rep p t' m').

Lemma safe_torn p m m' st0 st :
  file_rep p (fs_tree st0) m -> times_ok m' -> file_safe p (disk_of_records m') st0 st ->
  torn p m m' (fs_tree st0) (fs_tree st).
Proof.
  intros [Hm Ht] Ht' Hs. split.
  - apply (safe_keeps_files p _ _ _) in Hs; [done|]. destruct Hm as (f & _ & Hf & _). by exists f.
  - destruct Hs as (_ & _ & _ & _ & [Hsame|[Hw _]]); [left|by right].
    split; [by eapply holds_same|done].
Qed.

Lemma twp_body {A : Type} p m m' (k : DiskState -> prog fsE (result A StorageError)) post fine t :
  (forall D, on_tree (k D)) -> times_ok m' ->
  (forall e, e <> NotFound -> post (Err e) m) ->
  (forall st0, file_rep p (fs_tree st0) m ->
     body_ok clock p (disk_of_records m) (disk_of_records m') st0 k (answers p st0 post fine)) ->
  file_rep p t m ->
  twp healthy (torn p m m' t) (state <-? read_state p; k state)
    (fun r t' => exists m', file_rep p t' m' /\ post r m' /\ (healthy -> fine r)) t.
Proof.
  intros Hk Ht' He Hb Hm. apply (twp_of_wpc clock healthy _ _ _ 0 (fun _ => None)).
  { apply on_tree_try; [|done]. apply on_tree_try; [by apply on_tree_io|]. done. }
  intros faults _ Hnf. set (st := at_tick t 0 faults).
  assert (Hst : file_rep p (fs_tree st) m) by done.
  eapply wpc_mono.
  - apply (wpc_read_state clock p (disk_of_records m) (disk_of_records m') st k (answers p st post fine)).
    + by eapply early_answers.
    + by apply Hb.
    + apply opened_refl.
    + apply Hst.
  - intros st'. by apply (safe_torn p m m' st).
  - intros r st' _ [_ [(m1 & Hm1 & Hp) Hf]]. exists m1. auto.
Qed.
End Bodies.
