(* ===== verification/LocalConcurrent.v ===== *)
(** Operations of the JSON file store running concurrently, in one process or in
    several: what a thread may rely on between two of its steps, and every
    operation as a step that takes place at one moment. *)
From S2P Require Export Traces Rely LocalCritical LocalProperties.

(** ** What the threads agree on *)

(** The ghost state next to a file system: which thread is under the file lock,
    which one holds a mutex, the records as of the last operation that took
    place, and what took place, in order: the thread and a label, which tells the
    operation and its answer. *)
Record Ghost (L : Type) : Type := MkGhost {
  gh_owner : option nat;
  gh_mutexes : gmap nat nat;
  gh_records : Records;
  gh_log : list (nat * L);
}.
Arguments MkGhost {L}.
Arguments gh_owner {L}.
Arguments gh_mutexes {L}.
Arguments gh_records {L}.
Arguments gh_log {L}.

Section Threads.
Context `{Base64Laws, UuidFmtLaws, ChronoLaws, SerdeJsonLaws} (clock : nat -> Z).
Context (p : Path) (n : nat) (st0 : FsState) (m0 : Records).
(** The labels: [spec i m l m'], the operation of thread [i] with the label [l]
    takes the records [m] to [m']; which sequences of labels a thread may have;
    what may have taken place up to a number of effects; and which labels may come
    next. *)
Context {L : Type} (spec : nat -> Records -> L -> Records -> Prop).
Context (allowed : nat -> list L -> Prop).
Context (seen : nat -> list (nat * L) -> Prop) (recent : nat -> L -> Prop).
Context (recent_mono : forall t t' l, (t <= t')%nat -> recent t l -> recent t' l).
Context (seen_mono : forall t t' log, (t <= t')%nat -> seen t log -> seen t' log).
Context (seen_recent : forall t i l log, recent t l -> seen t log -> seen t (log ++ [(i, l)])).
Abbreviation V := (FsState * Ghost L)%type.
Implicit Types (v : V) (i j : nat).

Abbreviation healthy := (no_faults st0).
Abbreviation tree v := (fs_tree v.1).

Definition owns i v : Prop := gh_owner v.2 = Some i.
Definition holds_mutex i mu v : Prop := gh_mutexes v.2 !! mu = Some i.
Definition lock_file v : Prop := is_Some (file_at (tree v) (lock_path p)).

(** A reading of the clock taken between two effects. *)
Definition reading (t : nat) (now : Z) : Prop :=
  exists k, (fs_tick st0 <= k < t)%nat /\ now = clock k.

Lemma reading_mono t t' now : (t <= t')%nat -> reading t now -> reading t' now.
Proof. intros Ht (k & Hk & ->). exists k. split; [lia|done]. Qed.

(** The records the file may hold: those of the last operation that took place,
    or, as long as a thread is under the file lock, those its operation leads
    to. *)
Definition possible v (m : Records) : Prop :=
  m = gh_records v.2 \/
  exists i l, owns i v /\ allowed i (thread_trace i (gh_log v.2) ++ [l]) /\
    recent (fs_tick v.1) l /\ spec i (gh_records v.2) l m.

(** Of the locks, only the file lock and the mutexes of the stores change. *)
Record inv v : Prop := MkInv {
  inv_flocks : fs_flocks v.1 =
    fs_flocks st0 ∪ match gh_owner v.2 with Some _ => {[lock_path p]} | None => ∅ end;
  inv_mutexes : fs_mutexes v.1 = fs_mutexes st0 ∪ dom (gh_mutexes v.2);
  inv_faults : fs_faults v.1 = fs_faults st0;
  inv_tick : (fs_tick st0 <= fs_tick v.1)%nat;
  inv_owner i : owns i v -> (i < n)%nat /\ lock_file v;
  inv_holders i mu : holds_mutex i mu v -> (i < n)%nat;
  inv_file : exists m, file_rep p (tree v) m /\ possible v m;
  inv_serial : serial spec m0 (gh_log v.2) (gh_records v.2);
  inv_allowed i : allowed i (thread_trace i (gh_log v.2));
  inv_seen : seen (fs_tick v.1) (gh_log v.2);
}.

Lemma inv_records v : inv v -> gh_owner v.2 = None -> file_rep p (tree v) (gh_records v.2).
Proof.
  intros Hi Hn. destruct (inv_file _ Hi) as (m & Hm & [->|(i & l & Ho & _)]); [done|].
  unfold owns in Ho. congruence.
Qed.

Lemma possible_later v v' m :
  gh_owner v'.2 = gh_owner v.2 -> gh_records v'.2 = gh_records v.2 -> gh_log v'.2 = gh_log v.2 ->
  (fs_tick v.1 <= fs_tick v'.1)%nat -> possible v m -> possible v' m.
Proof.
  unfold possible, owns. intros -> -> -> Ht [->|(i & l & Ho & Ha & Hr & Hs)]; [by left|right].
  exists i, l. split_and!; [done..| |done]. by eapply recent_mono.
Qed.

(** What thread [i] relies on while the others run: they keep the invariant,
    take no lock it holds, and leave the files alone while it is under the file
    lock. *)
Record rely i v v' : Prop := MkRely {
  rely_inv : inv v -> inv v';
  rely_owns : owns i v <-> owns i v';
  rely_files : owns i v -> tree v' = tree v /\ gh_records v'.2 = gh_records v.2;
  rely_mutex mu : holds_mutex i mu v <-> holds_mutex i mu v';
  rely_lock_file : lock_file v -> lock_file v';
  rely_tick : (fs_tick v.1 <= fs_tick v'.1)%nat;
  rely_log : thread_trace i (gh_log v'.2) = thread_trace i (gh_log v.2);
}.

(** A step of thread [i]: it is one the others rely on, of the operations only
    that of [i] may take place, and what takes place leads from the records
    before to those after. *)
Definition step_ok i v v' : Prop :=
  inv v' /\ (forall j, i <> j -> rely j v v') /\
  exists l, gh_log v'.2 = gh_log v.2 ++ l /\ Forall (fun x => x.1 = i) l /\
    serial spec (gh_records v.2) l (gh_records v'.2).

(** Where thread [i] waits: for the thread under the file lock, or holding
    nothing for one that holds a mutex. *)
Definition waits i v : Prop :=
  inv v /\ ~ owns i v /\
  (is_Some (gh_owner v.2) \/
   (forall mu, ~ holds_mutex i mu v) /\ exists mu j, holds_mutex j mu v).

#[global] Instance rely_preorder i : PreOrder (rely i).
Proof.
  split.
  - intros v. by split.
  - intros v1 v2 v3 [? Ho1 Hf1 Hm1 ? ? Hl1] [? Ho2 Hf2 Hm2 ? ? Hl2].
    split; [by auto|by rewrite Ho1| | |by auto|lia|congruence].
    + intros Ho. destruct (Hf1 Ho) as [<- <-]. by apply Hf2, Ho1.
    + intros mu. by rewrite Hm1.
Qed.

Lemma step_ok_rely i j v v' : i <> j -> step_ok i v v' -> rely j v v'.
Proof. intros Hne (_ & Hr & _). by apply Hr. Qed.

Lemma file_later v v' :
  fs_tree v'.1 = tree v -> gh_owner v'.2 = gh_owner v.2 -> gh_records v'.2 = gh_records v.2 ->
  gh_log v'.2 = gh_log v.2 -> (fs_tick v.1 <= fs_tick v'.1)%nat ->
  (exists m, file_rep p (tree v) m /\ possible v m) ->
  exists m, file_rep p (tree v') m /\ possible v' m.
Proof.
  intros -> Ho Hr Hl Ht (m & Hm & Hp). exists m. split; [done|]. by eapply possible_later.
Qed.

(** *** What a thread knows of itself *)

Record here i (own : bool) (mu : option nat) (l : list L) v : Prop := MkHere {
  here_inv : inv v;
  here_owns : owns i v <-> own = true;
  here_mutex mu' : holds_mutex i mu' v <-> mu = Some mu';
  here_log : thread_trace i (gh_log v.2) = l;
}.

Lemma here_rely i own mu l v v' : rely i v v' -> here i own mu l v -> here i own mu l v'.
Proof.
  intros Hr [Hi Ho Hm Hl]. split.
  - by apply Hr.
  - rewrite <- Ho. symmetry. apply Hr.
  - intros mu'. rewrite <- Hm. symmetry. apply Hr.
  - by rewrite (rely_log _ _ _ Hr).
Qed.

Lemma no_owner_None i v : gh_owner v.2 = None -> ~ owns i v.
Proof. unfold owns. intros ->. done. Qed.

Lemma inv_healthy v : inv v -> healthy -> no_faults v.1.
Proof.
  intros Hi Hn k Hk. rewrite (inv_faults _ Hi). apply Hn. pose proof (inv_tick _ Hi). lia.
Qed.

Lemma allowed_snoc i (log : list (nat * L)) l :
  (forall j, allowed j (thread_trace j log)) -> allowed i (thread_trace i log ++ [l]) ->
  forall j, allowed j (thread_trace j (log ++ [(i, l)])).
Proof.
  intros Ha Hl j. rewrite thread_trace_app. destruct (decide (i = j)) as [<-|Hne].
  - by rewrite thread_trace_one.
  - by rewrite thread_trace_other, app_nil_r.
Qed.

(** A step that changes files: any, but never the lock file away, by the thread
    under the file lock; by another one at most the lock file appears. *)
Lemma tree_step i own mu l v t' :
  here i own mu l v ->
  (lock_file v -> is_Some (file_at t' (lock_path p))) ->
  (own = false -> match gh_owner v.2 with
                  | None => forall m, file_rep p (tree v) m -> file_rep p t' m
                  | Some _ => t' = tree v
                  end) ->
  (own = true -> exists m, file_rep p t' m /\ possible v m) ->
  let v' := (fs_set v.1 t', v.2) in step_ok i v v' /\ here i own mu l v'.
Proof.
  intros [Hi Ho Hm Hl] Hlock Hsame Htorn v'.
  assert (Hinv : inv v').
  { pose proof Hi as [Hf Hmu Hft Htk Hown Hh Hrec Hser Hall Hre]. split; try done.
    - cbn. lia.
    - intros j Hj. split; [by eapply Hown|]. by apply Hlock, (Hown j).
    - assert (exists m, file_rep p t' m /\ possible v m) as (m & Hm' & Hp).
      { destruct own; [by apply Htorn|]. specialize (Hsame eq_refl).
        destruct (gh_owner v.2) eqn:Hn; [by rewrite Hsame|]. exists (gh_records v.2).
        split; [|by left]. by apply Hsame, inv_records. }
      exists m. split; [done|]. eapply possible_later; [..|exact Hp]; [done..|]. cbn. lia.
    - eapply seen_mono; [|exact Hre]. cbn. lia. }
  split; [|by split].
  split; [done|]. split; [|by exists []; rewrite app_nil_r].
  intros j Hne. split; try done.
  - intros Hj. split; [|done]. destruct own.
    + unfold owns in *. destruct Ho as [_ Ho]. rewrite Ho in Hj by done. congruence.
    + specialize (Hsame eq_refl). unfold owns in Hj. by rewrite Hj in Hsame.
  - cbn. lia.
Qed.

(** A step at which something takes place, by a thread that is not under the file
    lock: the records stay as they are. *)
Lemma note_step i mu ls v l :
  here i false mu ls v -> allowed i (ls ++ [l]) ->
  (seen (fs_tick v.1) (gh_log v.2) -> seen (S (fs_tick v.1)) (gh_log v.2 ++ [(i, l)])) ->
  spec i (gh_records v.2) l (gh_records v.2) ->
  let v' := (fs_set v.1 (tree v),
             MkGhost (gh_owner v.2) (gh_mutexes v.2) (gh_records v.2) (gh_log v.2 ++ [(i, l)])) in
  step_ok i v v' /\ here i false mu (ls ++ [l]) v'.
Proof.
  intros [Hi Ho Hm Hl] Hal Hnow Hp v'.
  assert (Hinv : inv v').
  { destruct Hi as [Hf Hmu Hft Htk Hown Hh (m & Hrec & Hpo) Hser Hall Hre]. split; try done.
    - cbn. lia.
    - exists m. split; [done|]. destruct Hpo as [->|(j & k & Hj & Ha & Hr & Hs)]; [by left|right].
      exists j, k. split_and!; [done| | |done].
      + cbn. rewrite thread_trace_app, thread_trace_other, app_nil_r; [done|].
        intros ->. by apply Ho in Hj.
      + eapply recent_mono; [|exact Hr]. cbn. lia.
    - by eapply serial_snoc.
    - apply allowed_snoc; [done|by rewrite Hl].
    - by apply Hnow. }
  split.
  - split; [done|]. split; [|by exists [(i, l)]; split_and!; [|repeat constructor|eexists]].
    intros j Hne. split; try done.
    + cbn. lia.
    + cbn. by rewrite thread_trace_app, thread_trace_other, app_nil_r.
  - split; try done. cbn. by rewrite thread_trace_app, thread_trace_one, Hl.
Qed.

(** Taking and releasing a mutex. *)
Lemma lock_step i v mu ls :
  here i false None ls v -> mu ∉ fs_mutexes v.1 -> (i < n)%nat ->
  let v' := (fs_lock v.1 (fs_flocks v.1) ({[mu]} ∪ fs_mutexes v.1),
             MkGhost (gh_owner v.2) (<[mu := i]> (gh_mutexes v.2)) (gh_records v.2) (gh_log v.2)) in
  step_ok i v v' /\ here i false (Some mu) ls v'.
Proof.
  intros [Hi Ho Hm Hl] Hmu Hlt v'.
  assert (Hfree : gh_mutexes v.2 !! mu = None).
  { rewrite (inv_mutexes _ Hi) in Hmu. apply not_elem_of_dom. set_solver. }
  assert (Hinv : inv v').
  { destruct Hi as [Hf Hmus Hft Htk Hown Hh Hrec Hser Hall Hre]. split; try done.
    - cbn. rewrite Hmus, dom_insert_L. set_solver.
    - cbn. lia.
    - intros j nu. unfold holds_mutex; cbn. rewrite lookup_insert. case_decide; [congruence|].
      apply Hh.
    - by eapply file_later; [..|exact Hrec]; try done; cbn; lia.
    - eapply seen_mono; [|exact Hre]. cbn. lia. }
  split.
  - split; [done|]. split; [|by exists []; rewrite app_nil_r].
    intros j Hne. split; try done.
    + intros nu. unfold holds_mutex; cbn. rewrite lookup_insert. case_decide; [subst|done].
      rewrite Hfree. split; congruence.
    + cbn. lia.
  - split; try done. intros nu. unfold holds_mutex; cbn. rewrite lookup_insert. case_decide; subst.
    + done.
    + specialize (Hm nu). unfold holds_mutex in Hm. rewrite Hm. split; congruence.
Qed.

Lemma unlock_step i v mu ls :
  here i false (Some mu) ls v -> mu ∉ fs_mutexes st0 ->
  let v' := (fs_lock v.1 (fs_flocks v.1) (fs_mutexes v.1 ∖ {[mu]}),
             MkGhost (gh_owner v.2) (delete mu (gh_mutexes v.2)) (gh_records v.2) (gh_log v.2)) in
  step_ok i v v' /\ here i false None ls v'.
Proof.
  intros [Hi Ho Hm Hl] Hmu v'.
  assert (Hheld : gh_mutexes v.2 !! mu = Some i) by by apply Hm.
  assert (Hinv : inv v').
  { destruct Hi as [Hf Hmus Hft Htk Hown Hh Hrec Hser Hall Hre]. split; try done.
    - cbn. rewrite Hmus, dom_delete_L. set_solver.
    - cbn. lia.
    - intros j nu. unfold holds_mutex; cbn. rewrite lookup_delete. case_decide; [done|]. apply Hh.
    - by eapply file_later; [..|exact Hrec]; try done; cbn; lia.
    - eapply seen_mono; [|exact Hre]. cbn. lia. }
  split.
  - split; [done|]. split; [|by exists []; rewrite app_nil_r].
    intros j Hne. split; try done.
    + intros nu. unfold holds_mutex; cbn. rewrite lookup_delete. case_decide; [subst|done].
      rewrite Hheld. split; congruence.
    + cbn. lia.
  - split; try done. intros nu. unfold holds_mutex; cbn. rewrite lookup_delete. case_decide; subst.
    + done.
    + specialize (Hm nu). unfold holds_mutex in Hm. rewrite Hm. split; congruence.
Qed.

(** Taking the file lock, and releasing it: the moment at which an operation
    takes place. *)
Lemma unlocked_no_owner v : inv v -> lock_path p ∉ fs_flocks v.1 -> gh_owner v.2 = None.
Proof.
  intros Hi Hl. rewrite (inv_flocks _ Hi) in Hl. destruct (gh_owner v.2); [|done].
  destruct Hl. by apply elem_of_union_r, elem_of_singleton_2.
Qed.

Lemma inv_unlocked v : inv v -> lock_path p ∉ fs_flocks v.1 -> file_rep p (tree v) (gh_records v.2).
Proof. intros Hi Hl. by apply inv_records, unlocked_no_owner. Qed.

Lemma flock_step i mu ls v :
  here i false mu ls v -> lock_path p ∉ fs_flocks v.1 -> lock_file v -> (i < n)%nat ->
  let v' := (fs_lock v.1 ({[lock_path p]} ∪ fs_flocks v.1) (fs_mutexes v.1),
             MkGhost (Some i) (gh_mutexes v.2) (gh_records v.2) (gh_log v.2)) in
  step_ok i v v' /\ here i true mu ls v' /\ file_rep p (tree v') (gh_records v'.2).
Proof.
  intros [Hi Ho Hm Hl] Hfree Hfile Hlt v'. pose proof (unlocked_no_owner v Hi Hfree) as Hnone.
  assert (Hinv : inv v').
  { pose proof Hi as [Hf Hmus Hft Htk Hown Hh _ Hser Hall Hre]. split; try done.
    - cbn. rewrite Hf, Hnone. set_solver.
    - cbn. lia.
    - intros j [= <-]. done.
    - exists (gh_records v.2). split; [exact (inv_records v Hi Hnone)|by left].
    - eapply seen_mono; [|exact Hre]. cbn. lia. }
  split; [|split; [|exact (inv_records v Hi Hnone)]].
  - split; [done|]. split; [|by exists []; rewrite app_nil_r].
    intros j Hne. split; try done.
    + unfold owns; cbn. rewrite Hnone. split; congruence.
    + cbn. lia.
  - by split.
Qed.

Lemma release_step i mu ls v l m' :
  here i true mu ls v -> lock_path p ∉ fs_flocks st0 -> recent (fs_tick v.1) l ->
  allowed i (ls ++ [l]) -> file_rep p (tree v) m' -> spec i (gh_records v.2) l m' ->
  let v' := (fs_lock v.1 (fs_flocks v.1 ∖ {[lock_path p]}) (fs_mutexes v.1),
             MkGhost None (gh_mutexes v.2) m' (gh_log v.2 ++ [(i, l)])) in
  step_ok i v v' /\ here i false mu (ls ++ [l]) v'.
Proof.
  intros [Hi Ho Hm Hl] Hfree Hnow Hal Hrep Hp v'.
  assert (Hown : gh_owner v.2 = Some i) by by apply Ho.
  assert (Hinv : inv v').
  { destruct Hi as [Hf Hmus Hft Htk _ Hh Hrec Hser Hall Hre]. split; try done.
    - cbn. rewrite Hf, Hown. set_solver.
    - cbn. lia.
    - exists m'. split; [done|by left].
    - by eapply serial_snoc.
    - apply allowed_snoc; [done|by rewrite Hl].
    - eapply seen_mono; [|by apply seen_recent]. cbn. lia. }
  split.
  - split; [done|]. split; [|by exists [(i, l)]; split_and!; [|repeat constructor|eexists]].
    intros j Hne. split; try done.
    + unfold owns; cbn. rewrite Hown. split; congruence.
    + unfold owns. rewrite Hown. congruence.
    + cbn. lia.
    + cbn. by rewrite thread_trace_app, thread_trace_other, app_nil_r.
  - split; try done. cbn. by rewrite thread_trace_app, thread_trace_one, Hl.
Qed.

(** *** Rules for the effects *)

Definition no_panic : V -> Prop := fun _ => False.
Abbreviation triple i := (rg (fs_handle clock) (rely i) (step_ok i) (waits i) no_panic).

Lemma triple_clock i own mu ls v :
  here i own mu ls v ->
  triple i (trigger ClockNow)
    (fun now v' => here i own mu ls v' /\ reading (fs_tick v'.1) now) v.
Proof.
  intros Hv. apply rg_trigger.
  - intros now v1 v2 Hr [Hh Hn]. split; [by eapply here_rely|].
    eapply reading_mono; [by eapply rely_tick|done].
  - intros v' Hr. cbn. exists v'.2. apply (here_rely _ _ _ _ _ _ Hr) in Hv.
    destruct (tree_step i own mu ls v' (tree v')) as [Hs Hh]; [done..|by destruct (gh_owner _)|by intros _; eapply inv_file, here_inv|].
    split; [done|]. split; [done|]. exists (fs_tick v'.1). cbn.
    pose proof (inv_tick _ (here_inv _ _ _ _ _ Hv)). split; [lia|done].
Qed.

Lemma triple_mutex_lock i mu ls v :
  here i false None ls v -> mu ∉ fs_mutexes st0 -> (i < n)%nat ->
  triple i (trigger (MutexLock mu))
    (fun _ v' => here i false (Some mu) ls v' /\ (fs_tick st0 < fs_tick v'.1)%nat) v.
Proof.
  intros Hv Hmu Hlt. apply rg_trigger.
  - intros _ v1 v2 Hr [Hh Hn]. split; [by eapply here_rely|]. pose proof (rely_tick _ _ _ Hr). lia.
  - intros v' Hr. cbn. apply (here_rely _ _ _ _ _ _ Hr) in Hv.
    pose proof (here_inv _ _ _ _ _ Hv) as Hi. case_decide as Hin.
    + split; [done|].
      split; [intros Ho%(here_owns _ _ _ _ _ Hv); done|right].
      split; [intros nu Hn%(here_mutex _ _ _ _ _ Hv); done|].
      rewrite (inv_mutexes _ Hi) in Hin. apply elem_of_union in Hin as [?|Hin]; [done|].
      apply elem_of_dom in Hin as [j Hj]. by exists mu, j.
    + destruct (lock_step i v' mu ls) as [Hs Hh]; [done..|]. eexists. split; [exact Hs|].
      split; [done|]. pose proof (inv_tick _ Hi). cbn. lia.
Qed.

Lemma triple_mutex_unlock i mu ls v :
  here i false (Some mu) ls v -> mu ∉ fs_mutexes st0 ->
  triple i (trigger (MutexUnlock mu)) (fun _ => here i false None ls) v.
Proof.
  intros Hv Hmu. apply rg_trigger.
  - intros _ v1 v2. apply here_rely.
  - intros v' Hr. cbn. apply (here_rely _ _ _ _ _ _ Hr) in Hv. eexists. by apply unlock_step.
Qed.

(** An operation of thread [i], which took place as [lab r] when it has the
    result [r]. *)
Section Operation.
Context {A : Type} (i mu : nat) (ls : list L) (lab : result A StorageError -> L).
Context (Hfree : lock_path p ∉ fs_flocks st0).
Context (Hallowed : forall r, allowed i (ls ++ [lab r])).
Context (early : forall m e, ~ healthy -> e <> NotFound -> spec i m (lab (Err e)) m).

(** Before the operation takes place, and after it. *)
Definition before (own : bool) v : Prop :=
  here i own (Some mu) ls v /\ forall r, recent (fs_tick v.1) (lab r).
Definition after (r : result A StorageError) v : Prop := here i false (Some mu) (ls ++ [lab r]) v.

Lemma before_rely own v v' : rely i v v' -> before own v -> before own v'.
Proof.
  intros Hr [Hh Hn]. split; [by eapply here_rely|]. intros r.
  eapply recent_mono; [by eapply rely_tick|done].
Qed.

Lemma after_rely r v v' : rely i v v' -> after r v -> after r v'.
Proof. apply here_rely. Qed.

Lemma recent_next v own r : before own v -> recent (S (fs_tick v.1)) (lab r).
Proof. intros [_ Hn]. eapply recent_mono; [|apply Hn]. lia. Qed.

Lemma seen_next v own r j :
  before own v -> seen (fs_tick v.1) (gh_log v.2) ->
  seen (S (fs_tick v.1)) (gh_log v.2 ++ [(j, lab r)]).
Proof.
  intros Hb Hs. apply seen_recent; [by eapply recent_next|]. eapply seen_mono; [|exact Hs]. lia.
Qed.

(** A system call that fails before the file lock is taken ends the
    operation. *)
Lemma fault_step f v :
  before false v -> fs_faults v.1 (fs_tick v.1) = Some f ->
  exists gh, step_ok i v (fs_set v.1 (tree v), gh) /\
    after (Err (Io (fault_msg f))) (fs_set v.1 (tree v), gh).
Proof.
  intros Hb Hf. pose proof Hb as [Hh Hn]. eexists.
  apply note_step; [done|apply Hallowed|by eapply seen_next|apply early; [|done]].
  intros Hhealthy. pose proof (inv_healthy v (here_inv _ _ _ _ _ Hh) Hhealthy) as Hnf.
  specialize (Hnf _ (le_n _)). congruence.
Qed.

Definition opened_lock (r : result unit StorageError) v : Prop :=
  match r with
  | Ok _ => before false v /\ lock_file v
  | Err e => after (Err e) v
  end.

Lemma triple_open_lock v : before false v -> triple i (open_lock_file p) opened_lock v.
Proof.
  intros Hv. unfold open_lock_file, io, map_err_p.
  assert (Hst : forall r v1 v2, rely i v1 v2 -> opened_lock r v1 -> opened_lock r v2).
  { intros [[]|e] v1 v2 Hr; cbn; [|by apply after_rely].
    intros [? ?]. split; [by eapply before_rely|by eapply rely_lock_file]. }
  apply rg_fmap; [apply _|by intros; eapply Hst|]. apply rg_trigger; [by intros; eapply Hst|].
  intros v' Hr. apply (before_rely _ _ _ Hr) in Hv as [Hh Hn]. cbn. unfold fallible.
  destruct (fs_faults v'.1 (fs_tick v'.1)) as [f|] eqn:Hf; [by apply fault_step|].
  set (t' := (open_ok _ _).2). pose proof (here_inv _ _ _ _ _ Hh) as Hi.
  assert (Hopen : (open_ok (tree v') (lock_path p)).1 = Ok tt /\
            is_Some (file_at t' (lock_path p)) /\
            match gh_owner v'.2 with
            | None => forall m, file_rep p (tree v') m -> file_rep p t' m
            | Some _ => t' = tree v'
            end).
  { subst t'. unfold open_ok. destruct (file_at (tree v') (lock_path p)) as [l|] eqn:Hl.
    { cbn. rewrite Hl. split_and!; [done|eauto|by destruct (gh_owner _)]. }
    destruct (gh_owner v'.2) as [j|] eqn:Ho.
    { destruct (inv_owner _ Hi j Ho) as [_ [l' Hl']]. congruence. }
    destruct (inv_records _ Hi Ho) as [(x & doc & Hx & Hdoc) _].
    destruct (open_lock_ok p (tree v') x Hx) as (Hok & _ & _ & Hp).
    unfold open_ok in Hok, Hp. rewrite Hl in Hok, Hp. split; [exact Hok|]. split.
    - rewrite lock_path_parent in Hok |- *. destruct (path_parent p) as [dir|] eqn:Hd; [|done].
      destruct (tree v' !! dir) eqn:Hdir; [|done]. cbn. rewrite file_at_set, decide_True; [eauto|].
      split; [done|]. rewrite lock_path_parent, Hd. cbn. eauto.
    - intros m [Hm ?]. split; [by eapply holds_same|done]. }
  destruct Hopen as (-> & Hl & Hsame). exists v'.2. cbn [map_err].
  destruct (tree_step i false (Some mu) ls v' t') as [Hs Hh']; [done..|].
  split; [done|]. split; [|done]. split; [done|]. intros r. by eapply recent_next.
Qed.

(** Under the file lock: the records the file holds. *)
Definition locked (t : Tree) (m : Records) v : Prop :=
  before true v /\ tree v = t /\ gh_records v.2 = m.

Lemma locked_rely t m v v' : rely i v v' -> locked t m v -> locked t m v'.
Proof.
  intros Hr (Hb & <- & <-). destruct (rely_files _ _ _ Hr) as [Ht Hm].
  { by apply (here_owns _ _ _ _ _ (proj1 Hb)). }
  split; [by eapply before_rely|done].
Qed.

Lemma triple_flock (Q : result unit StorageError -> V -> Prop) v :
  before false v -> lock_file v -> (i < n)%nat ->
  (forall r v1 v2, rely i v1 v2 -> Q r v1 -> Q r v2) ->
  (forall e v', after (Err e) v' -> Q (Err e) v') ->
  (forall t m v', locked t m v' -> file_rep p t m -> Q (Ok tt) v') ->
  triple i (io (FlockExclusive (lock_path p))) Q v.
Proof.
  intros Hv Hl Hlt Hst Herr Hok. unfold io, map_err_p.
  apply rg_fmap; [apply _|by intros; eapply Hst|]. apply rg_trigger; [by intros; eapply Hst|].
  intros v' Hr. pose proof (rely_lock_file _ _ _ Hr Hl) as Hl'.
  pose proof (before_rely _ _ _ Hr Hv) as Hb. pose proof Hb as [Hh Hn].
  pose proof (here_inv _ _ _ _ _ Hh) as Hi. cbn. case_decide as Hin.
  - split; [done|]. split; [by intros Ho%(here_owns _ _ _ _ _ Hh)|left].
    rewrite (inv_flocks _ Hi) in Hin. destruct (gh_owner v'.2); [eauto|set_solver].
  - destruct (fs_faults v'.1 (fs_tick v'.1)) as [f|] eqn:Hf.
    + destruct (fault_step f v') as (gh & Hs & Ha); [done..|]. exists gh. split; [done|].
      by apply Herr.
    + destruct (flock_step i (Some mu) ls v') as (Hs & Hh' & Hrep); [done..|].
      eexists. split; [exact Hs|]. eapply Hok; [|exact Hrep]. split; [|done]. split; [done|].
      intros r. by eapply recent_next.
Qed.

(** Under the file lock a program over trees runs as if alone. *)
Lemma triple_tree {C : Type} (q : prog fsE C) (t0 : Tree) Qt m m' t v :
  twp healthy (torn p m m' t0) q Qt t -> (exists r, spec i m (lab r) m') ->
  is_Some (file_at t0 (lock_path p)) -> locked t m v ->
  triple i q (fun r v' => exists t', locked t' m v' /\ Qt r t') v.
Proof.
  intros Hq [r0 Hr0] Hl. revert t v Hq. induction q as [r| |X e k IH]; intros t v [Hkeep Hq] Hv; cbn [rg];
    intros v' Hr; pose proof (locked_rely _ _ _ _ Hr Hv) as Hv'; [by exists t|done|].
  destruct Hq as [He Hq]. destruct (tree_handle clock e v'.1 He) as (x & t' & Hx & ->).
  pose proof Hv' as ([Hh Hn] & Ht & Hm).
  destruct (Hq (fs_faults v'.1 (fs_tick v'.1))) as (x' & t'' & Hx' & Hk).
  { intros Hhealthy. by apply no_faults_now, (inv_healthy v'); [apply Hh|]. }
  rewrite Ht, Hx' in Hx. injection Hx as -> ->. exists v'.2.
  assert (Hkeep' : torn p m m' t0 t') by by destruct (k x), Hk.
  destruct (tree_step i true (Some mu) ls v' t' Hh) as [Hs Hh']; [by intros _; apply Hkeep'|done| |].
  { intros _. destruct Hkeep' as [_ [Hf|Hf]]; [exists m; by split; [|left]|].
    exists m'. split; [done|right]. exists i, (lab r0). pose proof Hh as [_ Ho _ Hlog].
    split_and!; [by apply Ho|by rewrite Hlog|done|by rewrite Hm]. }
  split; [done|]. apply IH with t'; [done|]. split; [|done]. split; [done|].
  intros r. by eapply recent_next, Hv'.
Qed.

(** The operation takes place when the file lock is released. *)
Lemma triple_release r t m m' v :
  locked t m v -> file_rep p t m' -> spec i m (lab r) m' ->
  triple i (trigger (FlockRelease (lock_path p))) (fun _ => after r) v.
Proof.
  intros Hv Hrep Hp. apply rg_trigger; [intros _ v1 v2; apply after_rely|].
  intros v' Hr. pose proof (locked_rely _ _ _ _ Hr Hv) as (Hb & <- & <-).
  pose proof Hb as [Hh Hn]. cbn. eexists.
  apply release_step with (m' := m'); [done|done|done|apply Hallowed|done|done].
Qed.

(** The operation from the file lock on. *)
Lemma triple_op_body (effect : Records -> Records) (k : DiskState -> prog fsE (result A StorageError))
    (post : Records -> result A StorageError -> Records -> Prop) fine v :
  (i < n)%nat ->
  (forall D, within (fun _ _ _ => True) tree_effect (k D)) ->
  (forall m, times_ok m -> times_ok (effect m)) ->
  (forall m, exists r, post m r (effect m) /\ fine m r) ->
  (forall m e, e <> NotFound -> post m (Err e) m) ->
  (forall m st, file_rep p (fs_tree st) m ->
     body_ok clock p (disk_of_records m) (disk_of_records (effect m)) st k
       (answers p st (post m) (fine m))) ->
  (forall m r m', post m r m' -> (healthy -> fine m r) -> spec i m (lab r) m') ->
  before false v -> triple i (op_body (MkLocalFileStore p mu) k) after v.
Proof.
  intros Hlt Hk Htimes Heff He Hb Hpost Hv. unfold op_body, blocking, with_file_lock. cbn [vault_path].
  apply rg_bind, rg_spawn; [apply _|by intros ? []|].
  eapply rg_mono with after.
  2:{ intros r v' Hr v'' Hrel. destruct r; by eapply after_rely. }
  apply rg_try; [apply _|by intros; eapply after_rely|].
  eapply rg_mono; [by apply triple_open_lock|]. intros [[]|e] v1; [|done]. intros [Hb1 Hl1].
  apply rg_try; [apply _|by intros; eapply after_rely|].
  apply triple_flock; [done|done|done| |done|].
  - intros [[]|e] v2 v3 Hr; [|by apply after_rely]. intros Hq. by eapply rg_stable; [apply _|exact Hr|].
  - intros t m v2 Hlk Hrep. apply rg_on_exit; [apply _|by intros ? []|by intros; eapply after_rely|].
    assert (is_Some (file_at t (lock_path p))) as Hlock.
    { destruct Hlk as ([Hh _] & <- & _). apply (inv_owner _ (here_inv _ _ _ _ _ Hh) i), Hh. done. }
    eapply rg_mono; [eapply triple_tree with (m' := effect m); [| |exact Hlock|exact Hlk]|].
    + apply (twp_body clock healthy p m _ k (post m) (fine m) t Hk);
        [by apply Htimes, Hrep|apply He|apply Hb|done].
    + destruct (Heff m) as (r & Hr & Hf). exists r. by apply Hpost.
    + cbn beta. intros r v3 (t' & Hlk' & m' & Hm' & Hp & Hf).
      eapply triple_release; [exact Hlk'|exact Hm'|by apply Hpost].
Qed.
End Operation.

(** *** Whole operations *)

Lemma triple_process_lock {A : Type} i mu ls (body : prog fsE A) (lab : A -> L -> Prop) v :
  here i false None ls v -> mu ∉ fs_mutexes st0 -> (i < n)%nat ->
  (forall v', here i false (Some mu) ls v' -> (fs_tick st0 < fs_tick v'.1)%nat ->
     triple i body (fun r v'' => exists l, lab r l /\ here i false (Some mu) (ls ++ [l]) v'') v') ->
  triple i (with_process_lock (MkLocalFileStore p mu) body)
    (fun r v' => exists l, lab r l /\ here i false None (ls ++ [l]) v') v.
Proof.
  intros Hv Hmu Hlt Hb. unfold with_process_lock. cbn [process_lock]. apply rg_bind; [apply _|].
  eapply rg_mono; [by apply triple_mutex_lock|]. intros [] v1 [Hv1 Ht].
  apply rg_on_exit; [apply _|by intros ? []| |].
  { intros r v2 v3 Hr (l & Hl & Hh). exists l. split; [done|]. by eapply here_rely. }
  eapply rg_mono; [by apply Hb|]. intros r v2 (l & Hl & Hv2).
  eapply rg_mono; [by eapply triple_mutex_unlock|]. intros [] v3 Hv3. by exists l.
Qed.

(** The operations of a store whose mutex is free at first, each labelled by what
    it answers. *)
Section Store.
Context (i mu : nat) (ls : list L) (Hlt : (i < n)%nat).
Context (Hl : lock_path p ∉ fs_flocks st0) (Hmu : mu ∉ fs_mutexes st0).
Abbreviation store := (MkLocalFileStore p mu).

Lemma triple_op {A : Type} (lab : result A StorageError -> L) effect
    (k : DiskState -> prog fsE (result A StorageError)) post fine v :
  (forall D, within (fun _ _ _ => True) tree_effect (k D)) ->
  (forall m, times_ok m -> times_ok (effect m)) ->
  (forall m, exists r, post m r (effect m) /\ fine m r) ->
  (forall m e, e <> NotFound -> post m (Err e) m) ->
  (forall m st, file_rep p (fs_tree st) m ->
     body_ok clock p (disk_of_records m) (disk_of_records (effect m)) st k
       (answers p st (post m) (fine m))) ->
  (forall x, allowed i (ls ++ [lab x])) -> (forall x, recent (fs_tick v.1) (lab x)) ->
  (forall m x m', post m x m' -> (healthy -> fine m x) -> spec i m (lab x) m') ->
  here i false (Some mu) ls v ->
  triple i (op_body store k)
    (fun x v' => exists l, l = lab x /\ here i false (Some mu) (ls ++ [l]) v') v.
Proof.
  intros Hk Ht Hf He Hb Hal Hre Hs Hv.
  eapply rg_mono; [|intros x v' Hx; exists (lab x); split; [done|exact Hx]].
  apply (triple_op_body i mu ls lab Hl Hal) with effect post fine; [|done..].
  intros m e Hn Hne. apply Hs; [by apply He|done].
Qed.

Lemma triple_insert id r (lab : result unit StorageError -> L) v :
  record_times representable r ->
  (forall x, allowed i (ls ++ [lab x])) -> (forall x, recent (S (fs_tick st0)) (lab x)) ->
  (forall m x m', insert_post id r m x m' -> (healthy -> is_ok x = true) -> spec i m (lab x) m') ->
  here i false None ls v ->
  triple i (local_insert store id r)
    (fun x v' => exists l, l = lab x /\ here i false None (ls ++ [l]) v') v.
Proof.
  intros Hok Hal Hre Hs Hv. apply triple_process_lock; [done..|]. intros v1 Hv1 Ht.
  apply triple_op with (fun m => <[id := r]> m) (insert_post id r) (fun _ x => is_ok x = true);
    [| | |intros m e; apply insert_early|intros m st Hm; by apply insert_body|done| |done|done].
  - intros D. apply write_atomic_on_tree.
  - intros m Hm. by apply times_insert.
  - intros m. by exists (Ok tt).
  - intros x. eapply recent_mono; [|apply Hre]. lia.
Qed.

Lemma triple_fetch id (lab : result StoredRecord StorageError -> L) v :
  (forall x, allowed i (ls ++ [lab x])) -> (forall x, recent (S (fs_tick st0)) (lab x)) ->
  (forall m x m', fetch_post id m x m' -> (healthy -> x = ok_or (m !! id) NotFound) ->
     spec i m (lab x) m') ->
  here i false None ls v ->
  triple i (local_fetch store id)
    (fun x v' => exists l, l = lab x /\ here i false None (ls ++ [l]) v') v.
Proof.
  intros Hal Hre Hs Hv. apply triple_process_lock; [done..|]. intros v1 Hv1 Ht.
  apply triple_op with (fun m => m) (fetch_post id) (fun m x => x = ok_or (m !! id) NotFound);
    [done|done| |intros m e; apply fetch_early|intros m st Hm; by apply fetch_body|done| |done|done].
  - intros m. exists (ok_or (m !! id) NotFound). split; [|done]. split; [done|].
    by destruct (m !! id).
  - intros x. eapply recent_mono; [|apply Hre]. lia.
Qed.

Lemma triple_delete id (lab : result bool StorageError -> L) v :
  (forall x, allowed i (ls ++ [lab x])) -> (forall x, recent (S (fs_tick st0)) (lab x)) ->
  (forall m x m', delete_post id m x m' -> (healthy -> is_ok x = true) -> spec i m (lab x) m') ->
  here i false None ls v ->
  triple i (local_delete store id)
    (fun x v' => exists l, l = lab x /\ here i false None (ls ++ [l]) v') v.
Proof.
  intros Hal Hre Hs Hv. apply triple_process_lock; [done..|]. intros v1 Hv1 Ht.
  apply triple_op with (delete id) (delete_post id) (fun _ x => is_ok x = true);
    [| | |intros m e; apply delete_early|intros m st Hm; by apply delete_body|done| |done|done].
  - intros D. apply on_tree_try; [|done]. case_bool_decide; [apply write_atomic_on_tree|done].
  - intros m. apply times_delete.
  - intros m. by exists (Ok (bool_decide (is_Some (m !! id)))).
  - intros x. eapply recent_mono; [|apply Hre]. lia.
Qed.

Lemma triple_sweep (lab : Z -> result nat StorageError -> L) v :
  (forall now x, allowed i (ls ++ [lab now x])) ->
  (forall t now x, reading t now -> recent t (lab now x)) ->
  (forall t now m x m', reading t now -> sweep_post now m x m' -> (healthy -> is_ok x = true) ->
     spec i m (lab now x) m') ->
  here i false None ls v ->
  triple i (local_delete_expired store)
    (fun x v' => exists l, (exists now, l = lab now x) /\ here i false None (ls ++ [l]) v') v.
Proof.
  intros Hal Hre Hs Hv. apply triple_process_lock; [done..|]. intros v1 Hv1 Ht.
  apply rg_bind; [apply _|]. eapply rg_mono; [by apply triple_clock|]. intros now v2 [Hv2 Hnow].
  eapply rg_mono.
  - apply triple_op with (lab := lab now) (effect := sweep now) (post := sweep_post now)
      (fine := fun _ x => is_ok x = true);
      [| | |intros m e; apply sweep_early|intros m st Hm; by apply sweep_body|by auto|by eauto|by eauto|done].
    + intros D. apply on_tree_try; [|done].
      destruct (0 <? size D - _)%nat; [apply write_atomic_on_tree|done].
    + intros m. apply times_sweep.
    + intros m. by exists (Ok (size m - size (sweep now m))%nat).
  - intros x v3 (l & -> & Hv3). by exists (lab now x); eauto.
Qed.
End Store.

(** ** All threads together *)

Abbreviation path_of := (gpath step_ok).

Lemma path_inv v l v' : inv v -> path_of v l v' -> inv v'.
Proof. intros Hi Hp. revert Hi. induction Hp as [v|i v v1 v2 l (Hi1 & _) _ IH]; auto. Qed.

(** What took place along a path was done by threads that ran, and leads from the
    records before to those after. *)
Lemma path_log v l v' :
  path_of v l v' ->
  exists new, gh_log v'.2 = gh_log v.2 ++ new /\ Forall (fun x => x.1 ∈ l) new /\
    serial spec (gh_records v.2) new (gh_records v'.2).
Proof.
  induction 1 as [v|i v v1 v2 l (_ & _ & l1 & Hl1 & Hi & Hs1) _ (l2 & Hl2 & Hn & Hs2)].
  - exists []. by rewrite app_nil_r.
  - exists (l1 ++ l2). rewrite Hl2, Hl1, app_assoc. split; [done|]. split.
    + apply Forall_app. split.
      * eapply Forall_impl; [exact Hi|]. cbn. intros x ->. constructor.
      * eapply Forall_impl; [exact Hn|]. cbn. intros x Hx. by constructor.
    + apply serial_app. by exists (gh_records v1.2).
Qed.

(** A thread that took no step has nothing in the log. *)
Lemma path_unlogged v l v' i k :
  path_of v l v' -> gh_log v.2 = [] -> i ∉ l -> (i, k) ∉ gh_log v'.2.
Proof.
  intros (new & Hn & Hf & _)%path_log He Hi Hin. rewrite He in Hn. cbn in Hn. rewrite Hn in Hin.
  rewrite Forall_forall in Hf. by apply (Hf (i, k)) in Hin.
Qed.

(** A thread that holds nothing. *)
Definition free i v : Prop := ~ owns i v /\ forall mu, ~ holds_mutex i mu v.

Lemma here_free i ls v : here i false None ls v -> free i v.
Proof. intros Hh. split; [by intros Ho%(here_owns _ _ _ _ _ Hh)|by intros mu Hm%(here_mutex _ _ _ _ _ Hh)]. Qed.

(** The threads at the start. *)
Definition ghost0 : Ghost L := MkGhost None ∅ m0 [].

Lemma start_inv :
  file_rep p (fs_tree st0) m0 -> (forall i, allowed i []) -> seen (fs_tick st0) [] ->
  inv (st0, ghost0).
Proof.
  intros Hm Ha Hs. split; cbn; try done.
  - by rewrite (right_id_L ∅ (∪)).
  - by rewrite dom_empty_L, (right_id_L ∅ (∪)).
  - exists m0. split; [done|by left].
Qed.

Lemma start_here i : inv (st0, ghost0) -> here i false None [] (st0, ghost0).
Proof. by split. Qed.

(** A pool of threads that hold nothing when they have come to their end. *)
Section Pool.
Context {E : Type -> Type} (h : handler E FsState) {A : Type}.
Context (Q : nat -> A -> V -> Prop) (D : nat -> V -> Prop).
Context (Q_free : forall i a v, Q i a v -> free i v) (D_free : forall i v, D i v -> free i v).
Implicit Types (ps : list (prog E A)).
Abbreviation ok_pool := (pool_ok h rely step_ok waits D Q).

Lemma ended_free ps v j q : ok_pool ps v -> ps !! j = Some q -> ~ running q -> free j v.
Proof.
  intros Hps Hq Hn. destruct q as [a| |X e k].
  - eapply Q_free, (pool_ok_ret _ _ _ _ _ _ _ _ _ _ Hps Hq).
  - eapply D_free, (pool_ok_panic _ _ _ _ _ _ _ _ _ Hps Hq).
  - by destruct Hn.
Qed.

(** A thread that has not ended can step, or waits. *)
Lemma thread_steps ps v j q :
  ok_pool ps v -> ps !! j = Some q -> running q ->
  waits j v \/
  exists X (e : E X) k x w', ps !! j = Some (Vis e k) /\ h X e v.1 = Some (x, w').
Proof.
  intros Hps Hq Hr. destruct q as [a| |X e k].
  - by destruct (proj2 Hr a).
  - by destruct (proj1 Hr).
  - destruct (h X e v.1) as [[x w']|] eqn:He.
    + right. by exists X, e, k, x, w'.
    + left. exact (pool_ok_blocked _ _ _ _ _ _ _ _ _ e k Hps Hq He).
Qed.

Lemma running_dec (q : prog E A) : running q \/ ~ running q.
Proof.
  destruct q as [a| |X e k]; [right|right|by left].
  - intros [_ Hn]. by destruct (Hn a).
  - by intros [Hn _].
Qed.

(** One of the threads that have not ended can go on. *)
Lemma pool_live ps v :
  ok_pool ps v -> inv v -> length ps = n ->
  ended ps \/
  exists i X (e : E X) k x w', ps !! i = Some (Vis e k) /\ h X e v.1 = Some (x, w').
Proof.
  intros Hps Hi Hlen.
  assert (Hgo : forall j, (j < n)%nat -> ~ free j v -> ~ waits j v ->
            exists i X (e : E X) k x w', ps !! i = Some (Vis e k) /\ h X e v.1 = Some (x, w')).
  { intros j Hj Hf Hw. rewrite <- Hlen in Hj. apply lookup_lt_is_Some in Hj as [q Hq].
    destruct (running_dec q) as [Hr|Hr]; [|by destruct Hf; eapply ended_free].
    destruct (thread_steps ps v j q Hps Hq Hr) as [?|?]; [done|by exists j]. }
  destruct (gh_owner v.2) as [j|] eqn:Ho.
  { right. apply (Hgo j); [by eapply inv_owner|by intros [Hn _]|by intros (_ & Hn & _)]. }
  destruct (decide (gh_mutexes v.2 = ∅)) as [Hno|[mu [j Hj]]%map_choose].
  - destruct (ended_or ps) as [Hd|(j & q & Hj & Hr)]; [by left|right].
    destruct (thread_steps ps v j q Hps Hj Hr) as [Hw|?]; [|by exists j].
    destruct Hw as (_ & _ & [[i Hi']|(_ & mu & i & Hh)]); [congruence|].
    unfold holds_mutex in Hh. by rewrite Hno in Hh.
  - right. apply (Hgo j); [by eapply inv_holders|by intros [_ Hn]; eapply Hn|].
    intros (_ & _ & [[i Hi']|(Hh & _)]); [congruence|]. by apply (Hh mu).
Qed.

(** When all have ended no lock is held. *)
Lemma pool_ended ps v :
  ok_pool ps v -> inv v -> length ps = n -> ended ps ->
  fs_flocks v.1 = fs_flocks st0 /\ fs_mutexes v.1 = fs_mutexes st0.
Proof.
  intros Hps Hi Hlen Hr.
  assert (Hfree : forall j, (j < n)%nat -> free j v).
  { intros j Hj. rewrite <- Hlen in Hj. apply lookup_lt_is_Some in Hj as [q Hq].
    eapply ended_free; [done..|]. intros [Hp Hn].
    destruct (Forall_lookup_1 _ _ _ _ Hr Hq) as [->|[a ->]]; [done|by destruct (Hn a)]. }
  rewrite (inv_flocks _ Hi), (inv_mutexes _ Hi). split.
  - destruct (gh_owner v.2) as [j|] eqn:Ho; [|apply (right_id_L ∅ (∪))].
    destruct (Hfree j) as [Hn _]; [by eapply inv_owner|]. by destruct Hn.
  - destruct (decide (gh_mutexes v.2 = ∅)) as [->|[mu [j Hj]]%map_choose].
    { by rewrite dom_empty_L, (right_id_L ∅ (∪)). }
    destruct (Hfree j) as [_ Hn]; [by eapply inv_holders|]. by destruct (Hn mu).
Qed.

(** From any state it reaches, the pool can be run to its end. *)
Lemma pool_can_end ps v :
  ok_pool ps v -> inv v -> length ps = n ->
  exists tr ps' st', pool_run h ps v.1 tr ps' st' /\ (length ps' = n /\ ended ps') /\
    fs_flocks st' = fs_flocks st0 /\ fs_mutexes st' = fs_mutexes st0.
Proof.
  intros Hps Hi Hlen.
  destruct (pool_completes h
              (fun ps w => exists g, ok_pool ps (w, g) /\ inv (w, g) /\ length ps = n) ps v.1)
    as (tr & ps' & st' & Hrun & Hret & g & Hp' & Hi' & Hlen').
  - intros ps1 w i X e k x w' (g & Hps1 & Hi1 & Hl) Hik He.
    destruct (pool_ok_step _ _ _ _ _ _ step_ok_rely _ _ _ _ _ _ _ _ Hps1 Hik He)
      as (g' & (Hi' & _) & Hps').
    exists g'. split_and!; [done|done|]. by rewrite length_insert.
  - intros ps1 w (g & Hps1 & Hi1 & Hl). exact (pool_live ps1 (w, g) Hps1 Hi1 Hl).
  - exists v.2. by destruct v.
  - exists tr, ps', st'. split; [done|]. split; [done|]. exact (pool_ended ps' (st', g) Hp' Hi' Hlen' Hret).
Qed.
End Pool.
End Threads.
