(* ===== verification/LocalConcurrentProperties.v ===== *)
(** The properties of concurrent operations on the JSON file store, with their
    witnesses. *)
From S2P Require Export LocalConcurrent.

Section Properties.
Context `{Base64Laws, UuidFmtLaws, ChronoLaws, SerdeJsonLaws} (clock : nat -> Z).
Context (p : Path) (ops : list (nat * DiskCall)) (st : FsState) (m : Records).

(** One thread per operation, each through a store at [p] with the mutex of its
    process. *)
Definition threads : list (prog fsE DiskReply) :=
  (fun mc => disk_prog (MkLocalFileStore p mc.1) mc.2) <$> ops.

(** The file holds the records [m] and no lock is held.  The lock file is
    another one than the vault file, so it is never replaced and its lock is that
    of its path. *)
Definition start_ok : Prop :=
  lock_path p <> p /\ (lock_path p ∉ fs_flocks st) /\ file_rep p (fs_tree st) m /\
  Forall (fun mc => (mc.1 ∉ fs_mutexes st) /\ disk_ok representable mc.2) ops.

(** An operation took place: the reading of the clock it went by, and its
    answer.  [disk_step i m l m']: the operation of thread [i] may do so on the
    records [m], and leaves [m']. *)
Definition disk_step (i : nat) (m : Records) (l : Z * DiskReply) (m' : Records) : Prop :=
  exists c, ops.*2 !! i = Some c /\ disk_post l.1 c m l.2 m' /\ (no_faults st -> disk_fine c m l.2).

Abbreviation once := (fun (_ : nat) (ls : list (Z * DiskReply)) => (length ls <= 1)%nat).
Abbreviation recently := (fun t (l : Z * DiskReply) => reading clock st t l.1).
Abbreviation recent_log := (fun t (log : list (nat * (Z * DiskReply))) => Forall (fun x => recently t x.2) log).
Abbreviation V := (FsState * Ghost (Z * DiskReply))%type.
Abbreviation inv := (inv p (length ops) st m disk_step once recent_log recently).
Abbreviation here := (here p (length ops) st m disk_step once recent_log recently).
Abbreviation rely := (rely p (length ops) st m disk_step once recent_log recently).
Abbreviation step_ok := (step_ok p (length ops) st m disk_step once recent_log recently).
Abbreviation waits := (waits p (length ops) st m disk_step once recent_log recently).

(** The operation of [i] took place with the answer [a], and [i] holds no
    lock. *)
Definition finished (i : nat) (a : DiskReply) (v : V) : Prop := exists now, here i false None [(now, a)] v.

Abbreviation ok_pool := (pool_ok (fs_handle clock) rely step_ok waits (fun _ => no_panic) finished).

Lemma recently_mono t t' (l : Z * DiskReply) : (t <= t')%nat -> recently t l -> recently t' l.
Proof. intros Ht. by apply reading_mono. Qed.

Lemma recent_log_mono t t' log : (t <= t')%nat -> recent_log t log -> recent_log t' log.
Proof. intros Ht Hf. eapply Forall_impl; [exact Hf|]. intros x. by apply recently_mono. Qed.

Lemma recent_log_snoc t i l log : recently t l -> recent_log t log -> recent_log t (log ++ [(i, l)]).
Proof. intros Hl Hf. apply Forall_app. split; [done|]. by constructor. Qed.

Lemma finished_reply {A : Type} (g : A -> DiskReply) i (q : prog fsE A) (lab : A -> Z * DiskReply -> Prop) v :
  (forall x l, lab x l -> l.2 = g x) ->
  rg (fs_handle clock) (rely i) (step_ok i) (waits i) no_panic q
    (fun x v' => exists l, lab x l /\ here i false None ([] ++ [l]) v') v ->
  rg (fs_handle clock) (rely i) (step_ok i) (waits i) no_panic (g <$> q) (finished i) v.
Proof.
  intros Hg Hq. apply rg_fmap; [apply _|intros x v1 v2 Hr [now Hh]; exists now; by eapply here_rely|].
  eapply rg_mono; [exact Hq|]. intros x v' ([now a] & Hl & Hh). exists now.
  by rewrite <- (Hg _ _ Hl).
Qed.

Lemma triple_disk i mu c v :
  ops.*2 !! i = Some c -> lock_path p ∉ fs_flocks st -> mu ∉ fs_mutexes st ->
  disk_ok representable c -> here i false None [] v ->
  rg (fs_handle clock) (rely i) (step_ok i) (waits i) no_panic
    (disk_prog (MkLocalFileStore p mu) c) (finished i) v.
Proof.
  intros Hc Hl Hmu Hok Hv. pose proof (lookup_lt_Some _ _ _ Hc) as Hlt. rewrite length_fmap in Hlt.
  set (now := clock (fs_tick st)).
  assert (Hnow : reading clock st (Datatypes.S (fs_tick st)) now).
  { exists (fs_tick st). split; [lia|done]. }
  assert (Hstep : forall now m x m', disk_post now c m x m' -> (no_faults st -> disk_fine c m x) ->
            disk_step i m (now, x) m') by by (intros; exists c).
  destruct c as [id r|id|id|]; cbn [disk_prog disk_ok] in *.
  - eapply finished_reply, (triple_insert clock p _ st m _ _ _ _ recently_mono
      recent_log_mono recent_log_snoc i mu [] Hlt Hl Hmu id r
      (fun x => (now, InsertReply x))); try done; [by intros ? ? ->|]. intros. by apply Hstep.
  - eapply finished_reply, (triple_fetch clock p _ st m _ _ _ _ recently_mono
      recent_log_mono recent_log_snoc i mu [] Hlt Hl Hmu id
      (fun x => (now, FetchReply x))); try done; [by intros ? ? ->|]. intros. by apply Hstep.
  - eapply finished_reply, (triple_delete clock p _ st m _ _ _ _ recently_mono
      recent_log_mono recent_log_snoc i mu [] Hlt Hl Hmu id
      (fun x => (now, RemoveReply x))); try done; [by intros ? ? ->|]. intros. by apply Hstep.
  - eapply finished_reply, (triple_sweep clock p _ st m _ _ _ _ recently_mono
      recent_log_mono recent_log_snoc i mu [] Hlt Hl Hmu
      (fun now x => (now, SweepReply x))); try done; [by intros ? ? [? ->]|]. intros. by apply Hstep.
Qed.

Lemma start_pool : start_ok -> ok_pool threads (st, ghost0 m).
Proof.
  intros (_ & Hl & Hm & Hops).
  assert (Hi : inv (st, ghost0 m)) by (apply start_inv; [done|cbn; lia|constructor]).
  intros i q Hq. unfold threads in Hq. rewrite list_lookup_fmap in Hq.
  destruct (ops !! i) as [[mu c]|] eqn:Hop; [|done]. simplify_eq/=.
  pose proof (Forall_lookup_1 _ _ _ _ Hops Hop) as [Hmu Hc].
  apply triple_disk; [by rewrite list_lookup_fmap, Hop|done..|]. by apply start_here.
Qed.

Lemma finished_free i a v : finished i a v -> free i v.
Proof. intros [now Hh]. by eapply here_free. Qed.

Lemma pool_returned ps g i a st' :
  ok_pool ps (st', g) -> ps !! i = Some (Ret a) -> exists now, (i, (now, a)) ∈ gh_log g.
Proof.
  intros Hp Ha. destruct (pool_ok_ret _ _ _ _ _ _ _ _ _ _ Hp Ha) as [now Hh]. exists now.
  apply elem_of_thread_trace. apply here_log in Hh. cbn in Hh. rewrite Hh. by left.
Qed.

(** What any interleaving reaches. *)
Lemma reaches tr1 ps1 st1 :
  start_ok -> pool_run (fs_handle clock) threads st tr1 ps1 st1 ->
  exists g1, gpath step_ok (st, ghost0 m) tr1.*1 (st1, g1) /\ ok_pool ps1 (st1, g1) /\ inv (st1, g1).
Proof.
  intros Hs Hrun. destruct (pool_ok_run _ _ _ _ _ _ (step_ok_rely _ _ _ _ _ _ _ _) _ _ _ _ _ _ Hrun
    (start_pool Hs)) as (g1 & Hpath & Hp). exists g1. split_and!; [done|done|].
  eapply path_inv; [|exact Hpath]. apply start_inv; [apply Hs|cbn; lia|constructor].
Qed.

(** C12: operations on one vault file are linearizable: however the system calls
    of any number of them, in one process or in several, are interleaved and
    whatever fails, there is one order [log] of operations with their answers,
    each at most once and each meeting its specification, that leads from the
    records [m] of the file to those it holds in the end.  That one order respects
    real time: at every moment of the run, [tr1] being the steps up to it, a
    prefix [log1] of the order has taken place, in which are all operations that
    have returned by then, with the answers they returned, and none that has not
    begun; and the file, unless an operation is just then under its lock, holds
    the records that prefix leads to. *)
Theorem local_ops_linearizable tr ps' st' :
  start_ok -> pool_run (fs_handle clock) threads st tr ps' st' ->
  exists log m',
    serial disk_step m log m' /\
    (forall i, (length (thread_trace i log) <= 1)%nat) /\
    (lock_path p ∉ fs_flocks st' -> file_rep p (fs_tree st') m') /\
    (forall i a, ps' !! i = Some (Ret a) -> exists now, (i, (now, a)) ∈ log) /\
    (forall i, ps' !! i <> Some Panic) /\
    forall tr1 tr2 ps1 st1,
      tr = tr1 ++ tr2 -> pool_run (fs_handle clock) threads st tr1 ps1 st1 ->
      exists log1 log2 m1,
        log = log1 ++ log2 /\ serial disk_step m log1 m1 /\ serial disk_step m1 log2 m' /\
        (lock_path p ∉ fs_flocks st1 -> file_rep p (fs_tree st1) m1) /\
        (forall i a, ps1 !! i = Some (Ret a) -> exists now, (i, (now, a)) ∈ log1) /\
        (forall i l, thread_trace i tr1 = [] -> (i, l) ∉ log1) /\
        (forall i now a, (i, (now, a)) ∈ log1 ->
           exists k, (fs_tick st <= k < fs_tick st1)%nat /\ now = clock k).
Proof.
  intros Hs Hrun. pose proof Hs as (_ & _ & Hm & _).
  assert (Hi0 : inv (st, ghost0 m)) by (apply start_inv; [done|cbn; lia|constructor]).
  destruct (pool_ok_cuts _ _ _ _ _ _ (step_ok_rely _ _ _ _ _ _ _ _) _ _ _ _ _ _ Hrun (start_pool Hs))
    as (g' & Hcut).
  destruct (Hcut tr [] ps' st' ltac:(by rewrite app_nil_r) Hrun) as (g & Hpath & Hp & Hend).
  inversion Hend; subst g'; clear Hend.
  pose proof (path_inv _ _ _ _ _ _ _ _ _ _ _ Hi0 Hpath) as Hi.
  exists (gh_log g), (gh_records g). split_and!.
  - apply Hi.
  - apply Hi.
  - intros Hf. by apply (inv_unlocked _ _ _ _ _ _ _ _ _ Hi).
  - intros i a. by apply (pool_returned _ _ _ _ _ Hp).
  - intros i Hpan. by apply (pool_ok_panic _ _ _ _ _ _ _ _ _ Hp) in Hpan.
  - intros tr1 tr2 ps1 st1 Htr Hrun1. destruct (Hcut tr1 tr2 ps1 st1 Htr Hrun1) as (g1 & Hpath1 & Hp1 & Hpath2).
    pose proof (path_inv _ _ _ _ _ _ _ _ _ _ _ Hi0 Hpath1) as Hi1.
    pose proof Hpath2 as (log2 & Hlog & _ & Hs2)%path_log.
    exists (gh_log g1), log2, (gh_records g1). split_and!; [done|apply Hi1|done| | | |].
    + intros Hf. by apply (inv_unlocked _ _ _ _ _ _ _ _ _ Hi1).
    + intros i a. by apply (pool_returned _ _ _ _ _ Hp1).
    + intros i l Hn. apply (path_unlogged _ _ _ _ _ _ _ _ _ _ _ _ _ Hpath1); [done|].
      intros Hin. by apply (thread_trace_nonempty i tr1) in Hin.
    + intros i now a Hin. apply inv_seen in Hi1. rewrite Forall_forall in Hi1.
      apply (Hi1 (i, (now, a)) Hin).
Qed.

(** Concurrent operations never deadlock, and every one of them can be run
    to its end: from whatever state some interleaving reaches, with whatever
    failures, the threads can go on until all have returned; then every lock is
    free again. *)
Theorem local_ops_complete tr1 ps1 st1 :
  start_ok ->
  pool_run (fs_handle clock) threads st tr1 ps1 st1 ->
  exists tr2 ps2 st2, pool_run (fs_handle clock) ps1 st1 tr2 ps2 st2 /\
    (length ps2 = length ops /\ Forall (fun q => exists a, q = Ret a) ps2) /\
    fs_flocks st2 = fs_flocks st /\ fs_mutexes st2 = fs_mutexes st.
Proof.
  intros Hs Hrun1. destruct (reaches _ _ _ Hs Hrun1) as (g1 & Hpath1 & Hp1 & Hi1).
  pose proof (pool_run_length _ _ _ _ _ _ Hrun1) as Hlen.
  unfold threads in Hlen. rewrite length_fmap in Hlen.
  destruct (pool_can_end _ _ _ _ _ _ _ _ (fs_handle clock) finished (fun _ => no_panic) finished_free
              ltac:(by intros ? ? []) ps1 (st1, g1) Hp1 Hi1 Hlen)
    as (tr2 & ps2 & st2 & Hrun2 & [Hlen2 Hend] & Hfree).
  exists tr2, ps2, st2. split; [done|]. split; [|done]. split; [done|].
  destruct (pool_ok_run _ _ _ _ _ _ (step_ok_rely _ _ _ _ _ _ _ _) _ _ _ _ _ _ Hrun2 Hp1)
    as (g2 & _ & Hp2).
  apply Forall_lookup. intros i q Hq. destruct (Forall_lookup_1 _ _ _ _ Hend Hq) as [->|?]; [|done].
  by apply (pool_ok_panic _ _ _ _ _ _ _ _ _ Hp2) in Hq.
Qed.
End Properties.

(** ** Witnesses *)

Module LocalThreads.
Import LocalSample.

(** A process stores a record while another one deletes it. *)
Definition pair : list (nat * DiskCall) :=
  [(0%nat, DInsert Sample.id1 record); (1%nat, DDelete Sample.id1)].
Definition schedule : list nat := [0; 1; 0; 1; 0; 1; 0; 1]%nat ++ replicate 20 0%nat ++ replicate 20 1%nat.
Definition pair_end : list (prog fsE DiskReply) * FsState :=
  exec (fs_handle clock) schedule (threads path pair, opened).
End LocalThreads.

Section Witnesses.
Import LocalSample LocalThreads.

Lemma pair_start : start_ok path pair opened ∅.
Proof.
  split; [by intros H'; vm_compute in H'|]. split; [apply opened_unlocked|]. split; [apply opened_rep|].
  assert (fs_mutexes opened = ∅) as -> by by vm_compute.
  repeat constructor; try apply not_elem_of_empty; try apply record_ok.
Defined.

Lemma local_ops_linearizable_witness :
  start_ok path pair opened ∅ /\
  exists log m', serial (disk_step pair opened) ∅ log m' /\
    (forall i a, pair_end.1 !! i = Some (Ret a) -> exists now, (i, (now, a)) ∈ log) /\
    exists log1 log2, log = log1 ++ log2 /\
      exists now, (0%nat, (now, InsertReply (Ok tt))) ∈ log1.
Proof.
  split; [apply pair_start|].
  destruct (exec_cut (fs_handle clock) (take 28 schedule) (drop 28 schedule) (threads path pair) opened)
    as (tr1 & tr2 & Hrun1 & Hrun).
  rewrite take_drop in Hrun.
  destruct (local_ops_linearizable clock path pair opened ∅ (tr1 ++ tr2)
              pair_end.1 pair_end.2 pair_start Hrun)
    as (log & m' & Hs & _ & _ & Hr & _ & Hcut).
  exists log, m'. split; [exact Hs|]. split; [exact Hr|].
  destruct (Hcut tr1 tr2 _ _ eq_refl Hrun1) as (log1 & log2 & m1 & Hl & _ & _ & _ & Hr1 & _).
  exists log1, log2. split; [exact Hl|]. apply Hr1. by vm_compute.
Defined.

Lemma local_ops_complete_witness :
  start_ok path pair opened ∅ /\
  exists tr ps st, pool_run (fs_handle clock) (threads path pair) opened tr ps st /\
    (length ps = 2%nat /\ Forall (fun q => exists a, q = Ret a) ps) /\ fs_flocks st = fs_flocks opened /\
    fs_mutexes st = fs_mutexes opened.
Proof.
  split; [apply pair_start|].
  exact (local_ops_complete clock path pair opened ∅ [] (threads path pair) opened pair_start
           (pool_nil _ _ _)).
Defined.

(** A vault file whose name ends in [.lock] would be its own lock file. *)
Example lock_file_own_name : lock_path ["vault.lock"; "data"] = ["vault.lock"; "data"].
Proof. reflexivity. Qed.

(** In that schedule the deletion finds the record. *)
Example pair_answers :
  pair_end.1 = [Ret (InsertReply (Ok tt)); Ret (RemoveReply (Ok true))].
Proof. by vm_compute. Qed.
End Witnesses.
