(* ===== verification/VaultOnFile.v ===== *)
(** The vault over the JSON file store, interleaved at every system call: calls of
    one process or of several, each step one effect of src/storage/local_file.rs
    or of the environment. *)
From S2P Require Export Concurrent LocalConcurrent.

(** ** Effects of the whole system *)

(** The file system, and what the vault asks of its environment. *)
Inductive sysE : Type -> Type :=
| OnFs {X : Type} (e : fsE X) : sysE X
| SysNow : sysE Z
| SysKey : sysE (array 32)
| SysNonce : sysE (array 12)
| SysUuid : sysE RecordId
| SysLog (l : LogLine) : sysE unit.

(** One count of effects serves the file system and the environment; nothing
    reads the log. *)
Definition sys_handle (env : Env) : handler sysE FsState := fun X e st =>
  let n := fs_tick st in
  let st' := fs_set st (fs_tree st) in
  match e in sysE X return option (X * FsState) with
  | OnFs e => fs_handle (env_clock env) _ e st
  | SysNow => Some (env_clock env n, st')
  | SysKey => Some (env_key env n, st')
  | SysNonce => Some (env_nonce env n, st')
  | SysUuid => Some (env_uuid env n, st')
  | SysLog _ => Some (tt, st')
  end.

(** Every storage call of the vault is an operation of the file store. *)
Section OnFile.
Context `{Base64, UuidFmt, Chrono, SerdeJson}.

Definition vault_effect (s : LocalFileStore) {X} (e : vaultE X) : prog sysE X :=
  match e in vaultE X return prog sysE X with
  | UtcNow => trigger SysNow
  | GenerateKey => trigger SysKey
  | GenerateNonce => trigger SysNonce
  | NewV4 => trigger SysUuid
  | StInsert id r => translate (@OnFs) (local_insert s id r)
  | StFetch id => translate (@OnFs) (local_fetch s id)
  | StDelete id => translate (@OnFs) (local_delete s id)
  | StDeleteExpired => translate (@OnFs) (local_delete_expired s)
  | Log l => trigger (SysLog l)
  end.

(** [StandardVault::new(store)]: a method of the vault over the file store. *)
Fixpoint on_file (s : LocalFileStore) {A} (p : prog vaultE A) : prog sysE A :=
  match p with
  | Ret a => Ret a
  | Panic => Panic
  | Vis e k => vault_effect s e ≫= fun x => on_file s (k x)
  end.
End OnFile.

(** ** Calls as threads *)

Section Calls.
Context `{Base64Laws, UuidFmtLaws, AesGcmLaws, ChronoLaws, SerdeJsonLaws} (env : Env).
Context (p : Path) (calls : list (nat * Request)) (st : FsState) (m : Records).
Context (clock_ok : forall n, representable (env_clock env n)).

(** One thread per call, on the vault of the process with that mutex. *)
Definition vault_threads : list (prog sysE Reply) :=
  (fun mq => on_file (MkLocalFileStore p mq.1) (call_prog mq.2)) <$> calls.

(** The file holds the records [m], no lock is held. *)
Definition vault_start : Prop :=
  lock_path p <> p /\ (lock_path p ∉ fs_flocks st) /\ file_rep p (fs_tree st) m /\
  Forall (fun mq => mq.1 ∉ fs_mutexes st) calls.

(** What an event of a call does to the records; without failures in the system
    every storage operation succeeds. *)
Definition vault_fine (m : Records) (ev : event vaultE) : Prop :=
  match ev with
  | Ev e x =>
      match e in vaultE X return X -> Prop with
      | StInsert _ _ => fun x => is_ok x = true
      | StFetch id => fun x => x = ok_or (m !! id) NotFound
      | StDelete _ => fun x => is_ok x = true
      | StDeleteExpired => fun x => is_ok x = true
      | _ => fun _ => True
      end x
  end.

Abbreviation clocks := (env_clocks env).

Definition file_step (_ : nat) (m : Records) (ev : event vaultE) (m' : Records) : Prop :=
  vault_step clocks m ev m' /\ (no_faults st -> vault_fine m ev).

(** The events of a thread are those of its call. *)
Definition of_call (i : nat) (ls : list (event vaultE)) : Prop :=
  match calls !! i with
  | Some mq => exists p', leads (call_prog mq.2) ls p'
  | None => ls = []
  end.

(** An event that is an answer of the environment, and the answer it gives at
    the effect number [k]. *)
Definition asks (ev : event vaultE) : bool :=
  match ev with
  | Ev e _ => match e with UtcNow | GenerateKey | GenerateNonce | NewV4 => true | _ => false end
  end.

Definition drawn_at (k : nat) (ev : event vaultE) : Prop :=
  match ev with
  | Ev e x =>
      match e in vaultE X return X -> Prop with
      | UtcNow => fun x => x = env_clock env k
      | GenerateKey => fun x => x = env_key env k
      | GenerateNonce => fun x => x = env_nonce env k
      | NewV4 => fun x => x = env_uuid env k
      | _ => fun _ => True
      end x
  end.

Abbreviation events := (list (nat * event vaultE)).

Definition draws (h : events) : list (event vaultE) := filter (fun ev => asks ev = true) h.*2.

(** The answers in a log were given by different effects, from the start on and
    before the effect number [t]. *)
Definition seen (t : nat) (h : events) : Prop :=
  exists ks, Forall2 drawn_at ks (draws h) /\ NoDup ks /\ Forall (fun k => fs_tick st <= k < t)%nat ks.

Definition unasked (_ : nat) (ev : event vaultE) : Prop := asks ev = false.

Lemma seen_nil t : seen t [].
Proof. exists []. split_and!; constructor. Qed.

Lemma seen_mono t t' h : (t <= t')%nat -> seen t h -> seen t' h.
Proof.
  intros Ht (ks & Hd & Hn & Hk). exists ks. split_and!; [done..|]. eapply Forall_impl; [exact Hk|].
  cbn. lia.
Qed.

Lemma draws_app h1 h2 : draws (h1 ++ h2) = draws h1 ++ draws h2.
Proof. unfold draws. by rewrite fmap_app, filter_app. Qed.

Lemma seen_unasked t i ev h : unasked t ev -> seen t h -> seen t (h ++ [(i, ev)]).
Proof.
  intros Hu (ks & Hd & ?). exists ks. split; [|done]. rewrite draws_app. unfold draws at 2.
  rewrite fmap_cons, filter_cons_False, app_nil_r; [done|]. unfold unasked in Hu. cbn. by rewrite Hu.
Qed.

Lemma seen_asked t i ev h :
  asks ev = true -> drawn_at t ev -> (fs_tick st <= t)%nat -> seen t h -> seen (S t) (h ++ [(i, ev)]).
Proof.
  intros Ha Hd Ht (ks & Hds & Hn & Hk). exists (ks ++ [t]). split_and!.
  - rewrite draws_app. apply Forall2_app; [done|]. unfold draws.
    rewrite fmap_cons, filter_cons_True by done. by repeat constructor.
  - apply NoDup_app. split_and!; [done| |apply NoDup_singleton].
    intros k Hin%(proj1 (Forall_forall _ _) Hk) ->%list_elem_of_singleton. cbn in Hin. lia.
  - apply Forall_app. split; [|by repeat constructor]. eapply Forall_impl; [exact Hk|]. cbn. lia.
Qed.

(** What the environment answered, it answered at one of the effects so far. *)
Definition drawn (t : nat) (ev : event vaultE) : Prop :=
  match ev with
  | Ev e x =>
      match e in vaultE X return X -> Prop with
      | UtcNow => fun x => reading (env_clock env) st t x
      | NewV4 => fun x => exists k, (fs_tick st <= k < t)%nat /\ x = env_uuid env k
      | _ => fun _ => True
      end x
  end.

Lemma seen_drawn t h i ev : seen t h -> (i, ev) ∈ h -> drawn t ev.
Proof.
  intros (ks & Hd & _ & Hk) Hin. destruct (asks ev) eqn:Ha.
  - assert (ev ∈ draws h) as Hev.
    { apply list_elem_of_filter. split; [done|]. apply list_elem_of_fmap. by exists (i, ev). }
    apply list_elem_of_lookup in Hev as [j Hj].
    destruct (Forall2_lookup_r _ _ _ _ _ Hd Hj) as (k & Hkj & Hdk).
    pose proof (Forall_lookup_1 _ _ _ _ Hk Hkj) as Hb.
    destruct ev as [X e x]. destruct e; try done; by exists k.
  - destruct ev as [X e x]. by destruct e.
Qed.

Abbreviation V := (FsState * Ghost (event vaultE))%type.
Abbreviation inv := (inv p (length calls) st m file_step of_call seen unasked).
Abbreviation here := (here p (length calls) st m file_step of_call seen unasked).
Abbreviation rely := (rely p (length calls) st m file_step of_call seen unasked).
Abbreviation step_ok := (step_ok p (length calls) st m file_step of_call seen unasked).
Abbreviation waits := (waits p (length calls) st m file_step of_call seen unasked).
Implicit Types (v : V).

(** Thread [i] has come to [q] along its events, and holds no lock. *)
Definition at_prog (i : nat) (q : prog vaultE Reply) (v : V) : Prop :=
  exists mq ls, calls !! i = Some mq /\ here i false None ls v /\ leads (call_prog mq.2) ls q.

Definition answered (i : nat) (a : Reply) : V -> Prop := at_prog i (Ret a).
Definition died (i : nat) : V -> Prop := at_prog i Panic.

Abbreviation triple i D := (rg (sys_handle env) (rely i) (step_ok i) (waits i) D).

Lemma at_prog_rely i q v v' : rely i v v' -> at_prog i q v -> at_prog i q v'.
Proof.
  intros Hr (mq & ls & Hi & Hh & Hl). exists mq, ls. split; [done|]. split; [|done].
  by eapply here_rely.
Qed.

Lemma at_prog_free i q v : at_prog i q v -> free i v.
Proof. intros (mq & ls & _ & Hh & _). by eapply here_free. Qed.

Lemma of_call_next i mq ls {X} (e : vaultE X) k x :
  calls !! i = Some mq -> leads (call_prog mq.2) ls (Vis e k) -> of_call i (ls ++ [Ev e x]).
Proof. intros Hi Hl. unfold of_call. rewrite Hi. exists (k x). by apply leads_snoc. Qed.

(** The environment's answer that thread [i] took last is one it gave. *)
Lemma last_drawn i ls ev v : here i false None (ls ++ [ev]) v -> drawn (fs_tick v.1) ev.
Proof.
  intros Hh. apply (seen_drawn _ (gh_log v.2) i); [by eapply inv_seen, here_inv|].
  apply elem_of_thread_trace. rewrite (here_log _ _ _ _ _ _ _ _ _ _ _ _ _ Hh).
  apply elem_of_app. right. by left.
Qed.

Lemma drawn_fair t {X} (e : vaultE X) x :
  drawn t (Ev e x) -> fair_answer clocks (fun _ => False) X e x.
Proof. destruct e; try done; cbn; [|tauto]. intros (k & _ & ->). by exists k. Qed.

(** *** One effect of a call *)

Section Effect.
Context (i mu : nat) (q : Request) (ls : list (event vaultE)).
Context (Hi : calls !! i = Some (mu, q)).
Context (Hl : lock_path p ∉ fs_flocks st) (Hmu : mu ∉ fs_mutexes st).

Lemma effect_thread : (i < length calls)%nat.
Proof. by eapply lookup_lt_Some. Qed.

(** The environment answers. *)
Lemma triple_env {X} (e : vaultE X) (f : sysE X) D v :
  (forall st', exists x, sys_handle env X f st' = Some (x, fs_set st' (fs_tree st')) /\
     ((fs_tick st <= fs_tick st')%nat ->
      forall h, seen (fs_tick st') h -> seen (S (fs_tick st')) (h ++ [(i, Ev e x)]))) ->
  (forall m x, file_step i m (Ev e x) m) ->
  (forall x, of_call i (ls ++ [Ev e x])) ->
  here i false None ls v ->
  triple i D (trigger f) (fun x => here i false None (ls ++ [Ev e x])) v.
Proof.
  intros Hf Hs Ha Hv. apply rg_trigger; [intros x v1 v2; apply here_rely|].
  intros v' Hr. apply (here_rely _ _ _ _ _ _ _ _ _ _ _ _ _ _ Hr) in Hv.
  destruct (Hf v'.1) as (x & -> & Hd). eexists.
  apply (note_step p (length calls) st m file_step of_call seen unasked (fun _ _ _ _ Hu => Hu));
    [done|done| |done].
  apply Hd. eapply inv_tick, here_inv, Hv.
Qed.

(** The file store answers. *)
Lemma triple_file {X} (e : vaultE X) (o : prog fsE X) (lab : X -> event vaultE -> Prop) D v :
  (forall x l, lab x l -> l = Ev e x) ->
  rg (fs_handle (env_clock env)) (rely i) (step_ok i) (waits i) no_panic o
    (fun x v' => exists l, lab x l /\ here i false None (ls ++ [l]) v') v ->
  triple i D (translate (@OnFs) o) (fun x => here i false None (ls ++ [Ev e x])) v.
Proof.
  intros Hlab Ho. apply rg_translate with (h := fs_handle (env_clock env)); [done|].
  apply rg_panics with (D := no_panic); [by intros ? []|]. eapply rg_mono; [exact Ho|].
  intros x v' (l & Hx & Hh). by rewrite (Hlab _ _ Hx) in Hh.
Qed.

Lemma triple_effect {X} (e : vaultE X) D v :
  (forall x, of_call i (ls ++ [Ev e x])) -> spares_id representable (fun _ => False) X e ->
  here i false None ls v ->
  triple i D (vault_effect (MkLocalFileStore p mu) e)
    (fun x => here i false None (ls ++ [Ev e x])) v.
Proof.
  intros Ha Hs Hv. pose proof effect_thread as Hlt.
  destruct e as [| | | |id r|id|id| |l]; cbn [vault_effect].
  1-4: apply triple_env; [|done|done|done]; intros st'; eexists; (split; [reflexivity|]);
    intros Ht h; by apply seen_asked.
  - eapply triple_file; [|eapply (triple_insert (env_clock env) p _ st m file_step of_call seen unasked
      (fun _ _ _ _ Hu => Hu) seen_mono seen_unasked i mu ls Hlt Hl Hmu id r (Ev (StInsert id r)))]; try done. apply Hs.
  - eapply triple_file; [|eapply (triple_fetch (env_clock env) p _ st m file_step of_call seen unasked
      (fun _ _ _ _ Hu => Hu) seen_mono seen_unasked i mu ls Hlt Hl Hmu id (Ev (StFetch id)))]; done.
  - eapply triple_file; [|eapply (triple_delete (env_clock env) p _ st m file_step of_call seen unasked
      (fun _ _ _ _ Hu => Hu) seen_mono seen_unasked i mu ls Hlt Hl Hmu id (Ev (StDelete id)))]; done.
  - eapply triple_file; [|eapply (triple_sweep (env_clock env) p _ st m file_step of_call seen unasked
      (fun _ _ _ _ Hu => Hu) seen_mono seen_unasked i mu ls Hlt Hl Hmu (fun _ => Ev StDeleteExpired))]; try done.
    + by intros ? ? [_ ->].
    + intros t now m1 x m2 (k & _ & ->) Hp Hf. split; [|exact Hf]. cbn. exists (env_clock env k).
      split; [by exists k|done].
  - apply triple_env; [|done|done|done]. intros st'. eexists. split; [reflexivity|].
    intros _ h Hh. apply seen_unasked; [done|]. eapply seen_mono; [|exact Hh]. lia.
Qed.
End Effect.

(** *** A call *)

Lemma triple_call i mu q ls r v :
  calls !! i = Some (mu, q) -> lock_path p ∉ fs_flocks st -> mu ∉ fs_mutexes st ->
  disciplined clocks representable (fun _ => False) r -> leads (call_prog q) ls r ->
  here i false None ls v ->
  triple i (died i) (on_file (MkLocalFileStore p mu) r) (answered i) v.
Proof.
  intros Hi Hl Hmu. revert ls v. induction r as [a| |X e k IH]; intros ls v Hd Hq Hv.
  - intros v' Hr. apply (at_prog_rely i _ v v' Hr). by exists (mu, q), ls.
  - intros v' Hr. apply (at_prog_rely i _ v v' Hr). by exists (mu, q), ls.
  - destruct Hd as [He Hk]. cbn [on_file]. apply rg_bind; [apply _|].
    eapply rg_mono; [apply (triple_effect i mu q ls Hi Hl Hmu e); [|exact He|exact Hv]|].
    + intros x. by apply (of_call_next i (mu, q) ls e k x Hi).
    + cbn beta. intros x v1 Hv1. apply IH with (ls ++ [Ev e x]); [|by apply leads_snoc|done].
      apply Hk. eapply drawn_fair, last_drawn. exact Hv1.
Qed.

Lemma clocks_representable t : clocks t -> representable t.
Proof. intros [k ->]. apply clock_ok. Qed.

Lemma call_prog_disciplined avoid q : disciplined clocks representable avoid (call_prog q).
Proof.
  apply call_disciplined; [apply clocks_representable|]. destruct q as [pr e|tok|tok|]; try done.
  cbn. intros now t Hnow%clocks_representable He. unfold expiry_instant in He.
  destruct e as [s|]; [|done]. destruct (duration_seconds s) as [d|]; cbn in He; [|done].
  rewrite (datetime_add_spec now d Hnow) in He. case_match eqn:Hb; cbn in He; [|done].
  apply andb_prop in Hb as [?%Z.leb_le ?%Z.leb_le]. simplify_eq. done.
Qed.

(** ** All calls together *)

Abbreviation ok_pool := (pool_ok (sys_handle env) rely step_ok waits died answered).
Abbreviation path_of := (gpath step_ok).

Lemma no_events i : of_call i [].
Proof. unfold of_call. destruct (calls !! i) as [mq|]; [|done]. by exists (call_prog mq.2). Qed.

Lemma vault_start_inv : vault_start -> inv (st, ghost0 m).
Proof. intros (_ & _ & Hm & _). apply start_inv; [done|apply no_events|apply seen_nil]. Qed.

Lemma vault_start_pool : vault_start -> ok_pool vault_threads (st, ghost0 m).
Proof.
  intros Hs. pose proof (vault_start_inv Hs) as Hinv. destruct Hs as (_ & Hl & _ & Hc).
  intros i r Hr. unfold vault_threads in Hr. rewrite list_lookup_fmap in Hr.
  destruct (calls !! i) as [[mu q]|] eqn:Hi; [|done]. simplify_eq/=.
  apply triple_call with q []; [done|done|by apply (Forall_lookup_1 _ _ _ _ Hc Hi)| |done|].
  - apply call_prog_disciplined.
  - by apply start_here.
Qed.

(** What any interleaving reaches, and one that goes on from there. *)
Lemma vault_reaches tr ps st' :
  vault_start -> pool_run (sys_handle env) vault_threads st tr ps st' ->
  exists g, path_of (st, ghost0 m) tr.*1 (st', g) /\ ok_pool ps (st', g) /\ inv (st', g).
Proof.
  intros Hs Hrun.
  destruct (pool_ok_run _ _ _ _ _ _ (step_ok_rely _ _ _ _ _ _ _ _) _ _ _ _ _ _ Hrun (vault_start_pool Hs))
    as (g & Hpath & Hp). exists g. split; [done|]. split; [done|].
  eapply path_inv; [|exact Hpath]. by apply vault_start_inv.
Qed.

Lemma vault_cuts tr ps st' :
  vault_start -> pool_run (sys_handle env) vault_threads st tr ps st' ->
  exists g, ok_pool ps (st', g) /\ inv (st', g) /\
    forall tr1 tr2 ps1 st1, tr = tr1 ++ tr2 ->
      pool_run (sys_handle env) vault_threads st tr1 ps1 st1 ->
      exists g1 h, gh_log g = gh_log g1 ++ h /\ ok_pool ps1 (st1, g1) /\ inv (st1, g1) /\
        serial file_step (gh_records g1) h (gh_records g) /\
        (forall i, thread_trace i tr1 = [] -> thread_trace i (gh_log g1) = []).
Proof.
  intros Hs Hrun. pose proof (vault_start_inv Hs) as Hi0.
  destruct (pool_ok_cuts _ _ _ _ _ _ (step_ok_rely _ _ _ _ _ _ _ _) _ _ _ _ _ _ Hrun (vault_start_pool Hs))
    as (g' & Hcut).
  destruct (Hcut tr [] ps st' ltac:(by rewrite app_nil_r) Hrun) as (g & Hpath & Hp & Hend).
  inversion Hend; subst g'; clear Hend.
  exists g. split; [done|]. split; [exact (path_inv _ _ _ _ _ _ _ _ _ _ _ Hi0 Hpath)|].
  intros tr1 tr2 ps1 st1 Htr Hrun1.
  destruct (Hcut tr1 tr2 ps1 st1 Htr Hrun1) as (g1 & Hpath1 & Hp1 & Hpath2).
  pose proof Hpath2 as (h & Hlog & _ & Hs2)%path_log.
  exists g1, h. split; [done|]. split; [done|].
  split; [exact (path_inv _ _ _ _ _ _ _ _ _ _ _ Hi0 Hpath1)|]. split; [done|].
  intros i Hn. destruct (thread_trace i (gh_log g1)) as [|ev l] eqn:Hev; [done|]. exfalso.
  eapply (path_unlogged _ _ _ _ _ _ _ _ _ _ _ i ev Hpath1); [done| |].
  - intros Hin. by apply (thread_trace_nonempty i tr1) in Hin.
  - cbn. apply elem_of_thread_trace. rewrite Hev. by left.
Qed.

Lemma vault_phases tr1 ps1 st1 tr2 ps2 st2 :
  vault_start -> pool_run (sys_handle env) vault_threads st tr1 ps1 st1 ->
  pool_run (sys_handle env) ps1 st1 tr2 ps2 st2 ->
  exists g1 g2 h m1, gh_log g2 = gh_log g1 ++ h /\
    (ok_pool ps1 (st1, g1) /\ ok_pool ps2 (st2, g2) /\ inv (st2, g2)) /\
    (serial file_step m (gh_log g1) m1 /\ serial file_step m1 h (gh_records g2)) /\
    (forall i, thread_trace i tr1 = [] -> thread_trace i (gh_log g1) = []).
Proof.
  intros Hs Hrun1 Hrun2.
  destruct (vault_cuts _ _ _ Hs (pool_run_app _ _ _ _ _ _ _ _ _ Hrun1 Hrun2)) as (g2 & Hp2 & Hi2 & Hcut).
  destruct (Hcut tr1 tr2 ps1 st1 eq_refl Hrun1) as (g1 & h & Hlog & Hp1 & Hi1 & Hs2 & Hnot).
  exists g1, g2, h, (gh_records g1). split_and!; try done. apply Hi1.
Qed.

(** A thread that has ended completed along its events. *)
Lemma ended_at i r v : at_prog i r v -> exists mq, calls !! i = Some mq /\
  leads (call_prog mq.2) (thread_trace i (gh_log v.2)) r.
Proof.
  intros (mq & ls & Hi & Hh & Hl). exists mq. split; [done|].
  by rewrite (here_log _ _ _ _ _ _ _ _ _ _ _ _ _ Hh).
Qed.

Lemma returned_at ps i a v : ok_pool ps v -> ps !! i = Some (Ret a) ->
  exists mq, calls !! i = Some mq /\ completes (call_prog mq.2) (thread_trace i (gh_log v.2)) a.
Proof.
  intros Hp Hi. setoid_rewrite completes_leads. apply ended_at.
  exact (pool_ok_ret _ _ _ _ _ _ _ _ _ _ Hp Hi).
Qed.

Lemma panicked_at ps i v : ok_pool ps v -> ps !! i = Some Panic ->
  exists mq, calls !! i = Some mq /\ leads (call_prog mq.2) (thread_trace i (gh_log v.2)) Panic.
Proof. intros Hp Hi. apply ended_at. exact (pool_ok_panic _ _ _ _ _ _ _ _ _ Hp Hi). Qed.

(** The events of calls: a log of what threads of these calls may do, with what
    the environment answered up to the effect number [t]. *)
Definition events_of_calls (t : nat) (h : events) : Prop :=
  (forall i, of_call i (thread_trace i h)) /\ seen t h.

Lemma inv_events v : inv v -> events_of_calls (fs_tick v.1) (gh_log v.2).
Proof. intros Hi. split; apply Hi. Qed.

(** What the environment answered is fair. *)
Lemma events_fair (avoid : RecordId -> Prop) t h i :
  events_of_calls t h -> (forall k, (fs_tick st <= k < t)%nat -> ~ avoid (env_uuid env k)) ->
  Forall (fun ev : event vaultE => match ev with Ev e x => fair_answer clocks avoid _ e x end)
    (thread_trace i h).
Proof.
  intros [_ Hs] Hf. apply Forall_forall. intros [X e x] Hx%elem_of_thread_trace.
  pose proof (seen_drawn _ _ _ _ Hs Hx) as Hd.
  destruct e; try done; cbn in *; destruct Hd as (k & Hk & ->); [by exists k|].
  by apply Hf.
Qed.

(** An event is one of a call. *)
Lemma event_call t h j ev :
  events_of_calls t h -> (j, ev) ∈ h ->
  exists mq r, calls !! j = Some mq /\ leads (call_prog mq.2) (thread_trace j h) r /\
    ev ∈ thread_trace j h.
Proof.
  intros [Ha _] Hin%elem_of_thread_trace. specialize (Ha j). unfold of_call in Ha.
  destruct (calls !! j) as [mq|]; [destruct Ha as [r Hl]; by exists mq, r|].
  rewrite Ha in Hin. by apply elem_of_nil in Hin.
Qed.

(** No event writes a record under an id the environment does not draw. *)
Lemma events_spare id t h :
  events_of_calls t h -> (forall k, (fs_tick st <= k < t)%nat -> env_uuid env k <> id) ->
  Forall (spares_event representable (eq id)) h.*2.
Proof.
  intros He Hf. apply Forall_fmap, Forall_forall. intros [j ev] Hin. cbn.
  destruct (event_call _ _ _ _ He Hin) as (mq & r & _ & Hl & Hev).
  destruct (leads_within _ _ _ _ _ (call_prog_disciplined (eq id) mq.2)
              (events_fair (eq id) t h j He ltac:(intros k Hk Hu; by apply (Hf k Hk))) Hl) as [Hsp _].
  rewrite Forall_forall in Hsp. apply (Hsp ev Hev).
Qed.

(** A call that panicked was to store a proof with a lifetime out of range. *)
Lemma panicked_store ps i v : ok_pool ps v -> inv v -> ps !! i = Some Panic ->
  exists mq, calls !! i = Some mq /\ out_of_range clocks mq.2.
Proof.
  intros Hp Hi Hpi. destruct (panicked_at ps i v Hp Hpi) as (mq & Hmq & Hl). exists mq. split; [done|].
  eapply leads_panic; [apply (call_panics _ (fun _ => False))| |exact Hl].
  eapply events_fair; [by apply inv_events|intros ? _ []].
Qed.

Lemma serial_history log m1 m2 : serial file_step m1 log m2 -> history clocks m1 log m2.
Proof.
  revert m1. induction log as [|[i ev] log IH]; intros m1; cbn; [done|].
  intros (m3 & [Hs _] & Hl). exists m3. auto.
Qed.
End Calls.
