(* ===== verification/VaultOnFileProperties.v ===== *)
(** The properties of concurrent vault calls over the JSON file store, with their
    witnesses. *)
From S2P Require Export VaultOnFile LocalConcurrentProperties.

Section Properties.
Context `{Base64Laws, UuidFmtLaws, AesGcmLaws, ChronoLaws, SerdeJsonLaws} (env : Env).
Context (p : Path) (calls : list (nat * Request)) (st : FsState) (m : Records).
Context (clock_ok : forall n, representable (env_clock env n)).

Abbreviation running_from := (pool_run (sys_handle env)).

(** C2: concurrent vault calls over one vault file, from one process or several,
    interleaved at every system call and under any failures, behave as calls on
    the abstract records interleaved at storage operations: the storage
    operations and answers of the environment form one history [h], each
    operation meeting its contract, along which every call that returned did so
    and which leads to the records the vault file holds.  It respects real time:
    at every moment of the run, [tr1] being the system calls up to it, a prefix
    [h1] of the history has taken place; every call that has returned by then did
    so along its events of [h1], a call that has not begun has none there, and the
    vault file, when no one is writing it, holds the records [h1] leads to. *)
Theorem vault_on_file_linearizable tr ps' st' :
  vault_start p calls st m -> running_from (vault_threads p calls) st tr ps' st' ->
  exists h m',
    serial (file_step env st) m h m' /\
    (lock_path p ∉ fs_flocks st' -> file_rep p (fs_tree st') m') /\
    (forall i a, ps' !! i = Some (Ret a) -> exists mq, calls !! i = Some mq /\
       completes (call_prog mq.2) (thread_trace i h) a) /\
    (forall i, ps' !! i = Some Panic -> exists mq, calls !! i = Some mq /\
       leads (call_prog mq.2) (thread_trace i h) Panic) /\
    forall tr1 tr2 ps1 st1,
      tr = tr1 ++ tr2 -> running_from (vault_threads p calls) st tr1 ps1 st1 ->
      exists h1 h2 m1,
        h = h1 ++ h2 /\ serial (file_step env st) m h1 m1 /\ serial (file_step env st) m1 h2 m' /\
        (lock_path p ∉ fs_flocks st1 -> file_rep p (fs_tree st1) m1) /\
        (forall i a, ps1 !! i = Some (Ret a) -> exists mq, calls !! i = Some mq /\
           completes (call_prog mq.2) (thread_trace i h1) a) /\
        (forall i, thread_trace i tr1 = [] -> thread_trace i h1 = []).
Proof.
  intros Hs Hrun. destruct (vault_cuts env p calls st m clock_ok _ _ _ Hs Hrun) as (g & Hp & Hi & Hcut).
  exists (gh_log g), (gh_records g). split_and!.
  - apply Hi.
  - apply (inv_unlocked _ _ _ _ _ _ _ _ _ Hi).
  - intros i a. by apply (returned_at _ _ _ _ _ _ _ _ _ Hp).
  - intros i. by apply (panicked_at _ _ _ _ _ _ _ _ Hp).
  - intros tr1 tr2 ps1 st1 Htr Hrun1.
    destruct (Hcut tr1 tr2 ps1 st1 Htr Hrun1) as (g1 & log2 & Hlog & Hp1 & Hi1 & Hs2 & Hnot).
    exists (gh_log g1), log2, (gh_records g1). split_and!; [done|apply Hi1|done| | |done].
    + apply (inv_unlocked _ _ _ _ _ _ _ _ _ Hi1).
    + intros i a. by apply (returned_at _ _ _ _ _ _ _ _ _ Hp1).
Qed.

(** C7: once a call on a record has returned successfully, whatever process made
    it, no call on that record succeeds that had not begun by then, even with the
    system calls of other calls in between and under any failures. *)
Theorem late_calls_fail_on_file tr1 ps1 st1 tr2 ps2 st2 id i j c1 c2 a1 a2 :
  vault_start p calls st m -> fresh_from env (fs_tick st) id ->
  running_from (vault_threads p calls) st tr1 ps1 st1 -> running_from ps1 st1 tr2 ps2 st2 ->
  calls !! i = Some c1 -> names c1.2 id = true -> ps1 !! i = Some (Ret a1) -> succeeded a1 = true ->
  thread_trace j tr1 = [] ->
  calls !! j = Some c2 -> names c2.2 id = true -> ps2 !! j = Some (Ret a2) ->
  succeeded a2 = false.
Proof.
  intros Hs Hf Hrun1 Hrun2 Hi Hn1 Ha1 Hok Hnone Hj Hn2 Ha2.
  destruct (vault_phases env p calls st m clock_ok _ _ _ _ _ _ Hs Hrun1 Hrun2)
    as (g1 & g2 & h & m1 & Hlog & (Hp1 & Hp2 & Hi2) & [Hs1 Hs2] & Hnot).
  apply serial_history in Hs1, Hs2.
  destruct (returned_at _ _ _ _ _ _ _ _ _ Hp1 Ha1) as (mq1 & Hmq1 & Hc1).
  destruct (returned_at _ _ _ _ _ _ _ _ _ Hp2 Ha2) as (mq2 & Hmq2 & Hc2). simplify_eq.
  cbn in Hc1, Hc2. rewrite Hlog, thread_trace_app, (Hnot j Hnone) in Hc2.
  pose proof (events_spare env calls st clock_ok id _ _ (inv_events _ _ _ _ _ _ Hi2)
                (fun k Hk => Hf k (proj1 Hk))) as Hsp.
  cbn in Hsp. rewrite Hlog, fmap_app in Hsp. apply Forall_app in Hsp as [Hsp1 Hsp2].
  exact (history_late (env_clocks env) representable id m _ m1 h _ i j _ _ _ _ Hs1 Hs2 Hsp1 Hsp2
           Hn1 Hn2 Hc1 Hok Hc2).
Qed.

(** Of any number of concurrent [delete_proof] calls on a record, in one
    process or several, at most one answers [Ok(())]. *)
Theorem delete_once_on_file tr ps st' id i j mu1 mu2 t1 t2 :
  vault_start p calls st m -> fresh_from env (fs_tick st) id ->
  running_from (vault_threads p calls) st tr ps st' -> i <> j ->
  calls !! i = Some (mu1, RDelete t1) -> calls !! j = Some (mu2, RDelete t2) ->
  names (RDelete t1) id = true -> names (RDelete t2) id = true ->
  ~ (ps !! i = Some (Ret (DeleteReply (Done (Ok tt)))) /\
     ps !! j = Some (Ret (DeleteReply (Done (Ok tt))))).
Proof.
  intros Hs Hf Hrun Hij Hi Hj Hn1 Hn2 [Ha1 Ha2].
  destruct (vault_phases env p calls st m clock_ok _ _ _ _ _ _ Hs (pool_nil _ _ _) Hrun)
    as (g1 & g2 & h & m1 & Hlog & (_ & Hp2 & Hi2) & _ & _).
  destruct (returned_at _ _ _ _ _ _ _ _ _ Hp2 Ha1) as (mq1 & Hmq1 & Hc1).
  destruct (returned_at _ _ _ _ _ _ _ _ _ Hp2 Ha2) as (mq2 & Hmq2 & Hc2).
  simplify_eq. cbn in Hc1, Hc2.
  pose proof (inv_serial _ _ _ _ _ _ _ _ _ Hi2) as Hser. apply serial_history in Hser.
  pose proof (events_spare env calls st clock_ok id _ _ (inv_events _ _ _ _ _ _ Hi2)
                (fun k Hk => Hf k (proj1 Hk))) as Hsp.
  exact (history_delete_once (env_clocks env) representable id m _ _ i j t1 t2 Hser Hsp Hij
           Hn1 Hn2 Hc1 Hc2).
Qed.

(** C8: concurrent vault calls never deadlock: from whatever state an
    interleaving of their system calls reaches, under any failures, the calls can
    be run on until all have ended, by a reply or, for a lifetime that takes the
    expiry out of chrono's range, a panic; and then no lock is held. *)
Theorem vault_on_file_completes tr1 ps1 st1 :
  vault_start p calls st m -> running_from (vault_threads p calls) st tr1 ps1 st1 ->
  exists tr2 ps2 st2, running_from ps1 st1 tr2 ps2 st2 /\ length ps2 = length calls /\
    (forall i q, ps2 !! i = Some q ->
       (exists a, q = Ret a) \/
       q = Panic /\ exists mq, calls !! i = Some mq /\ out_of_range (env_clocks env) mq.2) /\
    fs_flocks st2 = fs_flocks st /\ fs_mutexes st2 = fs_mutexes st.
Proof.
  intros Hs Hrun1. destruct (vault_reaches env p calls st m clock_ok _ _ _ Hs Hrun1) as (g1 & _ & Hp1 & Hi1).
  pose proof (pool_run_length _ _ _ _ _ _ Hrun1) as Hlen.
  unfold vault_threads in Hlen. rewrite length_fmap in Hlen.
  destruct (pool_can_end _ _ _ _ _ _ _ _ (sys_handle env) _ _
              (fun i a v => at_prog_free env p calls st m i (Ret a) v)
              (fun i v => at_prog_free env p calls st m i Panic v) ps1 (st1, g1) Hp1 Hi1 Hlen)
    as (tr2 & ps2 & st2 & Hrun2 & [Hlen2 Hend] & Hfree).
  destruct (vault_phases env p calls st m clock_ok _ _ _ _ _ _ Hs Hrun1 Hrun2)
    as (_ & g2 & _ & _ & _ & (_ & Hp2 & Hi2) & _ & _).
  exists tr2, ps2, st2. split; [done|]. split; [done|]. split; [|done].
  intros i q Hq. destruct (Forall_lookup_1 _ _ _ _ Hend Hq) as [->|?]; [right|by left].
  split; [done|]. exact (panicked_store env p calls st m ps2 i _ Hp2 Hi2 Hq).
Qed.
End Properties.

(** ** Witnesses *)

Module VaultThreads.
Import LocalSample.

(** The clock of the sample environment, within chrono's range for ever. *)
Definition env : Env := {|
  env_clock n := 1700000000 * nanos_per_sec + Z.of_nat n mod nanos_per_sec;
  env_key := env_key Sample.env;
  env_nonce := env_nonce Sample.env;
  env_uuid := env_uuid Sample.env;
|}.

(** Two processes delete the record that the file holds. *)
Definition deletes : list (nat * Request) :=
  [(0%nat, RDelete Sample.token); (1%nat, RDelete Sample.wrong_token)].
Definition mixed : list nat := [0; 1; 0; 1; 0; 1]%nat ++ replicate 60 0%nat ++ replicate 60 1%nat.
Definition mixed_end : list (prog sysE Reply) * FsState :=
  exec (sys_handle env) mixed (vault_threads path deletes, filled).

(** One after the other. *)
Definition first_end : list (prog sysE Reply) * FsState :=
  exec (sys_handle env) (replicate 60 0%nat) (vault_threads path deletes, filled).
Definition second_end : list (prog sysE Reply) * FsState :=
  exec (sys_handle env) (replicate 60 1%nat) first_end.
End VaultThreads.

Section Witnesses.
Import LocalSample VaultThreads.

Lemma filled_rep : file_rep path (fs_tree filled) two_records.
Proof.
  destruct (wpc_run _ _ _ _ _ (wpc_disk LocalSample.clock store (DInsert Sample.id1 record) ∅ opened
              opened_unlocked opened_rep record_ok)) as (a & st' & Hrun & _ & _ & (m' & Hm' & Hp) & Hf).
  assert (filled = st') as -> by (apply (f_equal snd) in Hrun; exact Hrun).
  assert (Hok : disk_fine (DInsert Sample.id1 record) ∅ a) by (apply Hf; intros k _; by vm_compute).
  clear Hf Hrun. destruct a as [x|x|x|x]; [|destruct Hok..].
  change (is_ok x = true) in Hok. change (insert_post Sample.id1 record ∅ x m') in Hp.
  destruct x as [[]|e]; [|discriminate Hok]. change (m' = two_records) in Hp. rewrite Hp in Hm'.
  exact Hm'.
Defined.

Lemma filled_start : vault_start path deletes filled two_records.
Proof.
  split; [by intros H'; vm_compute in H'|].
  assert (fs_flocks filled = ∅ /\ fs_mutexes filled = ∅) as [Hl Hm] by by vm_compute.
  split; [rewrite Hl; apply not_elem_of_empty|]. split; [apply filled_rep|].
  repeat constructor; rewrite Hm; apply not_elem_of_empty.
Defined.

Lemma env_times n : representable (env_clock env n).
Proof.
  unfold representable, env. cbn [env_clock].
  pose proof (Z.mod_pos_bound (Z.of_nat n) nanos_per_sec ltac:(done)) as Hb.
  unfold datetime_min, datetime_max; cbn. unfold chrono_min, chrono_max, rfc3339_min, rfc3339_max, nanos_per_sec in *. lia.
Defined.

Lemma filled_fresh : fresh_from env (fs_tick filled) Sample.id1.
Proof.
  intros k Hk. apply (Sample.fresh 3); [lia|]. etrans; [|exact Hk]. apply Nat.leb_le. by vm_compute.
Defined.

Lemma vault_on_file_linearizable_witness :
  exists h m', serial (file_step env filled) two_records h m' /\
    forall i a, mixed_end.1 !! i = Some (Ret a) -> exists mq, deletes !! i = Some mq /\
      completes (call_prog mq.2) (thread_trace i h) a.
Proof.
  destruct (exec_trace (sys_handle env) mixed (vault_threads path deletes) filled) as (tr & Hrun & _).
  destruct (vault_on_file_linearizable env path deletes filled two_records env_times tr
              mixed_end.1 mixed_end.2 filled_start Hrun)
    as (h & m' & Hs & _ & Hr & _ & _).
  exists h, m'. split; [exact Hs|exact Hr].
Defined.

Lemma late_calls_fail_on_file_witness :
  first_end.1 !! 0%nat = Some (Ret (DeleteReply (Done (Ok tt)))) /\
  second_end.1 !! 1%nat = Some (Ret (DeleteReply (Done (Err ProofNotFound)))) /\
  succeeded (DeleteReply (Done (Err ProofNotFound))) = false.
Proof.
  split; [by vm_compute|]. split; [by vm_compute|].
  destruct (exec_trace (sys_handle env) (replicate 60 0%nat) (vault_threads path deletes) filled)
    as (tr1 & Hrun1 & Hn).
  destruct (exec_trace (sys_handle env) (replicate 60 1%nat) first_end.1 first_end.2)
    as (tr2 & Hrun2 & _).
  eapply (late_calls_fail_on_file env path deletes filled two_records env_times tr1 first_end.1
            first_end.2 tr2 _ _ Sample.id1 0 1 (0%nat, RDelete Sample.token)
            (1%nat, RDelete Sample.wrong_token) (DeleteReply (Done (Ok tt))) _ filled_start filled_fresh
            Hrun1 Hrun2).
  - done.
  - by vm_compute.
  - by vm_compute.
  - done.
  - apply Hn. by apply (bool_decide_unpack _).
  - done.
  - by vm_compute.
  - by vm_compute.
Defined.

Lemma delete_once_on_file_witness :
  ~ (mixed_end.1 !! 0%nat = Some (Ret (DeleteReply (Done (Ok tt)))) /\
     mixed_end.1 !! 1%nat = Some (Ret (DeleteReply (Done (Ok tt))))).
Proof.
  destruct (exec_trace (sys_handle env) mixed (vault_threads path deletes) filled) as (tr & Hrun & _).
  apply (delete_once_on_file env path deletes filled two_records env_times tr mixed_end.1 mixed_end.2
           Sample.id1 0 1 0 1 Sample.token Sample.wrong_token filled_start filled_fresh Hrun).
  - done.
  - done.
  - done.
  - by vm_compute.
  - by vm_compute.
Defined.

Lemma vault_on_file_completes_witness :
  exists tr ps st', pool_run (sys_handle env) (vault_threads path deletes) filled tr ps st' /\
    length ps = 2%nat /\
    (forall i q, ps !! i = Some q ->
       (exists a, q = Ret a) \/
       q = Panic /\ exists mq, deletes !! i = Some mq /\ out_of_range (env_clocks env) mq.2) /\
    fs_flocks st' = fs_flocks filled /\ fs_mutexes st' = fs_mutexes filled.
Proof.
  exact (vault_on_file_completes env path deletes filled two_records env_times [] _ _ filled_start
           (pool_nil _ _ _)).
Defined.

(** Overlapping, the deletions find the record once. *)
Example mixed_answers :
  mixed_end.1 = [Ret (DeleteReply (Done (Ok tt))); Ret (DeleteReply (Done (Err ProofNotFound)))].
Proof. by vm_compute. Qed.
End Witnesses.
