(* ===== verification/Durability.v ===== *)
(** The vault over the JSON file store across kills: its processes are killed at
    any system call, and others open the same vault file and go on. *)
From S2P Require Export VaultOnFileProperties Deposits.

(** ** Kills and restarts *)

(** Every process that uses the vault is killed: the operating system keeps the
    files as they are and releases the locks; the mutexes were theirs. *)
Definition killed (st : FsState) : FsState :=
  MkFs (fs_tree st) ∅ ∅ (fs_next_mutex st) (fs_tick st) (fs_faults st).

(** The calls of the processes between two kills, and how far they came. *)
Record Life : Type := MkLife {
  life_calls : list (nat * Request);
  life_ends : list (prog sysE Reply);
}.

Section Lives.
Context `{Base64, UuidFmt, AesGcm, Chrono, SerdeJson} (env : Env) (p : Path).

(** Processes open the store one after the other: [LocalFileStore::new], with
    the mutexes of their stores. *)
Inductive opens : FsState -> list nat -> FsState -> Prop :=
| opens_none st : opens st [] st
| opens_more st s st1 mus st2 :
    run (fs_handle (env_clock env)) (local_new p) st = (Done (Ok s), st1) ->
    opens st1 mus st2 -> opens st (process_lock s :: mus) st2.

(** Processes open the store, make calls that run interleaved at every system
    call, and are killed; others follow. *)
Inductive lives : FsState -> list Life -> FsState -> Prop :=
| lives_none st : lives st [] st
| lives_more st mus st0 calls tr ps st1 ls st2 :
    opens st mus st0 -> Forall (fun mq => mq.1 ∈ mus) calls ->
    pool_run (sys_handle env) (vault_threads p calls) st0 tr ps st1 ->
    lives (killed st1) ls st2 -> lives st (MkLife calls ps :: ls) st2.
End Lives.

(** ** The count of effects *)

Lemma fs_handle_tick clock X (e : fsE X) st x st' :
  fs_handle clock X e st = Some (x, st') -> fs_tick st' = S (fs_tick st).
Proof.
  destruct e; cbn; unfold fallible; repeat case_match; intros ?; simplify_eq; done.
Qed.

Lemma sys_handle_tick env X (e : sysE X) st x st' :
  sys_handle env X e st = Some (x, st') -> fs_tick st' = S (fs_tick st).
Proof. destruct e; cbn; [apply fs_handle_tick|intros ?; by simplify_eq..]. Qed.

Lemma run_ticks {E A} (h : handler E FsState) (q : prog E A) st :
  (forall X e st x st', h X e st = Some (x, st') -> fs_tick st' = S (fs_tick st)) ->
  (fs_tick st <= fs_tick (run h q st).2)%nat.
Proof.
  intros Hh. revert st. induction q as [a| |X e k IH]; intros st; cbn; [done..|].
  destruct (h X e st) as [[x st']|] eqn:He; [|done]. apply Hh in He. specialize (IH x st'). lia.
Qed.

Lemma pool_run_ticks {E A} (h : handler E FsState) (ps : list (prog E A)) st tr ps' st' :
  (forall X e st x st', h X e st = Some (x, st') -> fs_tick st' = S (fs_tick st)) ->
  pool_run h ps st tr ps' st' -> (fs_tick st <= fs_tick st')%nat.
Proof. intros Hh. induction 1 as [|? ? ? ? ? ? ? ? ? ? ? ? He]; [done|]. apply Hh in He. lia. Qed.

(** ** What a kill leaves in the vault file *)

Section Killed.
Context `{Base64Laws, UuidFmtLaws, AesGcmLaws, ChronoLaws, SerdeJsonLaws} (env : Env) (p : Path).
Context (clock_ok : forall n, representable (env_clock env n)).
Abbreviation clocks := (env_clocks env).

(** At any moment of an interleaving the vault file holds the records some
    history of the calls leads to: an operation under way took place, or did
    not. *)
Lemma killed_history calls st m tr ps st' :
  vault_start p calls st m ->
  pool_run (sys_handle env) (vault_threads p calls) st tr ps st' ->
  exists h m', serial (file_step env st) m h m' /\ file_rep p (fs_tree st') m' /\
    events_of_calls env calls st (fs_tick st') h /\
    (forall i a, ps !! i = Some (Ret a) -> exists mq, calls !! i = Some mq /\
       completes (call_prog mq.2) (thread_trace i h) a).
Proof.
  intros Hs Hrun. destruct (vault_reaches env p calls st m clock_ok _ _ _ Hs Hrun) as (g & _ & Hp & Hi).
  pose proof (inv_events _ _ _ _ _ _ Hi) as [Hc Hseen]. cbn in Hc, Hseen.
  pose proof (inv_serial _ _ _ _ _ _ _ _ _ Hi) as Hser. cbn in Hser.
  destruct (inv_file _ _ _ _ _ _ _ _ _ Hi) as (m' & Hm' & [->|(j & ev & Ho & Ha & Hr & Hstep)]).
  - exists (gh_log g), (gh_records g). split; [done|]. split; [done|]. split; [done|].
    intros i a. by apply (returned_at _ _ _ _ _ _ _ _ _ Hp).
  - exists (gh_log g ++ [(j, ev)]), m'. split; [by eapply serial_snoc|]. split; [done|]. split; [split|].
    + by apply (allowed_snoc (of_call calls)).
    + by apply seen_unasked.
    + intros i a Hret. destruct (returned_at _ _ _ _ _ _ _ _ _ Hp Hret) as (mq & Hmq & Hcomp).
      exists mq. split; [done|]. rewrite thread_trace_app, thread_trace_other, app_nil_r; [done|].
      intros <-. pose proof (pool_ok_ret _ _ _ _ _ _ _ _ _ _ Hp Hret) as Hq.
      by apply at_prog_free in Hq as [Hf _].
Qed.

(** A vault file that no one uses. *)
Definition at_rest (st : FsState) (m : Records) : Prop :=
  lock_path p <> p /\ is_Some (path_parent p) /\ fs_flocks st = ∅ /\ fs_mutexes st = ∅ /\
  file_rep p (fs_tree st) m.

Lemma opens_rest st mus st' m :
  opens env p st mus st' -> at_rest st m -> at_rest st' m /\ (fs_tick st <= fs_tick st')%nat.
Proof.
  induction 1 as [st|st s st1 mus st2 Hrun _ IH]; intros Hr; [done|].
  pose proof Hr as (Hne & Hp & Hl & Hmu & Hm).
  assert (Hf : is_Some (file_at (fs_tree st) p)) by (destruct Hm as [(f & _ & -> & _) _]; eauto).
  destruct (wpc_run _ _ _ _ _ (wpc_local_new (env_clock env) p st Hp
              ltac:(intros dir _ Hn; rewrite Hn in Hf; by destruct Hf)))
    as (r & st1' & Hrun' & _ & Hl1 & Hmu1 & Hs1 & _).
  rewrite Hrun in Hrun'. simplify_eq. destruct Hs1 as (_ & _ & Hsame).
  destruct IH as [IH1 IH2].
  { split_and!; [done..|congruence|congruence|]. destruct Hm as [Hm Ht]. split; [|done].
    eapply holds_same; [|exact Hm]. by apply Hsame. }
  split; [done|]. pose proof (run_ticks (fs_handle (env_clock env)) (local_new p) st) as Ht.
  rewrite Hrun in Ht. specialize (Ht (fun X e st x st' => fs_handle_tick _ X e st x st')). cbn in Ht. lia.
Qed.

Lemma rest_start st m calls : at_rest st m -> vault_start p calls st m.
Proof.
  intros (Hne & _ & Hl & Hmu & Hm). split; [done|]. rewrite Hl, Hmu.
  split; [apply not_elem_of_empty|]. split; [done|].
  apply Forall_forall. intros mq _. apply not_elem_of_empty.
Qed.

(** ** Histories of lives *)

(** The records go from [m], at the effect number [t], through the lives to
    [m'], at [t']: each life has a history of its calls' events. *)
Fixpoint recounts (t : nat) (m : Records) (ls : list Life) (t' : nat) (m' : Records) : Prop :=
  match ls with
  | [] => (t <= t')%nat /\ m' = m
  | l :: ls =>
      exists st t1 h m1, (t <= fs_tick st)%nat /\ history clocks m h m1 /\
        events_of_calls env (life_calls l) st t1 h /\
        (forall i a, life_ends l !! i = Some (Ret a) -> exists mq, life_calls l !! i = Some mq /\
           completes (call_prog mq.2) (thread_trace i h) a) /\
        (fs_tick st <= t1)%nat /\ recounts t1 m1 ls t' m'
  end.

Lemma lives_recount st ls st' m :
  lives env p st ls st' -> at_rest st m ->
  exists m', recounts (fs_tick st) m ls (fs_tick st') m' /\ at_rest st' m'.
Proof.
  intros Hl. revert m. induction Hl as [st|st mus st0 calls tr ps st1 ls st2 Hop _ Hrun _ IH]; intros m Hm.
  { by exists m. }
  destruct (opens_rest _ _ _ _ Hop Hm) as [Hm0 Ht0].
  destruct (killed_history calls st0 m tr ps st1 (rest_start _ _ _ Hm0) Hrun)
    as (h & m1 & Hser & Hm1 & Hev & Hret).
  destruct (IH m1) as (m' & Hrec & Hm').
  { destruct Hm0 as (? & ? & _). by split_and!. }
  exists m'. split; [|done]. exists st0, (fs_tick st1), h, m1. split_and!; [done| |done..| |done].
  - by apply serial_history in Hser.
  - eapply pool_run_ticks; [|exact Hrun]. apply sys_handle_tick.
Qed.

Lemma recounts_ticks t m ls t' m' : recounts t m ls t' m' -> (t <= t')%nat.
Proof.
  revert t m. induction ls as [|l ls IH]; intros t m; cbn; [by intros []|].
  intros (st & t1 & h & m1 & Ht & _ & _ & _ & Ht1 & Hrec%IH). lia.
Qed.

(** *** A record that is gone *)

(** No answer from the effect number [t] to [t'] is this record id. *)
Definition undrawn (t t' : nat) (id : RecordId) : Prop :=
  forall k, (t <= k < t')%nat -> env_uuid env k <> id.

Lemma undrawn_part t t' u u' id : (t <= u)%nat -> (u' <= t')%nat -> undrawn t t' id -> undrawn u u' id.
Proof. intros ? ? Hu k Hk. apply Hu. lia. Qed.

(** What a call names, it finds, when it succeeds. *)
Lemma succeeded_finds q a id (h : list (nat * event vaultE)) i :
  completes (call_prog q) (thread_trace i h) a -> names q id = true -> succeeded a = true ->
  Forall (fun ev => finds id ev = false) h.*2 -> False.
Proof.
  intros Hc Hn Ha Hf. destruct (success_events q _ a id Hc Hn Ha) as (He & _).
  apply Exists_trace, Exists_exists in He as (ev & Hin & Hev).
  rewrite Forall_forall in Hf. by rewrite (Hf _ Hin) in Hev.
Qed.

Lemma recounts_absent t m ls t' m' id :
  recounts t m ls t' m' -> undrawn t t' id -> m !! id = None ->
  Forall (fun l => forall k c a, life_calls l !! k = Some c -> names c.2 id = true ->
    life_ends l !! k = Some (Ret a) -> succeeded a = false) ls.
Proof.
  revert t m. induction ls as [|l ls IH]; intros t m Hrec Hu Hm; [constructor|].
  destruct Hrec as (st & t1 & h & m1 & Ht & Hh & Hev & Hret & Ht1 & Hrec).
  pose proof (recounts_ticks _ _ _ _ _ Hrec) as Ht'.
  assert (Hsp : Forall (spares_event representable (eq id)) h.*2).
  { eapply events_spare; [done|exact Hev|]. eapply undrawn_part; [..|exact Hu]; lia. }
  destruct (history_record clocks representable (eq id) id m h m1 eq_refl Hh Hsp) as (_ & Habs & _).
  destruct (Habs Hm) as (Hm1 & _ & Hfinds). constructor.
  - intros k c a Hk Hn Ha. destruct (Hret k a Ha) as (c' & Hc' & Hcomp). simplify_eq.
    destruct (succeeded a) eqn:Hok; [|done]. by edestruct succeeded_finds.
  - apply (IH t1 m1); [done| |done]. eapply undrawn_part; [..|exact Hu]; lia.
Qed.


(** *** A record that stays *)

(** Two answers from the effect number [t] to [t'] that are this id are the
    same. *)
Definition drawn_once (t t' : nat) (id : RecordId) : Prop :=
  forall k k', (t <= k < t')%nat -> (t <= k' < t')%nat ->
    env_uuid env k = id -> env_uuid env k' = id -> k = k'.

Lemma drawn_once_list t t' id ks evs :
  drawn_once t t' id -> Forall2 (drawn_at env) ks evs -> NoDup ks ->
  Forall (fun k => t <= k < t')%nat ks ->
  (length (filter (fun ev => drawn_id ev = Some id) evs) <= 1)%nat /\
  (filter (fun ev => drawn_id ev = Some id) evs = [] \/ exists k, k ∈ ks /\ env_uuid env k = id).
Proof.
  intros Hu. assert (Hid : forall k ev, drawn_at env k ev -> drawn_id ev = Some id -> env_uuid env k = id).
  { intros k [X e x] Hd He. destruct e; cbn in Hd, He; try done. congruence. }
  induction 1 as [|k ev ks evs Hk _ IH]; intros Hn Hr; [by split; [cbn; lia|left]|].
  apply NoDup_cons in Hn as [Hnot Hn]. apply Forall_cons in Hr as [Hkr Hr].
  destruct (IH Hn Hr) as [Hle Hor]. rewrite filter_cons. case_decide as He.
  - destruct Hor as [->|(k' & Hk' & Hid')].
    { split; [cbn; lia|right]. exists k. split; [by left|by eapply Hid]. }
    exfalso. apply Hnot. rewrite (Hu k k'); [done|done| |by eapply Hid|done].
    by apply (proj1 (Forall_forall _ _) Hr).
  - split; [done|]. destruct Hor as [?|(k' & ? & ?)]; [by left|right].
    exists k'. split; [by right|done].
Qed.

(** In a history of calls the id is drawn at most once; and once it was, it is
    not drawn afterwards. *)
Lemma seen_once st t h id :
  seen env st t h -> drawn_once (fs_tick st) t id ->
  (length (filter (fun ev => drawn_id ev = Some id) h.*2) <= 1)%nat.
Proof.
  intros (ks & Hd & Hn & Hk) Hu. destruct (drawn_once_list _ _ _ _ _ Hu Hd Hn Hk) as [Hle _].
  unfold draws in Hle. rewrite list_filter_filter_l in Hle; [done|].
  intros [X e x]. by destruct e.
Qed.

Lemma once_undrawn t u t' id h i st :
  drawn_once t t' id -> seen env st u h -> (i, Ev NewV4 id) ∈ h -> (t <= fs_tick st)%nat ->
  (u <= t')%nat -> undrawn u t' id.
Proof.
  intros Ho Hs Hin Ht Hu k Hk He. destruct (seen_drawn _ _ _ _ _ _ Hs Hin) as (k' & Hk' & He').
  pose proof (Ho k k' ltac:(lia) ltac:(lia) He (eq_sym He')). lia.
Qed.

Section Record.
Context (id : RecordId).

(** No call of these lives names the record. *)
Definition unnamed (l : Life) : Prop := Forall (fun c => names c.2 id = false) (life_calls l).

Lemma events_leave l st t h :
  unnamed l -> events_of_calls env (life_calls l) st t h -> Forall (leaves_event id) h.*2.
Proof.
  intros Hn Hev. apply Forall_fmap, Forall_forall. intros [j ev] Hin. cbn.
  destruct (event_call _ _ _ _ _ _ _ Hev Hin) as (mq & q & Hj & Hl & Hin').
  pose proof (leads_leaves id _ _ _ (Forall_lookup_1 _ _ _ _ Hn Hj) Hl) as Hf.
  rewrite Forall_forall in Hf. by apply Hf.
Qed.

Lemma recounts_keeps t m ls t' m' r :
  recounts t m ls t' m' -> (forall now, clocks now -> live_at now r = true) -> undrawn t t' id -> Forall unnamed ls -> m !! id = Some r ->
  m' !! id = Some r.
Proof.
  intros Hrec live. revert t m Hrec. induction ls as [|l ls IH]; intros t m Hrec Hu Hn Hm; [by destruct Hrec as [_ ->]|].
  destruct Hrec as (st & t1 & h & m1 & Ht & Hh & Hev & _ & Ht1 & Hrec).
  pose proof (recounts_ticks _ _ _ _ _ Hrec) as Ht'. apply Forall_cons in Hn as [Hl Hls].
  apply (IH t1 m1); [done| |done|].
  { eapply undrawn_part; [..|exact Hu]; lia. }
  eapply history_keeps; [exact Hh|done|exact live|by eapply events_leave|].
  eapply Forall_impl; [eapply events_spare; [done|exact Hev|]|].
  - eapply undrawn_part; [..|exact Hu]; lia.
  - intros ev. apply spares_unwritten.
Qed.

(** The record of a deposit, [good] and therefore live, from the moment it was
    written. *)
Context (good : StoredRecord -> Prop).
Context (good_live : forall r, good r -> forall now, clocks now -> live_at now r = true).

(** A call that answered [a] has drawn the id and written a good record. *)
Definition deposits (q : Request) (a : Reply) : Prop := forall tr,
  completes (call_prog q) tr a ->
  Forall (fun ev : event vaultE => match ev with Ev e x => fair_answer clocks (fun _ => False) _ e x end) tr ->
  exists r, good r /\ Ev NewV4 id ∈ tr /\ Ev (StInsert id r) (Ok tt) ∈ tr.

Lemma recounts_written t m l ls t' m' k mu q a :
  recounts t m (l :: ls) t' m' -> drawn_once t t' id -> Forall unnamed (l :: ls) ->
  life_calls l !! k = Some (mu, q) -> life_ends l !! k = Some (Ret a) -> deposits q a ->
  exists r, good r /\ m' !! id = Some r.
Proof.
  intros (st & t1 & h & m1 & Ht & Hh & Hev & Hret & Ht1 & Hrec) Ho [Hl Hls]%Forall_cons Hk Ha Hw.
  pose proof (recounts_ticks _ _ _ _ _ Hrec) as Ht'.
  destruct (Hret k a Ha) as (mq & Hmq & Hc). simplify_eq.
  destruct (Hw _ Hc) as (r & Hr & Hnew & Hins); [eapply events_fair; [exact Hev|intros ? _ []]|].
  exists r. split; [done|]. specialize (good_live r Hr). apply elem_of_thread_trace in Hnew, Hins.
  assert (Ho1 : drawn_once (fs_tick st) t1 id) by (intros k1 k2 ? ?; apply Ho; lia).
  apply (recounts_keeps t1 m1 ls t' m' r Hrec good_live); [|done|].
  { eapply (once_undrawn t); [exact Ho|apply Hev|exact Hnew|done|done]. }
  apply list_elem_of_split in Hins as (h1 & h2 & ->). pose proof Hh as (m2 & _ & Hh2)%serial_app.
  destruct Hh2 as (m3 & Hstep & Hh2). cbn in Hstep. subst m3.
  eapply history_keeps; [exact Hh2|by rewrite lookup_insert_eq|exact good_live| |].
  - pose proof (events_leave _ _ _ _ Hl Hev) as Hf. rewrite fmap_app, fmap_cons in Hf.
    apply Forall_app in Hf as [_ [_ Hf]%Forall_cons]. done.
  - apply (written_once id h1 h2 k r (Ok tt)).
    + intros j ev Hj. destruct (event_call _ _ _ _ _ _ _ Hev Hj) as (mq & q' & _ & Hl' & _). eauto.
    + eapply seen_once; [apply Hev|done].
Qed.

Lemma recounts_deposit t m ls t' m' i l k mu q a :
  recounts t m ls t' m' -> drawn_once t t' id -> Forall unnamed ls ->
  ls !! i = Some l -> life_calls l !! k = Some (mu, q) -> life_ends l !! k = Some (Ret a) ->
  deposits q a -> exists r, good r /\ m' !! id = Some r.
Proof.
  intros Hrec Ho Hn Hi Hk Ha Hw. revert t m i Hrec Ho Hi.
  induction ls as [|l' ls IH]; intros t m i Hrec Ho Hi; [done|]. destruct i as [|i]; cbn in Hi; simplify_eq.
  { by eapply recounts_written. }
  destruct Hrec as (st & t1 & h & m1 & Ht & _ & _ & _ & Ht1 & Hrec). apply Forall_cons in Hn as [_ Hn].
  eapply IH; [done|exact Hrec| |exact Hi]. intros k1 k2 ? ?. apply Ho; lia.
Qed.

(** *** A record that was consumed

    One life: its history takes the records [m] to [m1], at [t1]. *)
Section Life.
Context (t t' t1 : nat) (m m1 : Records) (l : Life) (st : FsState) (h : list (nat * event vaultE)).
Context (Ht : (t <= fs_tick st)%nat) (Ht1 : (fs_tick st <= t1)%nat) (Ht' : (t1 <= t')%nat).
Context (Hh : history clocks m h m1) (Hev : events_of_calls env (life_calls l) st t1 h).
Context (Ho : drawn_once t t' id) (Hu : is_Some (m !! id) -> undrawn t t' id).

Lemma life_calls_lead j ev :
  (j, ev) ∈ h -> exists q q', leads (call_prog q) (thread_trace j h) q'.
Proof.
  intros Hin. destruct (event_call _ _ _ _ _ _ _ Hev Hin) as (mq & q' & _ & Hl & _). eauto.
Qed.

Lemma life_drawn_once : (length (filter (fun ev => drawn_id ev = Some id) h.*2) <= 1)%nat.
Proof. eapply seen_once; [apply Hev|]. intros k k' ? ?. apply Ho; lia. Qed.

Lemma life_undrawn :
  undrawn t t' id \/ Exists (fun ev => drawn_id ev = Some id) h.*2 -> undrawn t1 t' id.
Proof.
  intros [Hn|Hd]; [eapply undrawn_part; [..|exact Hn]; lia|].
  apply Exists_exists in Hd as ([X e x] & Hin & He). destruct e; try done. cbn in He. simplify_eq.
  apply list_elem_of_fmap in Hin as ([k ev] & Hk & Hin). cbn in Hk. subst ev.
  eapply (once_undrawn t); [exact Ho|apply Hev|exact Hin|done|done].
Qed.

Lemma life_unwritten :
  ~ Exists (fun ev => drawn_id ev = Some id) h.*2 ->
  Forall (spares_event (fun _ => True) (eq id)) h.*2.
Proof.
  intros Hd. apply Forall_forall. intros ev ([k ev'] & -> & Hin)%list_elem_of_fmap.
  apply unwritten_spares. intros Hw. apply Hd. destruct (life_calls_lead k ev' Hin) as (q & q' & Hl).
  destruct (call_writes _ _ _ Hl) as [_ Hdr].
  assert (Hid : id ∈ omap drawn_id (thread_trace k h)).
  { apply Hdr, list_elem_of_omap. exists ev'. split; [by apply elem_of_thread_trace|done]. }
  apply list_elem_of_omap in Hid as (ev'' & Hin'' & Hev''). apply Exists_exists.
  exists ev''. split; [by eapply thread_trace_in|done].
Qed.

Lemma life_next : is_Some (m1 !! id) -> undrawn t1 t' id.
Proof.
  intros Hm1. apply life_undrawn.
  destruct (decide (Exists (fun ev => drawn_id ev = Some id) h.*2)) as [Hd|Hd]; [by right|left].
  apply Hu. destruct (m !! id) eqn:Hm; [eauto|].
  destruct (history_record clocks (fun _ => True) (eq id) id m h m1 eq_refl Hh (life_unwritten Hd))
    as (_ & Habs & _).
  destruct (Habs Hm) as [Hn _]. rewrite Hn in Hm1. by destruct Hm1.
Qed.

Lemma life_consumed k c a :
  completes (call_prog c) (thread_trace k h) a -> names c id = true -> succeeded a = true ->
  m1 !! id = None /\ undrawn t1 t' id.
Proof.
  intros Hc Hn Hok. destruct (m !! id) as [r|] eqn:Hm.
  - specialize (Hu ltac:(eauto)). split; [|by apply life_undrawn; left].
    destruct (history_record clocks representable (eq id) id m h m1 eq_refl Hh) as (_ & _ & Hclr).
    { eapply events_spare; [done|exact Hev|]. eapply undrawn_part; [..|exact Hu]; lia. }
    destruct (success_events _ _ _ id Hc Hn Hok) as (_ & He & _). by eapply Hclr, Exists_trace.
  - destruct (history_consumed id clocks m h m1 k c a Hh Hm life_calls_lead life_drawn_once Hc Hn Hok)
      as [Hm1 Hd].
    split; [done|]. by apply life_undrawn; right.
Qed.
End Life.

(** A call that succeeds on a record of these lives, which is not there yet or
    not drawn again. *)
Lemma recounts_consumed t m ls t' m' i j l1 l2 k1 k2 c1 c2 a1 a2 :
  recounts t m ls t' m' -> drawn_once t t' id -> (is_Some (m !! id) -> undrawn t t' id) ->
  ls !! i = Some l1 -> ls !! j = Some l2 -> (i < j)%nat ->
  life_calls l1 !! k1 = Some c1 -> names c1.2 id = true ->
  life_ends l1 !! k1 = Some (Ret a1) -> succeeded a1 = true ->
  life_calls l2 !! k2 = Some c2 -> names c2.2 id = true ->
  life_ends l2 !! k2 = Some (Ret a2) -> succeeded a2 = false.
Proof.
  intros Hrec Ho Hu Hi Hj Hij Hc1 Hn1 Ha1 Hok Hc2 Hn2 Ha2.
  revert t m i j Hrec Ho Hu Hi Hj Hij. induction ls as [|l ls IH]; intros t m i j Hrec Ho Hu Hi Hj Hij; [done|].
  destruct Hrec as (st & t1 & h & m1 & Ht & Hh & Hev & Hret & Ht1 & Hrec).
  pose proof (recounts_ticks _ _ _ _ _ Hrec) as Ht'. destruct j as [|j]; [lia|]. cbn in Hj.
  destruct i as [|i]; cbn in Hi.
  - simplify_eq. destruct (Hret k1 a1 Ha1) as (c' & Hc' & Hcomp). simplify_eq.
    destruct (life_consumed t t' t1 m m1 l1 st h Ht Ht1 Ht' Hh Hev Ho Hu k1 c1.2 a1 Hcomp Hn1 Hok)
      as [Hm1 Hu1].
    pose proof (recounts_absent t1 m1 ls t' m' id Hrec Hu1 Hm1) as Hls.
    exact (Forall_lookup_1 _ _ _ _ Hls Hj k2 c2 a2 Hc2 Hn2 Ha2).
  - apply (IH t1 m1 i j); [done| |by eapply life_next|done|done|lia].
    intros k k' ? ?. apply Ho; lia.
Qed.
End Record.
End Killed.

(** ** The clock between two effects

    Nothing between the effects number [n0] and [n1] depends on what the clock
    shows before or after. *)
Section Clamp.
Context `{Base64, UuidFmt, AesGcm, Chrono, SerdeJson} (env : Env) (p : Path) (n0 n1 : nat).

Definition clamped : Env := {|
  env_clock n := env_clock env (Nat.max n0 (Nat.min n n1));
  env_key := env_key env;
  env_nonce := env_nonce env;
  env_uuid := env_uuid env;
|}.

Abbreviation during st := (n0 <= fs_tick st <= n1)%nat.

Lemma clamped_clock n : (n0 <= n <= n1)%nat -> env_clock clamped n = env_clock env n.
Proof. intros Hn. cbn. f_equal. lia. Qed.

Lemma fs_handle_clamped X (e : fsE X) st :
  during st -> fs_handle (env_clock clamped) X e st = fs_handle (env_clock env) X e st.
Proof. intros Hn. destruct e; try done. cbn [fs_handle]. by rewrite clamped_clock. Qed.

Lemma sys_handle_clamped X (e : sysE X) st :
  during st -> sys_handle clamped X e st = sys_handle env X e st.
Proof.
  intros Hn. destruct e; try done; cbn [sys_handle]; [by apply fs_handle_clamped|].
  by rewrite clamped_clock.
Qed.

Section Agree.
Context {E : Type -> Type} (h h' : handler E FsState).
Context (count : forall X e st x st', h X e st = Some (x, st') -> fs_tick st' = S (fs_tick st)).
Context (agree : forall X e st, during st -> h' X e st = h X e st).

Lemma run_clamped {A} (q : prog E A) st :
  (n0 <= fs_tick st)%nat -> (fs_tick (run h q st).2 <= n1)%nat -> run h' q st = run h q st.
Proof.
  pose proof (run_ticks h q st count) as Ht. revert st Ht. induction q as [a| |X e k IH]; intros st; cbn; [done..|].
  intros Ht Hlo Hhi. rewrite agree by lia. destruct (h X e st) as [[x st']|] eqn:He; [|done].
  apply IH; [by apply run_ticks|apply count in He; lia|done].
Qed.

Lemma pool_run_clamped {A} (ps : list (prog E A)) st tr ps' st' :
  pool_run h ps st tr ps' st' -> (n0 <= fs_tick st)%nat -> (fs_tick st' <= n1)%nat ->
  pool_run h' ps st tr ps' st'.
Proof.
  induction 1 as [|ps st i X e k x st1 tr ps2 st2 Hi He Hrun IH]; intros Hlo Hhi; [constructor|].
  pose proof (pool_run_ticks _ _ _ _ _ _ count Hrun). pose proof (count _ _ _ _ _ He).
  econstructor; [done|by rewrite agree by lia|apply IH; lia].
Qed.
End Agree.

Lemma opens_ticks st mus st' : opens env p st mus st' -> (fs_tick st <= fs_tick st')%nat.
Proof.
  induction 1 as [|st s st1 mus st2 Hrun _ IH]; [done|].
  pose proof (run_ticks _ (local_new p) st (fs_handle_tick (env_clock env))) as Ht.
  rewrite Hrun in Ht. cbn in Ht. lia.
Qed.

Lemma lives_ticks st ls st' : lives env p st ls st' -> (fs_tick st <= fs_tick st')%nat.
Proof.
  induction 1 as [|st mus st0 calls tr ps st1 ls st2 Hop _ Hrun _ IH]; [done|].
  apply opens_ticks in Hop. apply (pool_run_ticks _ _ _ _ _ _ (sys_handle_tick env)) in Hrun.
  cbn in IH. lia.
Qed.

Lemma opens_clamped st mus st' :
  opens env p st mus st' -> (n0 <= fs_tick st)%nat -> (fs_tick st' <= n1)%nat ->
  opens clamped p st mus st'.
Proof.
  induction 1 as [|st s st1 mus st2 Hrun Hop IH]; intros Hlo Hhi; [constructor|].
  pose proof (opens_ticks _ _ _ Hop).
  pose proof (run_ticks _ (local_new p) st (fs_handle_tick (env_clock env))) as Ht.
  rewrite Hrun in Ht. cbn in Ht. econstructor; [|apply IH; lia]. rewrite <- Hrun.
  apply run_clamped; [apply fs_handle_tick|apply fs_handle_clamped|done|]. rewrite Hrun. cbn. lia.
Qed.

Lemma lives_clamped st ls st' :
  lives env p st ls st' -> (n0 <= fs_tick st)%nat -> (fs_tick st' <= n1)%nat ->
  lives clamped p st ls st'.
Proof.
  induction 1 as [|st mus st0 calls tr ps st1 ls st2 Hop Hmu Hrun Hl IH]; intros Hlo Hhi; [constructor|].
  pose proof (opens_ticks _ _ _ Hop). pose proof (lives_ticks _ _ _ Hl) as Hlt. cbn in Hlt.
  pose proof (pool_run_ticks _ _ _ _ _ _ (sys_handle_tick env) Hrun).
  econstructor; [apply opens_clamped; [exact Hop|lia..]|done| |apply IH; [cbn; lia|done]].
  eapply pool_run_clamped; [apply sys_handle_tick|apply sys_handle_clamped|exact Hrun|lia..].
Qed.
End Clamp.

(** ** A retrieval on its own *)

Lemma run_translate {E F A} (h : handler E FsState) (h' : handler F FsState) (f : forall X, E X -> F X)
    (q : prog E A) st :
  (forall X e st, h' X (f X e) st = h X e st) -> run h' (translate f q) st = run h q st.
Proof.
  intros Hf. revert st. induction q as [a| |X e k IH]; intros st; cbn; [done..|].
  rewrite Hf. destruct (h X e st) as [[x st']|]; [apply IH|done].
Qed.

Section Retrieve.
Context `{Base64Laws, UuidFmtLaws, AesGcmLaws, ChronoLaws, SerdeJsonLaws} (env : Env) (p : Path) (mu : nat).
Abbreviation s := (MkLocalFileStore p mu).
Abbreviation runs := (run (sys_handle env)).

(** One storage operation that meets no failure. *)
Lemma run_on_fs {X} (o : prog fsE (result X StorageError)) st D
    (post : result X StorageError -> Records -> Prop) fine :
  wpc (fs_handle (env_clock env)) D o (ends_in (answers p st post fine) st) st ->
  unlocked s st -> no_faults st ->
  exists x st' m', runs (translate (@OnFs) o) st = (Done x, st') /\ fine x /\ post x m' /\
    unlocked s st' /\ file_rep p (fs_tree st') m' /\ no_faults st' /\
    (fs_tick st <= fs_tick st')%nat.
Proof.
  intros Hw Hu Hn. destruct (wpc_run _ _ _ _ _ Hw) as (x & st' & Hrun & _ & Hs & (m' & Hm' & Hp) & Hf).
  exists x, st', m'. rewrite (run_translate (fs_handle (env_clock env))) by done.
  pose proof Hs as (_ & _ & _ & Ht & _).
  split_and!; [done|by apply Hf|done|by eapply unlocked_sync|done|by eapply no_faults_sync|done].
Qed.

Lemma run_consume id pr m st :
  unlocked s st -> file_rep p (fs_tree st) m -> no_faults st ->
  (runs (on_file s (consume id pr)) st).1 = Done (RetrieveReply (Done (Ok (MkProof pr)))).
Proof.
  intros Hu Hm Hn.
  destruct (run_on_fs (local_delete s id) st _ _ _ (local_delete_ok (env_clock env) s id m st Hu Hm) Hu Hn)
    as (x & st' & m' & Hrun & Hx & _). destruct x as [b|e]; [|done].
  assert (exists k l, consume id pr = Vis (StDelete id) k /\ forall b,
            on_file s (k (Ok b)) =
            Vis (SysLog l) (fun _ => Ret (RetrieveReply (Done (Ok (MkProof pr)))))) as (k & l & -> & Hk).
  { do 2 eexists. by split. }
  cbn [on_file vault_effect]. by rewrite run_bind, Hrun, Hk.
Qed.

Lemma run_retrieve_live id d r m st :
  unlocked s st -> file_rep p (fs_tree st) m -> no_faults st -> m !! id = Some r -> sealed d r ->
  let o := runs (on_file s (call_prog (RRetrieve (claim_encode (claim_new id (dep_key d)))))) st in
  (forall n, (fs_tick st <= n <= fs_tick o.2)%nat -> is_expired_at (env_clock env n) r = false) ->
  o.1 = Done (RetrieveReply (Done (Ok (MkProof (dep_proof d))))).
Proof.
  intros Hu Hm Hn Hid Hs. cbn zeta. destruct (retrieve_thread id d r Hs) as (k & -> & Hk).
  destruct (run_on_fs (local_fetch s id) st _ _ _ (local_fetch_ok (env_clock env) s id m st Hu Hm) Hu Hn)
    as (x & st1 & m1 & Hrun & Hx & [-> _] & Hu1 & Hm1 & Hn1 & Ht1). rewrite Hid in Hx. cbn in Hx. subst x.
  cbn [on_file vault_effect]. setoid_rewrite run_bind. rewrite Hrun. intros Hlive.
  destruct (expires_at r) as [t|] eqn:He.
  - destruct Hk as (k' & Hk & Hk'). rewrite Hk in Hlive |- *. cbn [on_file vault_effect] in Hlive |- *.
    cbn in Hlive |- *. set (st2 := fs_set st1 (fs_tree st1)) in *.
    pose proof (run_ticks (sys_handle env) (on_file s (k' (env_clock env (fs_tick st1)))) st2
                  (sys_handle_tick env)) as Ht2. cbn in Ht2.
    rewrite Hk' by (apply Hlive; lia).
    apply (run_consume id _ m); [done|done|].
    intros n Hle. apply Hn1. cbn in Hle. lia.
  - rewrite Hk. by apply (run_consume id _ m).
Qed.
End Retrieve.
