(* ===== verification/DurabilityProperties.v ===== *)
(** The properties of the vault across kills of its processes, with their
    witnesses. *)
From S2P Require Export Durability.

Section Properties.
Context `{Base64Laws, UuidFmtLaws, AesGcmLaws, ChronoLaws, SerdeJsonLaws} (env : Env) (p : Path).
Context (clock_ok : forall n, representable (env_clock env n)).

(** What the clock shows from the effect number [n0] to [n1] is less apart than
    the lifetime. *)
Definition within_lifetime (n0 n1 : nat) (e : option Z) : Prop :=
  match e with
  | Some s => forall n n', (n0 <= n <= n1)%nat -> (n0 <= n' <= n1)%nat ->
      env_clock env n' < env_clock env n + s * nanos_per_sec
  | None => True
  end.

(** The record of the deposit that was acknowledged with [tok]. *)
Definition acknowledged (n0 n1 : nat) (tok : string) (pr : PlaintextProof) (id : RecordId)
    (r : StoredRecord) : Prop :=
  exists d, tok = claim_encode (claim_new id (dep_key d)) /\ dep_proof d = proof_data pr /\
    sealed d r /\ forall n, (n0 <= n <= n1)%nat -> live_at (env_clock env n) r = true.

Lemma clamped_within n0 n1 now :
  (n0 <= n1)%nat -> env_clocks (clamped env n0 n1) now ->
  exists n, (n0 <= n <= n1)%nat /\ now = env_clock env n.
Proof. intros Hn [n ->]. cbn. eexists. split; [|done]. lia. Qed.

Lemma store_deposits n0 n1 pr e tok id :
  (n0 <= n1)%nat -> within_lifetime n0 n1 e -> names (RRetrieve tok) id = true ->
  deposits (clamped env n0 n1) id (acknowledged n0 n1 tok pr id) (RStore pr e)
    (StoreReply (Done (Ok tok))).
Proof.
  intros Hn Hlife Hid tr Hc Hfair.
  destruct (store_events _ _ _ _ Hc) as (i & d & r & -> & Hp & Hs & Hnew & Hins & Hexp).
  unfold names in Hid. rewrite ClaimId.decode_encode in Hid. apply bool_decide_eq_true in Hid. cbn in Hid. subst i.
  exists r. split; [|done]. exists d. split_and!; [done..|]. intros n Hr.
  unfold live_at. destruct Hs as (_ & _ & ->). destruct e as [s|]; [|by rewrite Hexp].
  destruct Hexp as (now & Hnow & Hexp). rewrite Forall_forall in Hfair.
  destruct (clamped_within n0 n1 now Hn (Hfair _ Hnow)) as (n' & Hn' & ->).
  unfold expiry_instant in Hexp. rewrite duration_seconds_spec in Hexp.
  destruct (_ && _); [|done]. cbn in Hexp. rewrite (datetime_add_spec _ _ (clock_ok n')) in Hexp.
  destruct (_ && _); [|done]. cbn in Hexp. injection Hexp as <-. cbn.
  apply Z.ltb_lt, Hlife; done.
Qed.

(** C5: a proof that was stored is not lost: once [store_proof] has returned a
    token, and whatever happens to the processes after that, kills at any system
    call of any call under way and restarts over the same vault file included, a
    process that opens the file and presents the token gets the proof, unless a
    call named the record or its lifetime is over. *)
Theorem stored_proof_survives_kills st m ls st' l i k mu pr e tok id mu' st0 :
  at_rest p st m -> lives env p st ls st' ->
  ls !! i = Some l -> life_calls l !! k = Some (mu, RStore pr e) ->
  life_ends l !! k = Some (Ret (StoreReply (Done (Ok tok)))) -> names (RRetrieve tok) id = true ->
  drawn_once env (fs_tick st) (fs_tick st') id -> Forall (unnamed id) ls ->
  opens env p st' [mu'] st0 -> no_faults st0 ->
  let o := run (sys_handle env) (on_file (MkLocalFileStore p mu') (call_prog (RRetrieve tok))) st0 in
  within_lifetime (fs_tick st) (fs_tick o.2) e ->
  o.1 = Done (RetrieveReply (Done (Ok pr))).
Proof.
  intros Hm Hl Hi Hk Ha Hid Ho Hn Hop Hnf. cbn zeta. set (o := run _ _ st0). intros Hlife.
  pose proof (lives_ticks env p _ _ _ Hl) as Ht1. pose proof (opens_ticks env p _ _ _ Hop) as Ht2.
  assert (Ht3 : (fs_tick st0 <= fs_tick o.2)%nat) by apply run_ticks, sys_handle_tick.
  set (env' := clamped env (fs_tick st) (fs_tick o.2)).
  assert (Hok' : forall n, representable (env_clock env' n)) by (intros; apply clock_ok).
  destruct (lives_recount env' p Hok' st ls st' m) as (m' & Hrec & Hm').
  { apply lives_clamped; [done..|lia]. }
  { done. }
  destruct (recounts_deposit env' Hok' id (acknowledged (fs_tick st) (fs_tick o.2) tok pr id)) with
    (t := fs_tick st) (m := m) (ls := ls) (t' := fs_tick st') (m' := m') (i := i) (l := l) (k := k)
    (mu := mu) (q := RStore pr e) (a := StoreReply (Done (Ok tok)))
    as (r & (d & -> & Hp & Hs & Hlive) & Hr); [|done..| |].
  - intros r (d & _ & _ & _ & Hlive) now Hnow.
    destruct (clamped_within (fs_tick st) (fs_tick o.2) now ltac:(lia) Hnow) as (n & Hn' & ->). by apply Hlive.
  - apply store_deposits; [lia|done..].
  - destruct (opens_rest env p st' [mu'] st0 m' Hop Hm') as [(_ & _ & Hfl & Hmu & Hrep) _].
    assert (Hu : unlocked (MkLocalFileStore p mu') st0).
    { split; cbn; [rewrite Hmu|rewrite Hfl]; apply not_elem_of_empty. }
    pose proof (run_retrieve_live env p mu' id d r m' st0 Hu Hrep Hnf Hr Hs) as Hrun. fold o in Hrun.
    rewrite Hp in Hrun. destruct pr. apply Hrun. intros n Hn'. apply live_not_expired, Hlive. lia.
Qed.

(** C9: a proof that was consumed stays so: once a retrieval or deletion of a
    record has succeeded, no call on it succeeds in any process that opens the
    vault file after a kill, whatever system call the kill came at. *)
Theorem consumed_after_kills st m ls st' id i j l1 l2 k1 k2 c1 c2 a1 a2 :
  at_rest p st m -> lives env p st ls st' -> drawn_once env (fs_tick st) (fs_tick st') id ->
  (is_Some (m !! id) -> undrawn env (fs_tick st) (fs_tick st') id) ->
  ls !! i = Some l1 -> ls !! j = Some l2 -> (i < j)%nat ->
  life_calls l1 !! k1 = Some c1 -> names c1.2 id = true ->
  life_ends l1 !! k1 = Some (Ret a1) -> succeeded a1 = true ->
  life_calls l2 !! k2 = Some c2 -> names c2.2 id = true ->
  life_ends l2 !! k2 = Some (Ret a2) -> succeeded a2 = false.
Proof.
  intros Hm Hl. destruct (lives_recount env p clock_ok st ls st' m Hl Hm) as (m' & Hrec & _).
  by eapply recounts_consumed.
Qed.
End Properties.

(** ** Witnesses *)

Section Executed.
Context `{Base64, UuidFmt, AesGcm, Chrono, SerdeJson} (env : Env) (p : Path).

(** A process opens the store and its calls run on a schedule. *)
Definition life_up (st : FsState) : FsState := (run (fs_handle (env_clock env)) (local_new p) st).2.
Definition life_end (sched : list nat) (calls : list (nat * Request)) (st : FsState) :
  list (prog sysE Reply) * FsState :=
  exec (sys_handle env) sched (vault_threads p calls, life_up st).

Lemma opens_one st s :
  (run (fs_handle (env_clock env)) (local_new p) st).1 = Done (Ok s) ->
  opens env p st [process_lock s] (life_up st).
Proof.
  intros Hs. econstructor; [|constructor]. rewrite <- Hs. unfold life_up. apply surjective_pairing.
Qed.

Lemma lives_exec sched calls st s ls st2 :
  (run (fs_handle (env_clock env)) (local_new p) st).1 = Done (Ok s) ->
  Forall (fun mq => mq.1 = process_lock s) calls ->
  lives env p (killed (life_end sched calls st).2) ls st2 ->
  lives env p st (MkLife calls (life_end sched calls st).1 :: ls) st2.
Proof.
  intros Hs Hc Hl. destruct (exec_trace (sys_handle env) sched (vault_threads p calls) (life_up st)) as (tr & Hrun & _).
  econstructor; [by apply opens_one| |exact Hrun|exact Hl].
  eapply Forall_impl; [exact Hc|]. intros mq ->. by left.
Qed.
End Executed.

Module Kills.
Import LocalSample.

(** The sample environment of VaultOnFileProperties.v, where the first id drawn
    is [id1]. *)
Definition env : Env := {|
  env_clock := env_clock VaultThreads.env;
  env_key := env_key Sample.env;
  env_nonce := env_nonce Sample.env;
  env_uuid n := if (n =? 13)%nat then Sample.id1 else Sample.id2;
|}.

(** A proof is stored; the process is killed while it stores another one.  The
    next one is killed while it sweeps. *)
Definition stores : list (nat * Request) :=
  [(1%nat, RStore Sample.proof (Some 3600)); (1%nat, RStore Sample.proof None)].
Definition store_sched : list nat := replicate 40 0%nat ++ replicate 10 1%nat.
Definition store_end := life_end env path store_sched stores opened.
Definition sweeps : list (nat * Request) := [(2%nat, RCleanup)].
Definition sweep_sched : list nat := replicate 7 0%nat.
Definition sweep_end := life_end env path sweep_sched sweeps (killed store_end.2).
Definition store_lives : list Life := [MkLife stores store_end.1; MkLife sweeps sweep_end.1].
Definition retrieved : outcome Reply * FsState :=
  run (sys_handle env) (on_file (MkLocalFileStore path 3) (call_prog (RRetrieve Sample.token)))
    (life_up env path (killed sweep_end.2)).

(** A proof is stored and retrieved; the next process is asked to delete it. *)
Definition uses : list (nat * Request) :=
  [(1%nat, RStore Sample.proof (Some 3600)); (1%nat, RRetrieve Sample.token)].
Definition use_sched : list nat := replicate 40 0%nat ++ replicate 40 1%nat.
Definition use_end := life_end env path use_sched uses opened.
Definition retries : list (nat * Request) := [(2%nat, RDelete Sample.token)].
Definition retry_sched : list nat := replicate 40 0%nat.
Definition retry_end := life_end env path retry_sched retries (killed use_end.2).
Definition use_lives : list Life := [MkLife uses use_end.1; MkLife retries retry_end.1].
End Kills.

Section Witnesses.
Import LocalSample Kills.

Lemma kills_times n : representable (env_clock Kills.env n).
Proof. apply env_times. Defined.

Lemma opened_rest : at_rest path opened ∅.
Proof.
  split; [by intros H'; vm_compute in H'|]. split; [by eexists|].
  assert (fs_flocks opened = ∅ /\ fs_mutexes opened = ∅) as [Hl Hm] by by vm_compute.
  split; [exact Hl|]. split; [exact Hm|]. apply opened_rep.
Defined.

Lemma kills_drawn n0 n1 : drawn_once Kills.env n0 n1 Sample.id1.
Proof.
  assert (Hid : forall k, env_uuid Kills.env k = Sample.id1 -> k = 13%nat).
  { intros k. cbn [env_uuid Kills.env]. destruct (Nat.eqb_spec k 13); [done|]. intros Hk.
    by apply (bool_decide_unpack (Sample.id2 <> Sample.id1)) in Hk. }
  by intros k k' _ _ ->%Hid ->%Hid.
Defined.

Lemma opened_new :
  (run (fs_handle (env_clock Kills.env)) (local_new path) opened).1 = Done (Ok (MkLocalFileStore path 1)).
Proof. by vm_compute. Defined.

Lemma store_killed :
  (run (fs_handle (env_clock Kills.env)) (local_new path) (killed store_end.2)).1 =
  Done (Ok (MkLocalFileStore path 2)).
Proof. by vm_compute. Defined.

Lemma sweep_lived : lives Kills.env path (killed store_end.2) [MkLife sweeps sweep_end.1] (killed sweep_end.2).
Proof.
  unfold sweep_end. generalize (killed store_end.2), (store_killed). intros st Hs.
  apply (lives_exec _ _ _ _ _ (MkLocalFileStore path 2)); [exact Hs|by repeat constructor|constructor].
Defined.

Lemma store_lived : lives Kills.env path opened store_lives (killed sweep_end.2).
Proof.
  unfold store_lives. pose proof sweep_lived as Hl. revert Hl.
  generalize (killed sweep_end.2), [MkLife sweeps sweep_end.1]. unfold store_end. generalize opened_new.
  generalize opened. intros st Hs st2 ls Hl.
  apply (lives_exec _ _ _ _ _ (MkLocalFileStore path 1)); [exact Hs|by repeat constructor|exact Hl].
Defined.

Lemma use_killed :
  (run (fs_handle (env_clock Kills.env)) (local_new path) (killed use_end.2)).1 =
  Done (Ok (MkLocalFileStore path 2)).
Proof. by vm_compute. Defined.

Lemma retry_lived : lives Kills.env path (killed use_end.2) [MkLife retries retry_end.1] (killed retry_end.2).
Proof.
  unfold retry_end. generalize (killed use_end.2), (use_killed). intros st Hs.
  apply (lives_exec _ _ _ _ _ (MkLocalFileStore path 2)); [exact Hs|by repeat constructor|constructor].
Defined.

Lemma use_lived : lives Kills.env path opened use_lives (killed retry_end.2).
Proof.
  unfold use_lives. pose proof retry_lived as Hl. revert Hl.
  generalize (killed retry_end.2), [MkLife retries retry_end.1]. unfold use_end. generalize opened_new.
  generalize opened. intros st Hs st2 ls Hl.
  apply (lives_exec _ _ _ _ _ (MkLocalFileStore path 1)); [exact Hs|by repeat constructor|exact Hl].
Defined.

Lemma stored_proof_survives_kills_witness :
  retrieved.1 = Done (RetrieveReply (Done (Ok Sample.proof))).
Proof.
  pose proof (stored_proof_survives_kills Kills.env path kills_times opened ∅ store_lives
           (killed sweep_end.2) (MkLife stores store_end.1) 0 0 1 Sample.proof (Some 3600) Sample.token
           Sample.id1 3 (life_up Kills.env path (killed sweep_end.2))) as Hs.
  cbn zeta in Hs. unfold retrieved. apply Hs; clear Hs.
  - apply opened_rest.
  - apply store_lived.
  - done.
  - done.
  - by vm_compute.
  - by vm_compute.
  - apply kills_drawn.
  - repeat constructor.
  - apply (opens_one _ _ _ (MkLocalFileStore path 3)). by vm_compute.
  - intros k _. by vm_compute.
  - intros n n' _ _. cbn [env_clock Kills.env VaultThreads.env].
    pose proof (Z.mod_pos_bound (Z.of_nat n) nanos_per_sec ltac:(done)).
    pose proof (Z.mod_pos_bound (Z.of_nat n') nanos_per_sec ltac:(done)).
    unfold nanos_per_sec in *. lia.
Defined.

Lemma consumed_after_kills_witness :
  use_end.1 !! 1%nat = Some (Ret (RetrieveReply (Done (Ok Sample.proof)))) /\
  retry_end.1 !! 0%nat = Some (Ret (DeleteReply (Done (Err ProofNotFound)))) /\
  succeeded (DeleteReply (Done (Err ProofNotFound))) = false.
Proof.
  split; [by vm_compute|]. split; [by vm_compute|].
  pose proof (consumed_after_kills Kills.env path kills_times opened ∅ use_lives (killed retry_end.2)
           Sample.id1 0 1 (MkLife uses use_end.1) (MkLife retries retry_end.1) 1 0
           (1%nat, RRetrieve Sample.token) (2%nat, RDelete Sample.token)
           (RetrieveReply (Done (Ok Sample.proof))) (DeleteReply (Done (Err ProofNotFound)))) as Hc.
  apply Hc; clear Hc.
  - apply opened_rest.
  - apply use_lived.
  - apply kills_drawn.
  - rewrite lookup_empty. by intros [].
  - done.
  - done.
  - lia.
  - done.
  - by vm_compute.
  - by vm_compute.
  - done.
  - done.
  - by vm_compute.
  - by vm_compute.
Defined.

(** The process was indeed killed in the middle of a write: its temporary file
    is still there. *)
Example killed_mid_write :
  size <$> (fs_tree (killed store_end.2) !! ["data"]) = Some 3%nat /\
  size <$> (fs_tree (killed use_end.2) !! ["data"]) = Some 2%nat.
Proof. by vm_compute. Qed.
End Witnesses.
