(* ===== verification/Sqlite.v ===== *)
(** src/storage/sqlite.rs: the SQLite store.  The statements are the texts of
    the source, white space apart; the engine that runs them is an interface with SQLite's
    documented semantics of these statements. *)
From S2P Require Export Fs Backend.

(** ** The engine *)

Inductive SqlValue : Type :=
| SqlNull
| SqlBlob (b : bytes)
| SqlText (s : string).

#[global] Instance SqlValue_eq_dec : EqDecision SqlValue.
Proof. solve_decision. Defined.

(** A connection of rusqlite.  [db_query_row] answers [None] for
    [QueryReturnedNoRows]. *)
Class Sqlite (C : Type) := {
  db_execute : string -> list SqlValue -> C -> result nat string * C;
  db_query_row : string -> list SqlValue -> C -> result (option (list SqlValue)) string * C;
  db_execute_batch : string -> C -> result unit string * C;
  db_migrate : list string -> C -> result unit string * C;
}.

(** ** The store *)

(** [MIGRATIONS] *)
Definition MIGRATIONS : list string :=
  ["CREATE TABLE IF NOT EXISTS proofs (record_id BLOB NOT NULL PRIMARY KEY, nonce BLOB NOT NULL, ciphertext BLOB NOT NULL, stored_at TEXT NOT NULL, expires_at TEXT); CREATE INDEX IF NOT EXISTS idx_expires_at ON proofs (expires_at) WHERE expires_at IS NOT NULL;"].

Definition PRAGMAS : string :=
  "PRAGMA journal_mode = WAL; PRAGMA synchronous = NORMAL; PRAGMA foreign_keys = ON; PRAGMA secure_delete = ON; PRAGMA busy_timeout = 5000;".

Definition INSERT_SQL : string :=
  "INSERT OR REPLACE INTO proofs (record_id, nonce, ciphertext, stored_at, expires_at) VALUES (?1, ?2, ?3, ?4, ?5)".

Definition SELECT_SQL : string :=
  "SELECT nonce, ciphertext, stored_at, expires_at FROM proofs WHERE record_id = ?1".

Definition DELETE_SQL : string := "DELETE FROM proofs WHERE record_id = ?1".

Definition SWEEP_SQL : string :=
  "DELETE FROM proofs WHERE expires_at IS NOT NULL AND expires_at <= ?1".

(** [SqliteStore]: the connection and whether its mutex is poisoned. *)
Record SqliteStore (C : Type) : Type := MkSqlite { sq_conn : C; sq_poisoned : bool }.
Arguments MkSqlite {C}.
Arguments sq_conn {C}.
Arguments sq_poisoned {C}.

(** [db_error], [mutex_error] *)
Definition db_error (e : string) : StorageError := Io e.
Definition mutex_error : StorageError :=
  Io "mutex poisoned: poisoned lock: another task failed inside".

(** [row.get::<_, T>(i)] *)
Definition get_blob (row : list SqlValue) (i : nat) : result bytes string :=
  match row !! i with Some (SqlBlob b) => Ok b | _ => Err "Invalid column type" end.

Definition get_text (row : list SqlValue) (i : nat) : result string string :=
  match row !! i with Some (SqlText s) => Ok s | _ => Err "Invalid column type" end.

Definition get_opt_text (row : list SqlValue) (i : nat) : result (option string) string :=
  match row !! i with
  | Some (SqlText s) => Ok (Some s)
  | Some SqlNull => Ok None
  | _ => Err "Invalid column type"
  end.

Definition opt_text (o : option string) : SqlValue :=
  match o with Some s => SqlText s | None => SqlNull end.

Section Sqlite.
Context `{Chrono} {C : Type} `{Sqlite C}.

(** [conn.lock().map_err(mutex_error)?] for the rest of the task. *)
Definition with_conn {A : Type} (f : C -> result A StorageError * C) (s : SqliteStore C) :
  result A StorageError * SqliteStore C :=
  if sq_poisoned s then (Err mutex_error, s)
  else let (r, c) := f (sq_conn s) in (r, MkSqlite c false).

(** [parse_datetime] *)
Definition parse_datetime (s : string) : result Z StorageError :=
  map_err (fun e => Io ("invalid datetime '" +:+ s +:+ "': " +:+ e)) (parse_from_rfc3339 s).

Definition sqlite_insert (record_id : RecordId) (record : StoredRecord) :
  SqliteStore C -> result unit StorageError * SqliteStore C :=
  let key := vec_to_list record_id in
  let nonce := nonce (encrypted record) in
  let ciphertext := ciphertext (encrypted record) in
  let stored_at := to_rfc3339 (stored_at record) in
  let expires_at := option_map to_rfc3339 (expires_at record) in
  with_conn (fun conn =>
    let (r, conn) := db_execute INSERT_SQL
      [SqlBlob key; SqlBlob nonce; SqlBlob ciphertext; SqlText stored_at; opt_text expires_at]
      conn in
    (result_map (fun _ => tt) (map_err db_error r), conn)).

(** The four columns of a row. *)
Definition read_row (row : list SqlValue) :
  result (bytes * bytes * string * option string) string :=
  try_r (get_blob row 0) (fun nonce =>
  try_r (get_blob row 1) (fun ciphertext =>
  try_r (get_text row 2) (fun stored_at =>
  try_r (get_opt_text row 3) (fun expires_at =>
  Ok (nonce, ciphertext, stored_at, expires_at))))).

Definition sqlite_fetch (record_id : RecordId) :
  SqliteStore C -> result StoredRecord StorageError * SqliteStore C :=
  let key := vec_to_list record_id in
  with_conn (fun conn =>
    let (r, conn) := db_query_row SELECT_SQL [SqlBlob key] conn in
    (match r with
     | Ok (Some row) =>
         try_r (map_err db_error (read_row row)) (fun '(nonce, ciphertext, stored_at, expires_at) =>
         try_r (parse_datetime stored_at) (fun stored_at =>
         try_r (match expires_at with
                | Some s => result_map Some (parse_datetime s)
                | None => Ok None
                end) (fun expires_at =>
         Ok {| encrypted := {| nonce := nonce; ciphertext := ciphertext |};
               stored_at := stored_at; expires_at := expires_at |})))
     | Ok None => Err NotFound
     | Err e => Err (db_error e)
     end, conn)).

Definition sqlite_delete (record_id : RecordId) :
  SqliteStore C -> result bool StorageError * SqliteStore C :=
  let key := vec_to_list record_id in
  with_conn (fun conn =>
    let (r, conn) := db_execute DELETE_SQL [SqlBlob key] conn in
    (result_map (fun count => (0 <? count)%nat) (map_err db_error r), conn)).

Definition sqlite_delete_expired (now : Z) :
  SqliteStore C -> result nat StorageError * SqliteStore C :=
  let now := to_rfc3339 now in
  with_conn (fun conn =>
    let (r, conn) := db_execute SWEEP_SQL [SqlText now] conn in
    (map_err db_error r, conn)).

(** *** Opening the database

    The steps of [SqliteStore::new] that touch the file system. *)
Inductive openE : Type -> Type :=
| OpenDirAll (p : Path) : openE (result unit string)
| OpenDb (p : Path) : openE (result C string)
| OpenPermissions (p : Path) (mode : Z) : openE (result unit string).

Definition sqlite_new (db_path : Path) : prog openE (result (SqliteStore C) StorageError) :=
  _ <-? match path_parent db_path with
        | Some parent => map_err_p Io (trigger (OpenDirAll parent))
        | None => Ret (Ok tt)
        end;
  conn <-? map_err_p db_error (trigger (OpenDb db_path));
  let (r, conn) := db_execute_batch PRAGMAS conn in
  _ <-? Ret (map_err db_error r);
  let (r, conn) := db_migrate MIGRATIONS conn in
  _ <-? Ret (map_err (fun e => Io ("Migration failed: " +:+ e)) r);
  _ <-? map_err_p Io (trigger (OpenPermissions db_path mode_600));
  Ret (Ok (MkSqlite conn false)).

#[global] Instance sqlite_backend : StorageBackend (SqliteStore C) := {|
  sb_insert := sqlite_insert;
  sb_fetch := sqlite_fetch;
  sb_delete := sqlite_delete;
  sb_delete_expired := sqlite_delete_expired;
|}.
End Sqlite.
Arguments openE C : clear implicits.

(** ** What the statements do

    A table of rows under their primary key. *)
Record Row : Type := MkRow {
  row_nonce : list Byte.byte;
  row_ciphertext : list Byte.byte;
  row_stored_at : string;
  row_expires_at : option string;
}.

Abbreviation Table := (gmap (list Byte.byte) Row).

Definition row_values (r : Row) : list SqlValue :=
  [SqlBlob (row_nonce r); SqlBlob (row_ciphertext r); SqlText (row_stored_at r);
   opt_text (row_expires_at r)].

(** The rows [SWEEP_SQL] keeps: TEXT values compare bytewise. *)
Definition row_stays (now : string) (r : Row) : bool :=
  match row_expires_at r with Some e => negb (text_le e now) | None => true end.

Definition table_sweep (now : string) (T : Table) : Table :=
  filter (fun kr => row_stays now kr.2 = true) T.

(** A statement takes effect as a whole or reports an error and changes
    nothing; it answers the number of rows it removed or wrote.  [db_ready]:
    the table has been created.  [db_sound]: no statement will fail. *)
Class SqliteLaws (C : Type) `{Sqlite C} := {
  db_table : C -> Table -> Prop;
  db_sound : C -> Prop;
  (** a connection just opened to a database with these rows, none if it has no
      table yet *)
  db_file : C -> Table -> Prop;
  db_batch_law c T : db_file c T -> db_file (db_execute_batch PRAGMAS c).2 T;
  db_migrate_law c T :
    db_file c T ->
    let '(r, c') := db_migrate MIGRATIONS c in is_ok r = true -> db_table c' T;
  db_insert_law c T k n ct s e :
    db_table c T ->
    let '(r, c') := db_execute INSERT_SQL [SqlBlob k; SqlBlob n; SqlBlob ct; SqlText s; opt_text e] c in
    match r with
    | Ok _ => db_table c' (<[k := MkRow n ct s e]> T)
    | Err _ => db_table c' T /\ ~ db_sound c
    end /\ (db_sound c -> db_sound c');
  db_select_law c T k :
    db_table c T ->
    let '(r, c') := db_query_row SELECT_SQL [SqlBlob k] c in
    db_table c' T /\
    match r with
    | Ok o => o = row_values <$> T !! k
    | Err _ => ~ db_sound c
    end /\ (db_sound c -> db_sound c');
  db_delete_law c T k :
    db_table c T ->
    let '(r, c') := db_execute DELETE_SQL [SqlBlob k] c in
    match r with
    | Ok n => db_table c' (delete k T) /\ n = match T !! k with Some _ => 1%nat | None => 0%nat end
    | Err _ => db_table c' T /\ ~ db_sound c
    end /\ (db_sound c -> db_sound c');
  db_sweep_law c T now :
    db_table c T ->
    let '(r, c') := db_execute SWEEP_SQL [SqlText now] c in
    match r with
    | Ok n => db_table c' (table_sweep now T) /\ n = (size T - size (table_sweep now T))%nat
    | Err _ => db_table c' T /\ ~ db_sound c
    end /\ (db_sound c -> db_sound c');
}.

(** ** The contract *)

#[global] Instance vec_to_list_byte_inj n : Inj (=) (=) (@vec_to_list byte n).
Proof. intros u v. apply vec_to_list_inj2. Qed.

Section Contract.
Context `{ChronoLaws} {C : Type} `{SqliteLaws C}.
Implicit Types (s : SqliteStore C) (m : Records) (id : RecordId).

Definition row_of (r : StoredRecord) : Row :=
  MkRow (nonce (encrypted r)) (ciphertext (encrypted r)) (to_rfc3339 (stored_at r))
    (option_map to_rfc3339 (expires_at r)).

Definition table_of (m : Records) : Table := kmap vec_to_list (row_of <$> m).

Definition texts_ok (m : Records) : Prop := map_Forall (fun _ r => record_times in_rfc3339 r) m.

Definition sqlite_rep (s : SqliteStore C) (m : Records) : Prop :=
  sq_poisoned s = false /\ db_table (sq_conn s) (table_of m) /\ texts_ok m.

Lemma table_lookup m id : table_of m !! vec_to_list id = row_of <$> m !! id.
Proof. unfold table_of. by rewrite (lookup_kmap _), lookup_fmap. Qed.

Lemma table_insert m id r : <[vec_to_list id := row_of r]> (table_of m) = table_of (<[id := r]> m).
Proof. unfold table_of. by rewrite fmap_insert, (kmap_insert _). Qed.

Lemma table_delete m id : delete (vec_to_list id) (table_of m) = table_of (delete id m).
Proof. unfold table_of. by rewrite fmap_delete, (kmap_delete _). Qed.

(** The comparison of texts is the comparison of instants. *)
Lemma row_stays_live now r :
  in_rfc3339 now -> record_times in_rfc3339 r ->
  row_stays (to_rfc3339 now) (row_of r) = live_at now r.
Proof.
  intros Hnow [_ Hr]. unfold row_stays, live_at; cbn. destruct (expires_at r) as [t|]; [|done].
  cbn in *. rewrite to_rfc3339_le by done. by rewrite Z.leb_antisym, negb_involutive.
Qed.

Lemma table_of_sweep now m :
  in_rfc3339 now -> texts_ok m ->
  table_sweep (to_rfc3339 now) (table_of m) = table_of (sweep now m).
Proof.
  intros Hnow Hm. unfold table_sweep, table_of.
  etrans; [exact (filter_kmap (K1 := RecordId) vec_to_list
                    (fun r => row_stays (to_rfc3339 now) r = true) (row_of <$> m))|].
  f_equal. unfold sweep. rewrite map_filter_fmap. f_equal.
  apply map_filter_ext. intros id r Hid. cbn. rewrite row_stays_live; [done..|]. by eapply Hm.
Qed.

Lemma table_size m : size (table_of m) = size m.
Proof. unfold table_of. by rewrite (size_kmap (K1 := RecordId) vec_to_list (row_of <$> m)), map_size_fmap. Qed.

(** A row that was written reads back as the record. *)
Lemma read_row_of r : read_row (row_values (row_of r)) =
  Ok (nonce (encrypted r), ciphertext (encrypted r), to_rfc3339 (stored_at r),
      option_map to_rfc3339 (expires_at r)).
Proof. unfold read_row. cbn. by destruct (expires_at r). Qed.

Lemma parse_written t : in_rfc3339 t -> parse_datetime (to_rfc3339 t) = Ok t.
Proof. intros Ht. unfold parse_datetime. by rewrite parse_to_rfc3339. Qed.

Lemma fetch_written r :
  record_times in_rfc3339 r ->
  (try_r (map_err db_error (read_row (row_values (row_of r))))
     (fun '(nonce, ciphertext, stored_at, expires_at) =>
     try_r (parse_datetime stored_at) (fun stored_at =>
     try_r (match expires_at with
            | Some s => result_map Some (parse_datetime s)
            | None => Ok None
            end) (fun expires_at =>
     Ok {| encrypted := {| nonce := nonce; ciphertext := ciphertext |};
           stored_at := stored_at; expires_at := expires_at |})))) = Ok r.
Proof.
  intros [Hs He]. rewrite read_row_of. cbn. rewrite parse_written by done. cbn.
  destruct r as [[n c] st [t|]]; cbn in *; [|done]. by rewrite parse_written.
Qed.
End Contract.

Section Laws.
Context `{ChronoLaws} {C : Type} `{SqliteLaws C}.
Implicit Types (s : SqliteStore C) (m : Records) (id : RecordId).

(** What both kinds of law say of one operation. *)
Definition sqlite_meets {A : Type} (s : SqliteStore C) (as_ : result A StorageError * SqliteStore C)
    (post : result A StorageError -> Records -> Prop) (fine : result A StorageError -> Prop) : Prop :=
  (exists m', sqlite_rep as_.2 m' /\ post as_.1 m') /\
  (db_sound (sq_conn s) -> fine as_.1 /\ db_sound (sq_conn as_.2)).

Lemma sqlite_insert_meets id r s m :
  sqlite_rep s m -> record_times in_rfc3339 r ->
  sqlite_meets s (sqlite_insert id r s) (insert_post id r m) (fun a => is_ok a = true).
Proof.
  intros (Hp & HT & Hm) Hr. unfold sqlite_meets, sqlite_insert, with_conn. rewrite Hp.
  pose proof (db_insert_law (sq_conn s) _ (vec_to_list id) (nonce (encrypted r))
                (ciphertext (encrypted r)) (to_rfc3339 (stored_at r))
                (option_map to_rfc3339 (expires_at r)) HT) as Hlaw.
  destruct (db_execute _ _ _) as [[n|e] c]; cbn in *; destruct Hlaw as [Hres Hs].
  - split; [|by auto]. exists (<[id := r]> m). split; [|done]. split_and!; [done| |].
    + by rewrite <- table_insert.
    + by apply map_Forall_insert_2.
  - destruct Hres as [HT' Hn]. split; [|done]. exists m. by split_and!; [..|auto].
Qed.

Lemma sqlite_fetch_meets id s m :
  sqlite_rep s m ->
  sqlite_meets s (sqlite_fetch id s) (fetch_post id m) (fun a => a = ok_or (m !! id) NotFound).
Proof.
  intros (Hp & HT & Hm). unfold sqlite_meets, sqlite_fetch, with_conn. rewrite Hp.
  pose proof (db_select_law (sq_conn s) _ (vec_to_list id) HT) as Hlaw.
  rewrite table_lookup in Hlaw.
  destruct (db_query_row _ _ _) as [[o|e] c]; cbn [fst snd] in *; destruct Hlaw as (HT' & Hres & Hs).
  - subst o. destruct (m !! id) as [r|] eqn:Hr; cbn [fmap option_fmap option_map].
    + rewrite fetch_written by by eapply Hm. split; [|by auto]. by exists m.
    + split; [|by auto]. by exists m.
  - split; [|done]. by exists m.
Qed.

Lemma sqlite_delete_meets id s m :
  sqlite_rep s m ->
  sqlite_meets s (sqlite_delete id s) (delete_post id m) (fun a => is_ok a = true).
Proof.
  intros (Hp & HT & Hm). unfold sqlite_meets, sqlite_delete, with_conn. rewrite Hp.
  pose proof (db_delete_law (sq_conn s) _ (vec_to_list id) HT) as Hlaw.
  rewrite table_lookup, table_delete in Hlaw.
  destruct (db_execute _ _ _) as [[n|e] c]; cbn in *; destruct Hlaw as [Hres Hs].
  - destruct Hres as [HT' ->]. split; [|by auto]. exists (delete id m).
    split; [split_and!; [done..|by apply map_Forall_delete]|].
    split; [|done]. by destruct (m !! id).
  - destruct Hres as [HT' Hn]. split; [|done]. exists m. by split_and!; [..|auto].
Qed.

Lemma sqlite_sweep_meets now s m :
  sqlite_rep s m -> in_rfc3339 now ->
  sqlite_meets s (sqlite_delete_expired now s) (sweep_post now m) (fun a => is_ok a = true).
Proof.
  intros (Hp & HT & Hm) Hnow. unfold sqlite_meets, sqlite_delete_expired, with_conn. rewrite Hp.
  pose proof (db_sweep_law (sq_conn s) _ (to_rfc3339 now) HT) as Hlaw.
  rewrite table_of_sweep, !table_size in Hlaw by done.
  destruct (db_execute _ _ _) as [[n|e] c]; cbn in *; destruct Hlaw as [Hres Hs].
  - destruct Hres as [HT' ->]. split; [|by auto]. exists (sweep now m).
    split; [split_and!; [done..|]|done]. intros id r [Hr _]%lookup_sweep. by eapply Hm.
  - destruct Hres as [HT' Hn]. split; [|done]. exists m. by split_and!; [..|auto].
Qed.

#[global] Program Instance sqlite_backend_laws : BackendLaws (SqliteStore C) := {|
  sb_rep := sqlite_rep;
  sb_time := in_rfc3339;
  sb_healthy s := db_sound (sq_conn s);
|}.
Next Obligation. intros id r s m Hm Hr. by apply sqlite_insert_meets. Qed.
Next Obligation. intros id s m Hm. by apply sqlite_fetch_meets. Qed.
Next Obligation. intros id s m Hm. by apply sqlite_delete_meets. Qed.
Next Obligation. intros now s m Hm Ht. by apply sqlite_sweep_meets. Qed.
Next Obligation. intros id r s m Hm Hh Hr. by eapply sqlite_insert_meets. Qed.
Next Obligation.
  intros id s m Hm Hh. destruct (sqlite_fetch_meets id s m Hm) as [_ Hf].
  destruct (Hf Hh) as [Ha Hn]. cbn in *. rewrite Ha. split_and!; [|by intros ->|done].
  by destruct (m !! id).
Qed.
Next Obligation. intros id s m Hm Hh. by eapply sqlite_delete_meets. Qed.
Next Obligation. intros now s m Hm Hh Ht. by eapply sqlite_sweep_meets. Qed.
End Laws.
