(* ===== verification/AnyBackend.v ===== *)
(** src/storage/mod.rs: the enumeration that dispatches to one of the two
    stores, and the contract for it. *)
From S2P Require Export LocalBackend Sqlite.

Inductive AnyBackend (C : Type) : Type :=
| BackendFile (s : LocalBackend)
| BackendSqlite (s : SqliteStore C).
Arguments BackendFile {C} s.
Arguments BackendSqlite {C} s.

Section AnyBackend.
Context `{Base64, UuidFmt, Chrono, SerdeJson} {C : Type} `{Sqlite C}.

(** One arm per store; the other store cannot appear. *)
Definition dispatch {A : Type} (file : LocalBackend -> A * LocalBackend)
    (sqlite : SqliteStore C -> A * SqliteStore C) (b : AnyBackend C) : A * AnyBackend C :=
  match b with
  | BackendFile s => ((file s).1, BackendFile (file s).2)
  | BackendSqlite s => ((sqlite s).1, BackendSqlite (sqlite s).2)
  end.

#[global] Instance any_backend : StorageBackend (AnyBackend C) := {|
  sb_insert record_id record := dispatch (sb_insert record_id record) (sb_insert record_id record);
  sb_fetch record_id := dispatch (sb_fetch record_id) (sb_fetch record_id);
  sb_delete record_id := dispatch (sb_delete record_id) (sb_delete record_id);
  sb_delete_expired now := dispatch (sb_delete_expired now) (sb_delete_expired now);
|}.
End AnyBackend.

Section Laws.
Context `{Base64Laws, UuidFmtLaws, ChronoLaws, SerdeJsonLaws} {C : Type} `{SqliteLaws C}.

Definition any_rep (b : AnyBackend C) (m : Records) : Prop :=
  match b with BackendFile s => sb_rep s m | BackendSqlite s => sb_rep s m end.

Definition any_healthy (b : AnyBackend C) : Prop :=
  match b with BackendFile s => sb_healthy s | BackendSqlite s => sb_healthy s end.

Lemma record_times_rfc3339 r : record_times in_rfc3339 r -> record_times representable r.
Proof. apply record_times_impl, in_rfc3339_representable. Qed.

(** The instants both stores accept. *)
#[global] Program Instance any_backend_laws : BackendLaws (AnyBackend C) := {|
  sb_rep := any_rep;
  sb_time := in_rfc3339;
  sb_healthy := any_healthy;
|}.
Next Obligation.
  intros id r [s|s] m Hm Hr; [|exact (sb_insert_law id r s m Hm Hr)].
  exact (sb_insert_law id r s m Hm (record_times_rfc3339 r Hr)).
Qed.
Next Obligation. intros id [s|s] m Hm; exact (sb_fetch_law id s m Hm). Qed.
Next Obligation. intros id [s|s] m Hm; exact (sb_delete_law id s m Hm). Qed.
Next Obligation.
  intros now [s|s] m Hm Ht; [|exact (sb_sweep_law now s m Hm Ht)].
  exact (sb_sweep_law now s m Hm (in_rfc3339_representable _ Ht)).
Qed.
Next Obligation.
  intros id r [s|s] m Hm Hh Hr; [|exact (sb_insert_healthy id r s m Hm Hh Hr)].
  exact (sb_insert_healthy id r s m Hm Hh (record_times_rfc3339 r Hr)).
Qed.
Next Obligation. intros id [s|s] m Hm Hh; exact (sb_fetch_healthy id s m Hm Hh). Qed.
Next Obligation. intros id [s|s] m Hm Hh; exact (sb_delete_healthy id s m Hm Hh). Qed.
Next Obligation.
  intros now [s|s] m Hm Hh Ht; [|exact (sb_sweep_healthy now s m Hm Hh Ht)].
  exact (sb_sweep_healthy now s m Hm Hh (in_rfc3339_representable _ Ht)).
Qed.
End Laws.
