(* ===== verification/SqliteModel.v ===== *)
(** An executable engine for the statements of Sqlite.v, with its laws: the
    witnesses run the store on it. *)
From S2P Require Export Sqlite.

(** The table, and what goes wrong from the [k]-th statement on. *)
Record Engine : Type := MkEngine { eng_table : Table; eng_left : option nat }.

Definition opt_of (v : SqlValue) : option (option string) :=
  match v with SqlText s => Some (Some s) | SqlNull => Some None | _ => None end.

(** One statement: it fails once the budget of good statements is spent. *)
Definition spend {A : Type} (c : Engine) (ok : A * Table) : result A string * Engine :=
  match eng_left c with
  | None => (Ok ok.1, MkEngine ok.2 None)
  | Some O => (Err "disk I/O error", c)
  | Some (S n) => (Ok ok.1, MkEngine ok.2 (Some n))
  end.

#[global] Instance engine : Sqlite Engine := {|
  db_execute sql ps c :=
    let T := eng_table c in
    match ps with
    | [SqlBlob k; SqlBlob n; SqlBlob ct; SqlText s; e] =>
        match opt_of e with
        | Some e => if bool_decide (sql = INSERT_SQL) then spend c (1%nat, <[k := MkRow n ct s e]> T)
                    else (Err "syntax error", c)
        | None => (Err "datatype mismatch", c)
        end
    | [SqlBlob k] =>
        if bool_decide (sql = DELETE_SQL)
        then spend c (match T !! k with Some _ => 1%nat | None => 0%nat end, delete k T)
        else (Err "syntax error", c)
    | [SqlText now] =>
        if bool_decide (sql = SWEEP_SQL)
        then spend c ((size T - size (table_sweep now T))%nat, table_sweep now T)
        else (Err "syntax error", c)
    | _ => (Err "wrong number of parameters", c)
    end;
  db_query_row sql ps c :=
    let T := eng_table c in
    match ps with
    | [SqlBlob k] => if bool_decide (sql = SELECT_SQL) then spend c (row_values <$> T !! k, T)
                     else (Err "syntax error", c)
    | _ => (Err "wrong number of parameters", c)
    end;
  db_execute_batch _ c := (Ok tt, c);
  db_migrate _ c := (Ok tt, c);
|}.

Lemma opt_of_text e : opt_of (opt_text e) = Some e.
Proof. by destruct e. Qed.

Ltac engine_statement :=
  rewrite bool_decide_true by done;
  match goal with c : Engine |- _ => destruct c as [T [[|j]|]] end; cbn; split_and!; done.

#[global] Program Instance engine_laws : SqliteLaws Engine := {|
  db_table c T := eng_table c = T;
  db_sound c := eng_left c = None;
  db_file c T := eng_table c = T;
|}.
Next Obligation. cbn. by intros c T ->. Qed.
Next Obligation. cbn. by intros c T ->. Qed.
Next Obligation. cbn. intros c T' k n ct s e <-. rewrite opt_of_text. engine_statement. Qed.
Next Obligation. cbn. intros c T' k <-. engine_statement. Qed.
Next Obligation. cbn. intros c T' k <-. engine_statement. Qed.
Next Obligation. cbn. intros c T' now <-. engine_statement. Qed.
