(* ===== verification/StorageProperties.v ===== *)
(** The properties of the SQLite store and of the storage layer as a whole, with
    their witnesses. *)
From Stdlib Require Import Ascii.
From S2P Require Export AnyBackend SqliteModel LocalProperties.

(** ** Concrete stores for the witnesses *)

Module StorageSample.
Import LocalSample.

Definition sqlite_store : SqliteStore Engine := MkSqlite (MkEngine ∅ None) false.
Definition file_store : AnyBackend Engine := BackendFile (MkLocalBackend store opened).

(** A record that expires at the start of the year 10000. *)
Definition far_record : StoredRecord :=
  MkStored (encrypted record) (stored_at record) (Some (rfc3339_max + 1)).
Definition far_store : SqliteStore Engine :=
  MkSqlite (MkEngine (<[vec_to_list Sample.id1 := row_of far_record]> ∅) None) false.

Definition calls : list (Z * DiskCall) :=
  [(clock 0, DInsert Sample.id1 record); (clock 1, DFetch Sample.id1); (clock 2, DDeleteExpired);
   (clock 3, DDelete Sample.id1); (clock 4, DFetch Sample.id1)].

(** A file system that grants every step. *)
Definition grants : handler (openE Engine) unit := fun X e _ =>
  match e in openE _ X return option (X * unit) with
  | OpenDirAll _ => Some (Ok tt, tt)
  | OpenDb _ => Some (Ok (MkEngine ∅ None), tt)
  | OpenPermissions _ _ => Some (Ok tt, tt)
  end.
End StorageSample.

Section Sqlite.
Context `{ChronoLaws} {C : Type} `{SqliteLaws C}.

(** C13: every operation of the SQLite store meets the storage contract on the
    records its rows decode to, for instants of the four-digit years: a failed
    statement changes nothing and reports an error other than [NotFound], and a
    sweep that compares RFC 3339 texts removes exactly the records whose expiry
    has been reached. *)
Theorem sqlite_op_meets_contract now c (s : SqliteStore C) m :
  sqlite_rep s m -> in_rfc3339 now -> disk_ok in_rfc3339 c ->
  exists m', sqlite_rep (backend_serve now c s).2 m' /\
    disk_post now c m (backend_serve now c s).1 m' /\
    (db_sound (sq_conn s) -> (backend_serve now c s).1 = disk_answer now c m).
Proof.
  intros Hm Hnow Hc. change (sb_rep s m) in Hm. change (sb_time (S := SqliteStore C) now) in Hnow.
  change (disk_ok (sb_time (S := SqliteStore C)) c) in Hc.
  destruct (backend_serve_post (S := SqliteStore C) now c s m Hm Hnow Hc) as (m' & Hm' & Hp).
  exists m'. split_and!; [done..|]. intros Hs. change (sb_healthy s) in Hs.
  by destruct (backend_serve_healthy (S := SqliteStore C) now c s m Hm Hs Hnow Hc) as (s' & _ & _ & ->).
Qed.

(** Opening a database keeps the records it has and gives a store in its
    invariant; an error of any step is reported and yields no store. *)
Theorem sqlite_open_keeps_records {W : Type} (h : handler (openE C) W) p w m o w' :
  (forall w c w', h _ (OpenDb p) w = Some (Ok c, w') -> db_file c (table_of m)) ->
  texts_ok m -> run h (sqlite_new p) w = (o, w') ->
  match o with
  | Done (Ok s) => sqlite_rep s m
  | Done (Err e) => exists msg, e = Io msg
  | Panicked => False
  | Blocked => True
  end.
Proof.
  intros Hopen Hm Hrun. unfold sqlite_new in Hrun. rewrite run_try in Hrun.
  assert (Hdir : forall p, exists r w', run h (map_err_p Io (trigger (OpenDirAll p))) w = (r, w') /\
            match r with Done (Err e) => exists msg, e = Io msg | Panicked => False | _ => True end).
  { intros q. cbn. destruct (h _ _ w) as [[[[]|e] w1]|]; cbn; do 2 eexists; (split; [reflexivity|]); cbn; eauto. }
  assert (Hd : exists r w1, run h (match path_parent p with
            | Some parent => map_err_p Io (trigger (OpenDirAll parent))
            | None => Ret (Ok tt) end) w = (r, w1) /\
            match r with Done (Err e) => exists msg, e = Io msg | Panicked => False | _ => True end).
  { destruct (path_parent p); [apply Hdir|]. by do 2 eexists. }
  destruct Hd as (r & w1 & Hr & Hres). rewrite Hr in Hrun.
  destruct r as [[[]|e]| |]; simplify_eq; try done.
  cbn in Hrun. destruct (h _ (OpenDb p) w1) as [[[c|e] w2]|] eqn:Ho; cbn in Hrun; simplify_eq;
    [|by eexists|done].
  pose proof (db_batch_law c _ (Hopen _ _ _ Ho)) as Hb.
  destruct (db_execute_batch PRAGMAS c) as [[[]|e] c1]; cbn in *; simplify_eq; [|by eexists].
  pose proof (db_migrate_law c1 _ Hb) as Hmig.
  destruct (db_migrate MIGRATIONS c1) as [[[]|e] c2]; cbn in *; simplify_eq; [|by eexists].
  destruct (h _ (OpenPermissions p mode_600) w2) as [[[[]|e] w3]|]; cbn in Hrun; simplify_eq;
    [|by eexists|done].
  split_and!; [done|by apply Hmig|done].
Qed.

(** A record whose expiry lies beyond the year 9999 is removed by the next
    sweep: chrono writes such a year with a leading plus sign, which sorts
    before every digit. *)
Theorem sqlite_sweep_drops_far_future now (id : RecordId) r (s : SqliteStore C) T t u :
  sq_poisoned s = false -> db_table (sq_conn s) T -> db_sound (sq_conn s) ->
  T !! vec_to_list id = Some (row_of r) -> expires_at r = Some t -> now < t ->
  to_rfc3339 t = String "+" u ->
  (exists c v, to_rfc3339 now = String c v /\ (N_of_ascii "+" < N_of_ascii c)%N) ->
  exists n T', (sqlite_delete_expired now s).1 = Ok n /\
    db_table (sq_conn (sqlite_delete_expired now s).2) T' /\ T' !! vec_to_list id = None.
Proof.
  intros Hp HT Hs Hid Ht Hlt Hplus (c & v & Hnow & Hc).
  unfold sqlite_delete_expired, with_conn. rewrite Hp.
  pose proof (db_sweep_law (sq_conn s) T (to_rfc3339 now) HT) as Hlaw.
  destruct (db_execute _ _ _) as [[n|e] c']; cbn in *; destruct Hlaw as [Hres _].
  2:{ by destruct Hres. }
  destruct Hres as [HT' _]. exists n, (table_sweep (to_rfc3339 now) T). split_and!; [done..|].
  apply map_lookup_filter_None. right. intros row Hrow Hstay. rewrite Hid in Hrow. simplify_eq.
  cbn in Hstay. unfold row_stays, row_of in Hstay; cbn in Hstay. rewrite Ht in Hstay. cbn in Hstay.
  rewrite Hplus, Hnow in Hstay. unfold text_le, String.leb in Hstay. cbn -[N_of_ascii] in Hstay.
  unfold Ascii.compare in Hstay. apply N.compare_lt_iff in Hc.
  cbn in Hc, Hstay. by rewrite Hc in Hstay.
Qed.
End Sqlite.

(** Two backends that meet the contract and hold the same records are
    indistinguishable: without storage failures they answer every sequence of
    calls alike.  In particular the file store, the SQLite store and the
    dispatching enumeration agree with the reference map. *)
Theorem backends_agree {S1 S2 : Type} `{BackendLaws S1, BackendLaws S2} cs (s1 : S1) (s2 : S2) m :
  sb_rep s1 m -> sb_rep s2 m -> sb_healthy s1 -> sb_healthy s2 ->
  Forall (fun nc => sb_time (S := S1) nc.1 /\ sb_time (S := S2) nc.1 /\
            disk_ok (fun t => sb_time (S := S1) t /\ sb_time (S := S2) t) nc.2) cs ->
  (backend_serve_all cs s1).1 = (backend_serve_all cs s2).1.
Proof.
  revert s1 s2 m. induction cs as [|[now c] cs IH]; intros s1 s2 m Hm1 Hm2 Hh1 Hh2 Hcs; [done|].
  apply Forall_cons in Hcs as ((Ht1 & Ht2 & Hc) & Hcs). cbn in *.
  destruct (backend_serve_healthy now c s1 m Hm1 Hh1 Ht1) as (s1' & Hm1' & Hh1' & ->).
  { destruct c; [|done..]. by eapply record_times_impl; [|exact Hc]; intros t []. }
  destruct (backend_serve_healthy now c s2 m Hm2 Hh2 Ht2) as (s2' & Hm2' & Hh2' & ->).
  { destruct c; [|done..]. by eapply record_times_impl; [|exact Hc]; intros t []. }
  specialize (IH s1' s2' _ Hm1' Hm2' Hh1' Hh2' Hcs).
  destruct (backend_serve_all cs s1'), (backend_serve_all cs s2'). cbn in *. by rewrite IH.
Qed.

(** ** Witnesses *)

Section Witnesses.
Import LocalSample StorageSample.

Lemma sqlite_store_rep : sqlite_rep sqlite_store ∅.
Proof.
  split_and!; [done| |apply map_Forall_empty]. unfold table_of. by rewrite fmap_empty, kmap_empty.
Defined.

Lemma sqlite_op_meets_contract_witness :
  exists m', sqlite_rep (backend_serve (clock 0) (DInsert Sample.id1 record) sqlite_store).2 m' /\
    disk_post (clock 0) (DInsert Sample.id1 record) ∅
      (backend_serve (clock 0) (DInsert Sample.id1 record) sqlite_store).1 m' /\
    (db_sound (sq_conn sqlite_store) ->
     (backend_serve (clock 0) (DInsert Sample.id1 record) sqlite_store).1 =
     disk_answer (clock 0) (DInsert Sample.id1 record) ∅).
Proof.
  apply (sqlite_op_meets_contract (clock 0) (DInsert Sample.id1 record) sqlite_store ∅).
  - apply sqlite_store_rep.
  - done.
  - by repeat split.
Defined.

Lemma sqlite_open_keeps_records_witness :
  match (run grants (sqlite_new (C := Engine) path) tt).1 with
  | Done (Ok s) => sqlite_rep s ∅
  | Done (Err e) => exists msg, e = Io msg
  | Panicked => False
  | Blocked => True
  end.
Proof.
  apply (sqlite_open_keeps_records grants path tt ∅ _
           (run grants (sqlite_new (C := Engine) path) tt).2).
  - intros w c w' [= <- <-]. cbn. unfold table_of. by rewrite fmap_empty, kmap_empty.
  - apply map_Forall_empty.
  - by vm_compute.
Defined.

Lemma sqlite_sweep_drops_far_future_witness :
  exists n T', (sqlite_delete_expired (clock 0) far_store).1 = Ok n /\
    db_table (sq_conn (sqlite_delete_expired (clock 0) far_store).2) T' /\
    T' !! vec_to_list Sample.id1 = None.
Proof.
  apply (sqlite_sweep_drops_far_future (clock 0) Sample.id1 far_record far_store
           (eng_table (sq_conn far_store)) (rfc3339_max + 1)
           (decimal 23 (rfc3339_max + 1 - rfc3339_min))); try done; try by vm_compute.
  do 2 eexists. split; [vm_compute; reflexivity|by vm_compute].
Defined.

Lemma backends_agree_witness :
  (backend_serve_all calls file_store).1 = (backend_serve_all calls sqlite_store).1.
Proof.
  apply (backends_agree calls file_store sqlite_store ∅).
  - split; [apply opened_unlocked|apply opened_rep].
  - apply sqlite_store_rep.
  - intros n _. by vm_compute.
  - done.
  - repeat constructor; done.
Defined.
End Witnesses.
