(* ===== verification/Auth.v ===== *)
(** src/auth.rs: the bearer-token middleware, as a transformer of the service it
    wraps. *)
From S2P Require Export Vault.

(** ** Requests and responses *)

Record HttpRequest (B : Type) : Type := MkRequest {
  req_headers : list (string * bytes);
  req_body : B;
}.
Arguments MkRequest {B}.
Arguments req_headers {B}.
Arguments req_body {B}.

Record HttpResponse (R : Type) : Type := MkResponse {
  resp_status : Z;
  resp_headers : list (string * string);
  resp_body : R;
}.
Arguments MkResponse {R}.
Arguments resp_status {R}.
Arguments resp_headers {R}.
Arguments resp_body {R}.

(** [HeaderMap::get]: the first value under the name. *)
Definition header_get (name : string) (hs : list (string * bytes)) : option bytes :=
  snd <$> head (filter (fun h => h.1 = name) hs).

(** [str::strip_prefix] *)
Fixpoint strip_prefix (p s : string) : option string :=
  match p, s with
  | EmptyString, _ => Some s
  | String a p', String b s' => if bool_decide (a = b) then strip_prefix p' s' else None
  | _, _ => None
  end.

(** The double quote. *)
Definition dquote : string := String (Ascii.ascii_of_nat 34) EmptyString.

(** ** The layer *)

Record BearerAuthLayer : Type := MkLayer { layer_token : option string }.

Definition layer_new (token : string) : BearerAuthLayer := {| layer_token := Some token |}.

Definition layer_disabled : BearerAuthLayer := {| layer_token := None |}.

(** [BearerAuthLayer::from_config] *)
Definition layer_from_config (token : option string) : BearerAuthLayer :=
  match token with
  | Some t => if bool_decide (t = EmptyString) then layer_disabled else layer_new t
  | None => layer_disabled
  end.

Section Auth.
Context `{Http, Subtle} {B R : Type} `{Inhabited R}.

(** A service: what it does with one request. *)
Definition service : Type := HttpRequest B -> prog vaultE (HttpResponse R).

Record BearerAuthService : Type := MkService { svc_inner : service; svc_token : option string }.

(** [Layer::layer] *)
Definition auth_layer (l : BearerAuthLayer) (inner : service) : BearerAuthService :=
  {| svc_inner := inner; svc_token := layer_token l |}.

(** The token a request presents. *)
Definition provided_token (req : HttpRequest B) : option bytes :=
  v ← header_get "authorization" (req_headers req);
  s ← header_to_str v;
  t ← strip_prefix "Bearer " s;
  Some (as_bytes t).

(** The 401 answer; its body is [RespBody::default()]. *)
Definition unauthorized : HttpResponse R :=
  {| resp_status := 401;
     resp_headers := [("www-authenticate", "Bearer realm=" +:+ dquote +:+ "tari_vault" +:+ dquote)];
     resp_body := inhabitant |}.

(** [BearerAuthService::call] *)
Definition auth_call (s : BearerAuthService) (req : HttpRequest B) : prog vaultE (HttpResponse R) :=
  match svc_token s with
  | None => svc_inner s req
  | Some expected =>
      let provided := provided_token req in
      let auth_ok := from_option (fun p => ct_eq p (as_bytes expected)) false provided in
      if auth_ok then svc_inner s req
      else
        _ ← trigger (Log (MkLog Warn "tari_vault::auth"
                            "Rejected request: missing or invalid Bearer token"));
        Ret unauthorized
  end.
End Auth.
Arguments service B R : clear implicits.
Arguments BearerAuthService B R : clear implicits.

(** ** Lemmas *)

Lemma strip_prefix_iff p s t : strip_prefix p s = Some t <-> s = p +:+ t.
Proof.
  revert s. induction p as [|a p IH]; intros s; cbn; [split; [by intros [= ->]|by intros ->]|].
  destruct s as [|b s]; [done|]. change (String a p +:+ t) with (String a (p +:+ t)).
  case_bool_decide as Hab; [subst; rewrite IH; split; [by intros ->|by intros [= ->]]|].
  split; congruence.
Qed.

#[global] Arguments strip_prefix : simpl never.

Section Lemmas.
Context `{HttpLaws, SubtleLaws} {B R : Type} `{Inhabited R}.

(** A request carries the token exactly when its first [Authorization] header
    is the text [Bearer <token>] in visible ASCII. *)
Definition carries (token : string) (req : HttpRequest B) : Prop :=
  header_get "authorization" (req_headers req) = Some (as_bytes ("Bearer " +:+ token)) /\
  forallb visible_ascii (as_bytes token) = true.

Lemma provided_iff token req :
  provided_token req = Some (as_bytes token) <-> carries token req.
Proof.
  unfold provided_token, carries. destruct (header_get _ _) as [v|]; cbn; [|naive_solver].
  rewrite header_to_str_spec. split.
  - destruct (forallb visible_ascii v) eqn:Hv; cbn; [|done].
    destruct (strip_prefix "Bearer " (of_bytes v)) as [t|] eqn:Ht; cbn; [|done].
    intros [= <-%(inj as_bytes)]. apply strip_prefix_iff in Ht.
    assert (v = as_bytes ("Bearer " +:+ t)) as ->
      by (apply (inj of_bytes); by rewrite of_bytes_as_bytes).
    split; [done|]. rewrite as_bytes_app, forallb_app in Hv. by apply andb_prop in Hv as [_ Hv].
  - intros [[= ->] Hv]. rewrite as_bytes_app, forallb_app, Hv. cbn [andb].
    change (forallb visible_ascii (as_bytes "Bearer ")) with true. cbn [andb mbind option_bind].
    rewrite <- as_bytes_app, of_bytes_as_bytes, (proj2 (strip_prefix_iff "Bearer " _ token) eq_refl).
    done.
Qed.

Lemma auth_ok_iff token req :
  from_option (fun p => ct_eq p (as_bytes token)) false (provided_token req) = true <->
  carries token req.
Proof.
  rewrite <- provided_iff. destruct (provided_token req) as [p|]; cbn; [|split; congruence].
  rewrite ct_eq_spec. split; congruence.
Qed.

(** The requests a configured token lets through. *)
Definition admitted (token : option string) (req : HttpRequest B) : Prop :=
  match token with
  | Some t => t <> EmptyString -> carries t req
  | None => True
  end.

Lemma auth_call_admitted token (inner : service B R) req :
  admitted token req -> auth_call (auth_layer (layer_from_config token) inner) req = inner req.
Proof.
  intros Ha. unfold auth_call, auth_layer, layer_from_config. destruct token as [t|]; cbn in *; [|done].
  case_bool_decide as Ht; cbn; [done|]. by rewrite (proj2 (auth_ok_iff t req)) by auto.
Qed.

Lemma auth_call_refused token (inner : service B R) req :
  ~ admitted token req ->
  auth_call (auth_layer (layer_from_config token) inner) req =
  (_ ← trigger (Log (MkLog Warn "tari_vault::auth"
                       "Rejected request: missing or invalid Bearer token"));
   Ret unauthorized).
Proof.
  intros Ha. unfold auth_call, auth_layer, layer_from_config. destruct token as [t|]; cbn in *; [|done].
  case_bool_decide as Ht; cbn; [by destruct Ha|].
  destruct (from_option _ _ _) eqn:Hok; [|done]. apply auth_ok_iff in Hok. by destruct Ha.
Qed.
End Lemmas.
