(* ===== verification/Rpc.v ===== *)
(** src/rpc/api.rs, src/rpc/server.rs (the handlers) and src/rpc/discovery.rs:
    the JSON-RPC methods over a vault. *)
From S2P Require Export Calls.

(** ** The interface *)

(** [ErrorObjectOwned] *)
Record ErrorObject : Type := MkError {
  err_code : Z;
  err_message : string;
  err_data : option string;
}.

#[global] Instance ErrorObject_eq_dec : EqDecision ErrorObject.
Proof. solve_decision. Defined.

Record StoreProofParams : Type := MkParams {
  proof_json : json;
  expires_in_secs : option Z;
}.

Record ProofObject : Type := MkProofObject { object_proof_json : json }.

(** The serialized form of a [ProofObject]. *)
Definition proof_object_to_json (o : ProofObject) : json :=
  JObject [("proof_json", object_proof_json o)].

(** The trait the [rpc] macro generates. *)
Class VaultRpcServer (T : Type) := {
  rpc_store_proof : T -> StoreProofParams -> prog vaultE (result string ErrorObject);
  rpc_retrieve_proof : T -> string -> prog vaultE (result ProofObject ErrorObject);
  rpc_delete_proof : T -> string -> prog vaultE (result unit ErrorObject);
}.

(** [vault_to_rpc_err] *)
Definition vault_to_rpc_err (err : VaultError) : prog vaultE ErrorObject :=
  let code := rpc_code err in
  _ ← (if code =? -32005
       then trigger (Log (MkLog Warn "tari_vault::rpc"
                            ("Internal vault error: " +:+ vault_error_display err)))
       else Ret tt);
  Ret {| err_code := code; err_message := vault_error_display err; err_data := None |}.

(** [.map_err(vault_to_rpc_err)] *)
Definition rpc_result {A} (r : result A VaultError) : prog vaultE (result A ErrorObject) :=
  match r with
  | Ok a => Ret (Ok a)
  | Err e => o ← vault_to_rpc_err e; Ret (Err o)
  end.

(** ** The handlers *)

Record VaultRpcImpl (V : Type) : Type := MkVaultRpcImpl {
  vault : V;
  max_proof_size_bytes : Z;
}.
Arguments MkVaultRpcImpl {V}.
Arguments vault {V}.
Arguments max_proof_size_bytes {V}.

Section Handlers.
Context `{SerdeJson} {V : Type} `{ProofVault V}.

(** [params.proof_json.to_string().len()] *)
Definition proof_size (v : json) : Z := Z.of_nat (String.length (value_to_string v)).

Definition size_message (max : Z) : string :=
  "proof_json exceeds maximum allowed size of " +:+ pretty max +:+ " bytes".

#[global] Arguments size_message : simpl never.

(** [VaultRpcImpl::store_proof] *)
Definition handle_store_proof (s : VaultRpcImpl V) (params : StoreProofParams) :
  prog vaultE (result string ErrorObject) :=
  let proof_size := proof_size (proof_json params) in
  if max_proof_size_bytes s <? proof_size then
    e ← vault_to_rpc_err (InvalidParameter (size_message (max_proof_size_bytes s)));
    Ret (Err e)
  else
    proof <-? rpc_result (proof_from_json (proof_json params));
    r ← pv_store_proof (vault s) proof (expires_in_secs params);
    rpc_result r.

(** [VaultRpcImpl::retrieve_proof] *)
Definition handle_retrieve_proof (s : VaultRpcImpl V) (claim_id : string) :
  prog vaultE (result ProofObject ErrorObject) :=
  r ← pv_retrieve_proof (vault s) claim_id;
  proof <-? rpc_result r;
  proof_json <-? rpc_result (into_json proof).1;
  Ret (Ok {| object_proof_json := proof_json |}).

(** [VaultRpcImpl::delete_proof] *)
Definition handle_delete_proof (s : VaultRpcImpl V) (claim_id : string) :
  prog vaultE (result unit ErrorObject) :=
  r ← pv_delete_proof (vault s) claim_id;
  rpc_result r.

#[global] Instance vault_rpc_impl : VaultRpcServer (VaultRpcImpl V) := {|
  rpc_store_proof := handle_store_proof;
  rpc_retrieve_proof := handle_retrieve_proof;
  rpc_delete_proof := handle_delete_proof;
|}.
End Handlers.

(** ** Methods *)

Inductive RpcCall : Type :=
| StoreProof (params : StoreProofParams)
| RetrieveProof (claim_id : string)
| DeleteProof (claim_id : string)
| Discover.

(** The names the macro and [register_method] register. *)
Definition method_name (c : RpcCall) : string :=
  match c with
  | StoreProof _ => "vault_storeProof"
  | RetrieveProof _ => "vault_retrieveProof"
  | DeleteProof _ => "vault_deleteProof"
  | Discover => "rpc.discover"
  end.

Section Methods.
Context `{SerdeJson} {T : Type} `{VaultRpcServer T} (openrpc_spec : bytes).

(** [discovery_module]: the one method [rpc.discover]. *)
Definition discovery_module : result json ErrorObject :=
  map_err (fun e => MkError (-32603) "Failed to load OpenRPC spec" (Some e))
    (from_slice_value openrpc_spec).

(** The merged module: each method with its serialized answer. *)
Definition rpc_methods (s : T) (c : RpcCall) : prog vaultE (result json ErrorObject) :=
  match c with
  | StoreProof params => result_map JString <$> rpc_store_proof s params
  | RetrieveProof claim_id => result_map proof_object_to_json <$> rpc_retrieve_proof s claim_id
  | DeleteProof claim_id => result_map (fun _ => JNull) <$> rpc_delete_proof s claim_id
  | Discover => Ret discovery_module
  end.
End Methods.

(** ** Lemmas *)

(** The answer a vault error becomes. *)
Definition rpc_error (e : VaultError) : ErrorObject := MkError (rpc_code e) (vault_error_display e) None.

Section Answers.
Context `{Base64, UuidFmt, AesGcm, Chrono, SerdeJson}.

(** The vault call a method makes: none when the proof is oversized or does not
    serialize. *)
Definition vault_request (max : Z) (c : RpcCall) : option Request :=
  match c with
  | StoreProof (MkParams v e) =>
      if max <? proof_size v then None
      else match proof_from_json v with Ok p => Some (RStore p e) | Err _ => None end
  | RetrieveProof tok => Some (RRetrieve tok)
  | DeleteProof tok => Some (RDelete tok)
  | Discover => None
  end.

(** What a method that makes no vault call answers. *)
Definition local_answer (spec : bytes) (max : Z) (c : RpcCall) : result json ErrorObject :=
  match c with
  | StoreProof (MkParams v _) =>
      if max <? proof_size v then Err (rpc_error (InvalidParameter (size_message max)))
      else match proof_from_json v with Ok _ => Ok JNull | Err e => Err (rpc_error e) end
  | _ => discovery_module spec
  end.

Definition rpc_outcome {A} (f : A -> result json VaultError) (o : outcome (result A VaultError)) :
  outcome (result json ErrorObject) :=
  match o with
  | Done (Ok a) => Done (map_err rpc_error (f a))
  | Done (Err e) => Done (Err (rpc_error e))
  | Panicked => Panicked
  | Blocked => Blocked
  end.

(** What a vault's reply becomes on the wire. *)
Definition rpc_reply (a : Reply) : outcome (result json ErrorObject) :=
  match a with
  | StoreReply o => rpc_outcome (fun tok => Ok (JString tok)) o
  | RetrieveReply o =>
      rpc_outcome (fun p => result_map (fun v => proof_object_to_json (MkProofObject v)) (into_json p).1) o
  | DeleteReply o => rpc_outcome (fun _ => Ok JNull) o
  | CleanupReply o => rpc_outcome (fun _ => Ok JNull) o
  end.
End Answers.

(** *** Running a method *)

Section Serve.
Context `{Base64, UuidFmt, AesGcm, Chrono, SerdeJson} {S : Type} `{StorageBackend S} (env : Env).
Implicit Types (w : World S).

#[local] Arguments store_proof : simpl never.
#[local] Arguments retrieve_proof : simpl never.
#[local] Arguments delete_proof : simpl never.
#[local] Arguments into_json : simpl never.

(** Mapping an error may log, and does nothing else. *)
Lemma run_rpc_result {A} (r : result A VaultError) w :
  exists w', run (handle env) (rpc_result r) w = (Done (map_err rpc_error r), w') /\
    w_store w' = w_store w /\ (is_ok r = true -> w' = w).
Proof.
  destruct r as [a|e]; cbn; [by exists w|]. unfold vault_to_rpc_err.
  destruct (rpc_code e =? -32005); cbn; by eexists.
Qed.

Definition rpc_server (max : Z) : VaultRpcImpl (Arc StandardVault) :=
  MkVaultRpcImpl (MkArc MkStandardVault) max.

Lemma rpc_serve (spec : bytes) max c w :
  let '(o, w') := run (handle env) (rpc_methods spec (rpc_server max) c) w in
  match vault_request max c with
  | None => o = Done (local_answer spec max c) /\ w_store w' = w_store w
  | Some q => o = rpc_reply (serve env q w).1 /\ w_store w' = w_store (serve env q w).2
  end.
Proof.
  destruct c as [[v e]|tok|tok|]; cbn [vault_request local_answer rpc_methods]; [| | |done].
  - unfold rpc_store_proof, vault_rpc_impl, handle_store_proof. cbn.
    destruct (max <? proof_size v); [done|]. rewrite run_fmap, run_try.
    destruct (run_rpc_result (proof_from_json v) w) as (w1 & -> & Hw1 & Hok).
    destruct (proof_from_json v) as [p|err]; cbn; [|done]. rewrite Hok by done.
    rewrite run_bind. destruct (run (handle env) (store_proof p e) w) as [[r| |] w2]; cbn; [|done..].
    destruct (run_rpc_result r w2) as (w3 & -> & Hw & _). by destruct r.
  - unfold rpc_retrieve_proof, vault_rpc_impl, handle_retrieve_proof. cbn.
    rewrite run_fmap, run_bind. destruct (run (handle env) (retrieve_proof tok) w) as [[r| |] w1]; cbn; [|done..].
    rewrite run_try. destruct (run_rpc_result r w1) as (w2 & -> & Hw & _).
    destruct r as [p|err]; cbn; [|done]. rewrite run_try.
    destruct (run_rpc_result (into_json p).1 w2) as (w3 & -> & Hw3 & _).
    rewrite <- Hw, <- Hw3. by destruct (into_json p) as [[] ?].
  - unfold rpc_delete_proof, vault_rpc_impl, handle_delete_proof. cbn.
    rewrite run_fmap, run_bind. destruct (run (handle env) (delete_proof tok) w) as [[r| |] w1]; cbn; [|done..].
    destruct (run_rpc_result r w1) as (w2 & -> & Hw & _). by destruct r.
Qed.
End Serve.

(** What a method does on a storage that does not fail, once its vault call is
    known. *)
Section Healthy.
Context `{Base64Laws, UuidFmt, AesGcm, Chrono, SerdeJson} {S : Type} `{BackendLaws S} (env : Env).
Context (clock_ok : forall n, sb_time (env_clock env n)).

Lemma rpc_exact (spec : bytes) max c q (w : World S) m :
  sb_rep (w_store w) m -> sb_healthy (w_store w) -> vault_request max c = Some q -> call_ok env q ->
  exists w', run (handle env) (rpc_methods spec (rpc_server max) c) w =
      (rpc_reply (call_answer env (w_tick w) q m).1, w') /\
    sb_rep (w_store w') (call_answer env (w_tick w) q m).2 /\ sb_healthy (w_store w').
Proof.
  intros Hm Hh Hv Hq. pose proof (rpc_serve env spec max c w) as Hr. rewrite Hv in Hr.
  destruct (run _ _ w) as [o w']. destruct Hr as [-> Hw]. exists w'. rewrite Hw.
  destruct (serve_answer env q w m clock_ok Hm Hh Hq) as (-> & ? & ?). done.
Qed.
End Healthy.
