(* ===== verification/OpenRpc.v ===== *)
(** openrpc.json, the API document that src/rpc/discovery.rs embeds in the binary
    and [rpc.discover] returns, as a JSON value in the order of the file; what it
    says of a method; and the tests of src/rpc/discovery.rs. *)
From Stdlib Require Import DecimalString Ascii.
From S2P Require Export Rpc JsonText.

(** ** The document *)

(** [info] *)
Definition openrpc_info : json := JObject [
    ("title", JString "Tari Vault");
    ("version", JString "0.1.0");
    ("description", JString "Encrypted intermediary for handing off L1 Merkle Proofs to L2 wallets without exposing plaintext proof material to intermediaries.

All vault methods are JSON-RPC 2.0 over HTTP POST. When bearer-token authentication is enabled on the server, every request must carry an `Authorization: Bearer <token>` header — including `rpc.discover`.");
    ("license", JObject [
      ("name", JString "BSD-3-Clause")])].

(** [servers] *)
Definition openrpc_servers : json := JArray [
    JObject [
      ("name", JString "Local (default)");
      ("url", JString "http://127.0.0.1:9000")]].

(** [vault_storeProof] *)
Definition doc_store_proof : json := JObject [
    ("name", JString "vault_storeProof");
    ("summary", JString "Encrypt and store a proof; return its Claim_ID token.");
    ("description", JString "Encrypts the supplied proof with a freshly generated AES-256-GCM key, stores only the ciphertext, and returns an opaque `Claim_ID` token that encodes both the storage key and the decryption key (key-in-the-ID pattern). The encryption key **never reaches disk**.

Pass the `Claim_ID` through untrusted channels (AI agents, orchestration pipelines, etc.). Only the holder of the `Claim_ID` can decrypt the proof, and only once.");
    ("paramStructure", JString "by-position");
    ("params", JArray [
      JObject [
        ("name", JString "params");
        ("description", JString "Store-proof request body.");
        ("required", JBool true);
        ("schema", JObject [
          ("$ref", JString "#/components/schemas/StoreProofRequest")])]]);
    ("result", JObject [
      ("name", JString "claim_id");
      ("description", JString "Opaque 64-character base64url token (no padding). Encodes a 16-byte storage key and a 32-byte AES-256-GCM decryption key. Treat as a secret — anyone who holds it can retrieve the proof.");
      ("schema", JObject [
        ("$ref", JString "#/components/schemas/ClaimId")])]);
    ("errors", JArray [
      JObject [
        ("$ref", JString "#/components/errors/InvalidParameter")];
      JObject [
        ("$ref", JString "#/components/errors/InternalError")]]);
    ("examples", JArray [
      JObject [
        ("name", JString "Store a Merkle proof object");
        ("params", JArray [
          JObject [
            ("name", JString "params");
            ("value", JObject [
              ("proof_json", JObject [
                ("root", JString "a1b2c3d4e5f6");
                ("path", JArray [
                  JObject [
                    ("hash", JString "aabbcc");
                    ("direction", JString "left")];
                  JObject [
                    ("hash", JString "ddeeff");
                    ("direction", JString "right")]]);
                ("leaf", JString "deadbeef")]);
              ("expires_in_secs", JNumber "3600")])]]);
        ("result", JObject [
          ("name", JString "claim_id");
          ("value", JString "AAAA_example_claim_id_that_is_exactly_64_base64url_chars_here____")])];
      JObject [
        ("name", JString "Store a plain-string proof without TTL");
        ("params", JArray [
          JObject [
            ("name", JString "params");
            ("value", JObject [
              ("proof_json", JString "raw proof bytes encoded as a string");
              ("expires_in_secs", JNull)])]]);
        ("result", JObject [
          ("name", JString "claim_id");
          ("value", JString "BBBB_example_claim_id_that_is_exactly_64_base64url_chars_here____")])]])].

(** [vault_retrieveProof] *)
Definition doc_retrieve_proof : json := JObject [
    ("name", JString "vault_retrieveProof");
    ("summary", JString "Decrypt and consume a stored proof (single-use).");
    ("description", JString "Decodes the `Claim_ID` to recover the storage key and decryption key, fetches and decrypts the ciphertext, **deletes the record** (single-use semantics), and returns the original proof JSON.

A second call with the same `Claim_ID` always returns `ProofNotFound` — the record no longer exists.

If the proof has passed its TTL it is deleted on access and `ProofExpired` is returned.");
    ("paramStructure", JString "by-position");
    ("params", JArray [
      JObject [
        ("name", JString "claim_id");
        ("description", JString "The `Claim_ID` token returned by `vault_storeProof`.");
        ("required", JBool true);
        ("schema", JObject [
          ("$ref", JString "#/components/schemas/ClaimId")])]]);
    ("result", JObject [
      ("name", JString "proof");
      ("description", JString "The decrypted proof, wrapped in an object to allow future envelope fields without breaking callers.");
      ("schema", JObject [
        ("$ref", JString "#/components/schemas/ProofObject")])]);
    ("errors", JArray [
      JObject [
        ("$ref", JString "#/components/errors/ProofNotFound")];
      JObject [
        ("$ref", JString "#/components/errors/ProofExpired")];
      JObject [
        ("$ref", JString "#/components/errors/InvalidClaimId")];
      JObject [
        ("$ref", JString "#/components/errors/DecryptionFailed")];
      JObject [
        ("$ref", JString "#/components/errors/InternalError")]]);
    ("examples", JArray [
      JObject [
        ("name", JString "Retrieve an object proof");
        ("params", JArray [
          JObject [
            ("name", JString "claim_id");
            ("value", JString "AAAA_example_claim_id_that_is_exactly_64_base64url_chars_here____")]]);
        ("result", JObject [
          ("name", JString "proof");
          ("value", JObject [
            ("proof_json", JObject [
              ("root", JString "a1b2c3d4e5f6");
              ("path", JArray [
                JObject [
                  ("hash", JString "aabbcc");
                  ("direction", JString "left")];
                JObject [
                  ("hash", JString "ddeeff");
                  ("direction", JString "right")]]);
              ("leaf", JString "deadbeef")])])])]])].

(** [vault_deleteProof] *)
Definition doc_delete_proof : json := JObject [
    ("name", JString "vault_deleteProof");
    ("summary", JString "Abort: delete a stored proof without decrypting it.");
    ("description", JString "Deletes the stored ciphertext without decrypting or returning it. Intended for the **abort / cancel** flow: when a bridge operation is abandoned (L1 burn rolled back, AI agent error, user cancels), the holder of the `Claim_ID` can discard the proof to free storage and prevent stale retrieval attempts.

Requires the full `Claim_ID` — the storage key alone (embedded in the first 22 base64url characters) is not sufficient, preventing an adversary who only knows the storage key from deleting proofs they cannot read.

Returns `ProofNotFound` if the proof has already been retrieved, previously deleted, or never existed.");
    ("paramStructure", JString "by-position");
    ("params", JArray [
      JObject [
        ("name", JString "claim_id");
        ("description", JString "The `Claim_ID` token returned by `vault_storeProof`.");
        ("required", JBool true);
        ("schema", JObject [
          ("$ref", JString "#/components/schemas/ClaimId")])]]);
    ("result", JObject [
      ("name", JString "result");
      ("description", JString "Always `null` on success.");
      ("schema", JObject [
        ("type", JString "null")])]);
    ("errors", JArray [
      JObject [
        ("$ref", JString "#/components/errors/ProofNotFound")];
      JObject [
        ("$ref", JString "#/components/errors/InvalidClaimId")];
      JObject [
        ("$ref", JString "#/components/errors/InternalError")]]);
    ("examples", JArray [
      JObject [
        ("name", JString "Cancel a pending handoff");
        ("params", JArray [
          JObject [
            ("name", JString "claim_id");
            ("value", JString "AAAA_example_claim_id_that_is_exactly_64_base64url_chars_here____")]]);
        ("result", JObject [
          ("name", JString "result");
          ("value", JNull)])]])].

(** [rpc.discover] *)
Definition doc_discover : json := JObject [
    ("name", JString "rpc.discover");
    ("summary", JString "Return this OpenRPC document.");
    ("description", JString "Standard OpenRPC service-discovery method. Returns the full OpenRPC document describing all methods, schemas, and errors for this API.

**Note:** when bearer-token authentication is enabled, this method also requires the `Authorization: Bearer <token>` header. The spec is additionally available as `openrpc.json` in the source repository.");
    ("paramStructure", JString "by-position");
    ("params", JArray []);
    ("result", JObject [
      ("name", JString "openrpc_document");
      ("description", JString "The OpenRPC document for this service.");
      ("schema", JObject [
        ("type", JString "object");
        ("description", JString "A valid OpenRPC 1.2.x document. See https://spec.open-rpc.org/ for the full meta-schema.")])]);
    ("examples", JArray [])].

(** The schema [ClaimId] *)
Definition schema_claim_id : json := JObject [
    ("title", JString "ClaimId");
    ("type", JString "string");
    ("description", JString "Opaque 64-character base64url (RFC 4648 §5, no padding) token that encodes a 16-byte storage key concatenated with a 32-byte AES-256-GCM encryption key (48 raw bytes total). The decryption key is **never stored server-side** — losing the token means the proof is permanently inaccessible.");
    ("pattern", JString "^[A-Za-z0-9_-]{64}$");
    ("minLength", JNumber "64");
    ("maxLength", JNumber "64");
    ("examples", JArray [
      JString "AAAA_example_claim_id_that_is_exactly_64_base64url_chars_here____"])].

(** The schema [StoreProofRequest] *)
Definition schema_store_request : json := JObject [
    ("title", JString "StoreProofRequest");
    ("type", JString "object");
    ("description", JString "Request body for `vault_storeProof`.");
    ("required", JArray [
      JString "proof_json"]);
    ("properties", JObject [
      ("proof_json", JObject [
        ("description", JString "The proof material as any JSON value (object, string, number, array, or boolean). The vault serialises whatever is supplied and encrypts it verbatim — structure is opaque to the vault. The serialised size must not exceed `max_proof_size_bytes` (default 1 MiB); oversized payloads are rejected with `InvalidParameter` (-32006) before any encryption occurs.")]);
      ("expires_in_secs", JObject [
        ("description", JString "Time-to-live in seconds from the moment of storage. After the TTL elapses the proof is inaccessible and will be purged by the next cleanup sweep. Omit or set to `null` for a proof that never expires. Must be a positive integer (≥ 1) if provided; zero is rejected with `InvalidParameter`.");
        ("type", JArray [
          JString "integer";
          JString "null"]);
        ("exclusiveMinimum", JNumber "0");
        ("examples", JArray [
          JNumber "3600";
          JNumber "86400";
          JNull])])]);
    ("examples", JArray [
      JObject [
        ("proof_json", JObject [
          ("root", JString "a1b2c3");
          ("path", JArray []);
          ("leaf", JString "deadbeef")]);
        ("expires_in_secs", JNumber "3600")]])].

(** The schema [ProofObject] *)
Definition schema_proof_object : json := JObject [
    ("title", JString "ProofObject");
    ("type", JString "object");
    ("description", JString "Response body for `vault_retrieveProof`. Wraps the proof in an envelope object so future metadata fields can be added without breaking existing callers.");
    ("required", JArray [
      JString "proof_json"]);
    ("properties", JObject [
      ("proof_json", JObject [
        ("description", JString "The original proof value exactly as it was passed to `vault_storeProof`.")])]);
    ("examples", JArray [
      JObject [
        ("proof_json", JObject [
          ("root", JString "a1b2c3");
          ("path", JArray []);
          ("leaf", JString "deadbeef")])]])].

(** [components.errors] *)
Definition openrpc_errors : json := JObject [
    ("ProofNotFound", JObject [
      ("code", JNumber "-32001");
      ("message", JString "Proof not found");
      ("data", JNull)]);
    ("ProofExpired", JObject [
      ("code", JNumber "-32002");
      ("message", JString "Proof has expired");
      ("data", JNull)]);
    ("InvalidClaimId", JObject [
      ("code", JNumber "-32003");
      ("message", JString "Invalid claim ID format");
      ("data", JNull)]);
    ("DecryptionFailed", JObject [
      ("code", JNumber "-32004");
      ("message", JString "Decryption failed");
      ("data", JNull)]);
    ("InvalidParameter", JObject [
      ("code", JNumber "-32006");
      ("message", JString "Invalid parameter");
      ("data", JNull)]);
    ("InternalError", JObject [
      ("code", JNumber "-32005");
      ("message", JString "Internal error");
      ("data", JNull)])].

(** The document. *)
Definition openrpc_json : json := JObject [
  ("openrpc", JString "1.2.6");
  ("info", openrpc_info);
  ("servers", openrpc_servers);
  ("methods", JArray [doc_store_proof; doc_retrieve_proof; doc_delete_proof; doc_discover]);
  ("components", JObject [
    ("schemas", JObject [
      ("ClaimId", schema_claim_id);
      ("StoreProofRequest", schema_store_request);
      ("ProofObject", schema_proof_object)]);
    ("errors", openrpc_errors)])].

(** ** [serde_json::Value] *)

(** A [Value] keeps the members of an object sorted by key. *)
Fixpoint to_value (v : json) : json :=
  match v with
  | JArray l => JArray (map to_value l)
  | JObject ms =>
      JObject (merge_sort (fun a b => String.le a.1 b.1)
                 (map (fun m => match m with (k, x) => (k, to_value x) end) ms))
  | _ => v
  end.

(** [v[k]]: null when there is no such member. *)
Definition index (v : json) (k : string) : json :=
  match v with
  | JObject ms => from_option snd JNull (head (filter (fun m => m.1 = k) ms))
  | _ => JNull
  end.

Definition is_string (v : json) : bool := match v with JString _ => true | _ => false end.
Definition is_object (v : json) : bool := match v with JObject _ => true | _ => false end.
Definition is_array (v : json) : bool := match v with JArray _ => true | _ => false end.
Definition as_str (v : json) : option string := match v with JString s => Some s | _ => None end.
Definition as_array (v : json) : option (list json) := match v with JArray l => Some l | _ => None end.
Definition as_object (v : json) : option (list (string * json)) :=
  match v with JObject ms => Some ms | _ => None end.
Definition as_i64 (v : json) : option Z :=
  match v with JNumber s => Z.of_int <$> NilZero.int_of_string s | _ => None end.

(** ** The tests of src/rpc/discovery.rs

    [assert!] and [unwrap] are the [false] of the result. *)
Section Tests.
Context `{SerdeJson} (OPENRPC_SPEC : bytes).

Definition openrpc_spec_is_valid_json : bool :=
  match from_slice_value OPENRPC_SPEC with
  | Ok value => is_object value
  | Err _ => false
  end.

Definition openrpc_spec_has_required_fields : bool :=
  match from_slice_value OPENRPC_SPEC with
  | Ok spec =>
      is_string (index spec "openrpc") && is_string (index (index spec "info") "title") &&
      is_string (index (index spec "info") "version") && is_array (index spec "methods")
  | Err _ => false
  end.

Definition all_vault_methods_are_documented : bool :=
  match from_slice_value OPENRPC_SPEC with
  | Ok spec =>
      match as_array (index spec "methods") with
      | Some methods =>
          let method_names := omap (fun m => as_str (index m "name")) methods in
          forallb (fun expected => bool_decide (expected ∈ method_names))
            ["vault_storeProof"; "vault_retrieveProof"; "vault_deleteProof"; "rpc.discover"]
      | None => false
      end
  | Err _ => false
  end.

Definition all_custom_error_codes_are_documented : bool :=
  match from_slice_value OPENRPC_SPEC with
  | Ok spec =>
      match as_object (index (index spec "components") "errors") with
      | Some errors =>
          let codes := omap (fun e => as_i64 (index e.2 "code")) errors in
          forallb (fun expected_code => bool_decide (expected_code ∈ codes))
            [-32001; -32002; -32003; -32004; -32005]
      | None => false
      end
  | Err _ => false
  end.
End Tests.

(** ** What the document says of a method *)

(** The parts of a reference [#/a/b/c]. *)
Fixpoint ref_parts (s part : string) : list string :=
  match s with
  | EmptyString => [part]
  | String c s' =>
      if bool_decide (c = "/"%char) then part :: ref_parts s' EmptyString
      else ref_parts s' (part +:+ String c EmptyString)
  end.

Definition resolve (doc v : json) : json :=
  match index v "$ref" with
  | JString r => foldl index doc (tail (ref_parts r EmptyString))
  | _ => v
  end.

Definition method_doc (doc : json) (name : string) : json :=
  from_option (fun l => default JNull (head (filter (fun m => as_str (index m "name") = Some name) l)))
    JNull (as_array (index doc "methods")).

(** The codes of the errors listed for a method. *)
Definition documented_codes (doc : json) (name : string) : list Z :=
  from_option (omap (fun e => as_i64 (index (resolve doc e) "code"))) []
    (as_array (index (method_doc doc name) "errors")).

Definition has_type (v : json) (t : string) : bool :=
  match v with
  | JNull => bool_decide (t = "null")
  | JBool _ => bool_decide (t = "boolean")
  | JNumber _ => bool_decide (t ∈ ["number"; "integer"])
  | JString _ => bool_decide (t = "string")
  | JArray _ => bool_decide (t = "array")
  | JObject _ => bool_decide (t = "object")
  end.

(** The keywords [type], [minLength], [maxLength] and [required] of a schema. *)
Definition type_ok (s v : json) : bool :=
  match index s "type" with
  | JString t => has_type v t
  | JArray ts => existsb (has_type v) (omap as_str ts)
  | _ => true
  end.

Definition length_ok (s v : json) : bool :=
  match v with
  | JString x =>
      let n := Z.of_nat (String.length x) in
      from_option (fun k => k <=? n) true (as_i64 (index s "minLength")) &&
      from_option (fun k => n <=? k) true (as_i64 (index s "maxLength"))
  | _ => true
  end.

Definition required_ok (s v : json) : bool :=
  match v with
  | JObject ms =>
      from_option (fun l => forallb (fun k => bool_decide (k ∈ ms.*1)) (omap as_str l)) true
        (as_array (index s "required"))
  | _ => true
  end.

Definition conforms (doc schema v : json) : bool :=
  let s := resolve doc schema in type_ok s v && length_ok s v && required_ok s v.

Definition result_schema (doc : json) (name : string) : json :=
  index (index (method_doc doc name) "result") "schema".

(** What the document leaves out: that deleting an expired proof is answered with
    [ProofExpired], and that sealing can fail. *)
Definition undocumented (c : RpcCall) (code : Z) : Prop :=
  match c with
  | DeleteProof _ => code = -32002
  | StoreProof _ => code = -32004
  | _ => False
  end.
