(* ===== verification/Net.v ===== *)
(** [std::net::SocketAddr]: what the server relies on to tell a loopback bind
    address, the standard library's [FromStr] and [is_loopback]. *)
From Stdlib Require Import Ascii.
From S2P Require Export Prelude.

Local Open Scope char_scope.
Local Open Scope Z_scope.
Local Abbreviation chars := (list ascii).

(** ** Addresses *)

Inductive SocketAddr : Type :=
| SocketV4 (octets : Z * Z * Z * Z) (port : Z)
| SocketV6 (groups : list Z) (scope_id port : Z).

#[global] Instance SocketAddr_eq_dec : EqDecision SocketAddr.
Proof. solve_decision. Defined.

(** [addr.ip().is_loopback()] *)
Definition is_loopback (a : SocketAddr) : bool :=
  match a with
  | SocketV4 (a, _, _, _) _ => a =? 127
  | SocketV6 gs _ _ => bool_decide (gs = [0; 0; 0; 0; 0; 0; 0; 1])
  end.

(** ** The parser

    Each function consumes a prefix of the text or, failing, nothing
    ([read_atomically]). *)

Definition parser (A : Type) : Type := chars -> option (A * chars).

(** [char::to_digit] *)
Definition to_digit (radix : Z) (c : ascii) : option Z :=
  let n := Z.of_nat (nat_of_ascii c) in
  let d := if (48 <=? n) && (n <=? 57) then Some (n - 48)
           else if (97 <=? n) && (n <=? 122) then Some (n - 87)
           else if (65 <=? n) && (n <=? 90) then Some (n - 55)
           else None in
  match d with Some d => if d <? radix then Some d else None | None => None end.

Definition read_given_char (c : ascii) : parser unit := fun l =>
  match l with d :: r => if Ascii.eqb c d then Some (tt, r) else None | [] => None end.

Definition read_separator {A} (sep : ascii) (index : nat) (inner : parser A) : parser A := fun l =>
  match index with
  | O => inner l
  | S _ => '(_, r) ← read_given_char sep l; inner r
  end.

(** The loop of [read_number], with the digits read so far; without a limit on
    their number the arithmetic is checked against [bound]. *)
Fixpoint number_loop (radix : Z) (max_digits : option nat) (bound acc : Z) (count : nat) (l : chars) :
  option (Z * nat * chars) :=
  match l with
  | [] => Some (acc, count, [])
  | c :: r =>
      match to_digit radix c with
      | None => Some (acc, count, l)
      | Some d =>
          let acc' := acc * radix + d in
          let refused := match max_digits with
                         | Some m => (m <? S count)%nat
                         | None => bound <? acc'
                         end in
          if refused then None else number_loop radix max_digits bound acc' (S count) r
      end
  end.

Definition read_number (radix : Z) (max_digits : option nat) (allow_zero_prefix : bool) (bound : Z) :
  parser Z := fun l =>
  let has_leading_zero := match l with c :: _ => Ascii.eqb c "0" | [] => false end in
  '(result, digit_count, r) ← number_loop radix max_digits bound 0 0 l;
  if (digit_count =? 0)%nat then None
  else if negb allow_zero_prefix && has_leading_zero && (1 <? digit_count)%nat then None
  else if bound <? result then None
  else Some (result, r).

Definition u8_max : Z := 255.
Definition u16_max : Z := 65535.

Definition read_octet (index : nat) : parser Z :=
  read_separator "." index (read_number 10 (Some 3%nat) false u8_max).

Definition read_ipv4_addr : parser (Z * Z * Z * Z) := fun l =>
  '(a, l) ← read_octet 0 l;
  '(b, l) ← read_octet 1 l;
  '(c, l) ← read_octet 2 l;
  '(d, l) ← read_octet 3 l;
  Some ((a, b, c, d), l).

(** [read_groups] with [n] of its slots left, at index [i]: the groups read,
    and whether they end in an embedded IPv4 address. *)
Fixpoint read_groups (n i : nat) (l : chars) : list Z * bool * chars :=
  match n with
  | O => ([], false, l)
  | S n' =>
      let embedded := if (1 <? n)%nat then read_separator ":" i read_ipv4_addr l else None in
      match embedded with
      | Some ((a, b, c, d), r) => ([a * 256 + b; c * 256 + d], true, r)
      | None =>
          match read_separator ":" i (read_number 16 (Some 4%nat) true u16_max) l with
          | Some (g, r) => let '(gs, v4, r') := read_groups n' (S i) r in (g :: gs, v4, r')
          | None => ([], false, l)
          end
      end
  end.

Definition read_ipv6_addr : parser (list Z) := fun l =>
  let '(front, front_ipv4, l) := read_groups 8 0 l in
  if (length front =? 8)%nat then Some (front, l)
  else if (front_ipv4 : bool) then None
  else
    '(_, l) ← read_given_char ":" l;
    '(_, l) ← read_given_char ":" l;
    let limit := (8 - (length front + 1))%nat in
    let '(back, _, l) := read_groups limit 0 l in
    Some (front ++ replicate (8 - length front - length back) 0 ++ back, l).

Definition read_port : parser Z := fun l =>
  '(_, l) ← read_given_char ":" l; read_number 10 None true u16_max l.

Definition read_scope_id : parser Z := fun l =>
  '(_, l) ← read_given_char "%" l; read_number 10 None true u32_max l.

(** [read_scope_id().unwrap_or(0)] *)
Definition scope_id_or_zero (l : chars) : Z * chars := default (0, l) (read_scope_id l).

Definition read_socket_addr_v4 : parser SocketAddr := fun l =>
  '(ip, l) ← read_ipv4_addr l;
  '(port, l) ← read_port l;
  Some (SocketV4 ip port, l).

Definition read_socket_addr_v6 : parser SocketAddr := fun l =>
  '(_, l) ← read_given_char "[" l;
  '(ip, l) ← read_ipv6_addr l;
  let '(scope_id, l) := scope_id_or_zero l in
  '(_, l) ← read_given_char "]" l;
  '(port, l) ← read_port l;
  Some (SocketV6 ip scope_id port, l).

(** [str::parse::<SocketAddr>]: the whole text must be consumed. *)
Definition parse_socket_addr (s : string) : option SocketAddr :=
  let l := String.list_ascii_of_string s in
  let r := match read_socket_addr_v4 l with
           | Some x => Some x
           | None => read_socket_addr_v6 l
           end in
  match r with Some (a, []) => Some a | _ => None end.

(** ** Lemmas *)

(** The digits of a text and the number they stand for. *)
Definition digits_value (radix : Z) (acc : Z) (ds : list Z) : Z :=
  foldl (fun acc d => acc * radix + d) acc ds.

Lemma to_digit_bound radix c d : to_digit radix c = Some d -> 0 <= d < radix.
Proof.
  unfold to_digit. set (n := Z.of_nat _). intros H.
  repeat case_match; simplify_eq; try done;
    repeat match goal with
    | E : _ && _ = true |- _ => apply andb_prop in E as []
    end; lia.
Qed.

Lemma number_loop_spec radix max bound acc count l v k r :
  number_loop radix max bound acc count l = Some (v, k, r) -> exists cs ds,
    l = cs ++ r /\ Forall2 (fun c d => to_digit radix c = Some d) cs ds /\
    v = digits_value radix acc ds /\ k = (count + length ds)%nat /\
    (forall m, max = Some m -> (length ds = 0 \/ k <= m)%nat).
Proof.
  revert acc count. induction l as [|c l IH]; intros acc count; cbn.
  - intros [= <- <- <-]. exists [], []. cbn. split_and!; try done; try lia; by left.
  - destruct (to_digit radix c) as [d|] eqn:Hd.
    2:{ intros [= <- <- <-]. exists [], []. cbn. split_and!; try done; try lia; by left. }
    destruct (match max with Some _ => _ | None => _ end) eqn:Href; [done|].
    intros (cs & ds & -> & Hds & -> & -> & Hm)%IH. exists (c :: cs), (d :: ds).
    cbn. split_and!; [done|by constructor|done|lia|].
    intros m ->. right. destruct (Hm m eq_refl) as [Hz|?]; [|lia].
    rewrite Hz. apply Nat.leb_gt in Href. lia.
Qed.

Lemma digits_value_nonneg radix acc ds :
  0 <= acc -> 0 <= radix -> Forall (fun d => 0 <= d) ds -> 0 <= digits_value radix acc ds.
Proof.
  intros Ha Hr Hds. revert acc Ha. induction Hds as [|d ds Hd Hds IH]; intros acc Ha; [done|].
  cbn. apply IH. nia.
Qed.

(** What [read_number] accepts. *)
Lemma read_number_spec radix max zeros bound l v r :
  0 <= radix -> read_number radix max zeros bound l = Some (v, r) -> exists cs ds,
    l = cs ++ r /\ Forall2 (fun c d => to_digit radix c = Some d) cs ds /\
    v = digits_value radix 0 ds /\ 0 <= v <= bound /\ (1 <= length ds)%nat /\
    (forall m, max = Some m -> (length ds <= m)%nat) /\
    (zeros = false -> (2 <= length ds)%nat -> head cs <> Some "0").
Proof.
  intros Hradix. unfold read_number. destruct (number_loop _ _ _ _ _ _) as [[[v' k] r']|] eqn:Hl; cbn; [|done].
  destruct (Nat.eqb_spec k 0) as [|Hk]; [done|].
  destruct (negb zeros && _ && _) eqn:Hz; [done|]. destruct (Z.ltb_spec bound v'); [done|].
  intros [= -> ->]. apply number_loop_spec in Hl as (cs & ds & -> & Hds & -> & -> & Hm).
  exists cs, ds. split_and!; try done; try lia.
  - apply digits_value_nonneg; [done|done|].
    clear -Hds. induction Hds as [|c d cs ds Hd]; constructor; [|done].
    apply to_digit_bound in Hd. lia.
  - intros m Hmax. destruct (Hm m Hmax); cbn in *; lia.
  - intros -> Hlen Hhd. cbn in Hz. destruct cs as [|c cs]; [done|]. cbn in Hhd, Hz.
    injection Hhd as ->. cbn in Hz. by destruct (length ds) as [|[]]; [lia..|].
Qed.

(** The only text of the number 127 an octet may have. *)
Lemma read_octet_127 l r : read_octet 0 l = Some (127, r) -> l = ["1"; "2"; "7"] ++ r.
Proof.
  unfold read_octet; cbn. intros (cs & ds & -> & Hds & Hv & _ & H1 & H3 & Hz)%read_number_spec; [|lia].
  specialize (H3 _ eq_refl). f_equal.
  assert (Hdig : forall c d, to_digit 10 c = Some d -> c = ascii_of_nat (48 + Z.to_nat d)).
  { intros [[] [] [] [] [] [] [] []] d; vm_compute; by intros [= <-]. }
  assert (Hb : Forall (fun d => 0 <= d < 10) ds).
  { clear -Hds. induction Hds as [|c d cs ds Hd]; constructor; [by eapply to_digit_bound|done]. }
  unfold digits_value in Hv.
  destruct ds as [|a [|b [|c [|]]]]; cbn in H1, H3, Hv; try lia;
    repeat match goal with
    | H : Forall _ (_ :: _) |- _ => apply Forall_cons in H as []
    end; try lia.
  assert (a = 1 /\ b = 2 /\ c = 7) as (-> & -> & ->) by lia.
  repeat match goal with
  | H : Forall2 _ _ (_ :: _) |- _ => apply Forall2_cons_inv_r in H as (? & ? & ?%Hdig & ? & ->)
  | H : Forall2 _ _ [] |- _ => apply Forall2_nil_inv_r in H as ->
  end. by subst.
Qed.

Lemma read_given_spec c l u r : read_given_char c l = Some (u, r) -> l = c :: r.
Proof.
  unfold read_given_char. destruct l as [|d l]; [done|].
  destruct (Ascii.eqb_spec c d) as [<-|]; [|done]. congruence.
Qed.

(** Takes a chain of reads apart. *)
Ltac reads H :=
  repeat match type of H with
  | mbind _ ?p = Some _ =>
      let x := fresh "x" in let l := fresh "l" in let E := fresh "E" in
      destruct p as [[x l]|] eqn:E; [cbn [mbind option_bind] in H|done]
  end.

(** *** Well-formed addresses *)

Definition octets_ok (o : Z * Z * Z * Z) : Prop :=
  let '(a, b, c, d) := o in
  0 <= a <= u8_max /\ 0 <= b <= u8_max /\ 0 <= c <= u8_max /\ 0 <= d <= u8_max.

Definition wf_socket_addr (a : SocketAddr) : Prop :=
  match a with
  | SocketV4 octets port => octets_ok octets /\ 0 <= port <= u16_max
  | SocketV6 gs scope port =>
      length gs = 8%nat /\ Forall (fun g => 0 <= g <= u16_max) gs /\
      0 <= scope <= u32_max /\ 0 <= port <= u16_max
  end.

Lemma read_octet_bound i l v r : read_octet i l = Some (v, r) -> 0 <= v <= u8_max.
Proof.
  unfold read_octet, read_separator. intros H. destruct i; [|reads H];
    apply read_number_spec in H as (? & ? & ? & ? & ? & ? & ?); lia || done.
Qed.

Lemma read_ipv4_bound l o r : read_ipv4_addr l = Some (o, r) -> octets_ok o.
Proof.
  unfold read_ipv4_addr. intros H. reads H. simplify_eq.
  split_and!; by eapply read_octet_bound.
Qed.

Lemma read_separator_bound {A} sep i (p : parser A) (P : A -> Prop) l a r :
  (forall l r a, p l = Some (a, r) -> P a) -> read_separator sep i p l = Some (a, r) -> P a.
Proof. intros Hp. unfold read_separator. destruct i; [by apply Hp|]. intros H. reads H. by eapply Hp. Qed.

Lemma read_groups_bound n i l gs v4 r :
  read_groups n i l = (gs, v4, r) ->
  (length gs <= n)%nat /\ Forall (fun g => 0 <= g <= u16_max) gs.
Proof.
  revert i l gs v4 r. induction n as [|n IH]; intros i l gs v4 r; cbn [read_groups]; [by intros [= <- _ _]|].
  destruct (if (1 <? S n)%nat then read_separator ":" i read_ipv4_addr l else None)
    as [[[[[a b] c] d] r1]|] eqn:Hv4.
  - intros [= <- _ _]. destruct (Nat.ltb_spec 1 (S n)); [|done].
    apply (read_separator_bound _ _ _ octets_ok) in Hv4; [|intros ? ? ?; apply read_ipv4_bound].
    cbn in Hv4.
    unfold u8_max, u16_max in *. split; [cbn; lia|]. repeat constructor; lia.
  - destruct (read_separator ":" i (read_number _ _ _ _) l) as [[g r1]|] eqn:Hg.
    + destruct (read_groups n (S i) r1) as [[gs' v4'] r2] eqn:Hgs. intros [= <- _ _].
      destruct (IH _ _ _ _ _ Hgs) as [Hlen Hall]. split; [cbn; lia|]. constructor; [|done].
      apply (read_separator_bound _ _ _ (fun g => 0 <= g <= u16_max)) in Hg; [done|].
      intros ? ? ? (? & ? & ? & ? & ? & ? & ?)%read_number_spec; [done|lia].
    + intros [= <- _ _]. split; [cbn; lia|done].
Qed.

Lemma read_ipv6_bound l gs r :
  read_ipv6_addr l = Some (gs, r) -> length gs = 8%nat /\ Forall (fun g => 0 <= g <= u16_max) gs.
Proof.
  unfold read_ipv6_addr. destruct (read_groups 8 0 l) as [[front v4] l1] eqn:Hf.
  apply read_groups_bound in Hf as [Hlf Hf]. destruct (Nat.eqb_spec (length front) 8).
  { intros [= <- _]. done. }
  destruct v4; [done|]. intros H. reads H.
  destruct (read_groups _ 0 l2) as [[back b] l3] eqn:Hb.
  apply read_groups_bound in Hb as [Hlb Hb]. simplify_eq. split.
  - rewrite !length_app, length_replicate. lia.
  - rewrite !Forall_app. split_and!; [done| |done]. apply Forall_replicate. unfold u16_max. lia.
Qed.

Lemma read_port_bound l p r : read_port l = Some (p, r) -> 0 <= p <= u16_max.
Proof.
  unfold read_port. intros H. reads H. apply read_number_spec in H as (? & ? & ? & ? & ? & ? & ?); [done|lia].
Qed.

Lemma scope_id_bound l s r : scope_id_or_zero l = (s, r) -> 0 <= s <= u32_max.
Proof.
  unfold scope_id_or_zero, read_scope_id. intros H.
  destruct (_ ≫= _) as [[s' r']|] eqn:Hs; cbn in H; simplify_eq; [|done].
  reads Hs. apply read_number_spec in Hs as (? & ? & ? & ? & ? & ? & ?); [done|lia].
Qed.

Lemma parse_socket_addr_wf s a : parse_socket_addr s = Some a -> wf_socket_addr a.
Proof.
  unfold parse_socket_addr. set (l := String.list_ascii_of_string s).
  destruct (read_socket_addr_v4 l) as [[a' r]|] eqn:H4.
  - intros Hr. destruct r; [|done]. injection Hr as ->.
    unfold read_socket_addr_v4 in H4. reads H4. simplify_eq. cbn.
    apply read_ipv4_bound in E. apply read_port_bound in E0. intuition.
  - destruct (read_socket_addr_v6 l) as [[a' r]|] eqn:H6; [|done].
    intros Hr. destruct r; [|done]. injection Hr as ->. unfold read_socket_addr_v6 in H6. reads H6.
    destruct (scope_id_or_zero l1) as [sc l2] eqn:Hsc. apply scope_id_bound in Hsc.
    reads H6. simplify_eq. cbn.
    apply read_ipv6_bound in E0 as []. apply read_port_bound in E2. intuition.
Qed.

(** *** Loopback texts *)

Lemma prefix_empty s : String.prefix "" s = true.
Proof. by destruct s. Qed.

Lemma loopback_text s a :
  parse_socket_addr s = Some a -> is_loopback a = true ->
  String.prefix "127." s = true \/
  String.prefix "[" s = true /\ exists scope port, a = SocketV6 [0; 0; 0; 0; 0; 0; 0; 1] scope port.
Proof.
  unfold parse_socket_addr. set (l := String.list_ascii_of_string s).
  assert (Hs : s = String.string_of_list_ascii l)
    by (symmetry; apply String.string_of_list_ascii_of_string).
  clearbody l. destruct (read_socket_addr_v4 l) as [[a' r]|] eqn:H4.
  - intros Hr. destruct r; [|done]. injection Hr as ->. left.
    unfold read_socket_addr_v4 in H4. reads H4. simplify_eq. destruct x as [[[n ?] ?] ?].
    cbn in H. apply Z.eqb_eq in H as ->. unfold read_ipv4_addr in E. reads E. simplify_eq.
    apply read_octet_127 in E1 as ->. unfold read_octet, read_separator in E2.
    destruct (read_given_char _ _) as [[[] r]|] eqn:Hdot; [|done].
    apply read_given_spec in Hdot as ->. cbn. apply prefix_empty.
  - destruct (read_socket_addr_v6 l) as [[a' r]|] eqn:H6; [|done].
    intros Hr. destruct r; [|done]. injection Hr as ->. intros Hlo. right.
    unfold read_socket_addr_v6 in H6. reads H6. apply read_given_spec in E as ->.
    destruct (scope_id_or_zero l1) as [sc l2].
    reads H6. simplify_eq. cbn in Hlo. apply bool_decide_eq_true in Hlo as ->.
    split; [cbn; apply prefix_empty|]. eauto.
Qed.
