(* ===== verification/Server.v ===== *)
(** src/rpc/server.rs (starting the server): the bind-address check, the plain
    and the TLS path, and the stack of middleware every request passes. *)
From S2P Require Export Net Auth Rpc Fs.

(** ** The crates it calls *)

(** jsonrpsee: a server under a limit on the request body and one on the response
    body, calling one of the registered methods for a request that is a
    well-formed call.  [jr_default_response] is the limit on responses of a
    server whose configuration sets none (10 MiB); [jr_too_big limit] is the error
    that replaces an answer over the limit. *)
Class JsonRpsee := {
  jr_decode : HttpRequest bytes -> option (json * RpcCall);
  jr_encode : json -> result json ErrorObject -> bytes;
  jr_default_response : Z;
  jr_too_big : Z -> ErrorObject;
  jr_service : Z -> Z -> (RpcCall -> prog vaultE (result json ErrorObject)) -> service bytes bytes;
}.

(** The answer [r] is within the response limit. *)
Definition fits `{JsonRpsee} (limit : Z) (id : json) (r : result json ErrorObject) : bool :=
  Z.of_nat (length (jr_encode id r)) <=? limit.

(** The body of a reply: an answer over the limit is replaced by an error, after
    the method has run. *)
Definition jr_reply `{JsonRpsee} (limit : Z) (id : json) (r : result json ErrorObject) : bytes :=
  jr_encode id (if fits limit id r then r else Err (jr_too_big limit)).

(** A body over the request limit is refused with 413 before it is parsed; a
    call is answered with what its method returns, under the response limit. *)
Class JsonRpseeLaws `{JsonRpsee} : Prop := {
  jr_oversized limit response_limit methods req :
    limit < Z.of_nat (length (req_body req)) ->
    exists resp, jr_service limit response_limit methods req = Ret resp /\ resp_status resp = 413;
  jr_call limit response_limit methods req id c :
    Z.of_nat (length (req_body req)) <= limit -> jr_decode req = Some (id, c) ->
    exists hs, jr_service limit response_limit methods req =
      (r ← methods c; Ret (MkResponse 200 hs (jr_reply response_limit id r)));
  jr_too_big_code limit : err_code (jr_too_big limit) = -32008;
}.

(** rustls, rustls_pemfile and tokio_rustls. *)
Class Tls := {
  tls_cert : Type;
  tls_key : Type;
  tls_acceptor : Type;
  pem_certs : bytes -> list (result tls_cert string);
  pem_private_key : bytes -> result (option tls_key) string;
  with_single_cert : list tls_cert -> tls_key -> result tls_acceptor string;
}.

(** The [Debug] text of a path. *)
Class PathFmt := { path_debug : Path -> string }.

(** ** Starting a server *)

Record TlsConfig : Type := MkTlsConfig { cert_path : Path; key_path : Path }.

#[global] Instance TlsConfig_eq_dec : EqDecision TlsConfig.
Proof. solve_decision. Defined.

(** [anyhow::Error]: the contexts, outermost first, then the cause. *)
Abbreviation AnyError := (list string).

Inductive serverE `{Tls} : Type -> Type :=
| FsRead (p : Path) : serverE (result bytes string)
(** [Server::build] with a body limit, on an address *)
| BuildServer (limit : Z) (addr : string) : serverE (result nat string)
| LocalAddr (server : nat) : serverE (result SocketAddr string)
| StartServer (server : nat) (svc : service bytes bytes) : serverE nat
| TcpBind (addr : string) : serverE (result nat string)
| ListenerAddr (listener : nat) : serverE (result SocketAddr string)
| SpawnAcceptLoop (listener : nat) (acceptor : tls_acceptor) (plain : SocketAddr) : serverE unit
(** the accept loop and the tasks of its connections *)
| TcpAccept (listener : nat) : serverE (result nat string)
| SpawnConnection (acceptor : tls_acceptor) (conn : nat) (plain : SocketAddr) : serverE unit
| TlsAccept (acceptor : tls_acceptor) (conn : nat) : serverE (result nat string)
| TcpConnect (addr : SocketAddr) : serverE (result nat string)
| CopyBidirectional (a b : nat) : serverE (result unit string)
| ServerLog (l : LogLine) : serverE unit.

Section Server.
Context `{Tls, PathFmt, JsonRpsee, Http, Subtle, SerdeJson} {V : Type} `{ProofVault V}.
Context (openrpc_spec : bytes).

Definition not_loopback_message (bind_addr : string) : string :=
  "TLS is disabled but the bind address (" +:+ bind_addr +:+ ") is not a loopback address. " +:+
  "Provide --tls-cert and --tls-key to enable TLS, bind to 127.0.0.1 / ::1, " +:+
  "or pass --insecure-no-tls if TLS is terminated by an external proxy.".

(** [check_tls_for_non_loopback] *)
Definition check_tls_for_non_loopback (bind_addr : string) (tls : option TlsConfig)
    (insecure_no_tls : bool) : result unit AnyError :=
  if bool_decide (is_Some tls) || insecure_no_tls then Ok tt
  else
    try_r (ok_or (parse_socket_addr bind_addr)
             ["invalid bind address: " +:+ bind_addr; "invalid socket address syntax"]) (fun addr =>
    if negb (is_loopback addr) then Err [not_loopback_message bind_addr] else Ok tt).

(** [.collect::<Result<_, _>>()] *)
Fixpoint collect {A E} (l : list (result A E)) : result (list A) E :=
  match l with
  | [] => Ok []
  | Ok a :: l' => result_map (cons a) (collect l')
  | Err e :: _ => Err e
  end.

(** [build_tls_acceptor] *)
Definition build_tls_acceptor (cfg : TlsConfig) : prog serverE (result tls_acceptor AnyError) :=
  cert_bytes <-? map_err_p (fun e => ["failed to read TLS cert: " +:+ path_debug (cert_path cfg); e])
                   (trigger (FsRead (cert_path cfg)));
  key_bytes <-? map_err_p (fun e => ["failed to read TLS key: " +:+ path_debug (key_path cfg); e])
                  (trigger (FsRead (key_path cfg)));
  Ret (
    try_r (map_err (fun e => ["failed to parse TLS certificates"; e])
             (collect (pem_certs cert_bytes))) (fun certs =>
    try_r (map_err (fun e => ["failed to parse TLS private key"; e])
             (pem_private_key key_bytes)) (fun key =>
    try_r (ok_or key ["no private key found in TLS key file"]) (fun key =>
    map_err (fun e => ["failed to build TLS server config"; e])
      (with_single_cert certs key))))).

(** [http_body_limit] *)
Definition http_body_limit (max_proof_size_bytes : Z) : Z :=
  default u32_max (u32_try_from (usize_saturating_add max_proof_size_bytes 4096)).

(** What every request passes: the authentication layer, then the methods.  The
    server is configured with a limit on requests only, so the one on responses is
    jsonrpsee's default. *)
Definition http_stack (auth_token : option string) (vault : V) (max_proof_size_bytes : Z) :
  service bytes bytes :=
  let auth := layer_from_config auth_token in
  let rpc_module := rpc_methods openrpc_spec (MkVaultRpcImpl vault max_proof_size_bytes) in
  auth_call (auth_layer auth (jr_service (http_body_limit max_proof_size_bytes) jr_default_response rpc_module)).

Definition server_log (lvl : Level) (msg : string) : prog serverE unit :=
  trigger (ServerLog (MkLog lvl "tari_vault::rpc" msg)).

Definition any {A} (e : serverE (result A string)) : prog serverE (result A AnyError) :=
  map_err_p (fun e => [e]) (trigger e).

Context (socket_display : SocketAddr -> string).

(** [start_plain]; [stack] is the service the middleware and the methods make. *)
Definition start_plain (bind_addr : string) (stack : service bytes bytes) (max_proof_size_bytes : Z) :
  prog serverE (result (SocketAddr * nat) AnyError) :=
  server <-? any (BuildServer (http_body_limit max_proof_size_bytes) bind_addr);
  addr <-? any (LocalAddr server);
  handle ← trigger (StartServer server stack);
  _ ← server_log Info ("Vault RPC server listening on http://" +:+ socket_display addr);
  Ret (Ok (addr, handle)).

(** [start_tls] *)
Definition start_tls (bind_addr : string) (stack : service bytes bytes) (tls_cfg : TlsConfig)
    (max_proof_size_bytes : Z) : prog serverE (result (SocketAddr * nat) AnyError) :=
  tls_acceptor <-? build_tls_acceptor tls_cfg;
  plain_server <-? any (BuildServer (http_body_limit max_proof_size_bytes) "127.0.0.1:0");
  plain_addr <-? any (LocalAddr plain_server);
  server_handle ← trigger (StartServer plain_server stack);
  tls_listener <-? any (TcpBind bind_addr);
  tls_addr <-? any (ListenerAddr tls_listener);
  _ ← server_log Info ("Vault RPC server listening on https://" +:+ socket_display tls_addr);
  _ ← trigger (SpawnAcceptLoop tls_listener tls_acceptor plain_addr);
  Ret (Ok (tls_addr, server_handle)).

(** One turn of the accept loop. *)
Definition accept_connection (tls_listener : nat) (acceptor : tls_acceptor) (plain_addr : SocketAddr) :
  prog serverE unit :=
  r ← trigger (TcpAccept tls_listener);
  match r with
  | Err e => server_log Warn ("TLS accept error: " +:+ e)
  | Ok tcp => trigger (SpawnConnection acceptor tcp plain_addr)
  end.

(** The task of one connection; [peer] is its printed address. *)
Definition tls_connection (acceptor : tls_acceptor) (tcp : nat) (peer : string)
    (plain_addr : SocketAddr) : prog serverE unit :=
  r ← trigger (TlsAccept acceptor tcp);
  match r with
  | Err e => server_log Warn ("TLS handshake failed from " +:+ peer +:+ ": " +:+ e)
  | Ok tls_stream =>
      c ← trigger (TcpConnect plain_addr);
      match c with
      | Err e => server_log Warn ("Failed to connect to plain server: " +:+ e)
      | Ok plain_stream =>
          d ← trigger (CopyBidirectional tls_stream plain_stream);
          match d with
          | Err e => server_log Debug ("TLS proxy connection closed: " +:+ e)
          | Ok _ => Ret tt
          end
      end
  end.

(** [start_server] *)
Definition start_server (bind_addr : string) (vault : V) (auth_token : option string)
    (tls : option TlsConfig) (insecure_no_tls : bool) (max_proof_size_bytes : Z) :
  prog serverE (result (SocketAddr * nat) AnyError) :=
  _ <-? Ret (check_tls_for_non_loopback bind_addr tls insecure_no_tls);
  let stack := http_stack auth_token vault max_proof_size_bytes in
  match tls with
  | None => start_plain bind_addr stack max_proof_size_bytes
  | Some tls_cfg => start_tls bind_addr stack tls_cfg max_proof_size_bytes
  end.
End Server.
