(* ===== verification/ServerModel.v ===== *)
(** One executable instance of the interfaces of Server.v: a JSON-RPC server
    over the JSON text of JsonText.v, certificates that are their bytes. *)
From S2P Require Export Server Models.

(** ** JSON-RPC *)

Definition member (k : string) (ms : list (string * json)) : option json :=
  snd <$> head (filter (fun m => m.1 = k) ms).

Definition decode_params (method : string) (params : list json) : option RpcCall :=
  match params with
  | [] => if bool_decide (method = "rpc.discover") then Some Discover else None
  | [JString tok] =>
      if bool_decide (method = "vault_retrieveProof") then Some (RetrieveProof tok)
      else if bool_decide (method = "vault_deleteProof") then Some (DeleteProof tok) else None
  | [JObject ms] =>
      v ← member "proof_json" ms;
      if bool_decide (method = "vault_storeProof") then
        match member "expires_in_secs" ms with
        | Some (JNumber n) => s ← undecimal n 0; Some (StoreProof (MkParams v (Some s)))
        | Some JNull | None => Some (StoreProof (MkParams v None))
        | _ => None
        end
      else None
  | _ => None
  end.

Definition decode_call (req : HttpRequest bytes) : option (json * RpcCall) :=
  match from_document (req_body req) with
  | Ok (JObject ms) =>
      match member "id" ms, member "method" ms, member "params" ms with
      | Some id, Some (JString method), Some (JArray params) =>
          c ← decode_params method params; Some (id, c)
      | _, _, _ => None
      end
  | _ => None
  end.

Definition encode_reply (id : json) (r : result json ErrorObject) : bytes :=
  json_bytes (JObject (("id", id) ::
    match r with
    | Ok v => [("result", v)]
    | Err e => [("error", JObject [("code", JNumber (pretty (err_code e)));
                                   ("message", JString (err_message e))])]
    end)).

Definition too_big (limit : Z) : ErrorObject :=
  MkError (-32008) "Response is too big" (Some ("Exceeded max limit of " +:+ pretty limit)).

Definition text_service (limit response_limit : Z)
    (methods : RpcCall -> prog vaultE (result json ErrorObject)) : service bytes bytes := fun req =>
  if limit <? Z.of_nat (length (req_body req)) then Ret (MkResponse 413 [] [])
  else match decode_call req with
       | Some (id, c) =>
           r ← methods c;
           Ret (MkResponse 200 []
                  (encode_reply id (if Z.of_nat (length (encode_reply id r)) <=? response_limit then r
                                    else Err (too_big response_limit))))
       | None => Ret (MkResponse 400 [] [])
       end.

(** A server whose default limit on responses is [default_response]. *)
Definition text_server_with (default_response : Z) : JsonRpsee := {|
  jr_decode := decode_call;
  jr_encode := encode_reply;
  jr_default_response := default_response;
  jr_too_big := too_big;
  jr_service := text_service;
|}.

Lemma text_server_lawful default_response : @JsonRpseeLaws (text_server_with default_response).
Proof.
  split; cbn.
  - intros limit response_limit methods req Hl. unfold text_service.
    rewrite (proj2 (Z.ltb_lt _ _) Hl). by eexists.
  - intros limit response_limit methods req id c Hl Hc. unfold text_service.
    rewrite (proj2 (Z.ltb_ge _ _) Hl), Hc. by exists [].
  - done.
Qed.

#[global] Instance text_server : JsonRpsee := text_server_with 10485760.
#[global] Instance text_server_laws : JsonRpseeLaws := text_server_lawful 10485760.

(** ** Certificates and paths *)

#[global] Instance bytes_tls : Tls := {|
  tls_cert := bytes;
  tls_key := bytes;
  tls_acceptor := bytes;
  pem_certs b := [Ok b];
  pem_private_key b := Ok (match b with [] => None | _ => Some b end);
  with_single_cert certs key := Ok (concat certs ++ key);
|}.

#[global] Instance slash_paths : PathFmt := {|
  path_debug p := foldr (fun c s => s +:+ "/" +:+ c) EmptyString p;
|}.
