(* ===== verification/RpcProperties.v ===== *)
(** The properties of the JSON-RPC methods over a vault, with their
    witnesses. *)
From S2P Require Export Rpc Samples.

(** ** Concrete calls for the witnesses *)

Module RpcSample.
Definition doc : json := JObject [("root", JString "abc"); ("siblings", JArray [JNull])].
Definition spec : bytes := as_bytes "{}".
Definition max : Z := 1048576.
Definition store_call : RpcCall := StoreProof (MkParams doc (Some 3600)).
Definition token : string := claim_encode (claim_new Sample.id1 Sample.key1).

(** A proof that is no JSON, as a caller of the library may store it. *)
Definition binary : PlaintextProof := MkProof [Byte.xff].
Definition binary_deposit : Deposit :=
  MkDeposit Sample.key1 (env_nonce Sample.env 1) (proof_data binary) None.
Definition binary_world : World MapStore :=
  (serve Sample.env (RStore binary None) Sample.world).2.
Definition binary_records : Records := map_records (w_store binary_world).
Definition binary_record : StoredRecord :=
  default (MkStored (MkEncrypted [] []) 0 None) (binary_records !! Sample.id1).
End RpcSample.

Section Properties.
Context `{Base64Laws, UuidFmt, AesGcmLaws, Chrono, SerdeJsonLaws} {S : Type} `{BackendLaws S}.
Context (env : Env) (spec : bytes).
Implicit Types (w : World S) (m : Records).

(** C19: while the storage does not fail, every JSON-RPC method answers what the
    specification of its vault call answers, with errors as the code and the
    text of their kind, and changes the records exactly as that call; a method
    that makes no vault call changes nothing. *)
Theorem rpc_answers max c w m :
  (forall n, sb_time (env_clock env n)) -> sb_rep (w_store w) m -> sb_healthy (w_store w) ->
  (forall q, vault_request max c = Some q -> call_ok env q) ->
  let r := run (handle env) (rpc_methods spec (rpc_server max) c) w in
  match vault_request max c with
  | None => r.1 = Done (local_answer spec max c) /\ w_store r.2 = w_store w
  | Some q =>
      r.1 = rpc_reply (call_answer env (w_tick w) q m).1 /\
      sb_rep (w_store r.2) (call_answer env (w_tick w) q m).2 /\ sb_healthy (w_store r.2)
  end.
Proof.
  intros Hclock Hm Hh Hq. cbn zeta. destruct (vault_request max c) as [q|] eqn:Hv.
  - destruct (rpc_exact env Hclock spec max c q w m Hm Hh Hv (Hq q eq_refl)) as (w' & -> & ?). done.
  - pose proof (rpc_serve env spec max c w) as Hr. rewrite Hv in Hr. by destruct (run _ _ w).
Qed.

(** A proof whose serialized form exceeds the limit is refused with the
    invalid-parameter error before anything else happens: no randomness, no
    encryption, no storage, no log, over any vault. *)
Theorem oversized_refused `{ProofVault V} (v : V) max doc e :
  max < proof_size doc ->
  rpc_methods spec (MkVaultRpcImpl v max) (StoreProof (MkParams doc e)) =
  Ret (Err (MkError (-32006) ("Invalid parameter: " +:+ size_message max) None)).
Proof.
  intros Hsize. unfold rpc_methods, rpc_store_proof, vault_rpc_impl, handle_store_proof.
  cbn [proof_json max_proof_size_bytes]. by rewrite (proj2 (Z.ltb_lt _ _) Hsize).
Qed.

(** C39: a retrieval whose plaintext is not JSON consumes the proof without
    delivering it: the method answers an internal error and the record is
    gone, so a second retrieval does not find it. *)
Theorem undelivered_proof_consumed max id d r e w m :
  (forall n, sb_time (env_clock env n)) -> sb_rep (w_store w) m -> sb_healthy (w_store w) ->
  m !! id = Some r -> sealed d r -> live_until env (1 + w_tick w) r ->
  from_slice_value (dep_proof d) = Err e ->
  let tok := claim_encode (claim_new id (dep_key d)) in
  let r1 := run (handle env) (rpc_methods spec (rpc_server max) (RetrieveProof tok)) w in
  let r2 := run (handle env) (rpc_methods spec (rpc_server max) (RetrieveProof tok)) r1.2 in
  r1.1 = Done (Err (rpc_error (Serialization e))) /\
  r2.1 = Done (Err (rpc_error ProofNotFound)).
Proof.
  intros Hclock Hm Hh Hl Hs Hlive He. cbn zeta. set (tok := claim_encode _).
  assert (Hans : retrieve_answer (env_clock env (1 + w_tick w)) tok m =
                 (Done (Ok (MkProof (dep_proof d))), delete id m)).
  { unfold tok. rewrite (retrieve_answer_open _ _ _ _ _ _ Hl Hs) by (by eapply live_until_live).
    by rewrite (sealed_decrypt _ _ Hs). }
  destruct (rpc_exact env Hclock spec max (RetrieveProof tok) (RRetrieve tok) w m Hm Hh eq_refl I)
    as (w1 & -> & Hm1 & Hh1).
  cbn [call_answer] in *. rewrite Hans in *. split; [cbn; by rewrite He|]. cbn [snd].
  destruct (rpc_exact env Hclock spec max (RetrieveProof tok) (RRetrieve tok) w1 _ Hm1 Hh1 eq_refl I)
    as (w2 & -> & _).
  cbn [call_answer fst snd prod_map]. unfold tok.
  by rewrite retrieve_answer_absent by apply lookup_delete_eq.
Qed.
End Properties.

(** ** Witnesses *)

Section Witnesses.
Import Sample RpcSample.

Lemma rpc_answers_witness :
  (run (handle env) (rpc_methods spec (rpc_server max) store_call) world).1 =
  Done (Ok (JString token)).
Proof.
  destruct (rpc_answers env spec max store_call world ∅ sample_times sample_rep I
              (fun _ _ => proj1 (Forall_singleton _ _) (sample_calls_ok [_]))) as [Hr _].
  rewrite Hr. by vm_compute.
Defined.

Lemma oversized_refused_witness :
  rpc_methods spec (MkVaultRpcImpl MkStandardVault 10) (StoreProof (MkParams doc None)) =
  Ret (Err (MkError (-32006) ("Invalid parameter: " +:+ size_message 10) None)).
Proof. by apply oversized_refused. Defined.

Lemma undelivered_proof_consumed_witness :
  (run (handle env) (rpc_methods spec (rpc_server max) (RetrieveProof token)) binary_world).1 =
  Done (Err (rpc_error (Serialization "expected value"))).
Proof.
  apply (undelivered_proof_consumed env spec max id1 binary_deposit binary_record
           "expected value" binary_world binary_records).
  - apply sample_times.
  - done.
  - done.
  - by vm_compute.
  - split_and!; by vm_compute.
  - intros t n Ht. by vm_compute in Ht.
  - by vm_compute.
Defined.
End Witnesses.
