(* ===== verification/OpenRpcProperties.v ===== *)
(** The API document against the methods: the tests of src/rpc/discovery.rs, and
    that every answer is one the document announces. *)
From S2P Require Export OpenRpc VaultTheorems Samples.

Abbreviation doc := (to_value openrpc_json).

(** The tests hold of the embedded document. *)
Lemma discovery_tests_pass `{SerdeJson} spec :
  from_slice_value spec = Ok doc ->
  openrpc_spec_is_valid_json spec && openrpc_spec_has_required_fields spec &&
  all_vault_methods_are_documented spec && all_custom_error_codes_are_documented spec = true.
Proof.
  intros Hspec. unfold openrpc_spec_is_valid_json, openrpc_spec_has_required_fields,
    all_vault_methods_are_documented, all_custom_error_codes_are_documented. rewrite Hspec.
  by vm_compute.
Qed.

(** The codes the document lists. *)
Lemma store_codes : documented_codes doc "vault_storeProof" = [-32006; -32005].
Proof. by vm_compute. Qed.

Lemma retrieve_codes :
  documented_codes doc "vault_retrieveProof" = [-32001; -32002; -32003; -32004; -32005].
Proof. by vm_compute. Qed.

Lemma delete_codes : documented_codes doc "vault_deleteProof" = [-32001; -32003; -32005].
Proof. by vm_compute. Qed.

(** The results and the errors the document announces, with what it leaves
    out. *)
Definition announced (c : RpcCall) (r : result json ErrorObject) : Prop :=
  match r with
  | Ok v => conforms doc (result_schema doc (method_name c)) v = true
  | Err e => err_code e ∈ documented_codes doc (method_name c) \/ undocumented c (err_code e)
  end.

Lemma token_announced params tok :
  String.length tok = 64%nat -> announced (StoreProof params) (Ok (JString tok)).
Proof.
  intros Hl. unfold announced. cbn [method_name].
  assert (resolve doc (result_schema doc "vault_storeProof") = to_value schema_claim_id) as Hr
    by by vm_compute.
  unfold conforms. rewrite Hr. unfold length_ok. rewrite Hl. by vm_compute.
Qed.

Lemma object_announced tok o : announced (RetrieveProof tok) (Ok (proof_object_to_json o)).
Proof. by vm_compute. Qed.

Lemma null_announced tok : announced (DeleteProof tok) (Ok JNull).
Proof. by vm_compute. Qed.

(** An error a method may answer. *)
Definition may_fail (c : RpcCall) (e : VaultError) : Prop :=
  match c, e with
  | StoreProof _, (InvalidParameter _ | Serialization _ | Storage _ | DecryptionFailed) => True
  | RetrieveProof _, InvalidParameter _ => False
  | RetrieveProof _, _ => True
  | DeleteProof _, (ProofNotFound | ProofExpired | InvalidClaimId | Storage _) => True
  | _, _ => False
  end.

Lemma error_announced c e : may_fail c e -> announced c (Err (rpc_error e)).
Proof.
  destruct c as [ps|tok|tok|]; cbn [announced rpc_error err_code method_name undocumented];
    rewrite ?store_codes, ?retrieve_codes, ?delete_codes; destruct e; cbn; try done; intros _;
    first [by right | left; by apply (bool_decide_unpack _)].
Qed.

Section Conformance.
Context `{Base64Laws, UuidFmt, AesGcm, Chrono, SerdeJson} {S : Type} `{BackendLaws S} (env : Env).
Implicit Types (w : World S).

#[local] Arguments announced : simpl never.

(** The answers a vault call can become. *)
Lemma reply_announced c q n m a m' max r :
  vault_request max c = Some q -> call_post env n q m a m' -> rpc_reply a = Done r -> announced c r.
Proof.
  intros Hv Hp Hr. destruct c as [[v e]|tok|tok|]; cbn [vault_request] in Hv; [| | |done].
  - destruct (_ <? _); [done|]. destruct (proof_from_json v) as [p|]; [|done]. injection Hv as <-.
    destruct a as [[[tk|err]| |]| | |]; try done; cbn in Hp, Hr; injection Hr as <-.
    + destruct Hp as (_ & -> & _). apply token_announced, encode_length.
    + apply (error_announced (StoreProof _)). by destruct err.
  - injection Hv as <-.
    destruct a as [|[[p|err]| |]| |]; try done; cbn in Hr; injection Hr as <-.
    + destruct (from_slice_value (proof_data p)) as [v|err].
      * exact (object_announced tok (MkProofObject v)).
      * by apply (error_announced (RetrieveProof tok) (Serialization err)).
    + apply (error_announced (RetrieveProof _)). cbn in Hp. by destruct err.
  - injection Hv as <-.
    destruct a as [| |[[[]|err]| |]|]; try done; cbn in Hr; injection Hr as <-.
    + apply null_announced.
    + apply (error_announced (DeleteProof _)). cbn in Hp. by destruct err.
Qed.

(** C20: the API answers what its OpenRPC document announces: whatever the storage
    does, a result of a method has the type the document gives it (a token is a
    string of 64 characters, a proof an object with the member [proof_json], a
    deletion null), and an error is one the document lists for the method, except
    that deleting an expired proof answers the unlisted [ProofExpired] and storing
    may answer the unlisted [DecryptionFailed]. *)
Theorem answers_match_document spec max c w w' m r :
  from_slice_value spec = Ok doc ->
  (forall n, sb_time (env_clock env n)) -> sb_rep (w_store w) m ->
  (forall q, vault_request max c = Some q -> call_ok env q) ->
  run (handle env) (rpc_methods spec (rpc_server max) c) w = (Done r, w') -> announced c r.
Proof.
  intros Hspec Hclock Hm Hq Hrun. pose proof (rpc_serve env spec max c w) as Hs. rewrite Hrun in Hs.
  destruct (vault_request max c) as [q|] eqn:Hv.
  - destruct Hs as [Hr _]. destruct (serve_post env q w m Hclock Hm (Hq q eq_refl)) as (m' & _ & Hp & _).
    by eapply reply_announced.
  - destruct Hs as [Hr _]. injection Hr as ->.
    destruct c as [[v e]|tok|tok|]; cbn [vault_request local_answer] in *; [|done..|].
    + destruct (_ <? _); [by apply (error_announced (StoreProof _))|].
      unfold proof_from_json in *. destruct (to_vec v); [done|].
      by apply (error_announced (StoreProof _)).
    + unfold discovery_module. rewrite Hspec. by vm_compute.
Qed.
End Conformance.

(** ** Concrete runs *)

Module OpenRpcSample.
Import Sample.
Definition spec : bytes := json_bytes doc.

(** The sample record, once its hour is over. *)
Definition late_env : Env :=
  MkEnv (fun n => 1700003700 * nanos_per_sec + Z.of_nat n) (env_key env) (env_nonce env) (env_uuid env).
Definition late_delete : outcome (result json ErrorObject) * World MapStore :=
  run (handle late_env) (rpc_methods spec (rpc_server 1024) (DeleteProof token)) stored_world.
End OpenRpcSample.

Section Witnesses.
Import Sample OpenRpcSample.

Lemma spec_parses : from_slice_value spec = Ok doc.
Proof. by vm_compute. Qed.

(** The error of a deletion that came too late is not in the document. *)
Example expired_delete_undocumented :
  late_delete.1 = Done (Err (MkError (-32002) "Proof has expired" None)) /\
  -32002 ∉ documented_codes doc "vault_deleteProof".
Proof. split; [by vm_compute|]. rewrite delete_codes. by apply (bool_decide_unpack _). Qed.

(** The example token of the document does not meet the schema it illustrates: it
    has 65 characters. *)
Example example_token_too_long :
  let schema := index (index (index doc "components") "schemas") "ClaimId" in
  exists tok, index schema "examples" = JArray [JString tok] /\
    String.length tok = 65%nat /\ conforms doc schema (JString tok) = false.
Proof. eexists. split; [by vm_compute|]. split; by vm_compute. Qed.

Lemma answers_match_document_witness :
  late_delete.1 = Done (Err (MkError (-32002) "Proof has expired" None)) /\
  announced (DeleteProof token) (Err (MkError (-32002) "Proof has expired" None)).
Proof.
  split; [by vm_compute|].
  apply (answers_match_document late_env spec 1024 (DeleteProof token) stored_world late_delete.2
           stored_records).
  - apply spec_parses.
  - done.
  - apply stored_rep.
  - by intros q [= <-].
  - by vm_compute.
Defined.
End Witnesses.
