(* ===== verification/ServerProperties.v ===== *)
(** The properties of the HTTP server: where it listens, what a request passes,
    and a proof's way through two requests; with their witnesses. *)
From S2P Require Export ServerModel RpcProperties.

(** ** Concrete requests for the witnesses *)

Module HttpSample.
Import RpcSample.

Definition secret : string := "secret".
Definition request (auth : string) (id : string) (method : string) (params : json) : HttpRequest bytes :=
  MkRequest [("authorization", as_bytes auth)]
    (json_bytes (JObject [("jsonrpc", JString "2.0"); ("id", JString id);
                          ("method", JString method); ("params", JArray [params])])).

Definition store_request : HttpRequest bytes :=
  request "Bearer secret" "1" "vault_storeProof"
    (JObject [("proof_json", doc); ("expires_in_secs", JNumber "3600")]).
Definition long_request : HttpRequest bytes :=
  request "Bearer secret" "1" "vault_storeProof"
    (JObject [("proof_json", JString "a proof whose answer takes more than the hundred bytes of a small limit on responses, as a long one does");
              ("expires_in_secs", JNumber "3600")]).
Definition retrieve_request : HttpRequest bytes :=
  request "Bearer secret" "2" "vault_retrieveProof" (JString token).
Definition intruder : HttpRequest bytes :=
  request "Bearer guess" "3" "vault_deleteProof" (JString token).

(** A token with a character outside ASCII, in UTF-8. *)
Definition accented : string := of_bytes [Byte.x63; Byte.xc3; Byte.xa9].

Definition tls_files : TlsConfig := MkTlsConfig ["cert.pem"] ["key.pem"].
Definition echo : service bytes bytes := fun req => Ret (MkResponse 200 [] (req_body req)).
(** The sample environment, with a clock that stands still. *)
Definition env : Env :=
  MkEnv (fun _ => 1700000000 * nanos_per_sec) (env_key Sample.env) (env_nonce Sample.env)
    (env_uuid Sample.env).

(** The body of the answer of a service. *)
Definition answered_body {W} (r : outcome (HttpResponse bytes) * W) : option bytes :=
  match r.1 with Done resp => Some (resp_body resp) | _ => None end.

Definition acceptor : tls_acceptor := ([] : bytes).
Definition show (_ : SocketAddr) : string := "addr".
End HttpSample.

(** ** Where plain HTTP is served *)

Definition loopback_bind (addr : string) : Prop :=
  exists a, parse_socket_addr addr = Some a /\ is_loopback a = true /\
    (String.prefix "127." addr = true \/ String.prefix "[" addr = true).

(** Effects of a server start that may happen: plain HTTP on a loopback address
    or, without TLS, on an insecure one, and only over the stack. *)
Definition start_effect `{Tls} (tls : option TlsConfig) (insecure : bool)
    (limit : Z) (stack : service bytes bytes) X (e : serverE X) : Prop :=
  match e with
  | BuildServer l addr => l = limit /\ (loopback_bind addr \/ tls = None /\ insecure = true)
  | StartServer _ svc => svc = stack
  | _ => True
  end.

Lemma own_loopback_bind : loopback_bind "127.0.0.1:0".
Proof. exists (SocketV4 (127, 0, 0, 1) 0). split_and!; [done..|by left]. Qed.

Lemma parsed_loopback_bind addr a :
  parse_socket_addr addr = Some a -> is_loopback a = true -> loopback_bind addr.
Proof.
  intros Hp Hl. exists a. split_and!; [done..|].
  destruct (loopback_text _ _ Hp Hl) as [?|[? _]]; auto.
Qed.

(** Walks along a program that has only harmless effects. *)
Ltac stroll :=
  repeat first
    [ done
    | progress cbn
    | split; [done|]
    | progress intros
    | match goal with
      | |- context [match ?x with _ => _ end] => destruct x
      end ].

Section Start.
Context `{Tls, PathFmt, JsonRpsee, Http, Subtle, SerdeJson} {V : Type} `{ProofVault V}.
Context (spec : bytes) (show : SocketAddr -> string).

(** C22: starting the server opens a plain-HTTP listener on a loopback address
    only, an IPv4 one in 127.0.0.0/8 or the IPv6 one, unless TLS is off and the
    operator passed the insecure flag; and whatever server is started, every
    request it serves passes the authentication layer and the size limits. *)
Theorem plain_http_on_loopback bind_addr (v : V) auth_token tls insecure max :
  within (fun _ _ _ => True)
    (start_effect tls insecure (http_body_limit max) (http_stack spec auth_token v max))
    (start_server spec show bind_addr v auth_token tls insecure max).
Proof.
  unfold start_server, check_tls_for_non_loopback.
  set (stack := http_stack _ _ _ _). set (limit := http_body_limit max).
  destruct tls as [cfg|].
  - rewrite bool_decide_true by eauto. cbn -[start_tls]. unfold start_tls.
    apply within_bind; [unfold build_tls_acceptor; stroll|]. fold limit.
    intros [acc|]; cbn; [|done]. split; [split; [done|left; apply own_loopback_bind]|].
    stroll.
  - rewrite bool_decide_false by (by intros []). cbn [orb]. destruct insecure.
    + cbn. fold limit. split; [split; [done|by right]|]. stroll.
    + destruct (parse_socket_addr bind_addr) as [a|] eqn:Hp; [|done]. cbn -[is_loopback].
      destruct (is_loopback a) eqn:Hl; cbn; [|done]. fold limit.
      split; [split; [done|left; by eapply parsed_loopback_bind]|]. stroll.
Qed.

(** Without TLS and without the insecure flag, an address that is not a
    loopback one (a name, an unspecified or a public address) is refused before
    anything is opened. *)
Theorem non_loopback_refused bind_addr (v : V) auth_token max :
  (forall a, parse_socket_addr bind_addr = Some a -> is_loopback a = false) ->
  exists e, start_server spec show bind_addr v auth_token None false max = Ret (Err e).
Proof.
  intros Ha. unfold start_server, check_tls_for_non_loopback.
  rewrite bool_decide_false by (by intros []). cbn.
  destruct (parse_socket_addr bind_addr) as [a|] eqn:Hp; cbn; [|by eexists].
  rewrite (Ha a eq_refl). by eexists.
Qed.

(** The proxy of a TLS connection reaches the plain server only after the
    handshake succeeded, and copies the decrypted stream to no other address. *)
Theorem tls_handshake_first acceptor tcp peer plain tr :
  completes (tls_connection acceptor tcp peer plain) tr tt ->
  (exists s tr', tr = Ev (TlsAccept acceptor tcp) (Ok s : result nat string) :: tr' /\
     Forall (fun ev => match ev with
                       | Ev (TcpConnect addr) _ => addr = plain
                       | Ev (CopyBidirectional a _) _ => a = s
                       | _ => True
                       end) tr') \/
  Forall (fun ev => match ev with Ev (TcpConnect _) _ | Ev (CopyBidirectional _ _) _ => False
                              | _ => True end) tr.
Proof.
  unfold tls_connection; cbn. destruct tr as [|ev tr]; [done|]. intros (r & -> & Hc).
  destruct r as [s|e]; cbn in Hc.
  - left. exists s, tr. split; [done|]. destruct tr as [|ev tr]; [done|].
    destruct Hc as (c & -> & Hc). constructor; [done|]. destruct c as [p|e]; cbn in Hc.
    + destruct tr as [|ev tr]; [done|]. destruct Hc as (d & -> & Hc). constructor; [done|].
      destruct d; cbn in Hc; (destruct tr as [|ev tr]; [done|]); [done|].
      destruct Hc as (u & -> & Hc). constructor; [done|]. by destruct tr.
    + destruct tr as [|ev tr]; [done|]. destruct Hc as (d & -> & Hc). constructor; [done|].
      by destruct tr.
  - right. constructor; [done|]. destruct tr as [|ev tr]; [done|].
    destruct Hc as (d & -> & Hc). constructor; [done|]. by destruct tr.
Qed.
End Start.

(** ** What a request passes *)

Section Stack.
Context `{HttpLaws, SubtleLaws}.

(** C21: with a token configured, a request reaches the methods exactly when its
    Authorization header is that bearer token; any other is answered 401 with a
    challenge, and changes nothing in the store: one log line is all it
    leaves. *)
Theorem auth_gate {S} `{StorageBackend S} (env : Env) token (inner : service bytes bytes) req (w : World S) :
  token <> EmptyString ->
  let svc := auth_call (auth_layer (layer_from_config (Some token)) inner) in
  (carries token req -> svc req = inner req) /\
  (~ carries token req -> exists w',
     run (handle env) (svc req) w = (Done unauthorized, w') /\
     resp_status (unauthorized : HttpResponse bytes) = 401 /\
     w_store w' = w_store w /\
     w_log w' = w_log w ++ [MkLog Warn "tari_vault::auth"
                              "Rejected request: missing or invalid Bearer token"]).
Proof.
  intros Ht. cbn zeta. split.
  - intros Hc. apply (auth_call_admitted (Some token)). by intros _.
  - intros Hc. rewrite auth_call_refused; [by eexists|]. intros Ha. by apply Hc, Ha.
Qed.

(** No token configured, or an empty one, disables the layer. *)
Theorem auth_disabled (inner : service bytes bytes) token req :
  default EmptyString token = EmptyString ->
  auth_call (auth_layer (layer_from_config token) inner) req = inner req.
Proof. intros Ht. apply auth_call_admitted. destruct token; cbn in *; [|done]. by intros []. Qed.

(** A configured token with a byte that is not visible ASCII locks everybody
    out: no request at all can present it, because the header must be readable
    as ASCII text. *)
Theorem unusable_token token (inner : service bytes bytes) req :
  forallb visible_ascii (as_bytes token) = false ->
  auth_call (auth_layer (layer_from_config (Some token)) inner) req =
  (_ ← trigger (Log (MkLog Warn "tari_vault::auth"
                       "Rejected request: missing or invalid Bearer token"));
   Ret unauthorized).
Proof.
  intros Ht. apply auth_call_refused. intros Ha. destruct Ha as [_ Hv].
  - intros ->. by cbn in Ht.
  - by rewrite Hv in Ht.
Qed.
End Stack.

(** ** A proof's way through two requests *)

Section Delivery.
Context `{Base64Laws, UuidFmt, AesGcmLaws, Chrono, SerdeJsonLaws, HttpLaws, SubtleLaws, JsonRpseeLaws}.
Context {S : Type} `{BackendLaws S} (env : Env) (spec : bytes) (token : option string) (max : Z).
Context (clock_ok : forall n, sb_time (env_clock env n)).

Definition vault_stack : service bytes bytes :=
  http_stack spec token (MkArc MkStandardVault) max.

(** A request the stack lets through to the methods. *)
Definition passes (req : HttpRequest bytes) : Prop :=
  admitted token req /\ Z.of_nat (length (req_body req)) <= http_body_limit max.

Lemma run_stack req id c q r (w : World S) m :
  passes req -> jr_decode req = Some (id, c) -> vault_request max c = Some q -> call_ok env q ->
  sb_rep (w_store w) m -> sb_healthy (w_store w) ->
  rpc_reply (call_answer env (w_tick w) q m).1 = Done r ->
  exists hs w', run (handle env) (vault_stack req) w =
      (Done (MkResponse 200 hs (jr_reply jr_default_response id r)), w') /\
    sb_rep (w_store w') (call_answer env (w_tick w) q m).2 /\ sb_healthy (w_store w').
Proof.
  intros [Ha Hl] Hd Hv Hq Hm Hh Hr. unfold vault_stack, http_stack. rewrite auth_call_admitted by done.
  destruct (jr_call (http_body_limit max) jr_default_response
              (rpc_methods spec (MkVaultRpcImpl (MkArc MkStandardVault) max)) req id c Hl Hd) as [hs ->].
  destruct (rpc_exact env clock_ok spec max c q w m Hm Hh Hv Hq) as (w' & Hrun & ?).
  exists hs, w'. rewrite run_bind. unfold rpc_server in Hrun. by rewrite Hrun, Hr.
Qed.

Lemma store_call_request v e b :
  to_vec v = Ok b -> proof_size v <= max ->
  vault_request max (StoreProof (MkParams v e)) = Some (RStore (MkProof b) e).
Proof.
  intros Hb Hs. unfold vault_request. rewrite (proj2 (Z.ltb_ge _ _)) by done.
  unfold proof_from_json. by rewrite Hb.
Qed.

End Delivery.

Section Roundtrip.
Context `{Base64Laws, UuidFmt, AesGcmLaws, Chrono, SerdeJsonLaws, HttpLaws, SubtleLaws, JsonRpseeLaws}.
Context {S : Type} `{BackendLaws S} (env : Env) (spec : bytes) (token : option string) (max : Z).

Definition not_found : result json ErrorObject := Err (MkError (-32001) "Proof not found" None).
Abbreviation within_limit := (fits jr_default_response).

(** C6: end to end, through authentication, size limits and JSON-RPC: a JSON
    value posted to [vault_storeProof] is answered with a token; a later
    [vault_retrieveProof] of that token is answered with exactly that value when
    the answer is within the server's limit on responses, which is jsonrpsee's
    default whatever size of proof is configured, and otherwise with jsonrpsee's
    error -32008 in its place; and a second one is answered with the not-found
    error in either case: a value over that limit was consumed without being
    delivered.  The two short answers, the token and the not-found error, are
    assumed to be within the limit. *)
Theorem http_roundtrip req1 id1 v e exp (w : World S) m :
  (forall n, sb_time (env_clock env n)) -> sb_rep (w_store w) m -> sb_healthy (w_store w) ->
  passes token max req1 -> jr_decode req1 = Some (id1, StoreProof (MkParams v e)) ->
  is_value v -> proof_size v <= max -> max <= aead_p_max ->
  e <> Some 0 -> default 0 e <= i64_max ->
  expiry_instant (env_clock env (3 + w_tick w)) e = Some exp ->
  (forall p, call_ok env (RStore p e)) ->
  let tok := claim_encode (claim_new (env_uuid env (2 + w_tick w)) (env_key env (w_tick w))) in
  within_limit id1 (Ok (JString tok)) = true ->
  exists hs1 w1,
    run (handle env) (vault_stack spec token max req1) w =
      (Done (MkResponse 200 hs1 (jr_encode id1 (Ok (JString tok)))), w1) /\
    forall req2 id2,
      passes token max req2 -> jr_decode req2 = Some (id2, RetrieveProof tok) ->
      (forall t n, exp = Some t -> (n <= 1 + w_tick w1)%nat -> env_clock env n < t) ->
      within_limit id2 not_found = true ->
      let delivered : result json ErrorObject := Ok (JObject [("proof_json", v)]) in
      exists hs2 answer w2 hs3 w3,
        run (handle env) (vault_stack spec token max req2) w1 =
          (Done (MkResponse 200 hs2 (jr_encode id2 answer)), w2) /\
        (within_limit id2 delivered = true -> answer = delivered) /\
        (within_limit id2 delivered = false -> exists err, answer = Err err /\ err_code err = -32008) /\
        run (handle env) (vault_stack spec token max req2) w2 =
          (Done (MkResponse 200 hs3 (jr_encode id2 not_found)), w3).
Proof.
  intros Hclock Hm Hh Hp1 Hd1 Hv Hsize Hmax He0 Hei Hexp Hok tok Hf1.
  pose proof (to_vec_total v Hv) as Hb. destruct (to_vec v) as [b|] eqn:Hvec; [|done]. clear Hb.
  assert (Hlen : Z.of_nat (length b) <= aead_p_max).
  { unfold proof_size in Hsize. rewrite (to_string_to_vec v b Hvec), <- length_as_bytes,
      as_bytes_of_bytes in Hsize. lia. }
  destruct (aead_encrypt_total (env_key env (w_tick w)) (env_nonce env (1 + w_tick w)) b Hlen) as [ct Hct].
  set (id := env_uuid env (2 + w_tick w)).
  set (r := MkStored (MkEncrypted (vec_to_list (env_nonce env (1 + w_tick w))) ct)
              (env_clock env (match e with Some _ => 4 + w_tick w | None => 3 + w_tick w end)%nat) exp).
  assert (Hans : store_answer env (w_tick w) (MkProof b) e m = (Done (Ok tok), <[id := r]> m)).
  { unfold store_answer. rewrite bool_decide_false by done. cbn [proof_data]. rewrite Hct.
    rewrite (proj2 (Z.ltb_ge _ _)) by done. by rewrite Hexp. }
  assert (Hsealed : sealed_record env (w_tick w) (MkProof b) e r) by (by exists ct, exp).
  destruct (run_stack env spec token max Hclock req1 id1 _ _ (Ok (JString tok)) w m Hp1 Hd1
              (store_call_request max v e b Hvec Hsize) (Hok _) Hm Hh) as (hs1 & w1 & Hr1 & Hm1 & Hh1).
  { cbn [call_answer]. by rewrite Hans. }
  cbn [call_answer] in Hm1. rewrite Hans in Hm1. cbn [fst snd prod_map] in Hm1.
  unfold jr_reply in Hr1. rewrite Hf1 in Hr1.
  exists hs1, w1. split; [done|]. intros req2 id2 Hp2 Hd2 Hlive Hf3 delivered.
  pose proof (fun now Hx => retrieve_answer_sealed env (w_tick w) id (MkProof b) e r now (<[id := r]> m)
                Hsealed (lookup_insert_eq _ _ _) Hx) as Hret. fold tok in Hret.
  assert (Hx : is_expired_at (env_clock env (1 + w_tick w1)) r = false).
  { eapply (live_until_live env (1 + w_tick w1)); [|done]. intros t n Ht. by apply Hlive. }
  destruct (run_stack env spec token max Hclock req2 id2 _ (RRetrieve tok)
              delivered w1 _ Hp2 Hd2 eq_refl I Hm1 Hh1)
    as (hs2 & w2 & Hr2 & Hm2 & Hh2).
  { cbn [call_answer]. rewrite Hret by done. cbn. by rewrite (from_slice_to_vec v b). }
  cbn [call_answer] in Hm2. rewrite Hret in Hm2 by done. cbn [fst snd prod_map] in Hm2.
  destruct (run_stack env spec token max Hclock req2 id2 _ (RRetrieve tok)
              not_found w2 _ Hp2 Hd2 eq_refl I Hm2 Hh2)
    as (hs3 & w3 & Hr3 & _).
  { cbn [call_answer]. unfold tok. by rewrite retrieve_answer_absent by apply lookup_delete_eq. }
  unfold jr_reply in Hr2, Hr3. rewrite Hf3 in Hr3.
  exists hs2, (if within_limit id2 delivered then delivered else Err (jr_too_big jr_default_response)),
    w2, hs3, w3.
  split; [done|]. split; [by intros ->|]. split; [|done].
  intros ->. eexists. split; [done|]. apply jr_too_big_code.
Qed.
End Roundtrip.

(** ** Witnesses *)

Section Witnesses.
Import RpcSample HttpSample.

Lemma non_loopback_refused_witness :
  exists e, start_server spec show "0.0.0.0:9000" MkStandardVault None None false max = Ret (Err e).
Proof. apply non_loopback_refused. intros a Ha. vm_compute in Ha. by injection Ha as <-. Defined.

Lemma tls_handshake_first_witness :
  let tr := [Ev (TlsAccept acceptor 0) (Err "eof" : result nat string);
             Ev (ServerLog (MkLog Warn "tari_vault::rpc" "TLS handshake failed from peer: eof")) tt] in
  Forall (fun ev => match ev with Ev (TcpConnect _) _ | Ev (CopyBidirectional _ _) _ => False
                              | _ => True end) tr.
Proof.
  destruct (tls_handshake_first acceptor 0 "peer" (SocketV4 (127, 0, 0, 1) 1)
              [Ev (TlsAccept acceptor 0) (Err "eof" : result nat string);
               Ev (ServerLog (MkLog Warn "tari_vault::rpc" "TLS handshake failed from peer: eof")) tt])
    as [(s & tr' & Htr & _)|Hf].
  - cbn. eexists. split; [reflexivity|]. cbn. by eexists.
  - apply (f_equal (fun tr => match tr with
                              | Ev e x :: _ =>
                                  match e in serverE X return X -> bool with
                                  | TlsAccept _ _ => fun x => is_ok x
                                  | _ => fun _ => true
                                  end x
                              | [] => true
                              end)) in Htr. done.
  - exact Hf.
Defined.

Lemma auth_gate_witness :
  w_store (run (handle Sample.env) (vault_stack spec (Some secret) max intruder)
    Sample.stored_world).2 = w_store Sample.stored_world.
Proof.
  destruct (auth_gate Sample.env secret
              (jr_service (http_body_limit max) jr_default_response (rpc_methods spec (MkVaultRpcImpl (MkArc MkStandardVault) max)))
              intruder Sample.stored_world ltac:(done)) as [_ Hno].
  destruct Hno as (w' & Hr & _ & Hw & _).
  - intros [Hc _]. vm_compute in Hc. discriminate Hc.
  - change (vault_stack spec (Some secret) max intruder) with
      (auth_call (auth_layer (layer_from_config (Some secret))
        (jr_service (http_body_limit max) jr_default_response (rpc_methods spec (MkVaultRpcImpl (MkArc MkStandardVault) max))))
        intruder).
    rewrite Hr. exact Hw.
Defined.

Lemma auth_disabled_witness :
  auth_call (auth_layer (layer_from_config (Some EmptyString)) echo) intruder = echo intruder.
Proof. by apply auth_disabled. Defined.

Lemma unusable_token_witness :
  auth_call (auth_layer (layer_from_config (Some accented))
    echo) (request ("Bearer " +:+ accented) "1" "rpc.discover" JNull) =
  (_ ← trigger (Log (MkLog Warn "tari_vault::auth"
                       "Rejected request: missing or invalid Bearer token"));
   Ret unauthorized).
Proof. by apply unusable_token. Defined.

Lemma http_roundtrip_witness :
  exists hs1 w1 hs2 w2 hs3 w3,
    run (handle env) (vault_stack spec (Some secret) max store_request) Sample.world =
      (Done (MkResponse 200 hs1 (jr_encode (JString "1") (Ok (JString token)))), w1) /\
    run (handle env) (vault_stack spec (Some secret) max retrieve_request) w1 =
      (Done (MkResponse 200 hs2 (jr_encode (JString "2") (Ok (JObject [("proof_json", doc)])))), w2) /\
    run (handle env) (vault_stack spec (Some secret) max retrieve_request) w2 =
      (Done (MkResponse 200 hs3
        (jr_encode (JString "2") not_found)), w3).
Proof.
  destruct (http_roundtrip env spec (Some secret) max store_request (JString "1") doc (Some 3600)
              (Some (1700003600 * nanos_per_sec)) Sample.world ∅) as (hs1 & w1 & Hr1 & Hnext).
  - done.
  - apply Sample.sample_rep.
  - done.
  - split; [intros _; split; by vm_compute|by vm_compute].
  - by vm_compute.
  - repeat constructor.
  - by vm_compute.
  - by vm_compute.
  - done.
  - by vm_compute.
  - by vm_compute.
  - done.
  - by vm_compute.
  - destruct (Hnext retrieve_request (JString "2")) as (hs2 & answer & w2 & hs3 & w3 & Hr2 & Ha & _ & Hr3).
    + split; [intros _; split; by vm_compute|by vm_compute].
    + by vm_compute.
    + intros t n [= <-] _. by vm_compute.
    + by vm_compute.
    + rewrite (Ha ltac:(by vm_compute)) in Hr2.
      exists hs1, w1, hs2, w2, hs3, w3. exact (conj Hr1 (conj Hr2 Hr3)).
Defined.

(** Under a limit on responses that is too small for the value, the first
    retrieval is answered with the error and the second with not found. *)
Example oversized_reply_consumes :
  let send req w := run (handle env)
    (vault_stack (H11 := text_server_with 100) spec (Some secret) max req) w in
  let w1 := (send long_request Sample.world).2 in
  answered_body (send retrieve_request w1) =
    Some (encode_reply (JString "2") (Err (too_big 100))) /\
  answered_body (send retrieve_request (send retrieve_request w1).2) =
    Some (encode_reply (JString "2") not_found).
Proof. split; by vm_compute. Qed.
End Witnesses.
