(* ===== verification/Cleanup.v ===== *)
(** src/vault/cleanup.rs: the background task that sweeps expired proofs, as a
    state machine driven by its polls, the timer, the cancellation tokens and
    the calls of others on the same vault. *)
From S2P Require Export Calls.

(** tokio's [Interval] under [MissedTickBehavior::Skip]: the deadline after a
    tick due at [deadline] was taken at [now]. *)
Class Ticker := { next_deadline : Z -> Z -> Z -> Z }.

(** Missed ticks are skipped: the next deadline is a later point of the grid
    that starts at the first tick, at most a period ahead of now. *)
Class TickerLaws `{Ticker} : Prop := {
  next_deadline_grid deadline now period :
    0 < period -> deadline <= now ->
    deadline < next_deadline deadline now period /\
    (next_deadline deadline now period - deadline) mod period = 0 /\
    next_deadline deadline now period <= now + period;
}.

(** ** The task *)

Section Cleanup.
Context `{Ticker} {V : Type} `{ProofVault V} (vault : V) (interval : Z).

Definition cleanup_line (lvl : Level) (msg : string) : LogLine :=
  MkLog lvl "tari_vault::cleanup" msg.

(** The branch of a tick: one sweep, whose failure is only logged. *)
Definition sweep_once : prog vaultE unit :=
  r ← pv_cleanup vault;
  trigger (Log
    match r with
    | Ok O => cleanup_line Debug "Periodic sweep: no expired proofs"
    | Ok n => cleanup_line Info ("Periodic sweep removed " +:+ pretty n +:+ " expired proof(s)")
    | Err e => cleanup_line Warn ("Cleanup sweep failed: " +:+ vault_error_display e)
    end).

Inductive Phase : Type :=
| Spawned
| Selecting
| Sweeping (p : prog vaultE unit)
| Stopped
| Crashed.

(** The task, the two tokens, the timer and the world it runs in.
    [t_started] records the sweeps begun: deadline and time, newest first. *)
Record Task (S : Type) : Type := MkTask {
  t_phase : Phase;
  t_parent : bool;
  t_child : bool;
  t_deadline : Z;
  t_now : Z;
  t_world : World S;
  t_started : list (Z * Z);
}.
Arguments MkTask {S}.
Arguments t_phase {S}.
Arguments t_parent {S}.
Arguments t_child {S}.
Arguments t_deadline {S}.
Arguments t_now {S}.
Arguments t_world {S}.
Arguments t_started {S}.

(** A child token is cancelled with its parent. *)
Definition is_cancelled {S} (t : Task S) : bool := t_child t || t_parent t.

(** [spawn_cleanup_task] *)
Definition spawn_cleanup_task {S} (parent_cancelled : bool) (now : Z) (w : World S) : Task S :=
  MkTask Spawned parent_cancelled false 0 now w [].

(** [CleanupTask::stop] *)
Definition stop {S} (t : Task S) : Task S :=
  MkTask (t_phase t) (t_parent t) true (t_deadline t) (t_now t) (t_world t) (t_started t).

(** [CleanupTask::stopped] has an answer. *)
Definition stopped {S} (t : Task S) : bool :=
  match t_phase t with Stopped | Crashed => true | _ => false end.

Section Poll.
Context {S : Type} `{StorageBackend S} (env : Env).
Implicit Types (t : Task S).

Definition say (lvl : Level) (msg : string) (w : World S) : World S :=
  (run (handle env) (trigger (Log (cleanup_line lvl msg))) w).2.

Definition goto (p : Phase) t : Task S :=
  MkTask p (t_parent t) (t_child t) (t_deadline t) (t_now t) (t_world t) (t_started t).

Definition in_world (w : World S) t : Task S :=
  MkTask (t_phase t) (t_parent t) (t_child t) (t_deadline t) (t_now t) w (t_started t).

(** One poll of the task: up to its next await. *)
Definition poll t : Task S :=
  match t_phase t with
  | Spawned =>
      if interval =? 0 then goto Crashed t
      else
        let w := say Debug ("Cleanup task started (interval: " +:+
                            pretty (interval / 1000000000) +:+ "s)") (t_world t) in
        MkTask Selecting (t_parent t) (t_child t) (t_now t) (t_now t) w (t_started t)
  | Selecting =>
      if is_cancelled t then
        goto Stopped (in_world (say Debug "Cleanup task stopped"
                                  (say Debug "Cleanup task stopping" (t_world t))) t)
      else if t_deadline t <=? t_now t then
        MkTask (Sweeping sweep_once) (t_parent t) (t_child t)
          (next_deadline (t_deadline t) (t_now t) interval) (t_now t) (t_world t)
          ((t_deadline t, t_now t) :: t_started t)
      else t
  | Sweeping (Ret _) => goto Selecting t
  | Sweeping Panic => goto Crashed t
  | Sweeping (Vis e k) =>
      match handle env _ e (t_world t) with
      | Some (x, w) => goto (Sweeping (k x)) (in_world w t)
      | None => t
      end
  | Stopped | Crashed => t
  end.

(** *** Schedules *)

Inductive Action : Type :=
| Poll
| CancelParent
| StopTask
| Elapse (d : nat)
| Other {X : Type} (e : vaultE X).

Definition act (a : Action) t : Task S :=
  match a with
  | Poll => poll t
  | CancelParent =>
      MkTask (t_phase t) true (t_child t) (t_deadline t) (t_now t) (t_world t) (t_started t)
  | StopTask => stop t
  | Elapse d =>
      MkTask (t_phase t) (t_parent t) (t_child t) (t_deadline t) (t_now t + Z.of_nat d)
        (t_world t) (t_started t)
  | Other e =>
      match handle env _ e (t_world t) with
      | Some (_, w) => in_world w t
      | None => t
      end
  end.

Definition play (sched : list Action) t : Task S := foldl (fun t a => act a t) t sched.

(** How often a schedule polls the task. *)
Definition polls (sched : list Action) : nat :=
  length (filter (fun a => match a with Poll => true | _ => false end = true) sched).

(** A schedule in which time passes and the task is polled, and nothing else
    happens. *)
Definition undisturbed (sched : list Action) : Prop :=
  Forall (fun a => match a with Poll | Elapse _ => True | _ => False end) sched.
End Poll.
End Cleanup.

Arguments MkTask {S}.
Arguments t_phase {S}.
Arguments t_parent {S}.
Arguments t_child {S}.
Arguments t_deadline {S}.
Arguments t_now {S}.
Arguments t_world {S}.
Arguments t_started {S}.

#[global] Instance skip_ticker : Ticker := {|
  next_deadline deadline now period :=
    if deadline + 5000000 <? now then now + period - (now - deadline) mod period
    else deadline + period;
|}.

#[global] Instance skip_ticker_laws : TickerLaws.
Proof.
  split. intros deadline now period Hp Hd; cbn.
  pose proof (Z.mod_pos_bound (now - deadline) period Hp).
  destruct (Z.ltb_spec (deadline + 5000000) now) as [Hlt|Hge].
  - split_and!; [| |lia].
    + pose proof (Z.mod_le (now - deadline) period). lia.
    + replace (now + period - (now - deadline) mod period - deadline)
        with ((now - deadline) / period * period + 1 * period)
        by (pose proof (Z.div_mod (now - deadline) period); lia).
      rewrite <- Z.mul_add_distr_r. apply Z.mod_mul. lia.
  - split_and!; [lia| |lia]. replace (deadline + period - deadline) with (1 * period) by lia.
    apply Z.mod_mul. lia.
Qed.

(** ** Programs that end

    [calm n p]: [p] never panics and performs at most [n] effects. *)
Fixpoint calm {E A} (n : nat) (p : prog E A) {struct p} : Prop :=
  match p with
  | Ret _ => True
  | Panic => False
  | Vis _ k => match n with O => False | S n' => forall x, calm n' (k x) end
  end.

Lemma calm_mono {E A} n m (p : prog E A) : (n <= m)%nat -> calm n p -> calm m p.
Proof.
  revert n m. induction p as [a| |X e k IH]; intros n m Hnm; cbn; [done..|].
  destruct n as [|n]; [done|]. destruct m as [|m]; [lia|]. intros Hp x. eapply IH; [|apply Hp]. lia.
Qed.

Lemma calm_bind {E A B} n m (p : prog E A) (f : A -> prog E B) :
  calm n p -> (forall a, calm m (f a)) -> calm (n + m) (p ≫= f).
Proof.
  intros Hp Hf. revert n Hp. induction p as [a| |X e k IH]; intros n; cbn; [|done|].
  - intros _. eapply calm_mono; [|apply Hf]. lia.
  - destruct n as [|n]; [done|]. cbn. intros Hp x. by apply IH.
Qed.

Section Lemmas.
Context `{TickerLaws} {V : Type} `{ProofVault V} (vault : V) (interval : Z).
Context (interval_pos : 0 < interval) (depth : nat) (cleanup_calm : calm depth (pv_cleanup vault)).
Context {S : Type} `{StorageBackend S} (env : Env).
Implicit Types (t : Task S).

Lemma sweep_once_calm : calm (Datatypes.S depth) (sweep_once vault).
Proof. rewrite <- Nat.add_1_r. by apply calm_bind. Qed.

(** *** Invariant

    A task never crashes, stops only when cancelled, and sweeps calmly. *)
Definition sound_phase t : Prop :=
  match t_phase t with
  | Spawned | Selecting => True
  | Sweeping p => calm (Datatypes.S depth) p
  | Stopped => is_cancelled t = true
  | Crashed => False
  end.

Abbreviation polled := (poll vault interval env).
Abbreviation acted := (act vault interval env).
Abbreviation played := (play vault interval env).

Ltac cases_poll t :=
  unfold poll; destruct t as [[| |[[]| |X e f]| |] par ch dl now w st]; cbn.

Lemma sound_poll t : sound_phase t -> sound_phase (polled t).
Proof.
  unfold sound_phase. cases_poll t; try done.
  - intros _. by rewrite (proj2 (Z.eqb_neq _ _)) by lia.
  - intros _. unfold is_cancelled; cbn. destruct (ch || par) eqn:Hc; cbn; [done|].
    destruct (dl <=? now); cbn; [|done]. apply sweep_once_calm.
  - intros Hk. destruct (handle_total env e w) as (x & w' & ->). cbn.
    eapply (calm_mono depth); [lia|apply Hk].
Qed.

Lemma sound_act a t : sound_phase t -> sound_phase (acted a t).
Proof.
  destruct a as [| | |d|X e]; [apply sound_poll|unfold sound_phase, is_cancelled; cbn..].
  - rewrite orb_true_r. by destruct (t_phase t).
  - by destruct (t_phase t).
  - done.
  - by destruct (handle env X e _) as [[x w']|].
Qed.

Lemma sound_play sched t : sound_phase t -> sound_phase (played sched t).
Proof. revert t. induction sched as [|a sched IH]; intros t Ht; [done|]. by apply IH, sound_act. Qed.

(** *** Cancellation *)

Lemma cancelled_act a t : is_cancelled t = true -> is_cancelled (acted a t) = true.
Proof.
  destruct a as [| | |d|X e]; [|destruct t; unfold is_cancelled; cbn; intros Hc..].
  - unfold is_cancelled. cases_poll t; try done.
    + by destruct (interval =? 0).
    + unfold is_cancelled; cbn. intros Hc. by rewrite Hc.
    + by destruct (handle env X e w) as [[]|].
  - by rewrite orb_true_r.
  - done.
  - done.
  - by destruct (handle env X e _) as [[]|].
Qed.

Lemma cancelled_started a t :
  is_cancelled t = true -> t_started (acted a t) = t_started t.
Proof.
  destruct a as [| | |d|X e]; [|done..|].
  - unfold is_cancelled. cases_poll t; try done.
    + by destruct (interval =? 0).
    + unfold is_cancelled; cbn. intros Hc. by rewrite Hc.
    + by destruct (handle env X e w) as [[]|].
  - intros _. cbn. by destruct (handle env X e _) as [[]|].
Qed.

(** The polls a cancelled task still needs. *)
Definition settles (k : nat) t : Prop :=
  match t_phase t with
  | Stopped | Crashed => True
  | Selecting => (1 <= k)%nat
  | Spawned => (2 <= k)%nat
  | Sweeping p => exists n, calm n p /\ (n + 2 <= k)%nat
  end.

Lemma sound_settles t : sound_phase t -> settles (3 + depth) t.
Proof.
  unfold sound_phase, settles. destruct (t_phase t); try done; try lia.
  exists (Datatypes.S depth). split; [done|lia].
Qed.

Lemma settles_poll k t :
  is_cancelled t = true -> settles (1 + k) t -> settles k (polled t).
Proof.
  unfold is_cancelled, settles. cases_poll t; try done.
  - intros _ Hk. destruct (interval =? 0); cbn; [done|lia].
  - unfold is_cancelled; cbn. intros Hc. by rewrite Hc.
  - intros _ (n & _ & Hn). lia.
  - intros _ (n & Hc & Hn). destruct n as [|n]; [done|].
    destruct (handle_total env e w) as (x & w' & ->). cbn. exists n. split; [done|lia].
Qed.

Lemma settles_other a k t :
  (match a with Poll => False | _ => True end) -> settles k t -> settles k (acted a t).
Proof.
  unfold settles. destruct a as [| | |d|X e]; cbn; try done. intros _.
  by destruct (handle env X e _) as [[]|].
Qed.

Lemma polls_cons a sched :
  polls (a :: sched) = ((match a with Poll => 1 | _ => 0 end) + polls sched)%nat.
Proof. unfold polls. rewrite filter_cons. by destruct a. Qed.

Lemma settles_act a k t :
  is_cancelled t = true -> settles k t ->
  settles (k - (match a with Poll => 1 | _ => 0 end)) (acted a t).
Proof.
  intros Hc Hk. destruct a as [| | |d|X e]; [|rewrite Nat.sub_0_r; by apply settles_other..].
  apply settles_poll; [done|]. destruct k as [|k]; [|by rewrite Nat.sub_1_r].
  unfold settles in *. destruct (t_phase t); try done; try lia. destruct Hk as (n & ? & ?).
  exists n. split; [done|lia].
Qed.

Lemma cancelled_play k sched t :
  sound_phase t -> is_cancelled t = true -> settles k t ->
  t_started (played sched t) = t_started t /\
  ((k <= polls sched)%nat -> t_phase (played sched t) = Stopped).
Proof.
  revert k t. induction sched as [|a sched IH]; intros k t Hs Hc Hk.
  - split; [done|]. cbn. intros Hle. unfold sound_phase, settles in *.
    destruct (t_phase t); try done; try lia. destruct Hk as (? & ? & ?). lia.
  - destruct (IH _ _ (sound_act a t Hs) (cancelled_act a t Hc) (settles_act a k t Hc Hk)) as [Hst Hstop].
    cbn [play foldl]. change (foldl _ ?u sched) with (played sched u).
    rewrite Hst, cancelled_started by done. split; [done|]. intros Hle. apply Hstop.
    rewrite polls_cons in Hle. lia.
Qed.

(** *** Ticks

    The sweeps of a task that took its first turn at [start]: due on the grid
    of the interval from there, none before it was due, no two for one point of
    the grid. *)
Record ticked (start : Z) t : Prop := {
  tk_start : start <= t_now t;
  tk_grid : (interval | t_deadline t - start);
  tk_ahead : start + Z.of_nat (length (t_started t)) * interval <= t_deadline t;
  tk_begun : Forall (fun ds => (interval | ds.1 - start) /\ start <= ds.1 <= ds.2 /\ ds.2 <= t_now t)
               (t_started t);
  tk_last : match t_started t with
            | [] => t_deadline t = start
            | (d, s) :: past =>
                start + Z.of_nat (length past) * interval <= d /\ t_deadline t <= s + interval
            end;
}.

Definition ticks_ok (origin : Z) t : Prop :=
  origin <= t_now t /\
  match t_phase t with
  | Spawned => t_started t = []
  | Crashed => True
  | _ => exists start, origin <= start /\ ticked start t
  end.

Lemma ticked_same start t t' :
  t_deadline t' = t_deadline t -> t_started t' = t_started t -> t_now t <= t_now t' ->
  ticked start t -> ticked start t'.
Proof.
  intros Hd Hs Hn []. split; rewrite ?Hd, ?Hs; try done; [lia|].
  eapply Forall_impl; [done|]. intros [d s]; cbn. intros (? & ? & ?). split_and!; [done|lia..].
Qed.

Lemma ticked_tick start t w :
  ticked start t -> t_deadline t <= t_now t ->
  ticked start (MkTask (Sweeping (sweep_once vault)) (t_parent t) (t_child t)
                  (next_deadline (t_deadline t) (t_now t) interval) (t_now t) w
                  ((t_deadline t, t_now t) :: t_started t)).
Proof.
  intros [Hst Hgrid Hahead Hbegun Hlast] Hdue.
  destruct (next_deadline_grid _ _ _ interval_pos Hdue) as (Hlt & Hmod & Hle).
  apply Z.mod_divide in Hmod as Hdiv; [|lia].
  assert (Hpos : interval <= next_deadline (t_deadline t) (t_now t) interval - t_deadline t)
    by (apply Z.divide_pos_le; [lia|done]).
  split; cbn [t_now t_deadline t_started length].
  - done.
  - replace (next_deadline (t_deadline t) (t_now t) interval - start)
      with ((next_deadline (t_deadline t) (t_now t) interval - t_deadline t) + (t_deadline t - start))
      by lia. by apply Z.divide_add_r.
  - lia.
  - constructor; [|done]. cbn. split; [done|]. split; [|done]. nia.
  - split; lia.
Qed.

Lemma ticks_poll origin t : ticks_ok origin t -> ticks_ok origin (polled t).
Proof.
  unfold ticks_ok. intros [Hnow Ht]. destruct (t_phase t) as [| |p| |] eqn:Hp; unfold poll; rewrite Hp.
  - rewrite (proj2 (Z.eqb_neq _ _)) by lia. cbn. split; [done|]. exists (t_now t). split; [done|].
    rewrite Ht. split; cbn; rewrite ?Z.sub_diag; try done; try lia. apply Z.divide_0_r.
  - destruct Ht as (start & Hs & Ht). destruct (is_cancelled t); [|destruct (Z.leb_spec (t_deadline t) (t_now t))].
    + cbn. split; [done|]. exists start. split; [done|]. by eapply ticked_same; [..|exact Ht].
    + split; [done|]. exists start. split; [done|]. by apply ticked_tick.
    + rewrite Hp. split; [done|]. by exists start.
  - destruct Ht as (start & Hs & Ht). destruct p as [u| |X e f].
    + cbn. split; [done|]. exists start. split; [done|]. by eapply ticked_same; [..|exact Ht].
    + by cbn.
    + destruct (handle_total env e (t_world t)) as (x & w & ->). cbn. split; [done|].
      exists start. split; [done|]. by eapply ticked_same; [..|exact Ht].
  - by rewrite Hp.
  - by rewrite Hp.
Qed.

Lemma ticks_act a origin t : ticks_ok origin t -> ticks_ok origin (acted a t).
Proof.
  destruct a as [| | |d|X e]; [apply ticks_poll|intros [Hnow Ht]..]; unfold ticks_ok; cbn.
  4: destruct (handle_total env e (t_world t)) as (x & w & ->); cbn.
  all: (split; [lia|]); destruct (t_phase t); try done; destruct Ht as (start & Hs & Ht);
    exists start; (split; [done|]); (eapply ticked_same; [..|exact Ht]); cbn; done || lia.
Qed.

Lemma ticks_play sched origin t : ticks_ok origin t -> ticks_ok origin (played sched t).
Proof. revert t. induction sched as [|a sched IH]; intros t Ht; [done|]. by apply IH, ticks_act. Qed.

(** *** Undisturbed polls *)

Lemma play_run (p : prog vaultE unit) t w :
  t_phase t = Sweeping p -> run (handle env) p (t_world t) = (Done tt, w) ->
  exists k, played (replicate k Poll) t = goto Selecting (in_world w t).
Proof.
  revert t. induction p as [[]| |X e f IH]; intros t Hp Hr; cbn in Hr; [|done|].
  - exists 1%nat. injection Hr as <-. cbn. unfold poll. rewrite Hp. by destruct t.
  - destruct (handle_total env e (t_world t)) as (x & w1 & He). rewrite He in Hr.
    destruct (IH x (goto (Sweeping (f x)) (in_world w1 t)) eq_refl Hr) as [k Hk].
    exists (Datatypes.S k). cbn.
    replace (polled t) with (goto (Sweeping (f x)) (in_world w1 t)); [exact Hk|].
    unfold poll. by rewrite Hp, He.
Qed.
End Lemmas.
