(* ===== verification/Tests.v ===== *)
(** The unit tests of src/vault/proof_vault.rs, src/vault/cleanup.rs,
    src/storage/local_file.rs and src/storage/sqlite.rs as programs over the
    effects of the vault: a test panics where an assertion or an [unwrap] fails. *)
From Stdlib Require Import Ascii.
From S2P Require Export Cleanup.

(** ** Assertions *)

Section Asserts.
Context {A Er : Type}.

Definition unwrap (r : result A Er) : prog vaultE A :=
  match r with Ok a => Ret a | Err _ => Panic end.

Definition unwrap_err (r : result A Er) : prog vaultE Er :=
  match r with Ok _ => Panic | Err e => Ret e end.
End Asserts.

Definition assert (b : bool) : prog vaultE unit := if b then Ret tt else Panic.

(** [p.await.unwrap()] *)
Definition await_unwrap {A Er} (p : prog vaultE (result A Er)) : prog vaultE A := p ≫= unwrap.
Definition await_unwrap_err {A Er} (p : prog vaultE (result A Er)) : prog vaultE Er := p ≫= unwrap_err.

(** [Utc::now() + chrono::Duration::seconds(s)] *)
Definition now_plus `{Chrono} (s : Z) : prog vaultE Z :=
  now ← trigger UtcNow;
  match d ← duration_seconds s; datetime_add now d with
  | Some t => Ret t
  | None => Panic
  end.

(** [matches!(err, VaultError::ProofNotFound)] and the like. *)
Definition is_proof_not_found (e : VaultError) : bool :=
  match e with ProofNotFound => true | _ => false end.
Definition is_expired_or_not_found (e : VaultError) : bool :=
  match e with ProofExpired | ProofNotFound => true | _ => false end.
Definition is_invalid_parameter (e : VaultError) : bool :=
  match e with InvalidParameter _ => true | _ => false end.
Definition is_not_found (r : result StoredRecord StorageError) : bool :=
  match r with Err NotFound => true | _ => false end.

(** [==] on [serde_json::Value]. *)
Fixpoint json_eqb (a b : json) {struct a} : bool :=
  match a, b with
  | JNull, JNull => true
  | JBool x, JBool y => bool_decide (x = y)
  | JNumber x, JNumber y => bool_decide (x = y)
  | JString x, JString y => bool_decide (x = y)
  | JArray l, JArray k =>
      (fix go l k := match l, k with
                     | [], [] => true
                     | x :: l, y :: k => json_eqb x y && go l k
                     | _, _ => false
                     end) l k
  | JObject l, JObject k =>
      (fix go l k := match l, k with
                     | [], [] => true
                     | (i, x) :: l, (j, y) :: k => bool_decide (i = j) && json_eqb x y && go l k
                     | _, _ => false
                     end) l k
  | _, _ => false
  end.

(** ** src/vault/proof_vault.rs *)

Module ProofVaultTests.
Section Tests.
Context `{Base64, UuidFmt, AesGcm, Chrono, SerdeJson}.

(** [json!({"root": "abc123", "path": [1, 2, 3]})] *)
Definition proof_value : json :=
  JObject [("path", JArray [JNumber "1"; JNumber "2"; JNumber "3"]); ("root", JString "abc123")].

Definition store_and_retrieve_json_proof : prog vaultE unit :=
  proof ← unwrap (proof_from_json proof_value);
  claim_id ← await_unwrap (store_proof proof None);
  _ ← assert (String.length claim_id =? 64)%nat;
  retrieved ← await_unwrap (retrieve_proof claim_id);
  retrieved_json ← unwrap (into_json retrieved).1;
  assert (json_eqb retrieved_json proof_value).

Definition single_use_enforced : prog vaultE unit :=
  let proof := proof_from_bytes (as_bytes "secret") in
  claim_id ← await_unwrap (store_proof proof None);
  _ ← await_unwrap (retrieve_proof claim_id);
  err ← await_unwrap_err (retrieve_proof claim_id);
  assert (is_proof_not_found err).

Definition store_proof_with_zero_ttl_returns_invalid_parameter : prog vaultE unit :=
  let proof := proof_from_bytes (as_bytes "expires") in
  err ← await_unwrap_err (store_proof proof (Some 0));
  assert (is_invalid_parameter err).

Definition expired_proof_returns_error : prog vaultE unit :=
  claim_id ← await_unwrap (store_proof (proof_from_bytes (as_bytes "expires")) (Some 3600));
  decoded ← unwrap (claim_decode claim_id);
  let record_id := record_id decoded in
  record ← await_unwrap (trigger (StFetch record_id));
  past ← now_plus (-1);
  let record := MkStored (encrypted record) (stored_at record) (Some past) in
  _ ← await_unwrap (trigger (StInsert record_id record));
  err ← await_unwrap_err (retrieve_proof claim_id);
  assert (is_expired_or_not_found err).

Definition delete_proof_removes_it : prog vaultE unit :=
  let proof := proof_from_bytes (as_bytes "abort-me") in
  claim_id ← await_unwrap (store_proof proof None);
  _ ← await_unwrap (delete_proof claim_id);
  err ← await_unwrap_err (retrieve_proof claim_id);
  assert (is_proof_not_found err).

Definition delete_proof_returns_not_found_when_already_consumed : prog vaultE unit :=
  let proof := proof_from_bytes (as_bytes "consume-then-delete") in
  claim_id ← await_unwrap (store_proof proof None);
  _ ← await_unwrap (retrieve_proof claim_id);
  err ← await_unwrap_err (delete_proof claim_id);
  assert (is_proof_not_found err).

(** The character at position 30 changed to another valid one. *)
Definition tamper (claim_id : string) : string :=
  let chars := String.list_ascii_of_string claim_id in
  String.string_of_list_ascii
    (alter (fun c => if bool_decide (c = "A"%char) then "B"%char else "A"%char) 30%nat chars).

Definition wrong_claim_id_fails_decryption : prog vaultE unit :=
  let proof := proof_from_bytes (as_bytes "secret") in
  claim_id ← await_unwrap (store_proof proof None);
  let tampered := tamper claim_id in
  result ← retrieve_proof tampered;
  assert (negb (is_ok result)).
End Tests.
End ProofVaultTests.

(** ** src/storage/local_file.rs and src/storage/sqlite.rs

    The two test modules have the same text but for the store they open, and the
    second has one test more. *)
Module StorageTests.
Section Tests.
Context `{Chrono}.

Definition make_record (expires_in_secs : option Z) : prog vaultE StoredRecord :=
  stored_at ← trigger UtcNow;
  expires_at ← match expires_in_secs with
               | Some s => Some <$> now_plus s
               | None => Ret None
               end;
  Ret (MkStored (MkEncrypted (replicate 12 Byte.x00) (as_bytes "hello")) stored_at expires_at).

Definition insert_fetch_delete_round_trip : prog vaultE unit :=
  id ← trigger NewV4;
  record ← make_record None;
  _ ← await_unwrap (trigger (StInsert id record));
  fetched ← await_unwrap (trigger (StFetch id));
  _ ← assert (bool_decide (ciphertext (encrypted fetched) = as_bytes "hello"));
  _ ← await_unwrap (trigger (StDelete id));
  r ← trigger (StFetch id);
  assert (is_not_found r).

Definition delete_expired_removes_stale_records : prog vaultE unit :=
  id_expired ← trigger NewV4;
  id_valid ← trigger NewV4;
  stale ← make_record (Some (-1));
  _ ← await_unwrap (trigger (StInsert id_expired stale));
  valid ← make_record (Some 3600);
  _ ← await_unwrap (trigger (StInsert id_valid valid));
  removed ← await_unwrap (trigger StDeleteExpired);
  _ ← assert (removed =? 1)%nat;
  r ← trigger (StFetch id_expired);
  _ ← assert (is_not_found r);
  r ← trigger (StFetch id_valid);
  assert (is_ok r).
End Tests.
End StorageTests.

(** The first three have the same text as above. *)
Module SqliteTests.
Section Tests.
Context `{Chrono}.
Definition sqlite_make_record := StorageTests.make_record.
Definition sqlite_insert_fetch_delete_round_trip := StorageTests.insert_fetch_delete_round_trip.
Definition sqlite_delete_expired_removes_stale_records := StorageTests.delete_expired_removes_stale_records.

Definition delete_is_idempotent : prog vaultE unit :=
  id ← trigger NewV4;
  r ← trigger (StDelete id);
  assert (is_ok r).
End Tests.
End SqliteTests.

(** ** src/vault/cleanup.rs *)

Module CleanupTests.
Section Tests.
Context `{Base64, UuidFmt, AesGcm, Chrono, Ticker}.

Definition insert_expired_record : prog vaultE RecordId :=
  let record_id := vreplicate 16 Byte.x01 in
  past ← now_plus (-1);
  let record := MkStored (MkEncrypted (replicate 12 Byte.x00) (replicate 16 Byte.x00)) past (Some past) in
  _ ← await_unwrap (trigger (StInsert record_id record));
  Ret record_id.

Definition cleanup_removes_expired_proofs : prog vaultE unit :=
  _ ← insert_expired_record;
  valid ← await_unwrap (store_proof (proof_from_bytes (as_bytes "new")) (Some 3600));
  removed ← await_unwrap cleanup;
  _ ← assert (removed =? 1)%nat;
  r ← retrieve_proof valid;
  assert (is_ok r).

(** The two tests of the task, as the schedules of their sleeps and waits; [None]
    when an assertion fails or the wait does not end. *)
Context {S : Type} `{StorageBackend S} (env : Env).

Definition passed (o : outcome unit * World S) : bool := match o.1 with Done _ => true | _ => false end.

Definition spawn_cleanup_task_runs_and_cancels (sleep wait : list Action) (w : World S) : bool :=
  match run (handle env) insert_expired_record w with
  | (Done _, w1) =>
      let interval := 50000000 in
      let task := spawn_cleanup_task false 0 w1 in
      let slept := play (MkArc MkStandardVault) interval env sleep task in
      let ended := play (MkArc MkStandardVault) interval env wait (stop slept) in
      stopped ended &&
      passed (run (handle env) (removed ← await_unwrap cleanup; assert (removed =? 0)%nat)
                (t_world ended))
  | _ => false
  end.

Definition parent_cancel_stops_the_task (wait : list Action) (w : World S) : bool :=
  let task := spawn_cleanup_task false 0 w in
  stopped (play (MkArc MkStandardVault) 60000000000 env (CancelParent :: wait) task).
End Tests.
End CleanupTests.
