(* ===== verification/CleanupProperties.v ===== *)
(** The properties of the background cleanup task over a [StandardVault], with
    their witnesses. *)
From S2P Require Export Cleanup Samples.

(** ** Concrete tasks for the witnesses *)

Module TaskSample.
Definition interval : Z := 300.
Definition vault : StandardVault := MkStandardVault.

(** A clock past the expiry of the sample record. *)
Definition late_env : Env :=
  MkEnv (fun _ => 1700009999 * nanos_per_sec) (env_key Sample.env) (env_nonce Sample.env)
    (env_uuid Sample.env).

Definition fresh_task : Task MapStore := spawn_cleanup_task false 0 Sample.stored_world.
Definition first_turn : list Action := [Poll].
Definition busy : list Action := replicate 8 Poll ++ [Elapse 300] ++ replicate 2 Poll.
Definition cancelled_task : Task MapStore :=
  play vault interval late_env (replicate 2 Poll ++ [CancelParent]) fresh_task.
Definition selecting_task : Task MapStore := play vault interval late_env first_turn fresh_task.
End TaskSample.

Section Properties.
Context `{TickerLaws, Base64, UuidFmt, AesGcm, Chrono} {S : Type} `{StorageBackend S} (env : Env).
Context (interval : Z).
Implicit Types (t : Task S) (w : World S).

(** What a task may do after it was spawned. *)
Abbreviation played := (play MkStandardVault interval env).

Lemma cleanup_calm : calm 2 (pv_cleanup MkStandardVault).
Proof. cbn. intros [n|e]; cbn; [|done]. by destruct n. Qed.

(** A state of a task some schedule reaches. *)
Definition reachable (t : Task S) : Prop :=
  exists cancelled now w sched, t = played sched (spawn_cleanup_task cancelled now w).

Lemma reachable_sound t : 0 < interval -> reachable t -> sound_phase 2 t.
Proof.
  intros Hi (c & now & w & sched & ->). apply sound_play; [done|apply cleanup_calm|done].
Qed.

(** C32: the task survives everything but cancellation: whatever the schedule,
    the calls of others and the failures of the storage, it never panics, and
    it has stopped only if one of its two tokens was cancelled. *)
Theorem cleanup_survives t :
  0 < interval -> reachable t -> t_phase t <> Crashed /\ (stopped t = true -> is_cancelled t = true).
Proof.
  intros Hi Ht. apply reachable_sound in Ht; [|done]. unfold sound_phase, stopped in *.
  by destruct (t_phase t).
Qed.

(** C33: once either token is cancelled the task begins no further sweep, and it
    has stopped after at most five more polls, finishing the sweep it may be
    in; stopping the task leaves the parent token alone. *)
Theorem cancel_stops t sched :
  0 < interval -> reachable t -> is_cancelled t = true ->
  t_started (played sched t) = t_started t /\
  ((5 <= polls sched)%nat -> t_phase (played sched t) = Stopped) /\
  t_parent (stop t) = t_parent t.
Proof.
  intros Hi Ht Hc. apply reachable_sound in Ht as Hs; [|done].
  destruct (cancelled_play MkStandardVault interval Hi 2 cleanup_calm env 5 sched t Hs Hc
              (sound_settles 2 t Hs)).
  by split_and!.
Qed.

Lemma reachable_ticks cancelled now w sched :
  0 < interval -> ticks_ok interval now (played sched (spawn_cleanup_task cancelled now w)).
Proof. intros Hi. by apply ticks_play. Qed.

(** C34: sweeps are paced: [n] sweeps take at least [n - 1] intervals, however
    long some of them take; none begins before it is due. *)
Theorem sweeps_paced cancelled now w sched :
  0 < interval ->
  let t := played sched (spawn_cleanup_task cancelled now w) in
  (Z.of_nat (length (t_started t)) - 1) * interval <= t_now t - now /\
  Forall (fun ds => now <= ds.1 <= ds.2) (t_started t).
Proof.
  intros Hi t. pose proof (reachable_ticks cancelled now w sched Hi) as [Hnow Ht]. fold t in Hnow, Ht.
  pose proof (reachable_sound t Hi ltac:(by repeat eexists)) as Hs. unfold sound_phase in Hs.
  destruct (t_phase t); try done.
  1: rewrite Ht; cbn; split; [lia|done].
  all: destruct Ht as (start & Hle & [Hst _ _ Hbegun Hlast]); split;
    [destruct (t_started t) as [|[d s] past]; cbn [length]; [lia|];
     apply Forall_cons in Hbegun as [(_ & ? & ?) _]; cbn in *; nia
    |eapply Forall_impl; [exact Hbegun|]; intros [d s]; cbn; lia].
Qed.

(** C35: and they keep coming: the first poll after the task was first scheduled
    begins a sweep at once, and whenever the task waits, has not been
    cancelled, and an interval has passed since the last sweep began, the next
    poll begins one. *)
Theorem sweep_due t :
  0 < interval -> reachable t -> t_phase t = Selecting -> is_cancelled t = false ->
  (forall d s past, t_started t = (d, s) :: past -> s + interval <= t_now t) ->
  let t' := act MkStandardVault interval env Poll t in
  t_phase t' = Sweeping (sweep_once MkStandardVault) /\
  t_started t' = (t_deadline t, t_now t) :: t_started t.
Proof.
  intros Hi (c & now & w & sched & ->) Hp Hc Hlast. set (t := played _ _) in *.
  destruct (reachable_ticks c now w sched Hi) as [_ Ht]. fold t in Ht. rewrite Hp in Ht.
  destruct Ht as (start & _ & [Hst _ _ _ Hl]). cbn. unfold poll. rewrite Hp, Hc.
  rewrite (proj2 (Z.leb_le _ _)); [done|].
  destruct (t_started t) as [|[d s] past]; [lia|]. specialize (Hlast _ _ _ eq_refl). lia.
Qed.

End Properties.

Section Sweeps.
Context `{Ticker, Base64Laws, UuidFmt, AesGcm, Chrono} {S : Type} `{BackendLaws S} (env : Env).

(** C36: a sweep that is due and not disturbed runs to its end and leaves
    exactly the records that have not expired when it runs, and the task waits
    again. *)
Theorem sweep_clears interval (t : Task S) m :
  (forall n, sb_time (env_clock env n)) ->
  sb_rep (w_store (t_world t)) m -> sb_healthy (w_store (t_world t)) ->
  t_phase t = Selecting -> is_cancelled t = false -> t_deadline t <= t_now t ->
  exists k, let t' := play MkStandardVault interval env (replicate k Poll) t in
    t_phase t' = Selecting /\
    sb_rep (w_store (t_world t')) (sweep (env_clock env (w_tick (t_world t))) m).
Proof.
  intros Hclock Hm Hh Hp Hc Hdue.
  destruct (exact_cleanup env _ m Hm Hh (Hclock _)) as (w1 & Hr & Hm1 & _). unfold runs in Hr.
  set (t1 := poll MkStandardVault interval env t).
  assert (Ht1 : t_phase t1 = Sweeping (sweep_once MkStandardVault) /\ t_world t1 = t_world t).
  { unfold t1, poll. rewrite Hp, Hc, (proj2 (Z.leb_le _ _) Hdue). done. }
  destruct Ht1 as [Hp1 Hw1].
  assert (Hrun : exists w2, run (handle env) (sweep_once MkStandardVault) (t_world t1) = (Done tt, w2) /\
                 w_store w2 = w_store w1).
  { unfold sweep_once. rewrite run_bind, Hw1. cbn [pv_cleanup standard_vault]. rewrite Hr.
    cbn. by eexists. }
  destruct Hrun as (w2 & Hrun & Hst).
  destruct (play_run MkStandardVault interval env _ t1 w2 Hp1 Hrun) as [k Hk].
  exists (Datatypes.S k). cbn zeta. change (play _ _ _ (replicate (Datatypes.S k) Poll) t)
    with (play MkStandardVault interval env (replicate k Poll) t1).
  rewrite Hk. cbn. by rewrite Hst.
Qed.
End Sweeps.

(** ** Witnesses *)

Section Witnesses.
Import TaskSample.

Lemma interval_positive : 0 < interval.
Proof. by vm_compute. Qed.

Lemma cleanup_survives_witness :
  t_phase (play vault interval late_env busy fresh_task) <> Crashed.
Proof.
  apply (cleanup_survives late_env interval); [apply interval_positive|].
  by exists false, 0, Sample.stored_world, busy.
Defined.

Lemma cancel_stops_witness :
  t_phase (play vault interval late_env (replicate 5 Poll) cancelled_task) = Stopped.
Proof.
  apply (cancel_stops late_env interval cancelled_task); [apply interval_positive| |done|].
  - by exists false, 0, Sample.stored_world, (replicate 2 Poll ++ [CancelParent]).
  - by apply Nat.leb_le.
Defined.

Lemma sweeps_paced_witness :
  Forall (fun ds => 0 <= ds.1 <= ds.2)
    (t_started (play vault interval late_env busy fresh_task)).
Proof. apply (sweeps_paced late_env interval false 0 Sample.stored_world busy interval_positive). Defined.

Lemma sweep_due_witness :
  t_started (act vault interval late_env Poll selecting_task) = [(0, 0)].
Proof.
  destruct (sweep_due late_env interval selecting_task interval_positive) as [_ Hs].
  - by exists false, 0, Sample.stored_world, first_turn.
  - done.
  - done.
  - by intros d s past.
  - exact Hs.
Defined.

Lemma sweep_clears_witness :
  exists k m', sb_rep (w_store (t_world (play vault interval late_env (replicate k Poll) selecting_task))) m' /\
    m' !! Sample.id1 = None.
Proof.
  destruct (sweep_clears late_env interval selecting_task Sample.stored_records) as (k & _ & Hm).
  - done.
  - done.
  - done.
  - done.
  - done.
  - by vm_compute.
  - exists k. eexists. split; [exact Hm|]. by vm_compute.
Defined.
End Witnesses.
