(* ===== verification/TestsProperties.v ===== *)
(** The unit tests of the vault, the stores and the cleanup pass on every storage
    backend that meets its contract and does not fail. *)
From S2P Require Export Tests CleanupProperties LocalProperties.

Section Rules.
Context `{Base64Laws, UuidFmt, AesGcmLaws, ChronoLaws} {S : Type} `{BackendLaws S} (env : Env).
Implicit Types (w : World S) (m : Records) (c : ClaimId).

(** The clock moves by less than a second during a test, in years that every
    backend stores; an identifier differs from the one before; the cipher takes a
    kilobyte. *)
Context (times_ok : forall t, in_rfc3339 t -> sb_time t).
Context (clock_range : forall n,
  rfc3339_min + nanos_per_sec <= env_clock env n <= rfc3339_max - 3600 * nanos_per_sec).
Context (clock_slow : forall a b, env_clock env a < env_clock env b + nanos_per_sec).
Context (uuids_differ : forall n, env_uuid env n <> env_uuid env (Datatypes.S n)).
Context (cipher_takes : 1024 <= aead_p_max).

(** The run of [p] returns, in [Q]. *)
Definition does {A} (p : prog vaultE A) w (Q : A -> World S -> Prop) : Prop :=
  match run (handle env) p w with (Done a, w') => Q a w' | _ => False end.

(** The storage holds the records [m] and does not fail. *)
Definition holding m w : Prop := sb_rep (w_store w) m /\ sb_healthy (w_store w).

Lemma does_bind {A B} (p : prog vaultE A) (f : A -> prog vaultE B) w Q :
  does p w (fun a w' => does (f a) w' Q) -> does (p ≫= f) w Q.
Proof. unfold does. rewrite run_bind. by destruct (run _ p w) as [[] ?]. Qed.

Lemma does_mono {A} (p : prog vaultE A) w (Q Q' : A -> World S -> Prop) :
  does p w Q -> (forall a w', Q a w' -> Q' a w') -> does p w Q'.
Proof. unfold does. destruct (run _ p w) as [[] ?]; auto. Qed.

Lemma does_gives {A} (p : prog vaultE A) w a m Q :
  gives env p w (Done a, m) -> (forall w', holding m w' -> Q a w') -> does p w Q.
Proof. intros (w' & Hrun & Hm & Hh) HQ. unfold does, runs in *. rewrite Hrun. by apply HQ. Qed.

Lemma clock_time n : sb_time (env_clock env n).
Proof.
  apply times_ok. specialize (clock_range n). unfold in_rfc3339, nanos_per_sec in *. lia.
Qed.

(** A token opens a record. *)
Definition opens c (r : StoredRecord) (p : PlaintextProof) : Prop :=
  length (nonce (encrypted r)) = 12%nat /\
  aead_decrypt (encryption_key c) (copy_from_slice 12 (nonce (encrypted r))) (ciphertext (encrypted r)) =
    Some (proof_data p).

(** What [expires_at] is after a lifetime. *)
Definition expiry_of (e : option Z) (r : StoredRecord) : Prop :=
  match e with
  | None => expires_at r = None
  | Some s => exists n, expires_at r = Some (env_clock env n + s * nanos_per_sec)
  end.

Lemma expiry_instant_hour n :
  expiry_instant (env_clock env n) (Some 3600) = Some (Some (env_clock env n + 3600 * nanos_per_sec)).
Proof.
  unfold expiry_instant. rewrite duration_seconds_spec.
  assert (Hb : (- (i64_max / 1000) <=? 3600) && (3600 <=? i64_max / 1000) = true) by by vm_compute.
  rewrite Hb. cbn [mbind option_bind]. pose proof (clock_range n) as Hn.
  destruct datetime_range as [Hmin Hmax]. rewrite datetime_add_spec by (unfold nanos_per_sec in *; lia).
  assert (datetime_min <= env_clock env n + 3600 * nanos_per_sec <= datetime_max) as [Hlo Hhi]
    by (unfold nanos_per_sec in *; lia).
  apply Z.leb_le in Hlo, Hhi. by rewrite Hlo, Hhi.
Qed.

(** The token and the record of a proof stored from effect [n] on. *)
Record stored_as n (p : PlaintextProof) (e : option Z) c (r : StoredRecord) : Prop := MkStoredAs {
  as_token : c = claim_new (env_uuid env (2 + n)) (env_key env n);
  as_sealed : exists ct, aead_encrypt (env_key env n) (env_nonce env (1 + n)) (proof_data p) = Some ct /\
    encrypted r = MkEncrypted (vec_to_list (env_nonce env (1 + n))) ct;
  as_time : sb_time (stored_at r);
  as_expiry : expiry_of e r;
}.

Lemma stored_opens n p e c r : stored_as n p e c r -> opens c r p.
Proof.
  intros [-> (ct & Hct & Henc) _ _]. unfold opens. rewrite Henc. cbn [nonce ciphertext claim_new encryption_key].
  split; [apply length_vec_to_list|]. rewrite copy_vec_to_list. by apply aead_decrypt_iff.
Qed.

Lemma does_store p e w m :
  holding m w -> Z.of_nat (length (proof_data p)) <= 1024 -> (e = None \/ e = Some 3600) ->
  does (store_proof p e) w (fun r w' => exists n c rec, r = Ok (claim_encode c) /\
    holding (<[record_id c := rec]> m) w' /\ stored_as n p e c rec).
Proof.
  intros [Hm Hh] Hp He. pose proof (exact_store env w m p e Hm Hh) as Hg. unfold store_times_ok in Hg.
  destruct (aead_encrypt_total (env_key env (w_tick w)) (env_nonce env (1 + w_tick w)) (proof_data p))
    as [ct Hct]; [lia|].
  assert (Hx : exists x, expiry_instant (env_clock env (3 + w_tick w)) e = Some x /\
            match e with None => x = None
            | Some s => x = Some (env_clock env (3 + w_tick w) + s * nanos_per_sec) end /\
            from_option sb_time True x).
  { destruct He as [-> | ->]; [by exists None|]. eexists. rewrite expiry_instant_hour.
    split_and!; [done..|]. cbn [from_option]. apply times_ok.
    specialize (clock_range (3 + w_tick w)%nat).
    unfold in_rfc3339, nanos_per_sec in *. lia. }
  destruct Hx as (x & Hx & Hval & Hsb).
  assert (He0 : bool_decide (e = Some 0) = false) by by destruct He as [-> | ->].
  assert (Hmax : (i64_max <? default 0 e) = false) by by destruct He as [-> | ->].
  unfold store_answer in Hg. rewrite He0, Hct, Hmax, Hx in Hg.
  eapply does_gives; [apply Hg|].
  - split; [by destruct He as [-> | ->]; apply clock_time|]. intros t Ht. simplify_eq. done.
  - intros w' Hw'. eexists (w_tick w), _, _. split; [reflexivity|]. split; [exact Hw'|]. split.
    + reflexivity.
    + by exists ct.
    + destruct He as [-> | ->]; apply clock_time.
    + destruct He as [-> | ->]; cbn [expiry_of expires_at]; [done|].
      exists (3 + w_tick w)%nat. by rewrite Hval.
Qed.

Lemma decode_token c : claim_decode (claim_encode c) = Ok c.
Proof. apply ClaimId.decode_encode. Qed.

Lemma does_retrieve c rec p w m :
  holding m w -> m !! record_id c = Some rec -> opens c rec p ->
  (forall n, is_expired_at (env_clock env n) rec = false) ->
  does (retrieve_proof (claim_encode c)) w
    (fun r w' => r = Ok p /\ holding (delete (record_id c) m) w').
Proof.
  intros [Hm Hh] Hr [Hn Hd] Hx. pose proof (exact_retrieve env w m (claim_encode c) Hm Hh) as Hg.
  unfold retrieve_answer in Hg. rewrite decode_token in Hg. destruct c as [id key]. cbn in Hr, Hd |- *.
  rewrite Hr, Hx in Hg. destruct rec as [[non ct] st exp]. cbn [encrypted nonce ciphertext] in *.
  rewrite bool_decide_false in Hg by (by intros []). rewrite Hd in Hg. destruct p as [p].
  eapply does_gives; [exact Hg|]. done.
Qed.

Lemma does_retrieve_absent c w m :
  holding m w -> m !! record_id c = None ->
  does (retrieve_proof (claim_encode c)) w (fun r w' => r = Err ProofNotFound /\ holding m w').
Proof.
  intros [Hm Hh] Hr. pose proof (exact_retrieve env w m (claim_encode c) Hm Hh) as Hg.
  unfold retrieve_answer in Hg. rewrite decode_token in Hg. destruct c as [id key]. cbn in Hr.
  rewrite Hr in Hg. by eapply does_gives; [exact Hg|].
Qed.

Lemma does_retrieve_expired c rec w m :
  holding m w -> m !! record_id c = Some rec -> (forall n, is_expired_at (env_clock env n) rec = true) ->
  does (retrieve_proof (claim_encode c)) w
    (fun r w' => r = Err ProofExpired /\ holding (delete (record_id c) m) w').
Proof.
  intros [Hm Hh] Hr Hx. pose proof (exact_retrieve env w m (claim_encode c) Hm Hh) as Hg.
  unfold retrieve_answer in Hg. rewrite decode_token in Hg. destruct c as [id key]. cbn in Hr |- *.
  rewrite Hr, Hx in Hg. destruct rec as [[non ct] st exp]. by eapply does_gives; [exact Hg|].
Qed.

Lemma does_delete_proof c rec w m :
  holding m w -> m !! record_id c = Some rec -> (forall n, is_expired_at (env_clock env n) rec = false) ->
  does (delete_proof (claim_encode c)) w
    (fun r w' => r = Ok tt /\ holding (delete (record_id c) m) w').
Proof.
  intros [Hm Hh] Hr Hx. pose proof (exact_delete env w m (claim_encode c) Hm Hh) as Hg.
  unfold delete_answer in Hg. rewrite decode_token in Hg. destruct c as [id key]. cbn in Hr |- *.
  rewrite Hr, Hx in Hg. by eapply does_gives; [exact Hg|].
Qed.

Lemma does_delete_absent c w m :
  holding m w -> m !! record_id c = None ->
  does (delete_proof (claim_encode c)) w (fun r w' => r = Err ProofNotFound /\ holding m w').
Proof.
  intros [Hm Hh] Hr. pose proof (exact_delete env w m (claim_encode c) Hm Hh) as Hg.
  unfold delete_answer in Hg. rewrite decode_token in Hg. destruct c as [id key]. cbn in Hr.
  rewrite Hr in Hg. by eapply does_gives; [exact Hg|].
Qed.

Lemma does_cleanup w m :
  holding m w ->
  does cleanup w (fun r w' => exists n, r = Ok (size m - size (sweep (env_clock env n) m))%nat /\
    holding (sweep (env_clock env n) m) w').
Proof.
  intros [Hm Hh]. pose proof (exact_cleanup env w m Hm Hh (clock_time _)) as Hg.
  eapply does_gives; [exact Hg|]. intros w' Hw'. by eexists.
Qed.

(** The storage on its own. *)
Lemma does_fetch id w m :
  holding m w ->
  does (trigger (StFetch id)) w (fun r w' => r = ok_or (m !! id) NotFound /\ holding m w').
Proof.
  intros [Hm Hh]. unfold does; cbn.
  destruct (fetch_healthy_cases id _ m Hm Hh) as (s & ? & ? & ->). by split.
Qed.

Lemma does_insert id r w m :
  holding m w -> record_times sb_time r ->
  does (trigger (StInsert id r)) w (fun a w' => a = Ok tt /\ holding (<[id := r]> m) w').
Proof.
  intros [Hm Hh] Hr. unfold does; cbn.
  destruct (insert_healthy_cases id r _ m Hm Hh Hr) as (s & ? & ? & ->). by split.
Qed.

Lemma does_remove id w m :
  holding m w ->
  does (trigger (StDelete id)) w
    (fun a w' => a = Ok (bool_decide (is_Some (m !! id))) /\ holding (delete id m) w').
Proof.
  intros [Hm Hh]. unfold does; cbn.
  destruct (delete_healthy_cases id _ m Hm Hh) as (s & ? & ? & ->). by split.
Qed.

Lemma does_sweep w m :
  holding m w ->
  does (trigger StDeleteExpired) w (fun a w' => exists n,
    a = Ok (size m - size (sweep (env_clock env n) m))%nat /\ holding (sweep (env_clock env n) m) w').
Proof.
  intros [Hm Hh]. unfold does; cbn.
  destruct (sweep_healthy_cases (env_clock env (w_tick w)) _ m Hm Hh (clock_time _))
    as (s & ? & ? & ->). by eexists.
Qed.

(** Instants a second ago and an hour ahead. *)
Lemma does_now_plus s w m :
  holding m w -> (s = -1 \/ s = 3600) ->
  does (now_plus s) w (fun t w' => (exists n, t = env_clock env n + s * nanos_per_sec) /\ sb_time t /\
    holding m w').
Proof.
  intros Hw Hs. unfold now_plus, does; cbn. rewrite duration_seconds_spec.
  assert (Hb : (- (i64_max / 1000) <=? s) && (s <=? i64_max / 1000) = true)
    by by destruct Hs as [-> | ->]; vm_compute.
  rewrite Hb. cbn [mbind option_bind]. pose proof (clock_range (w_tick w)) as Hn.
  destruct datetime_range as [Hmin Hmax]. rewrite datetime_add_spec by (unfold nanos_per_sec in *; lia).
  assert (datetime_min <= env_clock env (w_tick w) + s * nanos_per_sec <= datetime_max) as [Hlo Hhi]
    by (unfold nanos_per_sec in *; lia).
  apply Z.leb_le in Hlo, Hhi. rewrite Hlo, Hhi. cbn. split; [by eexists|]. split; [|done].
  apply times_ok. unfold in_rfc3339, nanos_per_sec in *. lia.
Qed.

Lemma expired_second_ago r n k :
  expires_at r = Some (env_clock env n + -1 * nanos_per_sec) ->
  is_expired_at (env_clock env k) r = true /\ live_at (env_clock env k) r = false.
Proof.
  intros Hr. unfold is_expired_at, live_at. rewrite Hr. cbn [from_option].
  pose proof (clock_slow n k). unfold nanos_per_sec in *. split; lia.
Qed.

Lemma live_for_an_hour e r k :
  e = None \/ e = Some 3600 -> expiry_of e r ->
  is_expired_at (env_clock env k) r = false /\ live_at (env_clock env k) r = true.
Proof.
  intros [-> | ->] Hr; unfold is_expired_at, live_at; cbn [expiry_of] in Hr.
  - by rewrite Hr.
  - destruct Hr as [n Hr]. rewrite Hr. cbn [from_option].
    pose proof (clock_slow k n). unfold nanos_per_sec in *. split; lia.
Qed.

(** *** Assertions *)

Lemma does_await {A B Er} (p : prog vaultE (result A Er)) (f : A -> prog vaultE B) w Q P :
  does p w P -> (forall r w', P r w' -> match r with Ok a => does (f a) w' Q | Err _ => False end) ->
  does (await_unwrap p ≫= f) w Q.
Proof.
  intros Hp Hf. apply does_bind, does_bind. eapply does_mono; [exact Hp|]. intros r w' Hr.
  specialize (Hf r w' Hr). by destruct r.
Qed.

Lemma does_await_err {A B Er} (p : prog vaultE (result A Er)) (f : Er -> prog vaultE B) w Q P :
  does p w P -> (forall r w', P r w' -> match r with Ok _ => False | Err e => does (f e) w' Q end) ->
  does (await_unwrap_err p ≫= f) w Q.
Proof.
  intros Hp Hf. apply does_bind, does_bind. eapply does_mono; [exact Hp|]. intros r w' Hr.
  specialize (Hf r w' Hr). by destruct r.
Qed.

Lemma does_then {A B} (p : prog vaultE A) (f : A -> prog vaultE B) w Q P :
  does p w P -> (forall a w', P a w' -> does (f a) w' Q) -> does (p ≫= f) w Q.
Proof. intros Hp Hf. apply does_bind. by eapply does_mono. Qed.

Lemma does_assert {B} b (f : unit -> prog vaultE B) w Q :
  b = true -> does (f tt) w Q -> does (assert b ≫= f) w Q.
Proof. by intros ->. Qed.

Definition passes (t : prog vaultE unit) w : Prop := does t w (fun _ _ => True).

Lemma passes_assert b w : b = true -> passes (assert b) w.
Proof. by intros ->. Qed.

(** *** The tests of the vault *)

Import ProofVaultTests.

(** Every record there is was stored without a lifetime, or with an hour's. *)
Ltac stored p e c rec :=
  eapply does_await; [apply (does_store p e); [eassumption|by vm_compute|auto]|];
  intros ? ? (n & c & rec & -> & ? & ?).

(** The token of the last proof stored, used once. *)
Lemma then_retrieve {B} n c rec p w m (f : PlaintextProof -> prog vaultE B) Q e :
  holding (<[record_id c := rec]> m) w -> stored_as n p e c rec ->
  e = None \/ e = Some 3600 ->
  (forall w', holding (delete (record_id c) m) w' -> does (f p) w' Q) ->
  does (await_unwrap (retrieve_proof (claim_encode c)) ≫= f) w Q.
Proof.
  intros Hw Hr Hl Hf. eapply does_await.
  - eapply does_retrieve; [exact Hw|apply lookup_insert_eq|by eapply stored_opens|].
    intros k. eapply live_for_an_hour, Hr. exact Hl.
  - intros r w' [-> Hw']. apply Hf. by rewrite delete_insert_eq in Hw'.
Qed.

Lemma then_retrieve_fails {B} c w m (f : VaultError -> prog vaultE B) Q :
  holding (delete (record_id c) m) w -> (forall w', does (f ProofNotFound) w' Q) ->
  does (await_unwrap_err (retrieve_proof (claim_encode c)) ≫= f) w Q.
Proof.
  intros Hw Hf. eapply does_await_err.
  - eapply does_retrieve_absent; [exact Hw|apply lookup_delete_eq].
  - intros r w' [-> _]. apply Hf.
Qed.

Lemma store_and_retrieve_passes `{!SerdeJson, !SerdeJsonLaws} w m :
  is_value proof_value ->
  (forall b, to_vec proof_value = Ok b -> Z.of_nat (length b) <= 1024) ->
  holding m w -> passes store_and_retrieve_json_proof w.
Proof.
  intros Hv Hlen Hm. unfold store_and_retrieve_json_proof.
  destruct (proof_json_roundtrip proof_value Hv) as (proof & Hp & Hj). rewrite Hp. cbn [unwrap mbind prog_bind].
  eapply does_await.
  { apply (does_store proof None); [exact Hm| |by left]. unfold proof_from_json in Hp.
    destruct (to_vec proof_value) as [b|] eqn:Hb; [|done]. cbn in Hp. injection Hp as <-. by apply Hlen. }
  intros r w1 (n & c & rec & -> & Hw1 & Hrec). apply does_assert; [by rewrite encode_length|].
  eapply then_retrieve; [done|exact Hrec|by left|]. intros w2 Hw2. rewrite Hj.
  by apply passes_assert; vm_compute.
Qed.

Lemma single_use_passes w m : holding m w -> passes single_use_enforced w.
Proof.
  intros Hm. unfold single_use_enforced. stored (proof_from_bytes (as_bytes "secret")) (@None Z) c rec.
  eapply then_retrieve; [done|done|by left|]. intros w2 Hw2.
  eapply then_retrieve_fails; [done|]. intros w3. by apply passes_assert.
Qed.

Lemma zero_ttl_passes w : passes store_proof_with_zero_ttl_returns_invalid_parameter w.
Proof. done. Qed.

Lemma expired_proof_passes w m : holding m w -> passes expired_proof_returns_error w.
Proof.
  intros Hm. unfold expired_proof_returns_error.
  stored (proof_from_bytes (as_bytes "expires")) (Some 3600) c rec. rewrite decode_token.
  cbn [unwrap mbind prog_bind].
  eapply does_await; [by apply does_fetch|]. intros r w2 [-> Hw2]. rewrite lookup_insert_eq.
  cbn [ok_or]. eapply does_then; [apply does_now_plus; [exact Hw2|by left]|].
  intros past w3 ([k ->] & Hsb & Hw3).
  eapply does_await.
  { apply does_insert; [exact Hw3|]. split; [cbn [stored_at]; by eapply as_time|exact Hsb]. }
  intros r w4 [-> Hw4]. eapply does_await_err.
  { eapply does_retrieve_expired; [exact Hw4|apply lookup_insert_eq|].
    intros j. by eapply expired_second_ago. }
  intros r w5 [-> _]. by apply passes_assert.
Qed.

Lemma delete_proof_passes w m : holding m w -> passes delete_proof_removes_it w.
Proof.
  intros Hm. unfold delete_proof_removes_it. stored (proof_from_bytes (as_bytes "abort-me")) (@None Z) c rec.
  eapply does_await.
  { eapply does_delete_proof; [done|apply lookup_insert_eq|].
    intros k. eapply (live_for_an_hour None); [by left|by eapply as_expiry]. }
  intros r w2 [-> Hw2]. eapply then_retrieve_fails; [done|]. intros w3. by apply passes_assert.
Qed.

Lemma delete_consumed_passes w m :
  holding m w -> passes delete_proof_returns_not_found_when_already_consumed w.
Proof.
  intros Hm. unfold delete_proof_returns_not_found_when_already_consumed.
  stored (proof_from_bytes (as_bytes "consume-then-delete")) (@None Z) c rec.
  eapply then_retrieve; [done|done|by left|]. intros w2 Hw2.
  eapply does_await_err; [eapply does_delete_absent; [done|apply lookup_delete_eq]|].
  intros r w3 [-> _]. by apply passes_assert.
Qed.

(** A changed token is another one. *)
Lemma tamper_changes c : tamper (claim_encode c) <> claim_encode c.
Proof.
  unfold tamper. intros He. pose proof (encode_length c) as Hl.
  set (s := claim_encode c) in *. set (l := String.list_ascii_of_string s) in *.
  assert (Hs : s = String.string_of_list_ascii l) by (symmetry; apply String.string_of_list_ascii_of_string).
  assert (Hn : length l = 64%nat) by by rewrite <- Hl, <- length_list_ascii_of_string.
  apply (f_equal String.list_ascii_of_string) in He. rewrite String.list_ascii_of_string_of_list_ascii in He.
  fold l in He. destruct (lookup_lt_is_Some_2 l 30) as [x Hx]; [lia|].
  apply (f_equal (lookup 30%nat)) in He. rewrite list_lookup_alter_eq, Hx in He. cbn in He.
  injection He as He. case_bool_decide; congruence.
Qed.

(** What is sealed by the test of a tampered token. *)
Definition sealed_secret n : Deposit :=
  MkDeposit (env_key env n) (env_nonce env (1 + n)) (as_bytes "secret") None.

(** A tampered token that still names the record has another key. *)
Lemma tampered_key n c :
  claim_decode (tamper (claim_encode (claim_new (env_uuid env (2 + n)) (env_key env n)))) = Ok c ->
  record_id c = env_uuid env (2 + n) -> encryption_key c <> env_key env n.
Proof.
  intros Hd%encode_decode Hid Hkey. destruct c as [id key]. cbn in *. subst.
  by eapply tamper_changes.
Qed.

Lemma wrong_claim_id_passes w :
  holding ∅ w ->
  passes wrong_claim_id_fails_decryption w \/ exists n key p, forged (sealed_secret n) key p.
Proof.
  intros Hm. pose proof (does_store (proof_from_bytes (as_bytes "secret")) None w ∅ Hm) as Hst.
  specialize (Hst ltac:(by vm_compute) ltac:(by left)). unfold does in Hst.
  destruct (run _ (store_proof _ _) w) as [[r| |] w1] eqn:Hrun; [|done..].
  destruct Hst as (n & c & rec & -> & [Hm1 Hh1] & [-> (ct & Hct & Henc) _ _]).
  set (c := claim_new _ _) in *. rewrite insert_empty in Hm1.
  pose proof (exact_retrieve env w1 _ (tamper (claim_encode c)) Hm1 Hh1) as Hg.
  assert (Hleft : does (retrieve_proof (tamper (claim_encode c))) w1 (fun r _ => is_ok r = false) ->
            passes wrong_claim_id_fails_decryption w).
  { intros Hr. unfold passes, wrong_claim_id_fails_decryption. apply does_bind, does_bind.
    unfold does at 1. rewrite Hrun. eapply does_then; [exact Hr|]. intros r w2 Hok.
    apply passes_assert. by rewrite Hok. }
  unfold retrieve_answer in Hg.
  destruct (claim_decode _) as [[id key]|e] eqn:Hdec; [|by left; apply Hleft; eapply does_gives; [exact Hg|]].
  rewrite lookup_singleton in Hg. case_decide as Hid; [|by left; apply Hleft; eapply does_gives; [exact Hg|]].
  pose proof (tampered_key n _ Hdec (eq_sym Hid)) as Hkey. cbn [encryption_key] in Hkey.
  destruct rec as [[non ct'] t x]. cbn [encrypted] in Henc. injection Henc as -> ->.
  rewrite copy_vec_to_list in Hg.
  destruct (is_expired_at _ _); [by left; apply Hleft; eapply does_gives; [exact Hg|]|].
  case_bool_decide; [by left; apply Hleft; eapply does_gives; [exact Hg|]|].
  destruct (aead_decrypt key _ ct) as [p|] eqn:Hp; [right|by left; apply Hleft; eapply does_gives; [exact Hg|]].
  exists n, key, p. split; [exact Hkey|]. exists ct. by split.
Qed.

(** *** The tests of the stores *)

Lemma does_uuid w m :
  holding m w ->
  does (trigger NewV4) w (fun id w' => id = env_uuid env (w_tick w) /\
    w_tick w' = Datatypes.S (w_tick w) /\ holding m w').
Proof. by intros []. Qed.

Lemma does_make_record e w m :
  holding m w -> (e = None \/ e = Some (-1) \/ e = Some 3600) ->
  does (StorageTests.make_record e) w (fun r w' => ciphertext (encrypted r) = as_bytes "hello" /\
    record_times sb_time r /\ expiry_of e r /\ holding m w').
Proof.
  intros Hm He. unfold StorageTests.make_record.
  eapply does_then with (P := fun t w' => sb_time t /\ holding m w').
  { split; [apply clock_time|done]. }
  intros now w1 [Hnow Hm1]. destruct e as [s|].
  - apply does_bind. unfold fmap, prog_fmap.
    eapply does_then; [apply does_now_plus; [exact Hm1|naive_solver]|].
    intros t w2 ([k ->] & Hsb & Hm2). split; [done|]. split; [by split|]. split; [by exists k|done].
  - split; [done|]. split; [by split|]. by split.
Qed.

Lemma round_trip_passes w m : holding m w -> passes StorageTests.insert_fetch_delete_round_trip w.
Proof.
  intros Hm. unfold StorageTests.insert_fetch_delete_round_trip.
  eapply does_then; [by apply does_uuid|]. intros id w1 (-> & _ & Hm1).
  eapply does_then; [apply does_make_record; [exact Hm1|by left]|]. intros r w2 (Hc & Ht & _ & Hm2).
  eapply does_await; [by apply does_insert|]. intros a w3 [-> Hm3].
  eapply does_await; [by apply does_fetch|]. intros a w4 [-> Hm4]. rewrite lookup_insert_eq. cbn [ok_or].
  apply does_assert; [by apply bool_decide_eq_true|].
  eapply does_await; [by apply does_remove|]. intros a w5 [-> Hm5].
  eapply does_then; [by apply does_fetch|]. intros a w6 [-> _]. rewrite lookup_delete_eq.
  by apply passes_assert.
Qed.

(** Of a record a second too old and one with an hour to go, a sweep removes the
    first. *)
Lemma sweep_stale id1 id2 r1 r2 e k n :
  id1 <> id2 -> expires_at r1 = Some (env_clock env k + -1 * nanos_per_sec) ->
  e = None \/ e = Some 3600 -> expiry_of e r2 ->
  let m : Records := <[id2 := r2]> {[id1 := r1]} in
  sweep (env_clock env n) m = {[id2 := r2]} /\
  (size m - size (sweep (env_clock env n) m))%nat = 1%nat.
Proof.
  intros Hne H1' He H2' m.
  assert (Hs : sweep (env_clock env n) m = {[id2 := r2]}).
  { unfold m, sweep. rewrite map_filter_insert_True by by apply (live_for_an_hour e).
    rewrite map_filter_singleton_False.
    - apply insert_empty.
    - cbn. destruct (expired_second_ago r1 k n H1') as [_ ->]. done. }
  split; [done|]. rewrite Hs. unfold m. rewrite map_size_insert_None, !map_size_singleton; [done|].
  by apply lookup_singleton_ne.
Qed.

Lemma stale_passes w : holding ∅ w -> passes StorageTests.delete_expired_removes_stale_records w.
Proof.
  intros Hm. unfold StorageTests.delete_expired_removes_stale_records.
  eapply does_then; [by apply does_uuid|]. intros id1 w1 (Hid1 & Ht1 & Hm1).
  eapply does_then; [by apply does_uuid|]. intros id2 w2 (Hid2 & _ & Hm2).
  assert (Hne : id1 <> id2) by (rewrite Hid1, Hid2, Ht1; apply uuids_differ).
  eapply does_then; [apply does_make_record; [exact Hm2|by right; left]|].
  intros r1 w3 (_ & Htm1 & [k Hx1] & Hm3).
  eapply does_await; [by apply does_insert|]. intros a w4 [-> Hm4]. rewrite insert_empty in Hm4.
  eapply does_then; [apply does_make_record; [exact Hm4|by right; right]|].
  intros r2 w5 (_ & Htm2 & Hx2 & Hm5).
  eapply does_await; [by apply does_insert|]. intros a w6 [-> Hm6].
  eapply does_await; [by apply does_sweep|]. intros a w7 (n & -> & Hm7).
  destruct (sweep_stale id1 id2 r1 r2 (Some 3600) k n Hne Hx1 ltac:(by right) Hx2) as [Hs Hsize].
  rewrite Hsize. rewrite Hs in Hm7. apply does_assert; [done|].
  eapply does_then; [by apply does_fetch|]. intros a w8 [-> Hm8].
  rewrite lookup_singleton_ne by done. apply does_assert; [done|].
  eapply does_then; [by apply does_fetch|]. intros a w9 [-> _].
  rewrite lookup_singleton_eq. by apply passes_assert.
Qed.

Lemma idempotent_passes w m : holding m w -> passes SqliteTests.delete_is_idempotent w.
Proof.
  intros Hm. unfold SqliteTests.delete_is_idempotent.
  eapply does_then; [by apply does_uuid|]. intros id w1 (_ & _ & Hm1).
  eapply does_then; [by apply does_remove|]. intros a w2 [-> _]. by apply passes_assert.
Qed.

(** *** The tests of the cleanup *)

Lemma does_insert_expired w m :
  holding m w ->
  does CleanupTests.insert_expired_record w (fun id w' => id = vreplicate 16 Byte.x01 /\ exists r k,
    expires_at r = Some (env_clock env k + -1 * nanos_per_sec) /\ holding (<[id := r]> m) w').
Proof.
  intros Hm. unfold CleanupTests.insert_expired_record.
  eapply does_then; [apply does_now_plus; [exact Hm|by left]|]. intros t w1 ([k ->] & Hsb & Hm1).
  eapply does_await; [apply does_insert; [exact Hm1|by split]|]. intros a w2 [-> Hm2].
  split; [done|]. eexists _, k. split; [|exact Hm2]. done.
Qed.

Lemma cleanup_passes w :
  (forall n, env_uuid env n <> vreplicate 16 Byte.x01) ->
  holding ∅ w -> passes CleanupTests.cleanup_removes_expired_proofs w.
Proof.
  intros Hu Hm. unfold CleanupTests.cleanup_removes_expired_proofs.
  eapply does_then; [by apply does_insert_expired|]. intros id w1 (-> & r & k & Hr & Hm1).
  rewrite insert_empty in Hm1. stored (proof_from_bytes (as_bytes "new")) (Some 3600) c rec.
  match goal with Hrec : stored_as _ _ _ c rec |- _ =>
    pose proof (stored_opens _ _ _ _ _ Hrec) as Ho; destruct Hrec as [Hc _ _ Hx] end.
  assert (Hne : vreplicate 16 Byte.x01 <> record_id c) by (rewrite Hc; cbn; auto).
  eapply does_await; [by apply does_cleanup|]. intros a w3 (j & -> & Hm3).
  destruct (sweep_stale _ _ r rec (Some 3600) k j Hne Hr ltac:(by right) Hx) as [Hs Hsize].
  rewrite Hsize. rewrite Hs in Hm3. apply does_assert; [done|].
  eapply does_then.
  - eapply does_retrieve; [exact Hm3|apply lookup_singleton_eq|exact Ho|].
    intros i. eapply live_for_an_hour, Hx. by right.
  - intros a w4 [-> _]. by apply passes_assert.
Qed.

(** *** The tests of the task *)

Section TaskTests.
Context `{TickerLaws} (interval : Z) (interval_pos : 0 < interval).
Implicit Types (t : Task S).
Abbreviation played := (play (MkArc MkStandardVault) interval env).
Abbreviation acted := (act (MkArc MkStandardVault) interval env).

Lemma arc_calm : calm 2 (pv_cleanup (MkArc MkStandardVault)).
Proof. exact cleanup_calm. Qed.

(** What is left of a sweep: it writes no record. *)
Definition sweeping (p : prog vaultE unit) : Prop :=
  within (fun _ _ _ => True)
    (fun X (e : vaultE X) => match e with StDeleteExpired | Log _ => True | _ => False end) p.

Lemma sweep_once_sweeping : sweeping (sweep_once (MkArc MkStandardVault)).
Proof. cbn. split; [done|]. intros [[|n]|e] _; cbn; tauto. Qed.

(** The task on its way to having swept the one record [r], a second too old:
    [away k], it takes [k] more polls; [away 0], nothing is left. *)
Definition away (r : StoredRecord) (id : RecordId) (k : nat) t : Prop :=
  match k with
  | O => holding ∅ (t_world t) /\ match t_phase t with Sweeping p => sweeping p | _ => True end
  | Datatypes.S k =>
      is_cancelled t = false /\ holding {[id := r]} (t_world t) /\
      match k with
      | O => t_phase t = Sweeping (sweep_once (MkArc MkStandardVault))
      | 1%nat => t_phase t = Selecting /\ t_deadline t <= t_now t
      | 2%nat => t_phase t = Spawned
      | _ => False
      end
  end.

Lemma swept_poll r id t : away r id 0 t -> away r id 0 (acted Poll t).
Proof.
  intros [Hm Hp]. cbn. unfold poll. destruct (t_phase t) as [| |[[]| |X e k]| |] eqn:Hph; cbn.
  - destruct (interval =? 0); by split.
  - destruct (is_cancelled t); [by split|]. destruct (t_deadline t <=? t_now t); cbn.
    + split; [done|]. apply sweep_once_sweeping.
    + by rewrite Hph.
  - by split.
  - by split.
  - destruct Hp as [He Hk]. destruct e; try done.
    + pose proof (does_sweep _ _ Hm) as Hs. unfold does in Hs. cbn [run trigger] in Hs.
      destruct (handle env _ StDeleteExpired (t_world t)) as [[x w']|]; [|done]. cbn in Hs |- *.
      destruct Hs as (n & _ & Hw). split; [|by apply Hk]. unfold sweep in Hw. by rewrite map_filter_empty in Hw.
    + cbn. split; [exact Hm|]. by apply Hk.
  - by rewrite Hph.
  - by rewrite Hph.
Qed.

Lemma away_poll r id e k t :
  expires_at r = Some (env_clock env e + -1 * nanos_per_sec) ->
  away r id (Datatypes.S k) t -> away r id k (acted Poll t).
Proof.
  intros Hr (Hc & Hm & Hk). cbn. unfold poll. destruct k as [|[|[|k]]]; [..|done].
  - rewrite Hk. pose proof (does_sweep _ _ Hm) as Hs. unfold does in Hs. cbn in Hs |- *.
    destruct Hs as (n & _ & Hw).
    split; [|by apply (proj2 sweep_once_sweeping)].
    unfold sweep in Hw. rewrite map_filter_singleton_False in Hw; [exact Hw|]. cbn.
    destruct (expired_second_ago r e n Hr) as [_ ->]. done.
  - destruct Hk as [Hp Hd]. rewrite Hp, Hc, (proj2 (Z.leb_le _ _) Hd). by split_and!.
  - rewrite Hk, (proj2 (Z.eqb_neq _ _)) by lia. cbn. by split_and!.
Qed.

Lemma away_elapse r id k d t : away r id k t -> away r id k (acted (Elapse d) t).
Proof.
  destruct k as [|k]; [done|]. intros (Hc & Hm & Hk). split; [done|]. split; [done|].
  destruct k as [|[|k]]; cbn; [done| |done]. destruct Hk as [? ?]. split; [done|lia].
Qed.

Lemma away_play r id e k sched t :
  expires_at r = Some (env_clock env e + -1 * nanos_per_sec) ->
  undisturbed sched -> (k <= polls sched)%nat -> away r id k t -> away r id 0 (played sched t).
Proof.
  intros Hr Hs. revert k t. induction Hs as [|a sched Ha _ IH]; intros k t Hk Ht.
  - cbn in Hk. by replace k with 0%nat in Ht by lia.
  - rewrite polls_cons in Hk. cbn [play foldl]. destruct a as [| | |d|X f]; try done.
    + destruct k as [|k]; [apply (IH 0%nat); [lia|by apply swept_poll]|].
      apply (IH k); [lia|by eapply away_poll].
    + apply (IH k); [lia|by apply away_elapse].
Qed.
End TaskTests.

(** However long the task is polled, as long as it is often enough. *)
Lemma spawn_passes `{TickerLaws} sleep wait w :
  undisturbed sleep -> undisturbed wait -> (3 <= polls sleep)%nat -> (5 <= polls wait)%nat ->
  holding ∅ w -> CleanupTests.spawn_cleanup_task_runs_and_cancels env sleep wait w = true.
Proof.
  intros Hs Hw Hps Hpw Hm. unfold CleanupTests.spawn_cleanup_task_runs_and_cancels.
  pose proof (does_insert_expired w ∅ Hm) as Hins. unfold does in Hins.
  destruct (run _ CleanupTests.insert_expired_record w) as [[id| |] w1]; [|done..].
  destruct Hins as (_ & r & k & Hr & Hm1). rewrite insert_empty in Hm1. cbn zeta.
  set (task := spawn_cleanup_task false 0 w1). set (slept := play _ _ _ sleep task).
  set (ended := play _ _ _ wait (stop slept)). assert (Hi : 0 < 50000000) by lia.
  assert (Hslept : away r id 0 slept) by (apply (away_play 50000000 Hi r id k 3); [done..|by split]).
  assert (Hended : away r id 0 ended) by (apply (away_play 50000000 Hi r id k 0); [done..|lia|done]).
  assert (Hsound : sound_phase 2 slept)
    by exact (sound_play (MkArc MkStandardVault) 50000000 Hi 2 arc_calm env sleep task I).
  destruct (cancelled_play (MkArc MkStandardVault) 50000000 Hi 2 arc_calm env 5 wait (stop slept))
    as [_ Hstop]; [|done| |].
  { unfold sound_phase in *. cbn [stop t_phase]. by destruct (t_phase slept). }
  { exact (sound_settles 2 slept Hsound). }
  unfold stopped. fold ended in Hstop. rewrite (Hstop Hpw). cbn [andb].
  assert (passes (removed ← await_unwrap cleanup; assert (removed =? 0)%nat) (t_world ended)) as Hpass.
  { eapply does_await; [apply does_cleanup, Hended|]. intros a w3 (n & -> & _). by apply passes_assert. }
  unfold CleanupTests.passed. unfold passes, does in Hpass. by destruct (run _ _ _) as [[]].
Qed.

(** The task's test of cancellation passes whatever the schedule, once it polls the
    task often enough. *)
Lemma parent_cancel_passes `{TickerLaws} wait w :
  (5 <= polls wait)%nat -> CleanupTests.parent_cancel_stops_the_task env wait w = true.
Proof.
  intros Hw. unfold CleanupTests.parent_cancel_stops_the_task, stopped.
  set (task := act (MkArc MkStandardVault) 60000000000 env CancelParent (spawn_cleanup_task false 0 w)).
  destruct (cancelled_play (MkArc MkStandardVault) 60000000000 ltac:(lia) 2 arc_calm env 5 wait task)
    as [_ Hs]; [done..|cbn; lia|].
  change (match t_phase (play (MkArc MkStandardVault) 60000000000 env wait task) with
          | Stopped | Crashed => true | _ => false end = true). by rewrite Hs.
Qed.

(** C38: the unit tests of the vault, of both stores and of the cleanup pass on
    every backend that meets its contract and does not fail: started on an empty
    storage each runs to its end without a failed assertion or a failed [unwrap].
    Assumed of the environment: the clock reads years both stores can hold and
    moves by less than a second during a test, two identifiers drawn one after the
    other differ and none is the fixed one of the expired record, the cipher takes
    a kilobyte.  The test of a tampered token passes unless the other key the token
    then holds opens what the drawn key sealed, a forgery of the cipher's tag.  The
    two tests of the task pass for every number of polls and lengths of time in
    which they sleep and wait, from three polls during the sleep and five during
    the wait on. *)
Theorem unit_tests_pass `{!SerdeJson, !SerdeJsonLaws, !Ticker, !TickerLaws} sleep wait w :
  is_value proof_value -> (forall b, to_vec proof_value = Ok b -> Z.of_nat (length b) <= 1024) ->
  (forall n, env_uuid env n <> vreplicate 16 Byte.x01) ->
  holding ∅ w ->
  undisturbed sleep -> undisturbed wait -> (3 <= polls sleep)%nat -> (5 <= polls wait)%nat ->
  Forall (fun t => passes t w)
    [store_and_retrieve_json_proof; single_use_enforced;
     store_proof_with_zero_ttl_returns_invalid_parameter; expired_proof_returns_error;
     delete_proof_removes_it; delete_proof_returns_not_found_when_already_consumed;
     StorageTests.insert_fetch_delete_round_trip; StorageTests.delete_expired_removes_stale_records;
     SqliteTests.sqlite_insert_fetch_delete_round_trip;
     SqliteTests.sqlite_delete_expired_removes_stale_records;
     SqliteTests.delete_is_idempotent; CleanupTests.cleanup_removes_expired_proofs] /\
  (passes wrong_claim_id_fails_decryption w \/ exists n key p, forged (sealed_secret n) key p) /\
  CleanupTests.spawn_cleanup_task_runs_and_cancels env sleep wait w = true /\
  CleanupTests.parent_cancel_stops_the_task env wait w = true.
Proof.
  intros Hv Hlen Hu Hm Hs Hw Hps Hpw.
  split; [repeat (apply Forall_cons; split); [..|apply Forall_nil_2]|].
  - by eapply store_and_retrieve_passes.
  - by eapply single_use_passes.
  - apply zero_ttl_passes.
  - by eapply expired_proof_passes.
  - by eapply delete_proof_passes.
  - by eapply delete_consumed_passes.
  - by eapply round_trip_passes.
  - by apply stale_passes.
  - by eapply round_trip_passes.
  - by apply stale_passes.
  - by eapply idempotent_passes.
  - by apply cleanup_passes.
  - split; [by apply wrong_claim_id_passes|]. split; [by apply spawn_passes|by apply parent_cancel_passes].
Qed.
End Rules.

(** ** The tests as the repository runs them: on a file store in an empty
    directory *)
Module TestSample.
Import LocalSample.
Definition id3 : RecordId := vreplicate 16 Byte.x03.

Definition env : Env := {|
  env_clock n := 1700000000 * nanos_per_sec + Z.of_nat n mod 1000;
  env_key := env_key Sample.env;
  env_nonce := env_nonce Sample.env;
  env_uuid n := if Nat.even n then Sample.id2 else id3;
|}.

Definition world : World LocalBackend := MkWorld 0 (MkLocalBackend store opened) [].
Definition sleep : list Action := replicate 2 Poll ++ [Elapse 1000] ++ replicate 6 Poll.
Definition wait : list Action := replicate 5 Poll.
End TestSample.

Section Witnesses.
Import LocalSample TestSample.

Lemma sample_value : is_value ProofVaultTests.proof_value.
Proof.
  change (printable ProofVaultTests.proof_value). unfold ProofVaultTests.proof_value.
  repeat first
    [ apply Forall_nil_2 | apply Forall_cons; split; cbn [snd] | apply pr_object | apply pr_array
    | apply pr_string | apply pr_number; [done|by vm_compute] ].
Defined.

Lemma env_range n : rfc3339_min + nanos_per_sec <= env_clock env n <= rfc3339_max - 3600 * nanos_per_sec.
Proof.
  pose proof (Z.mod_pos_bound (Z.of_nat n) 1000 ltac:(lia)).
  unfold rfc3339_min, rfc3339_max, nanos_per_sec; cbn. unfold nanos_per_sec. lia.
Qed.

Lemma env_slow a b : env_clock env a < env_clock env b + nanos_per_sec.
Proof.
  pose proof (Z.mod_pos_bound (Z.of_nat a) 1000 ltac:(lia)).
  pose proof (Z.mod_pos_bound (Z.of_nat b) 1000 ltac:(lia)). unfold nanos_per_sec; cbn.
  unfold nanos_per_sec. lia.
Qed.

Lemma env_uuids_differ n : env_uuid env n <> env_uuid env (Datatypes.S n).
Proof.
  cbn [env_uuid env]. rewrite Nat.even_succ, <- Nat.negb_even. destruct (Nat.even n); by vm_compute.
Qed.

Lemma unit_tests_pass_witness :
  passes env ProofVaultTests.single_use_enforced world /\
  CleanupTests.spawn_cleanup_task_runs_and_cancels env sleep wait world = true /\
  CleanupTests.parent_cancel_stops_the_task env wait world = true.
Proof.
  assert (Hsb : forall t, in_rfc3339 t -> sb_time (S := LocalBackend) t)
    by exact (fun t Ht => in_rfc3339_representable t Ht).
  assert (Hcipher : 1024 <= aead_p_max) by (by vm_compute).
  destruct (unit_tests_pass env Hsb env_range env_slow env_uuids_differ Hcipher sleep wait
              world sample_value) as (Hall & _ & Hspawn & Hparent).
  - intros b Hb. vm_compute in Hb. by injection Hb as <-.
  - intros n. cbn [env_uuid env]. destruct (Nat.even n); by vm_compute.
  - split; [split; [apply opened_unlocked|apply opened_rep]|]. intros k _. by vm_compute.
  - repeat constructor.
  - repeat constructor.
  - by apply Nat.leb_le.
  - by apply Nat.leb_le.
  - split; [exact (Forall_lookup_1 _ _ 1 _ Hall eq_refl)|]. split; [exact Hspawn|exact Hparent].
Defined.

(** With the sample cipher the tampered token is detected. *)
Example tampering_detected :
  match run (handle env) ProofVaultTests.wrong_claim_id_fails_decryption world with
  | (Done _, _) => true
  | _ => false
  end = true.
Proof. by vm_compute. Qed.

End Witnesses.
