(* ===== verification/Config.v ===== *)
(** src/config.rs: the configuration, its defaults and how its sources are
    layered. *)
From S2P Require Export Fs.

(** ** The configuration *)

Inductive BackendKind : Type := BkFile | BkSqlite.

#[global] Instance BackendKind_eq_dec : EqDecision BackendKind.
Proof. solve_decision. Defined.

Record ServerConfig : Type := MkServerConfig {
  sc_bind_address : string;
  sc_auth_token : option string;
  sc_tls_cert_path : option Path;
  sc_tls_key_path : option Path;
  sc_insecure_no_tls : bool;
  sc_max_proof_size_bytes : Z;
}.

Record StorageConfig : Type := MkStorageConfig {
  st_vault_file : Path;
  st_cleanup_interval_secs : Z;
  st_backend : BackendKind;
  st_sqlite_path : option Path;
}.

Record LoggingConfig : Type := MkLoggingConfig { lg_level : string }.

Record VaultConfig : Type := MkVaultConfig {
  vc_server : ServerConfig;
  vc_storage : StorageConfig;
  vc_logging : LoggingConfig;
}.

(** ** The [config] crate: values and sources *)

Inductive ConfigValue : Type :=
| CvString (s : string)
| CvInt (z : Z)
| CvBool (b : bool).

(** A source, flattened: dotted keys to values. *)
Abbreviation Layer := (gmap string ConfigValue).

(** What deserialization makes of a value, how an environment becomes a layer
    under the prefix [VAULT] and the separator [__], and the two readings of a
    configuration file. *)
Class ConfigCrate := {
  into_string : ConfigValue -> option string;
  into_u64 : ConfigValue -> option Z;
  into_bool : ConfigValue -> option bool;
  environment_layer : gmap string string -> Layer;
  file_required : Path -> result Layer string;
  file_auto : string -> result Layer string;
  (** its error texts *)
  missing_field : string -> string;
  invalid_type : string -> string;
}.

Class ConfigCrateLaws `{ConfigCrate} : Prop := {
  into_string_string s : into_string (CvString s) = Some s;
  into_u64_int z : is_u64 z -> into_u64 (CvInt z) = Some z;
  into_bool_bool b : into_bool (CvBool b) = Some b;
  environment_layer_empty : environment_layer ∅ = ∅;
}.

(** Paths as texts: [PathBuf::from] and [to_string_lossy]. *)
Class PathText := {
  path_of_string : string -> Path;
  to_string_lossy : Path -> string;
}.

Section Config.
Context `{ConfigCrate, PathText}.

Definition default_max_proof_size_bytes : Z := 1048576.

(** [default_vault_path], given [dirs_next::data_local_dir()]. *)
Definition default_vault_path (data_local_dir : option Path) : Path :=
  let base := default ["."] data_local_dir in
  "vault.json" :: "tari_vault" :: base.

(** [VaultConfig::default] *)
Definition config_default (data_local_dir : option Path) : VaultConfig := {|
  vc_server := {|
    sc_bind_address := "127.0.0.1:9000";
    sc_auth_token := None;
    sc_tls_cert_path := None;
    sc_tls_key_path := None;
    sc_insecure_no_tls := false;
    sc_max_proof_size_bytes := default_max_proof_size_bytes;
  |};
  vc_storage := {|
    st_vault_file := default_vault_path data_local_dir;
    st_cleanup_interval_secs := 300;
    st_backend := BkFile;
    st_sqlite_path := None;
  |};
  vc_logging := {| lg_level := "info" |};
|}.

(** The [set_default] calls. *)
Definition default_layer (defaults : VaultConfig) : Layer :=
  let server := vc_server defaults in
  let storage := vc_storage defaults in
  <["server.bind_address" := CvString (sc_bind_address server)]>
  (<["storage.vault_file" := CvString (to_string_lossy (st_vault_file storage))]>
  (<["storage.cleanup_interval_secs" := CvInt (st_cleanup_interval_secs storage)]>
  (<["storage.backend" := CvString "file"]>
  (<["logging.level" := CvString (lg_level (vc_logging defaults))]>
  (<["server.max_proof_size_bytes" := CvInt (sc_max_proof_size_bytes server)]> ∅))))).

(** [Config::builder]: a later source overrides an earlier one, key by key. *)
Definition layered (layers : list Layer) : Layer := foldl (fun acc l => l ∪ acc) ∅ layers.

(** *** The derived [Deserialize]

    Of several errors the model reports the first one in the order of the
    fields; the crate reports some one of them. *)

Definition required_field {A} (f : ConfigValue -> option A) (key : string) (l : Layer) : result A string :=
  match l !! key with
  | None => Err (missing_field key)
  | Some v => ok_or (f v) (invalid_type key)
  end.

(** An [Option] field. *)
Definition optional_field {A} (f : ConfigValue -> option A) (key : string) (l : Layer) :
  result (option A) string :=
  match l !! key with
  | None => Ok None
  | Some v => result_map Some (ok_or (f v) (invalid_type key))
  end.

(** A field with [#[serde(default)]]. *)
Definition defaulted_field {A} (d : A) (f : ConfigValue -> option A) (key : string) (l : Layer) :
  result A string := result_map (default d) (optional_field f key l).

Definition into_path (v : ConfigValue) : option Path := path_of_string <$> into_string v.

(** [rename_all = "snake_case"] *)
Definition into_backend (v : ConfigValue) : option BackendKind :=
  s ← into_string v;
  if bool_decide (s = "file") then Some BkFile
  else if bool_decide (s = "sqlite") then Some BkSqlite else None.

Definition deserialize_config (l : Layer) : result VaultConfig string :=
  try_r (required_field into_string "server.bind_address" l) (fun bind_address =>
  try_r (optional_field into_string "server.auth_token" l) (fun auth_token =>
  try_r (optional_field into_path "server.tls_cert_path" l) (fun tls_cert_path =>
  try_r (optional_field into_path "server.tls_key_path" l) (fun tls_key_path =>
  try_r (defaulted_field false into_bool "server.insecure_no_tls" l) (fun insecure_no_tls =>
  try_r (defaulted_field default_max_proof_size_bytes into_u64 "server.max_proof_size_bytes" l) (fun max =>
  try_r (required_field into_path "storage.vault_file" l) (fun vault_file =>
  try_r (required_field into_u64 "storage.cleanup_interval_secs" l) (fun cleanup_interval_secs =>
  try_r (defaulted_field BkFile into_backend "storage.backend" l) (fun backend =>
  try_r (optional_field into_path "storage.sqlite_path" l) (fun sqlite_path =>
  try_r (required_field into_string "logging.level" l) (fun level =>
  Ok {|
    vc_server := MkServerConfig bind_address auth_token tls_cert_path tls_key_path insecure_no_tls max;
    vc_storage := MkStorageConfig vault_file cleanup_interval_secs backend sqlite_path;
    vc_logging := MkLoggingConfig level;
  |}))))))))))).

(** The file source: a given file must be there, else [vault_config.*] may be. *)
Definition file_layer (config_file : option Path) : result Layer string :=
  match config_file with
  | Some path => file_required path
  | None => file_auto "vault_config"
  end.

(** [load_config], given the data directory, the variables of [.env] and those
    of the environment, which [dotenv] does not override. *)
Definition load_config (data_local_dir : option Path) (dotenv vars : gmap string string)
    (config_file : option Path) : result VaultConfig (list string) :=
  let env := vars ∪ dotenv in
  let defaults := config_default data_local_dir in
  try_r (map_err (fun e => ["Failed to build configuration"; e])
    (result_map (fun file => layered [default_layer defaults; file; environment_layer env])
       (file_layer config_file))) (fun built =>
  map_err (fun e => ["Failed to deserialise configuration"; e]) (deserialize_config built)).

(** *** [Debug] of the server section: the token is redacted *)

Inductive DebugValue : Type :=
| DbgString (s : string)
| DbgOptString (s : option string)
| DbgOptPath (p : option Path)
| DbgBool (b : bool)
| DbgInt (z : Z).

Definition server_config_debug (c : ServerConfig) : list (string * DebugValue) :=
  [("bind_address", DbgString (sc_bind_address c));
   ("auth_token", DbgOptString ((fun _ => "<redacted>") <$> sc_auth_token c));
   ("tls_cert_path", DbgOptPath (sc_tls_cert_path c));
   ("tls_key_path", DbgOptPath (sc_tls_key_path c));
   ("insecure_no_tls", DbgBool (sc_insecure_no_tls c));
   ("max_proof_size_bytes", DbgInt (sc_max_proof_size_bytes c))].
End Config.

(** ** Lemmas *)

Section Lemmas.
Context `{ConfigCrateLaws, PathText}.
Implicit Types (l : Layer).

(** The value a key has in three layers, the last one strongest. *)
Definition strongest (l1 l2 l3 : Layer) (key : string) : option ConfigValue :=
  match l3 !! key with
  | Some v => Some v
  | None => match l2 !! key with Some v => Some v | None => l1 !! key end
  end.

Lemma layered_lookup l1 l2 l3 key : layered [l1; l2; l3] !! key = strongest l1 l2 l3 key.
Proof.
  unfold layered, strongest; cbn. rewrite !lookup_union, lookup_empty.
  by destruct (l3 !! key), (l2 !! key), (l1 !! key).
Qed.

Lemma layered_bottom l : layered [l; ∅; ∅] = l.
Proof. unfold layered; cbn. by rewrite (right_id_L ∅ (∪)), !(left_id_L ∅ (∪)). Qed.

(** A key that has a default is never missing. *)
Lemma strongest_default d l2 l3 key :
  is_Some (default_layer d !! key) -> is_Some (strongest (default_layer d) l2 l3 key).
Proof. unfold strongest. by destruct (l3 !! key), (l2 !! key). Qed.

(** *** What deserialization reads *)

Lemma required_Ok {A} (f : ConfigValue -> option A) key l a :
  required_field f key l = Ok a -> l !! key ≫= f = Some a.
Proof. unfold required_field. destruct (l !! key) as [v|]; cbn; [|done]. destruct (f v); cbn; congruence. Qed.

Lemma optional_Ok {A} (f : ConfigValue -> option A) key l a :
  optional_field f key l = Ok a -> a = l !! key ≫= f.
Proof. unfold optional_field. destruct (l !! key) as [v|]; cbn; [destruct (f v)|]; cbn; congruence. Qed.

Lemma defaulted_Ok {A} d (f : ConfigValue -> option A) key l a :
  defaulted_field d f key l = Ok a -> a = default d (l !! key ≫= f).
Proof. unfold defaulted_field. by intros (x & ->%optional_Ok & <-)%result_map_Ok. Qed.

Lemma deserialize_spec l cfg :
  deserialize_config l = Ok cfg ->
  l !! "server.bind_address" ≫= into_string = Some (sc_bind_address (vc_server cfg)) /\
  sc_auth_token (vc_server cfg) = l !! "server.auth_token" ≫= into_string /\
  sc_tls_cert_path (vc_server cfg) = l !! "server.tls_cert_path" ≫= into_path /\
  sc_tls_key_path (vc_server cfg) = l !! "server.tls_key_path" ≫= into_path /\
  sc_insecure_no_tls (vc_server cfg) = default false (l !! "server.insecure_no_tls" ≫= into_bool) /\
  sc_max_proof_size_bytes (vc_server cfg) =
    default default_max_proof_size_bytes (l !! "server.max_proof_size_bytes" ≫= into_u64) /\
  l !! "storage.vault_file" ≫= into_path = Some (st_vault_file (vc_storage cfg)) /\
  l !! "storage.cleanup_interval_secs" ≫= into_u64 = Some (st_cleanup_interval_secs (vc_storage cfg)) /\
  st_backend (vc_storage cfg) = default BkFile (l !! "storage.backend" ≫= into_backend) /\
  st_sqlite_path (vc_storage cfg) = l !! "storage.sqlite_path" ≫= into_path /\
  l !! "logging.level" ≫= into_string = Some (lg_level (vc_logging cfg)).
Proof.
  unfold deserialize_config. intros H'.
  repeat (apply try_r_Ok in H' as (? & ? & H')). injection H' as <-. cbn.
  repeat match goal with
  | H : required_field _ _ _ = Ok _ |- _ => apply required_Ok in H
  | H : optional_field _ _ _ = Ok _ |- _ => apply optional_Ok in H
  | H : defaulted_field _ _ _ _ = Ok _ |- _ => apply defaulted_Ok in H
  end. by split_and!.
Qed.

(** *** Loading without sources *)

Lemma load_defaults data_dir :
  file_auto "vault_config" = Ok ∅ ->
  path_of_string (to_string_lossy (default_vault_path data_dir)) = default_vault_path data_dir ->
  load_config data_dir ∅ ∅ None = Ok (config_default data_dir).
Proof.
  intros Hauto Hpath. unfold load_config, file_layer. rewrite (left_id_L ∅ (∪)), environment_layer_empty.
  rewrite Hauto. cbn [result_map map_err try_r]. rewrite layered_bottom.
  unfold deserialize_config, required_field, optional_field, defaulted_field, optional_field, default_layer, into_path, into_backend.
  cbn -[insert lookup default_vault_path].
  repeat first
    [ rewrite lookup_insert_eq
    | rewrite lookup_insert_ne by done
    | rewrite lookup_empty
    | rewrite bool_decide_true by done
    | rewrite into_string_string
    | rewrite into_u64_int by (unfold is_u64, u64_max, default_max_proof_size_bytes; lia)
    | progress cbn -[insert lookup default_vault_path] ].
  by rewrite Hpath.
Qed.
End Lemmas.
