(* ===== verification/ComponentTests.v ===== *)
(** The unit tests of src/domain/, src/error.rs, src/auth.rs and src/config.rs, and
    that they pass. *)
From Stdlib Require Import Ascii.
From S2P Require Export Tests Auth Config.

(** ** src/domain/record.rs *)

Module RecordTests.
Section Tests.
Context `{Chrono}.

Definition empty_payload : EncryptedRecord := MkEncrypted [] [].

Definition is_expired_none_means_never_expires : prog vaultE unit :=
  stored_at ← trigger UtcNow;
  let record := MkStored empty_payload stored_at None in
  expired ← is_expired record;
  assert (negb expired).

Definition is_expired_future_expiry_is_not_expired : prog vaultE unit :=
  stored_at ← trigger UtcNow;
  expires_at ← now_plus 3600;
  let record := MkStored empty_payload stored_at (Some expires_at) in
  expired ← is_expired record;
  assert (negb expired).

Definition is_expired_past_expiry_is_expired : prog vaultE unit :=
  stored_at ← now_plus (-7200);
  expires_at ← now_plus (-3600);
  let record := MkStored empty_payload stored_at (Some expires_at) in
  expired ← is_expired record;
  assert expired.
End Tests.
End RecordTests.

(** ** src/domain/claim_id.rs *)

Module ClaimIdTests.
Section Tests.
Context `{Base64, UuidFmt}.

Definition round_trip_encode_decode (uuid : array 16) : bool :=
  let key := vreplicate 32 Byte.x42 in
  let claim := claim_new uuid key in
  let encoded := claim_encode claim in
  (String.length encoded =? 64)%nat &&
  match claim_decode encoded with
  | Ok decoded =>
      bool_decide (record_id decoded = record_id claim) &&
      bool_decide (encryption_key decoded = encryption_key claim)
  | Err _ => false
  end.

Definition decode_rejects_wrong_length : bool :=
  negb (is_ok (claim_decode "tooshort")) &&
  negb (is_ok (claim_decode (String.string_of_list_ascii (replicate 70 "A"%char)))).

Definition decode_rejects_invalid_base64 : bool :=
  negb (is_ok (claim_decode "not!valid@base64#string$here%and^more&here*so(we)have-enough+chars")).
End Tests.
End ClaimIdTests.

(** ** src/domain/proof.rs *)

Module ProofTests.
Section Tests.
Context `{SerdeJson}.

(** [json!({"root": "abc", "path": [1, 2, 3]})] *)
Definition value : json :=
  JObject [("path", JArray [JNumber "1"; JNumber "2"; JNumber "3"]); ("root", JString "abc")].

Definition from_json_and_into_json_round_trip : bool :=
  match proof_from_json value with
  | Ok proof =>
      match (into_json proof).1 with
      | Ok result => json_eqb result value
      | Err _ => false
      end
  | Err _ => false
  end.

Definition into_json_returns_error_on_invalid_bytes : bool :=
  let proof := proof_from_bytes (Byte.xff :: Byte.xfe :: as_bytes " invalid utf8") in
  negb (is_ok (into_json proof).1).

(** [str::contains] *)
Fixpoint contains (pat s : string) : bool :=
  String.prefix pat s || match s with EmptyString => false | String _ s => contains pat s end.

Definition debug_output_is_redacted : bool :=
  let proof := proof_from_bytes (as_bytes "super secret") in
  let debug := proof_debug proof in
  bool_decide (debug = "PlaintextProof(<redacted>)") && negb (contains "super secret" debug).
End Tests.
End ProofTests.

(** ** src/error.rs *)

Definition vault_error_rpc_codes : bool :=
  (rpc_code ProofNotFound =? -32001) && (rpc_code ProofExpired =? -32002) &&
  (rpc_code InvalidClaimId =? -32003) && (rpc_code DecryptionFailed =? -32004) &&
  (rpc_code (Storage NotFound) =? -32005) && (rpc_code (InvalidParameter "bad") =? -32006) &&
  (rpc_code (Serialization "oops") =? -32005).

(** ** src/auth.rs *)

Module AuthTests.
Section Tests.
Context `{Http, Subtle}.

Definition echo (req : HttpRequest string) : prog vaultE (HttpResponse string) :=
  Ret (MkResponse 200 [] "ok").

Definition oneshot (l : BearerAuthLayer) (req : HttpRequest string) : prog vaultE (HttpResponse string) :=
  auth_call (auth_layer l echo) req.

Definition request (authorization : option string) : HttpRequest string :=
  MkRequest (from_option (fun v => [("authorization", as_bytes v)]) [] authorization) "".

Definition disabled_passes_all_requests : prog vaultE unit :=
  resp ← oneshot layer_disabled (request None);
  assert (resp_status resp =? 200).

Definition valid_token_passes : prog vaultE unit :=
  resp ← oneshot (layer_new "secret") (request (Some "Bearer secret"));
  assert (resp_status resp =? 200).

Definition missing_token_returns_401 : prog vaultE unit :=
  resp ← oneshot (layer_new "secret") (request None);
  assert (resp_status resp =? 401).

Definition wrong_token_returns_401 : prog vaultE unit :=
  resp ← oneshot (layer_new "secret") (request (Some "Bearer wrong"));
  assert (resp_status resp =? 401).

Definition www_authenticate_header_present_on_401 : prog vaultE unit :=
  resp ← oneshot (layer_new "secret") (request None);
  _ ← assert (resp_status resp =? 401);
  assert (bool_decide ("www-authenticate" ∈ (resp_headers resp).*1)).

Definition from_config_none_is_disabled : bool :=
  let layer := layer_from_config None in negb (bool_decide (is_Some (layer_token layer))).

Definition from_config_empty_string_is_disabled : bool :=
  let layer := layer_from_config (Some "") in negb (bool_decide (is_Some (layer_token layer))).
End Tests.
End AuthTests.

(** ** src/config.rs *)

Module ConfigTests.
Section Tests.
Context `{ConfigCrate, PathText} (data_local_dir : option Path).

(** [Path::ends_with] one component. *)
Definition ends_with (name : string) (p : Path) : bool := bool_decide (head p = Some name).

Definition defaults_are_sensible : bool :=
  let cfg := config_default data_local_dir in
  bool_decide (sc_bind_address (vc_server cfg) = "127.0.0.1:9000") &&
  ends_with "vault.json" (st_vault_file (vc_storage cfg)) &&
  bool_decide (lg_level (vc_logging cfg) = "info").

Definition load_with_no_files_uses_defaults (dotenv vars : gmap string string) : bool :=
  match vars !! "VAULT__SERVER__BIND_ADDRESS" with
  | Some _ => true
  | None =>
      match load_config data_local_dir dotenv vars None with
      | Ok cfg => bool_decide (sc_bind_address (vc_server cfg) = "127.0.0.1:9000")
      | Err _ => false
      end
  end.
End Tests.
End ConfigTests.

(** ** They pass *)

Section Pass.
Context `{Base64Laws, UuidFmt, AesGcm, ChronoLaws, HttpLaws, SubtleLaws} {S : Type} `{StorageBackend S}.
Context (env : Env).
Implicit Types (w : World S).

Definition succeeds (t : prog vaultE unit) w : Prop := (run (handle env) t w).1 = Done tt.

(** With a clock that moves by less than an hour during a test and stays clear of
    the ends of chrono's range. *)
Lemma record_tests_pass w :
  (forall n, datetime_min + 7200 * nanos_per_sec <= env_clock env n <=
     datetime_max - 7200 * nanos_per_sec) ->
  (forall a b, env_clock env a < env_clock env b + 3600 * nanos_per_sec) ->
  succeeds RecordTests.is_expired_none_means_never_expires w /\
  succeeds RecordTests.is_expired_future_expiry_is_not_expired w /\
  succeeds RecordTests.is_expired_past_expiry_is_expired w.
Proof.
  intros Hrange Hslow.
  assert (Hplus : forall s n, s = 3600 \/ s = -3600 \/ s = -7200 ->
            (d ← duration_seconds s; datetime_add (env_clock env n) d) =
            Some (env_clock env n + s * nanos_per_sec)).
  { intros s n Hs. specialize (Hrange n). rewrite duration_seconds_spec.
    assert (Hb : (- (i64_max / 1000) <=? s) && (s <=? i64_max / 1000) = true)
      by by destruct Hs as [->|[-> | ->]]; vm_compute.
    rewrite Hb. cbn [mbind option_bind]. rewrite datetime_add_spec by (unfold nanos_per_sec in *; lia).
    assert (datetime_min <= env_clock env n + s * nanos_per_sec <= datetime_max) as [Hlo Hhi]
      by (unfold nanos_per_sec in *; lia).
    apply Z.leb_le in Hlo, Hhi. by rewrite Hlo, Hhi. }
  split; [done|]. unfold succeeds. split.
  - unfold RecordTests.is_expired_future_expiry_is_not_expired, now_plus.
    cbn -[duration_seconds datetime_add]. rewrite Hplus by auto. cbn. rewrite run_is_expired. cbn.
    assert (Hx : forall n k e x, is_expired_at (env_clock env k)
                   (MkStored e x (Some (env_clock env n + 3600 * nanos_per_sec))) = false).
    { intros n k e x. apply Z.ltb_ge. pose proof (Hslow k n). lia. }
    by rewrite Hx.
  - unfold RecordTests.is_expired_past_expiry_is_expired, now_plus.
    cbn -[duration_seconds datetime_add]. rewrite Hplus by auto. cbn -[duration_seconds datetime_add].
    rewrite Hplus by auto. cbn. rewrite run_is_expired. cbn.
    assert (Hx : forall n k e x, is_expired_at (env_clock env k)
                   (MkStored e x (Some (env_clock env n + -3600 * nanos_per_sec))) = true).
    { intros n k e x. apply Z.ltb_lt. pose proof (Hslow n k). lia. }
    by rewrite Hx.
Qed.

Lemma claim_id_tests_pass uuid :
  ClaimIdTests.round_trip_encode_decode uuid && ClaimIdTests.decode_rejects_wrong_length &&
  ClaimIdTests.decode_rejects_invalid_base64 = true.
Proof.
  assert (Hlen : forall s, String.length s <> 64%nat -> is_ok (claim_decode s) = false).
  { intros s Hs. destruct (claim_decode s) as [c|] eqn:Hc; [|done].
    apply encode_decode in Hc as <-. by rewrite encode_length in Hs. }
  unfold ClaimIdTests.round_trip_encode_decode, ClaimIdTests.decode_rejects_wrong_length,
    ClaimIdTests.decode_rejects_invalid_base64.
  rewrite encode_length, ClaimId.decode_encode, !Hlen by done. cbn.
  by rewrite !bool_decide_true.
Qed.

Lemma proof_tests_pass `{!SerdeJson, !SerdeJsonLaws} :
  is_value ProofTests.value ->
  is_ok (from_slice_value (Byte.xff :: Byte.xfe :: as_bytes " invalid utf8")) = false ->
  ProofTests.from_json_and_into_json_round_trip && ProofTests.into_json_returns_error_on_invalid_bytes &&
  ProofTests.debug_output_is_redacted = true.
Proof.
  intros Hv Hbad. unfold ProofTests.from_json_and_into_json_round_trip,
    ProofTests.into_json_returns_error_on_invalid_bytes.
  destruct (proof_json_roundtrip ProofTests.value Hv) as (p & -> & ->). cbn [fst].
  unfold into_json, proof_from_bytes. cbn [proof_data fst].
  destruct (from_slice_value (_ :: _)); [done|]. by vm_compute.
Qed.

Lemma error_tests_pass : vault_error_rpc_codes = true.
Proof. done. Qed.

Lemma auth_tests_pass w :
  succeeds AuthTests.disabled_passes_all_requests w /\ succeeds AuthTests.valid_token_passes w /\
  succeeds AuthTests.missing_token_returns_401 w /\ succeeds AuthTests.wrong_token_returns_401 w /\
  succeeds AuthTests.www_authenticate_header_present_on_401 w /\
  AuthTests.from_config_none_is_disabled && AuthTests.from_config_empty_string_is_disabled = true.
Proof.
  assert (Hok : from_option (fun p => ct_eq p (as_bytes "secret")) false
                  (provided_token (AuthTests.request (Some "Bearer secret"))) = true)
    by by apply auth_ok_iff.
  assert (Hbad : from_option (fun p => ct_eq p (as_bytes "secret")) false
                   (provided_token (AuthTests.request (Some "Bearer wrong"))) = false).
  { apply not_true_is_false. intros Hc%auth_ok_iff. by destruct Hc as [Hc _]; vm_compute in Hc. }
  unfold succeeds, AuthTests.disabled_passes_all_requests, AuthTests.valid_token_passes,
    AuthTests.missing_token_returns_401, AuthTests.wrong_token_returns_401,
    AuthTests.www_authenticate_header_present_on_401, AuthTests.oneshot, auth_call.
  cbn [auth_layer layer_disabled layer_new layer_token svc_token svc_inner].
  rewrite Hok, Hbad. done.
Qed.
End Pass.

Section ConfigPass.
Context `{ConfigCrateLaws, PathText} (data_local_dir : option Path).

Lemma config_tests_pass :
  file_auto "vault_config" = Ok ∅ ->
  path_of_string (to_string_lossy (default_vault_path data_local_dir)) =
    default_vault_path data_local_dir ->
  ConfigTests.defaults_are_sensible data_local_dir &&
  ConfigTests.load_with_no_files_uses_defaults data_local_dir ∅ ∅ = true.
Proof.
  intros Hauto Hpath. unfold ConfigTests.load_with_no_files_uses_defaults.
  rewrite lookup_empty, load_defaults by done.
  unfold ConfigTests.defaults_are_sensible; cbn. by rewrite !bool_decide_true.
Qed.
End ConfigPass.
