(* ===== verification/Main.v ===== *)
(** src/main.rs: the command line over the configuration, and the life of the
    process from start to shutdown. *)
From S2P Require Export Config Server.

(** ** The command line *)

Record Cli : Type := MkCli {
  cli_config : option Path;
  cli_vault_file : option Path;
  cli_bind : option string;
  cli_cleanup_interval : option Z;
  cli_log_level : option string;
  cli_auth_token : option string;
  cli_sqlite_path : option Path;
  cli_tls_cert : option Path;
  cli_tls_key : option Path;
  cli_insecure_no_tls : bool;
}.

(** [Cli::parse] on the options given: clap fills in [default_value]. *)
Definition cli_parse (given : Cli) : Cli :=
  MkCli (cli_config given) (cli_vault_file given) (cli_bind given) (cli_cleanup_interval given)
    (Some (default "info" (cli_log_level given))) (cli_auth_token given) (cli_sqlite_path given)
    (cli_tls_cert given) (cli_tls_key given) (cli_insecure_no_tls given).

(** [if let Some(x) = cli.field { cfg.field = x }] *)
Definition override {A} (cli : option A) (cfg : A) : A := default cfg cli.

(** [if let Some(x) = cli.field { cfg.field = Some(x) }] *)
Definition override_option {A} (cli : option A) (cfg : option A) : option A :=
  match cli with Some x => Some x | None => cfg end.

(** The overrides at the start of [main]. *)
Definition apply_cli (cli : Cli) (cfg : VaultConfig) : VaultConfig :=
  let server := vc_server cfg in
  let storage := vc_storage cfg in
  {|
    vc_server := {|
      sc_bind_address := override (cli_bind cli) (sc_bind_address server);
      sc_auth_token := override_option (cli_auth_token cli) (sc_auth_token server);
      sc_tls_cert_path := override_option (cli_tls_cert cli) (sc_tls_cert_path server);
      sc_tls_key_path := override_option (cli_tls_key cli) (sc_tls_key_path server);
      sc_insecure_no_tls := if cli_insecure_no_tls cli then true else sc_insecure_no_tls server;
      sc_max_proof_size_bytes := sc_max_proof_size_bytes server;
    |};
    vc_storage := {|
      st_vault_file := override (cli_vault_file cli) (st_vault_file storage);
      st_cleanup_interval_secs :=
        override (cli_cleanup_interval cli) (st_cleanup_interval_secs storage);
      st_backend := st_backend storage;
      st_sqlite_path := override_option (cli_sqlite_path cli) (st_sqlite_path storage);
    |};
    vc_logging := {| lg_level := override (cli_log_level cli) (lg_level (vc_logging cfg)) |};
  |}.

(** [Path::with_file_name] *)
Definition with_file_name (name : string) (p : Path) : Path :=
  match p with
  | last :: dir => if bool_decide (last = "..") then name :: p else name :: dir
  | [] => [name]
  end.

(** [sqlite_path] *)
Definition sqlite_path (cfg : VaultConfig) : Path :=
  default (with_file_name "vault.db" (st_vault_file (vc_storage cfg)))
    (st_sqlite_path (vc_storage cfg)).

(** The match on the two TLS paths. *)
Definition tls_of_config (cfg : VaultConfig) : result (option TlsConfig) AnyError :=
  match sc_tls_cert_path (vc_server cfg), sc_tls_key_path (vc_server cfg) with
  | Some cert_path, Some key_path => Ok (Some (MkTlsConfig cert_path key_path))
  | None, None => Ok None
  | _, _ => Err ["TLS requires both --tls-cert and --tls-key to be specified"]
  end.

(** ** The life of the process *)

Inductive mainE : Type -> Type :=
| InitLogging (level : string) : mainE unit
| MainLog (l : LogLine) : mainE unit
| OpenFile (p : Path) : mainE (result unit string)
| OpenSqlite (p : Path) : mainE (result unit string)
| StartupCleanup : mainE (result nat string)
| SpawnCleanup (interval_secs : Z) : mainE unit
| StartRpcServer (bind_addr : string) (auth_token : option string) (tls : option TlsConfig)
    (insecure_no_tls : bool) (max_proof_size_bytes : Z) : mainE (result unit string)
| CtrlC : mainE (result unit string)
| ServerStop : mainE (result unit string)
| ServerStopped : mainE unit
| CancelCleanup : mainE unit
| CleanupStopped : mainE unit.

Section Main.
(** The [Display] text of a path, the [Debug] text of the configuration (its
    server section is [server_config_debug]) and the crate's version. *)
Context (path_display : Path -> string) (config_debug : VaultConfig -> string) (version : string).

Definition main_log (lvl : Level) (msg : string) : prog mainE unit :=
  trigger (MainLog (MkLog lvl "tari_vault" msg)).

(** [.context(c)?] *)
Definition with_context {A} (c : string) (e : mainE (result A string)) :
  prog mainE (result A AnyError) := map_err_p (fun err => [c; err]) (trigger e).

Definition open_storage (cfg : VaultConfig) : prog mainE (result unit AnyError) :=
  match st_backend (vc_storage cfg) with
  | BkFile =>
      _ ← main_log Info ("Storage backend: file (" +:+ path_display (st_vault_file (vc_storage cfg)) +:+ ")");
      with_context "Failed to open vault storage file" (OpenFile (st_vault_file (vc_storage cfg)))
  | BkSqlite =>
      _ ← main_log Info ("Storage backend: sqlite (" +:+ path_display (sqlite_path cfg) +:+ ")");
      with_context "Failed to open SQLite database" (OpenSqlite (sqlite_path cfg))
  end.

(** The cleanup task, when the interval is not zero. *)
Definition start_cleanup (cfg : VaultConfig) : prog mainE bool :=
  let secs := st_cleanup_interval_secs (vc_storage cfg) in
  if 0 <? secs then
    _ ← main_log Info ("Background cleanup enabled (interval: " +:+ pretty secs +:+ "s)");
    _ ← trigger (SpawnCleanup secs);
    Ret true
  else
    _ ← main_log Info "Background cleanup disabled (cleanup_interval_secs = 0)";
    Ret false.

(** The end of [main], once Ctrl-C was received. *)
Definition shut_down (cleanup_task : bool) : prog mainE (result unit AnyError) :=
  _ ← main_log Info "Shutdown signal received";
  _ <-? map_err_p (fun err => [err]) (trigger ServerStop);
  _ ← trigger ServerStopped;
  _ ← main_log Info "RPC server stopped";
  _ ← trigger CancelCleanup;
  _ ← (if cleanup_task
       then _ ← trigger CleanupStopped; main_log Info "Cleanup task stopped"
       else Ret tt);
  _ ← main_log Info "Shutdown complete";
  Ret (Ok tt).

(** [main], from the merged configuration on. *)
Definition main_prog (cfg : VaultConfig) : prog mainE (result unit AnyError) :=
  _ ← trigger (InitLogging (lg_level (vc_logging cfg)));
  _ ← main_log Info ("Starting Tari Vault v" +:+ version);
  _ ← main_log Debug ("Config: " +:+ config_debug cfg);
  _ <-? open_storage cfg;
  purged <-? with_context "Startup cleanup failed" StartupCleanup;
  _ ← (if (0 <? purged)%nat
       then main_log Info ("Startup cleanup: removed " +:+ pretty purged +:+ " expired proof(s)")
       else Ret tt);
  cleanup_task ← start_cleanup cfg;
  tls <-? Ret (tls_of_config cfg);
  _ ← (if sc_insecure_no_tls (vc_server cfg)
       then main_log Warn ("insecure_no_tls is enabled — plain HTTP on a non-loopback address. " +:+
                           "Ensure TLS is terminated by an external proxy.")
       else Ret tt);
  _ <-? with_context "Failed to start RPC server"
          (StartRpcServer (sc_bind_address (vc_server cfg)) (sc_auth_token (vc_server cfg)) tls
             (sc_insecure_no_tls (vc_server cfg)) (sc_max_proof_size_bytes (vc_server cfg)));
  _ <-? with_context "Failed to listen for Ctrl-C" CtrlC;
  shut_down cleanup_task.
End Main.
