(* ===== verification/MainProperties.v ===== *)
(** The properties of the configuration and of the life of the process, with
    their witnesses. *)
From S2P Require Export Main.

(** ** One instance of the configuration crate, for the witnesses *)

Module ConfigSample.
#[local] Instance crate : ConfigCrate := {|
  into_string v := match v with CvString s => Some s | _ => None end;
  into_u64 v := match v with CvInt z => if (0 <=? z) && (z <=? u64_max) then Some z else None | _ => None end;
  into_bool v := match v with CvBool b => Some b | _ => None end;
  environment_layer vars :=
    match vars !! "VAULT__LOGGING__LEVEL" with
    | Some s => <["logging.level" := CvString s]> ∅
    | None => ∅
    end;
  file_required p := Err "not found";
  file_auto _ := Ok ∅;
  missing_field k := "missing configuration field " +:+ k;
  invalid_type k := "invalid type: " +:+ k;
|}.

Lemma crate_laws : ConfigCrateLaws.
Proof.
  split; try done. intros z [? ?]; cbn. rewrite !(proj2 (Z.leb_le _ _)) by done. done.
Qed.

(** Paths of the two defaults only. *)
#[local] Instance path_text : PathText := {|
  path_of_string s := if bool_decide (s = "./tari_vault/vault.json") then default_vault_path None else [s];
  to_string_lossy p := "./tari_vault/vault.json";
|}.

Definition vars : gmap string string := <["VAULT__LOGGING__LEVEL" := "debug"]> ∅.
Definition no_options : Cli := MkCli None None None None None None None None None false.
Definition bound : Cli := MkCli None None (Some "[::1]:9000") (Some 0) None None None None None false.
Definition env_config : VaultConfig :=
  MkVaultConfig (vc_server (config_default None)) (vc_storage (config_default None))
    (MkLoggingConfig "debug").
End ConfigSample.

(** ** Configuration *)

Section Configuration.
Context `{ConfigCrateLaws, PathText}.

(** With no configuration file and no variables, loading gives the built-in
    defaults: every required field has one, and each survives the trip through
    the crate's values. *)
Theorem load_config_defaults data_dir :
  file_auto "vault_config" = Ok ∅ ->
  path_of_string (to_string_lossy (default_vault_path data_dir)) = default_vault_path data_dir ->
  load_config data_dir ∅ ∅ None = Ok (config_default data_dir).
Proof.
  intros Hauto Hpath. by apply load_defaults.
Qed.

(** The value a field has after loading and the command line: the flag, else
    the strongest layer that sets its key. *)
Definition effective {A} (flag : option A) (f : ConfigValue -> option A) (v : option ConfigValue) :
  option A :=
  match flag with Some a => Some a | None => v ≫= f end.

(** C37: the settings the process runs with come from the command line, else the
    environment, else the configuration file, else the defaults, field by
    field; except the log level, for which the environment and the file are
    never consulted because clap always supplies a flag. *)
Theorem settings_precedence data_dir dotenv vars file loaded given :
  load_config data_dir dotenv vars file = Ok loaded ->
  exists fl, file_layer file = Ok fl /\
  let v := strongest (default_layer (config_default data_dir)) fl (environment_layer (vars ∪ dotenv)) in
  let cfg := apply_cli (cli_parse given) loaded in
  Some (sc_bind_address (vc_server cfg)) = effective (cli_bind given) into_string (v "server.bind_address") /\
  sc_auth_token (vc_server cfg) = effective (cli_auth_token given) into_string (v "server.auth_token") /\
  sc_tls_cert_path (vc_server cfg) = effective (cli_tls_cert given) into_path (v "server.tls_cert_path") /\
  sc_tls_key_path (vc_server cfg) = effective (cli_tls_key given) into_path (v "server.tls_key_path") /\
  sc_insecure_no_tls (vc_server cfg) =
    cli_insecure_no_tls given || default false (v "server.insecure_no_tls" ≫= into_bool) /\
  sc_max_proof_size_bytes (vc_server cfg) =
    default default_max_proof_size_bytes (v "server.max_proof_size_bytes" ≫= into_u64) /\
  Some (st_vault_file (vc_storage cfg)) = effective (cli_vault_file given) into_path (v "storage.vault_file") /\
  Some (st_cleanup_interval_secs (vc_storage cfg)) =
    effective (cli_cleanup_interval given) into_u64 (v "storage.cleanup_interval_secs") /\
  st_backend (vc_storage cfg) = default BkFile (v "storage.backend" ≫= into_backend) /\
  st_sqlite_path (vc_storage cfg) = effective (cli_sqlite_path given) into_path (v "storage.sqlite_path") /\
  lg_level (vc_logging cfg) = default "info" (cli_log_level given).
Proof.
  intros (built & (fl & Hfl & Hb)%map_err_Ok%result_map_Ok & Hd%map_err_Ok)%try_r_Ok.
  exists fl. split; [done|]. cbn zeta. subst built.
  apply deserialize_spec in Hd. rewrite !layered_lookup in Hd.
  destruct Hd as (Hbind & Htoken & Hcert & Hkey & Hinsecure & Hmax & Hfile & Hsecs & Hback & Hsql & Hlevel).
  unfold effective, cli_parse, apply_cli, override, override_option; cbn.
  split_and!; try done.
  all: repeat case_match; cbn; try done; try congruence.
Qed.
End Configuration.

(** The debug text of the server section, which [main] logs, depends on the
    token only through whether there is one. *)
Theorem debug_hides_token (c1 c2 : ServerConfig) :
  (is_Some (sc_auth_token c1) <-> is_Some (sc_auth_token c2)) ->
  sc_bind_address c1 = sc_bind_address c2 -> sc_tls_cert_path c1 = sc_tls_cert_path c2 ->
  sc_tls_key_path c1 = sc_tls_key_path c2 -> sc_insecure_no_tls c1 = sc_insecure_no_tls c2 ->
  sc_max_proof_size_bytes c1 = sc_max_proof_size_bytes c2 ->
  server_config_debug c1 = server_config_debug c2.
Proof.
  unfold server_config_debug. intros Ht -> -> -> -> ->.
  destruct (sc_auth_token c1), (sc_auth_token c2); cbn; try done; exfalso.
  - by destruct (proj1 Ht) as [? [=]].
  - by destruct (proj2 Ht) as [? [=]].
Qed.

(** ** The life of the process *)

(** Where the process stands; the flag says whether the cleanup task runs. *)
Inductive Life : Type :=
| Starting
| Configured
| StorageOpen
| Swept (task : bool)
| Serving (task : bool)
| Interrupted (task : bool)
| Refusing (task : bool)
| ServerDown (task : bool)
| TaskCancelled (task : bool)
| TaskDown
| Failed.

Definition allow {Q} (P : Prop) `{Decision P} (q : Q) : option Q := if decide P then Some q else None.

(** Goes on after a success; after a failure the process may only end. *)
Definition after {A E} (r : result A E) (q : Life) : Life := if is_ok r then q else Failed.

(** The effects the process may have at each point, under the configuration
    [cfg]; log lines are always allowed. *)
Definition life (cfg : VaultConfig) (q : Life) X (e : mainE X) : X -> option Life :=
  let server := vc_server cfg in
  let storage := vc_storage cfg in
  match e in mainE X return X -> option Life with
  | MainLog _ => fun _ => Some q
  | InitLogging level => fun _ =>
      match q with Starting => allow (level = lg_level (vc_logging cfg)) Configured | _ => None end
  | OpenFile p => fun r =>
      match q with
      | Configured => allow (st_backend storage = BkFile /\ p = st_vault_file storage) (after r StorageOpen)
      | _ => None
      end
  | OpenSqlite p => fun r =>
      match q with
      | Configured => allow (st_backend storage = BkSqlite /\ p = sqlite_path cfg) (after r StorageOpen)
      | _ => None
      end
  | StartupCleanup => fun r =>
      match q with StorageOpen => Some (after r (Swept false)) | _ => None end
  | SpawnCleanup secs => fun _ =>
      match q with
      | Swept false => allow (0 < secs /\ secs = st_cleanup_interval_secs storage) (Swept true)
      | _ => None
      end
  | StartRpcServer bind token tls insecure max => fun r =>
      match q with
      | Swept task =>
          allow (task = (0 <? st_cleanup_interval_secs storage) /\ bind = sc_bind_address server /\
                 token = sc_auth_token server /\ tls_of_config cfg = Ok tls /\
                 insecure = sc_insecure_no_tls server /\ max = sc_max_proof_size_bytes server)
            (after r (Serving task))
      | _ => None
      end
  | CtrlC => fun r => match q with Serving task => Some (after r (Interrupted task)) | _ => None end
  | ServerStop => fun r =>
      match q with Interrupted task => Some (after r (Refusing task)) | _ => None end
  | ServerStopped => fun _ => match q with Refusing task => Some (ServerDown task) | _ => None end
  | CancelCleanup => fun _ => match q with ServerDown task => Some (TaskCancelled task) | _ => None end
  | CleanupStopped => fun _ => match q with TaskCancelled true => Some TaskDown | _ => None end
  end.

(** How [main] may end: well, with the server down and then the cleanup task;
    or with an error, when an effect failed or one TLS path is missing. *)
Definition ends_in (cfg : VaultConfig) (q : Life) (r : result unit AnyError) : Prop :=
  match r with
  | Ok _ => q = TaskDown \/ q = TaskCancelled false
  | Err _ => q = Failed \/ (exists task, q = Swept task) /\ is_ok (tls_of_config cfg) = false
  end.

Lemma allow_true {Q} (P : Prop) `{Decision P} (q : Q) : P -> allow P q = Some q.
Proof. unfold allow. by destruct (decide P). Qed.

Section Lifecycle.
Context (path_display : Path -> string) (config_debug : VaultConfig -> string) (version : string).

(** C23: whatever fails, the process lives by its protocol: logging first; the
    configured backend is opened before the startup sweep, the sweep succeeds
    before anything is served, the cleanup task runs exactly when its interval
    is not zero; the server gets the configured address, token, flag and limit,
    and both TLS paths or neither; after Ctrl-C the server is down before the
    task is cancelled, and the task is down before [main] returns. *)
Theorem process_lifecycle cfg :
  obeys (life cfg) (ends_in cfg) Starting (main_prog path_display config_debug version cfg).
Proof.
  unfold main_prog. cbn. intros _. rewrite allow_true by done. intros _ _.
  apply (obeys_bind _ (fun q r => q = if is_ok r then StorageOpen else Failed)).
  { unfold open_storage. destruct (st_backend _) eqn:Hb; cbn; intros _ r;
      rewrite allow_true by done; by destruct r. }
  intros q [[]|e] ->; cbn; [|by left]. intros [purged|e]; cbn; [|by left].
  apply (obeys_bind _ (fun q _ => q = Swept false)); [by destruct purged|].
  intros ? [] ->.
  apply (obeys_bind _ (fun q b => q = Swept b /\ b = (0 <? st_cleanup_interval_secs (vc_storage cfg)))).
  { unfold start_cleanup. destruct (Z.ltb_spec 0 (st_cleanup_interval_secs (vc_storage cfg))); cbn;
      intros _; [|done]. intros _. by rewrite allow_true. }
  intros ? task [-> Htask]. destruct (tls_of_config cfg) as [tls|e] eqn:Htls; cbn.
  2:{ right. rewrite Htls. split; [by eexists|done]. }
  apply (obeys_bind _ (fun q _ => q = Swept task)); [by destruct (sc_insecure_no_tls _)|].
  intros ? [] ->. cbn. intros r. rewrite allow_true by done. destruct r as [[]|e]; cbn; [|by left].
  intros [[]|e]; cbn; [|by left]. intros _ [[]|e]; cbn; [|by left]. intros _ _ _.
  destruct task; cbn; intros; by auto.
Qed.
End Lifecycle.

(** ** Witnesses *)

Section Witnesses.
Import ConfigSample.
#[local] Existing Instance crate.
#[local] Existing Instance path_text.

Lemma load_config_defaults_witness : load_config None ∅ ∅ None = Ok (config_default None).
Proof. pose proof crate_laws. by apply load_config_defaults. Defined.

Lemma settings_precedence_witness :
  lg_level (vc_logging (apply_cli (cli_parse no_options) env_config)) = "info" /\
  sc_bind_address (vc_server (apply_cli (cli_parse bound) env_config)) = "[::1]:9000".
Proof.
  pose proof crate_laws.
  destruct (settings_precedence None ∅ vars None env_config no_options) as (fl & _ & Hs).
  { by vm_compute. }
  destruct (settings_precedence None ∅ vars None env_config bound) as (fl' & _ & Hb & _).
  { by vm_compute. }
  split; [apply Hs|]. exact (f_equal (default EmptyString) Hb).
Defined.

Lemma debug_hides_token_witness :
  server_config_debug (MkServerConfig "a" (Some "one") None None false 1) =
  server_config_debug (MkServerConfig "a" (Some "two") None None false 1).
Proof. apply debug_hides_token; done. Defined.
End Witnesses.
